(* ===== verification/_CoqProject ===== *)
-Q . S2P
Prelude.v
RustStd.v
Tasks.v
Crates.v
BlockId.v
Fs.v
Instances.v
Crypto.v
Jwks.v
ServerConfig.v
Config.v
ConfigSpec.v
Replay.v
ReplaySpec.v
Logging.v
Async.v
Linearize.v
Context.v
Server.v
Http.v
ProxyTrust.v
Failure.v
Fixtures.v
ContextSpec.v
Refresh.v
RefreshSpec.v
Token.v
Dpop.v
AuthFixtures.v
TokenSpec.v
DpopSpec.v
Middleware.v
MiddlewareSpec.v
Storage.v
Blocks.v
StorageSpec.v
BlocksSpec.v
Routes.v
RoutesSpec.v
RequestSpec.v
RaceSpec.v
IntegritySpec.v
LinearSpec.v
Testing.v
MintFixtures.v
AcceptSpec.v
LocalFs.v
LocalFsSpec.v
LocalFsAtomic.v
LocalFsCalls.v
Shutdown.v
App.v
AppSpec.v
DeploySpec.v
