(* ===== verification/Prelude.v ===== *)
(** * apokryphos-server: verification development

    The server ([src/server/src]) stores fixed-size blocks for authenticated
    clients.  A request passes the proxy-trust middleware, is routed, is
    authenticated by the guard of its audience (an OAuth access token bound to
    a DPoP proof), and reaches a handler that talks to a storage provider.
    Two OIDC contexts, one per audience, hold the issuers' keys; background
    tasks and the requests themselves refresh them; a replay store remembers
    proof identifiers.  Startup builds all of this from the configuration,
    shutdown drains it.  This library models each of these parts from its
    source and proves what makes it correct.

    ** How the code is represented

    Synchronous functions are functions; [Result] is [result], a function that
    can panic returns an [outcome].  A function that several tasks run at once
    is a program of atomic steps on the shared state ([Async], [Server]): one
    step per lock held, atomic access, clock read or network exchange.
    [block_on] runs a program while a schedule of other tasks changes the state
    between its steps, so a theorem about every schedule is a theorem about
    every interleaving; [pool_step] interleaves explicit programs.  Machine
    integers are [N] with their bounds and saturating or checked operations
    written out; [usize] depends on the [Target].  Third-party crates are type
    classes in [Crates] (and [Fs], [Dpop], [App]) that carry only documented
    behaviour; [Instances] implements every one of them, so that no hypothesis
    is vacuous and the witnesses run.

    ** The files

    - [Prelude], [RustStd], [Async], [Tasks], [Crates], [Instances]: results,
      panics, notations, strings, numbers, addresses and paths of Rust's
      standard library, programs of steps, the loop of the background tasks,
      the crates' interfaces and their instances.
    - [BlockId] ([storage/block_id.rs], [storage/path.rs]): identifiers and
      their sharded paths.  Parsing accepts exactly the alphabet; paths stay
      below the root and determine the block.
    - [Storage] ([storage/provider.rs]): the provider interface, a class with
      its laws; [exists] is tied to what is stored, or to something that is not
      a block in its place (a directory).  [Fs]: a Unix file system with faults
      and the process's umask, and the [tempfile] crate.  [LocalFs],
      [LocalFsSpec], [LocalFsAtomic] ([storage/local_fs.rs]): the local
      provider, programs of system calls.  It refines the interface under
      arbitrary faults; interleaved operations refine a machine in which each
      happens at once; reads are never torn; failed writes leave no trace; the
      startup probe leaves at most its own two files.
    - [StorageSpec], [LocalFsCalls]: the storage as the server runs it, with
      operations that are programs of steps.  Two interfaces for the handlers:
      the steps touch nothing else and end ([StorageSteps]); each operation
      takes effect in one step while others run ([LinearStorage]).  Both hold of
      a provider with atomic operations that obeys the trait's laws, and of the
      local backend's system calls.
    - [ServerConfig], [Config], [ConfigSpec] ([config/]): collection, merging
      and validation.  Accepted configurations are well-formed; the
      environment takes precedence key by key; both scalar forms agree.
    - [Replay], [ReplaySpec] ([auth/replay.rs]): the replay store, its two
      locks as separate steps.  A key is accepted at most once per window, and
      length, map and queue agree, under any interleaving.
    - [Crypto] ([auth/crypto.rs]), [Jwks] ([auth/jwks.rs]): comparison,
      thumbprints and the algorithm allowlist.  Thumbprints identify keys;
      parsed sets hold only allowlisted keys and index all of them.
    - [Context], [ContextSpec] ([auth/context.rs], [auth/discovery.rs]):
      startup of the two contexts and installation of refreshed keys; the key
      sets stay disjoint.
    - [Logging] ([logging/], [cli/mod.rs]): events as values.
    - [Server]: the shared state and the atomic steps on it.  [Refresh],
      [RefreshSpec] ([auth/jwks.rs], [auth/discovery.rs]): scheduled and
      on-demand refreshes; the rate of requests to the issuer is bounded.
    - [Http], [ProxyTrust] ([auth/subject.rs], [proxy_trust/]): requests,
      subjects, and the effective address, which fails closed.
    - [Failure] ([auth/failure.rs]), [Token], [TokenSpec] ([auth/token.rs]),
      [Dpop], [DpopSpec] ([auth/dpop.rs]), [Middleware], [MiddlewareSpec]
      ([auth/middleware.rs]): the authentication pipeline.  What an accepted
      token and proof prove under any interference, which are accepted, that
      replays are rejected, that rejections are uniform, that audiences are
      isolated.
    - [Blocks], [BlocksSpec] ([routes/api/blocks.rs]): the block handlers over
      any storage.  Alone, over a provider that obeys the trait's laws: only
      blocks of the configured size are stored; reads return what was stored; answers are uniform.
    - [Routes], [RoutesSpec] ([routes/]): the router.  End to end, nothing but
      the health check succeeds without authentication for its own audience;
      what is not served gets one bare 404.
    - [RequestSpec], [RaceSpec], [IntegritySpec]: the whole request path.  Every
      request is answered, in a bounded number of steps and without a panic; what the
      log may say of it is fixed; of concurrent requests with one proof
      identifier at most one succeeds; a block changes only by an authenticated
      request for that block.
    - [Linearize], [LinearSpec]: services that run a program per request,
      their histories, and linearizability, reduced to a property of each
      program, which may claim parts of the state that others leave alone.  The
      whole router, with any number of requests in progress, is an atomic map of
      blocks: what is acknowledged is what is read.
    - [Testing] ([auth/testing.rs]), [AcceptSpec]: the client and the issuer of
      the integration tests, and the converse of the soundness theorems: what
      they mint is accepted by the whole router, and not again while its proof
      is recorded, also under a key the issuer has just rotated in, at the price
      of one refresh.
    - [Shutdown], [App], [AppSpec] ([shutdown/mod.rs], [app.rs],
      [storage/mod.rs], [main.rs]): the bootstrap as a program with the
      effects an observer sees, and the serve loop as a state machine over
      wake-ups.  Startup is all-or-nothing, ordered, and establishes the
      invariants the other components rely on; completion is reported exactly
      once; after a signal the server ends within the drain timeout, and so do
      the background tasks; from the first step to the exit code the effects of
      a process are exactly those of its startup and of its end.
    - [DeploySpec]: bootstrap, router and local provider together, at the
      grain of system calls.  Processes run one after the other on one root
      directory, and killed at any moment, serve one map of blocks.
    - [Fixtures], [AuthFixtures], [MintFixtures]: a concrete server, token and
      proof, and a toy signer, used by the witnesses only.

    ** Bounds and fuel

    Recursion is structural nearly everywhere: programs are finite trees, the
    loops of background tasks and of the serve phase run over the list of
    events they receive.  The one function with fuel is the decimal printer,
    whose fuel is the binary length of the number, which is at least the
    number of its digits.  The wait of an on-demand refresh for another one is
    two steps: its timeout is a bound on time, not on steps.  A request takes at
    most 16 steps and those of one storage operation: ten to decode a token (with
    a refresh of eight in between), one clock read for its claims, four for the
    proof and its replay entry, and one log line.  An operation of the local
    backend takes at most eight calls, one of a [StorageProvider] one.

    ** Choices a reader should know

    Deadlines and clocks are nanoseconds.  The timer of the drain is tokio's
    and may be up to a millisecond late.  [AppError::Auth] carries a message in
    the code and the errors that message displays in the model.  The shutdown
    future (event, watch, notification) is one wake-up: nothing in it waits
    after the signal.  The extra steps of the router crate (the most specific
    pattern wins) do not show, because no two patterns of the server overlap.
    The replay store is one store handed to every guard, as in [run].  The
    trait's operations are modelled twice: as functions ([StorageProvider], with
    the documented contract as laws) and as programs ([AsyncStorage], what the
    handlers call).  The body of a PUT arrives before the handler's next step:
    waiting for it touches nothing that is shared, so it is no step, and what
    bounds a request's steps does not bound the client's sending.  New files
    get the mode asked for less the umask, which is taken to spare the owner's
    bits, so that 0600 and 0700 come out unchanged.  [persist_noclobber] is not
    atomic, as its documentation says: a success may leave the temporary file's
    link behind.  The process may be killed between any two system calls; a
    loss of power, which may undo calls that have returned, is not modelled.

    ** Not modelled

    Network I/O, TLS, JSON and TOML parsing, JWS verification, hashing, and
    the HTTP server are libraries and enter as parameters.  Command-line
    parsing is clap's.  The tower plumbing of the guards ([poll_ready], boxing
    and cloning), [axum] extractors that hand on what a guard inserted, accessors
    and re-exports, and the tracing subscriber have no logic of the server's own.
    Of [auth/testing.rs] the random generator and key generation are library
    calls; JSON values are the records they encode, and signing is a parameter
    whose law is that what is signed decodes and verifies under the public key.
    The remaining test-only constructors are helpers of the tests.
    Display strings of errors are kept as the data they print. *)

From Stdlib Require Export Ascii NArith ZArith Lia.
From stdpp Require Export base gmap strings list numbers option.

#[global] Open Scope N_scope.
#[global] Open Scope stdpp_scope.

(** ** Results: Rust's [Result<A, E>] and panics *)

Inductive result (E A : Type) : Type :=
  | Ok (a : A)
  | Err (e : E).
Arguments Ok {E A} a.
Arguments Err {E A} e.

Global Instance result_ret {E} : MRet (result E) := fun _ a => Ok a.
Global Instance result_bind {E} : MBind (result E) := fun _ _ f r =>
  match r with Ok a => f a | Err e => Err e end.
Global Instance result_fmap {E} : FMap (result E) := fun _ _ f r =>
  match r with Ok a => Ok (f a) | Err e => Err e end.

Global Instance result_eq_dec {E A} `{EqDecision E, EqDecision A} :
  EqDecision (result E A).
Proof. solve_decision. Defined.

(** [r.map_err(f)], [o.ok_or(e)], [r.ok()], [o.unwrap_or(d)]. *)
Definition map_err {E F A} (f : E -> F) (r : result E A) : result F A :=
  match r with Ok a => Ok a | Err e => Err (f e) end.
Definition ok_or {E A} (o : option A) (e : E) : result E A :=
  match o with Some a => Ok a | None => Err e end.
Definition res_ok {E A} (r : result E A) : option A :=
  match r with Ok a => Some a | Err _ => None end.
Definition unwrap_or {A} (o : option A) (d : A) : A :=
  match o with Some a => a | None => d end.
Definition is_ok {E A} (r : result E A) : bool :=
  match r with Ok _ => true | Err _ => false end.

(** [if c { return Err(e) }]: a guard with an early return. *)
Definition bail_if {E} (c : bool) (e : E) : result E unit :=
  if c then Err e else Ok ().

(** A computation that may panic ([unreachable!], [expect]). *)
Inductive outcome (A : Type) : Type :=
  | Value (a : A)
  | Panic.
Arguments Value {A} a.
Arguments Panic {A}.

Global Instance outcome_eq_dec {A} `{EqDecision A} : EqDecision (outcome A).
Proof. solve_decision. Defined.

(** Sequencing after a call that may panic, and after one that may also fail. *)
Definition out_bind {A B} (o : outcome A) (k : A -> outcome B) : outcome B :=
  match o with Value a => k a | Panic => Panic end.
Definition try_bind {E A B} (o : outcome (result E A)) (k : A -> outcome (result E B)) :
    outcome (result E B) :=
  match o with Value (Ok a) => k a | Value (Err e) => Value (Err e) | Panic => Panic end.

(** The call returned, with a success. *)
Definition accepts {E A} (o : outcome (result E A)) : bool :=
  match o with Value (Ok _) => true | _ => false end.

Declare Scope rust_scope.
Delimit Scope rust_scope with rust.
Notation "o 'or!' e" := (ok_or o e) (at level 60, no associativity) : rust_scope.
Notation "'let?' x := r 'in' k" := (mbind (M := result _) (fun x => k) r)
  (at level 10, x name, r at level 100, k at level 200) : rust_scope.
Notation "'bail!' e 'when' c ;; k" := (mbind (M := result _) (fun _ : unit => k) (bail_if c e))
  (at level 10, e at level 99, c at level 99, k at level 200) : rust_scope.
Notation "'let!' x := r 'in' k" := (out_bind r (fun x => k))
  (at level 10, x name, r at level 100, k at level 200) : rust_scope.
Notation "'let?!' x := r 'in' k" := (try_bind r (fun x => k))
  (at level 10, x name, r at level 100, k at level 200) : rust_scope.
#[global] Open Scope rust_scope.

Section result_lemmas.
Context {E F A B : Type}.
Implicit Types (r : result E A) (o : option A).

Lemma bind_Ok r (k : A -> result E B) b :
  mbind k r = Ok b <-> exists a, r = Ok a /\ k a = Ok b.
Proof. destruct r; cbn; naive_solver. Qed.

Lemma bind_Err r (k : A -> result E B) e :
  mbind k r = Err e <-> r = Err e \/ exists a, r = Ok a /\ k a = Err e.
Proof. destruct r; cbn; naive_solver. Qed.

Lemma ok_or_Ok o (e : E) a : ok_or o e = Ok a <-> o = Some a.
Proof. destruct o; cbn; naive_solver. Qed.

Lemma ok_or_Err o (e e' : E) : ok_or o e = Err e' <-> o = None /\ e' = e.
Proof. destruct o; cbn; naive_solver. Qed.

Lemma map_err_Ok (f : E -> F) r a : map_err f r = Ok a <-> r = Ok a.
Proof. destruct r; cbn; naive_solver. Qed.

Lemma bail_if_Ok c (e : E) u : bail_if c e = Ok u <-> c = false.
Proof. destruct c, u; cbn; naive_solver. Qed.

Lemma bail_if_Err c (e e' : E) : bail_if c e = Err e' <-> c = true /\ e' = e.
Proof. destruct c; cbn; naive_solver. Qed.
End result_lemmas.

(** [inv_res]: peel a successful chain of [let?]/[bail!] in the hypotheses
    into one equation per step. *)
Ltac inv_res :=
  repeat match goal with
  | H : mbind _ _ = Ok _ |- _ => apply bind_Ok in H; destruct H as (? & ? & H)
  | H : ok_or _ _ = Ok _ |- _ => apply ok_or_Ok in H
  | H : map_err _ _ = Ok _ |- _ => apply map_err_Ok in H
  | H : bail_if _ _ = Ok ?u |- _ => apply bail_if_Ok in H; try clear u
  | H : Ok _ = Ok _ |- _ => injection H as H; subst
  | H : Err _ = Ok _ |- _ => discriminate H
  | H : Ok _ = Err _ |- _ => discriminate H
  | H : Err _ = Err _ |- _ => injection H as H; subst
  end; subst.

Lemma try_bind_Ok {E A B} (o : outcome (result E A)) (k : A -> outcome (result E B)) b :
  try_bind o k = Value (Ok b) <-> exists a, o = Value (Ok a) /\ k a = Value (Ok b).
Proof. destruct o as [[]|]; cbn; naive_solver. Qed.

Lemma Value_Ok {E A} (r : result E A) a : Value r = Value (Ok a) <-> r = Ok a.
Proof. naive_solver. Qed.

Ltac inv_out :=
  repeat match goal with
  | H : try_bind _ _ = Value (Ok _) |- _ => apply try_bind_Ok in H; destruct H as (? & ? & H)
  | H : Value _ = Value (Ok _) |- _ => apply Value_Ok in H
  end; inv_res.

(** [case_match_in H]: destruct the scrutinee of the first match in [H]. *)
Ltac case_match_in H :=
  match type of H with
  | context [match ?x with _ => _ end] => destruct x eqn:?
  end.

(** [bool_hyps]: boolean hypotheses to propositions. *)
Ltac bool_hyps :=
  repeat match goal with
  | H : andb _ _ = true |- _ => apply andb_true_iff in H; destruct H
  | H : orb _ _ = false |- _ => apply orb_false_iff in H; destruct H
  | H : negb _ = true |- _ => apply negb_true_iff in H
  | H : negb _ = false |- _ => apply negb_false_iff in H
  | H : bool_decide _ = true |- _ => apply bool_decide_eq_true in H
  | H : bool_decide _ = false |- _ => apply bool_decide_eq_false in H
  | H : N.eqb _ _ = true |- _ => apply N.eqb_eq in H
  | H : N.eqb _ _ = false |- _ => apply N.eqb_neq in H
  | H : N.leb _ _ = true |- _ => apply N.leb_le in H
  | H : N.leb _ _ = false |- _ => apply N.leb_gt in H
  | H : N.ltb _ _ = true |- _ => apply N.ltb_lt in H
  | H : N.ltb _ _ = false |- _ => apply N.ltb_ge in H
  | H : String.eqb _ _ = true |- _ => apply String.eqb_eq in H
  | H : String.eqb _ _ = false |- _ => apply String.eqb_neq in H
  end.

Create HintDb rust.
Create Rewrite HintDb rust_rw.
#[export] Hint Rewrite @bind_Ok @ok_or_Ok @map_err_Ok @bail_if_Ok : rust_rw.

(** ** Machine integers

    [u64] and [usize] values are [N]; the bounds and the wrap-around are
    explicit.  [i64] values (TOML integers) are [Z]. *)

Definition u64_max : N := 18446744073709551615.
Definition u32_max : N := 4294967295.

Definition u64_checked_add (a b : N) : option N :=
  if a + b <=? u64_max then Some (a + b) else None.
Definition u64_saturating_add (a b : N) : N := N.min (a + b) u64_max.
(** Plain [+] in a release build (no overflow checks): wraps. *)
Definition u64_wrapping_add (a b : N) : N := (a + b) mod (u64_max + 1).
(** [saturating_sub] is truncated subtraction on [N]. *)
Definition u64_saturating_sub (a b : N) : N := a - b.

(** The width of [usize] is the target's. *)
Class Target := { usize_max : N; usize_width : usize_max = u32_max \/ usize_max = u64_max }.
Definition target64 : Target := {| usize_max := u64_max; usize_width := or_intror eq_refl |}.
Definition target32 : Target := {| usize_max := u32_max; usize_width := or_introl eq_refl |}.

(** [n as usize] truncates; [usize::try_from(n)] checks. *)
Definition as_usize `{Target} (n : N) : N := n mod (usize_max + 1).
Definition usize_try_from `{Target} (n : N) : option N :=
  if n <=? usize_max then Some n else None.

Lemma u64_checked_add_Some a b c :
  u64_checked_add a b = Some c <-> c = a + b /\ a + b <= u64_max.
Proof.
  unfold u64_checked_add. destruct (N.leb_spec (a + b) u64_max); naive_solver lia.
Qed.

Lemma u64_checked_add_None a b :
  u64_checked_add a b = None <-> u64_max < a + b.
Proof.
  unfold u64_checked_add. destruct (N.leb_spec (a + b) u64_max); naive_solver lia.
Qed.

Lemma u64_wrapping_add_exact a b :
  a + b <= u64_max -> u64_wrapping_add a b = a + b.
Proof. intros. unfold u64_wrapping_add. apply N.mod_small. unfold u64_max in *. lia. Qed.

Lemma as_usize_exact `{Target} n : n <= usize_max -> as_usize n = n.
Proof. intros. unfold as_usize. apply N.mod_small. lia. Qed.

#[export] Hint Resolve u64_wrapping_add_exact as_usize_exact : rust.

(** ** Bytes and strings

    A [&str]/[String] is a Stdlib [string]: a sequence of bytes (its UTF-8
    encoding), so [String.length] is [str::len]. *)

Abbreviation byte := Corelib.Init.Byte.byte.
Abbreviation bytes := (list Corelib.Init.Byte.byte).

Definition as_bytes (s : string) : bytes := String.list_byte_of_string s.
Definition str_len (s : string) : N := N.of_nat (String.length s).
Definition bytes_len (b : bytes) : N := N.of_nat (length b).

Global Instance byte_eq_dec : EqDecision byte.
Proof. intros x y. destruct (Byte.eqb x y) eqn:E.
  - left. by apply Byte.byte_dec_bl.
  - right. intros ->. by rewrite Byte.byte_dec_lb in E.
Defined.

Global Instance byte_countable : Countable byte.
Proof.
  refine (inj_countable Byte.to_N Byte.of_N _). intros b. by destruct b.
Defined.

(** [s.as_bytes()[i] as u8], as a number. *)
Definition u8 (c : ascii) : N := N_of_ascii c.

Lemma u8_bound c : u8 c < 256.
Proof. apply N_ascii_bounded. Qed.

#[global] Arguments String.append : simpl nomatch.

Lemma str_app_nil_r (s : string) : s +:+ "" = s.
Proof. induction s as [|c s IH]; [done|]. simpl. by rewrite IH. Qed.

#[global] Arguments N.leb : simpl nomatch.
#[global] Arguments N.ltb : simpl nomatch.
#[global] Arguments N.eqb : simpl nomatch.
#[global] Arguments N.compare : simpl nomatch.
