(* ===== verification/RustStd.v ===== *)
(** * RustStd: the parts of Rust's standard library the server calls

    String operations on the UTF-8 bytes of a [&str] ([trim], [split],
    [split_once], [strip_prefix], [trim_end_matches],
    [eq_ignore_ascii_case]), integer parsing and printing
    ([str::parse::<u64>], [to_string]), the address parser of [core::net]
    ([IpAddr], [SocketAddr]), [Path::join]/[is_absolute]/components on Unix,
    and [io::ErrorKind]. *)

From S2P Require Import Prelude.

(** ** [str] *)

Definition in_range (lo hi : N) (c : ascii) : bool := (lo <=? u8 c) && (u8 c <=? hi).

Definition ascii_lower (c : ascii) : ascii :=
  if in_range 65 90 c then ascii_of_N (u8 c + 32) else c.

Fixpoint to_ascii_lowercase (s : string) : string :=
  match s with
  | "" => ""
  | String c r => String (ascii_lower c) (to_ascii_lowercase r)
  end.

Definition eq_ignore_ascii_case (a b : string) : bool :=
  String.eqb (to_ascii_lowercase a) (to_ascii_lowercase b).

Fixpoint strip_prefix (p s : string) : option string :=
  match p, s with
  | "", _ => Some s
  | String a p', String b s' => if Ascii.eqb a b then strip_prefix p' s' else None
  | String _ _, "" => None
  end.

Definition starts_with (p s : string) : bool :=
  match strip_prefix p s with Some _ => true | None => false end.

(** [s.split_once(c)]: around the first occurrence of the separator. *)
Fixpoint split_once (sep : ascii) (s : string) : option (string * string) :=
  match s with
  | "" => None
  | String c r =>
      if Ascii.eqb c sep then Some ("", r)
      else match split_once sep r with
           | Some (a, b) => Some (String c a, b)
           | None => None
           end
  end.

(** [s.split(c)]: never empty; [""] yields one empty piece. *)
Fixpoint split (sep : ascii) (s : string) : list string :=
  match s with
  | "" => [""]
  | String c r =>
      if Ascii.eqb c sep then "" :: split sep r
      else match split sep r with
           | p :: ps => String c p :: ps
           | [] => [String c ""]
           end
  end.

Fixpoint trim_end_matches (m : ascii) (s : string) : string :=
  match s with
  | "" => ""
  | String c r =>
      match trim_end_matches m r with
      | "" => if Ascii.eqb c m then "" else String c ""
      | r' => String c r'
      end
  end.

(** Unicode [White_Space], as UTF-8 byte sequences: U+0009..D, U+0020;
    U+0085, U+00A0; U+1680, U+2000..A, U+2028, U+2029, U+202F, U+205F, U+3000. *)
Definition ws1 (a : ascii) : bool := in_range 9 13 a || (u8 a =? 32).
Definition ws2 (a b : ascii) : bool :=
  (u8 a =? 194) && ((u8 b =? 133) || (u8 b =? 160)).
Definition ws3 (a b c : ascii) : bool :=
  ((u8 a =? 225) && (u8 b =? 154) && (u8 c =? 128))
  || ((u8 a =? 226) && (u8 b =? 128)
      && (in_range 128 138 c || (u8 c =? 168) || (u8 c =? 169) || (u8 c =? 175)))
  || ((u8 a =? 226) && (u8 b =? 129) && (u8 c =? 159))
  || ((u8 a =? 227) && (u8 b =? 128) && (u8 c =? 128)).

Fixpoint trim_start (s : string) : string :=
  match s with
  | "" => ""
  | String a r =>
      if ws1 a then trim_start r else
      match r with
      | "" => s
      | String b r2 =>
          if ws2 a b then trim_start r2 else
          match r2 with
          | "" => s
          | String c r3 => if ws3 a b c then trim_start r3 else s
          end
      end
  end.

Fixpoint trim_end (s : string) : string :=
  match trim_start s with
  | "" => ""
  | String _ _ => match s with "" => "" | String c r => String c (trim_end r) end
  end.

Definition trim (s : string) : string := trim_end (trim_start s).

Definition is_empty (s : string) : bool := match s with "" => true | _ => false end.

(** ** Integer parsing and printing *)

Definition digit_val (radix : N) (c : ascii) : option N :=
  let d := if in_range 48 57 c then Some (u8 c - 48)
           else if in_range 97 122 c then Some (u8 c - 87)
           else if in_range 65 90 c then Some (u8 c - 55) else None in
  match d with Some v => if v <? radix then Some v else None | None => None end.

(** The accumulation loop: [checked_mul] then [checked_add] against [max]. *)
Fixpoint parse_digits (max acc : N) (s : string) : option N :=
  match s with
  | "" => Some acc
  | String c r =>
      match digit_val 10 c with
      | Some d => if acc * 10 + d <=? max then parse_digits max (acc * 10 + d) r else None
      | None => None
      end
  end.

(** [s.parse::<u64>()]: a leading [+] is accepted, a lone sign or the empty
    string is not, and any overflow is an error. *)
Definition parse_uint (max : N) (s : string) : option N :=
  match s with
  | "" => None
  | String "+" "" => None
  | String "+" r => parse_digits max 0 r
  | _ => parse_digits max 0 s
  end.
Definition parse_u64 (s : string) : option N := parse_uint u64_max s.

Definition digit_char (d : N) : ascii := ascii_of_N (48 + d).

Fixpoint show_go (fuel : nat) (n : N) (acc : string) : string :=
  match fuel with
  | O => acc
  | S f =>
      let acc' := String (digit_char (n mod 10)) acc in
      if n <? 10 then acc' else show_go f (n / 10) acc'
  end.

(** [n.to_string()]; the binary size bounds the number of digits. *)
Definition show_N (n : N) : string := show_go (S (N.size_nat n)) n "".

Definition show_Z (z : Z) : string :=
  match z with
  | Z0 => "0"
  | Zpos p => show_N (Npos p)
  | Zneg p => String "-" (show_N (Npos p))
  end.

(** ** [core::net]: addresses and their parser *)

Inductive IpAddr : Type :=
  | V4 (a b c d : N)
  | V6 (segments : list N).

Global Instance IpAddr_eq_dec : EqDecision IpAddr.
Proof. solve_decision. Defined.

Definition LOCALHOST : IpAddr := V4 127 0 0 1.

Record SocketAddr := { sa_ip : IpAddr; sa_port : N; sa_scope_id : N }.

Definition parser (A : Type) := string -> option (A * string).

Definition read_given_char (c : ascii) : parser unit := fun s =>
  match s with
  | String d r => if Ascii.eqb c d then Some (tt, r) else None
  | "" => None
  end.

(** The digit loop; [max_digits = None] is the checked-arithmetic variant. *)
Fixpoint read_digits (radix : N) (max_digits : option nat) (bound : N)
    (count : nat) (acc : N) (s : string) : option (N * nat * string) :=
  match s with
  | String c r =>
      match digit_val radix c with
      | Some d =>
          let acc' := acc * radix + d in
          match max_digits with
          | Some m => if (m <? S count)%nat then None
                      else read_digits radix max_digits bound (S count) acc' r
          | None => if acc' <=? bound
                    then read_digits radix max_digits bound (S count) acc' r else None
          end
      | None => Some (acc, count, s)
      end
  | "" => Some (acc, count, s)
  end.

Definition read_number (radix : N) (max_digits : option nat) (allow_zero_prefix : bool)
    (bound : N) : parser N := fun s =>
  let has_leading_zero := match s with String "0" _ => true | _ => false end in
  match read_digits radix max_digits bound O 0 s with
  | None => None
  | Some (n, count, r) =>
      if (count =? 0)%nat then None
      else if negb allow_zero_prefix && has_leading_zero && (1 <? count)%nat then None
      else if n <=? bound then Some (n, r) else None
  end.

(** [read_separator]: the separator is read before every item but the first. *)
Definition read_separator {A} (sep : ascii) (index : nat) (inner : parser A) : parser A :=
  fun s =>
    if (0 <? index)%nat
    then match read_given_char sep s with Some (_, r) => inner r | None => None end
    else inner s.

Definition read_octet (index : nat) : parser N :=
  read_separator "." index (read_number 10 (Some 3%nat) false 255).

Definition read_ipv4_octets : parser (N * N * N * N) := fun s =>
  '(a, s) ← read_octet 0 s;
  '(b, s) ← read_octet 1 s;
  '(c, s) ← read_octet 2 s;
  '(d, s) ← read_octet 3 s;
  Some ((a, b, c, d), s).

Definition read_ipv4_addr : parser IpAddr := fun s =>
  '(o, s) ← read_ipv4_octets s;
  let '(a, b, c, d) := o in Some (V4 a b c d, s).

(** [read_groups p groups]: [left] slots remain, [i] were read. *)
Fixpoint read_groups (left : nat) (i : nat) (acc : list N) (s : string)
    : list N * bool * string :=
  match left with
  | O => (acc, false, s)
  | S left' =>
      let v4 := if (1 <? left)%nat then read_separator ":" i read_ipv4_octets s else None in
      match v4 with
      | Some ((a, b, c, d), r) => (acc ++ [a * 256 + b; c * 256 + d], true, r)
      | None =>
          match read_separator ":" i (read_number 16 (Some 4%nat) true 65535) s with
          | Some (g, r) => read_groups left' (S i) (acc ++ [g]) r
          | None => (acc, false, s)
          end
      end
  end.

Definition read_ipv6_addr : parser IpAddr := fun s =>
  let '(head, head_ipv4, s) := read_groups 8 0 [] s in
  if (length head =? 8)%nat then Some (V6 head, s)
  else if head_ipv4 then None
  else
    '(_, s) ← read_given_char ":" s;
    '(_, s) ← read_given_char ":" s;
    let '(tail, _, s) := read_groups (8 - (length head + 1)) 0 [] s in
    Some (V6 (head ++ replicate (8 - length head - length tail) 0 ++ tail), s).

Definition read_ip_addr : parser IpAddr := fun s =>
  match read_ipv4_addr s with Some r => Some r | None => read_ipv6_addr s end.

Definition parse_with {A} (p : parser A) (s : string) : option A :=
  match p s with Some (a, "") => Some a | _ => None end.

(** [s.parse::<IpAddr>().ok()]. *)
Definition parse_ip_addr (s : string) : option IpAddr := parse_with read_ip_addr s.

Definition read_port : parser N := fun s =>
  '(_, s) ← read_given_char ":" s; read_number 10 None true 65535 s.

Definition read_scope_id : parser N := fun s =>
  '(_, s) ← read_given_char "%" s; read_number 10 None true u32_max s.

Definition read_socket_addr_v4 : parser SocketAddr := fun s =>
  '(ip, s) ← read_ipv4_addr s;
  '(port, s) ← read_port s;
  Some ({| sa_ip := ip; sa_port := port; sa_scope_id := 0 |}, s).

Definition read_socket_addr_v6 : parser SocketAddr := fun s =>
  '(_, s) ← read_given_char "[" s;
  '(ip, s) ← read_ipv6_addr s;
  let '(scope, s) := match read_scope_id s with Some (n, r) => (n, r) | None => (0, s) end in
  '(_, s) ← read_given_char "]" s;
  '(port, s) ← read_port s;
  Some ({| sa_ip := ip; sa_port := port; sa_scope_id := scope |}, s).

(** [s.parse::<SocketAddr>().ok()]. *)
Definition parse_socket_addr (s : string) : option SocketAddr :=
  parse_with (fun s => match read_socket_addr_v4 s with
                       | Some r => Some r
                       | None => read_socket_addr_v6 s
                       end) s.

(** ** [std::path] (Unix) *)

Definition is_absolute (p : string) : bool := starts_with "/" p.

Fixpoint last_char (s : string) : option ascii :=
  match s with
  | "" => None
  | String c "" => Some c
  | String _ r => last_char r
  end.

(** [Path::join]: an absolute argument replaces, otherwise one separator. *)
Definition path_join (base arg : string) : string :=
  if is_absolute arg then arg
  else match last_char base with
       | None => arg
       | Some "/"%char => String.append base arg
       | Some _ => String.append base (String "/" arg)
       end.

(** The named components of a path: repeated separators and [.] vanish. *)
Definition components (p : string) : list string :=
  filter (fun c => c ≠ "" /\ c ≠ ".") (split "/" p).

(** ** [std::io] and [std::time] *)

Inductive ErrorKind : Type :=
  | NotFound | PermissionDenied | StorageFull | AlreadyExists | NotADirectory
  | IsADirectory | OtherKind.

Global Instance ErrorKind_eq_dec : EqDecision ErrorKind.
Proof. solve_decision. Defined.

(** [Instant]: monotonic nanoseconds.  [SystemTime]: nanoseconds relative to
    the Unix epoch, possibly negative. *)
Definition nanos_per_sec : N := 1000000000.

(** [SystemTime::now().duration_since(UNIX_EPOCH).map(|d| d.as_secs()).unwrap_or(0)]. *)
Definition unix_secs (now : Z) : N :=
  if (now <? 0)%Z then 0 else Z.to_N now / nanos_per_sec.

Definition duration_from_secs (s : N) : N := s * nanos_per_sec.

Example parse_ip_1 : parse_ip_addr "10.0.0.5" = Some (V4 10 0 0 5).
Proof. reflexivity. Qed.
Example parse_ip_2 : parse_ip_addr "010.0.0.5" = None.
Proof. reflexivity. Qed.
Example parse_ip_3 : parse_ip_addr "2001:db8::5" = Some (V6 [8193; 3512; 0; 0; 0; 0; 0; 5]).
Proof. reflexivity. Qed.
Example parse_ip_4 : parse_ip_addr "::ffff:1.2.3.4" = Some (V6 [0; 0; 0; 0; 0; 65535; 258; 772]).
Proof. reflexivity. Qed.
Example parse_sa_1 :
  parse_socket_addr "[::1]:8080" = Some {| sa_ip := V6 [0;0;0;0;0;0;0;1]; sa_port := 8080; sa_scope_id := 0 |}.
Proof. reflexivity. Qed.
Example parse_sa_2 : parse_socket_addr "127.0.0.1:65536" = None.
Proof. reflexivity. Qed.
Example parse_u64_1 : parse_u64 "+18446744073709551615" = Some u64_max.
Proof. reflexivity. Qed.
Example parse_u64_2 : parse_u64 "18446744073709551616" = None.
Proof. reflexivity. Qed.
Example show_N_1 : show_N 1205 = "1205".
Proof. reflexivity. Qed.
Example trim_1 : trim "  10.0.0.5	" = "10.0.0.5".
Proof. reflexivity. Qed.
Example components_1 : components "/var//lib/./x/" = ["var"; "lib"; "x"].
Proof. reflexivity. Qed.

(** ** Lemmas *)

(** [str_all p s]: every byte of [s] satisfies [p]. *)
Fixpoint str_all (p : ascii -> bool) (s : string) : bool :=
  match s with "" => true | String c r => p c && str_all p r end.

Lemma str_all_mono (p q : ascii -> bool) s :
  (forall c, p c = true -> q c = true) -> str_all p s = true -> str_all q s = true.
Proof. intros H. induction s; simpl; [done|]. intros. bool_hyps. by rewrite H, IHs. Qed.

Lemma str_all_app p (a b : string) :
  str_all p (a +:+ b) = str_all p a && str_all p b.
Proof. induction a; [done|]. simpl. by rewrite IHa, andb_assoc. Qed.

Lemma append_assoc (a b c : string) : (a +:+ b) +:+ c = a +:+ b +:+ c.
Proof. induction a; [done|]. simpl. by f_equal. Qed.

Lemma digit_char_val d : d < 10 -> digit_val 10 (digit_char d) = Some d.
Proof.
  intros. assert (d ∈ [0;1;2;3;4;5;6;7;8;9]) as Hd
    by (rewrite !elem_of_cons; lia).
  repeat (apply elem_of_cons in Hd as [->|Hd]; [done|]). by apply not_elem_of_nil in Hd.
Qed.

Lemma parse_digits_bound max acc s n :
  acc <= max -> parse_digits max acc s = Some n -> n <= max.
Proof.
  revert acc. induction s as [|c s IH]; simpl; intros acc Hacc Hp; [congruence|].
  destruct (digit_val 10 c) as [d|]; [|done].
  destruct (N.leb_spec (acc * 10 + d) max) as [Hle|]; [|done]. by apply (IH _ Hle).
Qed.

Lemma parse_uint_bound max s n : parse_uint max s = Some n -> n <= max.
Proof.
  unfold parse_uint. intros H.
  repeat case_match; simplify_eq; eapply parse_digits_bound; try exact H; lia.
Qed.

Lemma show_go_head k n tail :
  exists d r, d < 10 /\ show_go (S k) n tail = String (digit_char d) r.
Proof.
  revert n tail. induction k as [|k IH]; intros n tail.
  - simpl. destruct (n <? 10); eexists _, _; (split; [apply N.mod_lt|]); done.
  - change (show_go (S (S k)) n tail) with
      (let acc' := String (digit_char (n mod 10)) tail in
       if n <? 10 then acc' else show_go (S k) (n / 10) acc').
    cbv zeta. destruct (n <? 10); [|apply IH].
    eexists _, _; (split; [apply N.mod_lt|]); done.
Qed.

Lemma parse_show_go max k n tail :
  n <= max -> n < 2 ^ N.of_nat k ->
  parse_digits max 0 (show_go (S k) n tail) = parse_digits max n tail.
Proof.
  revert n tail. induction k as [|k IH]; intros n tail Hmax Hn.
  - assert (n = 0) as -> by (simpl in Hn; lia).
    change (show_go 1 0 tail) with (String "0" tail). cbn [parse_digits].
    change (digit_val 10 "0") with (Some 0). cbv beta iota.
    change (0 * 10 + 0) with 0. by rewrite (proj2 (N.leb_le 0 max)) by lia.
  - change (show_go (S (S k)) n tail) with
      (let acc' := String (digit_char (n mod 10)) tail in
       if n <? 10 then acc' else show_go (S k) (n / 10) acc').
    cbv zeta. destruct (N.ltb_spec n 10) as [Hlt|Hge].
    + cbn [parse_digits]. rewrite N.mod_small, digit_char_val by done.
      replace (0 * 10 + n) with n by lia. by rewrite (proj2 (N.leb_le n max)).
    + assert (n / 10 < 2 ^ N.of_nat k).
      { rewrite Nat2N.inj_succ, N.pow_succ_r' in Hn.
        apply N.Div0.div_lt_upper_bound. lia. }
      rewrite IH by (pose proof (N.Div0.div_le_mono n max 10); try done;
                     pose proof (N.div_le_upper_bound n 10 n); lia).
      cbn [parse_digits]. rewrite digit_char_val by (by apply N.mod_lt).
      replace (n / 10 * 10 + n mod 10) with n
        by (pose proof (N.div_mod n 10); lia).
      by rewrite (proj2 (N.leb_le n max)).
Qed.

Lemma size_nat_lt n : n < 2 ^ N.of_nat (N.size_nat n).
Proof.
  replace (N.of_nat (N.size_nat n)) with (N.size n); [apply N.size_gt|].
  destruct n as [|p]; [done|]. simpl. induction p; simpl; lia.
Qed.

(** [n.to_string().parse()] is the identity on representable values. *)
Lemma parse_uint_show max n : n <= max -> parse_uint max (show_N n) = Some n.
Proof.
  intros Hn. unfold show_N.
  pose proof (parse_show_go max _ n "" Hn (size_nat_lt n)) as Hp.
  destruct (show_go_head (N.size_nat n) n "") as (d & r & Hd & Hs).
  rewrite Hs in *. simpl in Hp |- *. rewrite digit_char_val in * by done.
  unfold parse_uint. rewrite <- Hp.
  assert (d ∈ [0;1;2;3;4;5;6;7;8;9]) as Hin by (rewrite !elem_of_cons; lia).
  repeat (apply elem_of_cons in Hin as [->|Hin]; [done|]). by apply not_elem_of_nil in Hin.
Qed.

Lemma trim_end_matches_last m s : last_char (trim_end_matches m s) <> Some m.
Proof.
  induction s as [|c s IH]; [done|]. simpl.
  destruct (trim_end_matches m s) as [|d t] eqn:E.
  - destruct (Ascii.eqb_spec c m); simpl; congruence.
  - exact IH.
Qed.

Lemma last_char_Some s c : last_char s = Some c -> exists i, s = i +:+ String c "".
Proof.
  induction s as [|d s IH]; [done|]. simpl. destruct s as [|e s].
  - intros [= ->]. by exists "".
  - intros H. destruct (IH H) as [i Hi]. exists (String d i). by rewrite Hi.
Qed.

Lemma last_char_None s : last_char s = None -> s = "".
Proof.
  induction s as [|c s IH]; [done|]. simpl. destruct s; [done|]. intros H. by apply IH in H.
Qed.

Lemma split_nonempty sep s : split sep s <> [].
Proof. destruct s; simpl; [done|]. repeat case_match; done. Qed.

Lemma split_app_sep sep (a b : string) :
  split sep (a +:+ String sep b) = split sep a ++ split sep b.
Proof.
  induction a as [|c a IH]; simpl.
  - by rewrite Ascii.eqb_refl.
  - rewrite IH. destruct (Ascii.eqb c sep); [done|].
    destruct (split sep a) eqn:E; [by apply split_nonempty in E|done].
Qed.

Lemma split_no_sep sep s :
  str_all (fun c => negb (Ascii.eqb c sep)) s = true -> split sep s = [s].
Proof.
  induction s as [|c s IH]; simpl; [done|]. intros. bool_hyps.
  destruct (Ascii.eqb c sep); [done|]. by rewrite IH.
Qed.

(** A path component a program may append without leaving the directory. *)
Definition plain_component (s : string) : bool :=
  str_all (fun c => negb (Ascii.eqb c "/")) s
  && negb (String.eqb s "") && negb (String.eqb s ".") && negb (String.eqb s "..").

Lemma components_app_sep (a b : string) :
  components (a +:+ String "/" b) = components a ++ components b.
Proof. unfold components. by rewrite split_app_sep, list.filter_app. Qed.

Lemma components_plain s : plain_component s = true -> components s = [s].
Proof.
  unfold plain_component, components. intros. bool_hyps.
  rewrite split_no_sep by done. rewrite filter_cons_True by done. done.
Qed.

Lemma components_join base arg :
  base <> "" -> plain_component arg = true ->
  components (path_join base arg) = components base ++ [arg].
Proof.
  intros Hb Ha. pose proof (components_plain _ Ha) as Hc.
  unfold path_join.
  destruct (is_absolute arg) eqn:Habs.
  { destruct arg as [|c arg]; [done|]. exfalso.
    unfold plain_component in Ha. bool_hyps.
    unfold is_absolute, starts_with in Habs. cbn [strip_prefix str_all] in *.
    destruct (Ascii.eqb_spec "/" c) as [<-|]; [|done]. by bool_hyps. }
  destruct (last_char base) as [c|] eqn:Hl.
  - destruct (Ascii.eqb_spec c "/") as [->|Hne].
    + apply last_char_Some in Hl as [i ->].
      rewrite append_assoc. simpl. change (String.append "" arg) with arg.
      rewrite !components_app_sep, Hc. by rewrite app_nil_r.
    + assert (forall x y : string, match c with "/"%char => x | _ => y end = y) as ->
        by (intros; by destruct c as [[] [] [] [] [] [] [] []]).
      by rewrite components_app_sep, Hc.
  - by apply last_char_None in Hl.
Qed.

Lemma path_join_nonempty base arg : base <> "" -> path_join base arg <> "".
Proof.
  intros Hb. unfold path_join. destruct (is_absolute arg) eqn:E; [by destruct arg|].
  destruct (last_char base) as [d|] eqn:El; [|by apply last_char_None in El].
  destruct base; [done|]. by destruct d as [[] [] [] [] [] [] [] []].
Qed.

Lemma eq_ignore_ascii_case_spec a b :
  eq_ignore_ascii_case a b = true <-> to_ascii_lowercase a = to_ascii_lowercase b.
Proof. apply String.eqb_eq. Qed.

Lemma strip_prefix_Some p s r : strip_prefix p s = Some r <-> s = p +:+ r.
Proof.
  revert s. induction p as [|c p IH]; intros s; [naive_solver|].
  destruct s as [|d s]; [naive_solver|]. simpl. destruct (Ascii.eqb_spec c d) as [->|].
  - rewrite IH. naive_solver.
  - naive_solver.
Qed.

#[export] Hint Resolve path_join_nonempty : rust.
