(* ===== verification/Tasks.v ===== *)
(** * Tasks: the background tasks' loop

    [jwks::scheduled_refresh_task], [discovery::scheduled_refresh_task] and
    [replay::cleanup_task] are one loop around different bodies: leave at once
    if the watch has already flipped, consume the interval's immediate first
    tick, then react to ticks and to changes of the shutdown watch until it
    flips or closes.  A panic in the body ends the task. *)

From S2P Require Import Prelude.

Inductive TaskEvent : Type :=
  | TickAt (now : N)
  | ShutdownChanged (value : bool)
  | ShutdownClosed.

Section task.
Context {S : Type} (on_tick : N -> S -> outcome S).

Inductive task_status : Type := TaskRunning | TaskStopped | TaskPanicked.

Fixpoint task_loop (events : list TaskEvent) (s : S) : task_status * S :=
  match events with
  | [] => (TaskRunning, s)
  | TickAt now :: events =>
      match on_tick now s with
      | Value s' => task_loop events s'
      | Panic => (TaskPanicked, s)
      end
  | ShutdownChanged b :: events => if b then (TaskStopped, s) else task_loop events s
  | ShutdownClosed :: _ => (TaskStopped, s)
  end.

(** [shutdown] is the watch's value when the task starts; the first event the
    task waits for is the interval's immediate tick. *)
Definition run_task (shutdown : bool) (events : list TaskEvent) (s : S) : task_status * S :=
  if shutdown then (TaskStopped, s) else
  match events with
  | TickAt _ :: events => task_loop events s
  | _ => (TaskRunning, s)
  end.

(** The ticks the loop acts on: those before the watch flips or closes. *)
Fixpoint live_ticks (events : list TaskEvent) : list N :=
  match events with
  | TickAt now :: events => now :: live_ticks events
  | ShutdownChanged false :: events => live_ticks events
  | _ => []
  end.

Fixpoint tick_all (ticks : list N) (s : S) : option S :=
  match ticks with
  | [] => Some s
  | now :: ticks => match on_tick now s with Value s' => tick_all ticks s' | Panic => None end
  end.

Lemma task_loop_ticks events s s' :
  tick_all (live_ticks events) s = Some s' ->
  snd (task_loop events s) = s' /\ fst (task_loop events s) <> TaskPanicked.
Proof.
  revert s. induction events as [|[now|[]|] events IH]; intros s; simpl; try (by intros [= <-]).
  - destruct (on_tick now s); [apply IH|done].
  - apply IH.
Qed.

(** After the shutdown signal nothing happens. *)
Lemma task_loop_stops events1 events2 s :
  task_loop (events1 ++ ShutdownChanged true :: events2) s = task_loop (events1 ++ [ShutdownChanged true]) s.
Proof.
  revert s. induction events1 as [|[now|[]|] events1 IH]; intros s; simpl; try done.
  by destruct (on_tick now s).
Qed.

Lemma task_loop_ended events1 events2 s :
  fst (task_loop (events1 ++ ShutdownChanged true :: events2) s) <> TaskRunning.
Proof.
  revert s. induction events1 as [|[now|[]|] events1 IH]; intros s; simpl; try done.
  by destruct (on_tick now s).
Qed.
End task.
