(* ===== verification/Crates.v ===== *)
(** * Crates: the third-party code the server calls, as interfaces

    One class per crate.  Each field is a function of the crate the source
    calls; a law is documented behaviour of the crate.  Data types the source
    destructures ([jsonwebtoken]'s JWK and header, [toml::Value]) are given
    with the constructors the source names and one constructor for the rest.
    [Instances.v] has concrete instances, used to evaluate witnesses only. *)

From S2P Require Import Prelude RustStd.

(** [url]: the parsed URL and the accessors used by [auth::dpop],
    [auth::discovery] and [config::server_config]. *)
Class UrlCrate := {
  Url : Type;
  Url_parse : string -> option Url;
  Url_as_str : Url -> string;
  Url_scheme : Url -> string;
  Url_host_str : Url -> option string;
  Url_port_or_known_default : Url -> option N;
  Url_path : Url -> string;
  Url_query : Url -> option string;
  Url_fragment : Url -> option string;
  Url_username : Url -> string;
  Url_password : Url -> option string;
}.

(** [sha2]: SHA-256 as a function from messages to 32-byte digests. *)
Class Sha2Crate := {
  sha256 : bytes -> bytes;
  sha256_length m : length (sha256 m) = 32%nat;
}.

(** [base64], engine [URL_SAFE_NO_PAD]: the output is over the URL-safe
    alphabet and decodes back. *)
Definition base64url_char (c : ascii) : bool :=
  in_range 65 90 c || in_range 97 122 c || in_range 48 57 c || (u8 c =? 45) || (u8 c =? 95).

Class Base64Crate := {
  b64_encode : bytes -> string;
  b64_decode : string -> option bytes;
  b64_decode_encode m : b64_decode (b64_encode m) = Some m;
  b64_alphabet m : str_all base64url_char (b64_encode m) = true;
}.

(** [subtle]: [ConstantTimeEq::ct_eq] on slices of equal length. *)
Class SubtleCrate := {
  ct_eq : bytes -> bytes -> bool;
  ct_eq_spec a b : length a = length b -> ct_eq a b = true <-> a = b;
}.

(** [ipnet]: CIDR blocks. *)
Class IpnetCrate := {
  IpNet : Type;
  IpNet_parse : string -> option IpNet;
  IpNet_contains : IpNet -> IpAddr -> bool;
}.

(** [http]: a header value is a byte string; [to_str] yields it as text when
    it is visible ASCII.  [axum::body::to_bytes(body, limit)] reads the whole
    body and fails if a read does or if the body is longer than the limit. *)
Class HttpCrate := {
  HeaderValue : Type;
  hv_to_str : HeaderValue -> option string;
  Body : Type;
  body_data : Body -> option bytes;
  to_bytes : Body -> N -> option bytes;
  to_bytes_spec b limit :
    to_bytes b limit = match body_data b with
                       | Some d => if bytes_len d <=? limit then Some d else None
                       | None => None
                       end;
}.

(** [serde_json] as [axum::Json] uses it: the documents the server writes. *)
Class JsonCrate := {
  json_sub : string -> bytes;
  json_alive : bool -> bytes;
}.

(** [axum]'s router: whether a route pattern matches a path.  A pattern without
    a parameter matches itself; [{id}] stands for one non-empty segment. *)
Class RouterCrate := {
  route_matches : string -> string -> bool;
  route_literal pattern path :
    str_all (fun c => negb (Ascii.eqb c "{")) pattern = true ->
    route_matches pattern path = String.eqb pattern path;
  route_block path :
    route_matches "/api/blocks/{id}" path = true <->
    exists segment, path = "/api/blocks/" +:+ segment /\ segment <> ""
      /\ str_all (fun c => negb (Ascii.eqb c "/")) segment = true;
}.

(** [toml]: a scalar the deserializer hands to the validators.  [TomlOther]
    carries the [Display] form of the remaining kinds of value. *)
Inductive TomlValue : Type :=
  | TomlString (s : string)
  | TomlInteger (n : Z)
  | TomlOther (display : string).

(** [jsonwebtoken]: algorithms, JWKs, headers and the validation options. *)
Inductive Algorithm : Type := PS256 | ES256 | AlgOther (name : string).
Inductive KeyAlgorithm : Type := KA_PS256 | KA_ES256 | KA_Other (name : string).
Inductive EllipticCurve : Type := P256 | CurveOther (name : string).

Inductive AlgorithmParameters : Type :=
  | EllipticCurveKey (curve : EllipticCurve) (x y : string)
  | RSAKey (n e : string)
  | OctetKey (value : string)
  | OctetKeyPair (x : string).

Record RawJwk := {
  key_algorithm : option KeyAlgorithm;
  key_id : option string;
  algorithm : AlgorithmParameters;
}.

Record Header := {
  hdr_alg : Algorithm;
  hdr_typ : option string;
  hdr_kid : option string;
  hdr_jwk : option RawJwk;
}.

(** [v_leeway = None] is the crate's default. *)
Record Validation := {
  v_algorithm : Algorithm;
  v_validate_aud : bool;
  v_validate_exp : bool;
  v_validate_nbf : bool;
  v_leeway : option N;
  v_required_spec_claims : list string;
  v_audience : list string;
}.

(** The error kinds [token::map_jwt_error] distinguishes. *)
Inductive JwtErrorKind : Type :=
  | ExpiredSignature | ImmatureSignature | InvalidIssuer | InvalidAudience
  | InvalidAlgorithm | InvalidAlgorithmName | InvalidKeyFormat | OtherJwtError.

Class JwtCrate := {
  DecodingKey : Type;
  decode_header : string -> option Header;
  DecodingKey_from_jwk : RawJwk -> option DecodingKey;
}.

(** [decode::<T>(jws, key, validation)]: the claims, if the signature verifies. *)
Class JwtDecode `{JwtCrate} (T : Type) := {
  jwt_decode : string -> DecodingKey -> Validation -> result JwtErrorKind T;
}.

(** [serde_json]: the two documents the server deserializes. *)
Class SerdeCrate := {
  jwkset_from_slice : bytes -> option (list RawJwk);
  discovery_from_slice : bytes -> option string;
}.

(** [reqwest]: the outcome of a [GET]; the body may fail to arrive. *)
Inductive HttpReply : Type :=
  | SendFailed
  | Reply (status : N) (body : option bytes).

Definition status_is_success (s : N) : bool := (200 <=? s) && (s <? 300).

Global Instance KeyAlgorithm_eq_dec : EqDecision KeyAlgorithm.
Proof. solve_decision. Defined.
Global Instance EllipticCurve_eq_dec : EqDecision EllipticCurve.
Proof. solve_decision. Defined.
Global Instance AlgorithmParameters_eq_dec : EqDecision AlgorithmParameters.
Proof. solve_decision. Defined.
Global Instance RawJwk_eq_dec : EqDecision RawJwk.
Proof. solve_decision. Defined.

Section base64_lemmas.
Context `{Base64Crate}.

Lemma b64_encode_inj m m' : b64_encode m = b64_encode m' -> m = m'.
Proof.
  intros Heq. apply (f_equal b64_decode) in Heq.
  rewrite !b64_decode_encode in Heq. congruence.
Qed.
End base64_lemmas.
