(* ===== verification/BlockId.v ===== *)
(** * BlockId: block identifiers and their on-disk layout

    [storage/block_id.rs] (the validated 43-byte identifier and its
    constant-time alphabet check) and [storage/path.rs] (two-level sharding).
    The theorems give [parse] its exact domain and show that the layout is
    injective and cannot leave the configured root. *)

From S2P Require Import Prelude RustStd Crates.

Definition LEN : N := 43.

(** [pub struct BlockId(String)]; values of the program are built by [parse]. *)
Record BlockId := BlockId_mk { as_str : string }.

Global Instance BlockId_eq_dec : EqDecision BlockId.
Proof. solve_decision. Defined.
Global Instance BlockId_countable : Countable BlockId.
Proof. by apply (inj_countable' as_str BlockId_mk); intros []. Defined.

(** The branchless byte test: every comparison is evaluated, as [u8]s. *)
Definition b2u8 (b : bool) : N := if b then 1 else 0.

Definition is_base64url_byte (b : N) : N :=
  let upper := b2u8 (andb (65 <=? b) (b <=? 90)) in
  let lower := b2u8 (andb (97 <=? b) (b <=? 122)) in
  let digit := b2u8 (andb (48 <=? b) (b <=? 57)) in
  let dash := b2u8 (b =? 45) in
  let underscore := b2u8 (b =? 95) in
  N.lor (N.lor (N.lor (N.lor upper lower) digit) dash) underscore.

(** [for &b in s.as_bytes() { valid &= is_base64url_byte(b); }] *)
Fixpoint valid_fold (valid : N) (s : string) : N :=
  match s with
  | "" => valid
  | String c r => valid_fold (N.land valid (is_base64url_byte (u8 c))) r
  end.

Definition parse (s : string) : option BlockId :=
  if negb (str_len s =? LEN) then None
  else if valid_fold 1 s =? 1 then Some (BlockId_mk s) else None.

(** [&self.0[..2]] and [&self.0[2..4]]. *)
Definition shard_top (id : BlockId) : string := String.substring 0 2 (as_str id).
Definition shard_mid (id : BlockId) : string := String.substring 2 2 (as_str id).

Definition shard_dir (root : string) (id : BlockId) : string :=
  path_join (path_join root (shard_top id)) (shard_mid id).

Definition block_path (root : string) (id : BlockId) : string :=
  path_join (shard_dir root id) (as_str id).

(** The type invariant of [BlockId]. *)
Definition block_id_wf (id : BlockId) : Prop :=
  str_len (as_str id) = LEN /\ str_all base64url_char (as_str id) = true.

(** ** Lemmas *)

Lemma is_base64url_byte_spec c :
  is_base64url_byte (u8 c) = b2u8 (base64url_char c).
Proof.
  unfold is_base64url_byte, base64url_char, in_range.
  by destruct (65 <=? u8 c), (u8 c <=? 90), (97 <=? u8 c), (u8 c <=? 122),
    (48 <=? u8 c), (u8 c <=? 57), (u8 c =? 45), (u8 c =? 95).
Qed.

Lemma valid_fold_spec v s :
  v = 0 \/ v = 1 -> valid_fold v s = N.land v (b2u8 (str_all base64url_char s)).
Proof.
  revert v. induction s as [|c s IH]; simpl; intros v Hv.
  - by destruct Hv as [->| ->].
  - rewrite is_base64url_byte_spec, IH.
    + by destruct Hv as [->| ->], (base64url_char c), (str_all base64url_char s).
    + destruct Hv as [->| ->], (base64url_char c); simpl; auto.
Qed.

Lemma parse_Some s id : parse s = Some id <-> id = BlockId_mk s /\ block_id_wf id.
Proof.
  unfold parse, block_id_wf. rewrite valid_fold_spec by auto.
  destruct (N.eqb_spec (str_len s) LEN) as [Hl|Hl]; simpl.
  - destruct (str_all base64url_char s) eqn:E; simpl; split; try done.
    + by intros [= <-].
    + by intros [-> _].
    + intros [-> [_ H]]. simpl in H. congruence.
  - split; [done|]. intros [-> [H _]]. done.
Qed.

Definition sharded (id : BlockId) : list string := [shard_top id; shard_mid id; as_str id].

Lemma base64url_not_slash c : base64url_char c = true -> negb (Ascii.eqb c "/") = true.
Proof. destruct (Ascii.eqb_spec c "/") as [->|]; done. Qed.
Lemma base64url_not_dot c : base64url_char c = true -> negb (Ascii.eqb c ".") = true.
Proof. destruct (Ascii.eqb_spec c ".") as [->|]; done. Qed.

Lemma base64url_plain s :
  str_all base64url_char s = true -> s <> "" -> plain_component s = true.
Proof.
  intros Ha Hne. unfold plain_component.
  rewrite (str_all_mono _ _ _ base64url_not_slash Ha).
  destruct s as [|c s]; [done|]. simpl in Ha. bool_hyps.
  pose proof (base64url_not_dot c ltac:(done)) as Hd.
  destruct (Ascii.eqb_spec c "."); [done|]. simpl.
  destruct (Ascii.eqb_spec c "."); [done|]. done.
Qed.

(** Splitting an identifier at its first four bytes. *)
Lemma block_id_shape id :
  block_id_wf id ->
  exists a b c d r, as_str id = String a (String b (String c (String d r)))
    /\ shard_top id = String a (String b "") /\ shard_mid id = String c (String d "").
Proof.
  destruct id as [s]. unfold block_id_wf, shard_top, shard_mid, str_len, LEN. simpl.
  intros [Hl _].
  destruct s as [|a [|b [|c [|d r]]]]; simpl in Hl; try lia.
  exists a, b, c, d, r. simpl. by destruct r.
Qed.

Lemma shard_plain id :
  block_id_wf id ->
  plain_component (shard_top id) = true /\ plain_component (shard_mid id) = true
  /\ plain_component (as_str id) = true.
Proof.
  intros Hwf. destruct (block_id_shape id Hwf) as (a & b & c & d & r & Hs & Ht & Hm).
  destruct Hwf as [_ Hall]. rewrite Ht, Hm, Hs in *. simpl in Hall. bool_hyps.
  split_and!; apply base64url_plain; try done; simpl;
    repeat (apply andb_true_intro; split); done.
Qed.

Lemma shard_dir_components root id :
  root <> "" -> block_id_wf id ->
  components (shard_dir root id) = components root ++ [shard_top id; shard_mid id].
Proof.
  intros Hr Hwf. destruct (shard_plain id Hwf) as (Ht & Hm & _).
  unfold shard_dir. rewrite !components_join by auto with rust. by rewrite <- app_assoc.
Qed.

Lemma block_path_components root id :
  root <> "" -> block_id_wf id ->
  components (block_path root id) = components root ++ sharded id.
Proof.
  intros Hr Hwf. destruct (shard_plain id Hwf) as (_ & _ & Hi).
  unfold block_path. rewrite components_join by (unfold shard_dir; auto with rust).
  rewrite shard_dir_components by done. by rewrite <- app_assoc.
Qed.

Lemma sharded_inj id1 id2 : sharded id1 = sharded id2 -> id1 = id2.
Proof. destruct id1, id2. unfold sharded. simpl. by intros [= _ _ ->]. Qed.

(** No file created for a block or beside it can be another block's file: a
    name with a byte outside the alphabet is not an identifier. *)
Lemma dotted_not_id id s : block_id_wf id -> as_str id <> String "." s.
Proof. intros [_ Hall] He. rewrite He in Hall. done. Qed.

#[export] Hint Resolve shard_dir_components block_path_components : rust.

(** ** Properties *)

(** [BlockId::parse] accepts exactly the 43-byte strings over
    [A-Za-z0-9-_]; the identifier it builds displays as the input. *)
Theorem parse_exact s id :
  parse s = Some id <->
  str_len s = LEN /\ str_all base64url_char s = true /\ as_str id = s.
Proof.
  rewrite parse_Some. unfold block_id_wf. destruct id as [t]. simpl.
  naive_solver.
Qed.

(** C40. The on-disk path of a block is the root followed by exactly three
    plain components (no separator, ["."] or [".."]), so it stays under the
    root, and two identifiers never share a path. *)
Theorem block_path_confined root id :
  root <> "" -> block_id_wf id ->
  components (block_path root id)
    = components root ++ [shard_top id; shard_mid id; as_str id]
  /\ Forall (fun c => plain_component c = true) [shard_top id; shard_mid id; as_str id]
  /\ (forall id', block_id_wf id' -> block_path root id' = block_path root id -> id' = id).
Proof.
  intros Hr Hwf. split_and!.
  - by apply block_path_components.
  - destruct (shard_plain id Hwf) as (? & ? & ?). by repeat constructor.
  - intros id' Hwf' Heq. apply (f_equal components) in Heq.
    rewrite !block_path_components in Heq by done.
    by apply app_inv_head, sharded_inj in Heq.
Qed.

Definition sample_id : BlockId := BlockId_mk "ABCDEFGHIJKLMNOPQRSTUVWXYZabcdefghijklmnopq".

Lemma sample_id_wf : block_id_wf sample_id.
Proof. by vm_compute. Defined.

Lemma block_path_confined_witness :
  components (block_path "/var/lib/blocks" sample_id)
    = ["var"; "lib"; "blocks"; "AB"; "CD"; as_str sample_id].
Proof.
  rewrite (proj1 (block_path_confined "/var/lib/blocks" sample_id ltac:(done) sample_id_wf)).
  reflexivity.
Defined.
