(* ===== verification/Fs.v ===== *)
(** * Fs: a Unix file system, its system calls, and programs over them

    The server's storage code is straight-line code over [std::fs],
    [tokio::fs] and the [tempfile] crate.  This file gives the file-system
    state, the effect of each [std::fs] call (including injected faults), the
    interface of [tempfile], a free monad of programs over the calls, and two
    semantics for programs: [run] (one program alone) and [step] (any number
    of programs, interleaved call by call).

    A key of the state is the list of components of an absolute path; there
    are no symbolic links.  Permission failures, full disks and I/O errors are
    faults chosen by the environment of the call. *)

From S2P Require Import Prelude RustStd.

Abbreviation path := (list string).

Inductive node : Type :=
  | Dir (mode : N)
  | File (mode : N) (content : bytes).

Global Instance node_eq_dec : EqDecision node.
Proof. solve_decision. Defined.

Abbreviation fs := (gmap (list string) node).

(** What the environment decides about one call: a fault, how far a compound
    call gets before the fault, the random part of a temporary name, and
    whether the unlink made by dropping a temporary file succeeds. *)
Record env := {
  env_fault : option ErrorKind;
  env_progress : nat;
  env_name : string;
  env_cleanup : bool;
}.
Definition env_ok (name : string) : env :=
  {| env_fault := None; env_progress := 0; env_name := name; env_cleanup := true |}.

(** A fault is a failure of the system (permissions, space, I/O): whether a
    path exists is decided by the state, so [NotFound] is never a fault. *)
Definition fault_of (e : env) : option ErrorKind :=
  match env_fault e with Some NotFound => None | x => x end.

(** ** Path resolution *)

Definition ancestors (p : path) : list path := (fun n => take n p) <$> seq 0 (length p).

Definition is_file (f : fs) (p : path) : bool :=
  match f !! p with Some (File _ _) => true | _ => false end.

(** The error of a failed lookup: [ENOTDIR] below a file, else [ENOENT]. *)
Definition missing_kind (f : fs) (p : path) : ErrorKind :=
  if existsb (is_file f) (ancestors p) then NotADirectory else NotFound.

Definition resolve (f : fs) (p : path) : result ErrorKind node :=
  match f !! p with Some n => Ok n | None => Err (missing_kind f p) end.

(** ** [std::fs] *)

Definition fs_metadata_is_dir (p : path) (e : env) (f : fs) : result ErrorKind bool :=
  match fault_of e with
  | Some k => Err k
  | None => match resolve f p with
            | Ok (Dir _) => Ok true
            | Ok (File _ _) => Ok false
            | Err k => Err k
            end
  end.

(** [DirBuilder::recursive(true).mode(mode).create(p)]: missing levels are
    created from the top; existing directories are left as they are. *)
Fixpoint mkdirs (mode : N) (fault : option ErrorKind) (progress : nat)
    (levels : list path) (f : fs) : result ErrorKind unit * fs :=
  match levels with
  | [] => (Ok (), f)
  | q :: rest =>
      match f !! q with
      | Some (Dir _) => mkdirs mode fault progress rest f
      | Some (File _ _) =>
          (Err (match rest with [] => AlreadyExists | _ => NotADirectory end), f)
      | None =>
          match fault, progress with
          | Some k, O => (Err k, f)
          | _, _ => mkdirs mode fault (pred progress) rest (<[q := Dir mode]> f)
          end
      end
  end.

Definition fs_create_dir_all (p : path) (mode : N) (e : env) (f : fs) :
    result ErrorKind unit * fs :=
  mkdirs mode (fault_of e) (env_progress e) (ancestors p ++ [p]) f.

Definition with_mode (m : N) (n : node) : node :=
  match n with Dir _ => Dir m | File _ c => File m c end.

Definition fs_set_permissions (p : path) (mode : N) (e : env) (f : fs) :
    result ErrorKind unit * fs :=
  match fault_of e with
  | Some k => (Err k, f)
  | None => match resolve f p with
            | Ok n => (Ok (), <[p := with_mode mode n]> f)
            | Err k => (Err k, f)
            end
  end.

Definition fs_read (p : path) (e : env) (f : fs) : result ErrorKind bytes :=
  match fault_of e with
  | Some k => Err k
  | None => match resolve f p with
            | Ok (File _ c) => Ok c
            | Ok (Dir _) => Err IsADirectory
            | Err k => Err k
            end
  end.

Definition fs_remove_file (p : path) (e : env) (f : fs) : result ErrorKind unit * fs :=
  match fault_of e with
  | Some k => (Err k, f)
  | None => match resolve f p with
            | Ok (File _ _) => (Ok (), delete p f)
            | Ok (Dir _) => (Err IsADirectory, f)
            | Err k => (Err k, f)
            end
  end.

(** [try_exists]: only [NotFound] means absent. *)
Definition fs_try_exists (p : path) (e : env) (f : fs) : result ErrorKind bool :=
  match fault_of e with
  | Some k => Err k
  | None => match resolve f p with
            | Ok _ => Ok true
            | Err NotFound => Ok false
            | Err k => Err k
            end
  end.

(** ** The process's umask

    New files and directories get the mode asked for less the bits of the
    umask.  The server is taken to run under a umask that leaves the owner's
    bits alone, as all usual ones do (0022, 0027, 0077). *)
Class Umask := {
  umask : N;
  umask_spares_owner : N.land umask 448 = 0;
}.

Definition masked `{Umask} (mode : N) : N := N.ldiff mode umask.
#[global] Arguments masked {_} mode : simpl never.

(** ** The [tempfile] crate

    [NamedTempFile] handles are the paths of their files: nothing else in the
    program names them.  Creation picks a name that does not exist
    ([O_EXCL]), with the permissions given less the umask; [persist] renames
    over the destination; [persist_noclobber] refuses an existing destination
    and is not atomic: when it succeeds it may have left the temporary file's
    own link behind; dropping a handle removes the file, on a best-effort
    basis. *)
Class TempfileCrate := {
  tf_umask :: Umask;
  tf_create : path -> string -> string -> N -> env -> fs -> result ErrorKind path * fs;
  tf_write : path -> bytes -> env -> fs -> result ErrorKind unit * fs;
  tf_sync : path -> env -> fs -> result ErrorKind unit * fs;
  tf_persist : path -> path -> env -> fs -> result ErrorKind unit * fs;
  tf_persist_noclobber : path -> path -> env -> fs -> result ErrorKind unit * fs;
  tf_drop : path -> env -> fs -> fs;

  tf_create_ok dir pre suf m e f p f' :
    tf_create dir pre suf m e f = (Ok p, f') ->
    (exists r, p = dir ++ [pre +:+ r +:+ suf]) /\ f !! p = None /\ f' = <[p := File (masked m) []]> f;
  tf_create_err dir pre suf m e f k f' :
    tf_create dir pre suf m e f = (Err k, f') -> f' = f;
  tf_create_total dir pre suf m md e f :
    fault_of e = None -> f !! dir = Some (Dir md) ->
    f !! (dir ++ [pre +:+ env_name e +:+ suf]) = None ->
    exists p, fst (tf_create dir pre suf m e f) = Ok p;

  tf_write_ok p d e f f' m c :
    f !! p = Some (File m c) -> tf_write p d e f = (Ok (), f') ->
    f' = <[p := File m (c ++ d)]> f;
  tf_write_err p d e f k f' m c :
    f !! p = Some (File m c) -> tf_write p d e f = (Err k, f') ->
    exists c', f' = <[p := File m c']> f;
  tf_write_total p d e f m c :
    fault_of e = None -> f !! p = Some (File m c) -> fst (tf_write p d e f) = Ok ();

  tf_sync_same p e f : snd (tf_sync p e f) = f;
  tf_sync_total p e f m c :
    fault_of e = None -> f !! p = Some (File m c) -> fst (tf_sync p e f) = Ok ();

  tf_persist_ok p dst e f f' m c :
    f !! p = Some (File m c) -> tf_persist p dst e f = (Ok (), f') ->
    f' = <[dst := File m c]> (delete p f);
  tf_persist_err p dst e f k f' : tf_persist p dst e f = (Err k, f') -> f' = f;
  tf_persist_total p dst e f m c :
    fault_of e = None -> f !! p = Some (File m c) ->
    (forall md, f !! dst <> Some (Dir md)) -> fst (tf_persist p dst e f) = Ok ();

  tf_noclobber_ok p dst e f f' m c :
    f !! p = Some (File m c) -> tf_persist_noclobber p dst e f = (Ok (), f') ->
    f !! dst = None /\ (f' = <[dst := File m c]> (delete p f) \/ f' = <[dst := File m c]> f);
  tf_noclobber_err p dst e f k f' : tf_persist_noclobber p dst e f = (Err k, f') -> f' = f;
  tf_noclobber_total p dst e f m c :
    fault_of e = None -> f !! p = Some (File m c) -> f !! dst = None ->
    fst (tf_persist_noclobber p dst e f) = Ok ();

  tf_drop_spec p e f m c :
    f !! p = Some (File m c) -> tf_drop p e f = delete p f \/ tf_drop p e f = f;
  tf_drop_total p e f m c :
    env_cleanup e = true -> f !! p = Some (File m c) -> tf_drop p e f = delete p f;
}.

(** ** System calls and programs *)

Inductive call : Type -> Type :=
  | Metadata (p : string) : call (result ErrorKind bool)
  | CreateDirAll (p : string) (mode : N) : call (result ErrorKind unit)
  | SetPermissions (p : string) (mode : N) : call (result ErrorKind unit)
  | TempfileIn (dir : string) (prefix suffix : string) (mode : N) : call (result ErrorKind path)
  | WriteAll (tmp : path) (data : bytes) : call (result ErrorKind unit)
  | SyncAll (tmp : path) : call (result ErrorKind unit)
  | Persist (tmp : path) (dst : string) : call (result ErrorKind unit)
  | PersistNoclobber (tmp : path) (dst : string) : call (result ErrorKind unit)
  | DropTemp (tmp : path) : call unit
  | ReadFile (p : string) : call (result ErrorKind bytes)
  | RemoveFile (p : string) : call (result ErrorKind unit)
  | TryExists (p : string) : call (result ErrorKind bool).

Definition exec `{TempfileCrate} {R} (c : call R) (e : env) (f : fs) : R * fs :=
  match c in call R return R * fs with
  | Metadata p => (fs_metadata_is_dir (components p) e f, f)
  | CreateDirAll p m => fs_create_dir_all (components p) (masked m) e f
  | SetPermissions p m => fs_set_permissions (components p) m e f
  | TempfileIn d pre suf m => tf_create (components d) pre suf m e f
  | WriteAll t d => tf_write t d e f
  | SyncAll t => tf_sync t e f
  | Persist t dst => tf_persist t (components dst) e f
  | PersistNoclobber t dst => tf_persist_noclobber t (components dst) e f
  | DropTemp t => ((), tf_drop t e f)
  | ReadFile p => (fs_read (components p) e f, f)
  | RemoveFile p => fs_remove_file (components p) e f
  | TryExists p => (fs_try_exists (components p) e f, f)
  end.

Inductive prog (A : Type) : Type :=
  | Ret (a : A)
  | Sys {R : Type} (c : call R) (k : R -> prog A).
Arguments Ret {A} a.
Arguments Sys {A R} c k.

(** [call(..).map_err(wrap)?; rest] *)
Definition try_call {X E A} (wrap : ErrorKind -> E) (c : call (result ErrorKind X))
    (k : X -> prog (result E A)) : prog (result E A) :=
  Sys c (fun r => match r with Ok x => k x | Err e => Ret (Err (wrap e)) end).

(** The same with a live [NamedTempFile]: the early return drops it. *)
Definition try_call_drop {X E A} (tmp : path) (wrap : ErrorKind -> E)
    (c : call (result ErrorKind X)) (k : X -> prog (result E A)) : prog (result E A) :=
  Sys c (fun r => match r with
                  | Ok x => k x
                  | Err e => Sys (DropTemp tmp) (fun _ => Ret (Err (wrap e)))
                  end).

(** Mapping the result of a program. *)
Fixpoint prog_map {A B} (g : A -> B) (p : prog A) : prog B :=
  match p with
  | Ret a => Ret (g a)
  | Sys c k => Sys c (fun r => prog_map g (k r))
  end.

Section semantics.
Context `{TempfileCrate}.

(** One program alone, with one environment per call. *)
Fixpoint run {A} (p : prog A) (es : nat -> env) (f : fs) : A * fs :=
  match p with
  | Ret a => (a, f)
  | Sys c k => let '(r, f') := exec c (es 0%nat) f in run (k r) (fun n => es (S n)) f'
  end.

(** Any number of programs over one file system: some thread performs its
    next call, under any environment. *)
Inductive step {A} : fs * list (prog A) -> fs * list (prog A) -> Prop :=
  | step_call f ts i R (c : call R) k e r f' :
      ts !! i = Some (Sys c k) ->
      exec c e f = (r, f') ->
      step (f, ts) (f', <[i := k r]> ts).
End semantics.

(** ** Lemmas *)

(** Modes that give nothing but owner's rights are not changed by the umask. *)
Lemma masked_owner `{Umask} m : N.ldiff m 448 = 0 -> masked m = m.
Proof.
  intros Hm. unfold masked. apply N.bits_inj. intros i. rewrite N.ldiff_spec.
  pose proof (f_equal (fun x => N.testbit x i) Hm) as H1.
  pose proof (f_equal (fun x => N.testbit x i) umask_spares_owner) as H2. cbv beta in H1, H2.
  rewrite N.ldiff_spec, N.bits_0 in H1. rewrite N.land_spec, N.bits_0 in H2.
  by destruct (N.testbit m i), (N.testbit umask i), (N.testbit 448 i).
Qed.

Lemma ancestors_snoc (p : path) x : ancestors (p ++ [x]) = ancestors p ++ [p].
Proof.
  unfold ancestors. rewrite length_app. simpl. rewrite Nat.add_1_r, seq_S, fmap_app. simpl. f_equal.
  - apply list_fmap_ext. intros i n Hn. apply lookup_seq in Hn as [-> Hn]. by rewrite take_app_le by lia.
  - by rewrite take_app_length.
Qed.

Lemma missing_kind_clear f p :
  (forall q, q ∈ ancestors p -> is_file f q = false) -> missing_kind f p = NotFound.
Proof.
  intros Hp. unfold missing_kind. destruct (existsb _ _) eqn:Hx; [|done].
  apply existsb_exists in Hx as (q & Hq%list_elem_of_In & Hf). by rewrite Hp in Hf.
Qed.

Lemma is_file_true f p : is_file f p = true <-> exists m c, f !! p = Some (File m c).
Proof. unfold is_file. destruct (f !! p) as [[]|]; naive_solver. Qed.

(** Creating directories only fills missing keys, with directories. *)
Lemma mkdirs_lookup mode fault pr levels f r f' p :
  mkdirs mode fault pr levels f = (r, f') ->
  f' !! p = f !! p \/ (f !! p = None /\ f' !! p = Some (Dir mode)).
Proof.
  revert pr f. induction levels as [|q levels IH]; simpl; intros pr f Hm; [naive_solver|].
  destruct (f !! q) as [[]|] eqn:Hq; [by eauto|naive_solver|].
  assert (mkdirs mode fault (pred pr) levels (<[q:=Dir mode]> f) = (r, f') ->
    f' !! p = f !! p \/ (f !! p = None /\ f' !! p = Some (Dir mode))) as Hrec.
  { intros [Hs|[Hn Hs]]%IH; rewrite lookup_insert in *; case_decide; subst; naive_solver. }
  destruct fault as [k|], pr; auto; naive_solver.
Qed.

Lemma mkdirs_dirs mode fault pr levels f f' q :
  mkdirs mode fault pr levels f = (Ok (), f') -> q ∈ levels -> exists m, f' !! q = Some (Dir m).
Proof.
  revert pr f. induction levels as [|p levels IH]; simpl; intros pr f Hm Hq; [set_solver|].
  assert (forall m pr0 f0, f0 !! p = Some (Dir m) -> mkdirs mode fault pr0 levels f0 = (Ok (), f') ->
    exists m, f' !! q = Some (Dir m)) as Hrec.
  { intros m pr0 f0 Hp Hm0. apply elem_of_cons in Hq as [->|Hq]; [|by eauto].
    destruct (mkdirs_lookup _ _ _ _ _ _ _ p Hm0) as [->|[Hn _]]; [by eauto|congruence]. }
  destruct (f !! p) as [[]|] eqn:Hp; [by eauto|done|].
  destruct fault as [k|]; [destruct pr; [done|]|];
    (eapply Hrec; [apply lookup_insert_eq|exact Hm]).
Qed.

Lemma mkdirs_ok mode pr levels f :
  (forall q, q ∈ levels -> is_file f q = false) ->
  exists f', mkdirs mode None pr levels f = (Ok (), f')
    /\ forall q, q ∈ levels -> exists m, f' !! q = Some (Dir m).
Proof.
  revert pr f. induction levels as [|q levels IH]; intros pr f Hnf.
  { exists f. split; [done|]. intros q Hq. by apply not_elem_of_nil in Hq. }
  assert (forall f0, (forall q', q' ∈ levels -> is_file f0 q' = false) ->
    (exists m, f0 !! q = Some (Dir m)) ->
    forall pr0, exists f', mkdirs mode None pr0 levels f0 = (Ok (), f')
      /\ forall q', q' ∈ q :: levels -> exists m, f' !! q' = Some (Dir m)) as Hrec.
  { intros f0 Hf0 [m Hq0] pr0. destruct (IH pr0 f0 Hf0) as (f' & Hm & Hd).
    exists f'. split; [done|]. intros q' [->|Hin]%elem_of_cons; [|by auto].
    destruct (mkdirs_lookup _ _ _ _ _ _ _ q Hm) as [->|[Hn _]]; [by eauto|congruence]. }
  simpl. destruct (f !! q) as [[m|m c]|] eqn:Hq.
  - apply Hrec; [set_solver|by eauto].
  - specialize (Hnf q ltac:(set_solver)). unfold is_file in Hnf. by rewrite Hq in Hnf.
  - destruct (Hrec (<[q:=Dir mode]> f)) with (pr0 := pred pr) as (f' & Hm & Hd).
    + intros q' Hin. unfold is_file. rewrite lookup_insert. case_decide; [done|].
      apply (Hnf q'). set_solver.
    + exists mode. apply lookup_insert_eq.
    + by eauto.
Qed.

Lemma prog_map_Sys {A B R} (g : A -> B) (c : call R) k :
  prog_map g (Sys c k) = Sys c (fun r => prog_map g (k r)).
Proof. done. Qed.
