(* ===== verification/Instances.v ===== *)
(** * Instances: concrete implementations of the crates' interfaces

    Every class of [Crates] and [Fs] that stands for third-party code has an
    executable instance here, so that the hypotheses of the theorems can be
    seen to hold together and the witnesses can evaluate the definitions.
    Nothing outside the witnesses depends on this file. *)

From S2P Require Import Prelude RustStd Crates Fs.

(** ** The umask 0022, and [tempfile] *)

#[export] Instance toy_umask : Umask.
Proof. by refine {| umask := 18 |}. Defined.

Definition sys_guard {A} (e : env) (k : result ErrorKind A * fs) (f : fs) : result ErrorKind A * fs :=
  match fault_of e with Some err => (Err err, f) | None => k end.

Definition toy_create (dir : path) (pre suf : string) (m : N) (e : env) (f : fs) :
    result ErrorKind path * fs :=
  let p := dir ++ [pre +:+ env_name e +:+ suf] in
  sys_guard e match f !! dir, f !! p with
    | Some (Dir _), None => (Ok p, <[p := File (masked m) []]> f)
    | Some (Dir _), Some _ => (Err AlreadyExists, f)
    | Some (File _ _), _ => (Err NotADirectory, f)
    | None, _ => (Err NotFound, f)
    end f.

Definition toy_write (p : path) (d : bytes) (e : env) (f : fs) : result ErrorKind unit * fs :=
  match f !! p with
  | Some (File m c) =>
      match fault_of e with
      | Some err => (Err err, <[p := File m (c ++ take (env_progress e) d)]> f)
      | None => (Ok (), <[p := File m (c ++ d)]> f)
      end
  | _ => (Err OtherKind, f)
  end.

Definition toy_sync (p : path) (e : env) (f : fs) : result ErrorKind unit * fs :=
  sys_guard e (Ok (), f) f.

Definition toy_persist (p dst : path) (e : env) (f : fs) : result ErrorKind unit * fs :=
  sys_guard e match f !! p, f !! dst with
    | Some _, Some (Dir _) => (Err IsADirectory, f)
    | Some n, _ => (Ok (), <[dst := n]> (delete p f))
    | None, _ => (Err NotFound, f)
    end f.

Definition toy_noclobber (p dst : path) (e : env) (f : fs) : result ErrorKind unit * fs :=
  sys_guard e match f !! p, f !! dst with
    | Some n, None => (Ok (), <[dst := n]> (if env_cleanup e then delete p f else f))
    | Some _, Some _ => (Err AlreadyExists, f)
    | None, _ => (Err NotFound, f)
    end f.

Definition toy_drop (p : path) (e : env) (f : fs) : fs :=
  if env_cleanup e then delete p f else f.

#[export] Instance toy_tempfile : TempfileCrate.
Proof.
  refine {| tf_create := toy_create; tf_write := toy_write; tf_sync := toy_sync;
            tf_persist := toy_persist; tf_persist_noclobber := toy_noclobber;
            tf_drop := toy_drop |};
    unfold toy_create, toy_write, toy_sync, toy_persist, toy_noclobber, toy_drop, sys_guard;
    intros; repeat case_match; simplify_eq/=; try done; eauto 10; naive_solver.
Defined.

(** ** [url]: [scheme://host[:port][/path][?query][#fragment]] *)

Record toy_url := {
  u_scheme : string; u_host : string; u_port : option N;
  u_path : string; u_query : option string; u_fragment : option string;
}.

(** Text before the first separator, and the text after it if there is one. *)
Definition cut (sep : ascii) (s : string) : string * option string :=
  match split_once sep s with Some (a, b) => (a, Some b) | None => (s, None) end.

Definition toy_parse (s : string) : option toy_url :=
  match split_once ":" s with
  | Some (scheme, String "/" (String "/" rest)) =>
      let '(rest, fragment) := cut "#" rest in
      let '(rest, query) := cut "?" rest in
      let '(authority, path) := cut "/" rest in
      let '(host, port) := cut ":" authority in
      Some {| u_scheme := to_ascii_lowercase scheme; u_host := to_ascii_lowercase host;
              u_port := port ≫= parse_u64;
              u_path := "/" +:+ unwrap_or path ""; u_query := query; u_fragment := fragment |}
  | _ => None
  end.

Definition toy_show (u : toy_url) : string :=
  u_scheme u +:+ "://" +:+ u_host u
  +:+ match u_port u with Some p => ":" +:+ show_N p | None => "" end
  +:+ u_path u
  +:+ match u_query u with Some q => "?" +:+ q | None => "" end.

Definition known_port (scheme : string) : option N :=
  if String.eqb scheme "https" then Some 443
  else if String.eqb scheme "http" then Some 80 else None.

#[export] Instance toy_url_crate : UrlCrate := {|
  Url := toy_url;
  Url_parse := toy_parse;
  Url_as_str := toy_show;
  Url_scheme := u_scheme;
  Url_host_str u := Some (u_host u);
  Url_port_or_known_default u :=
    match u_port u with Some p => Some p | None => known_port (u_scheme u) end;
  Url_path := u_path;
  Url_query := u_query;
  Url_fragment := u_fragment;
  Url_username _ := "";
  Url_password _ := None;
|}.

(** ** [ipnet]: single hosts, written [address/32] *)

#[export] Instance toy_ipnet : IpnetCrate := {|
  IpNet := IpAddr;
  IpNet_parse s := match cut "/" s with (a, Some "32") => parse_ip_addr a | _ => None end;
  IpNet_contains n a := bool_decide (n = a);
|}.

(** ** [sha2]: a stand-in with 32-byte results, a rotating checksum *)

Definition pad32 (m : bytes) : bytes := take 32 (m ++ replicate 32 Byte.x00).

Definition byte_add (a b : byte) : byte :=
  match Byte.of_N ((Byte.to_N a + Byte.to_N b) mod 256) with Some c => c | None => a end.

Definition checksum_step (acc : bytes) (b : byte) : bytes :=
  match acc with x :: acc => acc ++ [byte_add x b] | [] => [] end.

#[export] Program Instance toy_sha2 : Sha2Crate :=
  {| sha256 m := foldl checksum_step (replicate 32 Byte.x00) m |}.
Next Obligation.
  intros m. assert (length (replicate 32 Byte.x00) = 32%nat) as Hl by done.
  revert Hl. generalize (replicate 32 Byte.x00). induction m as [|b m IH]; intros acc Hl; [done|].
  simpl. apply IH. destruct acc as [|x acc]; [done|]. simpl. rewrite length_app. simpl in *. lia.
Qed.

(** ** [base64]: two letters per byte, which is enough for its laws *)

Definition hex_char (n : N) : ascii := ascii_of_N (65 + n).
Definition hex_val (c : ascii) : option N :=
  if (65 <=? u8 c) && (u8 c <=? 80) then Some (u8 c - 65) else None.

Fixpoint hex_encode (m : bytes) : string :=
  match m with
  | [] => ""
  | b :: m => String (hex_char (Byte.to_N b / 16)) (String (hex_char (Byte.to_N b mod 16)) (hex_encode m))
  end.

Fixpoint hex_decode (s : string) : option bytes :=
  match s with
  | "" => Some []
  | String a (String b r) =>
      match hex_val a, hex_val b, hex_decode r with
      | Some x, Some y, Some m => match Byte.of_N (16 * x + y) with Some c => Some (c :: m) | None => None end
      | _, _, _ => None
      end
  | String _ "" => None
  end.

#[export] Instance toy_base64 : Base64Crate.
Proof.
  refine {| b64_encode := hex_encode; b64_decode := hex_decode |}.
  - induction m as [|b m IH]; [done|]. simpl. rewrite IH. by destruct b.
  - induction m as [|b m IH]; [done|]. simpl. rewrite IH. by destruct b.
Defined.

(** ** [subtle] and [http] *)

#[export] Instance toy_subtle : SubtleCrate.
Proof.
  refine {| ct_eq a b := bool_decide (a = b) |}.
  intros a b _. apply bool_decide_eq_true.
Defined.

(** A body is its data, or [None] if reading it fails. *)
#[export] Instance toy_http : HttpCrate.
Proof.
  refine {| HeaderValue := string; hv_to_str v := Some v; Body := option bytes; body_data b := b;
    to_bytes b limit := match b with
      | Some d => if bytes_len d <=? limit then Some d else None
      | None => None
      end |}.
  done.
Defined.

(** ** [serde_json] and the router *)

#[export] Instance toy_json : JsonCrate := {|
  json_sub s := as_bytes s;
  json_alive b := if b then [Byte.x74] else [Byte.x66];
|}.

Definition toy_matches (pattern path : string) : bool :=
  if String.eqb pattern "/api/blocks/{id}" then
    match strip_prefix "/api/blocks/" path with
    | Some segment => negb (is_empty segment) && str_all (fun c => negb (Ascii.eqb c "/")) segment
    | None => false
    end
  else String.eqb pattern path.

#[export] Instance toy_router : RouterCrate.
Proof.
  refine {| route_matches := toy_matches |}.
  - intros pattern path Hp. unfold toy_matches. by destruct (String.eqb_spec pattern "/api/blocks/{id}") as [->|].
  - intros path. unfold toy_matches. simpl String.eqb. cbv iota.
    destruct (strip_prefix "/api/blocks/" path) as [seg|] eqn:Hs.
    + apply strip_prefix_Some in Hs as ->. rewrite andb_true_iff, negb_true_iff. split.
      * intros [He Ha]. exists seg. by destruct seg.
      * intros (seg' & Heq & He & Ha). apply (inj (String.append "/api/blocks/")) in Heq as ->. by destruct seg'.
    + split; [done|]. intros (seg & -> & _).
      by rewrite (proj2 (strip_prefix_Some _ _ seg)) in Hs.
Defined.

(** ** [serde_json]: a JWK set is a comma-separated list of key ids, each for
    an ES256 key; a discovery document is its [jwks_uri] *)

Definition toy_coordinate (s : string) : string := hex_encode (pad32 (as_bytes s)).
Definition toy_key (kid : string) : RawJwk :=
  {| key_algorithm := Some KA_ES256; key_id := Some kid;
     algorithm := EllipticCurveKey P256 (toy_coordinate kid) (toy_coordinate "") |}.

#[export] Instance toy_serde : SerdeCrate := {|
  jwkset_from_slice b := Some (toy_key <$> split "," (String.string_of_list_byte b));
  discovery_from_slice b := Some (String.string_of_list_byte b);
|}.

(** ** [jsonwebtoken]: tokens whose headers and claims are listed *)

Fixpoint assoc {A} (k : string) (l : list (string * A)) : option A :=
  match l with
  | [] => None
  | (k', a) :: l => if String.eqb k k' then Some a else assoc k l
  end.

Definition table_jwt (headers : list (string * Header)) : JwtCrate := {|
  DecodingKey := RawJwk;
  decode_header jws := assoc jws headers;
  DecodingKey_from_jwk k := Some k;
|}.

(** The listed claims, under the listed key only. *)
Definition table_decode {T} (headers : list (string * Header)) (signed : list (string * (RawJwk * T))) :
    @JwtDecode (table_jwt headers) T := {|
  jwt_decode jws (key : @DecodingKey (table_jwt headers)) _ :=
    match assoc jws signed with
    | Some (k, claims) => if bool_decide (k = (key : RawJwk)) then Ok claims else Err OtherJwtError
    | None => Err OtherJwtError
    end;
|}.
