(* ===== verification/Crypto.v ===== *)
(** * Crypto: constant-time comparison and key thumbprints

    [auth/crypto.rs].  Constant-time comparison is [subtle]'s; a thumbprint is
    SHA-256 over the canonical JSON of RFC 7638.  The main fact is that the
    canonical JSON determines the key, so that two keys with one thumbprint
    are a SHA-256 collision. *)

From S2P Require Import Prelude RustStd Crates Fs Instances.

Section crypto.
Context `{SubtleCrate} `{Sha2Crate} `{Base64Crate}.

Definition ct_eq_bytes (a b : bytes) : bool :=
  if negb (bytes_len a =? bytes_len b) then false else ct_eq a b.

Definition ct_eq_str (a b : string) : bool := ct_eq_bytes (as_bytes a) (as_bytes b).

Definition ct_eq_32 (a b : bytes) : bool := ct_eq a b.

Inductive JwkThumbprintInput : Type :=
  | Rsa (n e : bytes)
  | EcP256 (x y : bytes).

(** A double quote, and a quoted member value. *)
Definition dq : ascii := ascii_of_N 34.
Definition quoted (s : string) : string := String dq (s +:+ String dq "").

Definition canonical_json (input : JwkThumbprintInput) : string :=
  match input with
  | Rsa n e =>
      let e_b64 := b64_encode e in
      let n_b64 := b64_encode n in
      "{" +:+ quoted "e" +:+ ":" +:+ quoted e_b64 +:+ "," +:+ quoted "kty" +:+ ":" +:+ quoted "RSA"
      +:+ "," +:+ quoted "n" +:+ ":" +:+ quoted n_b64 +:+ "}"
  | EcP256 x y =>
      let x_b64 := b64_encode x in
      let y_b64 := b64_encode y in
      "{" +:+ quoted "crv" +:+ ":" +:+ quoted "P-256" +:+ "," +:+ quoted "kty" +:+ ":" +:+ quoted "EC"
      +:+ "," +:+ quoted "x" +:+ ":" +:+ quoted x_b64 +:+ "," +:+ quoted "y" +:+ ":" +:+ quoted y_b64
      +:+ "}"
  end.

Definition jwk_thumbprint (input : JwkThumbprintInput) : bytes :=
  sha256 (as_bytes (canonical_json input)).

Definition jwk_thumbprint_b64url (input : JwkThumbprintInput) : string :=
  b64_encode (jwk_thumbprint input).

(** ** Comparison is equality *)

Lemma as_bytes_inj s t : as_bytes s = as_bytes t -> s = t.
Proof.
  intros Heq. rewrite <- (String.string_of_list_byte_of_string s), <- (String.string_of_list_byte_of_string t).
  unfold as_bytes in Heq. by rewrite Heq.
Qed.

Lemma ct_eq_bytes_spec a b : ct_eq_bytes a b = true <-> a = b.
Proof.
  unfold ct_eq_bytes, bytes_len. destruct (N.eqb_spec (N.of_nat (length a)) (N.of_nat (length b))).
  - simpl. apply ct_eq_spec. lia.
  - simpl. split; [done|]. by intros ->.
Qed.

Lemma ct_eq_str_spec a b : ct_eq_str a b = true <-> a = b.
Proof. unfold ct_eq_str. rewrite ct_eq_bytes_spec. split; [apply as_bytes_inj|by intros ->]. Qed.

Lemma ct_eq_32_spec a b : length a = 32%nat -> length b = 32%nat -> ct_eq_32 a b = true <-> a = b.
Proof. intros Ha Hb. apply ct_eq_spec. congruence. Qed.

Lemma ct_eq_str_false a b : ct_eq_str a b = false <-> a <> b.
Proof. rewrite <- not_true_iff_false, ct_eq_str_spec. done. Qed.

(** ** The canonical JSON determines the key *)

Definition no_dq (c : ascii) : bool := negb (Ascii.eqb c dq).

Lemma b64_no_dq m : str_all no_dq (b64_encode m) = true.
Proof.
  eapply str_all_mono; [|apply b64_alphabet]. intros c Hc. unfold no_dq.
  destruct (Ascii.eqb_spec c dq) as [->|]; [|done]. by vm_compute in Hc.
Qed.

(** A quoted value ends at its closing quote. *)
Lemma quote_ends a b r r' :
  str_all no_dq a = true -> str_all no_dq b = true ->
  a +:+ String dq r = b +:+ String dq r' -> a = b /\ r = r'.
Proof.
  revert b. induction a as [|c a IH]; intros [|d b]; simpl; intros Ha Hb Heq; simplify_eq.
  - done.
  - bool_hyps. destruct (IH b) as [-> ->]; auto.
Qed.

Lemma quoted_app s r : quoted s +:+ r = String dq (s +:+ String dq r).
Proof. unfold quoted. simpl. by rewrite append_assoc. Qed.

Lemma canonical_json_inj a b : canonical_json a = canonical_json b -> a = b.
Proof.
  destruct a as [n e|x y], b as [n' e'|x' y']; unfold canonical_json; rewrite !quoted_app; simpl;
    intros Heq; simplify_eq.
  - apply quote_ends in Heq as [He Heq]; [|apply b64_no_dq..]. simplify_eq.
    apply quote_ends in Heq as [Hn _]; [|apply b64_no_dq..].
    apply b64_encode_inj in He as ->. by apply b64_encode_inj in Hn as ->.
  - apply quote_ends in Heq as [He Heq]; [|apply b64_no_dq..]. simplify_eq.
    apply quote_ends in Heq as [Hn _]; [|apply b64_no_dq..].
    apply b64_encode_inj in He as ->. by apply b64_encode_inj in Hn as ->.
Qed.

Lemma jwk_thumbprint_length k : length (jwk_thumbprint k) = 32%nat.
Proof. apply sha256_length. Qed.
End crypto.

(** C32. A thumbprint identifies its key: two keys with the same RFC 7638
    thumbprint are equal, or their canonical JSON documents are two distinct
    messages with the same SHA-256 digest.  Keys of different types, or that
    differ in any parameter, never share a document. *)
Theorem thumbprint_identifies_key `{Sha2Crate} `{Base64Crate} (a b : JwkThumbprintInput) :
  jwk_thumbprint a = jwk_thumbprint b ->
  a = b \/ (canonical_json a <> canonical_json b
            /\ sha256 (as_bytes (canonical_json a)) = sha256 (as_bytes (canonical_json b))).
Proof.
  intros Heq. destruct (String.eqb_spec (canonical_json a) (canonical_json b)) as [Hj|Hj].
  - left. by apply canonical_json_inj.
  - right. done.
Qed.

(** Two keys whose documents the stand-in for SHA-256 does not tell apart: three
    bytes of the modulus, moved by 16, move 32 characters in the document. *)
Definition twin_key (before after : nat) : JwkThumbprintInput :=
  Rsa (replicate before Byte.x00 ++ [Byte.x01; Byte.x00; Byte.x00] ++ replicate after Byte.x00) [Byte.x03].

Lemma thumbprint_identifies_key_witness :
  jwk_thumbprint (twin_key 0 16) = jwk_thumbprint (twin_key 16 0)
  /\ canonical_json (twin_key 0 16) <> canonical_json (twin_key 16 0).
Proof.
  assert (jwk_thumbprint (twin_key 0 16) = jwk_thumbprint (twin_key 16 0)) as Heq by (vm_compute; reflexivity).
  split; [exact Heq|].
  destruct (thumbprint_identifies_key _ _ Heq) as [Hkey|[Hne _]].
  - discriminate Hkey.
  - exact Hne.
Defined.
