(* ===== verification/Jwks.v ===== *)
(** * Jwks: key sets and the algorithm allowlist

    The key-set half of [auth/jwks.rs]: [JwsAlg], [Jwk], [Jwks], parsing with
    the FR-010a filter, and the fetch.  ([Refresh] has the refresh protocol.)
    [compute_thumbprint] can panic, so its result is an [outcome]. *)

From S2P Require Import Prelude RustStd Crates Fs Instances Crypto.

Inductive JwsAlg : Type := Ps256 | Es256.

Global Instance JwsAlg_eq_dec : EqDecision JwsAlg.
Proof. solve_decision. Defined.

Definition from_jwt_key_alg (alg : KeyAlgorithm) : option JwsAlg :=
  match alg with KA_PS256 => Some Ps256 | KA_ES256 => Some Es256 | KA_Other _ => None end.

Definition to_jwt_algorithm (a : JwsAlg) : Algorithm :=
  match a with Ps256 => PS256 | Es256 => ES256 end.

Record Jwk := {
  kid : option string;
  alg : JwsAlg;
  thumbprint : bytes;
  jwk : RawJwk;
}.

Record Jwks := {
  by_kid : gmap string Jwk;
  by_thumbprint : gmap bytes Jwk;
  keyless : list Jwk;
}.

Definition Jwks_empty : Jwks := {| by_kid := ∅; by_thumbprint := ∅; keyless := [] |}.

Definition map_is_empty {A} (m : gmap string A) : bool := bool_decide (m = ∅).

Definition Jwks_is_empty (j : Jwks) : bool :=
  bool_decide (size (by_kid j) = 0%nat) && bool_decide (keyless j = []).

Definition Jwks_len (j : Jwks) : N := N.of_nat (size (by_kid j) + length (keyless j)).

Definition iter_thumbprints (j : Jwks) : list bytes := (map_to_list (by_thumbprint j)).*1.

Definition lookup_candidates (j : Jwks) (kid : option string) : list Jwk :=
  match kid with
  | Some k => match by_kid j !! k with Some found => [found] | None => keyless j end
  | None => keyless j
  end.

Definition lookup_by_thumbprint (j : Jwks) (tp : bytes) : option Jwk := by_thumbprint j !! tp.

Inductive JwksFetchError : Type :=
  | JwksHttp
  | JwksBadStatus (status : N)
  | JwksParse
  | JwksEmpty
  | UnsupportedCurve
  | InvalidEcCoordinate (len : N)
  | Base64Decode.

Section parse.
Context `{Sha2Crate} `{Base64Crate}.

Definition compute_thumbprint (jwk : RawJwk) : outcome (result JwksFetchError bytes) :=
  match algorithm jwk with
  | EllipticCurveKey curve x y =>
      Value (
        bail! UnsupportedCurve when negb (bool_decide (curve = P256)) ;;
        let? x := b64_decode x or! Base64Decode in
        let? y := b64_decode y or! Base64Decode in
        bail! InvalidEcCoordinate (N.max (bytes_len x) (bytes_len y))
          when negb (bytes_len x =? 32) || negb (bytes_len y =? 32) ;;
        Ok (jwk_thumbprint (EcP256 x y)))
  | RSAKey n e =>
      Value (
        let? n := b64_decode n or! Base64Decode in
        let? e := b64_decode e or! Base64Decode in
        Ok (jwk_thumbprint (Rsa n e)))
  | OctetKey _ | OctetKeyPair _ => Panic
  end.

(** One iteration of the loop of [parse_jwks]. *)
Definition parse_one (raw_jwk : RawJwk) (j : Jwks) : outcome (result JwksFetchError Jwks) :=
  match key_algorithm raw_jwk ≫= from_jwt_key_alg with
  | None => Value (Ok j)
  | Some alg =>
      let?! tp := compute_thumbprint raw_jwk in
      let kid := key_id raw_jwk in
      let entry := {| kid := kid; alg := alg; thumbprint := tp; jwk := raw_jwk |} in
      let by_thumbprint := <[tp := entry]> (by_thumbprint j) in
      Value (Ok match kid with
        | Some k => {| by_kid := <[k := entry]> (by_kid j); by_thumbprint := by_thumbprint;
                       keyless := keyless j |}
        | None => {| by_kid := by_kid j; by_thumbprint := by_thumbprint;
                     keyless := keyless j ++ [entry] |}
        end)
  end.

Fixpoint parse_loop (keys : list RawJwk) (j : Jwks) : outcome (result JwksFetchError Jwks) :=
  match keys with
  | [] => Value (Ok j)
  | raw_jwk :: keys => let?! j := parse_one raw_jwk j in parse_loop keys j
  end.

Definition parse_jwks (raw : list RawJwk) : outcome (result JwksFetchError Jwks) :=
  let?! j := parse_loop raw Jwks_empty in
  Value (bail! JwksEmpty when Jwks_is_empty j ;; Ok j).

(** [fetch_jwks], given the outcome of the [GET]. *)
Definition fetch_jwks `{SerdeCrate} (reply : HttpReply) : outcome (result JwksFetchError Jwks) :=
  match reply with
  | SendFailed => Value (Err JwksHttp)
  | Reply status body =>
      if negb (status_is_success status) then Value (Err (JwksBadStatus status)) else
      let?! bytes := Value (body or! JwksHttp) in
      let?! raw := Value (jwkset_from_slice bytes or! JwksParse) in
      parse_jwks raw
  end.

(** ** Well-formed key sets *)

(** A key that passed the filter, with its own thumbprint. *)
Definition jwk_wf (k : Jwk) : Prop :=
  (exists a, key_algorithm (jwk k) = Some a /\ from_jwt_key_alg a = Some (alg k))
  /\ compute_thumbprint (jwk k) = Value (Ok (thumbprint k)) /\ kid k = key_id (jwk k).

(** The keys verification can ever use. *)
Definition usable (j : Jwks) (k : Jwk) : Prop := exists kid, k ∈ lookup_candidates j kid.

Record jwks_wf (j : Jwks) : Prop := {
  jw_kid : forall k e, by_kid j !! k = Some e -> jwk_wf e /\ kid e = Some k;
  jw_keyless : forall e, e ∈ keyless j -> jwk_wf e /\ kid e = None;
  jw_thumb : forall tp e, by_thumbprint j !! tp = Some e -> jwk_wf e /\ thumbprint e = tp;
  jw_kid_indexed : forall k e, by_kid j !! k = Some e -> is_Some (by_thumbprint j !! thumbprint e);
  jw_keyless_indexed : forall e, e ∈ keyless j -> is_Some (by_thumbprint j !! thumbprint e);
}.

Lemma jwks_wf_empty : jwks_wf Jwks_empty.
Proof.
  split; simpl; intros *; rewrite ?lookup_empty; try done; intros Hin; by apply not_elem_of_nil in Hin.
Qed.

Lemma usable_cases j k : usable j k <-> (exists id, by_kid j !! id = Some k) \/ k ∈ keyless j.
Proof.
  split.
  - intros [[id|] Hin]; simpl in Hin; [|by right]. destruct (by_kid j !! id) eqn:Hk; [|by right].
    left. apply list_elem_of_singleton in Hin as ->. by exists id.
  - intros [[id Hk]|Hin]; [exists (Some id)|by exists None]. simpl. rewrite Hk.
    by apply list_elem_of_singleton.
Qed.

Lemma usable_wf j k : jwks_wf j -> usable j k -> jwk_wf k /\ is_Some (by_thumbprint j !! thumbprint k).
Proof.
  intros Hj [[id Hk]|Hk]%usable_cases.
  - split; [by eapply jw_kid|by eapply jw_kid_indexed].
  - split; [by eapply jw_keyless|by eapply jw_keyless_indexed].
Qed.

Lemma indexed_mono (m : gmap bytes Jwk) tp e t :
  is_Some (m !! t) -> is_Some (<[tp := e]> m !! t).
Proof. rewrite lookup_insert. case_decide; eauto. Qed.

Lemma parse_one_wf raw j j' : jwks_wf j -> parse_one raw j = Value (Ok j') -> jwks_wf j'.
Proof.
  intros Hj. unfold parse_one. destruct (key_algorithm raw ≫= from_jwt_key_alg) as [a|] eqn:Ha.
  2: { by intros [= <-]. }
  intros Hp. apply try_bind_Ok in Hp as (tp & Htp & Hp).
  set (e := {| kid := key_id raw; alg := a; thumbprint := tp; jwk := raw |}) in *.
  assert (jwk_wf e) as He.
  { split; [|done]. simpl. destruct (key_algorithm raw) as [ka|]; [|done]. by exists ka. }
  assert (kid e = key_id raw) as Hkid by done.
  destruct Hj as [H1 H2 H3 H4 H5]. destruct (key_id raw) as [id|] eqn:Hid; simplify_eq.
  - split; simpl.
    + intros k e'. rewrite lookup_insert. case_decide; [intros [= <-]; subst; done|auto].
    + auto.
    + intros t e'. rewrite lookup_insert. case_decide; [intros [= <-]; subst; done|auto].
    + intros k e'. rewrite lookup_insert. case_decide.
      * intros [= <-]. simpl. rewrite lookup_insert_eq. eauto.
      * intros Hk. apply indexed_mono. eauto.
    + intros e' Hin. apply indexed_mono. eauto.
  - split; simpl.
    + auto.
    + intros e' [Hin| ->%list_elem_of_singleton]%elem_of_app; [auto|done].
    + intros t e'. rewrite lookup_insert. case_decide; [intros [= <-]; subst; done|auto].
    + intros k e' Hk. apply indexed_mono. eauto.
    + intros e' [Hin| ->%list_elem_of_singleton]%elem_of_app; [apply indexed_mono; eauto|].
      simpl. rewrite lookup_insert_eq. eauto.
Qed.

Lemma parse_loop_wf raw j j' : jwks_wf j -> parse_loop raw j = Value (Ok j') -> jwks_wf j'.
Proof.
  revert j. induction raw as [|r raw IH]; intros j Hj; [by intros [= <-]|].
  simpl. intros (j1 & H1 & H2)%try_bind_Ok. eauto using parse_one_wf.
Qed.

Lemma Jwks_is_empty_false j : Jwks_is_empty j = false -> exists k, usable j k.
Proof.
  unfold Jwks_is_empty. intros Hn. apply andb_false_iff in Hn as [Hn|Hn]; bool_hyps.
  - destruct (map_choose (by_kid j)) as (id & k & Hk).
    { intros Hm. apply Hn. by rewrite Hm, map_size_empty. }
    exists k. apply usable_cases. left. eauto.
  - destruct (keyless j) as [|k ks] eqn:Hk; [done|]. exists k. apply usable_cases. right.
    rewrite Hk. by left.
Qed.

Lemma parse_jwks_wf raw j :
  parse_jwks raw = Value (Ok j) -> jwks_wf j /\ exists k, usable j k.
Proof.
  intros (j0 & H1 & H2)%try_bind_Ok. inv_out.
  split; [by eapply parse_loop_wf; [apply jwks_wf_empty|]|by apply Jwks_is_empty_false].
Qed.

Lemma fetch_jwks_wf `{SerdeCrate} reply j :
  fetch_jwks reply = Value (Ok j) -> jwks_wf j /\ exists k, usable j k.
Proof.
  unfold fetch_jwks. destruct reply as [|status body]; [done|].
  destruct (negb _); [done|]. intros Hp. inv_out. by eapply parse_jwks_wf.
Qed.
End parse.
