(* ===== verification/ServerConfig.v ===== *)
(** * ServerConfig: validated configuration and its errors

    [config/server_config.rs] and [config/error.rs]: the typed configuration
    every other component reads, the defaults of the [auth] block, the
    constructor of an audience's OIDC configuration, and [ConfigError].  The
    variants of [ConfigError] keep the keys and values an operator sees; the
    chained [source] errors of parsers are dropped. *)

From S2P Require Import Prelude RustStd Crates.

Inductive ConfigError : Type :=
  | Missing (key : string)
  | InvalidBindAddress (value : string)
  | InvalidBlockSize (value : string)
  | InvalidStorageBackend (value : string)
  | LocalFsRootMissing
  | LocalFsRootNotAbsolute (value : string)
  | InvalidCidr (entry : string) (position : nat)
  | InvalidIssuerUrl (audience value : string)
  | InvalidIssuerUrlScheme (audience value scheme : string)
  | IssuerUrlHasComponent (audience value component : string)
  | EmptyAudience (audience : string)
  | DuplicateAudience (value : string)
  | InvalidDrainTimeout (value : string)
  | InvalidAuthDurationSecs (key value : string)
  | InvalidAuthMaxReplayEntries (value : string)
  | AuthReplayWindowTooSmall (window freshness skew required : N)
  | FileRead (path : string) (source : ErrorKind)
  | TomlParse
  | NonUnicodeEnv (key : string).

Record AuthConfig := {
  clock_skew_secs : N;
  dpop_freshness_secs : N;
  jwks_refresh_secs : N;
  discovery_refresh_secs : N;
  on_demand_refresh_min_interval_secs : N;
  jti_replay_window_secs : N;
  max_replay_entries : N;
}.

(** [impl Default for AuthConfig]. *)
Definition AuthConfig_default : AuthConfig :=
  let clock_skew_secs := 60 in
  let dpop_freshness_secs := 30 in
  {| clock_skew_secs := clock_skew_secs;
     dpop_freshness_secs := dpop_freshness_secs;
     jwks_refresh_secs := 3600;
     discovery_refresh_secs := 86400;
     on_demand_refresh_min_interval_secs := 30;
     jti_replay_window_secs := dpop_freshness_secs + clock_skew_secs;
     max_replay_entries := 100000 |}.

Inductive StorageBackend : Type :=
  | NoBackend
  | LocalFsBackend (root : string).

Section config.
Context `{UrlCrate} `{IpnetCrate}.

Record OidcAudienceConfig := {
  issuer_url : Url;
  audience : string;
}.

(** [OidcAudienceConfig::new]: an issuer is an [https] URL without query and
    fragment (OIDC Discovery 1.0, section 2). *)
Definition OidcAudienceConfig_new (audience_name issuer_url audience : string) :
    result ConfigError OidcAudienceConfig :=
  let? parsed := Url_parse issuer_url or! InvalidIssuerUrl audience_name issuer_url in
  bail! InvalidIssuerUrlScheme audience_name issuer_url (Url_scheme parsed)
    when negb (String.eqb (Url_scheme parsed) "https") ;;
  bail! IssuerUrlHasComponent audience_name issuer_url "query"
    when bool_decide (is_Some (Url_query parsed)) ;;
  bail! IssuerUrlHasComponent audience_name issuer_url "fragment"
    when bool_decide (is_Some (Url_fragment parsed)) ;;
  bail! EmptyAudience audience_name when is_empty audience ;;
  Ok {| issuer_url := parsed; audience := audience |}.

Record ServerConfig := {
  bind_address : SocketAddr;
  block_size_bytes : N;
  storage_backend : StorageBackend;
  trusted_proxies : list IpNet;
  vault_oidc : OidcAudienceConfig;
  admin_oidc : OidcAudienceConfig;
  drain_timeout : N;
  auth : AuthConfig;
}.

(** What an accepted OIDC configuration guarantees. *)
Definition oidc_wf (o : OidcAudienceConfig) : Prop :=
  Url_scheme (issuer_url o) = "https" /\ Url_query (issuer_url o) = None
  /\ Url_fragment (issuer_url o) = None /\ audience o <> "".

Lemma is_empty_false s : is_empty s = false <-> s <> "".
Proof. by destruct s. Qed.

Lemma OidcAudienceConfig_new_Ok n u a o :
  OidcAudienceConfig_new n u a = Ok o ->
  Url_parse u = Some (issuer_url o) /\ audience o = a /\ oidc_wf o.
Proof.
  unfold OidcAudienceConfig_new. intros Ho. inv_res. bool_hyps. unfold oidc_wf. simpl.
  rewrite is_empty_false in *. rewrite <- !eq_None_not_Some in *. done.
Qed.
End config.

(** The cross-field facts the rest of the server relies on. *)
Record auth_wf (c : AuthConfig) : Prop := {
  auth_positive : 0 < clock_skew_secs c /\ 0 < dpop_freshness_secs c /\ 0 < jwks_refresh_secs c
    /\ 0 < discovery_refresh_secs c /\ 0 < on_demand_refresh_min_interval_secs c
    /\ 0 < jti_replay_window_secs c;
  auth_u64 : clock_skew_secs c <= u64_max /\ dpop_freshness_secs c <= u64_max
    /\ jwks_refresh_secs c <= u64_max /\ discovery_refresh_secs c <= u64_max
    /\ on_demand_refresh_min_interval_secs c <= u64_max /\ jti_replay_window_secs c <= u64_max;
  auth_no_overflow : dpop_freshness_secs c + clock_skew_secs c <= u64_max;
  auth_window : dpop_freshness_secs c + clock_skew_secs c <= jti_replay_window_secs c;
  auth_entries : 1024 <= max_replay_entries c;
}.

Lemma AuthConfig_default_wf : auth_wf AuthConfig_default.
Proof. split; vm_compute; repeat split; congruence. Qed.
