(* ===== verification/Config.v ===== *)
(** * Config: collecting, merging and validating the configuration

    [config/env.rs], [config/merge.rs], [config/file.rs], [config/validate.rs],
    [config/mod.rs] and [config/extra_ca.rs].  The process environment is a
    list of pairs whose components may not be UTF-8; reading a file and
    deserializing TOML are parameters. *)

From S2P Require Import Prelude RustStd Crates ServerConfig.

(** ** [config/env.rs] *)

Record PartialOidc := { p_issuer_url : option string; p_audience : option string }.
Record PartialStorageLocalFs := { p_root : option string }.
Record PartialStorage := { p_local_fs : option PartialStorageLocalFs }.

Record PartialAuth := {
  p_clock_skew_secs : option TomlValue;
  p_dpop_freshness_secs : option TomlValue;
  p_jwks_refresh_secs : option TomlValue;
  p_discovery_refresh_secs : option TomlValue;
  p_on_demand_refresh_min_interval_secs : option TomlValue;
  p_jti_replay_window_secs : option TomlValue;
  p_max_replay_entries : option TomlValue;
}.

Inductive TrustedProxiesSource : Type :=
  | ProxyList (v : list string)
  | ProxyCsv (s : string).

Record PartialConfig := {
  p_bind_address : option string;
  p_block_size_bytes : option TomlValue;
  p_storage_backend : option string;
  p_storage : option PartialStorage;
  p_trusted_proxies : option TrustedProxiesSource;
  p_drain_timeout_secs : option TomlValue;
  p_vault_oidc : option PartialOidc;
  p_admin_oidc : option PartialOidc;
  p_auth : option PartialAuth;
}.

(** [PartialConfig::default()]. *)
Definition PartialConfig_default : PartialConfig :=
  {| p_bind_address := None; p_block_size_bytes := None; p_storage_backend := None;
     p_storage := None; p_trusted_proxies := None; p_drain_timeout_secs := None;
     p_vault_oidc := None; p_admin_oidc := None; p_auth := None |}.

(** [Some(partial)] only when one of its keys is present. *)
Definition collect_oidc (issuer audience : option string) : option PartialOidc :=
  match issuer, audience with
  | None, None => None
  | _, _ => Some {| p_issuer_url := issuer; p_audience := audience |}
  end.

Definition collect_env (env : gmap string string) : PartialConfig :=
  let text key := TomlString <$> env !! key in
  let auth := {|
    p_clock_skew_secs := text "APOK_AUTH_CLOCK_SKEW_SECS";
    p_dpop_freshness_secs := text "APOK_AUTH_DPOP_FRESHNESS_SECS";
    p_jwks_refresh_secs := text "APOK_AUTH_JWKS_REFRESH_SECS";
    p_discovery_refresh_secs := text "APOK_AUTH_DISCOVERY_REFRESH_SECS";
    p_on_demand_refresh_min_interval_secs := text "APOK_AUTH_ON_DEMAND_REFRESH_MIN_INTERVAL_SECS";
    p_jti_replay_window_secs := text "APOK_AUTH_JTI_REPLAY_WINDOW_SECS";
    p_max_replay_entries := text "APOK_AUTH_MAX_REPLAY_ENTRIES" |} in
  let any_auth_field := existsb (fun key => bool_decide (is_Some (env !! key)))
    ["APOK_AUTH_CLOCK_SKEW_SECS"; "APOK_AUTH_DPOP_FRESHNESS_SECS"; "APOK_AUTH_JWKS_REFRESH_SECS";
     "APOK_AUTH_DISCOVERY_REFRESH_SECS"; "APOK_AUTH_ON_DEMAND_REFRESH_MIN_INTERVAL_SECS";
     "APOK_AUTH_JTI_REPLAY_WINDOW_SECS"; "APOK_AUTH_MAX_REPLAY_ENTRIES"] in
  {| p_bind_address := env !! "APOK_BIND_ADDRESS";
     p_block_size_bytes := text "APOK_BLOCK_SIZE_BYTES";
     p_storage_backend := env !! "APOK_STORAGE_BACKEND";
     p_storage := match env !! "APOK_STORAGE_LOCAL_FS_ROOT" with
                  | Some v => Some {| p_local_fs := Some {| p_root := Some v |} |}
                  | None => None
                  end;
     p_trusted_proxies := ProxyCsv <$> env !! "APOK_TRUSTED_PROXIES";
     p_drain_timeout_secs := text "APOK_DRAIN_TIMEOUT_SECS";
     p_vault_oidc := collect_oidc (env !! "APOK_VAULT_OIDC_ISSUER_URL") (env !! "APOK_VAULT_OIDC_AUDIENCE");
     p_admin_oidc := collect_oidc (env !! "APOK_ADMIN_OIDC_ISSUER_URL") (env !! "APOK_ADMIN_OIDC_AUDIENCE");
     p_auth := if any_auth_field then Some auth else None |}.

(** ** [config/merge.rs] *)

(** [Option::or]. *)
Definition opt_or {A} (x y : option A) : option A := match x with Some _ => x | None => y end.

(** Two optional tables: both present are merged key by key. *)
Definition merge_with {A} (merge : A -> A -> A) (env file : option A) : option A :=
  match env, file with
  | Some e, Some f => Some (merge e f)
  | Some e, None => Some e
  | None, Some f => Some f
  | None, None => None
  end.

Definition merge_local_fs : option PartialStorageLocalFs -> option PartialStorageLocalFs ->
    option PartialStorageLocalFs :=
  merge_with (fun e f => {| p_root := opt_or (p_root e) (p_root f) |}).

Definition merge_storage : option PartialStorage -> option PartialStorage -> option PartialStorage :=
  merge_with (fun e f => {| p_local_fs := merge_local_fs (p_local_fs e) (p_local_fs f) |}).

Definition merge_oidc : option PartialOidc -> option PartialOidc -> option PartialOidc :=
  merge_with (fun e f => {| p_issuer_url := opt_or (p_issuer_url e) (p_issuer_url f);
                            p_audience := opt_or (p_audience e) (p_audience f) |}).

Definition merge_auth : option PartialAuth -> option PartialAuth -> option PartialAuth :=
  merge_with (fun e f => {|
    p_clock_skew_secs := opt_or (p_clock_skew_secs e) (p_clock_skew_secs f);
    p_dpop_freshness_secs := opt_or (p_dpop_freshness_secs e) (p_dpop_freshness_secs f);
    p_jwks_refresh_secs := opt_or (p_jwks_refresh_secs e) (p_jwks_refresh_secs f);
    p_discovery_refresh_secs := opt_or (p_discovery_refresh_secs e) (p_discovery_refresh_secs f);
    p_on_demand_refresh_min_interval_secs :=
      opt_or (p_on_demand_refresh_min_interval_secs e) (p_on_demand_refresh_min_interval_secs f);
    p_jti_replay_window_secs := opt_or (p_jti_replay_window_secs e) (p_jti_replay_window_secs f);
    p_max_replay_entries := opt_or (p_max_replay_entries e) (p_max_replay_entries f) |}).

Definition env_overrides_file (env file : PartialConfig) : PartialConfig := {|
  p_bind_address := opt_or (p_bind_address env) (p_bind_address file);
  p_block_size_bytes := opt_or (p_block_size_bytes env) (p_block_size_bytes file);
  p_storage_backend := opt_or (p_storage_backend env) (p_storage_backend file);
  p_storage := merge_storage (p_storage env) (p_storage file);
  p_trusted_proxies := opt_or (p_trusted_proxies env) (p_trusted_proxies file);
  p_drain_timeout_secs := opt_or (p_drain_timeout_secs env) (p_drain_timeout_secs file);
  p_vault_oidc := merge_oidc (p_vault_oidc env) (p_vault_oidc file);
  p_admin_oidc := merge_oidc (p_admin_oidc env) (p_admin_oidc file);
  p_auth := merge_auth (p_auth env) (p_auth file) |}.

(** ** [config/validate.rs] *)

Definition DEFAULT_DRAIN_TIMEOUT_SECS : N := 30.
Definition MIN_REPLAY_ENTRIES : N := 1024.

(** The scalar parsers share one shape: a TOML integer or a decimal string
    that passes [ok], with the offending text in the error. *)
Definition parse_scalar (ok_int : Z -> bool) (ok_str : N -> bool) (invalid : string -> ConfigError)
    (v : TomlValue) : result ConfigError N :=
  match v with
  | TomlInteger n => if ok_int n then Ok (Z.to_N n) else Err (invalid (show_Z n))
  | TomlString s =>
      match parse_u64 s with
      | Some n => if ok_str n then Ok n else Err (invalid s)
      | None => Err (invalid s)
      end
  | TomlOther display => Err (invalid display)
  end.

Definition parse_positive_u64 (value : option TomlValue) (invalid : string -> ConfigError) :
    result ConfigError (option N) :=
  match value with
  | None => Ok None
  | Some v =>
      let? parsed := parse_scalar (fun n => (0 <? n)%Z) (fun n => 0 <? n) invalid v in
      Ok (Some parsed)
  end.

Definition parse_auth_positive_u64 (key : string) (value : option TomlValue) :
    result ConfigError (option N) :=
  parse_positive_u64 value (InvalidAuthDurationSecs key).

Definition parse_max_replay_entries `{Target} (value : option TomlValue) :
    result ConfigError (option N) :=
  match value with
  | None => Ok None
  | Some v =>
      let? parsed := parse_scalar (fun n => (Z.of_N MIN_REPLAY_ENTRIES <=? n)%Z)
                       (fun n => MIN_REPLAY_ENTRIES <=? n) InvalidAuthMaxReplayEntries v in
      let? n := usize_try_from parsed or! InvalidAuthMaxReplayEntries (show_N parsed) in
      Ok (Some n)
  end.

Definition parse_bind_address (value : option string) : result ConfigError SocketAddr :=
  let? v := value or! Missing "bind_address" in
  parse_socket_addr v or! InvalidBindAddress v.

Definition parse_auth `{Target} (partial : option PartialAuth) : result ConfigError AuthConfig :=
  let defaults := AuthConfig_default in
  match partial with
  | None => Ok defaults
  | Some p =>
      let field key get dflt :=
        let? o := parse_auth_positive_u64 key (get p) in Ok (unwrap_or o dflt) in
      let? skew := field "clock_skew_secs" p_clock_skew_secs (clock_skew_secs defaults) in
      let? freshness := field "dpop_freshness_secs" p_dpop_freshness_secs
                          (dpop_freshness_secs defaults) in
      let? jwks := field "jwks_refresh_secs" p_jwks_refresh_secs (jwks_refresh_secs defaults) in
      let? discovery := field "discovery_refresh_secs" p_discovery_refresh_secs
                          (discovery_refresh_secs defaults) in
      let? interval := field "on_demand_refresh_min_interval_secs"
                         p_on_demand_refresh_min_interval_secs
                         (on_demand_refresh_min_interval_secs defaults) in
      let? required := u64_checked_add freshness skew
                         or! AuthReplayWindowTooSmall 0 freshness skew u64_max in
      let? window := field "jti_replay_window_secs" p_jti_replay_window_secs required in
      let? entries := parse_max_replay_entries (p_max_replay_entries p) in
      bail! AuthReplayWindowTooSmall window freshness skew required when window <? required ;;
      Ok {| clock_skew_secs := skew; dpop_freshness_secs := freshness; jwks_refresh_secs := jwks;
            discovery_refresh_secs := discovery; on_demand_refresh_min_interval_secs := interval;
            jti_replay_window_secs := window;
            max_replay_entries := unwrap_or entries (max_replay_entries defaults) |}
  end.

Definition parse_storage_backend (discriminator : option string) (storage_block : option PartialStorage) :
    result ConfigError StorageBackend :=
  let? v := discriminator or! Missing "storage_backend" in
  if String.eqb v "none" then Ok NoBackend
  else if String.eqb v "local_fs" then
    let? root := ((storage_block ≫= p_local_fs) ≫= p_root) or! LocalFsRootMissing in
    bail! LocalFsRootNotAbsolute root when negb (is_absolute root) ;;
    Ok (LocalFsBackend root)
  else Err (InvalidStorageBackend v).

Definition parse_drain_timeout (value : option TomlValue) : result ConfigError N :=
  let? o := parse_positive_u64 value InvalidDrainTimeout in
  Ok (duration_from_secs (unwrap_or o DEFAULT_DRAIN_TIMEOUT_SECS)).

(** [oidc_missing_key]: [unreachable!] on anything else. *)
Definition oidc_missing_key (audience_name field : string) : outcome string :=
  let key a f := String.eqb audience_name a && String.eqb field f in
  if key "vault" "issuer_url" then Value "vault_oidc.issuer_url"
  else if key "vault" "audience" then Value "vault_oidc.audience"
  else if key "admin" "issuer_url" then Value "admin_oidc.issuer_url"
  else if key "admin" "audience" then Value "admin_oidc.audience"
  else Panic.

(** One variable of [std::env::vars_os()]: [None] is not UTF-8. *)
Abbreviation os_var := (option string * option string)%type.

Section validate.
Context `{Target} `{UrlCrate} `{IpnetCrate}.

Definition proxy_entries (src : TrustedProxiesSource) : list string :=
  match src with
  | ProxyList v => v
  | ProxyCsv s => if is_empty s then [] else trim <$> split "," s
  end.

Fixpoint parse_nets (position : nat) (entries : list string) : result ConfigError (list IpNet) :=
  match entries with
  | [] => Ok []
  | entry :: rest =>
      bail! InvalidCidr entry position when is_empty entry ;;
      let? net := IpNet_parse entry or! InvalidCidr entry position in
      let? nets := parse_nets (S position) rest in
      Ok (net :: nets)
  end.

Definition parse_trusted_proxies (value : option TrustedProxiesSource) :
    result ConfigError (list IpNet) :=
  let? src := value or! Missing "trusted_proxies" in
  parse_nets 0 (proxy_entries src).

(** The keys of both [ok_or] calls are computed whether or not they are used. *)
Definition parse_oidc (audience_name : string) (value : option PartialOidc) :
    outcome (result ConfigError OidcAudienceConfig) :=
  match value with
  | None =>
      let! key := oidc_missing_key audience_name "issuer_url" in Value (Err (Missing key))
  | Some o =>
      let! key := oidc_missing_key audience_name "issuer_url" in
      let?! issuer := Value (p_issuer_url o or! Missing key) in
      let! key' := oidc_missing_key audience_name "audience" in
      let?! aud := Value (p_audience o or! Missing key') in
      Value (OidcAudienceConfig_new audience_name issuer aud)
  end.

Definition validate (p : PartialConfig) : outcome (result ConfigError ServerConfig) :=
  let?! bind_address := Value (parse_bind_address (p_bind_address p)) in
  let?! size := Value (parse_positive_u64 (p_block_size_bytes p) InvalidBlockSize) in
  let?! block_size_bytes := Value (size or! Missing "block_size_bytes") in
  let?! storage_backend := Value (parse_storage_backend (p_storage_backend p) (p_storage p)) in
  let?! trusted_proxies := Value (parse_trusted_proxies (p_trusted_proxies p)) in
  let?! drain_timeout := Value (parse_drain_timeout (p_drain_timeout_secs p)) in
  let?! vault := parse_oidc "vault" (p_vault_oidc p) in
  let?! admin := parse_oidc "admin" (p_admin_oidc p) in
  let?! _u := Value (bail_if (String.eqb (audience vault) (audience admin))
                       (DuplicateAudience (audience vault))) in
  let?! auth := Value (parse_auth (p_auth p)) in
  Value (Ok {| bind_address := bind_address; block_size_bytes := block_size_bytes;
               storage_backend := storage_backend; trusted_proxies := trusted_proxies;
               vault_oidc := vault; admin_oidc := admin; drain_timeout := drain_timeout;
               auth := auth |}).

(** ** [config/mod.rs], [config/file.rs], [config/extra_ca.rs] *)

Fixpoint collect_apok_env (vars : list os_var) (map : gmap string string) :
    result ConfigError (gmap string string) :=
  match vars with
  | [] => Ok map
  | (key_os, val_os) :: rest =>
      match key_os with
      | None => collect_apok_env rest map
      | Some key =>
          if negb (starts_with "APOK_" key) then collect_apok_env rest map else
          let? value := val_os or! NonUnicodeEnv key in
          collect_apok_env rest (<[key := value]> map)
      end
  end.

Context (read_to_string : string -> result ErrorKind string).
Context (toml_from_str : string -> option PartialConfig).

Definition load_optional_file (path : option string) : result ConfigError PartialConfig :=
  match path with
  | None => Ok PartialConfig_default
  | Some path_str =>
      let? content := map_err (FileRead path_str) (read_to_string path_str) in
      toml_from_str content or! TomlParse
  end.

Definition load (vars : list os_var) : outcome (result ConfigError ServerConfig) :=
  let?! env_map := Value (collect_apok_env vars ∅) in
  let env_partial := collect_env env_map in
  let toml_path := match env_map !! "APOK_CONFIG_PATH" with
                   | Some s => if is_empty s then None else Some s
                   | None => None
                   end in
  let?! file_partial := Value (load_optional_file toml_path) in
  let merged := env_overrides_file env_partial file_partial in
  validate merged.

(** The same from given variables and a given file. *)
Definition load_from (env : gmap string string) (toml_text : option string) :
    outcome (result ConfigError ServerConfig) :=
  let env_partial := collect_env env in
  let?! file_partial := Value (match toml_text with
                               | Some text => toml_from_str text or! TomlParse
                               | None => Ok PartialConfig_default
                               end) in
  let merged := env_overrides_file env_partial file_partial in
  validate merged.

(** [load] is [load_from] on what it read. *)
Lemma load_load_from vars env :
  collect_apok_env vars ∅ = Ok env ->
  load vars
  = match env !! "APOK_CONFIG_PATH" with
    | None | Some "" => load_from env None
    | Some path =>
        match read_to_string path with
        | Ok text => load_from env (Some text)
        | Err e => Value (Err (FileRead path e))
        end
    end.
Proof.
  intros Henv. unfold load, load_from. rewrite Henv. cbn [try_bind].
  destruct (env !! "APOK_CONFIG_PATH") as [[|c path]|]; [done| |done].
  cbn [is_empty load_optional_file]. by destruct (read_to_string (String c path)).
Qed.

Inductive ExtraCaError : Type := ExtraCaRead (path : string) (source : ErrorKind).

(** [extra_ca::load_optional_pem], given the variable's value (an OS string
    is its bytes) and the file system's [read]. *)
Definition load_optional_pem (value : option string) (fs_read : string -> result ErrorKind bytes) :
    result ExtraCaError (option (string * bytes)) :=
  match value with
  | None => Ok None
  | Some v =>
      if is_empty v then Ok None else
      let? b := map_err (ExtraCaRead v) (fs_read v) in
      Ok (Some (v, b))
  end.
End validate.
