(* ===== verification/ConfigSpec.v ===== *)
(** * ConfigSpec: what an accepted configuration guarantees

    The theorems about [Config]: validation cannot panic, a configuration it
    accepts satisfies every constraint the rest of the server relies on, and
    each key takes its value from the environment first and the file second,
    under the documented naming rule. *)

From S2P Require Import Prelude RustStd Crates Fs Instances ServerConfig Config.

(** ** Scalars *)

(** TOML integers are [i64]. *)
Definition i64_ok (v : TomlValue) : Prop :=
  match v with TomlInteger n => (n <= 9223372036854775807)%Z | _ => True end.

Definition oi64_ok (o : option TomlValue) : Prop :=
  match o with Some v => i64_ok v | None => True end.

Lemma parse_scalar_bound ok_int ok_str invalid v n :
  i64_ok v -> parse_scalar ok_int ok_str invalid v = Ok n -> n <= u64_max.
Proof.
  intros Hv. destruct v as [s|z|d]; simpl in *; [| |done].
  - destruct (parse_u64 s) as [m|] eqn:Hp; [|done]. destruct (ok_str m); [|done]. intros [= <-].
    by apply parse_uint_bound in Hp.
  - destruct (ok_int z); [|done]. intros [= <-]. unfold u64_max. lia.
Qed.

Lemma parse_positive_u64_Ok v invalid o :
  parse_positive_u64 v invalid = Ok o -> oi64_ok v ->
  match o with Some n => 0 < n <= u64_max | None => v = None end.
Proof.
  destruct v as [v|]; simpl; [|by intros [= <-]]. intros Hp Hv. inv_res.
  split; [|by eapply parse_scalar_bound].
  destruct v as [s|z|d]; simpl in *; [| |done]; repeat case_match; simplify_eq; bool_hyps; lia.
Qed.

Lemma auth_field_bound key v o dflt :
  parse_auth_positive_u64 key v = Ok o -> oi64_ok v -> 0 < dflt <= u64_max ->
  0 < unwrap_or o dflt <= u64_max.
Proof. intros Hf Hv Hd. apply parse_positive_u64_Ok in Hf; [|done]. by destruct o. Qed.

Lemma parse_max_replay_entries_Ok `{Target} v o :
  parse_max_replay_entries v = Ok o ->
  match o with Some n => 1024 <= n <= usize_max | None => True end.
Proof.
  destruct v as [v|]; simpl; [|by intros [= <-]]. intros Hp. inv_res.
  unfold usize_try_from in *. split; [|case_match; simplify_eq; by bool_hyps].
  case_match; simplify_eq. destruct v as [s|z|d]; simpl in *; [| |done];
    repeat case_match; simplify_eq; bool_hyps; unfold MIN_REPLAY_ENTRIES in *; lia.
Qed.

(** ** [parse_auth] *)

Definition auth_i64 (p : PartialAuth) : Prop :=
  oi64_ok (p_clock_skew_secs p) /\ oi64_ok (p_dpop_freshness_secs p)
  /\ oi64_ok (p_jwks_refresh_secs p) /\ oi64_ok (p_discovery_refresh_secs p)
  /\ oi64_ok (p_on_demand_refresh_min_interval_secs p) /\ oi64_ok (p_jti_replay_window_secs p).

Lemma literal_bound d : ((0 <? d) && (d <=? u64_max)) = true -> 0 < d <= u64_max.
Proof. intros. by bool_hyps. Qed.

Ltac field key d Hv :=
  match goal with Hf : parse_auth_positive_u64 key _ = Ok _ |- _ =>
    let Hb := fresh in
    assert (0 < d <= u64_max) as Hb by (first [exact (literal_bound d eq_refl)|lia]);
    pose proof (auth_field_bound _ _ _ d Hf Hv Hb); clear Hf Hb end.

Lemma parse_auth_wf `{Target} p c :
  parse_auth p = Ok c -> match p with Some a => auth_i64 a | None => True end ->
  auth_wf c /\ max_replay_entries c <= usize_max.
Proof.
  assert (100000 <= usize_max) as Hdef.
  { destruct usize_width as [-> | ->]; vm_compute; discriminate. }
  destruct p as [p|]; simpl; [|intros [= <-] _; split; [apply AuthConfig_default_wf|done]].
  intros Hp (H1 & H2 & H3 & H4 & H5 & H6). inv_res.
  field "clock_skew_secs" 60 H1.
  field "dpop_freshness_secs" 30 H2.
  field "jwks_refresh_secs" 3600 H3.
  field "discovery_refresh_secs" 86400 H4.
  field "on_demand_refresh_min_interval_secs" 30 H5.
  rewrite u64_checked_add_Some in *. bool_hyps.
  match goal with Hs : ?req = _ + _ /\ _ |- _ =>
    field "jti_replay_window_secs" req H6 end.
  match goal with Hm : parse_max_replay_entries _ = Ok ?o |- _ =>
    apply parse_max_replay_entries_Ok in Hm; destruct o; simpl in * end;
    (split; [split; simpl; lia|simpl; lia]).
Qed.

(** ** [validate] *)

Section validate_props.
Context `{Target} `{UrlCrate} `{IpnetCrate}.

(** Every TOML integer of a partial configuration is an [i64]. *)
Definition config_i64 (p : PartialConfig) : Prop :=
  oi64_ok (p_block_size_bytes p) /\ oi64_ok (p_drain_timeout_secs p)
  /\ match p_auth p with Some a => auth_i64 a | None => True end.

Record config_wf (c : ServerConfig) : Prop := {
  wf_auth : auth_wf (auth c);
  wf_entries : max_replay_entries (auth c) <= usize_max;
  wf_vault : oidc_wf (vault_oidc c);
  wf_admin : oidc_wf (admin_oidc c);
  wf_distinct : audience (vault_oidc c) <> audience (admin_oidc c);
  wf_block_size : 0 < block_size_bytes c <= u64_max;
  wf_drain : nanos_per_sec <= drain_timeout c;
  wf_root : match storage_backend c with
            | LocalFsBackend root => is_absolute root = true /\ root <> ""
            | NoBackend => True
            end;
}.

Lemma parse_oidc_value name v :
  name = "vault" \/ name = "admin" ->
  exists r, parse_oidc name v = Value r
    /\ forall o, r = Ok o -> oidc_wf o /\ exists p, v = Some p
         /\ p_audience p = Some (audience o).
Proof.
  intros Hn. destruct v as [[[i|] [a|]]|]; destruct Hn as [-> | ->];
    eexists; (split; [reflexivity|]); intros o Ho; try discriminate Ho;
    apply OidcAudienceConfig_new_Ok in Ho as (_ & <- & ?); eauto.
Qed.

Lemma parse_storage_backend_Ok d s b :
  parse_storage_backend d s = Ok b ->
  match b with LocalFsBackend root => is_absolute root = true /\ root <> "" | NoBackend => True end.
Proof.
  unfold parse_storage_backend. intros Hb. inv_res.
  destruct (String.eqb _ "none"); [by simplify_eq|]. destruct (String.eqb _ "local_fs"); [|done].
  inv_res. bool_hyps. split; [done|]. by intros ->.
Qed.

Lemma parse_drain_timeout_Ok v d : parse_drain_timeout v = Ok d -> oi64_ok v -> nanos_per_sec <= d.
Proof.
  unfold parse_drain_timeout. intros Hd Hv. inv_res.
  match goal with Hp : parse_positive_u64 _ _ = Ok ?o |- _ =>
    apply parse_positive_u64_Ok in Hp; [|done]; destruct o; simpl end;
    unfold duration_from_secs, nanos_per_sec, DEFAULT_DRAIN_TIMEOUT_SECS; lia.
Qed.

Lemma parse_oidc_Ok name v o :
  name = "vault" \/ name = "admin" -> parse_oidc name v = Value (Ok o) -> oidc_wf o.
Proof.
  intros Hn Ho. destruct (parse_oidc_value name v Hn) as (r & Hr & Hw).
  apply Hw. congruence.
Qed.
End validate_props.

Lemma validate_cases `{Target} `{UrlCrate} `{IpnetCrate} (p : PartialConfig) :
  config_i64 p ->
  exists r, validate p = Value r /\ match r with Ok c => config_wf c | Err _ => True end.
Proof.
  intros (Hbs & Hdr & Hau). destruct (validate p) as [[c|e]|] eqn:Hv; [|by exists (Err e)|].
  - exists (Ok c). split; [done|]. unfold validate in Hv. inv_out. bool_hyps.
    match goal with Hs : parse_positive_u64 (p_block_size_bytes p) _ = Ok _ |- _ =>
      apply parse_positive_u64_Ok in Hs; [|exact Hbs]; simpl in Hs end.
    match goal with Ha : parse_auth _ = Ok _ |- _ =>
      destruct (parse_auth_wf _ _ Ha Hau) end.
    split; simpl; eauto using parse_drain_timeout_Ok, parse_oidc_Ok.
    by eapply parse_storage_backend_Ok.
  - exfalso. revert Hv. unfold validate, try_bind.
    destruct (parse_oidc_value "vault" (p_vault_oidc p)) as (v & -> & _); [by left|].
    destruct (parse_oidc_value "admin" (p_admin_oidc p)) as (a & -> & _); [by right|].
    repeat case_match; congruence.
Qed.

(** C34. Validation never panics, and a configuration it accepts is one the
    rest of the server can rely on: freshness plus skew does not overflow and
    is covered by the replay window, every duration is positive and a [u64],
    the replay store has room for at least 1024 entries and its bound fits the
    target's [usize], both issuers are [https] URLs without query or fragment,
    the audiences are non-empty and distinct, blocks and the drain timeout are
    not empty, and a local storage root is an absolute path. *)
Theorem validate_sound `{Target} `{UrlCrate} `{IpnetCrate} (p : PartialConfig) :
  config_i64 p ->
  exists r, validate p = Value r /\ match r with Ok c => config_wf c | Err _ => True end.
Proof. apply validate_cases. Qed.

(** The same of the whole of [load], for files whose integers are [i64]s. *)
Lemma opt_or_i64 x y : oi64_ok x -> oi64_ok y -> oi64_ok (opt_or x y).
Proof. by destruct x. Qed.

Lemma text_i64 (o : option string) : oi64_ok (TomlString <$> o).
Proof. by destruct o. Qed.

Lemma collect_env_i64 env : config_i64 (collect_env env).
Proof.
  split_and!; [apply text_i64..|]. unfold collect_env. cbn [p_auth].
  destruct (existsb _ _); [|done]. by split_and!; apply text_i64.
Qed.

Lemma overrides_i64 env file : config_i64 env -> config_i64 file -> config_i64 (env_overrides_file env file).
Proof.
  intros (Hb & Hd & Ha) (Hb' & Hd' & Ha'). split_and!; [by apply opt_or_i64..|].
  cbn [p_auth env_overrides_file]. unfold merge_auth, merge_with.
  destruct (p_auth env) as [a|], (p_auth file) as [a'|]; try done.
  destruct Ha as (H1 & H2 & H3 & H4 & H5 & H6), Ha' as (? & ? & ? & ? & ? & ?).
  by split_and!; apply opt_or_i64.
Qed.

Lemma load_wf `{Target} `{UrlCrate} `{IpnetCrate} read_to_string toml_from_str vars c :
  (forall s p, toml_from_str s = Some p -> config_i64 p) ->
  load read_to_string toml_from_str vars = Value (Ok c) -> config_wf c.
Proof.
  intros Ht Hl. unfold load in Hl. inv_out.
  match goal with Hf : load_optional_file _ _ _ = Ok ?f, Hv : validate _ = _ |- _ =>
    assert (config_i64 f) as Hi end.
  { unfold load_optional_file in *. repeat case_match; inv_res; simplify_eq; try by split_and!.
    all: unfold ok_or in *; repeat case_match; simplify_eq; eauto. }
  destruct (validate_cases _ (overrides_i64 _ _ (collect_env_i64 x) Hi)) as (r & Hr & Hwf).
  rewrite Hr in Hl. by simplify_eq.
Qed.

(** ** The scalar forms agree *)

(** A positive number means the same whether it is written as an integer
    in the file or as decimal digits in the environment: for every number an
    [i64] can hold both forms are accepted with that value; zero is rejected
    in both forms; and a number a [u64] cannot hold is rejected. *)
Theorem scalar_forms_agree (n : N) (invalid : string -> ConfigError) :
  (0 < n <= 9223372036854775807 ->
     parse_positive_u64 (Some (TomlInteger (Z.of_N n))) invalid = Ok (Some n))
  /\ (0 < n <= u64_max -> parse_positive_u64 (Some (TomlString (show_N n))) invalid = Ok (Some n))
  /\ parse_positive_u64 (Some (TomlInteger 0)) invalid = Err (invalid "0")
  /\ parse_positive_u64 (Some (TomlString "0")) invalid = Err (invalid "0")
  /\ (forall s o, parse_positive_u64 (Some (TomlString s)) invalid = Ok o ->
        exists m, o = Some m /\ 0 < m <= u64_max).
Proof.
  split; [|split; [|split; [done|split; [done|]]]].
  - intros Hn. simpl. destruct (Z.ltb_spec 0 (Z.of_N n)); [|lia]. simpl. by rewrite N2Z.id.
  - intros Hn. simpl. unfold parse_u64. rewrite parse_uint_show by lia. simpl.
    by destruct (N.ltb_spec 0 n); [|lia].
  - intros s o Ho. apply parse_positive_u64_Ok in Ho; [|done]. destruct o; [by eauto|done].
Qed.

(** ** Precedence and naming *)

(** The leaves of a partial configuration under their canonical TOML keys. *)
Inductive leaf : Type :=
  | LeafText (s : string)
  | LeafToml (v : TomlValue)
  | LeafProxies (v : TrustedProxiesSource).

Definition leaves (p : PartialConfig) : list (string * option leaf) :=
  let toml get := LeafToml <$> (p_auth p ≫= get) in
  [("bind_address", LeafText <$> p_bind_address p);
   ("block_size_bytes", LeafToml <$> p_block_size_bytes p);
   ("storage_backend", LeafText <$> p_storage_backend p);
   ("storage.local_fs.root", LeafText <$> ((p_storage p ≫= p_local_fs) ≫= p_root));
   ("trusted_proxies", LeafProxies <$> p_trusted_proxies p);
   ("drain_timeout_secs", LeafToml <$> p_drain_timeout_secs p);
   ("vault_oidc.issuer_url", LeafText <$> (p_vault_oidc p ≫= p_issuer_url));
   ("vault_oidc.audience", LeafText <$> (p_vault_oidc p ≫= p_audience));
   ("admin_oidc.issuer_url", LeafText <$> (p_admin_oidc p ≫= p_issuer_url));
   ("admin_oidc.audience", LeafText <$> (p_admin_oidc p ≫= p_audience));
   ("auth.clock_skew_secs", toml p_clock_skew_secs);
   ("auth.dpop_freshness_secs", toml p_dpop_freshness_secs);
   ("auth.jwks_refresh_secs", toml p_jwks_refresh_secs);
   ("auth.discovery_refresh_secs", toml p_discovery_refresh_secs);
   ("auth.on_demand_refresh_min_interval_secs", toml p_on_demand_refresh_min_interval_secs);
   ("auth.jti_replay_window_secs", toml p_jti_replay_window_secs);
   ("auth.max_replay_entries", toml p_max_replay_entries)].

(** The documented rule: upper case, [.] to [_], prefix [APOK_]. *)
Definition env_char (c : ascii) : ascii :=
  if Ascii.eqb c "." then "_"%char
  else if in_range 97 122 c then ascii_of_N (u8 c - 32) else c.

Fixpoint str_map (g : ascii -> ascii) (s : string) : string :=
  match s with "" => "" | String c s => String (g c) (str_map g s) end.

Definition env_name_of (key : string) : string := "APOK_" +:+ str_map env_char key.

(** How an environment value reads as a leaf. *)
Definition env_leaf (key v : string) : leaf :=
  if existsb (String.eqb key) ["bind_address"; "storage_backend"; "storage.local_fs.root";
       "vault_oidc.issuer_url"; "vault_oidc.audience"; "admin_oidc.issuer_url"; "admin_oidc.audience"]
  then LeafText v
  else if String.eqb key "trusted_proxies" then LeafProxies (ProxyCsv v)
  else LeafToml (TomlString v).

Lemma merge_leaf {A B C} (mk : B -> C) (get : A -> option B) (mg : A -> A -> A) e f :
  (forall a b, get (mg a b) = opt_or (get a) (get b)) ->
  mk <$> (merge_with mg e f ≫= get) = opt_or (mk <$> (e ≫= get)) (mk <$> (f ≫= get)).
Proof.
  intros Hg. destruct e as [e|], f as [f|]; simpl; rewrite ?Hg; try done;
    destruct (get e); simpl; try done; by destruct (get f).
Qed.

Lemma collect_oidc_leaf i a :
  (collect_oidc i a ≫= p_issuer_url) = i /\ (collect_oidc i a ≫= p_audience) = a.
Proof. by destruct i, a. Qed.

Lemma collect_auth_leaf env get key :
  In (get, key) [(p_clock_skew_secs, "APOK_AUTH_CLOCK_SKEW_SECS");
     (p_dpop_freshness_secs, "APOK_AUTH_DPOP_FRESHNESS_SECS");
     (p_jwks_refresh_secs, "APOK_AUTH_JWKS_REFRESH_SECS");
     (p_discovery_refresh_secs, "APOK_AUTH_DISCOVERY_REFRESH_SECS");
     (p_on_demand_refresh_min_interval_secs, "APOK_AUTH_ON_DEMAND_REFRESH_MIN_INTERVAL_SECS");
     (p_jti_replay_window_secs, "APOK_AUTH_JTI_REPLAY_WINDOW_SECS");
     (p_max_replay_entries, "APOK_AUTH_MAX_REPLAY_ENTRIES")] ->
  (p_auth (collect_env env) ≫= get) = TomlString <$> env !! key.
Proof.
  intros Hin. unfold collect_env. cbn [p_auth].
  match goal with |- context [existsb ?f ?l] => destruct (existsb f l) eqn:Hany end.
  - simpl in Hin. by destruct_or! Hin; simplify_eq.
  - assert (env !! key = None) as ->; [|done].
    rewrite <- not_true_iff_false, existsb_exists in Hany. apply eq_None_not_Some. intros Hs.
    apply Hany. exists key. split; [|by apply bool_decide_eq_true].
    revert Hin. simpl. naive_solver.
Qed.

(** C35. Precedence: the effective value of every key is the environment's if
    its variable is set, named by the documented rule (upper case, dots to
    underscores, prefix [APOK_]), and the file's otherwise; tables are merged
    key by key, never replaced as a whole. *)
Theorem env_precedence (env : gmap string string) (file : PartialConfig) :
  leaves (env_overrides_file (collect_env env) file)
  = (fun '(key, from_file) =>
       (key, opt_or (env_leaf key <$> env !! env_name_of key) from_file)) <$> leaves file.
Proof.
  unfold leaves, env_overrides_file. cbn [p_bind_address p_block_size_bytes p_storage_backend p_storage
    p_trusted_proxies p_drain_timeout_secs p_vault_oidc p_admin_oidc p_auth].
  rewrite !fmap_cons, fmap_nil. unfold merge_oidc, merge_storage, merge_auth.
  rewrite !merge_leaf by done.
  repeat match goal with
  | |- context [p_auth (collect_env env) ≫= ?get] =>
      erewrite (collect_auth_leaf env get) by (simpl; eauto 10)
  | |- context [env_name_of ?k] =>
      let v := eval vm_compute in (env_name_of k) in change (env_name_of k) with v
  end.
  unfold collect_env. cbn [p_bind_address p_block_size_bytes p_storage_backend p_storage
    p_trusted_proxies p_drain_timeout_secs p_vault_oidc p_admin_oidc].
  rewrite !(proj1 (collect_oidc_leaf _ _)), !(proj2 (collect_oidc_leaf _ _)).
  repeat (apply f_equal2; [apply f_equal; first
    [ case (env !! _); reflexivity
    | case (env !! _); destruct (p_storage file) as [[[[root]|]]|]; reflexivity ]|]).
  reflexivity.
Qed.

(** ** A configuration that is accepted *)

Definition sample_vars : list os_var :=
  (fun '(k, v) => (Some k, Some v)) <$>
  [("APOK_BIND_ADDRESS", "127.0.0.1:8443"); ("APOK_BLOCK_SIZE_BYTES", "4096");
   ("APOK_STORAGE_BACKEND", "local_fs"); ("APOK_STORAGE_LOCAL_FS_ROOT", "/srv/blocks");
   ("APOK_TRUSTED_PROXIES", ""); ("APOK_AUTH_CLOCK_SKEW_SECS", "5");
   ("APOK_VAULT_OIDC_ISSUER_URL", "https://idp/vault"); ("APOK_VAULT_OIDC_AUDIENCE", "vault");
   ("APOK_ADMIN_OIDC_ISSUER_URL", "https://idp/admin"); ("APOK_ADMIN_OIDC_AUDIENCE", "admin")].

Definition sample_partial : PartialConfig :=
  match collect_apok_env sample_vars ∅ with Ok m => collect_env m | Err _ => PartialConfig_default end.

#[local] Existing Instance target64.

Lemma validate_sound_witness :
  config_i64 sample_partial
  /\ exists c, validate sample_partial = Value (Ok c) /\ config_wf c.
Proof.
  split; [vm_compute; repeat split|].
  destruct (validate_sound sample_partial) as (r & Hr & Hwf); [vm_compute; repeat split|].
  destruct r as [c|e]; [exists c; split; [exact Hr|exact Hwf]|].
  assert (accepts (validate sample_partial) = true) as Ha by (vm_compute; reflexivity).
  rewrite Hr in Ha. discriminate Ha.
Defined.
