(* ===== verification/Replay.v ===== *)
(** * Replay: the DPoP [jti] replay store

    [auth/replay.rs].  The store has two locks; each critical section is one
    definition, [try_insert] and [maintenance_tick] are their compositions,
    and the step relation of [ReplaySpec] interleaves the critical sections of
    any number of threads.  Instants are nanoseconds.  The binary heap of
    reversed pairs is a list kept in the pairs' order, so that [peek] is its
    head. *)

From Stdlib Require Import Sorted.
From S2P Require Import Prelude RustStd Crates Tasks ServerConfig.

Record JtiKey := { jk_audience : N; jti_hash : bytes }.

Definition JtiKey_new `{Sha2Crate} (audience_tag : N) (raw_jti : string) : JtiKey :=
  {| jk_audience := audience_tag; jti_hash := sha256 (as_bytes raw_jti) |}.

Global Instance JtiKey_eq_dec : EqDecision JtiKey.
Proof. solve_decision. Defined.
Global Instance JtiKey_countable : Countable JtiKey.
Proof.
  refine (inj_countable' (fun k => (jk_audience k, jti_hash k))
            (fun '(a, h) => {| jk_audience := a; jti_hash := h |}) _).
  by intros [].
Defined.

(** The derived order: fields from first to last. *)
Fixpoint bytes_leb (a b : bytes) : bool :=
  match a, b with
  | [], _ => true
  | _ :: _, [] => false
  | x :: a, y :: b =>
      (Byte.to_N x <? Byte.to_N y) || ((Byte.to_N x =? Byte.to_N y) && bytes_leb a b)
  end.

Definition key_leb (a b : JtiKey) : bool :=
  (jk_audience a <? jk_audience b)
  || ((jk_audience a =? jk_audience b) && bytes_leb (jti_hash a) (jti_hash b)).

Definition heap_leb (a b : N * JtiKey) : bool :=
  (fst a <? fst b) || ((fst a =? fst b) && key_leb (snd a) (snd b)).

(** [BinaryHeap<Reverse<_>>::push]. *)
Fixpoint heap_push (x : N * JtiKey) (q : list (N * JtiKey)) : list (N * JtiKey) :=
  match q with
  | [] => [x]
  | y :: q' => if heap_leb x y then x :: q else y :: heap_push x q'
  end.

Inductive InsertError : Type := Replayed | MemoryPressureErr.

Record JtiReplayStore := {
  entries : gmap JtiKey N;
  expiry_queue : list (N * JtiKey);
  len : N;
  config : AuthConfig;
}.

(** [HashMap::len] and the atomic it is mirrored in. *)
Definition entries_len (m : gmap JtiKey N) : N := N.of_nat (size m).

Definition new (config : AuthConfig) : JtiReplayStore :=
  {| entries := ∅; expiry_queue := []; len := 0; config := config |}.

Definition is_empty_store (s : JtiReplayStore) : bool := len s =? 0.

(** [try_insert] while it holds the lock on [entries]: the replay check comes
    before the capacity check. *)
Definition insert_entry (key : JtiKey) (deadline : N) (s : JtiReplayStore) :
    result InsertError unit * JtiReplayStore :=
  match entries s !! key with
  | Some _ => (Err Replayed, s)
  | None =>
      if max_replay_entries (config s) <=? entries_len (entries s)
      then (Err MemoryPressureErr, s)
      else
        let entries' := <[key := deadline]> (entries s) in
        (Ok (), {| entries := entries'; expiry_queue := expiry_queue s;
                   len := entries_len entries'; config := config s |})
  end.

(** [try_insert] while it holds the lock on the expiry queue. *)
Definition push_expiry (key : JtiKey) (deadline : N) (s : JtiReplayStore) : JtiReplayStore :=
  {| entries := entries s; expiry_queue := heap_push (deadline, key) (expiry_queue s);
     len := len s; config := config s |}.

Definition try_insert (key : JtiKey) (deadline : N) (s : JtiReplayStore) :
    result InsertError unit * JtiReplayStore :=
  match insert_entry key deadline s with
  | (Ok _, s') => (Ok (), push_expiry key deadline s')
  | (Err e, s') => (Err e, s')
  end.

(** The [while let] of [maintenance_tick]: pop until a deadline is ahead. *)
Fixpoint pop_expired (now : N) (q : list (N * JtiKey)) : list JtiKey * list (N * JtiKey) :=
  match q with
  | [] => ([], [])
  | (deadline, key) :: q' =>
      if now <? deadline then ([], q)
      else let '(expired, q'') := pop_expired now q' in (key :: expired, q'')
  end.

Definition drain_queue (now : N) (s : JtiReplayStore) : list JtiKey * JtiReplayStore :=
  let '(expired, q) := pop_expired now (expiry_queue s) in
  (expired, {| entries := entries s; expiry_queue := q; len := len s; config := config s |}).

Definition remove_keys (keys : list JtiKey) (m : gmap JtiKey N) : gmap JtiKey N :=
  foldl (fun m k => delete k m) m keys.

(** [maintenance_tick] while it holds the lock on [entries]. *)
Definition remove_entries (expired : list JtiKey) (s : JtiReplayStore) : JtiReplayStore :=
  match expired with
  | [] => s
  | _ => let entries' := remove_keys expired (entries s) in
         {| entries := entries'; expiry_queue := expiry_queue s;
            len := entries_len entries'; config := config s |}
  end.

Definition maintenance_tick (now : N) (s : JtiReplayStore) : JtiReplayStore :=
  let '(expired, s') := drain_queue now s in remove_entries expired s'.

(** ** The cleanup task: a tick every quarter window, at least one second *)

Definition cleanup_period (c : AuthConfig) : N :=
  duration_from_secs (N.max (jti_replay_window_secs c / 4) 1).

Definition cleanup_task (shutdown : bool) (events : list TaskEvent) (s : JtiReplayStore) :
    task_status * JtiReplayStore :=
  run_task (fun now s => Value (maintenance_tick now s)) shutdown events s.

(** ** Lemmas *)

Lemma heap_push_perm x q : heap_push x q ≡ₚ x :: q.
Proof.
  induction q as [|y q IH]; [done|]. simpl. case_match; [done|]. rewrite IH. constructor.
Qed.

Definition by_deadline (a b : N * JtiKey) : Prop := fst a <= fst b.

Lemma heap_push_sorted x q :
  StronglySorted by_deadline q -> StronglySorted by_deadline (heap_push x q).
Proof.
  induction 1 as [|y q Hs IH Hy]; simpl; [by repeat constructor|].
  destruct (heap_leb x y) eqn:Hle.
  - assert (fst x <= fst y) as Hxy.
    { unfold heap_leb in Hle. apply orb_true_iff in Hle as [?|?]; bool_hyps; lia. }
    constructor; [by constructor|]. constructor; [done|].
    eapply list.Forall_impl; [exact Hy|]. unfold by_deadline. intros z Hz. lia.
  - constructor; [done|]. rewrite heap_push_perm. constructor; [|done].
    unfold heap_leb, by_deadline in *. apply orb_false_iff in Hle as [? _]. bool_hyps. done.
Qed.

Lemma sorted_suffix {A} (R : A -> A -> Prop) l1 l2 :
  StronglySorted R (l1 ++ l2) -> StronglySorted R l2.
Proof. induction l1 as [|x l1 IH]; [done|]. simpl. inversion 1; auto. Qed.

Lemma pop_expired_app now q ks q' :
  pop_expired now q = (ks, q') ->
  exists pre, q = pre ++ q' /\ snd <$> pre = ks /\ Forall (fun x => fst x <= now) pre.
Proof.
  revert ks. induction q as [|[d k] q IH]; simpl; intros ks Hp; [simplify_eq; by exists []|].
  destruct (N.ltb_spec now d).
  - simplify_eq. by exists [].
  - destruct (pop_expired now q) as [ks0 q0]. simplify_eq.
    destruct (IH ks0 eq_refl) as (pre & -> & <- & Hf). exists ((d, k) :: pre).
    split; [done|]. split; [done|]. by constructor.
Qed.

Lemma pop_expired_rest now q ks q' :
  StronglySorted by_deadline q -> pop_expired now q = (ks, q') ->
  Forall (fun x => now < fst x) q'.
Proof.
  revert ks. induction q as [|[d k] q IH]; simpl; intros ks Hs Hp; [by simplify_eq|].
  inversion Hs as [|? ? Hs' Hd]; subst. destruct (N.ltb_spec now d).
  - simplify_eq. constructor; [done|]. eapply list.Forall_impl; [exact Hd|].
    unfold by_deadline. simpl. intros x Hx. lia.
  - destruct (pop_expired now q) as [ks0 q0]. simplify_eq. by eapply IH.
Qed.

Lemma remove_keys_lookup keys m k :
  remove_keys keys m !! k = if decide (k ∈ keys) then None else m !! k.
Proof.
  revert m. induction keys as [|x keys IH]; intros m; [done|]. cbn [remove_keys foldl].
  fold (remove_keys keys (delete x m)). rewrite IH. destruct (decide (k = x)) as [->|Hne].
  - rewrite lookup_delete_eq. repeat case_decide; set_solver.
  - rewrite lookup_delete_ne by done. repeat case_decide; set_solver.
Qed.
