(* ===== verification/ReplaySpec.v ===== *)
(** * ReplaySpec: the replay store under any interleaving

    Any number of requests call [try_insert] while the cleanup task runs
    [maintenance_tick]; the step relation interleaves their critical sections
    in any order while a monotonic clock advances.  The invariant accounts
    for every key of the store by exactly one claim: queued, about to be
    queued, or about to be removed because its deadline has passed. *)

From Stdlib Require Import Sorted.
From S2P Require Import Prelude RustStd Crates Fs Instances ServerConfig Replay.

(** ** Threads and steps *)

Inductive thread : Type :=
  | TInsert (key : JtiKey) (deadline : N)        (** before the first lock *)
  | TPush (key : JtiKey) (deadline : N)          (** between the two locks *)
  | TInserted (key : JtiKey) (r : result InsertError unit)
  | TTick                                        (** before [Instant::now()] *)
  | TTickAt (now : N)                            (** before the queue's lock *)
  | TRemove (expired : list JtiKey)              (** before the entries' lock *)
  | TTicked.

(** An accepted insertion: when, and until when the key is bound. *)
Record accepted := { acc_key : JtiKey; acc_time : N; acc_deadline : N }.

Record world := {
  w_store : JtiReplayStore;
  w_clock : N;
  w_threads : list thread;
  w_log : list accepted;                         (** newest first *)
}.

Definition set_thread (w : world) (i : nat) (t : thread) (s : JtiReplayStore) : world :=
  {| w_store := s; w_clock := w_clock w; w_threads := <[i := t]> (w_threads w); w_log := w_log w |}.

Definition log_accept (w : world) (k : JtiKey) (d : N) : world :=
  {| w_store := w_store w; w_clock := w_clock w; w_threads := w_threads w;
     w_log := {| acc_key := k; acc_time := w_clock w; acc_deadline := d |} :: w_log w |}.

Inductive step : world -> world -> Prop :=
  | step_clock w t : w_clock w <= t ->
      step w {| w_store := w_store w; w_clock := t; w_threads := w_threads w; w_log := w_log w |}
  | step_call w t : (exists k d, t = TInsert k d) \/ t = TTick ->
      step w {| w_store := w_store w; w_clock := w_clock w; w_threads := w_threads w ++ [t];
                w_log := w_log w |}
  | step_insert_ok w i k d s' :
      w_threads w !! i = Some (TInsert k d) -> insert_entry k d (w_store w) = (Ok (), s') ->
      step w (log_accept (set_thread w i (TPush k d) s') k d)
  | step_insert_err w i k d e s' :
      w_threads w !! i = Some (TInsert k d) -> insert_entry k d (w_store w) = (Err e, s') ->
      step w (set_thread w i (TInserted k (Err e)) s')
  | step_push w i k d :
      w_threads w !! i = Some (TPush k d) ->
      step w (set_thread w i (TInserted k (Ok ())) (push_expiry k d (w_store w)))
  | step_now w i :
      w_threads w !! i = Some TTick ->
      step w (set_thread w i (TTickAt (w_clock w)) (w_store w))
  | step_drain w i now ks s' :
      w_threads w !! i = Some (TTickAt now) -> drain_queue now (w_store w) = (ks, s') ->
      step w (set_thread w i (TRemove ks) s')
  | step_remove w i ks :
      w_threads w !! i = Some (TRemove ks) ->
      step w (set_thread w i TTicked (remove_entries ks (w_store w))).

Definition initial (c : AuthConfig) (now : N) : world :=
  {| w_store := new c; w_clock := now; w_threads := []; w_log := [] |}.

(** ** The invariant *)

(** A claim on a key: its deadline while it waits to expire, [None] once it
    is to be removed. *)
Abbreviation claim := (JtiKey * option N)%type.

Definition held (t : thread) : list claim :=
  match t with
  | TPush k d => [(k, Some d)]
  | TRemove ks => (fun k => (k, None)) <$> ks
  | _ => []
  end.

Definition queued (q : list (N * JtiKey)) : list claim := (fun '(d, k) => (k, Some d)) <$> q.

Definition claims (w : world) : list claim :=
  queued (expiry_queue (w_store w)) ++ (w_threads w ≫= held).

Definition claim_ok (m : gmap JtiKey N) (now : N) (c : claim) : Prop :=
  match snd c with
  | Some d => m !! fst c = Some d
  | None => exists d, m !! fst c = Some d /\ d <= now
  end.

Record inv (w : world) : Prop := {
  inv_nodup : NoDup (fst <$> claims w);
  inv_claims : Forall (claim_ok (entries (w_store w)) (w_clock w)) (claims w);
  inv_dom : forall k, is_Some (entries (w_store w) !! k) -> k ∈ fst <$> claims w;
  inv_len : len (w_store w) = entries_len (entries (w_store w));
  inv_max : len (w_store w) <= max_replay_entries (config (w_store w));
  inv_sorted : StronglySorted by_deadline (expiry_queue (w_store w));
  inv_ticks : Forall (fun t => match t with TTickAt n => n <= w_clock w | _ => True end) (w_threads w);
  inv_log : forall a, a ∈ w_log w ->
    entries (w_store w) !! acc_key a = Some (acc_deadline a) \/ acc_deadline a <= w_clock w;
}.

(** Replacing a thread replaces what it holds, up to order. *)
Lemma held_insert ts i t :
  ts !! i = Some t ->
  exists rest, ts ≫= held ≡ₚ held t ++ rest
    /\ forall t', (<[i := t']> ts) ≫= held ≡ₚ held t' ++ rest.
Proof.
  intros Hi. exists ((take i ts ≫= held) ++ (drop (S i) ts ≫= held)). split.
  - rewrite <- (take_drop_middle ts i t Hi) at 1. rewrite bind_app, bind_cons.
    rewrite !app_assoc. f_equiv. apply Permutation_app_comm.
  - intros t'. rewrite insert_take_drop by (by eapply lookup_lt_Some).
    rewrite bind_app, bind_cons. rewrite !app_assoc. f_equiv. apply Permutation_app_comm.
Qed.

Lemma claims_insert w i t :
  w_threads w !! i = Some t ->
  exists rest, claims w ≡ₚ queued (expiry_queue (w_store w)) ++ held t ++ rest
    /\ forall t' s, claims (set_thread w i t' s) ≡ₚ queued (expiry_queue s) ++ held t' ++ rest.
Proof.
  intros Hi. destruct (held_insert _ _ _ Hi) as (rest & H1 & H2). exists rest.
  unfold claims. split; [by rewrite H1|]. intros t' s. simpl. by rewrite H2.
Qed.

(** The parts of the invariant that depend on the claims only up to order. *)
Record claims_inv (cs : list claim) (m : gmap JtiKey N) (now : N) : Prop := {
  ci_nodup : NoDup (fst <$> cs);
  ci_ok : Forall (claim_ok m now) cs;
  ci_dom : forall k, is_Some (m !! k) -> k ∈ fst <$> cs;
}.

Lemma claims_inv_perm cs cs' m now : cs ≡ₚ cs' -> claims_inv cs m now -> claims_inv cs' m now.
Proof.
  intros Hp [H1 H2 H3]. split.
  - by rewrite <- Hp.
  - by rewrite <- Hp.
  - intros k Hk. rewrite <- Hp. auto.
Qed.

Lemma claims_inv_later cs m now now' : now <= now' -> claims_inv cs m now -> claims_inv cs m now'.
Proof.
  intros Hn [H1 H2 H3]. split; [done| |done]. eapply list.Forall_impl; [exact H2|].
  intros [k [d|]]; unfold claim_ok; simpl; [done|]. intros (d & ? & ?). exists d. split; [done|lia].
Qed.

Lemma claims_inv_insert cs m now k d :
  m !! k = None -> claims_inv cs m now -> claims_inv ((k, Some d) :: cs) (<[k := d]> m) now.
Proof.
  intros Hk [H1 H2 H3].
  assert (k ∉ fst <$> cs) as Hfresh.
  { intros Hin. apply list_elem_of_fmap in Hin as ([k' c] & -> & Hc).
    rewrite list.Forall_forall in H2. specialize (H2 _ Hc). unfold claim_ok in H2. simpl in *.
    destruct c; [congruence|]. destruct H2 as (? & ? & _). congruence. }
  split.
  - rewrite fmap_cons. by constructor.
  - constructor; [apply lookup_insert_eq|]. rewrite list.Forall_forall in H2.
    apply list.Forall_forall. intros [k' c] Hc. specialize (H2 _ Hc). unfold claim_ok in *. simpl in *.
    rewrite lookup_insert_ne; [done|]. intros ->. apply Hfresh.
    apply list_elem_of_fmap. by exists (k', c).
  - intros k' Hk'. rewrite fmap_cons. apply elem_of_cons.
    rewrite lookup_insert in Hk'. case_decide; subst; auto.
Qed.

Lemma claims_inv_expire pre cs m now t :
  Forall (fun x => fst x <= t) pre -> t <= now ->
  claims_inv (queued pre ++ cs) m now ->
  claims_inv (((fun k => (k, None)) <$> (snd <$> pre)) ++ cs) m now.
Proof.
  intros Hp Ht [H1 H2 H3].
  assert (fst <$> ((fun k : JtiKey => (k, @None N)) <$> (snd <$> pre)) = fst <$> queued pre) as Hfst.
  { unfold queued. rewrite <- !list_fmap_compose. apply list_fmap_ext. by intros ? [] ?. }
  rewrite fmap_app, <- Hfst, <- fmap_app in H1. split; [done| |].
  - rewrite Forall_app in H2 |- *. destruct H2 as [H2 Hcs]. split; [|done].
    rewrite list.Forall_forall in H2. rewrite list.Forall_forall in Hp. apply list.Forall_forall. intros c Hc.
    apply list_elem_of_fmap in Hc as (k & -> & Hk). apply list_elem_of_fmap in Hk as ([d k'] & -> & Hin).
    exists d. simpl. split.
    + apply (H2 (k', Some d)). unfold queued. apply list_elem_of_fmap. by exists (d, k').
    + specialize (Hp _ Hin). simpl in Hp. lia.
  - intros k Hk. specialize (H3 k Hk). by rewrite fmap_app, Hfst, <- fmap_app.
Qed.

Lemma claims_inv_remove ks cs m now :
  claims_inv (((fun k => (k, None)) <$> ks) ++ cs) m now ->
  claims_inv cs (remove_keys ks m) now.
Proof.
  intros [H1 H2 H3].
  assert (fst <$> ((fun k : JtiKey => (k, @None N)) <$> ks) = ks) as Hfst.
  { rewrite <- list_fmap_compose. rewrite <- (list_fmap_id ks) at 2. by apply list_fmap_ext. }
  rewrite fmap_app, Hfst in H1. apply list.NoDup_app in H1 as (_ & Hdis & H1).
  rewrite Forall_app in H2. destruct H2 as [_ H2].
  split; [done| |].
  - rewrite list.Forall_forall in H2. apply list.Forall_forall. intros [k c] Hc. specialize (H2 _ Hc).
    unfold claim_ok in *. simpl in *. rewrite remove_keys_lookup.
    rewrite decide_False; [done|]. intros Hk. apply (Hdis k Hk).
    apply list_elem_of_fmap. by exists (k, c).
  - intros k Hk. rewrite remove_keys_lookup in Hk. case_decide; [by destruct Hk|].
    specialize (H3 k Hk). rewrite fmap_app, Hfst in H3. by apply elem_of_app in H3 as [?|?].
Qed.

Lemma inv_claims_inv w : inv w -> claims_inv (claims w) (entries (w_store w)) (w_clock w).
Proof. intros []. by split. Qed.

Lemma ticks_insert (P : thread -> Prop) ts i t : Forall P ts -> P t -> Forall P (<[i := t]> ts).
Proof. intros. by apply Forall_insert. Qed.

Lemma inv_initial c now : inv (initial c now).
Proof.
  split; simpl; try (by constructor); try done.
  - intros k Hk. rewrite lookup_empty in Hk. by destruct Hk.
  - lia.
  - intros a Ha. by apply not_elem_of_nil in Ha.
Qed.

(** The invariant after a step that replaces one thread and the store. *)
Lemma inv_set_thread w i t t' s' :
  inv w -> w_threads w !! i = Some t ->
  (forall rest, claims w ≡ₚ queued (expiry_queue (w_store w)) ++ held t ++ rest ->
     claims_inv (queued (expiry_queue s') ++ held t' ++ rest) (entries s') (w_clock w)) ->
  len s' = entries_len (entries s') -> len s' <= max_replay_entries (config s') ->
  StronglySorted by_deadline (expiry_queue s') ->
  match t' with TTickAt n => n <= w_clock w | _ => True end ->
  (forall a, a ∈ w_log w ->
     entries s' !! acc_key a = Some (acc_deadline a) \/ acc_deadline a <= w_clock w) ->
  inv (set_thread w i t' s').
Proof.
  intros Hinv Hi Hc Hl Hm Hs Ht Hlog.
  destruct (claims_insert _ _ _ Hi) as (rest & H1 & H2). specialize (Hc rest H1).
  apply (claims_inv_perm _ (claims (set_thread w i t' s'))) in Hc; [|by rewrite H2].
  destruct Hc. split; simpl; try done. apply Forall_insert; [apply Hinv|done].
Qed.

Lemma insert_entry_Ok k d s s' :
  insert_entry k d s = (Ok (), s') ->
  entries s !! k = None /\ entries_len (entries s) < max_replay_entries (config s)
  /\ entries s' = <[k := d]> (entries s) /\ expiry_queue s' = expiry_queue s
  /\ len s' = entries_len (entries s') /\ config s' = config s.
Proof.
  unfold insert_entry. intros Hs. destruct (entries s !! k) eqn:Hk; [done|].
  destruct (N.leb_spec (max_replay_entries (config s)) (entries_len (entries s))); [done|].
  by simplify_eq/=.
Qed.

Lemma insert_entry_Err k d s e s' :
  insert_entry k d s = (Err e, s') ->
  s' = s /\ match e with
            | Replayed => is_Some (entries s !! k)
            | MemoryPressureErr => entries s !! k = None
                /\ max_replay_entries (config s) <= entries_len (entries s)
            end.
Proof.
  unfold insert_entry. intros Hs. destruct (entries s !! k) eqn:Hk; [by simplify_eq; eauto|].
  destruct (N.leb_spec (max_replay_entries (config s)) (entries_len (entries s))); [|done].
  by simplify_eq.
Qed.

Lemma insert_entry_grows k d s r s' : insert_entry k d s = (r, s') -> entries s ⊆ entries s'.
Proof.
  destruct r as [[]|e]; intros Hs.
  - apply insert_entry_Ok in Hs as (Hk & _ & -> & _). by apply insert_subseteq.
  - by apply insert_entry_Err in Hs as [-> _].
Qed.

Lemma entries_len_insert m (k : JtiKey) (d : N) :
  m !! k = None -> entries_len (<[k := d]> m) = entries_len m + 1.
Proof. intros Hk. unfold entries_len. rewrite map_size_insert_None by done. lia. Qed.

Lemma entries_len_remove ks (m : gmap JtiKey N) : entries_len (remove_keys ks m) <= entries_len m.
Proof.
  unfold entries_len. revert m. induction ks as [|k ks IH]; intros m; [done|]. cbn [remove_keys foldl].
  fold (remove_keys ks (delete k m)). specialize (IH (delete k m)).
  destruct (m !! k) eqn:Hk.
  - rewrite map_size_delete_Some in IH by eauto. lia.
  - rewrite map_size_delete_None in IH by done. lia.
Qed.

Lemma remove_entries_spec ks s :
  entries (remove_entries ks s) = remove_keys ks (entries s)
  /\ expiry_queue (remove_entries ks s) = expiry_queue s
  /\ config (remove_entries ks s) = config s
  /\ (len s = entries_len (entries s) ->
      len (remove_entries ks s) = entries_len (entries (remove_entries ks s))).
Proof. by destruct ks. Qed.

Lemma drain_queue_spec now s ks s' :
  drain_queue now s = (ks, s') ->
  entries s' = entries s /\ len s' = len s /\ config s' = config s
  /\ exists pre, expiry_queue s = pre ++ expiry_queue s' /\ snd <$> pre = ks
       /\ Forall (fun x => fst x <= now) pre.
Proof.
  unfold drain_queue. destruct (pop_expired now (expiry_queue s)) as [ks0 q0] eqn:Hp.
  intros Hd. simplify_eq/=. split_and!; try done. by apply pop_expired_app.
Qed.

Lemma inv_insert w i k d s' :
  inv w -> w_threads w !! i = Some (TInsert k d) -> insert_entry k d (w_store w) = (Ok (), s') ->
  inv (log_accept (set_thread w i (TPush k d) s') k d).
Proof.
  intros Hinv Hi Hs. pose proof (inv_claims_inv w Hinv) as Hci.
  apply insert_entry_Ok in Hs as (Hk & Hlt & He & Hq & Hl & Hcfg).
  assert (inv (set_thread w i (TPush k d) s')) as [].
  { eapply inv_set_thread; try done.
    - intros rest Hp. rewrite He, Hq. apply (claims_inv_insert _ _ _ k d Hk) in Hci.
      eapply claims_inv_perm; [|exact Hci]. rewrite Hp. apply Permutation_middle.
    - rewrite Hl, He, Hcfg, entries_len_insert by done. lia.
    - rewrite Hq. apply Hinv.
    - intros a Ha. rewrite He. destruct (inv_log w Hinv a Ha) as [Hlk|]; [|by right].
      left. rewrite lookup_insert_ne; [done|congruence]. }
  split; simpl; try done. intros a [->|Ha]%elem_of_cons; [|by auto].
  left. simpl. rewrite He. apply lookup_insert_eq.
Qed.

Lemma inv_drain w i now ks s' :
  inv w -> w_threads w !! i = Some (TTickAt now) -> drain_queue now (w_store w) = (ks, s') ->
  inv (set_thread w i (TRemove ks) s').
Proof.
  intros Hinv Hi Hs. pose proof (inv_claims_inv w Hinv) as Hci.
  apply drain_queue_spec in Hs as (He & Hl & Hcfg & pre & Hq & <- & Hf).
  eapply inv_set_thread; try done; rewrite ?He, ?Hl, ?Hcfg; try apply Hinv.
  - intros rest Hp. rewrite Hq in Hp. unfold queued in Hp. rewrite fmap_app in Hp.
    eapply claims_inv_perm; [|eapply (claims_inv_expire pre (queued (expiry_queue s') ++ rest) _ (w_clock w) now); [exact Hf| |]].
    + simpl. rewrite !app_assoc. f_equiv. apply Permutation_app_comm.
    + pose proof (inv_ticks w Hinv) as Ht. rewrite list.Forall_forall in Ht.
      apply (Ht (TTickAt now)). by eapply list_elem_of_lookup_2.
    + eapply claims_inv_perm; [|exact Hci]. rewrite Hp. simpl. by rewrite <- app_assoc.
  - pose proof (inv_sorted w Hinv) as Hs. rewrite Hq in Hs. by eapply sorted_suffix.
Qed.

Lemma inv_remove w i ks :
  inv w -> w_threads w !! i = Some (TRemove ks) ->
  inv (set_thread w i TTicked (remove_entries ks (w_store w))).
Proof.
  intros Hinv Hi. pose proof (inv_claims_inv w Hinv) as Hci.
  destruct (remove_entries_spec ks (w_store w)) as (He & Hq & Hcfg & Hl).
  eapply inv_set_thread; try done; rewrite ?Hq, ?Hcfg; try apply Hinv.
  - intros rest Hp. rewrite He. simpl. apply (claims_inv_remove ks).
    eapply claims_inv_perm; [|exact Hci]. rewrite Hp. simpl.
    rewrite !app_assoc. f_equiv. apply Permutation_app_comm.
  - apply Hl, Hinv.
  - rewrite Hl by apply Hinv. rewrite He.
    pose proof (entries_len_remove ks (entries (w_store w))).
    pose proof (inv_max w Hinv). rewrite (inv_len w Hinv) in *. lia.
  - intros a Ha. rewrite He, remove_keys_lookup.
    destruct (inv_log w Hinv a Ha) as [Hlk|]; [|by right]. case_decide as Hk; [|by left]. right.
    destruct (claims_insert _ _ _ Hi) as (rest & Hp & _).
    apply (claims_inv_perm _ _ _ _ Hp) in Hci as [_ Hok _].
    rewrite list.Forall_forall in Hok. destruct (Hok (acc_key a, None)) as (d & Hd & Hle).
    { simpl. rewrite !elem_of_app. right. left. apply list_elem_of_fmap. eauto. }
    simpl in Hd. assert (d = acc_deadline a) as -> by congruence. done.
Qed.

Lemma replay_inv_step w w' : inv w -> step w w' -> inv w'.
Proof.
  intros Hinv Hstep. pose proof (inv_claims_inv w Hinv) as Hci.
  destruct Hstep as [w t Ht|w t Ht|w i k d s' Hi Hs|w i k d e s' Hi Hs|w i k d Hi|w i Hi
    |w i now ks s' Hi Hs|w i ks Hi].
  - apply (claims_inv_later _ _ _ _ Ht) in Hci as [? ? ?].
    destruct Hinv. split; simpl; try done.
    + eapply list.Forall_impl; [eassumption|]. intros [] ?; try done. lia.
    + intros a Ha. destruct (inv_log0 a Ha); [by left|right; lia].
  - destruct Hinv. assert (held t = []) as Hh by (by destruct Ht as [(? & ? & ->)| ->]).
    assert (claims {| w_store := w_store w; w_clock := w_clock w;
      w_threads := w_threads w ++ [t]; w_log := w_log w |} = claims w) as Hc.
    { unfold claims. simpl. by rewrite bind_app, bind_singleton, Hh, app_nil_r. }
    split; rewrite ?Hc; simpl; try done. apply Forall_app. split; [done|].
    by destruct Ht as [(? & ? & ->)| ->]; repeat constructor.
  - by apply inv_insert.
  - apply insert_entry_Err in Hs as [-> _]. destruct Hinv as [].
    eapply inv_set_thread; try done. intros rest Hp. by eapply claims_inv_perm; [|exact Hci].
  - eapply inv_set_thread; try done; simpl; try apply Hinv.
    + intros rest Hp. eapply claims_inv_perm; [|exact Hci]. rewrite Hp. unfold queued.
      rewrite heap_push_perm. symmetry. apply Permutation_middle.
    + apply heap_push_sorted, Hinv.
  - eapply inv_set_thread; try done; simpl; try apply Hinv.
    intros rest Hp. by eapply claims_inv_perm; [|exact Hci].
  - by eapply inv_drain.
  - by apply inv_remove.
Qed.

Lemma reachable_inv c now w : rtc step (initial c now) w -> inv w.
Proof.
  refine (rtc_ind_r inv _ (inv_initial c now) _ w). intros y z _ Hs Hy. by eapply replay_inv_step.
Qed.

(** ** Log order *)

(** Of two acceptances of one key, the later came after the earlier's deadline. *)
Fixpoint log_ok (l : list accepted) : Prop :=
  match l with
  | [] => True
  | a :: l => (forall b, b ∈ l -> acc_key b = acc_key a -> acc_deadline b <= acc_time a) /\ log_ok l
  end.

Lemma log_ok_step w w' : inv w -> log_ok (w_log w) -> step w w' -> log_ok (w_log w').
Proof.
  intros Hinv Hl Hs. destruct Hs as [| |w i k d s' Hi Hs| | | | |]; try done.
  split; [|done]. intros b Hb Hk. simpl in *. apply insert_entry_Ok in Hs as (Hn & _).
  destruct (inv_log w Hinv b Hb) as [Hlk|]; [congruence|done].
Qed.

Lemma reachable_log c now w : rtc step (initial c now) w -> log_ok (w_log w).
Proof.
  intros Hr. cut (inv w /\ log_ok (w_log w)); [tauto|]. revert w Hr.
  refine (rtc_ind_r _ _ _ _); [split; [apply inv_initial|done]|].
  intros y z _ Hs [Hy Hl]. split; [by eapply replay_inv_step|by eapply log_ok_step].
Qed.

(** C12. A proof identifier is accepted at most once per window: whatever the
    interleaving of requests and cleanup, if a key is accepted twice then the
    second acceptance happened no earlier than the deadline given at the
    first.  In particular no entry is ever evicted within its window. *)
Theorem accepted_once_per_window (c : AuthConfig) (start : N) (w : world)
    (newer older : list accepted) (a b : accepted) :
  rtc step (initial c start) w -> w_log w = newer ++ a :: older -> b ∈ older ->
  acc_key b = acc_key a -> acc_deadline b <= acc_time a.
Proof.
  intros Hr Hlog Hb Hk. apply reachable_log in Hr. rewrite Hlog in Hr. clear Hlog.
  induction newer as [|x newer IH]; simpl in Hr; [by apply (proj1 Hr)|apply IH, Hr].
Qed.

(** C27. The store's bookkeeping is exact at every moment of every
    interleaving: the lock-free length is the number of entries and never
    exceeds the configured budget, every acceptance still within its window
    has its entry, and whenever no thread is between its two critical
    sections the expiry queue holds exactly the entries with their deadlines,
    so that nothing can be leaked. *)
Theorem store_consistent (c : AuthConfig) (start : N) (w : world) :
  rtc step (initial c start) w ->
  len (w_store w) = entries_len (entries (w_store w))
  /\ len (w_store w) <= max_replay_entries (config (w_store w))
  /\ (forall a, a ∈ w_log w -> w_clock w < acc_deadline a ->
        entries (w_store w) !! acc_key a = Some (acc_deadline a))
  /\ (Forall (fun t => held t = []) (w_threads w) ->
        forall k d, entries (w_store w) !! k = Some d <-> (d, k) ∈ expiry_queue (w_store w)).
Proof.
  intros Hr. apply reachable_inv in Hr as Hinv. split_and!; try apply Hinv.
  - intros a Ha Hlt. destruct (inv_log w Hinv a Ha); [done|lia].
  - intros Hidle.
    assert (w_threads w ≫= held = []) as Hh.
    { clear -Hidle. induction Hidle as [|t ts Ht _ IH]; [done|]. by rewrite bind_cons, Ht, IH. }
    pose proof (inv_dom w Hinv) as Hdom. pose proof (inv_claims w Hinv) as Hok.
    unfold claims in *. rewrite Hh, app_nil_r in *. rewrite list.Forall_forall in Hok.
    assert (forall k d, (d, k) ∈ expiry_queue (w_store w) -> entries (w_store w) !! k = Some d) as Hq.
    { intros k d Hin. apply (Hok (k, Some d)). unfold queued. apply list_elem_of_fmap.
      by exists (d, k). }
    intros k d. split; [|by auto]. intros Hk. specialize (Hdom k ltac:(by eauto)).
    unfold queued in Hdom. rewrite <- list_fmap_compose in Hdom.
    apply list_elem_of_fmap in Hdom as ([d' k'] & Heq & Hin). simpl in Heq. subst k'.
    assert (d' = d) as -> by (apply Hq in Hin; congruence). done.
Qed.

(** ** The operations on their own *)

(** [try_insert] answers exactly as documented: a key already present is
    [Replayed] even at capacity; a new key at capacity is [MemoryPressure] and
    evicts nothing; otherwise the entry is added with its deadline, queued for
    expiry and counted, and nothing else changes. *)
Theorem try_insert_spec (k : JtiKey) (d : N) (s : JtiReplayStore) :
  match try_insert k d s with
  | (Err Replayed, s') => is_Some (entries s !! k) /\ s' = s
  | (Err MemoryPressureErr, s') =>
      entries s !! k = None /\ max_replay_entries (config s) <= entries_len (entries s) /\ s' = s
  | (Ok _, s') =>
      entries s !! k = None /\ entries_len (entries s) < max_replay_entries (config s)
      /\ entries s' = <[k := d]> (entries s) /\ expiry_queue s' ≡ₚ (d, k) :: expiry_queue s
      /\ len s' = entries_len (entries s) + 1
  end.
Proof.
  unfold try_insert. destruct (insert_entry k d s) as [[[]|e] s'] eqn:Hs.
  - apply insert_entry_Ok in Hs as (Hk & Hlt & He & Hq & Hl & _). simpl.
    rewrite heap_push_perm, Hq, Hl, He, entries_len_insert by done. done.
  - apply insert_entry_Err in Hs as [-> He]. destruct e; [done|]. by destruct He.
Qed.

(** Between calls, when the store is idle. *)
Record store_ok (s : JtiReplayStore) : Prop := {
  ok_queue : forall k d, entries s !! k = Some d <-> (d, k) ∈ expiry_queue s;
  ok_sorted : StronglySorted by_deadline (expiry_queue s);
  ok_len : len s = entries_len (entries s);
}.

(** C36. A maintenance tick on an idle store removes exactly the entries whose
    deadline has been reached, keeps every other entry with its deadline,
    and leaves queue, map and length in agreement. *)
Theorem maintenance_tick_spec (now : N) (s : JtiReplayStore) :
  store_ok s ->
  store_ok (maintenance_tick now s)
  /\ forall k, entries (maintenance_tick now s) !! k
       = match entries s !! k with
         | Some d => if now <? d then Some d else None
         | None => None
         end.
Proof.
  intros [Hq Hs Hl]. unfold maintenance_tick, drain_queue.
  destruct (pop_expired now (expiry_queue s)) as [ks q'] eqn:Hp.
  pose proof (pop_expired_rest _ _ _ _ Hs Hp) as Hrest.
  apply pop_expired_app in Hp as (pre & Hpre & <- & Hf).
  set (s1 := {| entries := entries s; expiry_queue := q'; len := len s; config := config s |}).
  destruct (remove_entries_spec (snd <$> pre) s1) as (He & Hqe & _ & Hle).
  assert (forall k d, entries s !! k = Some d -> k ∈ snd <$> pre <-> d <= now) as Hexp.
  { intros k d Hk. split.
    - intros Hin. apply list_elem_of_fmap in Hin as ([d' k'] & -> & Hin). simpl in *.
      assert (entries s !! k' = Some d') as Hk'.
      { apply Hq. rewrite Hpre. by apply elem_of_app; left. }
      assert (d' = d) as -> by congruence. rewrite list.Forall_forall in Hf. by apply (Hf _ Hin).
    - intros Hd. apply Hq in Hk. rewrite Hpre in Hk. apply elem_of_app in Hk as [Hk|Hk].
      + apply list_elem_of_fmap. by exists (d, k).
      + rewrite list.Forall_forall in Hrest. specialize (Hrest _ Hk). simpl in Hrest. lia. }
  assert (forall k, entries (remove_entries (snd <$> pre) s1) !! k
    = match entries s !! k with Some d => if now <? d then Some d else None | None => None end) as Hlk.
  { intros k. rewrite He, remove_keys_lookup. simpl. destruct (entries s !! k) as [d|] eqn:Hk.
    - specialize (Hexp _ _ Hk). destruct (N.ltb_spec now d); case_decide; try done; exfalso;
        [assert (d <= now) by tauto; lia|tauto].
    - by case_decide. }
  split; [|exact Hlk]. split.
  - intros k d. rewrite Hlk, Hqe. simpl. split.
    + destruct (entries s !! k) as [d'|] eqn:Hk; [|done]. destruct (N.ltb_spec now d'); [|done].
      intros [= ->]. apply Hq in Hk as Hin. rewrite Hpre in Hin.
      apply elem_of_app in Hin as [Hin|]; [|done]. exfalso.
      rewrite list.Forall_forall in Hf. specialize (Hf _ Hin). simpl in Hf. lia.
    + intros Hin. assert (entries s !! k = Some d) as ->.
      { apply Hq. rewrite Hpre. apply elem_of_app. by right. }
      rewrite list.Forall_forall in Hrest. specialize (Hrest _ Hin). simpl in Hrest.
      by destruct (N.ltb_spec now d); [|lia].
  - rewrite Hqe. simpl. rewrite Hpre in Hs. by eapply sorted_suffix.
  - by apply Hle.
Qed.

(** ** An executable scheduler, and the witnesses *)

Inductive action : Type :=
  | AClock (t : N) | AInsert (k : JtiKey) (d : N) | ATick | ARun (i : nat).

Definition run_thread (w : world) (i : nat) : world :=
  match w_threads w !! i with
  | Some (TInsert k d) =>
      match insert_entry k d (w_store w) with
      | (Ok _, s') => log_accept (set_thread w i (TPush k d) s') k d
      | (Err e, s') => set_thread w i (TInserted k (Err e)) s'
      end
  | Some (TPush k d) => set_thread w i (TInserted k (Ok ())) (push_expiry k d (w_store w))
  | Some TTick => set_thread w i (TTickAt (w_clock w)) (w_store w)
  | Some (TTickAt now) => let '(ks, s') := drain_queue now (w_store w) in set_thread w i (TRemove ks) s'
  | Some (TRemove ks) => set_thread w i TTicked (remove_entries ks (w_store w))
  | _ => w
  end.

Definition call (w : world) (t : thread) : world :=
  {| w_store := w_store w; w_clock := w_clock w; w_threads := w_threads w ++ [t]; w_log := w_log w |}.

Definition act (w : world) (a : action) : world :=
  match a with
  | AClock t => {| w_store := w_store w; w_clock := N.max t (w_clock w);
                   w_threads := w_threads w; w_log := w_log w |}
  | AInsert k d => call w (TInsert k d)
  | ATick => call w TTick
  | ARun i => run_thread w i
  end.

Lemma act_steps w a : rtc step w (act w a).
Proof.
  destruct a as [t|k d| |i]; simpl.
  - apply rtc_once, step_clock. lia.
  - apply rtc_once, step_call. eauto.
  - apply rtc_once, step_call. eauto.
  - unfold run_thread. destruct (w_threads w !! i) as [[]|] eqn:Hi; try reflexivity.
    + destruct (insert_entry _ _ _) as [[[]|e] s'] eqn:Hs; apply rtc_once;
        [by eapply step_insert_ok|by eapply step_insert_err].
    + by apply rtc_once, step_push.
    + by apply rtc_once, step_now.
    + destruct (drain_queue _ _) eqn:Hs. apply rtc_once. by eapply step_drain.
    + by apply rtc_once, step_remove.
Qed.

Lemma acts_steps (l : list action) w : rtc step w (foldl act w l).
Proof.
  revert w. induction l as [|a l IH]; intros w; [reflexivity|]. simpl.
  etrans; [apply act_steps|apply IH].
Qed.

(** One key, accepted at 0 until 5, cleaned up at 10 and accepted again; a
    request in between is refused. *)
Definition sample_key : JtiKey := JtiKey_new 1 "proof-1".
Definition sample_acts : list action :=
  [AInsert sample_key 5; AInsert sample_key 6; ARun 0; ARun 1; ARun 0; ATick; AClock 10;
   ARun 2; ARun 2; ARun 2; AInsert sample_key 15; ARun 3; ARun 3]%nat.
Definition sample_world : world := foldl act (initial AuthConfig_default 0) sample_acts.

Lemma sample_world_steps : rtc step (initial AuthConfig_default 0) sample_world.
Proof. apply acts_steps. Qed.

Lemma accepted_once_per_window_witness :
  exists a b, w_log sample_world = [a; b] /\ acc_key b = acc_key a /\ acc_deadline b <= acc_time a
    /\ w_threads sample_world !! 1%nat = Some (TInserted sample_key (Err Replayed)).
Proof.
  eexists _, _. split; [vm_compute; reflexivity|]. split; [reflexivity|]. split; [|vm_compute; reflexivity].
  eapply (accepted_once_per_window AuthConfig_default 0 sample_world []).
  - exact sample_world_steps.
  - vm_compute. reflexivity.
  - apply list_elem_of_here.
  - reflexivity.
Defined.

Lemma store_consistent_witness :
  len (w_store sample_world) = 1
  /\ entries (w_store sample_world) !! sample_key = Some 15.
Proof.
  destruct (store_consistent AuthConfig_default 0 sample_world sample_world_steps) as (_ & _ & _ & Hq).
  split; [vm_compute; reflexivity|]. apply Hq.
  - apply list.Forall_forall. intros t Ht. revert Ht. vm_compute. intros Ht.
    repeat (apply elem_of_cons in Ht as [->|Ht]; [reflexivity|]). by apply not_elem_of_nil in Ht.
  - vm_compute. apply list_elem_of_here.
Defined.

Definition sample_store : JtiReplayStore :=
  snd (try_insert (JtiKey_new 1 "b") 20 (snd (try_insert sample_key 5 (new AuthConfig_default)))).

Lemma new_ok c : store_ok (new c).
Proof.
  split; simpl; try by constructor. intros k d. rewrite lookup_empty. split; [done|].
  by intros ?%not_elem_of_nil.
Qed.

Lemma try_insert_ok k d s : store_ok s -> store_ok (snd (try_insert k d s)).
Proof.
  intros [Hq Hs Hl]. unfold try_insert. destruct (insert_entry k d s) as [[[]|e] s'] eqn:Hi.
  - apply insert_entry_Ok in Hi as (Hk & _ & He & Hqe & Hle & _). split; simpl.
    + intros k' d'. rewrite Hqe, heap_push_perm, elem_of_cons, He, <- Hq, lookup_insert.
      case_decide; naive_solver congruence.
    + rewrite Hqe. by apply heap_push_sorted.
    + done.
  - by apply insert_entry_Err in Hi as [-> _].
Qed.

Lemma sample_store_ok : store_ok sample_store.
Proof. apply try_insert_ok, try_insert_ok, new_ok. Qed.

Lemma maintenance_tick_spec_witness :
  store_ok (maintenance_tick 5 sample_store)
  /\ entries (maintenance_tick 5 sample_store) !! sample_key = None
  /\ entries (maintenance_tick 5 sample_store) !! JtiKey_new 1 "b" = Some 20.
Proof.
  destruct (maintenance_tick_spec 5 sample_store sample_store_ok) as [Hok Hlk].
  split; [exact Hok|]. split; rewrite Hlk; vm_compute; reflexivity.
Defined.
