(* ===== verification/Logging.v ===== *)
(** * Logging: the structured events and their levels

    [logging/events.rs], [logging/sensitive.rs] and [cli/mod.rs]'s log level.
    An emitted event is a value with exactly the fields the emitter writes;
    functions of the model that log return the list of events in order.  The
    events the auth modules emit directly are listed here as well. *)

From S2P Require Import Prelude RustStd.

Inductive Level : Type := TRACE | DEBUG | INFO | WARN | ERROR.

(** [cli::LogLevel] and its map to [tracing]'s levels. *)
Inductive LogLevel : Type := LTrace | LDebug | LInfo | LWarn | LError.

Definition as_tracing_level (l : LogLevel) : Level :=
  match l with
  | LTrace => TRACE | LDebug => DEBUG | LInfo => INFO | LWarn => WARN | LError => ERROR
  end.

Definition level_rank (l : Level) : N :=
  match l with ERROR => 0 | WARN => 1 | INFO => 2 | DEBUG => 3 | TRACE => 4 end.

(** [with_max_level(max)]: an event is written when its level is no more
    verbose than the maximum. *)
Definition level_enabled (max l : Level) : bool := level_rank l <=? level_rank max.

Inductive Event : Type :=
  | ServerStarted (bound_addr : SocketAddr)
  | ServerShutdownInitiated (signal : string) (drain_timeout_secs : N)
  | ServerShutdownCompleted (drained_cleanly : bool)
  | RequestRejected (method path : string) (effective_addr : IpAddr)
  | StorageStartupReady (root_path : string)
  | StorageStartupFailed (root_path step cause : string)
  | BlockPutOk (block_id subject : string) (address : IpAddr) (size_bytes : N)
  | BlockPutBackendFailed (block_id subject : string) (address : IpAddr) (cause : string)
  | BlockGetHit (block_id subject : string) (address : IpAddr)
  | BlockGetMiss (block_id subject : string) (address : IpAddr)
  | BlockGetBackendFailed (block_id subject : string) (address : IpAddr) (cause : string)
  | BlockDeleteOk (block_id subject : string) (address : IpAddr)
  | BlockDeleteBackendFailed (block_id subject : string) (address : IpAddr) (cause : string)
  | AuthFailureEvent (category audience : string) (client : IpAddr)
  | CrossReachFailed (audience : string)
  | OverlapRejected (audience : string)
  | JwksScheduledRefreshFailed (audience : string)
  | JwksOnDemandRefreshFailed (audience : string)
  | DiscoveryRefreshFailed (audience : string).

Definition event_name (e : Event) : string :=
  match e with
  | ServerStarted _ => "server.started"
  | ServerShutdownInitiated _ _ => "server.shutdown.initiated"
  | ServerShutdownCompleted _ => "server.shutdown.completed"
  | RequestRejected _ _ _ => "request.rejected"
  | StorageStartupReady _ => "storage.startup.ready"
  | StorageStartupFailed _ _ _ => "storage.startup.failed"
  | BlockPutOk _ _ _ _ => "storage.put.ok"
  | BlockPutBackendFailed _ _ _ _ => "storage.put.backend_failed"
  | BlockGetHit _ _ _ => "storage.get.hit"
  | BlockGetMiss _ _ _ => "storage.get.miss"
  | BlockGetBackendFailed _ _ _ _ => "storage.get.backend_failed"
  | BlockDeleteOk _ _ _ => "storage.delete.ok"
  | BlockDeleteBackendFailed _ _ _ _ => "storage.delete.backend_failed"
  | AuthFailureEvent _ _ _ => "auth.failure"
  | CrossReachFailed _ => "context.refresh.cross_reach_failed"
  | OverlapRejected _ => "context.refresh.overlap_rejected"
  | JwksScheduledRefreshFailed _ => "jwks.scheduled_refresh_failed"
  | JwksOnDemandRefreshFailed _ => "jwks.on_demand_refresh_failed"
  | DiscoveryRefreshFailed _ => "discovery.scheduled_refresh_failed"
  end.

Definition event_level (e : Event) : Level :=
  match e with
  | ServerStarted _ | ServerShutdownInitiated _ _ | ServerShutdownCompleted _ => INFO
  | RequestRejected _ _ _ | AuthFailureEvent _ _ _ => DEBUG
  | StorageStartupReady _ => INFO
  | StorageStartupFailed _ _ _ => ERROR
  | BlockPutOk _ _ _ _ | BlockGetHit _ _ _ | BlockGetMiss _ _ _ | BlockDeleteOk _ _ _ => INFO
  | BlockPutBackendFailed _ _ _ _ | BlockGetBackendFailed _ _ _ _
  | BlockDeleteBackendFailed _ _ _ _ => WARN
  | CrossReachFailed _ | OverlapRejected _ => ERROR
  | JwksScheduledRefreshFailed _ | JwksOnDemandRefreshFailed _ | DiscoveryRefreshFailed _ => WARN
  end.

(** The sentinel logged for an identifier that failed to parse. *)
Definition BLOCK_ID_MALFORMED : string := "<malformed>".

(** The text fields of an event, as written. *)
Definition event_texts (e : Event) : list string :=
  match e with
  | ServerStarted _ | ServerShutdownCompleted _ => []
  | ServerShutdownInitiated s _ => [s]
  | RequestRejected m p _ => [m; p]
  | StorageStartupReady r => [r]
  | StorageStartupFailed r s c => [r; s; c]
  | BlockPutOk i s _ _ | BlockGetHit i s _ | BlockGetMiss i s _ | BlockDeleteOk i s _ => [i; s]
  | BlockPutBackendFailed i s _ c | BlockGetBackendFailed i s _ c
  | BlockDeleteBackendFailed i s _ c => [i; s; c]
  | AuthFailureEvent c a _ => [c; a]
  | CrossReachFailed a | OverlapRejected a | JwksScheduledRefreshFailed a
  | JwksOnDemandRefreshFailed a | DiscoveryRefreshFailed a => [a]
  end.

(** [Sensitive<T>]: every formatting path yields the marker. *)
Record Sensitive (T : Type) := Sensitive_new { expose_secret : T }.
Definition REDACTED_MARKER : string := "<redacted>".
Definition Sensitive_debug {T} (s : Sensitive T) : string := REDACTED_MARKER.
Definition Sensitive_display {T} (s : Sensitive T) : string := REDACTED_MARKER.
