(* ===== verification/Async.v ===== *)
(** * Async: async functions as programs of atomic steps

    An [async fn] (or any function that several tasks run at once) is a
    program: a tree of atomic steps on the shared state, each of which may read
    the environment of the moment (clocks, network) and may panic.  [block_on]
    runs one program while other tasks change the state between its steps;
    [pool_step] interleaves any number of programs explicitly. *)

From S2P Require Import Prelude.

Inductive async (E S A : Type) : Type :=
  | Done (a : A)
  | Atomic {R : Type} (act : E -> S -> outcome (R * S)) (k : R -> async E S A).
Arguments Done {E S A} a.
Arguments Atomic {E S A R} act k.

Fixpoint await {E S A B} (p : async E S A) (k : A -> async E S B) : async E S B :=
  match p with
  | Done a => k a
  | Atomic act k' => Atomic act (fun r => await (k' r) k)
  end.

(** [x?] after an await: continue with the value or return the error. *)
Definition await_try {E S F A B} (p : async E S (result F A)) (k : A -> async E S (result F B)) :
    async E S (result F B) :=
  await p (fun r => match r with Ok a => k a | Err e => Done (Err e) end).

Notation "'let*' x := p 'in' k" := (await p (fun x => k))
  (at level 10, x name, p at level 100, k at level 200) : rust_scope.
Notation "'let*?' x := p 'in' k" := (await_try p (fun x => k))
  (at level 10, x name, p at level 100, k at level 200) : rust_scope.

(** [if c { return Err(e) }] in an async function. *)
Notation "'bail*' e 'when' c ;; k" := (await_try (Done (bail_if c e)) (fun _ : unit => k))
  (at level 10, e at level 99, c at level 99, k at level 200) : rust_scope.

(** One atomic step as a program. *)
Definition atomic {E S R} (act : E -> S -> outcome (R * S)) : async E S R := Atomic act Done.

(** What happens at each of a program's steps: the environment it sees, and
    what other tasks do to the state just before it. *)
Record moment (E S : Type) := { at_env : E; others : S -> S }.
Arguments at_env {E S} m.
Arguments others {E S} m.
Arguments Build_moment {E S} at_env others.
Abbreviation schedule E S := (nat -> moment E S).

Definition later {E S} (o : schedule E S) : schedule E S := fun n => o (Datatypes.S n).

Fixpoint block_on {E S A} (p : async E S A) (o : schedule E S) (s : S) :
    outcome (A * S * schedule E S) :=
  match p with
  | Done a => Value (a, s, o)
  | Atomic act k =>
      match act (at_env (o 0%nat)) (others (o 0%nat) s) with
      | Value (r, s') => block_on (k r) (later o) s'
      | Panic => Panic
      end
  end.

(** A schedule in which nothing else runs. *)
Definition alone {E S} (e : E) : schedule E S := fun _ => {| at_env := e; others := id |}.

(** The program's result and final state. *)
Definition returns {E S A} (p : async E S A) (o : schedule E S) (s : S) (a : A) (s' : S) : Prop :=
  exists o', block_on p o s = Value (a, s', o').

Section lemmas.
Context {E S : Type}.

Lemma block_on_await {A B} (p : async E S A) (k : A -> async E S B) o s :
  block_on (await p k) o s
  = match block_on p o s with
    | Value (a, s', o') => block_on (k a) o' s'
    | Panic => Panic
    end.
Proof.
  revert o s. induction p as [a|R act k' IH]; intros o s; [done|]. simpl.
  destruct (act _ _) as [[r s']|]; [apply IH|done].
Qed.

Lemma block_on_await_inv {A B} (p : async E S A) (k : A -> async E S B) o s b s' o' :
  block_on (await p k) o s = Value (b, s', o') <->
  exists a s1 o1, block_on p o s = Value (a, s1, o1) /\ block_on (k a) o1 s1 = Value (b, s', o').
Proof.
  rewrite block_on_await. destruct (block_on p o s) as [[[a s1] o1]|]; naive_solver.
Qed.

Lemma block_on_try_inv {F A B} (p : async E S (result F A)) (k : A -> async E S (result F B)) o s b s' o' :
  block_on (await_try p k) o s = Value (Ok b, s', o') <->
  exists a s1 o1, block_on p o s = Value (Ok a, s1, o1) /\ block_on (k a) o1 s1 = Value (Ok b, s', o').
Proof.
  unfold await_try. rewrite block_on_await_inv. split.
  - intros ([a|e] & s1 & o1 & H1 & H2); [by eauto 6|done].
  - intros (a & s1 & o1 & H1 & H2). eauto 6.
Qed.

Lemma block_on_atomic {R} (act : E -> S -> outcome (R * S)) o s r s' o' :
  block_on (atomic act) o s = Value (r, s', o') <->
  act (at_env (o 0%nat)) (others (o 0%nat) s) = Value (r, s') /\ o' = later o.
Proof. simpl. destruct (act _ _) as [[r1 s1]|]; naive_solver. Qed.

Lemma block_on_alone {A} (p : async E S A) e s a s' o' :
  block_on p (alone e) s = Value (a, s', o') -> o' = alone e.
Proof.
  revert s. induction p as [b|R act k IH]; intros s; simpl; [by intros [= _ _ <-]|].
  unfold id. destruct (act e s) as [[r s1]|]; [|done]. apply IH.
Qed.

(** The steps of a run: the environment each one saw, the state it started
    from and the state it left. *)
Fixpoint trace {A} (p : async E S A) (o : schedule E S) (s : S) : list (E * S * S) :=
  match p with
  | Done _ => []
  | Atomic act k =>
      let e := at_env (o 0%nat) in
      let s1 := others (o 0%nat) s in
      match act e s1 with
      | Value (r, s') => (e, s1, s') :: trace (k r) (later o) s'
      | Panic => []
      end
  end.

Lemma trace_alone {A} (p : async E S A) e s x : x ∈ trace p (alone e) s -> fst (fst x) = e.
Proof.
  revert s. induction p as [b|R act k IH]; intros s; simpl; [by intros ?%not_elem_of_nil|].
  unfold id. destruct (act e s) as [[r s1]|]; [|by intros ?%not_elem_of_nil].
  intros [->|Hin]%elem_of_cons; [done|]. by apply (IH r s1).
Qed.

Lemma trace_await {A B} (p : async E S A) (k : A -> async E S B) o s a s1 o1 :
  block_on p o s = Value (a, s1, o1) ->
  trace (await p k) o s = trace p o s ++ trace (k a) o1 s1.
Proof.
  revert o s. induction p as [b|R act k' IH]; intros o s Hb; simpl in *; [by simplify_eq|].
  destruct (act _ _) as [[r s']|]; [|done]. by rewrite (IH r _ _ Hb).
Qed.

Lemma trace_try {F A B} (p : async E S (result F A)) (k : A -> async E S (result F B)) o s a s1 o1 :
  block_on p o s = Value (Ok a, s1, o1) ->
  trace (await_try p k) o s = trace p o s ++ trace (k a) o1 s1.
Proof. intros Hb. exact (trace_await p _ o s (Ok a) s1 o1 Hb). Qed.

Lemma block_on_Done {F A B} (a : A) (k : A -> async E S (result F B)) o s :
  block_on (await_try (Done (Ok a)) k) o s = block_on (k a) o s.
Proof. done. Qed.

Lemma trace_Done {F A B} (a : A) (k : A -> async E S (result F B)) o s :
  trace (await_try (Done (Ok a)) k) o s = trace (k a) o s.
Proof. done. Qed.

(** ** Properties of every step

    [every_step P p]: each atomic step of [p], whatever the earlier steps
    returned, takes states related by [P]. *)
Fixpoint every_step {A} (P : S -> S -> Prop) (p : async E S A) : Prop :=
  match p with
  | Done _ => True
  | Atomic act k =>
      (forall e s r s', act e s = Value (r, s') -> P s s') /\ forall r, every_step P (k r)
  end.

Lemma every_step_await {A B} P (p : async E S A) (k : A -> async E S B) :
  every_step P p -> (forall a, every_step P (k a)) -> every_step P (await p k).
Proof.
  induction p as [a|R act k' IH]; intros Hp Hk; [apply Hk|]. destruct Hp as [Ha Hk'].
  split; [done|]. intros r. by apply IH.
Qed.

Lemma every_step_try {F A B} P (p : async E S (result F A)) (k : A -> async E S (result F B)) :
  every_step P p -> (forall a, every_step P (k a)) -> every_step P (await_try p k).
Proof. intros Hp Hk. apply every_step_await; [done|]. intros [a|e]; [apply Hk|done]. Qed.

Lemma every_step_atomic {R} P (act : E -> S -> outcome (R * S)) :
  (forall e s r s', act e s = Value (r, s') -> P s s') -> every_step P (atomic act).
Proof. intros Ha. by split. Qed.

Lemma every_step_impl {A} (P P' : S -> S -> Prop) (p : async E S A) :
  (forall s s', P s s' -> P' s s') -> every_step P p -> every_step P' p.
Proof.
  intros HP. induction p as [a|R act k IH]; [done|]. intros [Ha Hk]. split; [eauto|]. intros r. by apply IH.
Qed.

(** A reflexive and transitive relation of every step, kept by the other
    tasks, relates the initial and the final state. *)
Lemma block_on_every_step {A} (P : S -> S -> Prop) (p : async E S A) o s a s' o' :
  (forall s, P s s) -> (forall s1 s2 s3, P s1 s2 -> P s2 s3 -> P s1 s3) ->
  every_step P p -> (forall n s, P s (others (o n) s)) ->
  block_on p o s = Value (a, s', o') -> P s s' /\ (forall n s, P s (others (o' n) s)).
Proof.
  intros Hr Ht. revert o s. induction p as [b|R act k IH]; intros o s Hp Ho Hb.
  - by simplify_eq/=.
  - simpl in *. destruct Hp as [Ha Hk].
    destruct (act _ _) as [[r s1]|] eqn:Hact; [|done].
    destruct (IH r (later o) s1 (Hk r)) as [H1 H2]; [|done|].
    { intros n s2. apply Ho. }
    split; [|done]. eapply Ht; [|exact H1]. eapply Ht; [apply Ho|]. by eapply Ha.
Qed.

(** ** Gates

    [gated G Q p]: [p] has a result in [Q] only by taking a step that turns the
    condition [G] on the state from false to true. *)
Fixpoint gated {A} (G : S -> Prop) (Q : A -> Prop) (p : async E S A) : Prop :=
  match p with
  | Done a => ~ Q a
  | Atomic act k => forall e s r s', act e s = Value (r, s') -> (~ G s /\ G s') \/ gated G Q (k r)
  end.

Lemma gated_await {A B} (G : S -> Prop) (Q : A -> Prop) (R : B -> Prop) (p : async E S A)
    (k : A -> async E S B) :
  gated G Q p -> (forall a, ~ Q a -> gated G R (k a)) -> gated G R (await p k).
Proof.
  intros Hp Hk. induction p as [a|T act k' IH]; [by apply Hk|].
  intros e s r s' Ha. destruct (Hp e s r s' Ha) as [Hg|Hp']; [by left|]. right. by apply IH.
Qed.

(** The gate may come after any program. *)
Lemma gated_later {A B} (G : S -> Prop) (R : B -> Prop) (p : async E S A) (k : A -> async E S B) :
  (forall a, gated G R (k a)) -> gated G R (await p k).
Proof.
  intros Hk. induction p as [a|T act k' IH]; [apply Hk|]. intros e s r s' Ha. right. apply IH.
Qed.

Definition succeeded {F A} (r : result F A) : Prop := is_ok r = true.

Lemma gated_try {F A B} (G : S -> Prop) (p : async E S (result F A)) (k : A -> async E S (result F B)) :
  gated G succeeded p -> gated G succeeded (await_try p k).
Proof. intros Hp. apply (gated_await _ _ _ _ _ Hp). by intros [a|f] Ha; [destruct Ha|]. Qed.

Lemma gated_try_later {F A B} (G : S -> Prop) (p : async E S (result F A)) (k : A -> async E S (result F B)) :
  (forall a, gated G succeeded (k a)) -> gated G succeeded (await_try p k).
Proof. intros Hk. apply gated_later. by intros [a|f]. Qed.

Lemma gated_try_done {F A B} (G : S -> Prop) (r : result F A) (k : A -> async E S (result F B)) :
  (forall a, r = Ok a -> gated G succeeded (k a)) -> gated G succeeded (await_try (Done r) k).
Proof. intros Hk. destruct r; [by apply Hk|done]. Qed.

(** ** Pools of programs *)

Definition pool A := (list (async E S A) * S)%type.

(** One step of the [i]th program in an admissible environment [e], or a change
    of the state by something outside the pool. *)
Inductive pool_step {A} (ok : E -> Prop) (outside : S -> S -> Prop) : pool A -> pool A -> Prop :=
  | pool_thread i e R (act : E -> S -> outcome (R * S)) k ts s r s' :
      ts !! i = Some (Atomic act k) -> ok e -> act e s = Value (r, s') ->
      pool_step ok outside (ts, s) (<[i := k r]> ts, s')
  | pool_outside ts s s' : outside s s' -> pool_step ok outside (ts, s) (ts, s').

(** *** At most one program of a pool passes a gate

    [won] is a decidable set of results that are reached only through the gate
    [G], which nothing closes again. *)
Section one_winner.
Context {A : Type} (G : S -> Prop) (won : A -> bool) (outside : S -> S -> Prop).
Context (Houtside : forall s s', outside s s' -> G s -> G s').

Definition keeps_open (s s' : S) : Prop := G s -> G s'.
Definition contender (p : async E S A) : Prop := every_step keeps_open p /\ gated G (fun a => won a = true) p.

Definition winner (p : async E S A) : bool := match p with Done a => won a | Atomic _ _ => false end.

(** [b]: the program has passed the gate. *)
Definition tracked (b : bool) (p : async E S A) : Prop :=
  every_step keeps_open p /\ (b = false -> gated G (fun a => won a = true) p).

Definition passed (bs : list bool) : nat := length (List.filter id bs).

Lemma passed_insert bs i : bs !! i = Some false -> passed (<[i := true]> bs) = Datatypes.S (passed bs).
Proof.
  unfold passed. revert i. induction bs as [|b bs IH]; intros [|i] Hi; simplify_eq/=; [done|].
  destruct b; simpl; by rewrite (IH i Hi).
Qed.

Definition winners (ts : list (async E S A)) : nat := length (List.filter winner ts).

Lemma tracked_winners bs ts : Forall2 tracked bs ts -> (winners ts <= passed bs)%nat.
Proof.
  unfold winners, passed. induction 1 as [|b p bs ts [_ Hb] _ IH]; simpl; [done|].
  destruct p as [a|R act k]; simpl; [|destruct b; simpl; lia].
  destruct b; simpl; [destruct (won a); simpl; lia|].
  specialize (Hb eq_refl). simpl in Hb. apply not_true_is_false in Hb as ->. exact IH.
Qed.

Definition race_inv (s0 : S) (c : pool A) : Prop :=
  exists bs, Forall2 tracked bs (fst c) /\ (passed bs <= 1)%nat /\ (G s0 -> G (snd c) /\ passed bs = 0%nat)
    /\ (passed bs <> 0%nat -> G (snd c)).

Lemma race_inv_step s0 ok c c' : race_inv s0 c -> pool_step ok outside c c' -> race_inv s0 c'.
Proof.
  intros (bs & Ht & Hle & H0 & Hg) Hst. inversion Hst as [i e R act k ts s r s' Hi _ Ha|ts s s' Ho]; subst; simpl in *.
  - destruct (Forall2_lookup_r _ _ _ _ _ Ht Hi) as (b & Hb & [Hk Hgt]). destruct Hk as [Hk1 Hk2].
    specialize (Hk1 e s r s' Ha). unfold keeps_open in Hk1.
    assert (b = false /\ ~ G s /\ G s' \/ (b = false -> gated G (fun a => won a = true) (k r))) as [(-> & Hn & Hy)|Hgt'].
    { destruct b; [by right|]. destruct (Hgt eq_refl e s r s' Ha); auto. }
    + exists (<[i := true]> bs). rewrite passed_insert by done.
      assert (passed bs = 0%nat) as Hz by (destruct (passed bs); [done|]; exfalso; auto).
      split_and!; [by apply Forall2_insert; [done|split]|simpl; lia|intros Hs0; by apply H0 in Hs0 as [? _]|done].
    + exists bs. split_and!; [|done|naive_solver|auto].
      rewrite <- (list_insert_id bs i b Hb). apply Forall2_insert; [done|]. split; auto.
  - exists bs. split_and!; [done|done|naive_solver|eauto].
Qed.

Lemma one_winner ok ts s ts' s' :
  Forall contender ts -> rtc (pool_step ok outside) (ts, s) (ts', s') ->
  (winners ts' <= 1)%nat /\ (G s -> winners ts' = 0%nat).
Proof.
  intros Hts Hrun.
  assert (race_inv s (ts, s)) as Hinv.
  { exists (replicate (length ts) false).
    assert (passed (replicate (length ts) false) = 0%nat) as Hz by (clear; induction ts; done).
    rewrite Hz. split_and!; [|lia|done|done]. clear -Hts. induction Hts as [|p ts [] _ IH]; simpl; by constructor. }
  assert (race_inv s (ts', s')) as (bs & Ht & Hle & H0 & _).
  { remember (ts, s) as c. remember (ts', s') as c'. clear Heqc Heqc'.
    induction Hrun; [done|]. eauto using race_inv_step. }
  apply tracked_winners in Ht. simpl in Ht. split; [lia|]. intros Hs. apply H0 in Hs as [_ Hz]. lia.
Qed.
End one_winner.

(** Running the threads in a given order, each step in its own environment. *)
Fixpoint run_pool {A} (order : list (nat * E)) (c : pool A) : option (pool A) :=
  match order with
  | [] => Some c
  | (i, e) :: order =>
      match fst c !! i with
      | Some (Atomic act k) =>
          match act e (snd c) with
          | Value (r, s') => run_pool order (<[i := k r]> (fst c), s')
          | Panic => None
          end
      | _ => None
      end
  end.

Lemma run_pool_sound {A} (ok : E -> Prop) outside order (c c' : pool A) :
  Forall (fun x => ok (snd x)) order -> run_pool order c = Some c' ->
  rtc (pool_step ok outside) c c'.
Proof.
  intros Hok. revert c. induction Hok as [|[i e] order He _ IH]; intros [ts s] Hr; simpl in Hr.
  { simplify_eq. constructor. }
  destruct (ts !! i) as [[a|R act k]|] eqn:Hi; [done| |done].
  destruct (act e s) as [[r s']|] eqn:Ha; [|done].
  eapply rtc_l; [|by apply IH]. by econstructor.
Qed.
End lemmas.

Create HintDb async.
#[export] Hint Resolve every_step_await every_step_try every_step_atomic : async.

(** [inv_async]: peel the steps of a finished run. *)
Ltac inv_async :=
  repeat match goal with
  | H : block_on (await_try _ _) _ _ = Value (Ok _, _, _) |- _ =>
      apply block_on_try_inv in H; destruct H as (? & ? & ? & ? & H)
  | H : block_on (await _ _) _ _ = Value (_, _, _) |- _ =>
      apply block_on_await_inv in H; destruct H as (? & ? & ? & ? & H)
  | H : block_on (atomic _) _ _ = Value (_, _, _) |- _ =>
      apply block_on_atomic in H; destruct H as [H ->]
  | H : block_on (Done _) _ _ = Value (_, _, _) |- _ => injection H as H; subst
  end.

(** ** Programs that end

    [ends n Q p]: [p] takes at most [n] steps and its result satisfies [Q]; no
    step panics in an environment that is [ok]; and every step takes states
    related by [P]. *)
Section ends.
Context {E S : Type} (ok : E -> Prop) (P : S -> S -> Prop).

(** A step that keeps to both. *)
Definition well_behaved {R} (act : E -> S -> outcome (R * S)) : Prop :=
  (forall e s, ok e -> act e s <> Panic) /\ (forall e s r s', act e s = Value (r, s') -> P s s').

Fixpoint ends {A} (n : nat) (Q : A -> Prop) (p : async E S A) {struct p} : Prop :=
  match p with
  | Done a => Q a
  | Atomic act k =>
      match n with
      | O => False
      | Datatypes.S n => well_behaved act /\ forall r, ends n Q (k r)
      end
  end.

Abbreviation halts n := (ends n (fun _ => True)).

Lemma ends_weaken {A} n m (Q Q' : A -> Prop) (p : async E S A) :
  (n <= m)%nat -> (forall a, Q a -> Q' a) -> ends n Q p -> ends m Q' p.
Proof.
  intros Hle HQ. revert n m Hle. induction p as [a|R act k IH]; intros n m Hle; [apply HQ|].
  destruct n as [|n]; [done|]. destruct m as [|m]; [lia|]. intros [Ha Hk].
  split; [done|]. intros r. apply (IH r n); [lia|done].
Qed.

Lemma ends_le {A} n m (Q : A -> Prop) (p : async E S A) : (n <= m)%nat -> ends n Q p -> ends m Q p.
Proof. intros Hle. by apply ends_weaken. Qed.

Lemma ends_await {A B} n m (Q : A -> Prop) (Q' : B -> Prop) (p : async E S A) (k : A -> async E S B) :
  ends n Q p -> (forall a, Q a -> ends m Q' (k a)) -> ends (n + m) Q' (await p k).
Proof.
  revert n. induction p as [a|R act k' IH]; intros n Hp Hk.
  - apply (ends_le m); [lia|]. by apply Hk.
  - destruct n as [|n]; [done|]. destruct Hp as [Ha Hp]. split; [done|]. intros r. by apply IH.
Qed.

(** [Ok] results satisfy [Q]. *)
Definition on_ok {F A} (Q : A -> Prop) (r : result F A) : Prop :=
  match r with Ok a => Q a | Err _ => True end.

Lemma ends_try {F A B} n m (Q : A -> Prop) (Q' : B -> Prop) (p : async E S (result F A))
    (k : A -> async E S (result F B)) :
  ends n (on_ok Q) p -> (forall a, Q a -> ends m (on_ok Q') (k a)) ->
  ends (n + m) (on_ok Q') (await_try p k).
Proof.
  intros Hp Hk. apply (ends_await n m _ _ _ _ Hp). intros [a|f] Hr; [by apply Hk|by destruct m].
Qed.

Lemma ends_try_done {F A B} m (r : result F A) (Q : B -> Prop) (k : A -> async E S (result F B)) :
  (forall a, r = Ok a -> ends m (on_ok Q) (k a)) -> ends m (on_ok Q) (await_try (Done r) k).
Proof. intros Hk. destruct r; [by apply Hk|by destruct m]. Qed.

Lemma ends_atomic {R} (act : E -> S -> outcome (R * S)) (Q : R -> Prop) :
  well_behaved act -> (forall r, Q r) -> ends 1 Q (atomic act).
Proof. by split. Qed.

(** The common case: the intermediate result does not matter. *)
Lemma halts_await {A B} n m (Q : B -> Prop) (p : async E S A) (k : A -> async E S B) :
  halts n p -> (forall a, ends m Q (k a)) -> ends (n + m) Q (await p k).
Proof. intros Hp Hk. by eapply ends_await. Qed.

Lemma halts_ok {F A} n (p : async E S (result F A)) : halts n p -> ends n (on_ok (fun _ => True)) p.
Proof. apply ends_weaken; [done|]. by intros []. Qed.

Lemma ends_halts {A} n (Q : A -> Prop) (p : async E S A) : ends n Q p -> halts n p.
Proof. by apply ends_weaken. Qed.

(** Such a program is answered under every schedule, *)
Lemma ends_run {A} n (Q : A -> Prop) (p : async E S A) o s :
  ends n Q p -> (forall i, ok (at_env (o i))) ->
  exists a s' o', block_on p o s = Value (a, s', o') /\ Q a /\ (length (trace p o s) <= n)%nat.
Proof.
  revert n o s. induction p as [a|R act k IH]; intros n o s Hp Ho; simpl.
  - exists a, s, o. split; [done|]. split; [done|lia].
  - destruct n as [|n]; [done|]. destruct Hp as [[Ha _] Hk].
    destruct (act _ _) as [[r s1]|] eqn:Hact; [|by apply Ha in Hact].
    destruct (IH r n (later o) s1 (Hk r)) as (a & s' & o' & Hb & HQ & Hl); [intros i; apply Ho|].
    exists a, s', o'. split; [done|]. split; [done|simpl; lia].
Qed.

(** and all its steps are related by [P]. *)
Lemma ends_every_step {A} n (Q : A -> Prop) (p : async E S A) : ends n Q p -> every_step P p.
Proof.
  revert n. induction p as [a|R act k IH]; intros n Hp; [done|].
  destruct n as [|n]; [done|]. destruct Hp as [[_ Ha] Hk]. split; [done|]. intros r. by eapply IH.
Qed.
End ends.

Lemma ends_impl {E S A} (ok ok' : E -> Prop) (P P' : S -> S -> Prop) n (Q : A -> Prop) (p : async E S A) :
  (forall e, ok' e -> ok e) -> (forall s s', P s s' -> P' s s') -> ends ok P n Q p -> ends ok' P' n Q p.
Proof.
  intros Hok HP. revert n. induction p as [a|R act k IH]; intros [|n]; simpl; [done..|].
  intros [[Hn Ha] Hk]. split; [split; eauto|]. intros r. by apply IH.
Qed.
