(* ===== verification/Linearize.v ===== *)
(** * Linearize: concurrent requests against an atomic object

    A service starts a program per request and interleaves the steps of all
    that run.  Its history, the calls and the answers in the order in which they
    happen, is linearizable when each answered request can be given a point
    between its call and its answer at which it takes effect at once, as a
    sequential specification says.  [service_linearizable] reduces that to a
    property of each program on its own: it takes effect in at most one of its
    steps, and answers accordingly. *)

From S2P Require Import Prelude Async.

(** ** Histories *)

Section histories.
Context {Q A V : Type} `{Equiv V, !Equivalence (≡@{V})} (spec : Q -> V -> A -> V -> Prop).

(** The [i]th request is called, takes effect, is answered. *)
Inductive event : Type :=
  | Call (i : nat) (q : Q)
  | Effect (i : nat) (q : Q) (a : A)
  | Answer (i : nat) (a : A).

Definition owner (x : event) : nat := match x with Call i _ | Effect i _ _ | Answer i _ => i end.

(** A client sees the calls and the answers. *)
Definition visible (l : list event) : list event :=
  omap (fun x => match x with Effect _ _ _ => None | _ => Some x end) l.
Definition effects (l : list event) : list (Q * A) :=
  omap (fun x => match x with Effect _ q a => Some (q, a) | _ => None end) l.
Definition events_of (i : nat) (l : list event) : list event := base.filter (fun x => owner x = i) l.

(** A request's events come in order, each at most once. *)
Inductive lifeline (i : nat) : list event -> Prop :=
  | not_called : lifeline i []
  | called q : lifeline i [Call i q]
  | effective q a : lifeline i [Call i q; Effect i q a]
  | answered q a : lifeline i [Call i q; Effect i q a; Answer i a].

(** A sequential run of the specification. *)
Inductive sequential (v : V) : list (Q * A) -> V -> Prop :=
  | sequential_nil v' : v ≡ v' -> sequential v [] v'
  | sequential_snoc l v1 q a v2 :
      sequential v l v1 -> spec q v1 a v2 -> sequential v (l ++ [(q, a)]) v2.

Definition in_order (l : list event) : Prop := forall i, lifeline i (events_of i l).

Definition linearizable (v : V) (h : list event) (v' : V) : Prop :=
  exists l, visible l = h /\ in_order l /\ sequential v (effects l) v'.

Lemma events_of_snoc i l x :
  events_of i (l ++ [x]) = if decide (owner x = i) then events_of i l ++ [x] else events_of i l.
Proof.
  unfold events_of. rewrite list.filter_app, list.filter_cons. case_decide; [done|]. apply app_nil_r.
Qed.
Lemma visible_snoc l x : visible (l ++ [x]) = visible l ++ visible [x].
Proof. apply omap_app. Qed.
Lemma effects_snoc l x : effects (l ++ [x]) = effects l ++ effects [x].
Proof. apply omap_app. Qed.

(** *** The order of a request's events *)

Definition rank (x : event) : nat := match x with Call _ _ => 0 | Effect _ _ _ => 1 | Answer _ _ => 2 end.

Lemma events_of_app i l1 l2 : events_of i (l1 ++ l2) = events_of i l1 ++ events_of i l2.
Proof. apply list.filter_app. Qed.
Lemma events_of_cons x l : events_of (owner x) (x :: l) = x :: events_of (owner x) l.
Proof. unfold events_of. by rewrite filter_cons_True. Qed.
Lemma elem_events_of x l : x ∈ l -> x ∈ events_of (owner x) l.
Proof. intros Hx. by apply list_elem_of_filter. Qed.
Lemma elem_of_events x i l : x ∈ events_of i l -> x ∈ l.
Proof. by intros [_ Hx]%list_elem_of_filter. Qed.

Lemma lifeline_ranks i f1 x f2 y : lifeline i (f1 ++ x :: f2) -> y ∈ f2 -> (rank x < rank y)%nat.
Proof.
  intros Hl Hy. remember (f1 ++ x :: f2) as f eqn:Hf.
  destruct Hl as [|q|q a|q a]; destruct f1 as [|y1 [|y2 [|y3 f1]]]; simplify_eq/=; try (by destruct f1);
    rewrite ?elem_of_cons, ?elem_of_nil in Hy; destruct_or?; subst; simpl; lia || done.
Qed.

(** Later events of a request have a higher rank. *)
Lemma in_order_ranks l1 l2 x y :
  in_order (l1 ++ l2) -> x ∈ l1 -> y ∈ l2 -> owner x = owner y -> (rank x < rank y)%nat.
Proof.
  intros Hl (k1 & k2 & ->)%list_elem_of_split Hy Ho. specialize (Hl (owner x)).
  rewrite <- app_assoc in Hl. simpl in Hl. rewrite events_of_app, events_of_cons, events_of_app in Hl.
  eapply lifeline_ranks; [exact Hl|]. apply elem_of_app. right. rewrite Ho. by apply elem_events_of.
Qed.

(** An effect is that of its call, and an answer that of its effect. *)
Lemma effect_called l i q a : in_order l -> Effect i q a ∈ l -> Call i q ∈ l.
Proof.
  intros Hl Hx%elem_events_of. simpl in Hx. apply (elem_of_events _ i).
  destruct (Hl i); rewrite ?elem_of_cons, ?elem_of_nil in *; naive_solver.
Qed.

Lemma answer_effective l i q a : in_order l -> Call i q ∈ l -> Answer i a ∈ l -> Effect i q a ∈ l.
Proof.
  intros Hl Hx%elem_events_of Hy%elem_events_of. simpl in Hx, Hy. apply (elem_of_events _ i).
  destruct (Hl i); rewrite ?elem_of_cons, ?elem_of_nil in *; naive_solver.
Qed.

Lemma in_order_between l1 l2 l3 i q a :
  in_order (l1 ++ Call i q :: l2 ++ Answer i a :: l3) -> Effect i q a ∈ l2.
Proof.
  intros Hl. assert (Effect i q a ∈ l1 ++ Call i q :: l2 ++ Answer i a :: l3) as Hx.
  { apply answer_effective; [done|..]; set_solver. }
  apply elem_of_app in Hx as [Hx|Hx].
  - pose proof (in_order_ranks _ _ _ (Call i q) Hl Hx ltac:(set_solver) eq_refl) as Hr. simpl in Hr. lia.
  - apply elem_of_cons in Hx as [Hx|Hx]; [done|]. apply elem_of_app in Hx as [Hx|Hx]; [done|].
    apply elem_of_cons in Hx as [Hx|Hx]; [done|]. rewrite app_comm_cons, (app_assoc l1), cons_middle, app_assoc in Hl.
    pose proof (in_order_ranks _ _ (Answer i a) _ Hl ltac:(set_solver) Hx eq_refl) as Hr. simpl in Hr. lia.
Qed.

(** *** Two requests, one called after the other is answered *)

Lemma visible_split l h1 x h2 :
  visible l = h1 ++ x :: h2 -> exists l1 l2, l = l1 ++ x :: l2 /\ visible l1 = h1 /\ visible l2 = h2.
Proof.
  revert h1. induction l as [|y l IH]; intros h1; [by destruct h1|].
  assert (visible l = h1 ++ x :: h2 -> visible [y] = [] ->
    exists l1 l2, y :: l = l1 ++ x :: l2 /\ visible l1 = h1 /\ visible l2 = h2) as Hskip.
  { intros Hl Hy. destruct (IH h1 Hl) as (l1 & l2 & -> & <- & <-). exists (y :: l1), l2.
    split; [done|]. split; [|done]. change (y :: l1) with ([y] ++ l1). unfold visible in *. by rewrite omap_app, Hy. }
  destruct y as [k q|k q a|k a]; simpl; [|by intros Hl; apply Hskip|].
  all: destruct h1 as [|y' h1]; intros [= <- Hl]; [by eexists [], l|].
  all: destruct (IH h1 Hl) as (l1 & l2 & -> & <- & <-); by eexists (_ :: l1), l2.
Qed.

Lemma linearizable_from v1 v2 h v' : linearizable v1 h v' -> v1 ≡ v2 -> linearizable v2 h v'.
Proof.
  intros (l & Hv & Hl & Hs) Heq. exists l. split; [done|]. split; [done|].
  clear Hv. induction Hs as [v' Hv|l' v3 q a v4 Hs IH Hf]; [constructor; by rewrite <- Heq|by econstructor].
Qed.

Lemma sequential_equiv v0 l v v' :
  (forall q, Proper ((≡) ==> (=) ==> (≡) ==> iff) (spec q)) ->
  sequential v0 l v -> v ≡ v' -> sequential v0 l v'.
Proof.
  intros Hspec Hs Hv. destruct Hs as [v Hv0|l v1 q a v2 Hs Hf]; [constructor; by etrans|].
  econstructor; [done|]. by rewrite <- Hv.
Qed.

Lemma linearizable_to v h v1 v2 :
  (forall q, Proper ((≡) ==> (=) ==> (≡) ==> iff) (spec q)) ->
  linearizable v h v1 -> v1 ≡ v2 -> linearizable v h v2.
Proof. intros Hspec (l & Hv & Hl & Hs) Heq. exists l. eauto using sequential_equiv. Qed.

Lemma sequential_snoc_inv v l q a v' :
  sequential v (l ++ [(q, a)]) v' -> exists v1, sequential v l v1 /\ spec q v1 a v'.
Proof.
  intros Hs. remember (l ++ [(q, a)]) as l' eqn:Hl. destruct Hs as [v' Hv|l0 v1 q0 a0 v' Hs Hf]; [by destruct l|].
  apply app_inj_tail in Hl as [-> [= -> ->]]. eauto.
Qed.

Lemma sequential_app_inv v l1 l2 v' :
  sequential v (l1 ++ l2) v' -> exists v1, sequential v l1 v1 /\ sequential v1 l2 v'.
Proof.
  revert v'. induction l2 as [|[q a] l2 IH] using rev_ind; intros v'.
  - rewrite app_nil_r. intros Hs. exists v'. split; [done|]. by constructor.
  - rewrite app_assoc. intros (v2 & Hs & Hf)%sequential_snoc_inv. destruct (IH v2 Hs) as (v1 & H1 & H2).
    exists v1. split; [done|]. by econstructor.
Qed.

Lemma elem_visible x l : x ∈ visible l <-> x ∈ l /\ rank x <> 1%nat.
Proof.
  unfold visible. rewrite list_elem_of_omap. split.
  - intros (y & Hy & Hx). by destruct y; simplify_eq.
  - intros [Hx Hr]. exists x. by destruct x.
Qed.

Lemma effects_app l1 l2 : effects (l1 ++ l2) = effects l1 ++ effects l2.
Proof. apply omap_app. Qed.

(** What comes between the effects of two requests, the second called after
    the first was answered: only requests that were not answered before the
    first was called, and were called before the second was answered. *)
Lemma effects_between v h v' h1 h2 h3 h4 h5 i qi ai j qj aj :
  linearizable v h v' ->
  h = h1 ++ Call i qi :: h2 ++ Answer i ai :: h3 ++ Call j qj :: h4 ++ Answer j aj :: h5 ->
  exists v1 v2 es v3 v4, spec qi v1 ai v2 /\ sequential v2 es v3 /\ spec qj v3 aj v4
    /\ forall q a, (q, a) ∈ es ->
         exists k, k <> i /\ Call k q ∈ h /\ Call k q ∉ h5 /\ forall b, Answer k b ∉ h1.
Proof.
  intros (l & Hv & Hl & Hs) Hh. pose proof Hv as Hr. rewrite Hh in Hr. clear Hh.
  apply visible_split in Hr as (l1 & r1 & -> & <- & Hr1).
  apply visible_split in Hr1 as (l2 & r2 & -> & <- & Hr2). apply visible_split in Hr2 as (l3 & r3 & -> & <- & Hr3).
  apply visible_split in Hr3 as (l4 & l5 & -> & <- & <-).
  assert (Effect i qi ai ∈ l2) as (m1 & m2 & ->)%list_elem_of_split by by eapply in_order_between.
  assert (Effect j qj aj ∈ l4) as (m3 & m4 & ->)%list_elem_of_split.
  { eapply (in_order_between (l1 ++ Call i qi :: (m1 ++ Effect i qi ai :: m2) ++ Answer i ai :: l3)).
    erewrite <- app_assoc. simpl. erewrite <- (app_assoc (m1 ++ _)). exact Hl. }
  set (before := l1 ++ Call i qi :: m1). set (between := m2 ++ Answer i ai :: l3 ++ Call j qj :: m3).
  set (after := m4 ++ Answer j aj :: l5).
  match type of Hs with sequential _ (effects ?l) _ =>
    assert (l = before ++ Effect i qi ai :: between ++ Effect j qj aj :: after) as Heq end.
  { unfold before, between, after. by repeat (rewrite <- ?app_assoc; simpl). }
  rewrite Heq in Hv, Hs, Hl. clear Heq.
  assert (exists v1 v2 v3 v4, spec qi v1 ai v2 /\ sequential v2 (effects between) v3 /\ spec qj v3 aj v4)
    as (v1 & v2 & v3 & v4 & H1 & H2 & H3).
  { rewrite effects_app in Hs. simpl in Hs. rewrite effects_app in Hs. simpl in Hs.
    rewrite (cons_middle (qi, ai)), app_assoc, (cons_middle (qj, aj)), !app_assoc in Hs.
    apply sequential_app_inv in Hs as (v4 & (v3 & Hs & H3)%sequential_snoc_inv & _).
    apply sequential_app_inv in Hs as (v2 & (v1 & _ & H1)%sequential_snoc_inv & H2). eauto 8. }
  exists v1, v2, (effects between), v3, v4. split; [done|]. split; [done|]. split; [done|].
  intros q a (x & Hx & Hxe)%list_elem_of_omap. destruct x as [|k q' a'|]; [done| |done].
  injection Hxe as -> ->.
  assert (forall l1 l2 x y, before ++ Effect i qi ai :: between ++ Effect j qj aj :: after = l1 ++ l2 ->
    x ∈ l1 -> y ∈ l2 -> owner x = owner y -> (rank x < rank y)%nat) as Hrank.
  { intros k1 k2 x y Hk. rewrite Hk in Hl. by apply in_order_ranks. }
  exists k. split_and!.
  - intros ->. refine (Nat.lt_irrefl 1 (Hrank (before ++ [Effect i qi ai]) _ (Effect i qi ai) (Effect i q a) _ _ _ eq_refl));
      [by rewrite <- app_assoc|set_solver..].
  - rewrite <- Hv. apply elem_visible. split; [|done]. apply (effect_called _ _ _ a Hl). set_solver.
  - intros [Hc _]%elem_visible. refine (Nat.nlt_0_r 1 (Hrank (before ++ Effect i qi ai :: between) _ (Effect k q a) (Call k q) _ _ _ eq_refl));
      [by rewrite <- app_assoc|set_solver..].
  - intros b [Hb _]%elem_visible. assert (2 < 1)%nat; [|lia].
    refine (Hrank before _ (Answer k b) (Effect k q a) eq_refl _ _ eq_refl); set_solver.
Qed.
End histories.
Arguments event : clear implicits.

(** ** Claims

    What a program may rely on while others run: parts of the state that it has
    claimed, such as the temporary files it has created.  The claims of different
    programs are [apart]; a step that moves from claim [c] to [c'] leaves every
    claim apart from [c] intact, and [c'] apart from it. *)
Class Claims (S : Type) := {
  claim : Type;
  nothing : claim;
  holds : claim -> S -> Prop;
  apart : claim -> claim -> Prop;
  moves : claim -> claim -> S -> S -> Prop;
  holds_nothing s : holds nothing s;
  apart_nothing c : apart c nothing;
  apart_sym c d : apart c d -> apart d c;
  moves_frame c c' d s s' : moves c c' s s' -> apart c d -> holds d s -> holds d s' /\ apart c' d;
}.

(** Programs that need none. *)
Definition no_claims (S : Type) : Claims S.
Proof.
  by refine {| claim := unit; nothing := (); holds _ _ := True; apart _ _ := True; moves _ _ _ _ := True |}.
Defined.

(** ** Programs that take effect once *)

Section once.
Context {E S V : Type} `{Equiv V} `{!Claims S} (view : S -> V).

Definition untouched (s s' : S) : Prop := view s' ≡ view s.

(** Neither the object nor any claim is affected. *)
Definition inert (s s' : S) : Prop :=
  untouched s s' /\ forall c, holds c s -> holds c s' /\ moves c c s s'.

(** What the rest of the world may do. *)
Definition harmless (s s' : S) : Prop := untouched s s' /\ forall c, holds c s -> holds c s'.

(** [unmoved a c p]: with the claim [c], [p] leaves the object alone and returns
    [a].  [once f c p]: if [p] touches the object then in one step, as [f] allows
    for its result; and if it does not, [f] allows its result to change nothing. *)
Fixpoint unmoved {A} (a : A) (c : claim) (p : async E S A) : Prop :=
  match p with
  | Done a' => a' = a
  | Atomic act k => forall e s r s', holds c s -> act e s = Value (r, s') ->
      exists c', holds c' s' /\ moves c c' s s' /\ untouched s s' /\ unmoved a c' (k r)
  end.

Fixpoint once {A} (f : V -> A -> V -> Prop) (c : claim) (p : async E S A) : Prop :=
  match p with
  | Done a => forall v, f v a v
  | Atomic act k => forall e s r s', holds c s -> act e s = Value (r, s') ->
      exists c', holds c' s' /\ moves c c' s s'
        /\ ((untouched s s' /\ once f c' (k r)) \/ exists a, f (view s) a (view s') /\ unmoved a c' (k r))
  end.

Lemma once_impl {A} (f f' : V -> A -> V -> Prop) c (p : async E S A) :
  (forall v a v', f v a v' -> f' v a v') -> once f c p -> once f' c p.
Proof.
  intros Hf. revert c. induction p as [a|R act k IH]; intros c; simpl; [by eauto|]. intros Hp e s r s' Hc Ha.
  destruct (Hp e s r s' Hc Ha) as (c' & H1 & H2 & [[Hu Hk]|(a & Hs & Hk)]); exists c'; eauto 10.
Qed.

Lemma unmoved_await {A B} (p : async E S B) (k : B -> async E S A) b a c :
  unmoved b c p -> (forall c', unmoved a c' (k b)) -> unmoved a c (await p k).
Proof.
  intros Hp Hk. revert c Hp. induction p as [b'|R act k' IH]; intros c Hp; [by simpl in Hp; subst|].
  intros e s r s' Hc Ha. destruct (Hp e s r s' Hc Ha) as (c' & H1 & H2 & H3 & H4). exists c'. eauto.
Qed.

(** A program that has answered and takes inert steps only. *)
Lemma inert_unmoved {A B} (p : async E S B) (a : A) c :
  every_step inert p -> unmoved a c (await p (fun _ => Done a)).
Proof.
  revert c. induction p as [b|R act k IH]; intros c; [done|]. intros [Ha Hk] e s r s' Hc Hr.
  destruct (Ha e s r s' Hr) as [Hu Hm]. destruct (Hm c Hc) as [H1 H2]. exists c. eauto.
Qed.

Lemma unmoved_once {A} (f : V -> A -> V -> Prop) (a : A) c (p : async E S A) :
  (forall v, f v a v) -> unmoved a c p -> once f c p.
Proof.
  intros Hf. revert c. induction p as [a'|R act k IH]; intros c Hp; [by simpl in Hp; subst|].
  intros e s r s' Hc Ha. destruct (Hp e s r s' Hc Ha) as (c' & H1 & H2 & H3 & H4). exists c'.
  split; [done|]. split; [done|]. left. split; [done|]. by apply IH.
Qed.

(** Inert steps first. *)
Lemma once_await {A B} (f : V -> A -> V -> Prop) ok (P : S -> S -> Prop) n (R : B -> Prop) c (p : async E S B) k :
  (forall s s', P s s' -> inert s s') -> ends ok P n R p -> (forall b, R b -> once f c (k b)) ->
  once f c (await p k).
Proof.
  intros HP. revert n. induction p as [b|T act k' IH]; intros n Hp Hk; [by apply Hk|].
  destruct n as [|n]; [done|]. destruct Hp as [[_ Ha] Hp]. intros e s r s' Hc Hr.
  destruct (HP _ _ (Ha _ _ _ _ Hr)) as [Hu Hm]. destruct (Hm c Hc). exists c. split; [done|]. split; [done|].
  left. split; [done|]. by eapply IH.
Qed.

(** Inert steps only. *)
Lemma once_ends {A} (f : V -> A -> V -> Prop) ok (P : S -> S -> Prop) n (R : A -> Prop) c (p : async E S A) :
  (forall s s', P s s' -> inert s s') -> ends ok P n R p -> (forall a v, R a -> f v a v) -> once f c p.
Proof.
  intros HP. revert n. induction p as [a|T act k IH]; intros n Hp Hf; [by intros v; apply Hf|].
  destruct n as [|n]; [done|]. destruct Hp as [[_ Ha] Hp]. intros e s r s' Hc Hr.
  destruct (HP _ _ (Ha _ _ _ _ Hr)) as [Hu Hm]. destruct (Hm c Hc). exists c. split; [done|]. split; [done|].
  left. split; [done|]. by eapply IH.
Qed.

(** A program that takes effect, then inert steps to the answer [ans]. *)
Lemma once_then {A B} (g : V -> B -> V -> Prop) (f : V -> A -> V -> Prop) (ans : B -> A) c (p : async E S B) k :
  once g c p -> (forall b v v', g v b v' -> f v (ans b) v') -> (forall b c', unmoved (ans b) c' (k b)) ->
  once f c (await p k).
Proof.
  intros Hp Hf Hk. revert c Hp. induction p as [b|R act k' IH]; intros c Hp.
  - simpl in Hp. eapply unmoved_once; [|apply Hk]. intros v. by apply Hf.
  - intros e s r s' Hc Ha. destruct (Hp e s r s' Hc Ha) as (c' & H1 & H2 & [[Hu Ho]|(b & Hg & Ho)]).
    + exists c'. split; [done|]. split; [done|]. left. split; [done|]. by apply IH.
    + exists c'. split; [done|]. split; [done|]. right. exists (ans b). split; [by apply Hf|].
      by eapply unmoved_await.
Qed.
End once.

(** ** Services *)

Section service.
Context {E S Q A V : Type} `{Equiv V, !Equivalence (≡@{V})} (spec : Q -> V -> A -> V -> Prop).
Context (program : Q -> async E S A) (outside : S -> S -> Prop).

Inductive thread : Type := Running (p : async E S A) | Gone.
Abbreviation service := (list thread * S * list (event Q A))%type.

Inductive service_step : service -> service -> Prop :=
  | step_call ts s h q :
      service_step (ts, s, h) (ts ++ [Running (program q)], s, h ++ [Call (length ts) q])
  | step_thread ts s h i e R (act : E -> S -> outcome (R * S)) k r s' :
      ts !! i = Some (Running (Atomic act k)) -> act e s = Value (r, s') ->
      service_step (ts, s, h) (<[i := Running (k r)]> ts, s', h)
  | step_answer ts s h i a :
      ts !! i = Some (Running (Done a)) ->
      service_step (ts, s, h) (<[i := Gone]> ts, s, h ++ [Answer i a])
  | step_outside ts s s' h : outside s s' -> service_step (ts, s, h) (ts, s', h).

Context `{!Claims S} (view : S -> V).
Context (Hspec : forall q, Proper ((≡) ==> (=) ==> (≡) ==> iff) (spec q)).

(** A thread, its claim and its request's events. *)
Inductive linked (i : nat) (c : claim) : option thread -> list (event Q A) -> Prop :=
  | linked_none : linked i c None []
  | linked_called p q : once view (spec q) c p -> linked i c (Some (Running p)) [Call i q]
  | linked_effective p q a : unmoved view a c p -> linked i c (Some (Running p)) [Call i q; Effect i q a]
  | linked_gone q a : linked i c (Some Gone) [Call i q; Effect i q a; Answer i a].

(** All claims hold and are apart; threads to come have claimed nothing. *)
Definition claimed (cs : nat -> claim) (n : nat) (s : S) : Prop :=
  (forall i, holds (cs i) s) /\ (forall i j, i <> j -> apart (cs i) (cs j)) /\ forall i, (n <= i)%nat -> cs i = nothing.

Definition explained (v0 : V) (x : service) : Prop :=
  let '(ts, s, h) := x in
  exists l cs, visible l = h /\ (forall i, linked i (cs i) (ts !! i) (events_of i l)) /\ claimed cs (length ts) s
    /\ sequential spec v0 (effects l) (view s).

Definition reclaim (cs : nat -> claim) (i : nat) (c : claim) : nat -> claim :=
  fun j => if decide (j = i) then c else cs j.

Lemma claimed_step cs n i c s s' :
  claimed cs n s -> (i < n)%nat -> holds c s' -> moves (cs i) c s s' -> claimed (reclaim cs i c) n s'.
Proof.
  intros (Hh & Ha & Hn) Hi Hc Hm. unfold reclaim.
  assert (forall j, j <> i -> holds (cs j) s' /\ apart c (cs j)) as Hframe.
  { intros j Hj. eapply moves_frame; [exact Hm|apply Ha; congruence|done]. }
  split; [|split].
  - intros j. case_decide; [done|]. by apply Hframe.
  - intros j k Hjk. repeat case_decide; subst; [done| | |by apply Ha].
    + by apply Hframe.
    + by apply apart_sym, Hframe.
  - intros j Hj. rewrite decide_False by lia. by apply Hn.
Qed.

(** The [i]th thread moves on, with one more event. *)
Lemma linked_update (ts : list thread) l cs i c t x :
  (forall j, linked j (cs j) (ts !! j) (events_of j l)) -> is_Some (ts !! i) -> owner x = i ->
  linked i c (Some t) (events_of i l ++ [x]) ->
  forall j, linked j (reclaim cs i c j) (<[i := t]> ts !! j) (events_of j (l ++ [x])).
Proof.
  intros Hl Hi Hx Ht j. unfold reclaim. rewrite events_of_snoc, Hx. destruct (decide (i = j)) as [<-|Hne].
  - by rewrite decide_True, list_lookup_insert_eq by (done || by apply lookup_lt_is_Some_1).
  - by rewrite decide_False, list_lookup_insert_ne.
Qed.

(** The same without an event. *)
Lemma linked_advance (ts : list thread) (l : list (event Q A)) cs i c t :
  (forall j, linked j (cs j) (ts !! j) (events_of j l)) -> linked i c (Some t) (events_of i l) -> is_Some (ts !! i) ->
  forall j, linked j (reclaim cs i c j) (<[i := t]> ts !! j) (events_of j l).
Proof.
  intros Hl Ht Hi j. unfold reclaim. destruct (decide (j = i)) as [->|Hne].
  - by rewrite list_lookup_insert_eq by by apply lookup_lt_is_Some_1.
  - by rewrite list_lookup_insert_ne.
Qed.

Lemma effect_sequential v0 l s q a i s' :
  sequential spec v0 (effects l) (view s) -> spec q (view s) a (view s') ->
  sequential spec v0 (effects (l ++ [Effect i q a])) (view s').
Proof. intros Hs Hf. rewrite effects_snoc. by econstructor. Qed.

Lemma thread_explained v0 ts s h i e R (act : E -> S -> outcome (R * S)) k r s' :
  ts !! i = Some (Running (Atomic act k)) -> act e s = Value (r, s') ->
  explained v0 (ts, s, h) -> explained v0 (<[i := Running (k r)]> ts, s', h).
Proof.
  intros Hi Ha (l & cs & Hh & Hl & Hcs & Hs). assert (is_Some (ts !! i)) as Hsome by by rewrite Hi.
  assert (i < length ts)%nat as Hlt by by apply lookup_lt_is_Some_1.
  specialize (Hl i) as Hli. rewrite Hi in Hli.
  inversion Hli as [|p q Hp Hp' He|p q a Hp Hp' He|]; subst p;
    destruct (Hp e s r s' (proj1 Hcs i) Ha) as (c & Hc & Hm & Hk);
    pose proof (claimed_step _ _ _ _ _ _ Hcs Hlt Hc Hm) as Hcs'; rewrite <- (length_insert ts i (Running (k r))) in Hcs'.
  - destruct Hk as [[Hu Hk]|(a & Hf & Hk)].
    + exists l, (reclaim cs i c). split; [done|]. split; [|split; [done|]; by eapply (sequential_equiv spec)].
      apply linked_advance; [done| |done]. rewrite <- He. by constructor.
    + exists (l ++ [Effect i q a]), (reclaim cs i c). split; [rewrite visible_snoc, Hh; apply app_nil_r|].
      split; [|split; [done|]; by eapply effect_sequential]. apply linked_update; [done..|]. rewrite <- He. by constructor.
  - destruct Hk as [Hu Hk]. exists l, (reclaim cs i c). split; [done|].
    split; [|split; [done|]; by eapply (sequential_equiv spec)].
    apply linked_advance; [done| |done]. rewrite <- He. by constructor.
Qed.

(** A thread that goes keeps its claim: nobody else may touch it. *)
Lemma answer_explained v0 ts s h i a :
  ts !! i = Some (Running (Done a)) ->
  explained v0 (ts, s, h) -> explained v0 (<[i := Gone]> ts, s, h ++ [Answer i a]).
Proof.
  intros Hi (l & cs & Hh & Hl & Hcs & Hs). assert (is_Some (ts !! i)) as Hsome by by rewrite Hi.
  assert (forall l', (forall j, linked j (reclaim cs i (cs i) j) (<[i := Gone]> ts !! j) (events_of j l')) ->
    forall j, linked j (cs j) (<[i := Gone]> ts !! j) (events_of j l')) as Hsame.
  { intros l' Hl' j. specialize (Hl' j). unfold reclaim in Hl'. by case_decide; subst. }
  specialize (Hl i) as Hli. rewrite Hi in Hli. inversion Hli as [|p q Hp Hp' He|p q a' Hp Hp' He|]; subst p.
  - simpl in Hp. exists ((l ++ [Effect i q a]) ++ [Answer i a]), cs.
    split; [by rewrite !visible_snoc, Hh, app_nil_r|].
    split; [|split; [by rewrite length_insert|]; rewrite effects_snoc, app_nil_r; by eapply effect_sequential].
    apply Hsame, linked_update; [|done..|].
    + intros j. destruct (decide (j = i)) as [->|Hne].
      * rewrite Hi, events_of_snoc, decide_True, <- He by done. by constructor.
      * rewrite events_of_snoc, decide_False by done. apply Hl.
    + rewrite events_of_snoc, decide_True, <- He by done. constructor.
  - simpl in Hp. subst a'. exists (l ++ [Answer i a]), cs. split; [by rewrite visible_snoc, Hh|].
    split; [|split; [by rewrite length_insert|]; by rewrite effects_snoc, app_nil_r].
    apply Hsame, linked_update; [done..|]. rewrite <- He. constructor.
Qed.

Lemma call_explained v0 ts s h q :
  once view (spec q) nothing (program q) ->
  explained v0 (ts, s, h) -> explained v0 (ts ++ [Running (program q)], s, h ++ [Call (length ts) q]).
Proof.
  intros Hq (l & cs & Hh & Hl & (Hc1 & Hc2 & Hc3) & Hs). exists (l ++ [Call (length ts) q]), cs.
  split; [by rewrite visible_snoc, Hh|].
  split; [|split; [split_and!; [done..|]; intros i; rewrite length_app; intros; apply Hc3; simpl in *; lia|];
    by rewrite effects_snoc, app_nil_r].
  intros j. rewrite events_of_snoc. simpl owner. specialize (Hl j). destruct (decide (length ts = j)) as [<-|Hne].
  - rewrite lookup_ge_None_2 in Hl by lia. inversion Hl as [He| | |].
    rewrite list_lookup_middle, Hc3 by done. by constructor.
  - destruct (decide (j < length ts)%nat) as [Hlt|Hge]; [by rewrite lookup_app_l|].
    rewrite lookup_ge_None_2 in Hl by lia. by rewrite lookup_ge_None_2 by (rewrite length_app; simpl; lia).
Qed.

Theorem service_linearizable s ts' s' h :
  (forall q, once view (spec q) nothing (program q)) ->
  (forall s1 s2, outside s1 s2 -> harmless view s1 s2) ->
  rtc service_step ([], s, []) (ts', s', h) -> linearizable spec (view s) h (view s').
Proof.
  intros Hp Ho Hrun.
  assert (explained (view s) (ts', s', h)) as (l & cs & Hh & Hl & _ & Hs).
  { assert (explained (view s) ([], s, [])) as H0.
    { exists [], (fun _ => nothing). split; [done|]. split; [intros i; constructor|]. split; [|by constructor].
      split_and!; [intros; apply holds_nothing|intros; apply apart_nothing|done]. }
    remember ([], s, []) as c eqn:Hc. remember (ts', s', h) as c'. clear Hc Heqc'. revert H0.
    induction Hrun as [c|c c1 c2 Hst _ IH]; [done|]. intros Hc. apply IH.
    destruct Hst as [| | |ts1 s1 s2 h1 Hout]; [by apply call_explained|by eapply thread_explained|by apply answer_explained|].
    destruct (Ho _ _ Hout) as [Hu Hk]. destruct Hc as (l & cs & Hh & Hl & (Hc1 & Hc2) & Hs).
    exists l, cs. split; [done|]. split; [done|]. split; [by split; [auto|]|].
    eapply (sequential_equiv spec); [done..|]. by symmetry. }
  exists l. split; [done|]. split; [|done]. intros i. destruct (Hl i); constructor.
Qed.

(** *** Running a service *)

Inductive instruction : Type := Start (q : Q) | Advance (i : nat) (e : E) | Finish (i : nat).

Definition perform (x : instruction) (c : service) : option service :=
  let '(ts, s, h) := c in
  match x with
  | Start q => Some (ts ++ [Running (program q)], s, h ++ [Call (length ts) q])
  | Advance i e =>
      match ts !! i with
      | Some (Running (Atomic act k)) =>
          match act e s with
          | Value (r, s') => Some (<[i := Running (k r)]> ts, s', h)
          | Panic => None
          end
      | _ => None
      end
  | Finish i =>
      match ts !! i with
      | Some (Running (Done a)) => Some (<[i := Gone]> ts, s, h ++ [Answer i a])
      | _ => None
      end
  end.

Definition perform_all (xs : list instruction) (c : service) : option service :=
  foldl (fun c x => c ≫= perform x) (Some c) xs.

Lemma perform_sound x c c' : perform x c = Some c' -> service_step c c'.
Proof.
  destruct c as [[ts s] h], x as [q|i e|i]; simpl; intros Hp; repeat case_match; simplify_eq; by econstructor.
Qed.

Lemma perform_all_sound xs c c' : perform_all xs c = Some c' -> rtc service_step c c'.
Proof.
  unfold perform_all. revert c. induction xs as [|x xs IH]; intros c; simpl; [by intros [= <-]|].
  destruct (perform x c) as [c1|] eqn:Hx; [|clear; by induction xs].
  intros Hr. eapply rtc_l; [by eapply perform_sound|by apply IH].
Qed.
End service.
