(* ===== verification/Context.v ===== *)
(** * Context: the two OIDC contexts

    [auth/discovery.rs] and [auth/context.rs].  A context's caches are fields
    of a record; the two contexts live in a map by audience, which is what a
    [Weak] reference to "the other context" is resolved in.  The HTTP client
    is a function from URLs to replies. *)

From S2P Require Import Prelude RustStd Crates Fs Instances Crypto Jwks ServerConfig Logging.

Inductive AudienceTag : Type := Vault | Admin.

Global Instance AudienceTag_eq_dec : EqDecision AudienceTag.
Proof. solve_decision. Defined.
Global Instance AudienceTag_countable : Countable AudienceTag.
Proof.
  refine (inj_countable' (fun t => match t with Vault => false | Admin => true end)
            (fun b => if b then Admin else Vault) _). by intros [].
Defined.

Definition as_jti_key_byte (t : AudienceTag) : N := match t with Vault => 1 | Admin => 2 end.
Definition tag_name (t : AudienceTag) : string := match t with Vault => "vault" | Admin => "admin" end.

(** ** [auth/discovery.rs] *)

Definition DISCOVERY_SUFFIX : string := "/.well-known/openid-configuration".

Inductive DiscoveryFetchError : Type :=
  | UrlBuild (issuer : string)
  | DiscoveryHttp
  | DiscoveryBadStatus (status : N)
  | DiscoveryParse
  | JwksUriParse (value : string)
  | JwksUriScheme (scheme : string).

Section contexts.
Context `{Sha2Crate} `{Base64Crate} `{UrlCrate} `{IpnetCrate} `{SerdeCrate}.

Record Discovery := { jwks_uri : Url }.

(** [fetch_discovery] in a release build: [https] is required of [jwks_uri]. *)
Definition fetch_discovery (http : Url -> HttpReply) (issuer : Url) :
    result DiscoveryFetchError Discovery :=
  let raw := trim_end_matches "/" (Url_as_str issuer) +:+ DISCOVERY_SUFFIX in
  let? discovery_url := Url_parse raw or! UrlBuild (Url_as_str issuer) in
  match http discovery_url with
  | SendFailed => Err DiscoveryHttp
  | Reply status body =>
      bail! DiscoveryBadStatus status when negb (status_is_success status) ;;
      let? bytes := body or! DiscoveryHttp in
      let? doc := discovery_from_slice bytes or! DiscoveryParse in
      let? uri := Url_parse doc or! JwksUriParse doc in
      bail! JwksUriScheme (Url_scheme uri) when negb (String.eqb (Url_scheme uri) "https") ;;
      Ok {| jwks_uri := uri |}
  end.

(** ** [auth/context.rs] *)

Record OidcContext := {
  tag : AudienceTag;
  ctx_issuer_url : Url;
  ctx_audience : string;
  jwks : Jwks;
  discovery : Discovery;
  auth_config : AuthConfig;
  last_on_demand_refresh : N;
  last_refresh_completed : N;
  other : option AudienceTag;
}.

Definition with_jwks (j : Jwks) (c : OidcContext) : OidcContext :=
  {| tag := tag c; ctx_issuer_url := ctx_issuer_url c; ctx_audience := ctx_audience c; jwks := j;
     discovery := discovery c; auth_config := auth_config c;
     last_on_demand_refresh := last_on_demand_refresh c;
     last_refresh_completed := last_refresh_completed c; other := other c |}.
Definition with_discovery (d : Discovery) (c : OidcContext) : OidcContext :=
  {| tag := tag c; ctx_issuer_url := ctx_issuer_url c; ctx_audience := ctx_audience c; jwks := jwks c;
     discovery := d; auth_config := auth_config c;
     last_on_demand_refresh := last_on_demand_refresh c;
     last_refresh_completed := last_refresh_completed c; other := other c |}.
Definition with_claimed (n : N) (c : OidcContext) : OidcContext :=
  {| tag := tag c; ctx_issuer_url := ctx_issuer_url c; ctx_audience := ctx_audience c; jwks := jwks c;
     discovery := discovery c; auth_config := auth_config c; last_on_demand_refresh := n;
     last_refresh_completed := last_refresh_completed c; other := other c |}.
Definition with_completed (n : N) (c : OidcContext) : OidcContext :=
  {| tag := tag c; ctx_issuer_url := ctx_issuer_url c; ctx_audience := ctx_audience c; jwks := jwks c;
     discovery := discovery c; auth_config := auth_config c;
     last_on_demand_refresh := last_on_demand_refresh c; last_refresh_completed := n;
     other := other c |}.
(** [other.set(..).expect(..)]: a second [set] panics. *)
Definition set_other (t : AudienceTag) (c : OidcContext) : outcome OidcContext :=
  match other c with
  | Some _ => Panic
  | None => Value {| tag := tag c; ctx_issuer_url := ctx_issuer_url c; ctx_audience := ctx_audience c;
      jwks := jwks c; discovery := discovery c; auth_config := auth_config c;
      last_on_demand_refresh := last_on_demand_refresh c;
      last_refresh_completed := last_refresh_completed c; other := Some t |}
  end.

(** The contexts that are alive, by audience. *)
Abbreviation contexts := (gmap AudienceTag OidcContext).

Record OverlapError := { context_with_extra_key : AudienceTag }.

Inductive ContextInitError : Type :=
  | DiscoveryFetch (audience : AudienceTag) (source : DiscoveryFetchError)
  | JwksFetch (audience : AudienceTag) (source : JwksFetchError)
  | EmptyJwks (audience : AudienceTag)
  | JwksOverlap (context_with_extra_key : AudienceTag).

Definition init_single_context (tag : AudienceTag) (oidc_cfg : OidcAudienceConfig)
    (auth_cfg : AuthConfig) (http : Url -> HttpReply) :
    outcome (result ContextInitError OidcContext) :=
  let?! discovery := Value (map_err (DiscoveryFetch tag) (fetch_discovery http (issuer_url oidc_cfg))) in
  let! fetched := fetch_jwks (http (jwks_uri discovery)) in
  let?! jwks := Value (map_err (fun source => match source with
                  | JwksEmpty => EmptyJwks tag
                  | _ => JwksFetch tag source
                  end) fetched) in
  Value (Ok {| tag := tag; ctx_issuer_url := issuer_url oidc_cfg; ctx_audience := audience oidc_cfg;
               jwks := jwks; discovery := discovery; auth_config := auth_cfg;
               last_on_demand_refresh := 0; last_refresh_completed := 0; other := None |}).

Definition check_disjoint_jwks (a b : Jwks) (b_tag : AudienceTag) : result OverlapError unit :=
  let a_thumbs := iter_thumbprints a in
  if existsb (fun tp => bool_decide (tp ∈ a_thumbs)) (iter_thumbprints b)
  then Err {| context_with_extra_key := b_tag |}
  else Ok ().

Definition init_contexts (cfg : ServerConfig) (http : Url -> HttpReply) :
    outcome (result ContextInitError contexts) :=
  let?! vault_ctx := init_single_context Vault (vault_oidc cfg) (auth cfg) http in
  let?! admin_ctx := init_single_context Admin (admin_oidc cfg) (auth cfg) http in
  let?! _u := Value (map_err (fun e => JwksOverlap (context_with_extra_key e))
                       (check_disjoint_jwks (jwks vault_ctx) (jwks admin_ctx) Admin)) in
  let! vault_ctx := set_other Admin vault_ctx in
  let! admin_ctx := set_other Vault admin_ctx in
  Value (Ok (<[Vault := vault_ctx]> (<[Admin := admin_ctx]> ∅))).

(** [self_ctx.other.get().and_then(|weak| weak.upgrade())]. *)
Definition upgrade_other (self_ctx : OidcContext) (w : contexts) : option OidcContext :=
  other self_ctx ≫= fun t => w !! t.

(** [install_refreshed_jwks]: the check against the other context's current
    keys, then the store.  The two are separate atomic operations; [Refresh]
    interleaves them. *)
Definition check_install (self_ctx : OidcContext) (new_jwks : Jwks) (w : contexts) :
    result OverlapError unit * list Event :=
  match upgrade_other self_ctx w with
  | None => (Err {| context_with_extra_key := tag self_ctx |}, [CrossReachFailed (tag_name (tag self_ctx))])
  | Some other_ctx =>
      match check_disjoint_jwks (jwks other_ctx) new_jwks (tag self_ctx) with
      | Err e => (Err e, [OverlapRejected (tag_name (tag self_ctx))])
      | Ok _ => (Ok (), [])
      end
  end.

Definition store_jwks (t : AudienceTag) (new_jwks : Jwks) (w : contexts) : contexts :=
  alter (with_jwks new_jwks) t w.

Definition install_refreshed_jwks (self_ctx : OidcContext) (new_jwks : Jwks) (w : contexts) :
    result OverlapError unit * contexts * list Event :=
  match check_install self_ctx new_jwks w with
  | (Ok _, log) => (Ok (), store_jwks (tag self_ctx) new_jwks w, log)
  | (Err e, log) => (Err e, w, log)
  end.

(** ** Disjointness *)

(** No key of one set shares its thumbprint with a key of the other. *)
Definition disjoint_jwks (a b : Jwks) : Prop :=
  forall k k', usable a k -> usable b k' -> thumbprint k <> thumbprint k'.

Definition thumbs_disjoint (a b : Jwks) : Prop :=
  forall tp, is_Some (by_thumbprint a !! tp) -> is_Some (by_thumbprint b !! tp) -> False.

Lemma elem_iter_thumbprints j tp : tp ∈ iter_thumbprints j <-> is_Some (by_thumbprint j !! tp).
Proof.
  unfold iter_thumbprints. rewrite list_elem_of_fmap. split.
  - intros ([tp' e] & -> & Hin). apply elem_of_map_to_list in Hin. by eexists.
  - intros [e He]. exists (tp, e). split; [done|]. by apply elem_of_map_to_list.
Qed.

Lemma check_disjoint_spec a b t :
  match check_disjoint_jwks a b t with
  | Ok _ => thumbs_disjoint a b
  | Err e => context_with_extra_key e = t
      /\ exists tp, is_Some (by_thumbprint a !! tp) /\ is_Some (by_thumbprint b !! tp)
  end.
Proof.
  unfold check_disjoint_jwks. destruct (existsb _ _) eqn:He.
  - split; [done|]. apply existsb_exists in He as (tp & Hin & Ha). bool_hyps. exists tp.
    split; apply elem_iter_thumbprints; [done|]. by apply list_elem_of_In.
  - intros tp Ha Hb. rewrite <- not_true_iff_false, existsb_exists in He. apply He. exists tp.
    split; [apply list_elem_of_In; by apply elem_iter_thumbprints|].
    apply bool_decide_eq_true. by apply elem_iter_thumbprints.
Qed.

Lemma thumbs_disjoint_usable a b :
  jwks_wf a -> jwks_wf b -> thumbs_disjoint a b -> disjoint_jwks a b.
Proof.
  intros Ha Hb Hd k k' Hk Hk' Heq.
  apply usable_wf in Hk as [_ Hi]; [|done]. apply usable_wf in Hk' as [_ Hi']; [|done].
  apply (Hd (thumbprint k)); [done|]. by rewrite Heq.
Qed.

Lemma thumbs_disjoint_sym a b : thumbs_disjoint a b -> thumbs_disjoint b a.
Proof. intros Hd tp Ha Hb. by apply (Hd tp). Qed.

(** Both contexts are alive, wired to each other, well-formed and disjoint. *)
Record contexts_ok (w : contexts) (v a : OidcContext) : Prop := {
  co_vault : w !! Vault = Some v;
  co_admin : w !! Admin = Some a;
  co_tags : tag v = Vault /\ tag a = Admin;
  co_other : other v = Some Admin /\ other a = Some Vault;
  co_wf : jwks_wf (jwks v) /\ jwks_wf (jwks a);
  co_disjoint : thumbs_disjoint (jwks v) (jwks a);
}.

Lemma init_single_context_Ok tg cfg au http c :
  init_single_context tg cfg au http = Value (Ok c) ->
  tag c = tg /\ other c = None /\ jwks_wf (jwks c) /\ (exists k, usable (jwks c) k)
  /\ ctx_issuer_url c = issuer_url cfg /\ ctx_audience c = audience cfg /\ auth_config c = au
  /\ fetch_discovery http (issuer_url cfg) = Ok (discovery c)
  /\ last_on_demand_refresh c = 0 /\ last_refresh_completed c = 0.
Proof.
  unfold init_single_context. intros (d & Hd & Hi)%try_bind_Ok.
  destruct (fetch_jwks (http (jwks_uri d))) as [f|] eqn:Hf; [|done]. cbn [out_bind] in Hi.
  apply try_bind_Ok in Hi as (j & Hj & Hi). simplify_eq. inv_out.
  match goal with Hx : fetch_jwks _ = Value (Ok j) |- _ => apply fetch_jwks_wf in Hx as [Hwf Hne] end.
  simpl. repeat (split; [done|]). done.
Qed.

Lemma init_contexts_ok cfg http w :
  init_contexts cfg http = Value (Ok w) ->
  exists v a, contexts_ok w v a
    /\ ctx_audience v = audience (vault_oidc cfg) /\ ctx_audience a = audience (admin_oidc cfg)
    /\ ctx_issuer_url v = issuer_url (vault_oidc cfg) /\ ctx_issuer_url a = issuer_url (admin_oidc cfg)
    /\ auth_config v = auth cfg /\ auth_config a = auth cfg.
Proof.
  unfold init_contexts. intros (v & Hv & Hi)%try_bind_Ok. apply try_bind_Ok in Hi as (a & Ha & Hi).
  apply try_bind_Ok in Hi as (u & Hu & Hi).
  apply init_single_context_Ok in Hv as (Htv & Hov & Hwv & _ & Hiv & Hav & Hcv & _).
  apply init_single_context_Ok in Ha as (Hta & Hoa & Hwa & _ & Hia & Haa & Hca & _).
  unfold set_other in Hi. rewrite Hov, Hoa in Hi. simpl in Hi. simplify_eq.
  pose proof (check_disjoint_spec (jwks v) (jwks a) Admin) as Hd.
  destruct (check_disjoint_jwks _ _ _); [|done].
  eexists _, _. split; [by split|]. repeat (split; [done|]). done.
Qed.

Lemma install_ok w v a self new_jwks r w' log :
  contexts_ok w v a -> self = v \/ self = a -> jwks_wf new_jwks ->
  install_refreshed_jwks self new_jwks w = (r, w', log) ->
  exists v' a', contexts_ok w' v' a'
    /\ match r with
       | Ok _ => w' = <[tag self := with_jwks new_jwks self]> w /\ log = []
       | Err e => w' = w /\ context_with_extra_key e = tag self /\ length log = 1%nat
       end.
Proof.
  intros [Hv Ha [Htv Hta] [Hov Hoa] [Hwv Hwa] Hd] Hself Hnew.
  unfold install_refreshed_jwks, check_install, upgrade_other.
  assert (exists o, (other self ≫= fun t => w !! t) = Some o /\ (o = v /\ self = a \/ o = a /\ self = v))
    as (o & -> & Ho).
  { destruct Hself as [-> | ->]; rewrite ?Hov, ?Hoa; simpl; eauto. }
  pose proof (check_disjoint_spec (jwks o) new_jwks (tag self)) as Hc.
  destruct (check_disjoint_jwks _ _ _) as [[]|e]; intros Hi; simplify_eq.
  - unfold store_jwks.
    assert (w !! tag self = Some self) as Hs by (destruct Hself as [-> | ->]; by rewrite ?Htv, ?Hta).
    assert (alter (with_jwks new_jwks) (tag self) w = <[tag self := with_jwks new_jwks self]> w) as ->.
    { apply map_eq. intros t. destruct (decide (t = tag self)) as [->|Hne].
      - by rewrite lookup_alter_eq, lookup_insert_eq, Hs.
      - by rewrite lookup_alter_ne, lookup_insert_ne. }
    destruct Ho as [[-> ->]|[-> ->]].
    + exists v, (with_jwks new_jwks a). rewrite Hta. split; [|done]. split; simpl; try done.
      * by rewrite lookup_insert_ne.
      * apply lookup_insert_eq.
    + exists (with_jwks new_jwks v), a. rewrite Htv. split; [|done]. split; simpl; try done.
      * apply lookup_insert_eq.
      * by rewrite lookup_insert_ne.
      * by apply thumbs_disjoint_sym.
  - exists v, a. split; [by split|]. split; [done|]. split; [|done]. apply Hc.
Qed.
End contexts.

Abbreviation contexts := (gmap AudienceTag OidcContext).
