(* ===== verification/Server.v ===== *)
(** * Server: the state all tasks share, and the atomic steps on it

    [app::AppState] and what hangs off it: the two contexts' caches and
    counters, the replay store, the storage backend, and the two outputs an
    observer sees, the log and the JWKS
    requests sent.  Each definition of the
    second half is one atomic access the code makes (an [ArcSwap] load or
    store, an atomic load, store or compare-exchange, a clock read, one
    HTTP exchange). *)

From S2P Require Import Prelude RustStd Crates Fs Jwks ServerConfig Replay Logging Context Async.

Section server.
Context `{Sha2Crate} `{Base64Crate} `{UrlCrate} `{IpnetCrate} `{SerdeCrate}.
Context {X : Type}.

Record server := {
  srv_contexts : contexts;
  srv_replay : JtiReplayStore;
  srv_storage : X;
  srv_log : list Event;
  srv_sent : list (AudienceTag * Url);
}.

(** What a step can read from outside: the two clocks, the network, and what
    the system decides about a call to the file system. *)
Record senv := {
  now_system : Z;
  now_instant : N;
  http : Url -> HttpReply;
  at_disk : Fs.env;
}.

Abbreviation task A := (async senv server A).

Definition set_contexts (f : contexts -> contexts) (s : server) : server :=
  {| srv_contexts := f (srv_contexts s); srv_replay := srv_replay s;
     srv_storage := srv_storage s; srv_log := srv_log s; srv_sent := srv_sent s |}.
Definition set_replay (r : JtiReplayStore) (s : server) : server :=
  {| srv_contexts := srv_contexts s; srv_replay := r;
     srv_storage := srv_storage s; srv_log := srv_log s; srv_sent := srv_sent s |}.
Definition set_storage (x : X) (s : server) : server :=
  {| srv_contexts := srv_contexts s; srv_replay := srv_replay s;
     srv_storage := x; srv_log := srv_log s; srv_sent := srv_sent s |}.
Definition log_events (es : list Event) (s : server) : server :=
  {| srv_contexts := srv_contexts s; srv_replay := srv_replay s;
     srv_storage := srv_storage s; srv_log := srv_log s ++ es; srv_sent := srv_sent s |}.
Definition log_sent (t : AudienceTag) (u : Url) (s : server) : server :=
  {| srv_contexts := srv_contexts s; srv_replay := srv_replay s;
     srv_storage := srv_storage s; srv_log := srv_log s; srv_sent := srv_sent s ++ [(t, u)] |}.

(** A context handle is an [OidcContext] whose immutable fields (tag, issuer,
    audience, settings, link to the other context) are read directly; its
    caches and counters are those of the shared state under its tag. *)
Definition live (ctx : OidcContext) (s : server) : OidcContext :=
  unwrap_or (srv_contexts s !! tag ctx) ctx.

Definition emit (e : Event) : task unit := atomic (fun _ s => Value ((), log_events [e] s)).

(** [ctx.field.load(..)], [ctx.field.store(..)]. *)
Definition load {T} (ctx : OidcContext) (field : OidcContext -> T) : task T :=
  atomic (fun _ s => Value (field (live ctx s), s)).
Definition store (ctx : OidcContext) (f : OidcContext -> OidcContext) : task unit :=
  atomic (fun _ s => Value ((), set_contexts (alter f (tag ctx)) s)).

(** [ctx.last_on_demand_refresh.compare_exchange(prev, new, ..).is_ok()]. *)
Definition compare_exchange (ctx : OidcContext) (prev new : N) : task bool :=
  atomic (fun _ s =>
    if last_on_demand_refresh (live ctx s) =? prev
    then Value (true, set_contexts (alter (with_claimed new) (tag ctx)) s)
    else Value (false, s)).

(** [SystemTime::now()] in seconds; [Instant::now()]. *)
Definition system_now : task N := atomic (fun e s => Value (unix_secs (now_system e), s)).
Definition instant_now : task N := atomic (fun e s => Value (now_instant e, s)).

(** A point at which the task waits and changes nothing itself. *)
Definition pause (max_secs : N) : task unit := atomic (fun _ s => Value ((), s)).

(** [fetch_jwks(&ctx.http_client, uri)]: one exchange; the parser may panic. *)
Definition fetch_jwks_step (ctx : OidcContext) (uri : Url) : task (result JwksFetchError Jwks) :=
  atomic (fun e s =>
    let! r := fetch_jwks (http e uri) in Value (r, log_sent (tag ctx) uri s)).

(** [fetch_discovery(&ctx.http_client, &ctx.issuer_url)]. *)
Definition fetch_discovery_step (ctx : OidcContext) : task (result DiscoveryFetchError Discovery) :=
  atomic (fun e s => Value (fetch_discovery (http e) (ctx_issuer_url ctx), s)).

(** [install_refreshed_jwks] as two steps: reading the other context's keys
    (with the check and its log line), and storing the new keys. *)
Definition install_step (ctx : OidcContext) (new_jwks : Jwks) : task (result OverlapError unit) :=
  let*? _u := atomic (fun _ s =>
    let '(r, log) := check_install ctx new_jwks (srv_contexts s) in
    Value (r, log_events log s)) in
  let* _u := store ctx (with_jwks new_jwks) in
  Done (Ok ()).

(** Alone, the two steps are [Context.install_refreshed_jwks]. *)
Lemma install_step_alone ctx new_jwks e s :
  exists o, block_on (install_step ctx new_jwks) (alone e) s
  = let '(r, w, log) := install_refreshed_jwks ctx new_jwks (srv_contexts s) in
    Value (r, set_contexts (fun _ => w) (log_events log s), o).
Proof.
  unfold install_step, install_refreshed_jwks. simpl.
  destruct (check_install _ _ _) as [[[]|e'] lg] eqn:Hc; simpl; eexists.
  - unfold check_install in Hc. destruct (upgrade_other _ _); [|done].
    destruct (check_disjoint_jwks _ _ _); [|done]. simplify_eq/=. reflexivity.
  - unfold set_contexts, log_events. destruct s. reflexivity.
Qed.
End server.

Arguments server {_} X.
Abbreviation task X A := (async senv (server X) A).
