(* ===== verification/Http.v ===== *)
(** * Http: requests, responses and authenticated subjects

    The parts of a request the server reads and of a response it sets, the
    request extensions its middleware inserts, [auth/subject.rs], and the data
    of [proxy_trust/resolve.rs].  A header map is a function from lower-case
    names to the first value, which is all [HeaderMap::get] shows; extensions
    are a record with one field per type stored. *)

From S2P Require Import Prelude RustStd Crates.

Inductive EffectiveScheme : Type := SchemeHttp | SchemeHttps.

Global Instance EffectiveScheme_eq_dec : EqDecision EffectiveScheme.
Proof. solve_decision. Defined.

Record EffectiveAddress := { addr : IpAddr; scheme : EffectiveScheme }.

(** [auth/subject.rs]: two wrappers around the private [Sub]. *)
Record Sub := Sub_new { sub_str : string }.
Record VaultSubject := { vault_sub : Sub }.
Record AdminSubject := { admin_sub : Sub }.
Definition VaultSubject_new (sub : string) : VaultSubject := {| vault_sub := Sub_new sub |}.
Definition AdminSubject_new (sub : string) : AdminSubject := {| admin_sub := Sub_new sub |}.
Definition VaultSubject_into_string (s : VaultSubject) : string := sub_str (vault_sub s).
Definition AdminSubject_into_string (s : AdminSubject) : string := sub_str (admin_sub s).

Record Extensions := {
  ext_connect_info : option SocketAddr;
  ext_effective : option EffectiveAddress;
  ext_vault : option VaultSubject;
  ext_admin : option AdminSubject;
}.
Definition no_extensions : Extensions :=
  {| ext_connect_info := None; ext_effective := None; ext_vault := None; ext_admin := None |}.

Section request.
Context `{HttpCrate}.

(** A method is its token.  [uri_authority] and [uri_path_and_query] are the
    parts of the request target; only a target in authority form ([CONNECT])
    has no path and query. *)
Record Request := {
  method : string;
  uri_authority : option string;
  uri_path_and_query : option string;
  headers : string -> option HeaderValue;
  extensions : Extensions;
  req_body : Body;
}.

Definition with_extensions (x : Extensions) (r : Request) : Request :=
  {| method := method r; uri_authority := uri_authority r;
     uri_path_and_query := uri_path_and_query r; headers := headers r; extensions := x;
     req_body := req_body r |}.

(** [request.extensions_mut().insert(..)]. *)
Definition insert_effective (e : EffectiveAddress) (r : Request) : Request :=
  with_extensions {| ext_connect_info := ext_connect_info (extensions r); ext_effective := Some e;
    ext_vault := ext_vault (extensions r); ext_admin := ext_admin (extensions r) |} r.
Definition insert_vault (s : VaultSubject) (r : Request) : Request :=
  with_extensions {| ext_connect_info := ext_connect_info (extensions r);
    ext_effective := ext_effective (extensions r); ext_vault := Some s;
    ext_admin := ext_admin (extensions r) |} r.
Definition insert_admin (s : AdminSubject) (r : Request) : Request :=
  with_extensions {| ext_connect_info := ext_connect_info (extensions r);
    ext_effective := ext_effective (extensions r); ext_vault := ext_vault (extensions r);
    ext_admin := Some s |} r.

(** [headers.get(name).and_then(|v| v.to_str().ok())]. *)
Definition header_str (name : string) (r : Request) : option string := headers r name ≫= hv_to_str.

(** [uri().path()]: the path, [/] when it is empty; a target in authority form
    has no path and query, and its path is the empty string. *)
Definition uri_path (r : Request) : string :=
  match uri_path_and_query r with
  | Some pq =>
      let p := match split_once "?" pq with Some (p, _) => p | None => pq end in
      if is_empty p then "/" else p
  | None => ""
  end.

(** [request.extensions().get::<EffectiveAddress>().map(|e| e.addr).unwrap_or(LOCALHOST)]. *)
Definition client_addr (r : Request) : IpAddr :=
  unwrap_or (addr <$> ext_effective (extensions r)) LOCALHOST.
End request.

Record Response := {
  status : N;
  resp_headers : list (string * string);
  resp_body : bytes;
}.

(** A response builder: status, headers in order, body. *)
Definition response (status : N) (headers : list (string * string)) (body : bytes) : Response :=
  {| status := status; resp_headers := headers; resp_body := body |}.

Global Instance Response_eq_dec : EqDecision Response.
Proof. solve_decision. Defined.

(** Extractors of the two subjects: the matching extension or the given
    rejection. *)
Definition extract_vault `{HttpCrate} (rejection : Response) (r : Request) : result Response VaultSubject :=
  ext_vault (extensions r) or! rejection.
Definition extract_admin `{HttpCrate} (rejection : Response) (r : Request) : result Response AdminSubject :=
  ext_admin (extensions r) or! rejection.
