(* ===== verification/ProxyTrust.v ===== *)
(** * ProxyTrust: the effective client address and scheme

    [proxy_trust/resolve.rs] and the middleware of [proxy_trust/mod.rs]. *)

From S2P Require Import Prelude RustStd Crates Fs Instances ServerConfig Http.

Section proxy.
Context `{UrlCrate} `{IpnetCrate} `{HttpCrate}.

Definition resolve_effective_address (peer_addr : IpAddr) (peer_scheme : EffectiveScheme)
    (trusted_proxies : list IpNet) (x_forwarded_for x_forwarded_proto : option string) :
    EffectiveAddress :=
  if bool_decide (trusted_proxies = []) then {| addr := peer_addr; scheme := peer_scheme |} else
  let peer_trusted := existsb (fun net => IpNet_contains net peer_addr) trusted_proxies in
  if negb peer_trusted then {| addr := peer_addr; scheme := peer_scheme |} else
  let addr := match x_forwarded_for with
    | Some s => unwrap_or (head (split "," s) ≫= fun s => parse_ip_addr (trim s)) peer_addr
    | None => peer_addr
    end in
  let scheme := match x_forwarded_proto with
    | Some s =>
        if eq_ignore_ascii_case s "https" then SchemeHttps
        else if eq_ignore_ascii_case s "http" then SchemeHttp
        else peer_scheme
    | None => peer_scheme
    end in
  {| addr := addr; scheme := scheme |}.

(** [middleware]: the request handed to the rest of the stack. *)
Definition proxy_middleware (config : ServerConfig) (request : Request) : Request :=
  let peer_addr := unwrap_or (sa_ip <$> ext_connect_info (extensions request)) LOCALHOST in
  let xff := header_str "x-forwarded-for" request in
  let xfp := header_str "x-forwarded-proto" request in
  let effective := resolve_effective_address peer_addr SchemeHttp (trusted_proxies config) xff xfp in
  insert_effective effective request.

Lemma trusted_nonempty nets peer :
  existsb (fun net => IpNet_contains net peer) nets = true -> nets <> [].
Proof. by destruct nets. Qed.

(** C29. Forwarded headers are trusted only from trusted peers, and only when
    they parse.  From any other peer (in particular with no proxy configured)
    the result is the peer itself, over its own scheme, whatever the headers
    say.  From a trusted peer the address is the leftmost entry of
    [X-Forwarded-For] if that entry, trimmed, is an IP address, and else the
    peer's; the scheme is the one [X-Forwarded-Proto] names in any case, and
    else the peer's. *)
Theorem proxy_trust_fail_closed peer psc nets xff xfp :
  (existsb (fun net => IpNet_contains net peer) nets = false ->
     resolve_effective_address peer psc nets xff xfp = {| addr := peer; scheme := psc |})
  /\ (existsb (fun net => IpNet_contains net peer) nets = true ->
     let r := resolve_effective_address peer psc nets xff xfp in
     (forall s first rest, xff = Some s -> split "," s = first :: rest ->
        addr r = match parse_ip_addr (trim first) with Some a => a | None => peer end)
     /\ (xff = None -> addr r = peer)
     /\ (forall s, xfp = Some s -> to_ascii_lowercase s = "https" -> scheme r = SchemeHttps)
     /\ (forall s, xfp = Some s -> to_ascii_lowercase s = "http" -> scheme r = SchemeHttp)
     /\ ((forall s, xfp = Some s -> to_ascii_lowercase s <> "https" /\ to_ascii_lowercase s <> "http") ->
        scheme r = psc)).
Proof.
  unfold resolve_effective_address. split.
  - intros ->. by case_bool_decide.
  - intros Ht. pose proof (trusted_nonempty _ _ Ht) as Hne. rewrite Ht, bool_decide_false by done.
    cbn [negb addr scheme]. cbv zeta. split; [|split; [by intros ->|]].
    { intros s first rest -> ->. simpl. by destruct (parse_ip_addr _). }
    assert (forall s t, to_ascii_lowercase t = t -> to_ascii_lowercase s = t -> eq_ignore_ascii_case s t = true)
      as Heq.
    { intros s t Htt Hst. apply eq_ignore_ascii_case_spec. by rewrite Htt. }
    split; [|split].
    + intros s -> Hs. by rewrite (Heq s "https").
    + intros s -> Hs. rewrite (Heq s "http") by done.
      destruct (eq_ignore_ascii_case s "https") eqn:He; [|done].
      apply eq_ignore_ascii_case_spec in He. rewrite Hs in He. discriminate He.
    + intros Hn. destruct xfp as [s|]; [|done]. destruct (Hn s eq_refl) as [N1 N2].
      destruct (eq_ignore_ascii_case s "https") eqn:He.
      { apply eq_ignore_ascii_case_spec in He. by destruct N1. }
      destruct (eq_ignore_ascii_case s "http") eqn:He'; [|done].
      apply eq_ignore_ascii_case_spec in He'. by destruct N2.
Qed.
End proxy.

Lemma proxy_trust_fail_closed_witness :
  resolve_effective_address (V4 203 0 113 9) SchemeHttp [V4 10 0 0 1] (Some "1.2.3.4") (Some "https")
    = {| addr := V4 203 0 113 9; scheme := SchemeHttp |}
  /\ addr (resolve_effective_address (V4 10 0 0 1) SchemeHttp [V4 10 0 0 1] (Some "1.2.3.4, 5.6.7.8") None)
     = V4 1 2 3 4.
Proof.
  split.
  - exact (proj1 (proxy_trust_fail_closed (V4 203 0 113 9) SchemeHttp [V4 10 0 0 1]
      (Some "1.2.3.4") (Some "https")) eq_refl).
  - exact (proj1 (proj2 (proxy_trust_fail_closed (V4 10 0 0 1) SchemeHttp [V4 10 0 0 1]
      (Some "1.2.3.4, 5.6.7.8") None) eq_refl) _ "1.2.3.4" [" 5.6.7.8"] eq_refl eq_refl).
Defined.
