(* ===== verification/Failure.v ===== *)
(** * Failure: authentication failures and their uniform responses

    [auth/failure.rs]. *)

From S2P Require Import Prelude RustStd Crates Crypto Logging Http.

(** A quote inside a Rust raw string. *)
Definition WWW_AUTHENTICATE_VALUE : string := "DPoP algs=" +:+ quoted "PS256 ES256".

Inductive AuthFailure : Type :=
  | MissingToken
  | MissingProof
  | InvalidAlg
  | TokenSignatureInvalid
  | TokenIssuerMismatch
  | TokenAudienceMismatch
  | TokenExpired
  | TokenNotYetValid
  | TokenMissingClaim (name : string)
  | ProofSignatureInvalid
  | ProofHtmMismatch
  | ProofHtuMismatch
  | ProofIatStale
  | ProofJktMismatch
  | ProofAthMismatch
  | ProofReplayed
  | ProofMissingClaim (name : string)
  | JwksRefreshFailed
  | MemoryPressure.

Global Instance AuthFailure_eq_dec : EqDecision AuthFailure.
Proof. solve_decision. Defined.

Definition category (f : AuthFailure) : string :=
  match f with
  | MissingToken => "auth.token.missing"
  | MissingProof => "auth.dpop.missing"
  | InvalidAlg => "auth.alg.disallowed"
  | TokenSignatureInvalid => "auth.token.bad_signature"
  | TokenIssuerMismatch => "auth.token.iss_mismatch"
  | TokenAudienceMismatch => "auth.token.aud_mismatch"
  | TokenExpired => "auth.token.expired"
  | TokenNotYetValid => "auth.token.nbf_future"
  | TokenMissingClaim _ => "auth.token.missing_claim"
  | ProofSignatureInvalid => "auth.dpop.bad_signature"
  | ProofHtmMismatch => "auth.dpop.htm_mismatch"
  | ProofHtuMismatch => "auth.dpop.htu_mismatch"
  | ProofIatStale => "auth.dpop.iat_stale"
  | ProofJktMismatch => "auth.dpop.jkt_mismatch"
  | ProofAthMismatch => "auth.dpop.ath_mismatch"
  | ProofReplayed => "auth.dpop.replayed"
  | ProofMissingClaim _ => "auth.dpop.missing_claim"
  | JwksRefreshFailed => "auth.jwks.refresh_failed"
  | MemoryPressure => "auth.replay.memory_pressure"
  end.

Definition respond_401 : Response :=
  response 401 [("www-authenticate", WWW_AUTHENTICATE_VALUE); ("content-length", "0")] [].

Definition respond_503_memory_pressure : Response :=
  response 503 [("content-length", "0")] [].

Definition log_failure (failure : AuthFailure) (effective_address : IpAddr) (audience : string) : Event :=
  AuthFailureEvent (category failure) audience effective_address.

(** The response a guard gives for a failure. *)
Definition respond_failure (failure : AuthFailure) : Response :=
  match failure with
  | MemoryPressure => respond_503_memory_pressure
  | _ => respond_401
  end.
