(* ===== verification/Fixtures.v ===== *)
(** * Fixtures: a concrete server for the witnesses

    Two contexts over the instances of [Instances.v], with one ES256 key each,
    and the environment of a given second in which every request is answered
    with a given document. *)

From S2P Require Import Prelude RustStd Crates Fs Instances Crypto Jwks ServerConfig Replay Logging.
From S2P Require Import Context Async Server.

Definition fx_url : toy_url :=
  {| u_scheme := "https"; u_host := "issuer.example"; u_port := None; u_path := "/";
     u_query := None; u_fragment := None |}.

Definition fx_jwk (kid : string) : Jwk :=
  {| kid := Some kid; alg := Es256;
     thumbprint := jwk_thumbprint (EcP256 (pad32 (as_bytes kid)) (pad32 (as_bytes "")));
     jwk := toy_key kid |}.

Definition fx_jwks (id : string) : Jwks :=
  {| by_kid := {[id := fx_jwk id]}; by_thumbprint := {[thumbprint (fx_jwk id) := fx_jwk id]};
     keyless := [] |}.

Definition fx_context (t : AudienceTag) (key : string) : OidcContext :=
  {| tag := t; ctx_issuer_url := fx_url; ctx_audience := tag_name t; jwks := fx_jwks key;
     discovery := {| jwks_uri := fx_url |}; auth_config := AuthConfig_default;
     last_on_demand_refresh := 0; last_refresh_completed := 0;
     other := Some (match t with Vault => Admin | Admin => Vault end) |}.

Definition fx_vault : OidcContext := fx_context Vault "v".
Definition fx_admin : OidcContext := fx_context Admin "a".

Definition fx_server : server unit :=
  {| srv_contexts := <[Vault := fx_vault]> {[Admin := fx_admin]};
     srv_replay := new AuthConfig_default; srv_storage := (); srv_log := []; srv_sent := [] |}.

Definition fx_env (secs : N) (document : string) : senv :=
  {| now_system := (Z.of_N secs * 1000000000)%Z; now_instant := duration_from_secs secs;
     http := fun _ => Reply 200 (Some (as_bytes document)); at_disk := env_ok "x" |}.

Lemma fx_jwks_wf id : jwks_wf (fx_jwks id).
Proof.
  assert (jwk_wf (fx_jwk id)) as Hk.
  { split; [by exists KA_ES256|]. split; [|done]. cbn [jwk fx_jwk compute_thumbprint toy_key algorithm].
    unfold toy_coordinate. change hex_encode with b64_encode. rewrite !b64_decode_encode. cbn [ok_or].
    cbn [mbind result_bind bail_if negb bool_decide].
    assert (forall m, bytes_len (pad32 m) = 32) as Hl.
    { intros m. unfold bytes_len, pad32. rewrite length_take, length_app, length_replicate. lia. }
    rewrite !Hl. reflexivity. }
  split; simpl; intros *; rewrite ?lookup_singleton_Some.
  - by intros [<- <-].
  - by intros ?%not_elem_of_nil.
  - by intros [<- <-].
  - intros [<- <-]. rewrite lookup_singleton_eq. eauto.
  - by intros ?%not_elem_of_nil.
Qed.

Lemma fx_contexts_ok : contexts_ok (srv_contexts fx_server) fx_vault fx_admin.
Proof.
  split; try done; [split; apply fx_jwks_wf|].
  intros tp Hv Ha. simpl in *. unfold thumbprint in *. simpl in *.
  apply lookup_singleton_is_Some in Hv, Ha. subst. vm_compute in Ha. congruence.
Qed.
