(* ===== verification/ContextSpec.v ===== *)
(** * ContextSpec: what key-set parsing, startup and installation guarantee *)

From S2P Require Import Prelude RustStd Crates Fs Instances Crypto Jwks ServerConfig Replay Logging.
From S2P Require Import Context Async Server Fixtures.

Section parsing.
Context `{Sha2Crate} `{Base64Crate}.

Definition allowlisted (raw_jwk : RawJwk) : bool :=
  match key_algorithm raw_jwk ≫= from_jwt_key_alg with Some _ => true | None => false end.

Definition symmetric (raw_jwk : RawJwk) : bool :=
  match algorithm raw_jwk with OctetKey _ | OctetKeyPair _ => true | _ => false end.

(** What a key set parsed so far owes to the keys read so far. *)
Record covers (raw : list RawJwk) (j : Jwks) : Prop := {
  cv_from : forall k, usable j k -> jwk k ∈ raw;
  cv_indexed : forall r, r ∈ raw -> allowlisted r = true ->
    exists tp, compute_thumbprint r = Value (Ok tp) /\ is_Some (by_thumbprint j !! tp);
}.

Lemma usable_empty k : ~ usable Jwks_empty k.
Proof. intros [[id Hk]|Hk]%usable_cases; simpl in Hk; [by rewrite lookup_empty in Hk|by apply not_elem_of_nil in Hk]. Qed.

Lemma parse_one_covers raw r j j' :
  covers raw j -> parse_one r j = Value (Ok j') -> covers (raw ++ [r]) j'.
Proof.
  intros [Hf Hi]. unfold parse_one.
  destruct (key_algorithm r ≫= from_jwt_key_alg) as [a|] eqn:Ha.
  - intros (tp & Htp & Hp)%try_bind_Ok.
    set (e := {| kid := key_id r; alg := a; thumbprint := tp; jwk := r |}) in *.
    assert (by_thumbprint j' = <[tp := e]> (by_thumbprint j)) as Hb.
    { by destruct (key_id r); simplify_eq. }
    assert (forall k, usable j' k -> k = e \/ usable j k) as Hu.
    { intros k [[id Hk]|Hk]%usable_cases; rewrite (usable_cases j); destruct (key_id r); simplify_eq/=.
      - rewrite lookup_insert in Hk. case_decide; simplify_eq; eauto.
      - eauto.
      - eauto.
      - apply elem_of_app in Hk as [Hk| ->%list_elem_of_singleton]; auto. }
    split.
    + intros k Hk. apply elem_of_app. destruct (Hu k Hk) as [-> |Hk']; [right; by left|left; auto].
    + intros r' [Hr| ->%list_elem_of_singleton]%elem_of_app Hal.
      * destruct (Hi r' Hr Hal) as (tp' & Htp' & His). exists tp'. split; [done|].
        rewrite Hb. by apply indexed_mono.
      * exists tp. split; [done|]. rewrite Hb, lookup_insert_eq. eauto.
  - intros [= <-]. split.
    + intros k Hk. apply elem_of_app. left. auto.
    + intros r' [Hr| ->%list_elem_of_singleton]%elem_of_app Hal; [by apply Hi|].
      unfold allowlisted in Hal. by rewrite Ha in Hal.
Qed.

Lemma parse_loop_covers done raw j j' :
  covers done j -> parse_loop raw j = Value (Ok j') -> covers (done ++ raw) j'.
Proof.
  revert done j. induction raw as [|r raw IH]; intros done j Hc; simpl.
  - intros [= <-]. by rewrite app_nil_r.
  - intros (j1 & Hp1 & Hp2)%try_bind_Ok. rewrite cons_middle, app_assoc.
    eapply IH; [|exact Hp2]. by eapply parse_one_covers.
Qed.

(** C33. A parsed key set enforces the FR-010a allowlist and hides no key.  It
    is not empty; each key that token verification can pick comes from the
    document, declares PS256 or ES256, and carries the RFC 7638 thumbprint of
    its own parameters; and every allowlisted key of the document is found
    under its thumbprint, so that the overlap checks see all of them. *)
Theorem parse_jwks_sound raw j :
  parse_jwks raw = Value (Ok j) ->
  (exists k, usable j k)
  /\ (forall k, usable j k -> jwk k ∈ raw
      /\ (exists a, key_algorithm (jwk k) = Some a /\ from_jwt_key_alg a = Some (alg k))
      /\ compute_thumbprint (jwk k) = Value (Ok (thumbprint k))
      /\ thumbprint k ∈ iter_thumbprints j)
  /\ (forall r, r ∈ raw -> allowlisted r = true ->
      exists tp, compute_thumbprint r = Value (Ok tp) /\ tp ∈ iter_thumbprints j).
Proof.
  intros Hp. destruct (parse_jwks_wf _ _ Hp) as [Hwf Hne].
  apply try_bind_Ok in Hp as (j0 & Hp & Hj). inv_out.
  assert (covers [] Jwks_empty) as Hc0.
  { split; [by intros k ?%usable_empty|by intros r ?%not_elem_of_nil]. }
  pose proof (parse_loop_covers _ _ _ _ Hc0 Hp) as [Hf Hi]. split; [done|]. split.
  - intros k Hk. destruct (usable_wf _ _ Hwf Hk) as [(Ha & Ht & _) Hx].
    repeat (split; [by auto|]). by apply elem_iter_thumbprints.
  - intros r Hr Hal. destruct (Hi r Hr Hal) as (tp & Htp & Hx). exists tp. split; [done|].
    by apply elem_iter_thumbprints.
Qed.

Lemma compute_thumbprint_Panic r : compute_thumbprint r = Panic <-> symmetric r = true.
Proof. unfold compute_thumbprint, symmetric. by destruct (algorithm r). Qed.

Lemma parse_one_Panic r j :
  parse_one r j = Panic <-> allowlisted r = true /\ symmetric r = true.
Proof.
  unfold parse_one, allowlisted. rewrite <- compute_thumbprint_Panic.
  destruct (key_algorithm r ≫= from_jwt_key_alg); [|naive_solver].
  destruct (compute_thumbprint r) as [[tp|e]|]; naive_solver.
Qed.

Lemma parse_loop_Panic raw j :
  parse_loop raw j = Panic <->
  exists pre r post j1, raw = pre ++ r :: post /\ parse_loop pre j = Value (Ok j1)
    /\ allowlisted r = true /\ symmetric r = true.
Proof.
  revert j. induction raw as [|r raw IH]; intros j; simpl.
  - split; [done|]. by intros ([|] & ? & ? & ? & ? & _).
  - destruct (parse_one r j) as [[j1|e]|] eqn:Hp; simpl.
    + rewrite IH. split.
      * intros (pre & r' & post & j2 & -> & Hl & Ha). exists (r :: pre), r', post, j2.
        split; [done|]. simpl. by rewrite Hp.
      * intros ([|x pre] & r' & post & j2 & Hx & Hl & Ha & Hs); simplify_eq/=.
        { by rewrite (proj2 (parse_one_Panic r' j2)) in Hp. }
        rewrite Hp in Hl. simpl in Hl. eauto 10.
    + split; [done|]. intros ([|x pre] & r' & post & j2 & Hx & Hl & Ha & Hs); simplify_eq/=.
      { by rewrite (proj2 (parse_one_Panic r' j2)) in Hp. }
      by rewrite Hp in Hl.
    + split; [|done]. intros _. apply parse_one_Panic in Hp. exists [], r, raw, j. done.
Qed.

(** Parsing panics exactly when it reaches a symmetric (or octet-pair) key
    that declares an allowlisted algorithm, all keys before it having been
    accepted or skipped: the [unreachable!] of [compute_thumbprint] is
    reachable from the document. *)
Theorem parse_jwks_panics raw :
  parse_jwks raw = Panic <->
  exists pre r post j, raw = pre ++ r :: post /\ parse_loop pre Jwks_empty = Value (Ok j)
    /\ allowlisted r = true /\ symmetric r = true.
Proof.
  rewrite <- parse_loop_Panic. unfold parse_jwks.
  destruct (parse_loop raw Jwks_empty) as [[j|e]|]; simpl; [|done..].
  split; [|done]. by destruct (Jwks_is_empty j).
Qed.
End parsing.

Section installing.
Context `{Sha2Crate} `{Base64Crate} `{UrlCrate} `{IpnetCrate} `{SerdeCrate}.

(** C23. Startup yields two separated contexts or an error.  When
    [init_contexts] succeeds both contexts are alive and linked to each other,
    carry their own configuration, hold well-formed key sets fetched through
    their own discovery documents, and no key that verifies tokens for one has
    the thumbprint of a key that does for the other. *)
Theorem startup_contexts_disjoint cfg http w :
  init_contexts cfg http = Value (Ok w) ->
  exists v a, contexts_ok w v a /\ disjoint_jwks (jwks v) (jwks a)
    /\ ctx_audience v = audience (vault_oidc cfg) /\ ctx_audience a = audience (admin_oidc cfg)
    /\ ctx_issuer_url v = issuer_url (vault_oidc cfg) /\ ctx_issuer_url a = issuer_url (admin_oidc cfg)
    /\ auth_config v = auth cfg /\ auth_config a = auth cfg.
Proof.
  intros (v & a & Hok & Hrest)%init_contexts_ok. exists v, a. split; [done|]. split; [|done].
  destruct Hok as [_ _ _ _ [Hv Ha] Hd]. by apply thumbs_disjoint_usable.
Qed.

(** Installing refreshed keys is all or nothing and fails closed.  From a
    good state, an install either replaces exactly the keys of its own context
    and leaves the two contexts disjoint, without logging, or changes nothing
    and logs one error; it is refused exactly when the new keys share a
    thumbprint with the other context, or the other context is gone. *)
Theorem install_keeps_disjoint w v a self new_jwks r w' log :
  contexts_ok w v a -> self = v \/ self = a -> jwks_wf new_jwks ->
  install_refreshed_jwks self new_jwks w = (r, w', log) ->
  (exists v' a', contexts_ok w' v' a' /\ disjoint_jwks (jwks v') (jwks a'))
  /\ match r with
     | Ok _ => w' = <[tag self := with_jwks new_jwks self]> w /\ log = []
     | Err e => w' = w /\ length log = 1%nat
     end
  /\ (forall t, install_refreshed_jwks self new_jwks (delete t w)
        = if decide (other self = Some t)
          then (Err {| context_with_extra_key := tag self |}, delete t w,
                [CrossReachFailed (tag_name (tag self))])
          else (r, match r with Ok _ => store_jwks (tag self) new_jwks (delete t w) | _ => delete t w end, log)).
Proof.
  intros Hok Hself Hj Hi. destruct (install_ok _ _ _ _ _ _ _ _ Hok Hself Hj Hi) as (v' & a' & Hok' & Hr).
  split; [|split].
  - exists v', a'. split; [done|]. destruct Hok' as [_ _ _ _ [Hv Ha] Hd]. by apply thumbs_disjoint_usable.
  - destruct r; [done|]. naive_solver.
  - intros t. unfold install_refreshed_jwks, check_install, upgrade_other in *.
    destruct Hok as [Hv Ha [Htv Hta] [Hov Hoa] _ _].
    assert (exists t', other self = Some t') as [t' Ht'] by (destruct Hself as [-> | ->]; eauto).
    rewrite Ht' in *. simpl in *. case_decide as Ht; simplify_eq.
    + by rewrite lookup_delete_eq.
    + rewrite lookup_delete_ne by congruence. destruct (w !! t') as [o|]; [|by simplify_eq].
      destruct (check_disjoint_jwks _ _ _); by simplify_eq.
Qed.
End installing.

(** ** Witnesses *)

Definition fx_raw : list RawJwk :=
  [toy_key "a"; {| key_algorithm := Some (KA_Other "RS256"); key_id := Some "b"; algorithm := OctetKey "" |}].

Lemma parse_jwks_sound_witness :
  exists j, parse_jwks fx_raw = Value (Ok j) /\ exists k, usable j k.
Proof.
  assert (accepts (parse_jwks fx_raw) = true) as Ha by (vm_compute; reflexivity).
  destruct (parse_jwks fx_raw) as [[j|]|] eqn:Hp; [|discriminate Ha..].
  exists j. split; [exact eq_refl|]. exact (proj1 (parse_jwks_sound fx_raw j Hp)).
Defined.

(** An oct key that declares ES256. *)
Lemma parse_jwks_panics_on_octet k :
  parse_jwks [{| key_algorithm := Some KA_ES256; key_id := None; algorithm := OctetKey k |}] = Panic.
Proof. reflexivity. Qed.

Definition fx_config : ServerConfig :=
  {| bind_address := {| sa_ip := LOCALHOST; sa_port := 8080; sa_scope_id := 0 |};
     block_size_bytes := 4096; storage_backend := NoBackend; trusted_proxies := [];
     vault_oidc := {| issuer_url := fx_url; audience := "vault" |};
     admin_oidc := {| issuer_url := {| u_scheme := "https"; u_host := "admin.example"; u_port := None;
        u_path := "/"; u_query := None; u_fragment := None |}; audience := "admin" |};
     drain_timeout := 30; auth := AuthConfig_default |}.

(** Each issuer's discovery document names a key endpoint on its own host. *)
Definition fx_http (u : toy_url) : HttpReply :=
  Reply 200 (Some (as_bytes (
    if String.eqb (u_path u) "/keys" then u_host u
    else "https://" +:+ u_host u +:+ "/keys"))).

Lemma startup_contexts_disjoint_witness :
  exists w v a, init_contexts fx_config fx_http = Value (Ok w) /\ contexts_ok w v a.
Proof.
  assert (accepts (init_contexts fx_config fx_http) = true) as Ha by (vm_compute; reflexivity).
  destruct (init_contexts fx_config fx_http) as [[w|]|] eqn:Hi; [|discriminate Ha..].
  destruct (startup_contexts_disjoint fx_config fx_http w Hi) as (v & a & Hok & _).
  exists w, v, a. exact (conj eq_refl Hok).
Defined.

Lemma install_keeps_disjoint_witness :
  exists v' a', contexts_ok (snd (fst (install_refreshed_jwks fx_vault (fx_jwks "n") (srv_contexts fx_server)))) v' a'.
Proof.
  destruct (install_refreshed_jwks fx_vault (fx_jwks "n") (srv_contexts fx_server)) as [[r w'] log] eqn:Hi.
  destruct (install_keeps_disjoint (srv_contexts fx_server) fx_vault fx_admin fx_vault (fx_jwks "n") r w' log
    fx_contexts_ok (or_introl eq_refl) (fx_jwks_wf "n") Hi) as [(v' & a' & Hok & _) _].
  exists v', a'. exact Hok.
Defined.
