(* ===== verification/Refresh.v ===== *)
(** * Refresh: scheduled and on-demand refresh of the caches

    The refresh half of [auth/jwks.rs] and the task of [auth/discovery.rs].
    Each function is a program of atomic steps ([Async]); the theorems hold
    whatever other tasks do between the steps, except where they say that
    nothing else runs. *)

From S2P Require Import Prelude RustStd Crates Tasks Jwks ServerConfig Replay Logging Context Async Server.

Section refresh.
Context `{Sha2Crate} `{Base64Crate} `{UrlCrate} `{IpnetCrate} `{SerdeCrate}.
Context {X : Type}.

Definition wait_for_completion (ctx : OidcContext) (prev wait_timeout : N) : task X bool :=
  let* completed := load ctx last_refresh_completed in
  if prev <=? completed then Done true else
  let* _u := pause wait_timeout in
  let* completed := load ctx last_refresh_completed in
  Done (prev <=? completed).

Definition on_demand_refresh (ctx : OidcContext) : task X bool :=
  let interval_secs := on_demand_refresh_min_interval_secs (auth_config ctx) in
  let wait_timeout := N.max (interval_secs / 2) 1 in
  let* now_secs := system_now in
  let* prev := load ctx last_on_demand_refresh in
  let cutoff := u64_saturating_add prev interval_secs in
  if now_secs <? cutoff then wait_for_completion ctx prev wait_timeout else
  let* claimed := compare_exchange ctx prev now_secs in
  if negb claimed then wait_for_completion ctx prev wait_timeout else
  let* jwks_uri := load ctx (fun c => jwks_uri (discovery c)) in
  let* fetched := fetch_jwks_step ctx jwks_uri in
  let* install_result :=
    match fetched with
    | Ok new_jwks => let* r := install_step ctx new_jwks in Done (is_ok r)
    | Err _ => let* _u := emit (JwksOnDemandRefreshFailed (tag_name (tag ctx))) in Done false
    end in
  let* _u := store ctx (with_completed now_secs) in
  Done install_result.

Definition do_scheduled_refresh (ctx : OidcContext) : task X unit :=
  let* jwks_uri := load ctx (fun c => jwks_uri (discovery c)) in
  let* fetched := fetch_jwks_step ctx jwks_uri in
  match fetched with
  | Ok new_jwks => let* _r := install_step ctx new_jwks in Done ()
  | Err _ => emit (JwksScheduledRefreshFailed (tag_name (tag ctx)))
  end.

(** The body of the tick in [discovery::scheduled_refresh_task]. *)
Definition do_discovery_refresh (ctx : OidcContext) : task X unit :=
  let* fetched := fetch_discovery_step ctx in
  match fetched with
  | Ok new_discovery => store ctx (with_discovery new_discovery)
  | Err _ => emit (DiscoveryRefreshFailed (tag_name (tag ctx)))
  end.

(** The two tasks: [Tasks.run_task] around the bodies, which run under the
    schedule of their tick. *)
Definition tick_body (body : task X unit) (o : N -> schedule senv (server X)) (now : N) (s : server X) :
    outcome (server X) :=
  match block_on body (o now) s with Value (_, s', _) => Value s' | Panic => Panic end.

Definition scheduled_refresh_task (ctx : OidcContext) (o : N -> schedule senv (server X))
    (shutdown : bool) (events : list TaskEvent) (s : server X) : task_status * server X :=
  run_task (tick_body (do_scheduled_refresh ctx) o) shutdown events s.

Definition discovery_refresh_task (ctx : OidcContext) (o : N -> schedule senv (server X))
    (shutdown : bool) (events : list TaskEvent) (s : server X) : task_status * server X :=
  run_task (tick_body (do_discovery_refresh ctx) o) shutdown events s.
End refresh.

(** Stated facts, not evaluation, are how clients reason about these. *)
#[global] Arguments wait_for_completion : simpl never.
#[global] Arguments on_demand_refresh : simpl never.
#[global] Arguments do_scheduled_refresh : simpl never.
#[global] Arguments do_discovery_refresh : simpl never.
