(* ===== verification/RefreshSpec.v ===== *)
(** * RefreshSpec: what the refreshes guarantee

    Rate limiting under any interleaving, the exact behaviour of a refresh on
    every branch, and the preservation of the contexts' invariant. *)

From S2P Require Import Prelude RustStd Crates Fs Instances Crypto Tasks Jwks ServerConfig Replay.
From S2P Require Import Logging Context Async Server Fixtures Refresh.

Section spec.
Context `{Sha2Crate} `{Base64Crate} `{UrlCrate} `{IpnetCrate} `{SerdeCrate}.
Context {X : Type}.
Implicit Types (s : server X) (t : AudienceTag) (ctx : OidcContext).

(** ** Rate limiting *)

(** The last claim on the refresh slot of a context, and the number of JWKS
    requests sent on its behalf. *)
Definition claimed_at t s : N :=
  match srv_contexts s !! t with Some c => last_on_demand_refresh c | None => 0 end.
Definition requests t s : nat := length (filter (fun x => fst x = t) (srv_sent s)).
Definition alive t s : Prop := is_Some (srv_contexts s !! t).

(** A change that leaves the context's slot and requests alone. *)
Definition untouched t s s' : Prop :=
  (alive t s -> alive t s') /\ claimed_at t s' = claimed_at t s /\ requests t s' = requests t s.

Definition clock_within (T : N) (e : senv) : Prop := unix_secs (now_system e) <= T.

(** [budget n p]: [p] has [n] claims it has not used for a request yet; a claim
    comes at least [interval] after the one before it, and every request uses
    up a claim. *)
Fixpoint budget t (interval T : N) (n : nat) {A} (p : task X A) : Prop :=
  match p with
  | Done _ => True
  | Atomic act k => forall e s r s', alive t s -> clock_within T e -> act e s = Value (r, s') ->
      exists n', alive t s' /\
        ((claimed_at t s' = claimed_at t s /\ requests t s' = requests t s /\ n' = n)
         \/ (claimed_at t s + interval <= claimed_at t s' <= T
             /\ requests t s' = requests t s /\ n' = S n)
         \/ (claimed_at t s' = claimed_at t s /\ requests t s' = S (requests t s) /\ n = S n'))
        /\ budget t interval T n' (k r)
  end.

Lemma budget_untouched t interval T n {A} (p : task X A) :
  every_step (untouched t) p -> budget t interval T n p.
Proof.
  induction p as [a|R act k IH]; [done|]. intros [Ha Hk] e s r s' Hs _ Hact.
  destruct (Ha e s r s' Hact) as (U1 & U2 & U3). exists n. split; [by auto|]. split; [by left|]. by apply IH.
Qed.

Lemma alter_claimed t f s :
  (forall c, last_on_demand_refresh (f c) = last_on_demand_refresh c) ->
  untouched t s (set_contexts (alter f t) s).
Proof.
  intros Hf. unfold untouched, alive, claimed_at, requests. simpl. rewrite lookup_alter_eq.
  destruct (srv_contexts s !! t); simpl; [|done]. rewrite Hf. split; [by intros; eexists|done].
Qed.

Lemma load_untouched t ctx {T} (f : OidcContext -> T) : every_step (untouched t) (load ctx f).
Proof. apply every_step_atomic. intros e s r s' Ha. by simplify_eq/=. Qed.

Lemma pause_untouched t n : every_step (untouched t) (pause n).
Proof. apply every_step_atomic. intros e s r s' Ha. by simplify_eq/=. Qed.

Lemma emit_untouched t ev : every_step (untouched t) (emit ev).
Proof. apply every_step_atomic. intros e s r s' Ha. by simplify_eq/=. Qed.

Lemma store_untouched ctx f :
  (forall c, last_on_demand_refresh (f c) = last_on_demand_refresh c) ->
  every_step (untouched (tag ctx)) (store ctx f).
Proof. intros Hf. apply every_step_atomic. intros e s r s' Ha. simplify_eq/=. by apply alter_claimed. Qed.

Lemma install_untouched ctx j : every_step (untouched (tag ctx)) (install_step ctx j).
Proof.
  apply every_step_try.
  - apply every_step_atomic. intros e s r s' Ha. destruct (check_install _ _ _). by simplify_eq/=.
  - intros _. apply every_step_await; [by apply store_untouched|done].
Qed.

Lemma wait_untouched t ctx prev w : every_step (untouched t) (wait_for_completion ctx prev w).
Proof.
  apply every_step_await; [apply load_untouched|]. intros c. case_match; [done|].
  apply every_step_await; [apply pause_untouched|]. intros _.
  by apply every_step_await; [apply load_untouched|].
Qed.

Lemma live_alive ctx s :
  alive (tag ctx) s -> claimed_at (tag ctx) s = last_on_demand_refresh (live ctx s).
Proof. unfold alive, claimed_at, live. by intros [c ->]. Qed.

#[local] Arguments budget : simpl never.
#[local] Arguments await {_ _ _ _} !p k /.

(** The winner's program after the claim: one request, then quiet steps. *)
Lemma winner_budget ctx interval T (k : result JwksFetchError Jwks -> task X bool) u :
  (forall f, every_step (untouched (tag ctx)) (k f)) ->
  budget (tag ctx) interval T 1 (let* fetched := fetch_jwks_step ctx u in k fetched).
Proof.
  intros Hk e s r s' Hs _ Ha. destruct (fetch_jwks _) as [f|] eqn:Hf; [|done]. simplify_eq/=.
  exists 0%nat. split; [done|]. split.
  - right. right. split; [done|]. split; [|done]. unfold requests. simpl.
    rewrite list.filter_app, length_app, filter_cons_True by done.
    simpl. lia.
  - by apply budget_untouched, Hk.
Qed.

Lemma winner_quiet ctx now (f : result JwksFetchError Jwks) :
  every_step (untouched (tag ctx))
    (let* install_result :=
      match f with
      | Ok new_jwks => let* r := install_step ctx new_jwks in Done (is_ok r)
      | Err _ => let* _u := emit (JwksOnDemandRefreshFailed (tag_name (tag ctx))) in Done false
      end in
     let* _u := store ctx (with_completed now) in
     Done install_result).
Proof.
  apply every_step_await.
  - destruct f as [j|?].
    + by apply every_step_await; [apply install_untouched|].
    + by apply every_step_await; [apply emit_untouched|].
  - intros b. by apply every_step_await; [apply store_untouched|].
Qed.

Lemma on_demand_budget ctx T :
  T < u64_max ->
  budget (tag ctx) (on_demand_refresh_min_interval_secs (auth_config ctx)) T 0
    (on_demand_refresh ctx).
Proof.
  intros HT. set (I := on_demand_refresh_min_interval_secs (auth_config ctx)).
  unfold on_demand_refresh. fold I. intros e s now s' Hs Hclk Ha. simplify_eq/=.
  exists 0%nat. split; [done|]. split; [by left|]. intros e2 s2 prev s2' Hs2 _ Ha. simplify_eq/=.
  exists 0%nat. split; [done|]. split; [by left|].
  destruct (N.ltb_spec (unix_secs (now_system e))
    (u64_saturating_add (last_on_demand_refresh (live ctx s2')) I)) as [|Hcut].
  { apply budget_untouched, wait_untouched. }
  intros e3 s3 c s3' Hs3 _ Ha.
  destruct (N.eqb_spec (last_on_demand_refresh (live ctx s3)) (last_on_demand_refresh (live ctx s2')))
    as [Heq|]; simplify_eq.
  2: { exists 0%nat. split; [done|]. split; [by left|]. cbn [negb]. apply budget_untouched, wait_untouched. }
  exists 1%nat. split; [|split].
  - unfold alive in *. simpl. rewrite lookup_alter_eq. destruct Hs3 as [c3 ->]. by eexists.
  - right. left. split; [|done]. rewrite (live_alive _ _ Hs3), Heq.
    unfold claimed_at. simpl. rewrite lookup_alter_eq. destruct Hs3 as [c3 ->]. simpl.
    unfold u64_saturating_add, clock_within in *. lia.
  - intros e4 s4 u s4' Hs4 _ Ha. simplify_eq/=. exists 1%nat. split; [done|]. split; [by left|].
    apply winner_budget. apply winner_quiet.
Qed.

(** ** Pools *)

Definition total (ns : list nat) : nat := foldr Nat.add 0%nat ns.

Lemma total_insert ns i n n' :
  ns !! i = Some n -> (total (<[i := n']> ns) + n = total ns + n')%nat.
Proof.
  revert i. induction ns as [|m ns IH]; intros [|i] Hi; simplify_eq/=; [lia|].
  specialize (IH i Hi). lia.
Qed.

Definition pool_inv t interval T s0 (c : pool (E := senv) (S := server X) bool) : Prop :=
  exists ns, Forall2 (fun n p => budget t interval T n p) ns (fst c) /\ alive t (snd c)
    /\ N.of_nat (requests t (snd c) + total ns) * interval + claimed_at t s0
       <= N.of_nat (requests t s0) * interval + claimed_at t (snd c)
    /\ claimed_at t (snd c) <= N.max (claimed_at t s0) T.

Lemma pool_inv_step t interval T s0 c c' :
  pool_inv t interval T s0 c -> pool_step (clock_within T) (untouched t) c c' ->
  pool_inv t interval T s0 c'.
Proof.
  intros (ns & Hns & Hal & Hle & Hmax) Hst. inversion Hst as [i e R act k ts s r s' Hi Hok Ha|ts s s' Ho]; subst.
  - simpl in *. destruct (Forall2_lookup_r _ _ _ _ _ Hns Hi) as (n & Hn & Hb).
    destruct (Hb e s r s' Hal Hok Ha) as (n' & Hal' & Hcase & Hb'). exists (<[i := n']> ns). simpl.
    split; [by apply Forall2_insert|]. split; [done|]. pose proof (total_insert ns i n n' Hn) as Ht.
    simpl in *. destruct Hcase as [(-> & -> & ->)|[(Hc & -> & ->)|(-> & -> & ->)]].
    + replace (total (<[i:=n]> ns)) with (total ns) by lia. done.
    + replace (requests t s + total (<[i:=S n]> ns))%nat with (S (requests t s + total ns)) by lia.
      split; [nia|lia].
    + split; [|done]. replace (S (requests t s) + total (<[i:=n']> ns))%nat with (requests t s + total ns)%nat by lia. done.
  - destruct Ho as (U1 & Hc & Hr). exists ns. simpl in *. rewrite Hc, Hr. auto.
Qed.

(** C25. On-demand refreshes are rate limited.  Let any number of calls of
    [on_demand_refresh] for one context run interleaved step by step in any
    order, with anything else happening in between that is not a refresh of
    that context.  The JWKS requests they send, times the configured interval,
    never exceed the time between the claim on record at the start and the
    latest claim; and no claim is later than the clock. *)
Theorem on_demand_rate_limited ctx T ts s ts' s' :
  T < u64_max -> alive (tag ctx) s -> Forall (fun p => p = on_demand_refresh ctx) ts ->
  rtc (pool_step (clock_within T) (untouched (tag ctx))) (ts, s) (ts', s') ->
  N.of_nat (requests (tag ctx) s') * on_demand_refresh_min_interval_secs (auth_config ctx)
    + claimed_at (tag ctx) s
  <= N.of_nat (requests (tag ctx) s) * on_demand_refresh_min_interval_secs (auth_config ctx)
    + claimed_at (tag ctx) s'
  /\ claimed_at (tag ctx) s' <= N.max (claimed_at (tag ctx) s) T.
Proof.
  intros HT Hal Hts Hrun. set (I := on_demand_refresh_min_interval_secs (auth_config ctx)).
  assert (pool_inv (tag ctx) I T s (ts, s)) as Hinv.
  { exists (replicate (length ts) 0%nat). split; [|split; [done|split; [|simpl; lia]]].
    - clear Hrun. induction Hts as [|p ts -> _ IH]; simpl; constructor; [by apply on_demand_budget|done].
    - simpl. assert (total (replicate (length ts) 0%nat) = 0%nat) as ->; [|lia].
      clear. induction ts as [|p ts IH]; [done|]. exact IH. }
  assert (pool_inv (tag ctx) I T s (ts', s')) as (ns & _ & _ & Hle & Hmax).
  { remember (ts, s) as c. remember (ts', s') as c'. clear Heqc Heqc'.
    induction Hrun; [done|]. eauto using pool_inv_step. }
  simpl in *. split; [nia|done].
Qed.

(** ** A refresh on its own, branch by branch *)

(** What one refresh does when nothing else runs, on every branch.  Inside
    the rate-limit window it sends nothing, changes nothing and reports whether
    the recorded refresh has completed.  Outside it claims the slot, sends one
    request to the cached [jwks_uri], installs the keys if they parse and share
    no thumbprint with the other context's, records the completion either way,
    and returns whether the keys were installed; a failed fetch leaves the
    cached keys in place.  It panics only if parsing the reply does. *)
Theorem on_demand_refresh_spec ctx e s c :
  srv_contexts s !! tag ctx = Some c ->
  let now := unix_secs (now_system e) in
  let uri := jwks_uri (discovery c) in
  let s1 := set_contexts (alter (with_claimed now) (tag ctx)) s in
  let s2 := log_sent (tag ctx) uri s1 in
  let done s := set_contexts (alter (with_completed now) (tag ctx)) s in
  let interval := on_demand_refresh_min_interval_secs (auth_config ctx) in
  if now <? u64_saturating_add (last_on_demand_refresh c) interval
  then returns (on_demand_refresh ctx) (alone e) s
         (last_on_demand_refresh c <=? last_refresh_completed c) s
  else match fetch_jwks (http e uri) with
  | Panic => block_on (on_demand_refresh ctx) (alone e) s = Panic
  | Value (Err _) => returns (on_demand_refresh ctx) (alone e) s false
        (done (log_events [JwksOnDemandRefreshFailed (tag_name (tag ctx))] s2))
  | Value (Ok new_jwks) =>
      let '(r, w, log) := install_refreshed_jwks ctx new_jwks (srv_contexts s2) in
      returns (on_demand_refresh ctx) (alone e) s (is_ok r)
        (done (set_contexts (fun _ => w) (log_events log s2)))
  end.
Proof.
  intros Hc. cbv zeta. unfold on_demand_refresh, wait_for_completion, returns.
  assert (live ctx s = c) as Hl by (unfold live; by rewrite Hc). simpl. unfold id. rewrite Hl.
  destruct (_ <? _).
  { simpl. unfold id. rewrite Hl. destruct (_ <=? _) eqn:Hle; simpl; unfold id; rewrite ?Hl, ?Hle; eauto. }
  simpl. unfold id. rewrite Hl, N.eqb_refl. simpl. unfold id.
  assert (jwks_uri (discovery (live ctx (set_contexts
    (alter (with_claimed (unix_secs (now_system e))) (tag ctx)) s))) = jwks_uri (discovery c)) as ->.
  { unfold live. simpl. by rewrite lookup_alter_eq, Hc. }
  destruct (fetch_jwks _) as [[j|err]|]; simpl; [|by eauto|done].
  unfold id. unfold install_refreshed_jwks. simpl.
  destruct (check_install _ _ _) as [[[]|err] lg]; simpl; by eexists.
Qed.

(** ** The contexts' invariant *)

(** What a refresh may do to a context's keys: nothing, or replace them by the
    set parsed from a reply. *)
Definition evolved (e : senv) (c c' : OidcContext) : Prop :=
  jwks c' = jwks c \/ exists u, fetch_jwks (http e u) = Value (Ok (jwks c')).

Lemma evolved_trans e c1 c2 c3 : evolved e c1 c2 -> evolved e c2 c3 -> evolved e c1 c3.
Proof. intros V1 [V2|V2]; [|by right]. destruct V1 as [V1|V1]; unfold evolved; rewrite V2; auto. Qed.

Definition keeps (e : senv) {A} (Q : A -> Prop) (p : task X A) : Prop :=
  forall s v a x s', contexts_ok (srv_contexts s) v a -> returns p (alone e) s x s' ->
    exists v' a', contexts_ok (srv_contexts s') v' a' /\ evolved e v v' /\ evolved e a a' /\ Q x.

Lemma keeps_await e {A B} (Q : A -> Prop) (R : B -> Prop) (p : task X A) (k : A -> task X B) :
  keeps e Q p -> (forall x, Q x -> keeps e R (k x)) -> keeps e R (await p k).
Proof.
  intros Hp Hk s v a x s' Hok [o' Hb]. apply block_on_await_inv in Hb as (y & s1 & o1 & Hb1 & Hb2).
  pose proof (block_on_alone _ _ _ _ _ _ Hb1) as ->.
  destruct (Hp s v a y s1 Hok) as (v1 & a1 & Hok1 & Hv1 & Ha1 & HQ); [by eexists|].
  destruct (Hk y HQ s1 v1 a1 x s' Hok1) as (v2 & a2 & Hok2 & Hv2 & Ha2 & HR); [by eexists|].
  exists v2, a2. split; [done|]. split; [by eapply evolved_trans|].
  split; [by eapply evolved_trans|done].
Qed.

Lemma keeps_Done e {A} (Q : A -> Prop) (x : A) : Q x -> keeps e Q (Done x).
Proof. intros HQ s v a y s' Hok [o' Hb]. simplify_eq/=. exists v, a. unfold evolved. auto. Qed.

(** A step that leaves the contexts alone. *)
Lemma keeps_quiet e {A} (Q : A -> Prop) (act : senv -> server X -> outcome (A * server X)) :
  (forall s r s', act e s = Value (r, s') -> srv_contexts s' = srv_contexts s /\ Q r) ->
  keeps e Q (atomic act).
Proof.
  intros Hact s v a x s' Hok [o' Hb]. apply block_on_atomic in Hb as [Hb _].
  destruct (Hact s x s' Hb) as [-> HQ]. exists v, a. unfold evolved. auto.
Qed.

Definition handle ctx : Prop :=
  other ctx = Some (match tag ctx with Vault => Admin | Admin => Vault end).

Lemma keeps_store e ctx f :
  (forall c, tag (f c) = tag c /\ other (f c) = other c /\ jwks (f c) = jwks c) ->
  keeps e (fun _ => True) (store ctx f).
Proof.
  intros Hf s v a x s' [Hv Ha [Htv Hta] [Hov Hoa] Hwf Hd] [o' Hb].
  apply block_on_atomic in Hb as [Hb _]. simplify_eq/=. unfold id.
  destruct (Hf v) as (F1 & F2 & F3), (Hf a) as (F4 & F5 & F6). destruct (tag ctx).
  - exists (f v), a. split; [|by unfold evolved; auto]. split; rewrite ?F1, ?F2, ?F3; try done.
    + by rewrite lookup_alter_eq, Hv.
    + by rewrite lookup_alter_ne.
  - exists v, (f a). split; [|by unfold evolved; auto]. split; rewrite ?F4, ?F5, ?F6; try done.
    + by rewrite lookup_alter_ne.
    + by rewrite lookup_alter_eq, Ha.
Qed.

Definition fetched (e : senv) (r : result JwksFetchError Jwks) : Prop :=
  match r with Ok j => exists u, fetch_jwks (http e u) = Value (Ok j) | Err _ => True end.

Lemma keeps_fetch e ctx u : keeps e (fetched e) (fetch_jwks_step ctx u).
Proof.
  apply keeps_quiet. intros s r s' Ha. destruct (fetch_jwks _) as [f|] eqn:Hf; [|done].
  simplify_eq/=. split; [done|]. destruct r; [|done]. by exists u.
Qed.

Lemma install_refreshed_jwks_handle ctx c j w :
  tag ctx = tag c -> other ctx = other c -> install_refreshed_jwks ctx j w = install_refreshed_jwks c j w.
Proof. intros E1 E2. unfold install_refreshed_jwks, check_install, upgrade_other. by rewrite E1, E2. Qed.

Lemma keeps_install e ctx j :
  handle ctx -> fetched e (Ok j) -> keeps e (fun _ => True) (install_step ctx j).
Proof.
  intros Hh [u Hu] s v a x s' Hok [o' Hb].
  destruct (install_step_alone ctx j e s) as [o1 Hi]. rewrite Hb in Hi.
  destruct (install_refreshed_jwks ctx j _) as [[r w] lg] eqn:Hins. simplify_eq/=.
  assert (exists self, (self = v \/ self = a) /\ tag ctx = tag self /\ other ctx = other self)
    as (self & Hself & Ht & Ho).
  { destruct Hok as [_ _ [Htv Hta] [Hov Hoa] _ _]. unfold handle in Hh. destruct (tag ctx) eqn:Htc.
    - exists v. split; [by left|]. by rewrite Htv, Hov, Hh.
    - exists a. split; [by right|]. by rewrite Hta, Hoa, Hh. }
  rewrite (install_refreshed_jwks_handle ctx self) in Hins by done.
  pose proof (fetch_jwks_wf _ _ Hu) as [Hwf _].
  destruct (install_ok _ _ _ _ _ _ _ _ Hok Hself Hwf Hins) as (v' & a' & Hok' & Hr).
  exists v', a'. split; [done|]. pose proof Hok as [Hv Ha [Htv Hta] _ _ _].
  pose proof Hok' as [Hv' Ha' _ _ _ _]. destruct r as [[]|er].
  - destruct Hr as [-> _]. destruct Hself as [-> | ->]; rewrite ?Htv, ?Hta in *.
    + rewrite lookup_insert_eq in Hv'. rewrite lookup_insert_ne in Ha' by done. simplify_eq.
      split; [right; by exists u|]. split; [by left|done].
    + rewrite lookup_insert_eq in Ha'. rewrite lookup_insert_ne in Hv' by done. simplify_eq.
      split; [by left|]. split; [right; by exists u|done].
  - destruct Hr as (-> & _ & _). simplify_eq. unfold evolved. auto.
Qed.

Lemma keeps_emit e ev : keeps e (fun _ => True) (emit ev).
Proof. apply keeps_quiet. intros s r s' Ha. by simplify_eq/=. Qed.

Lemma keeps_load e ctx {T} (f : OidcContext -> T) : keeps e (fun _ => True) (load ctx f).
Proof. apply keeps_quiet. intros s r s' Ha. by simplify_eq/=. Qed.

Lemma keeps_wait e ctx prev w : keeps e (fun _ => True) (wait_for_completion ctx prev w).
Proof.
  eapply keeps_await; [apply keeps_load|]. intros c _. case_match; [by apply keeps_Done|].
  eapply (keeps_await _ (fun _ => True)); [|intros _ _; eapply keeps_await; [apply keeps_load|]].
  - apply keeps_quiet. intros s r s' Ha. by simplify_eq/=.
  - intros. by apply keeps_Done.
Qed.

Lemma keeps_compare_exchange e ctx p n : keeps e (fun _ => True) (compare_exchange ctx p n).
Proof.
  intros s v a x s' Hok [o' Hb]. apply block_on_atomic in Hb as [Hb _].
  destruct (_ =? _); simplify_eq/=; unfold id; [|exists v, a; unfold evolved; auto].
  assert (keeps e (fun _ => True) (store ctx (with_claimed n))) as Hk by by apply keeps_store.
  destruct (Hk s v a () (set_contexts (alter (with_claimed n) (tag ctx)) s) Hok)
    as (v' & a' & ? & ? & ? & _); [by eexists|]. by exists v', a'.
Qed.

#[local] Hint Resolve keeps_emit keeps_load keeps_wait keeps_compare_exchange keeps_fetch
  keeps_Done keeps_install : async.

Lemma keeps_on_demand e ctx : handle ctx -> keeps e (fun _ => True) (on_demand_refresh ctx).
Proof.
  intros Hh. eapply (keeps_await _ (fun _ => True)).
  { apply keeps_quiet. intros s r s' Ha. by simplify_eq/=. }
  intros now _. eapply keeps_await; [apply keeps_load|]. intros prev _. cbv zeta.
  destruct (_ <? _); [apply keeps_wait|].
  eapply keeps_await; [apply keeps_compare_exchange|]. intros [] _; [|apply keeps_wait]. cbn [negb].
  eapply keeps_await; [apply keeps_load|]. intros uri _. eapply keeps_await; [apply keeps_fetch|].
  intros f Hf. eapply (keeps_await _ (fun _ => True)).
  - destruct f as [j|err]; [eapply keeps_await; [by apply keeps_install|]|
      eapply keeps_await; [apply keeps_emit|]]; auto with async.
  - intros b _. eapply (keeps_await _ (fun _ => True)); [by apply keeps_store|auto with async].
Qed.

Lemma keeps_scheduled e ctx : handle ctx -> keeps e (fun _ => True) (do_scheduled_refresh ctx).
Proof.
  intros Hh. eapply keeps_await; [apply keeps_load|]. intros u _.
  eapply keeps_await; [apply keeps_fetch|]. intros [j|] Hf; [|apply keeps_emit].
  eapply keeps_await; [by apply keeps_install|auto with async].
Qed.

Lemma keeps_discovery e ctx : keeps e (fun _ => True) (do_discovery_refresh ctx).
Proof.
  eapply (keeps_await _ (fun _ => True)).
  { apply keeps_quiet. intros s r s' Ha. by simplify_eq/=. }
  intros [d|] _; [by apply keeps_store|apply keeps_emit].
Qed.

Lemma task_loop_keeps (body : task X unit) o events s v a st s' :
  (forall e, keeps e (fun _ => True) body) -> (forall n, exists e, o n = alone e) ->
  contexts_ok (srv_contexts s) v a -> task_loop (tick_body body o) events s = (st, s') ->
  exists v' a', contexts_ok (srv_contexts s') v' a'.
Proof.
  intros Hk Ho. revert s v a. induction events as [|[now|[]|] events IH]; intros s v a Hok Hr;
    simplify_eq/=; eauto.
  destruct (tick_body body o now s) as [s1|] eqn:Ht; simplify_eq; [|eauto].
  unfold tick_body in Ht. destruct (Ho now) as [e He]. rewrite He in Ht.
  destruct (block_on body (alone e) s) as [[[x s2] o2]|] eqn:Hb; simplify_eq.
  destruct (Hk e s v a x s1 Hok) as (v1 & a1 & Hok1 & _); [by eexists|]. eauto.
Qed.

(** C24. Refreshes that run one at a time keep the two contexts alive, linked
    and disjoint: from a good state, an on-demand refresh, and the scheduled
    JWKS and discovery tasks over any sequence of ticks and shutdown signals
    (ended, still running or killed by a panic), lead to a good state; and an
    on-demand refresh changes a context's keys only to a set it fetched and
    parsed. *)
Theorem refreshes_keep_contexts ctx o shutdown events s v a :
  handle ctx -> (forall n, exists e, o n = alone e) -> contexts_ok (srv_contexts s) v a ->
  (forall e r s', returns (on_demand_refresh ctx) (alone e) s r s' ->
     exists v' a', contexts_ok (srv_contexts s') v' a' /\ evolved e v v' /\ evolved e a a')
  /\ (exists v' a', contexts_ok
        (srv_contexts (snd (scheduled_refresh_task ctx o shutdown events s))) v' a')
  /\ (exists v' a', contexts_ok
        (srv_contexts (snd (discovery_refresh_task ctx o shutdown events s))) v' a').
Proof.
  intros Hh Ho Hok. split.
  { intros e r s' Hr. destruct (keeps_on_demand e ctx Hh s v a r s' Hok Hr) as (v' & a' & ? & ? & ? & _). eauto. }
  unfold scheduled_refresh_task, discovery_refresh_task, run_task.
  assert (exists v' a', contexts_ok (srv_contexts s) v' a') as Hst by eauto.
  destruct shutdown; [by split|]. destruct events as [|[now|b|] evs]; [by split| |by split..].
  split.
  - destruct (task_loop (tick_body (do_scheduled_refresh ctx) o) evs s) eqn:Hr.
    eapply task_loop_keeps; [|done..]. intros e. by apply keeps_scheduled.
  - destruct (task_loop (tick_body (do_discovery_refresh ctx) o) evs s) eqn:Hr.
    eapply task_loop_keeps; [|done..]. intros e. apply keeps_discovery.
Qed.
End spec.

(** ** Witnesses *)

(** Three calls at second 100: the first wins and installs the keys. *)
Definition fx_calls : pool (E := senv) (S := server unit) bool :=
  (replicate 3 (on_demand_refresh fx_vault), fx_server).
Definition fx_order (order : list nat) (document : string) : list (nat * senv) :=
  (fun i => (i, fx_env 100 document)) <$> order.

Lemma fx_order_within order document : Forall (fun x => clock_within 100 (snd x)) (fx_order order document).
Proof.
  unfold fx_order. apply list.Forall_fmap, list.Forall_true. intros i.
  change (100 <= 100). lia.
Qed.

Definition fx_rate_run : option (pool (E := senv) (S := server unit) bool) :=
  run_pool (fx_order [0; 1; 0; 1; 2; 0; 1; 0; 0; 0; 0; 0; 2; 2]%nat "n") fx_calls.

Lemma on_demand_rate_limited_witness :
  exists ts' s', fx_rate_run = Some (ts', s') /\ requests Vault s' = 1%nat /\ claimed_at Vault s' = 100
  /\ N.of_nat (requests Vault s') * 30 + 0 <= claimed_at Vault s'.
Proof.
  assert ((fun c => (requests Vault (snd c), claimed_at Vault (snd c))) <$> fx_rate_run
          = Some (1%nat, 100)) as Hobs by (vm_compute; reflexivity).
  destruct fx_rate_run as [[ts' s']|] eqn:Hrun; [|discriminate Hobs].
  injection Hobs as Hr Hc. exists ts', s'. split; [reflexivity|]. split; [exact Hr|].
  split; [exact Hc|].
  destruct (on_demand_rate_limited (X := unit) fx_vault 100 (fst fx_calls) fx_server ts' s') as [Hle _].
  - vm_compute. reflexivity.
  - by eexists.
  - repeat constructor.
  - eapply run_pool_sound; [apply fx_order_within|exact Hrun].
  - assert (claimed_at Vault fx_server = 0) as H0 by reflexivity.
    assert (requests Vault fx_server = 0%nat) as H0' by reflexivity.
    change (tag fx_vault) with Vault in Hle. rewrite H0, H0' in Hle.
    change (on_demand_refresh_min_interval_secs (auth_config fx_vault)) with 30 in Hle. lia.
Defined.

Lemma on_demand_refresh_spec_witness :
  exists s', returns (on_demand_refresh fx_vault) (alone (fx_env 100 "n")) fx_server true s'.
Proof.
  pose proof (on_demand_refresh_spec fx_vault (fx_env 100 "n") fx_server fx_vault eq_refl) as Hspec.
  cbv zeta in Hspec.
  change (jwks_uri (discovery fx_vault)) with fx_url in Hspec. change (tag fx_vault) with Vault in Hspec.
  change (unix_secs (now_system (fx_env 100 "n"))) with 100 in Hspec.
  destruct (100 <? _) eqn:Hlt; [by vm_compute in Hlt|].
  destruct (fetch_jwks _) as [[j|err]|] eqn:Hf.
  - destruct (install_refreshed_jwks _ _ _) as [[r w] lg] eqn:Hi.
    assert (is_ok r = true) as Hr; [|rewrite Hr in Hspec; by eexists].
    assert ((fun j => is_ok (fst (fst (install_refreshed_jwks fx_vault j
       (srv_contexts (log_sent Vault fx_url (set_contexts (alter (with_claimed 100) Vault) fx_server)))))))
       <$> (match fetch_jwks (http (fx_env 100 "n") fx_url) with Value (Ok j) => Some j | _ => None end)
       = Some true) as Hall by (vm_compute; reflexivity).
    rewrite Hf in Hall. cbn [fmap option_fmap option_map] in Hall. rewrite Hi in Hall.
    injection Hall as Hall. exact Hall.
  - exfalso. assert (accepts (fetch_jwks (http (fx_env 100 "n") fx_url)) = true) as Ha
      by (vm_compute; reflexivity).
    by rewrite Hf in Ha.
  - exfalso. assert (accepts (fetch_jwks (http (fx_env 100 "n") fx_url)) = true) as Ha
      by (vm_compute; reflexivity).
    by rewrite Hf in Ha.
Defined.

Lemma refreshes_keep_contexts_witness :
  exists v' a', contexts_ok (srv_contexts (snd (scheduled_refresh_task fx_vault
    (fun n => alone (fx_env n "n")) false [TickAt 0; TickAt 100; ShutdownChanged true] fx_server))) v' a'.
Proof.
  refine (proj1 (proj2 (refreshes_keep_contexts fx_vault (fun n => alone (fx_env n "n")) false
    [TickAt 0; TickAt 100; ShutdownChanged true] fx_server fx_vault fx_admin _ _ _))).
  - exact eq_refl.
  - exact (fun n => ex_intro _ (fx_env n "n") eq_refl).
  - exact fx_contexts_ok.
Defined.

(** ** What interleaving allows *)

(** Both contexts install one key set that contains the same key: each check
    reads the other context before either stores. *)
Definition install_race_run :=
  run_pool (fx_order [0; 1; 0; 1]%nat "n")
    ([install_step fx_vault (fx_jwks "n"); install_step fx_admin (fx_jwks "n")], fx_server).

Definition keys_of (t : AudienceTag) (s : server unit) : list bytes :=
  match srv_contexts s !! t with Some c => iter_thumbprints (jwks c) | None => [] end.

Lemma install_race_breaks_disjointness :
  exists ts s' tp, install_race_run = Some (ts, s') /\ tp ∈ keys_of Vault s' /\ tp ∈ keys_of Admin s'.
Proof.
  set (tp := thumbprint (fx_jwk "n")).
  assert ((fun c => (keys_of Vault (snd c), keys_of Admin (snd c))) <$> install_race_run
          = Some ([tp], [tp])) as Hobs by (vm_compute; reflexivity).
  destruct install_race_run as [[ts s']|]; [|discriminate Hobs].
  injection Hobs as Hv Ha. exists ts, s', tp. split; [done|]. rewrite Hv, Ha.
  split; by apply list_elem_of_singleton.
Qed.

(** Two calls read the slot; the one that loses the claim returns [true] while
    the winner's request has not been sent. *)
Definition cas_loser_run :=
  run_pool (fx_order [0; 0; 1; 1; 0; 1; 1]%nat "n")
    (replicate 2 (on_demand_refresh fx_vault), fx_server).

Lemma cas_loser_returns_early :
  exists ts s', cas_loser_run = Some (ts, s') /\ ts !! 1%nat = Some (Done true)
    /\ requests Vault s' = 0%nat /\ srv_log s' = [].
Proof.
  assert ((fun c => (match fst c !! 1%nat with Some (Done b) => b | _ => false end,
     requests Vault (snd c), length (srv_log (snd c)))) <$> cas_loser_run = Some (true, 0%nat, 0%nat))
    as Hobs by (vm_compute; reflexivity).
  destruct cas_loser_run as [[ts s']|]; [|discriminate Hobs]. injection Hobs as Hb Hr Hl.
  exists ts, s'. split; [done|]. simpl in *. apply List.length_zero_iff_nil in Hl.
  destruct (ts !! 1%nat) as [[[]|]|]; try discriminate Hb. auto.
Qed.
