(* ===== verification/Token.v ===== *)
(** * Token: access-token validation

    [auth/token.rs].  [decode] of [jsonwebtoken] is the parameter [jwt_decode]:
    the claims of a token whose signature verifies under a key. *)

From S2P Require Import Prelude RustStd Crates Crypto Jwks ServerConfig Replay Logging Context.
From S2P Require Import Async Server Http Failure Refresh.

Record AccessToken := {
  sub : string;
  aud : string;
  iss : string;
  exp : N;
  iat : N;
  nbf : option N;
  cnf_jkt : bytes;
}.

Inductive AudienceField : Type :=
  | Single (s : string)
  | Multiple (l : list string).

Record CnfClaim := { cc_jkt : option string }.

Record TokenClaims := {
  tc_sub : option string;
  tc_aud : option AudienceField;
  tc_iss : option string;
  tc_exp : option N;
  tc_iat : option N;
  tc_nbf : option N;
  tc_cnf : option CnfClaim;
}.

(** [match header.alg]: the two accepted algorithms. *)
Definition header_jws_alg (a : Algorithm) : option JwsAlg :=
  match a with PS256 => Some Ps256 | ES256 => Some Es256 | AlgOther _ => None end.

Definition map_jwt_error (err : option JwtErrorKind) : AuthFailure :=
  match err with
  | None => TokenSignatureInvalid
  | Some ExpiredSignature => TokenExpired
  | Some ImmatureSignature => TokenNotYetValid
  | Some InvalidIssuer => TokenIssuerMismatch
  | Some InvalidAudience => TokenAudienceMismatch
  | Some InvalidAlgorithm | Some InvalidAlgorithmName | Some InvalidKeyFormat => InvalidAlg
  | Some OtherJwtError => TokenSignatureInvalid
  end.

Section token.
Context `{Sha2Crate} `{Base64Crate} `{SubtleCrate} `{UrlCrate} `{IpnetCrate} `{SerdeCrate}.
Context `{JwtCrate} `{!JwtDecode TokenClaims}.
Context {X : Type}.

Definition token_validation (alg : JwsAlg) (ctx : OidcContext) : Validation :=
  {| v_algorithm := to_jwt_algorithm alg; v_validate_aud := false; v_validate_exp := false;
     v_validate_nbf := false; v_leeway := Some (clock_skew_secs (auth_config ctx));
     v_required_spec_claims := []; v_audience := [] |}.

(** The loop over the candidates; [last_err] is the last decode error seen. *)
Fixpoint decode_candidates (raw_jws : string) (validation : Validation) (candidates : list Jwk)
    (last_err : option JwtErrorKind) : result AuthFailure TokenClaims :=
  match candidates with
  | [] => Err (map_jwt_error last_err)
  | candidate :: candidates =>
      match DecodingKey_from_jwk (jwk candidate) with
      | None => decode_candidates raw_jws validation candidates last_err
      | Some decoding_key =>
          match jwt_decode raw_jws decoding_key validation with
          | Ok td => Ok td
          | Err e => decode_candidates raw_jws validation candidates (Some e)
          end
      end
  end.

Definition try_decode_with_current_jwks (raw_jws : string) (header : Header) (validation : Validation)
    (ctx : OidcContext) : task X (result AuthFailure TokenClaims) :=
  let* jwks := load ctx jwks in
  let candidates := lookup_candidates jwks (hdr_kid header) in
  match candidates with
  | [] => Done (Err TokenSignatureInvalid)
  | _ => Done (decode_candidates raw_jws validation candidates None)
  end.

(** Steps 1 and 2: the header, the signature, and the single retry after an
    on-demand refresh. *)
Definition decode_token (raw_jws : string) (header : Header) (alg : JwsAlg) (ctx : OidcContext) :
    task X (result AuthFailure TokenClaims) :=
  let validation := token_validation alg ctx in
  let* first := try_decode_with_current_jwks raw_jws header validation ctx in
  match first with
  | Ok td => Done (Ok td)
  | Err first_err =>
      let* refreshed := on_demand_refresh ctx in
      if negb refreshed then Done (Err first_err) else
      let* retry := try_decode_with_current_jwks raw_jws header validation ctx in
      match retry with
      | Ok td => Done (Ok td)
      | Err _ => Done (Err first_err)
      end
  end.

(** Steps 3 to 5a and the bound key's thumbprint, on verified claims. *)
Definition check_claims (ctx : OidcContext) (claims : TokenClaims) :
    task X (result AuthFailure AccessToken) :=
  (* Step 3: required claims. *)
  let*? sub := Done (tc_sub claims or! TokenMissingClaim "sub") in
  let*? iss := Done (tc_iss claims or! TokenMissingClaim "iss") in
  let*? iat := Done (tc_iat claims or! TokenMissingClaim "iat") in
  let*? exp := Done (tc_exp claims or! TokenMissingClaim "exp") in
  let*? aud_field := Done (tc_aud claims or! TokenMissingClaim "aud") in
  let*? aud := Done (match aud_field with
    | Single s => Ok s
    | Multiple _ => Err TokenAudienceMismatch
    end) in
  let*? cnf := Done (tc_cnf claims or! TokenMissingClaim "cnf") in
  let*? cnf_jkt_b64 := Done (cc_jkt cnf or! TokenMissingClaim "cnf.jkt") in
  (* Steps 4 and 5: issuer and audience. *)
  bail* TokenIssuerMismatch
    when negb (ct_eq_str iss (trim_end_matches "/" (Url_as_str (ctx_issuer_url ctx)))) ;;
  bail* TokenAudienceMismatch when negb (ct_eq_str aud (ctx_audience ctx)) ;;
  (* Step 5a: times. *)
  let* now_secs := system_now in
  let skew := clock_skew_secs (auth_config ctx) in
  bail* TokenExpired when u64_saturating_add exp skew <=? now_secs ;;
  bail* TokenNotYetValid
    when match tc_nbf claims with Some nbf => u64_saturating_add now_secs skew <? nbf | None => false end ;;
  (* The thumbprint of the bound key. *)
  let*? jkt_bytes := Done (b64_decode cnf_jkt_b64 or! TokenMissingClaim "cnf.jkt") in
  bail* TokenMissingClaim "cnf.jkt" when negb (bytes_len jkt_bytes =? 32) ;;
  Done (Ok {| sub := sub; aud := aud; iss := iss; exp := exp; iat := iat; nbf := tc_nbf claims;
              cnf_jkt := jkt_bytes |}).

Definition validate_token (raw_jws : string) (ctx : OidcContext) : task X (result AuthFailure AccessToken) :=
  let*? header := Done (decode_header raw_jws or! InvalidAlg) in
  let*? alg := Done (header_jws_alg (hdr_alg header) or! InvalidAlg) in
  let*? claims := decode_token raw_jws header alg ctx in
  check_claims ctx claims.

End token.

#[global] Arguments decode_token : simpl never.
#[global] Arguments validate_token : simpl never.
