(* ===== verification/Dpop.v ===== *)
(** * Dpop: DPoP proof validation

    [auth/dpop.rs]. *)

From S2P Require Import Prelude RustStd Crates Crypto Jwks ServerConfig Replay Logging Context.
From S2P Require Import Async Server Http Failure Refresh Token.

Record DpopProof := {
  p_alg : JwsAlg;
  p_htm : string;
  p_htu : string;
  p_iat : N;
  p_jti : string;
  p_thumbprint : bytes;
  p_ath : string;
}.

Record DpopClaims := {
  dc_htm : option string;
  dc_htu : option string;
  dc_iat : option N;
  dc_jti : option string;
  dc_ath : option string;
}.

(** [Instant]s have a last representable value. *)
Class InstantRange := { instant_max : N }.
Definition instant_checked_add `{InstantRange} (i d : N) : option N :=
  if i + d <=? instant_max then Some (i + d) else None.

Section dpop.
Context `{Sha2Crate} `{Base64Crate} `{SubtleCrate} `{UrlCrate} `{IpnetCrate} `{SerdeCrate}.
Context `{JwtCrate} `{!JwtDecode DpopClaims} `{InstantRange}.
Context {X : Type}.

Definition compute_ath (raw_token : string) : string := b64_encode (sha256 (as_bytes raw_token)).

Definition ct_eq_opt (a b : option string) : bool :=
  match a, b with
  | Some a, Some b => ct_eq_str a b
  | None, None => true
  | _, _ => false
  end.

Definition urls_equivalent_ct (a b : Url) : bool :=
  let scheme_eq := ct_eq_str (Url_scheme a) (Url_scheme b) in
  let host_eq := ct_eq_opt (Url_host_str a) (Url_host_str b) in
  let port_eq := bool_decide (Url_port_or_known_default a = Url_port_or_known_default b) in
  let path_eq := ct_eq_str (Url_path a) (Url_path b) in
  let query_eq := ct_eq_opt (Url_query a) (Url_query b) in
  let no_userinfo := is_empty (Url_username a) && bool_decide (Url_password a = None)
    && is_empty (Url_username b) && bool_decide (Url_password b = None) in
  scheme_eq && host_eq && port_eq && path_eq && query_eq && no_userinfo.

Definition compute_jwk_thumbprint (jwk : RawJwk) : result AuthFailure bytes :=
  match algorithm jwk with
  | EllipticCurveKey curve x y =>
      bail! ProofSignatureInvalid when negb (bool_decide (curve = P256)) ;;
      let? x := b64_decode x or! ProofSignatureInvalid in
      let? y := b64_decode y or! ProofSignatureInvalid in
      bail! ProofSignatureInvalid when negb (bytes_len x =? 32) || negb (bytes_len y =? 32) ;;
      Ok (jwk_thumbprint (EcP256 x y))
  | RSAKey n e =>
      let? n := b64_decode n or! ProofSignatureInvalid in
      let? e := b64_decode e or! ProofSignatureInvalid in
      Ok (jwk_thumbprint (Rsa n e))
  | _ => Err ProofSignatureInvalid
  end.

Definition proof_validation (alg : JwsAlg) : Validation :=
  {| v_algorithm := to_jwt_algorithm alg; v_validate_aud := false; v_validate_exp := false;
     v_validate_nbf := false; v_leeway := None; v_required_spec_claims := []; v_audience := [] |}.

(** [freshness + skew] is a plain addition. *)
Definition iat_in_window (freshness skew now iat : N) : bool :=
  if iat <=? now then u64_saturating_sub now iat <=? u64_wrapping_add freshness skew
  else u64_saturating_sub iat now <=? skew.

(** [replay_store.try_insert] has two critical sections, one per lock. *)
Definition try_insert_step (key : JtiKey) (deadline : N) : task X (result InsertError unit) :=
  let*? _u := atomic (fun _ s =>
    let '(r, store) := insert_entry key deadline (srv_replay s) in Value (r, set_replay store s)) in
  let* _u := atomic (fun _ s => Value ((), set_replay (push_expiry key deadline (srv_replay s)) s)) in
  Done (Ok ()).

Definition validate_proof (raw_proof request_method : string) (effective_uri : Url)
    (access_token : AccessToken) (raw_token : string) (ctx : OidcContext) :
    task X (result AuthFailure DpopProof) :=
  (* Steps 1 and 1b: algorithm and type. *)
  let*? header := Done (decode_header raw_proof or! InvalidAlg) in
  let*? alg := Done (header_jws_alg (hdr_alg header) or! InvalidAlg) in
  bail* ProofSignatureInvalid when negb (bool_decide (hdr_typ header = Some "dpop+jwt")) ;;
  (* Step 2: signature under the embedded key. *)
  let*? embedded_jwk := Done (hdr_jwk header or! ProofSignatureInvalid) in
  let*? decoding_key := Done (DecodingKey_from_jwk embedded_jwk or! ProofSignatureInvalid) in
  let*? claims := Done (map_err (fun _ => ProofSignatureInvalid)
                          (jwt_decode raw_proof decoding_key (proof_validation alg))) in
  (* Step 3: htm. *)
  let*? htm := Done (dc_htm claims or! ProofMissingClaim "htm") in
  bail* ProofHtmMismatch when negb (ct_eq_str htm request_method) ;;
  (* Step 4: htu. *)
  let*? htu_raw := Done (dc_htu claims or! ProofMissingClaim "htu") in
  let*? htu_url := Done (Url_parse htu_raw or! ProofHtuMismatch) in
  bail* ProofHtuMismatch when negb (urls_equivalent_ct htu_url effective_uri) ;;
  (* Step 5: iat. *)
  let*? iat := Done (dc_iat claims or! ProofMissingClaim "iat") in
  let* now := system_now in
  let freshness := dpop_freshness_secs (auth_config ctx) in
  let skew := clock_skew_secs (auth_config ctx) in
  bail* ProofIatStale when negb (iat_in_window freshness skew now iat) ;;
  (* Step 6: the key the token is bound to. *)
  let*? thumbprint := Done (compute_jwk_thumbprint embedded_jwk) in
  bail* ProofJktMismatch when negb (ct_eq_32 thumbprint (cnf_jkt access_token)) ;;
  (* Step 6b: ath. *)
  let*? claimed_ath := Done (dc_ath claims or! ProofMissingClaim "ath") in
  let expected_ath := compute_ath raw_token in
  bail* ProofAthMismatch when negb (ct_eq_str claimed_ath expected_ath) ;;
  (* Step 7: replay. *)
  let*? jti := Done (dc_jti claims or! ProofMissingClaim "jti") in
  let jti_key := JtiKey_new (as_jti_key_byte (tag ctx)) jti in
  let window := duration_from_secs (jti_replay_window_secs (auth_config ctx)) in
  let* instant := instant_now in
  let*? deadline_instant := Done (instant_checked_add instant window or! ProofIatStale) in
  let* inserted := try_insert_step jti_key deadline_instant in
  let*? _u := Done (map_err (fun e => match e with
    | Replayed => ProofReplayed
    | MemoryPressureErr => MemoryPressure
    end) inserted) in
  Done (Ok {| p_alg := alg; p_htm := htm; p_htu := htu_raw; p_iat := iat; p_jti := jti;
              p_thumbprint := thumbprint; p_ath := expected_ath |}).
End dpop.

#[global] Arguments validate_proof : simpl never.
