(* ===== verification/AuthFixtures.v ===== *)
(** * AuthFixtures: one access token and its DPoP proof, for the witnesses *)

From S2P Require Import Prelude RustStd Crates Fs Instances Crypto Jwks ServerConfig Replay Logging.
From S2P Require Import Context Async Server Http Failure Fixtures Refresh Token Dpop.

(** The client's key is the toy key [k]. *)
Definition fx_client_thumbprint : bytes := thumbprint (fx_jwk "k").

Definition fx_token_header : Header :=
  {| hdr_alg := ES256; hdr_typ := None; hdr_kid := Some "v"; hdr_jwk := None |}.
Definition fx_claims : TokenClaims :=
  {| tc_sub := Some "alice"; tc_aud := Some (Single "vault"); tc_iss := Some "https://issuer.example";
     tc_exp := Some 1000; tc_iat := Some 10; tc_nbf := None;
     tc_cnf := Some {| cc_jkt := Some (b64_encode fx_client_thumbprint) |} |}.
Definition fx_token : AccessToken :=
  {| sub := "alice"; aud := "vault"; iss := "https://issuer.example"; exp := 1000; iat := 10;
     nbf := None; cnf_jkt := fx_client_thumbprint |}.

Definition fx_uri : string := "http://vault.example/api/whoami".
Definition fx_target : @Url toy_url_crate :=
  {| u_scheme := "http"; u_host := "vault.example"; u_port := None; u_path := "/api/whoami";
     u_query := None; u_fragment := None |}.

Definition fx_proof_header : Header :=
  {| hdr_alg := ES256; hdr_typ := Some "dpop+jwt"; hdr_kid := None; hdr_jwk := Some (toy_key "k") |}.
Definition fx_proof_claims : DpopClaims :=
  {| dc_htm := Some "GET"; dc_htu := Some fx_uri; dc_iat := Some 160; dc_jti := Some "id-1";
     dc_ath := Some (compute_ath "tok") |}.
Definition fx_proof : DpopProof :=
  {| p_alg := Es256; p_htm := "GET"; p_htu := fx_uri; p_iat := 160; p_jti := "id-1";
     p_thumbprint := fx_client_thumbprint; p_ath := compute_ath "tok" |}.

(** The token is signed with the vault context's key, the proof with the client's. *)
Definition fx_headers : list (string * Header) := [("tok", fx_token_header); ("prf", fx_proof_header)].
#[export] Instance fx_jwt : JwtCrate := table_jwt fx_headers.
#[export] Instance fx_decode_token : JwtDecode TokenClaims :=
  table_decode fx_headers [("tok", (toy_key "v", fx_claims))].
#[export] Instance fx_decode_proof : JwtDecode DpopClaims :=
  table_decode fx_headers [("prf", (toy_key "k", fx_proof_claims))].
#[export] Instance fx_instants : InstantRange := {| instant_max := duration_from_secs (2 ^ 63) |}.

Lemma fx_client_thumbprint_length : length fx_client_thumbprint = 32%nat.
Proof. apply jwk_thumbprint_length. Qed.
