(* ===== verification/TokenSpec.v ===== *)
(** * TokenSpec: what an accepted access token proves, and which are accepted *)

From S2P Require Import Prelude RustStd Crates Fs Instances Crypto Jwks ServerConfig Replay Logging.
From S2P Require Import Context Async Server Http Failure Fixtures Refresh Token Dpop AuthFixtures.

Section spec.
Context `{Sha2Crate} `{Base64Crate} `{SubtleCrate} `{UrlCrate} `{IpnetCrate} `{SerdeCrate}.
Context `{JwtCrate} `{!JwtDecode TokenClaims}.
Context {X : Type}.

(** ** Acceptance *)

(** What an accepted token proves, given the steps of the run. *)
Record token_accepted (raw_jws : string) (ctx : OidcContext) (tr : list (senv * server X * server X))
    (t : AccessToken) (claims : TokenClaims) : Prop := {
  (* signed, with an allowlisted algorithm, under a key of the context's set
     at some moment of the run *)
  ta_signed : exists header alg e s s' k key,
    decode_header raw_jws = Some header /\ header_jws_alg (hdr_alg header) = Some alg
    /\ (e, s, s') ∈ tr /\ k ∈ lookup_candidates (jwks (live ctx s)) (hdr_kid header)
    /\ DecodingKey_from_jwk (jwk k) = Some key
    /\ jwt_decode raw_jws key (token_validation alg ctx) = Ok claims;
  (* the token's fields are its claims *)
  ta_claims : tc_sub claims = Some (sub t) /\ tc_iss claims = Some (iss t)
    /\ tc_aud claims = Some (Single (aud t)) /\ tc_exp claims = Some (exp t)
    /\ tc_iat claims = Some (iat t) /\ tc_nbf claims = nbf t;
  (* issued for this context *)
  ta_iss : iss t = trim_end_matches "/" (Url_as_str (ctx_issuer_url ctx));
  ta_aud : aud t = ctx_audience ctx;
  (* in date at some moment of the run *)
  ta_time : exists e s s', (e, s, s') ∈ tr
    /\ unix_secs (now_system e) < u64_saturating_add (exp t) (clock_skew_secs (auth_config ctx))
    /\ forall n, nbf t = Some n ->
         n <= u64_saturating_add (unix_secs (now_system e)) (clock_skew_secs (auth_config ctx));
  (* bound to a key thumbprint *)
  ta_bound : exists b64, tc_cnf claims = Some {| cc_jkt := Some b64 |}
    /\ b64_decode b64 = Some (cnf_jkt t) /\ length (cnf_jkt t) = 32%nat;
}.

Lemma decode_candidates_Ok raw v cands last_err td :
  decode_candidates raw v cands last_err = Ok td ->
  exists k key, k ∈ cands /\ DecodingKey_from_jwk (jwk k) = Some key /\ jwt_decode raw key v = Ok td.
Proof.
  revert last_err. induction cands as [|c cands IH]; intros le; simpl; [done|].
  destruct (DecodingKey_from_jwk (jwk c)) as [key|] eqn:Hk.
  - destruct (jwt_decode raw key v) as [td'|e] eqn:Hd.
    + intros [= ->]. exists c, key. split; [by left|done].
    + intros (k & key' & Hin & Hr)%IH. exists k, key'. split; [by right|done].
  - intros (k & key' & Hin & Hr)%IH. exists k, key'. split; [by right|done].
Qed.

Lemma try_decode_Ok raw h v ctx (o : schedule senv (server X)) s td s' o' :
  block_on (try_decode_with_current_jwks raw h v ctx) o s = Value (Ok td, s', o') ->
  exists e s1 k key, (e, s1, s') ∈ trace (try_decode_with_current_jwks raw h v ctx) o s
    /\ k ∈ lookup_candidates (jwks (live ctx s1)) (hdr_kid h)
    /\ DecodingKey_from_jwk (jwk k) = Some key /\ jwt_decode raw key v = Ok td.
Proof.
  unfold try_decode_with_current_jwks. intros Hb. simpl in Hb |- *.
  set (s1 := others (o 0%nat) s) in *.
  destruct (lookup_candidates (jwks (live ctx s1)) (hdr_kid h)) as [|c cs] eqn:Hc; simpl in Hb; [done|].
  injection Hb as Hd <- _. destruct (decode_candidates_Ok _ _ (c :: cs) _ _ Hd) as (k & key & Hin & Hk & Hj).
  exists (at_env (o 0%nat)), s1, k, key. split; [by left|]. by rewrite Hc.
Qed.

Lemma decode_token_Ok raw h a ctx (o : schedule senv (server X)) s td s' o' :
  block_on (decode_token raw h a ctx) o s = Value (Ok td, s', o') ->
  exists e s1 s2 k key, (e, s1, s2) ∈ trace (decode_token raw h a ctx) o s
    /\ k ∈ lookup_candidates (jwks (live ctx s1)) (hdr_kid h)
    /\ DecodingKey_from_jwk (jwk k) = Some key /\ jwt_decode raw key (token_validation a ctx) = Ok td.
Proof.
  unfold decode_token. intros Hb. apply block_on_await_inv in Hb as (f & s1 & o1 & Hf & Hb).
  rewrite (trace_await _ _ _ _ _ _ _ Hf). destruct f as [td1|err]; cbv beta iota in Hb |- *.
  - injection Hb as -> -> ->. apply try_decode_Ok in Hf as (e & sk & k & key & Hin & Hr).
    exists e, sk, s', k, key. split; [|done]. apply elem_of_app. by left.
  - apply block_on_await_inv in Hb as (b & s2 & o2 & Hr & Hb).
    rewrite (trace_await _ _ _ _ _ _ _ Hr). destruct b; cbv beta iota delta [negb] in Hb |- *; [|done].
    apply block_on_await_inv in Hb as (f2 & s3 & o3 & Hf2 & Hb).
    rewrite (trace_await _ _ _ _ _ _ _ Hf2). destruct f2 as [td2|]; [|done].
    injection Hb as -> -> ->. apply try_decode_Ok in Hf2 as (e & sk & k & key & Hin & Hk).
    exists e, sk, s', k, key. split; [|done]. rewrite !elem_of_app. auto.
Qed.


Lemma check_claims_Ok ctx claims (o : schedule senv (server X)) s t s' o' :
  block_on (check_claims ctx claims) o s = Value (Ok t, s', o') ->
  (tc_sub claims = Some (sub t) /\ tc_iss claims = Some (iss t)
    /\ tc_aud claims = Some (Single (aud t)) /\ tc_exp claims = Some (exp t)
    /\ tc_iat claims = Some (iat t) /\ tc_nbf claims = nbf t)
  /\ iss t = trim_end_matches "/" (Url_as_str (ctx_issuer_url ctx)) /\ aud t = ctx_audience ctx
  /\ (exists e s1 s2, (e, s1, s2) ∈ trace (check_claims ctx claims) o s
      /\ unix_secs (now_system e) < u64_saturating_add (exp t) (clock_skew_secs (auth_config ctx))
      /\ forall n, nbf t = Some n ->
           n <= u64_saturating_add (unix_secs (now_system e)) (clock_skew_secs (auth_config ctx)))
  /\ (exists b64, tc_cnf claims = Some {| cc_jkt := Some b64 |}
      /\ b64_decode b64 = Some (cnf_jkt t) /\ length (cnf_jkt t) = 32%nat).
Proof.
  unfold check_claims. intros Hb.
  destruct (tc_sub claims) as [sb|], (tc_iss claims) as [is0|], (tc_iat claims) as [ia|],
    (tc_exp claims) as [ex|], (tc_aud claims) as [[au|]|], (tc_cnf claims) as [[[b64|]]|];
    try discriminate Hb.
  unfold await_try in *. simpl in Hb |- *.
  destruct (ct_eq_str is0 _) eqn:Hiss; [|discriminate Hb]. destruct (ct_eq_str au _) eqn:Haud; [|discriminate Hb].
  simpl in Hb |- *. set (e := at_env (o 0%nat)) in *.
  destruct (_ <=? unix_secs (now_system e)) eqn:Hexp; [discriminate Hb|]. simpl in Hb.
  destruct (match tc_nbf claims with Some _ => _ | None => _ end) eqn:Hnbf; [discriminate Hb|]. simpl in Hb.
  destruct (b64_decode b64) as [jkt|] eqn:Hjkt; [|discriminate Hb]. simpl in Hb.
  destruct (bytes_len jkt =? 32) eqn:Hlen; [|discriminate Hb]. simpl in Hb.
  injection Hb as <- <- <-. apply ct_eq_str_spec in Hiss, Haud. subst. bool_hyps. simpl.
  split; [done|]. split; [done|]. split; [done|]. split.
  - eexists e, (others (o 0%nat) s), _. split; [by left|]. split; [done|].
    intros n Hn. rewrite Hn in Hnbf. by bool_hyps.
  - exists b64. split; [done|]. split; [done|]. unfold bytes_len in Hlen. lia.
Qed.

Lemma validate_token_Ok raw_jws ctx (o : schedule senv (server X)) s t s' o' :
  block_on (validate_token raw_jws ctx) o s = Value (Ok t, s', o') ->
  exists claims, token_accepted raw_jws ctx (trace (validate_token raw_jws ctx) o s) t claims.
Proof.
  unfold validate_token. intros Hb.
  destruct (decode_header raw_jws) as [header|] eqn:Hh; [|discriminate Hb].
  cbn [ok_or] in Hb |- *. rewrite trace_Done. rewrite block_on_Done in Hb. cbv beta in Hb |- *.
  destruct (header_jws_alg (hdr_alg header)) as [alg|] eqn:Ha; [|discriminate Hb].
  cbn [ok_or] in Hb |- *. rewrite trace_Done. rewrite block_on_Done in Hb. cbv beta in Hb |- *.
  apply block_on_try_inv in Hb as (claims & s1 & o1 & Hd & Hc). rewrite (trace_try _ _ _ _ _ _ _ Hd).
  apply decode_token_Ok in Hd as (e & sk & sk' & k & key & Hin & Hk & Hkey & Hj).
  apply check_claims_Ok in Hc as (Hcl & Hi & Hau & (e2 & s2 & s3 & Hin2 & Ht) & Hbnd).
  exists claims. split; [|done..| |done].
  - exists header, alg, e, sk, sk', k, key. rewrite elem_of_app. auto 10.
  - exists e2, s2, s3. rewrite elem_of_app. auto.
Qed.

(** C9. What an accepted access token proves.  Whatever other tasks do
    meanwhile, if [validate_token] returns a token then the raw token has an
    allowlisted algorithm and verifies under a key that the context held at a
    moment of the call; its issuer and audience are exactly the context's; it
    is in date, within the clock skew, at a moment of the call; it is bound to
    a 32-byte key thumbprint; and the fields returned are its claims. *)
Theorem validate_token_sound raw_jws ctx (o : schedule senv (server X)) s t s' o' :
  block_on (validate_token raw_jws ctx) o s = Value (Ok t, s', o') ->
  exists claims, token_accepted raw_jws ctx (trace (validate_token raw_jws ctx) o s) t claims.
Proof. apply validate_token_Ok. Qed.

(** An expired or not yet valid token, by the second. *)
Definition in_date (ctx : OidcContext) (claims : TokenClaims) (now : N) : Prop :=
  let skew := clock_skew_secs (auth_config ctx) in
  (exists x, tc_exp claims = Some x /\ now < u64_saturating_add x skew)
  /\ forall n, tc_nbf claims = Some n -> n <= u64_saturating_add now skew.

Lemma check_claims_run ctx e (s : server X) claims t b64 :
  (tc_sub claims = Some (sub t) /\ tc_iss claims = Some (iss t)
    /\ tc_aud claims = Some (Single (aud t)) /\ tc_exp claims = Some (exp t)
    /\ tc_iat claims = Some (iat t) /\ tc_nbf claims = nbf t) ->
  iss t = trim_end_matches "/" (Url_as_str (ctx_issuer_url ctx)) -> aud t = ctx_audience ctx ->
  in_date ctx claims (unix_secs (now_system e)) ->
  tc_cnf claims = Some {| cc_jkt := Some b64 |} -> b64_decode b64 = Some (cnf_jkt t) ->
  length (cnf_jkt t) = 32%nat ->
  block_on (check_claims ctx claims) (alone e) s = Value (Ok t, s, alone e).
Proof.
  intros (Hsub & Hi & Hau & Hex & Hia & Hnb) Hiss Haud [(x & Hx & Hlt) Hnbf] Hcnf Hjkt Hlen.
  unfold check_claims, await_try. rewrite Hsub, Hi, Hia, Hex, Hau, Hcnf. simpl.
  rewrite (proj2 (ct_eq_str_spec _ _) Hiss), (proj2 (ct_eq_str_spec _ _) Haud). simpl. unfold id.
  assert (x = exp t) as -> by congruence. rewrite (proj2 (N.leb_gt _ _) Hlt). simpl.
  assert (match tc_nbf claims with
    | Some nbf => u64_saturating_add (unix_secs (now_system e)) (clock_skew_secs (auth_config ctx)) <? nbf
    | None => false end = false) as ->.
  { destruct (tc_nbf claims) as [n|]; [|done]. apply N.ltb_ge. by apply Hnbf. }
  simpl. rewrite Hjkt. simpl. unfold bytes_len. rewrite Hlen. simpl. rewrite Hnb. by destruct t.
Qed.

(** A token whose signature the cached keys, or the keys of one refresh,
    verify goes on to the checks of its claims. *)
Lemma try_decode_run raw_jws header v ctx e (s : server X) :
  block_on (try_decode_with_current_jwks raw_jws header v ctx) (alone e) s
  = Value (match lookup_candidates (jwks (live ctx s)) (hdr_kid header) with
           | [] => Err TokenSignatureInvalid
           | cands => decode_candidates raw_jws v cands None
           end, s, alone e).
Proof. unfold try_decode_with_current_jwks. simpl. unfold id. by destruct (lookup_candidates _ _). Qed.

Lemma decode_token_run raw_jws header alg ctx e (s : server X) claims :
  decode_candidates raw_jws (token_validation alg ctx)
    (lookup_candidates (jwks (live ctx s)) (hdr_kid header)) None = Ok claims ->
  block_on (decode_token raw_jws header alg ctx) (alone e) s = Value (Ok claims, s, alone e).
Proof.
  intros Hd. unfold decode_token. rewrite block_on_await, try_decode_run.
  destruct (lookup_candidates _ _); [done|]. by rewrite Hd.
Qed.

Lemma validate_token_split raw_jws ctx e (s s1 : server X) header alg claims :
  decode_header raw_jws = Some header -> header_jws_alg (hdr_alg header) = Some alg ->
  block_on (decode_token raw_jws header alg ctx) (alone e) s = Value (Ok claims, s1, alone e) ->
  block_on (validate_token raw_jws ctx) (alone e) s = block_on (check_claims ctx claims) (alone e) s1.
Proof.
  intros Hh Ha Hd. unfold validate_token. rewrite Hh. cbn [ok_or]. rewrite block_on_Done, Ha. cbn [ok_or].
  rewrite block_on_Done. unfold await_try. by rewrite block_on_await, Hd.
Qed.

(** C26. Which tokens are accepted.  If the raw token has an allowlisted
    algorithm and the first candidate key under which it verifies yields claims
    that name a subject, an issue time, this context's issuer and its audience
    as a single string, are in date, and carry the base64url form of a 32-byte
    thumbprint, then [validate_token] accepts it without sending a request or
    changing anything, and returns those claims. *)
Theorem validate_token_complete raw_jws ctx e (s : server X) header alg claims t b64 :
  decode_header raw_jws = Some header -> header_jws_alg (hdr_alg header) = Some alg ->
  decode_candidates raw_jws (token_validation alg ctx)
    (lookup_candidates (jwks (live ctx s)) (hdr_kid header)) None = Ok claims ->
  (tc_sub claims = Some (sub t) /\ tc_iss claims = Some (iss t)
    /\ tc_aud claims = Some (Single (aud t)) /\ tc_exp claims = Some (exp t)
    /\ tc_iat claims = Some (iat t) /\ tc_nbf claims = nbf t) ->
  iss t = trim_end_matches "/" (Url_as_str (ctx_issuer_url ctx)) -> aud t = ctx_audience ctx ->
  in_date ctx claims (unix_secs (now_system e)) ->
  tc_cnf claims = Some {| cc_jkt := Some b64 |} -> b64_decode b64 = Some (cnf_jkt t) ->
  length (cnf_jkt t) = 32%nat ->
  returns (validate_token raw_jws ctx) (alone e) s (Ok t) s.
Proof.
  intros Hh Ha Hd **. eexists. erewrite validate_token_split; [by eapply check_claims_run|done..|].
  by apply decode_token_run.
Qed.

(** A token whose issuer claim ends in a slash is never accepted, although the
    issuer's own identifier may end in one. *)
Lemma trailing_slash_issuer_rejected raw_jws ctx (o : schedule senv (server X)) s t s' o' :
  block_on (validate_token raw_jws ctx) o s = Value (Ok t, s', o') -> last_char (iss t) <> Some "/"%char.
Proof.
  intros Hb. apply validate_token_Ok in Hb as (claims & Hacc).
  rewrite (ta_iss _ _ _ _ _ Hacc). apply trim_end_matches_last.
Qed.
End spec.

(** ** Witnesses *)

Lemma validate_token_complete_witness :
  returns (validate_token "tok" fx_vault) (alone (fx_env 100 "n")) fx_server
    (Ok fx_token) fx_server.
Proof.
  refine (validate_token_complete "tok" fx_vault (fx_env 100 "n") fx_server
    fx_token_header Es256 fx_claims fx_token (b64_encode fx_client_thumbprint) eq_refl eq_refl _
    (conj eq_refl (conj eq_refl (conj eq_refl (conj eq_refl (conj eq_refl eq_refl)))))
    eq_refl eq_refl _ eq_refl _ _).
  - vm_compute. reflexivity.
  - split; [exists 1000; split; reflexivity|]. intros n Hn. discriminate Hn.
  - exact (b64_decode_encode fx_client_thumbprint).
  - exact fx_client_thumbprint_length.
Defined.

Lemma validate_token_sound_witness :
  exists claims, token_accepted "tok" fx_vault
    (trace (validate_token "tok" fx_vault) (alone (fx_env 100 "n")) fx_server)
    fx_token claims.
Proof.
  destruct (block_on (validate_token "tok" fx_vault) (alone (fx_env 100 "n"))
    fx_server) as [[[r s'] o']|] eqn:Hr; [|discriminate Hr].
  assert (r = Ok fx_token) as ->.
  { assert (match block_on (validate_token "tok" fx_vault)
      (alone (fx_env 100 "n")) fx_server with Value (r, _, _) => r | Panic => Err MissingToken end
      = Ok fx_token) as Hc by (vm_compute; reflexivity).
    rewrite Hr in Hc. exact Hc. }
  exact (validate_token_sound "tok" fx_vault _ _ _ _ _ Hr).
Defined.
