(* ===== verification/DpopSpec.v ===== *)
(** * DpopSpec: what an accepted proof proves, and replay protection *)

From S2P Require Import Prelude RustStd Crates Fs Instances Crypto Jwks ServerConfig Replay.
From S2P Require Import ReplaySpec Logging.
From S2P Require Import Context Async Server Http Failure Fixtures Refresh Token Dpop AuthFixtures.

Section spec.
Context `{Sha2Crate} `{Base64Crate} `{SubtleCrate} `{UrlCrate} `{IpnetCrate} `{SerdeCrate}.
Context `{JwtCrate} `{!JwtDecode DpopClaims} `{InstantRange}.
Context {X : Type}.

(** ** URLs *)

(** The request target a proof must name, up to normalization. *)
Record same_target (a b : Url) : Prop := {
  st_scheme : Url_scheme a = Url_scheme b;
  st_host : Url_host_str a = Url_host_str b;
  st_port : Url_port_or_known_default a = Url_port_or_known_default b;
  st_path : Url_path a = Url_path b;
  st_query : Url_query a = Url_query b;
  st_userinfo : Url_username a = "" /\ Url_password a = None
    /\ Url_username b = "" /\ Url_password b = None;
}.

Lemma ct_eq_opt_spec a b : ct_eq_opt a b = true <-> a = b.
Proof. destruct a, b; simpl; rewrite ?ct_eq_str_spec; naive_solver. Qed.

Lemma is_empty_true s : is_empty s = true <-> s = "".
Proof. by destruct s. Qed.

Lemma urls_equivalent_ct_spec a b : urls_equivalent_ct a b = true <-> same_target a b.
Proof.
  unfold urls_equivalent_ct. rewrite !andb_true_iff, !ct_eq_str_spec, !ct_eq_opt_spec, !bool_decide_eq_true,
    !is_empty_true. split; [|intros []; tauto]. intros [[[[[]]]] ?]. split; tauto.
Qed.

(** ** Freshness *)

Lemma iat_in_window_spec f sk now i :
  f + sk <= u64_max -> iat_in_window f sk now i = true <-> now <= i + f + sk /\ i <= now + sk.
Proof.
  intros Hn. unfold iat_in_window, u64_saturating_sub. rewrite u64_wrapping_add_exact by done.
  destruct (N.leb_spec i now); rewrite N.leb_le; lia.
Qed.

(** C28. How long one proof stays fresh: two moments at which the same [iat] is
    within its window are at most [freshness + 2 * skew] seconds apart, and
    that span is reached.  The configured replay window, at least
    [freshness + skew], need not cover it. *)
Theorem freshness_span f sk :
  f + sk <= u64_max ->
  (forall i now now', iat_in_window f sk now i = true -> iat_in_window f sk now' i = true ->
     now' <= now + f + 2 * sk)
  /\ (forall now, exists i, iat_in_window f sk now i = true
     /\ iat_in_window f sk (now + f + 2 * sk) i = true).
Proof.
  intros Hn. split.
  - intros i now now' [_ Ha]%iat_in_window_spec [Hb _]%iat_in_window_spec; [lia|done..].
  - intros now. exists (now + sk). split; apply iat_in_window_spec; lia.
Qed.

(** ** Acceptance *)

Lemma compute_jwk_thumbprint_length k tp : compute_jwk_thumbprint k = Ok tp -> length tp = 32%nat.
Proof.
  unfold compute_jwk_thumbprint. destruct (algorithm k); intros Hc; inv_res; auto using jwk_thumbprint_length.
Qed.

Lemma compute_jwk_thumbprint_Err k f : compute_jwk_thumbprint k = Err f -> f = ProofSignatureInvalid.
Proof.
  unfold compute_jwk_thumbprint. destruct (algorithm k) as [c x y|n e|v|x]; [| |naive_solver..].
  - destruct (bool_decide (c = P256)); simpl; [|naive_solver].
    destruct (b64_decode x) as [x'|], (b64_decode y) as [y'|]; simpl; try naive_solver.
    destruct (_ || _); naive_solver.
  - destruct (b64_decode n) as [x'|], (b64_decode e) as [y'|]; naive_solver.
Qed.

(** The identifier an accepted proof is recorded under, and until when, if the
    clock is read in [e]. *)
Definition proof_id (ctx : OidcContext) (p : DpopProof) : JtiKey :=
  JtiKey_new (as_jti_key_byte (tag ctx)) (p_jti p).
Definition proof_deadline (ctx : OidcContext) (e : senv) : N :=
  now_instant e + duration_from_secs (jti_replay_window_secs (auth_config ctx)).

(** [holds k d s]: the store of [s] has [k] recorded until [d]. *)
Definition holds (k : JtiKey) (d : N) (s : server X) : Prop := entries (srv_replay s) !! k = Some d.

(** What an accepted proof proves, given the steps of the run. *)
Record proof_accepted (raw_proof request_method : string) (uri : Url) (token : AccessToken)
    (raw_token : string) (ctx : OidcContext) (tr : list (senv * server X * server X)) (p : DpopProof) : Prop := {
  (* a DPoP proof with an allowlisted algorithm, signed by its own key, which
     is the key the token is bound to *)
  pa_signed : exists header jwk key claims,
    decode_header raw_proof = Some header /\ header_jws_alg (hdr_alg header) = Some (p_alg p)
    /\ hdr_typ header = Some "dpop+jwt" /\ hdr_jwk header = Some jwk
    /\ DecodingKey_from_jwk jwk = Some key
    /\ jwt_decode raw_proof key (proof_validation (p_alg p)) = Ok claims
    /\ dc_htm claims = Some (p_htm p) /\ dc_htu claims = Some (p_htu p)
    /\ dc_iat claims = Some (p_iat p) /\ dc_jti claims = Some (p_jti p)
    /\ dc_ath claims = Some (p_ath p)
    /\ compute_jwk_thumbprint jwk = Ok (p_thumbprint p);
  pa_bound : p_thumbprint p = cnf_jkt token;
  (* for this request and this token *)
  pa_htm : p_htm p = request_method;
  pa_htu : exists u, Url_parse (p_htu p) = Some u /\ same_target u uri;
  pa_ath : p_ath p = b64_encode (sha256 (as_bytes raw_token));
  (* fresh at some moment of the run *)
  pa_iat : exists e s s', (e, s, s') ∈ tr
    /\ iat_in_window (dpop_freshness_secs (auth_config ctx)) (clock_skew_secs (auth_config ctx))
         (unix_secs (now_system e)) (p_iat p) = true;
  (* not seen before: a step of the run found its identifier absent and left
     it recorded, until a full window after a moment of the run *)
  pa_new : exists e1 s1 s1' e2 s2 s2', (e1, s1, s1') ∈ tr /\ (e2, s2, s2') ∈ tr
    /\ entries (srv_replay s2) !! proof_id ctx p = None
    /\ insert_entry (proof_id ctx p) (proof_deadline ctx e1) (srv_replay s2) = (Ok (), srv_replay s2')
    /\ entries (srv_replay s2') !! proof_id ctx p = Some (proof_deadline ctx e1);
}.

(** The identifier of [p] is still recorded when the run ends in [s'], unless
    another task has removed it. *)
Definition remembered (ctx : OidcContext) (p : DpopProof) (tr : list (senv * server X * server X))
    (o : schedule senv (server X)) (s' : server X) : Prop :=
  exists e s1 s1', (e, s1, s1') ∈ tr
  /\ let kept := holds (proof_id ctx p) (proof_deadline ctx e) in
     (forall n st, kept st -> kept (others (o n) st)) -> kept s'.

Lemma validate_proof_Ok raw_proof m uri token raw_token ctx (o : schedule senv (server X)) s p s' o' :
  length (cnf_jkt token) = 32%nat ->
  block_on (validate_proof raw_proof m uri token raw_token ctx) o s = Value (Ok p, s', o') ->
  proof_accepted raw_proof m uri token raw_token ctx
    (trace (validate_proof raw_proof m uri token raw_token ctx) o s) p
  /\ remembered ctx p (trace (validate_proof raw_proof m uri token raw_token ctx) o s) o s'.
Proof.
  intros Hlen. unfold validate_proof, try_insert_step, await_try. intros Hb.
  destruct (decode_header raw_proof) as [h|] eqn:Hh; [|discriminate Hb]. simpl in Hb |- *.
  destruct (header_jws_alg (hdr_alg h)) as [a|] eqn:Ha; [|discriminate Hb]. simpl in Hb |- *.
  destruct (bool_decide (hdr_typ h = Some "dpop+jwt")) eqn:Ht; [|discriminate Hb]. simpl in Hb |- *.
  destruct (hdr_jwk h) as [k|] eqn:Hk; [|discriminate Hb]. simpl in Hb |- *.
  destruct (DecodingKey_from_jwk k) as [key|] eqn:Hkey; [|discriminate Hb]. simpl in Hb |- *.
  destruct (jwt_decode raw_proof key (proof_validation a)) as [cl|] eqn:Hcl; [|discriminate Hb]. simpl in Hb |- *.
  destruct (dc_htm cl) as [htm|] eqn:Hhtm; [|discriminate Hb]. simpl in Hb |- *.
  destruct (ct_eq_str htm m) eqn:Hm; [|discriminate Hb]. simpl in Hb |- *.
  destruct (dc_htu cl) as [htu|] eqn:Hhtu; [|discriminate Hb]. simpl in Hb |- *.
  destruct (Url_parse htu) as [u|] eqn:Hu; [|discriminate Hb]. simpl in Hb |- *.
  destruct (urls_equivalent_ct u uri) eqn:Heq; [|discriminate Hb]. simpl in Hb |- *.
  destruct (dc_iat cl) as [ia|] eqn:Hia; [|discriminate Hb]. simpl in Hb |- *.
  destruct (iat_in_window _ _ _ _) eqn:Hw; [|discriminate Hb]. simpl in Hb |- *.
  destruct (compute_jwk_thumbprint k) as [tp|] eqn:Htp; [|discriminate Hb]. simpl in Hb |- *.
  destruct (ct_eq_32 tp (cnf_jkt token)) eqn:Hj; [|discriminate Hb]. simpl in Hb |- *.
  destruct (dc_ath cl) as [ath|] eqn:Hath; [|discriminate Hb]. simpl in Hb |- *.
  destruct (ct_eq_str ath (compute_ath raw_token)) eqn:Hathe; [|discriminate Hb]. simpl in Hb |- *.
  destruct (dc_jti cl) as [jti|] eqn:Hjti; [|discriminate Hb]. simpl in Hb |- *.
  destruct (instant_checked_add _ _) as [d|] eqn:Hd; [|discriminate Hb]. simpl in Hb |- *.
  destruct (insert_entry _ _ _) as [[[]|er] st] eqn:Hins; [|by destruct er]. simpl in Hb |- *.
  injection Hb as <- <- _. apply ct_eq_str_spec in Hm, Hathe. bool_hyps.
  apply ct_eq_32_spec in Hj; [|by eapply compute_jwk_thumbprint_length|done]. subst.
  unfold instant_checked_add in Hd. destruct (_ <=? _) in Hd; [injection Hd as <-|discriminate Hd].
  pose proof (insert_entry_Ok _ _ _ _ Hins) as (Hnone & _ & He & _).
  assert (entries st !! JtiKey_new (as_jti_key_byte (tag ctx)) jti
    = Some (proof_deadline ctx (at_env (o 1%nat)))) as Hheld by (rewrite He; apply lookup_insert_eq).
  split.
  - split; simpl.
    + by exists h, k, key, cl.
    + done.
    + done.
    + exists u. by apply urls_equivalent_ct_spec in Heq.
    + done.
    + eexists _, _, _. split; [by left|done].
    + do 6 eexists. split; [right; left; reflexivity|]. split; [right; right; left; reflexivity|].
      split; [exact Hnone|]. split; [exact Hins|exact Hheld].
  - eexists _, _, _. split; [right; left; reflexivity|]. intros kept Hkept. by apply (Hkept 3%nat).
Qed.

(** C10. What an accepted DPoP proof proves.  Whatever other tasks do meanwhile,
    if [validate_proof] accepts then the proof is a [dpop+jwt] with an
    allowlisted algorithm, signed by the key in its own header; that key's
    thumbprint is the one the access token is bound to; its method, URL and
    token hash are those of this request and this raw token; its issue time is
    within the window at a moment of the call; and one step of the call found
    the replay store without the proof's identifier and left the shared state
    with the identifier recorded until a full replay window after a moment of
    the call, where it still is at the end of the call unless another task has
    removed it. *)
Theorem validate_proof_sound raw_proof m uri token raw_token ctx (o : schedule senv (server X)) s p s' o' :
  length (cnf_jkt token) = 32%nat ->
  block_on (validate_proof raw_proof m uri token raw_token ctx) o s = Value (Ok p, s', o') ->
  proof_accepted raw_proof m uri token raw_token ctx
    (trace (validate_proof raw_proof m uri token raw_token ctx) o s) p
  /\ remembered ctx p (trace (validate_proof raw_proof m uri token raw_token ctx) o s) o s'.
Proof. apply validate_proof_Ok. Qed.

(** ** Replay *)

(** The identifier a proof will be recorded under, when it has one. *)
Definition proof_key (ctx : OidcContext) (raw_proof : string) : option JtiKey :=
  header ← decode_header raw_proof;
  alg ← header_jws_alg (hdr_alg header);
  jwk ← hdr_jwk header;
  key ← DecodingKey_from_jwk jwk;
  claims ← res_ok (jwt_decode raw_proof key (proof_validation alg));
  jti ← dc_jti claims;
  Some (JtiKey_new (as_jti_key_byte (tag ctx)) jti).

(** [recorded k]: the store holds an entry for the identifier. *)
Definition recorded (k : JtiKey) (s : server X) : Prop := is_Some (entries (srv_replay s) !! k).

(** A recorded identifier is never accepted again.  While the store holds
    an entry for a proof's identifier, and as long as other tasks do not remove
    it, no call with that proof is accepted, nor refused for lack of memory:
    replays stay 401, also when the store is full. *)
Theorem recorded_proof_rejected raw_proof m uri token raw_token ctx k (o : schedule senv (server X)) s r s' o' :
  length (cnf_jkt token) = 32%nat -> proof_key ctx raw_proof = Some k ->
  recorded k s -> (forall n s, recorded k s -> recorded k (others (o n) s)) ->
  block_on (validate_proof raw_proof m uri token raw_token ctx) o s = Value (r, s', o') ->
  exists f, r = Err f /\ f <> MemoryPressure.
Proof.
  intros Hlen Hpk Hrec Ho. unfold validate_proof, try_insert_step, await_try. intros Hb.
  unfold proof_key in Hpk. destruct (decode_header raw_proof) as [h|]; [|done]. simpl in Hb, Hpk.
  destruct (header_jws_alg (hdr_alg h)) as [a|]; [|done]. simpl in Hb, Hpk.
  destruct (bool_decide (hdr_typ h = Some "dpop+jwt")); [|by simplify_eq/=; eauto]. simpl in Hb.
  destruct (hdr_jwk h) as [jk|]; [|done]. simpl in Hb, Hpk.
  destruct (DecodingKey_from_jwk jk) as [key|]; [|done]. simpl in Hb, Hpk.
  destruct (jwt_decode raw_proof key (proof_validation a)) as [cl|]; [|done]. simpl in Hb, Hpk.
  destruct (dc_htm cl) as [htm|]; [|by simplify_eq/=; eauto]. simpl in Hb.
  destruct (ct_eq_str htm m); [|by simplify_eq/=; eauto]. simpl in Hb.
  destruct (dc_htu cl) as [htu|]; [|by simplify_eq/=; eauto]. simpl in Hb.
  destruct (Url_parse htu) as [u|]; [|by simplify_eq/=; eauto]. simpl in Hb.
  destruct (urls_equivalent_ct u uri); [|by simplify_eq/=; eauto]. simpl in Hb.
  destruct (dc_iat cl) as [ia|]; [|by simplify_eq/=; eauto]. simpl in Hb.
  destruct (iat_in_window _ _ _ _); [|by simplify_eq/=; eauto]. simpl in Hb.
  destruct (compute_jwk_thumbprint jk) as [tp|f] eqn:Htp; simpl in Hb.
  2: { apply compute_jwk_thumbprint_Err in Htp as ->. simplify_eq/=. eauto. }
  destruct (ct_eq_32 tp (cnf_jkt token)); [|by simplify_eq/=; eauto]. simpl in Hb.
  destruct (dc_ath cl) as [ath|]; [|by simplify_eq/=; eauto]. simpl in Hb.
  destruct (ct_eq_str ath (compute_ath raw_token)); [|by simplify_eq/=; eauto]. simpl in Hb.
  destruct (dc_jti cl) as [jti|]; [|done]. simpl in Hb, Hpk. simplify_eq.
  destruct (instant_checked_add _ _) as [d|]; [|by simplify_eq/=; eauto]. simpl in Hb.
  unfold insert_entry in Hb.
  match type of Hb with context [entries (srv_replay ?st) !! _] =>
    assert (recorded (JtiKey_new (as_jti_key_byte (tag ctx)) jti) st) as [dl Hdl] by (by repeat apply Ho) end.
  rewrite Hdl in Hb. simplify_eq/=. eauto.
Qed.
End spec.

(** ** Witnesses *)

Lemma freshness_span_witness :
  iat_in_window 30 60 100 160 = true /\ iat_in_window 30 60 250 160 = true /\ 250 <= 100 + 30 + 2 * 60.
Proof.
  split; [reflexivity|]. split; [reflexivity|].
  apply (proj1 (freshness_span 30 60 ltac:(vm_compute; discriminate)) 160 100 250); reflexivity.
Defined.

(** The proof of the fixture, presented at a given second. *)
Definition fx_present (secs : N) (s : server unit) :=
  block_on (validate_proof "prf" "GET" fx_target fx_token "tok" fx_vault) (alone (fx_env secs "n")) s.
Definition fx_result (secs : N) (s : server unit) : option (result AuthFailure DpopProof) :=
  match fx_present secs s with Value (r, _, _) => Some r | Panic => None end.
Definition fx_after (secs : N) (s : server unit) : server unit :=
  match fx_present secs s with Value (_, s', _) => s' | Panic => s end.

Definition fx_proof_key : JtiKey := JtiKey_new 1 "id-1".

Lemma validate_proof_sound_witness :
  proof_accepted "prf" "GET" fx_target fx_token "tok" fx_vault
    (trace (validate_proof "prf" "GET" fx_target fx_token "tok" fx_vault) (alone (fx_env 100 "n")) fx_server)
    fx_proof
  /\ holds fx_proof_key (duration_from_secs 190) (fx_after 100 fx_server).
Proof.
  assert (fx_result 100 fx_server = Some (Ok fx_proof)) as Hr by (vm_compute; reflexivity).
  unfold fx_result, fx_after in *. destruct (fx_present 100 fx_server) as [[[r s'] o']|] eqn:Hp; [|discriminate Hr].
  injection Hr as ->.
  destruct (validate_proof_sound "prf" "GET" fx_target fx_token "tok" fx_vault _ _ _ _ _
    fx_client_thumbprint_length Hp) as [Hacc (e & s1 & s1' & Hin & Hk)].
  split; [exact Hacc|].
  apply trace_alone in Hin. simpl in Hin. subst e. exact (Hk (fun _ _ Hst => Hst)).
Defined.

Lemma recorded_proof_rejected_witness :
  exists f, fx_result 120 (fx_after 100 fx_server) = Some (Err f) /\ f <> MemoryPressure.
Proof.
  destruct (fx_present 120 (fx_after 100 fx_server)) as [[[r s'] o']|] eqn:Hp.
  - destruct (recorded_proof_rejected "prf" "GET" fx_target fx_token "tok" fx_vault fx_proof_key
      (alone (fx_env 120 "n")) (fx_after 100 fx_server) r s' o' fx_client_thumbprint_length) as (f & -> & Hf).
    + reflexivity.
    + unfold recorded. assert (match entries (srv_replay (fx_after 100 fx_server)) !! fx_proof_key with
        Some _ => true | None => false end = true) as Hs by (vm_compute; reflexivity).
      destruct (entries _ !! _); [by eexists|discriminate Hs].
    + intros n s Hs. exact Hs.
    + exact Hp.
    + exists f. split; [|exact Hf]. unfold fx_result. rewrite Hp. reflexivity.
  - exfalso. assert (bool_decide (is_Some (fx_result 120 (fx_after 100 fx_server))) = true) as Hs
      by (vm_compute; reflexivity).
    unfold fx_result in Hs. rewrite Hp in Hs. discriminate Hs.
Defined.

(** The default settings leave a gap: one proof is accepted at second 100 and,
    after the cleanup of second 200, again at second 220. *)
Definition fx_cleanup (secs : N) (s : server unit) : server unit :=
  set_replay (maintenance_tick (duration_from_secs secs) (srv_replay s)) s.

Lemma proof_accepted_twice_by_default :
  auth_config fx_vault = AuthConfig_default
  /\ fx_result 100 fx_server = Some (Ok fx_proof)
  /\ fx_result 220 (fx_cleanup 200 (fx_after 100 fx_server)) = Some (Ok fx_proof).
Proof. split; [done|]. split; vm_compute; reflexivity. Qed.
