(* ===== verification/Middleware.v ===== *)
(** * Middleware: the two audience guards

    [auth/middleware.rs].  The inner service is a parameter of [call]; the
    replay store a guard holds is the shared one of the server's state. *)

From S2P Require Import Prelude RustStd Crates Crypto Jwks ServerConfig Replay Logging Context.
From S2P Require Import Async Server Http ProxyTrust Failure Refresh Token Dpop.

Section middleware.
Context `{Sha2Crate} `{Base64Crate} `{SubtleCrate} `{UrlCrate} `{IpnetCrate} `{SerdeCrate} `{HttpCrate}.
Context `{JwtCrate} `{!JwtDecode TokenClaims} `{!JwtDecode DpopClaims} `{InstantRange}.
Context {X : Type}.

Definition build_effective_uri (request : Request) : result AuthFailure Url :=
  let scheme := match scheme <$> ext_effective (extensions request) with
    | Some SchemeHttps => "https"
    | Some SchemeHttp => "http"
    | None => "http"
    end in
  let? authority := match header_str "host" request with
    | Some v => Some v
    | None => uri_authority request
    end or! ProofHtuMismatch in
  let path_and_query := unwrap_or (uri_path_and_query request) "/" in
  let raw := scheme +:+ "://" +:+ authority +:+ path_and_query in
  Url_parse raw or! ProofHtuMismatch.

(** The raw token of [Authorization: DPoP <token>]. *)
Definition extract_token (request : Request) : result AuthFailure string :=
  let? auth_value := headers request "authorization" or! MissingToken in
  let? auth_value := hv_to_str auth_value or! MissingToken in
  let? parts := split_once " " auth_value or! MissingToken in
  bail! MissingToken when negb (eq_ignore_ascii_case (fst parts) "DPoP") ;;
  let raw_token := trim (snd parts) in
  bail! MissingToken when is_empty raw_token ;;
  Ok raw_token.

(** The raw proof of [DPoP: <proof>]. *)
Definition extract_proof (request : Request) : result AuthFailure string :=
  let? value := headers request "dpop" or! MissingProof in
  let? value := hv_to_str value or! MissingProof in
  let raw_proof := trim value in
  bail! MissingProof when is_empty raw_proof ;;
  Ok raw_proof.

Definition authenticate_common (request : Request) (ctx : OidcContext) :
    task X (result AuthFailure string) :=
  let*? raw_token := Done (extract_token request) in
  let*? raw_proof := Done (extract_proof request) in
  let*? effective_uri := Done (build_effective_uri request) in
  let*? access_token := validate_token raw_token ctx in
  let*? _proof := validate_proof raw_proof (method request) effective_uri access_token raw_token ctx in
  Done (Ok (sub access_token)).

(** The common tail of both [call]s: run the inner service with the subject
    inserted, or log the failure and answer it. *)
Definition guarded (ctx : OidcContext) (insert : string -> Request -> Request)
    (inner : Request -> task X Response) (request : Request) : task X Response :=
  let client_addr := client_addr request in
  let* authenticated := authenticate_common request ctx in
  match authenticated with
  | Ok sub => inner (insert sub request)
  | Err failure =>
      let* _u := emit (log_failure failure client_addr (tag_name (tag ctx))) in
      Done (respond_failure failure)
  end.

Record VaultGuard := { vg_ctx : OidcContext; auth_methods : list string }.
Definition vault_guard (ctx : OidcContext) : VaultGuard := {| vg_ctx := ctx; auth_methods := ["GET"] |}.
Definition with_methods (g : VaultGuard) (methods : list string) : VaultGuard :=
  {| vg_ctx := vg_ctx g; auth_methods := methods |}.

Definition VaultGuardService_call (g : VaultGuard) (inner : Request -> task X Response)
    (request : Request) : task X Response :=
  if negb (existsb (String.eqb (method request)) (auth_methods g)) then inner request else
  guarded (vg_ctx g) (fun sub => insert_vault (VaultSubject_new sub)) inner request.

Record AdminGuard := { ag_ctx : OidcContext }.
Definition admin_guard (ctx : OidcContext) : AdminGuard := {| ag_ctx := ctx |}.

Definition AdminGuardService_call (g : AdminGuard) (inner : Request -> task X Response)
    (request : Request) : task X Response :=
  if negb (String.eqb (method request) "GET") then inner request else
  guarded (ag_ctx g) (fun sub => insert_admin (AdminSubject_new sub)) inner request.
End middleware.
