(* ===== verification/MiddlewareSpec.v ===== *)
(** * MiddlewareSpec: what reaches a handler, and what a rejection shows *)

From S2P Require Import Prelude RustStd Crates Fs Instances Crypto Jwks ServerConfig Replay Logging.
From S2P Require Import Context Async Server Http ProxyTrust Failure Fixtures Refresh Token Dpop.
From S2P Require Import AuthFixtures TokenSpec DpopSpec Middleware.

Section spec.
Context `{Sha2Crate} `{Base64Crate} `{SubtleCrate} `{UrlCrate} `{IpnetCrate} `{SerdeCrate} `{HttpCrate}.
Context `{JwtCrate} `{!JwtDecode TokenClaims} `{!JwtDecode DpopClaims} `{InstantRange}.
Context {X : Type}.

Lemma token_accepted_mono raw ctx (tr tr' : list (senv * server X * server X)) t c :
  (forall x, x ∈ tr -> x ∈ tr') -> token_accepted raw ctx tr t c -> token_accepted raw ctx tr' t c.
Proof.
  intros Hsub [(h & a & e & s & s' & k & key & ? & ? & Hin & ?) Hcl Hi Hau (e2 & s2 & s2' & Hin2 & ?) Hb].
  split; try done; [exists h, a, e, s, s', k, key|exists e2, s2, s2']; auto 10.
Qed.

Lemma proof_accepted_mono rp m u t rt ctx (tr tr' : list (senv * server X * server X)) p :
  (forall x, x ∈ tr -> x ∈ tr') -> proof_accepted rp m u t rt ctx tr p ->
  proof_accepted rp m u t rt ctx tr' p.
Proof.
  intros Hsub [Hs Hb Hm Hu Ha (e & s & s' & Hin & ?) Hn]. split; try done; [exists e, s, s'; auto|].
  destruct Hn as (e1 & s1 & s1' & e2 & s2 & s2' & Hin1 & Hin2 & Hr). exists e1, s1, s1', e2, s2, s2'. auto.
Qed.

(** Everything a subject's presence on a request rests on. *)
Definition authenticated (request : Request) (ctx : OidcContext) (tr : list (senv * server X * server X))
    (subject : string) : Prop :=
  exists raw_token raw_proof uri t claims p,
    extract_token request = Ok raw_token /\ extract_proof request = Ok raw_proof
    /\ build_effective_uri request = Ok uri
    /\ token_accepted raw_token ctx tr t claims /\ sub t = subject
    /\ proof_accepted raw_proof (method request) uri t raw_token ctx tr p.

Lemma authenticate_common_Ok request ctx (o : schedule senv (server X)) s subject s' o' :
  block_on (authenticate_common request ctx) o s = Value (Ok subject, s', o') ->
  authenticated request ctx (trace (authenticate_common request ctx) o s) subject.
Proof.
  unfold authenticate_common. intros Hb.
  destruct (extract_token request) as [rt|] eqn:Ht; [|discriminate Hb].
  rewrite block_on_Done in Hb. rewrite trace_Done.
  destruct (extract_proof request) as [rp|] eqn:Hp; [|discriminate Hb].
  rewrite block_on_Done in Hb. rewrite trace_Done.
  destruct (build_effective_uri request) as [u|] eqn:Hu; [|discriminate Hb].
  rewrite block_on_Done in Hb. rewrite trace_Done. cbv beta in Hb |- *.
  apply block_on_try_inv in Hb as (t & s1 & o1 & Hv & Hb). rewrite (trace_try _ _ _ _ _ _ _ Hv).
  apply block_on_try_inv in Hb as (p & s2 & o2 & Hpf & Hb). rewrite (trace_try _ _ _ _ _ _ _ Hpf).
  injection Hb as <- <- <-. pose proof (validate_token_Ok _ _ _ _ _ _ _ Hv) as [c Hc].
  assert (length (cnf_jkt t) = 32%nat) as Hlen by (by destruct (ta_bound _ _ _ _ _ Hc) as (b & _ & _ & Hl)).
  apply validate_proof_Ok in Hpf as [Hpf _]; [|done]. exists rt, rp, u, t, c, p.
  repeat (split; [done|]). split; [|split; [done|]].
  - eapply token_accepted_mono; [|exact Hc]. intros x Hx. apply elem_of_app. by left.
  - eapply proof_accepted_mono; [|exact Hpf]. intros x Hx. rewrite !elem_of_app. auto.
Qed.

(** The two outcomes of a guarded call: the handler starts in the state in
    which authentication ended, or authentication ended the call but for one
    log event, with whatever other tasks did before it. *)
Lemma guarded_cases ctx insert inner request (o : schedule senv (server X)) s resp s' o' :
  block_on (guarded ctx insert inner request) o s = Value (resp, s', o') ->
  (exists subject s1 o1,
     authenticated request ctx (trace (authenticate_common request ctx) o s) subject
     /\ block_on (authenticate_common request ctx) o s = Value (Ok subject, s1, o1)
     /\ block_on (inner (insert subject request)) o1 s1 = Value (resp, s', o'))
  \/ (exists failure s1 o1,
     resp = respond_failure failure
     /\ block_on (authenticate_common request ctx) o s = Value (Err failure, s1, o1)
     /\ s' = log_events [log_failure failure (client_addr request) (tag_name (tag ctx))] (others (o1 0%nat) s1)
     /\ o' = later o1).
Proof.
  unfold guarded. cbv zeta. intros (r & s1 & o1 & Ha & Hb)%block_on_await_inv. destruct r as [subject|f].
  - left. exists subject, s1, o1. split; [by eapply authenticate_common_Ok|done].
  - right. simpl in Hb. injection Hb as <- <- <-. by exists f, s1, o1.
Qed.

(** C8. No request reaches a vault handler on a guarded method unless it was
    authenticated, and every rejection looks the same.  Whatever other tasks do
    meanwhile, a call first runs the authentication.  If that accepts, the token
    and the proof having been accepted for this request's method and effective
    URI during the call, the handler runs, from the state in which the
    authentication ended and on the request with exactly the subject of the
    accepted token added.  If it rejects, the call takes one more step and no
    other: from the state in which the authentication ended, but for what other
    tasks do before that step, it adds one log event that holds the failure's
    category, the audience and the client address and nothing of the request;
    it answers the fixed 401 or, when the replay store is full, the fixed 503,
    and no handler has run.  On a method outside the guarded set the call is the
    handler's. *)
Theorem vault_guard_safe g inner request (o : schedule senv (server X)) s resp s' o' :
  block_on (VaultGuardService_call g inner request) o s = Value (resp, s', o') ->
  if existsb (String.eqb (method request)) (auth_methods g) then
    (exists subject s1 o1,
       authenticated request (vg_ctx g) (trace (authenticate_common request (vg_ctx g)) o s) subject
       /\ block_on (authenticate_common request (vg_ctx g)) o s = Value (Ok subject, s1, o1)
       /\ block_on (inner (insert_vault (VaultSubject_new subject) request)) o1 s1
          = Value (resp, s', o'))
    \/ (exists failure s1 o1,
       resp = (if bool_decide (failure = MemoryPressure) then respond_503_memory_pressure else respond_401)
       /\ block_on (authenticate_common request (vg_ctx g)) o s = Value (Err failure, s1, o1)
       /\ s' = log_events [AuthFailureEvent (category failure) (tag_name (tag (vg_ctx g)))
                             (client_addr request)] (others (o1 0%nat) s1)
       /\ o' = later o1)
  else block_on (inner request) o s = Value (resp, s', o').
Proof.
  unfold VaultGuardService_call. destruct (existsb _ _); simpl; [|done].
  intros [Ha|(f & s1 & o1 & -> & Ha)]%guarded_cases; [by left|]. right. exists f, s1, o1.
  split; [by destruct f|exact Ha].
Qed.

(** The same for the admin guard, on GET. *)
Theorem admin_guard_safe g inner request (o : schedule senv (server X)) s resp s' o' :
  block_on (AdminGuardService_call g inner request) o s = Value (resp, s', o') ->
  if String.eqb (method request) "GET" then
    (exists subject s1 o1,
       authenticated request (ag_ctx g) (trace (authenticate_common request (ag_ctx g)) o s) subject
       /\ block_on (authenticate_common request (ag_ctx g)) o s = Value (Ok subject, s1, o1)
       /\ block_on (inner (insert_admin (AdminSubject_new subject) request)) o1 s1
          = Value (resp, s', o'))
    \/ (exists failure s1 o1,
       resp = (if bool_decide (failure = MemoryPressure) then respond_503_memory_pressure else respond_401)
       /\ block_on (authenticate_common request (ag_ctx g)) o s = Value (Err failure, s1, o1)
       /\ s' = log_events [AuthFailureEvent (category failure) (tag_name (tag (ag_ctx g)))
                             (client_addr request)] (others (o1 0%nat) s1)
       /\ o' = later o1)
  else block_on (inner request) o s = Value (resp, s', o').
Proof.
  unfold AdminGuardService_call. destruct (String.eqb _ _); simpl; [|done].
  intros [Ha|(f & s1 & o1 & -> & Ha)]%guarded_cases; [by left|]. right. exists f, s1, o1.
  split; [by destruct f|exact Ha].
Qed.

(** ** Isolation of the audiences *)

(** Documented behaviour of [decode]: the claims are the token's payload,
    whichever key verified it. *)
Definition claims_are_payload : Prop :=
  forall raw k k' v v' (c c' : TokenClaims),
    jwt_decode raw k v = Ok c -> jwt_decode raw k' v' = Ok c' -> c = c'.

(** C11. A token accepted for one audience is never accepted for another.  If
    one call accepted a raw token for a context, no call, at any other time and
    state, authenticates a request that carries the same raw token for a
    context with a different audience. *)
Theorem audiences_isolated raw ctx ctx' tr t claims request (o : schedule senv (server X)) s r s' o' :
  claims_are_payload -> ctx_audience ctx <> ctx_audience ctx' ->
  token_accepted (X := X) raw ctx tr t claims -> extract_token request = Ok raw ->
  block_on (authenticate_common request ctx') o s = Value (r, s', o') ->
  exists failure, r = Err failure.
Proof.
  intros Hpay Hne [(h & a & e & s0 & s0' & k & key & _ & _ & _ & _ & _ & Hj) (_ & _ & Haud & _) _ Ha _ _] Hx Hb.
  destruct r as [subject|f]; [|by eexists].
  apply authenticate_common_Ok in Hb as (rt & rp & u & t' & c' & p & Ht & _ & _ & Hacc & _).
  assert (rt = raw) as -> by congruence.
  destruct Hacc as [(h' & a' & e' & s2 & s2' & k' & key' & _ & _ & _ & _ & _ & Hj') (_ & _ & Haud' & _) _ Ha' _ _].
  exfalso. apply Hne. rewrite <- Ha, <- Ha'.
  rewrite (Hpay _ _ _ _ _ _ _ Hj Hj') in Haud. congruence.
Qed.
End spec.

(** ** Witnesses *)

Definition fx_request (token proof : string) : Request := {|
  method := "GET"; uri_authority := None; uri_path_and_query := Some "/api/whoami";
  headers name :=
    if String.eqb name "authorization" then Some ("DPoP " +:+ token)
    else if String.eqb name "dpop" then Some proof
    else if String.eqb name "host" then Some "vault.example" else None;
  extensions := no_extensions; req_body := Some ([] : bytes) |}.

(** A handler that answers with the subject it finds. *)
Definition fx_handler (request : Request) : task unit Response :=
  Done (response 200 []
    match ext_vault (extensions request), ext_admin (extensions request) with
    | Some v, _ => as_bytes (VaultSubject_into_string v)
    | None, Some a => as_bytes (AdminSubject_into_string a)
    | None, None => []
    end).

(** The response and the log of a run. *)
Definition observed {X} (r : outcome (Response * server X * schedule senv (server X))) :
    option (Response * list Event) :=
  match r with Value (resp, s, _) => Some (resp, srv_log s) | Panic => None end.

Definition fx_vault_call (token : string) :=
  block_on (VaultGuardService_call (vault_guard fx_vault) fx_handler (fx_request token "prf"))
    (alone (fx_env 100 "n")) fx_server.

Lemma fx_vault_call_ok : observed (fx_vault_call "tok") = Some (response 200 [] (as_bytes "alice"), []).
Proof. vm_compute. reflexivity. Qed.

Lemma vault_guard_safe_witness :
  exists subject, authenticated (fx_request "tok" "prf") fx_vault
    (trace (authenticate_common (fx_request "tok" "prf") fx_vault) (alone (fx_env 100 "n")) fx_server) subject.
Proof.
  pose proof fx_vault_call_ok as Hc. destruct (fx_vault_call "tok") as [[[resp s'] o']|] eqn:Hr; [|discriminate Hc].
  injection Hc as Hresp Hlog.
  destruct (vault_guard_safe (vault_guard fx_vault) fx_handler (fx_request "tok" "prf") _ _ _ _ _ Hr)
    as [(subject & s1 & o1 & Ha & _)|(f & s1 & o1 & Hf & _)].
  - exists subject. exact Ha.
  - exfalso. rewrite Hresp in Hf. destruct (bool_decide _); discriminate Hf.
Defined.

(** The same token at the admin guard. *)
Definition fx_admin_call :=
  block_on (AdminGuardService_call (admin_guard fx_admin) fx_handler (fx_request "tok" "prf"))
    (alone (fx_env 100 "n")) fx_server.

Lemma fx_admin_call_401 :
  observed fx_admin_call = Some (respond_401, [AuthFailureEvent "auth.token.bad_signature" "admin" LOCALHOST]).
Proof. vm_compute. reflexivity. Qed.

Lemma admin_guard_safe_witness :
  exists failure (s1 s' : server unit), observed fx_admin_call = Some (respond_401, srv_log s')
    /\ s' = log_events [AuthFailureEvent (category failure) "admin" LOCALHOST] s1.
Proof.
  pose proof fx_admin_call_401 as Hc. destruct fx_admin_call as [[[resp s'] o']|] eqn:Hr; [|discriminate Hc].
  injection Hc as Hresp Hlog.
  destruct (admin_guard_safe (admin_guard fx_admin) fx_handler (fx_request "tok" "prf") _ _ _ _ _ Hr)
    as [(subject & s1 & o1 & _ & _ & Hi)|(f & s1 & o1 & _ & _ & Hs & _)].
  - exfalso. injection Hi as Hi _ _. rewrite Hresp in Hi. discriminate Hi.
  - exists f, (others (o1 0%nat) s1), s'. split; [simpl; rewrite Hresp; reflexivity|exact Hs].
Defined.

Lemma fx_claims_are_payload : claims_are_payload.
Proof.
  intros raw k k' v v' c c'. unfold jwt_decode, fx_decode_token, table_decode.
  destruct (assoc raw _) as [[key cl]|]; [|done].
  destruct (bool_decide _); [|done]. destruct (bool_decide _); [|done]. congruence.
Qed.

Lemma audiences_isolated_witness :
  exists f, match block_on (authenticate_common (fx_request "tok" "prf") fx_admin) (alone (fx_env 100 "n"))
    fx_server with Value (r, _, _) => r | Panic => Ok "" end = Err f.
Proof.
  destruct (block_on (validate_token "tok" fx_vault) (alone (fx_env 100 "n")) fx_server)
    as [[[rv sv] ov]|] eqn:Hv; [|discriminate Hv].
  assert (match block_on (validate_token "tok" fx_vault) (alone (fx_env 100 "n")) fx_server with
    Value (r, _, _) => r | Panic => Err MissingToken end = Ok fx_token) as Hrv by (vm_compute; reflexivity).
  rewrite Hv in Hrv. rewrite Hrv in Hv. destruct (validate_token_Ok _ _ _ _ _ _ _ Hv) as [claims Hacc].
  destruct (block_on (authenticate_common (fx_request "tok" "prf") fx_admin) (alone (fx_env 100 "n")) fx_server)
    as [[[r s'] o']|] eqn:Hr.
  - exact (audiences_isolated "tok" fx_vault fx_admin _ fx_token claims (fx_request "tok" "prf") _ _ _ _ _
      fx_claims_are_payload ltac:(discriminate) Hacc eq_refl Hr).
  - exfalso. assert (match block_on (authenticate_common (fx_request "tok" "prf") fx_admin)
      (alone (fx_env 100 "n")) fx_server with Value _ => true | Panic => false end = true) as Hp
      by (vm_compute; reflexivity).
    rewrite Hr in Hp. discriminate Hp.
Defined.
