(* ===== verification/Storage.v ===== *)
(** * Storage: the [StorageProvider] interface

    [storage/provider.rs]: the error types, the categorisation of I/O errors,
    and the trait as a class, with the contract its documentation states
    (atomic and idempotent [put], idempotent [delete], [get]/[exists]
    consistent) as a class of laws over an abstract view of the stored blocks.
    Route handlers are verified against [StorageLaws]; [LocalFs] discharges it. *)

From S2P Require Import Prelude RustStd BlockId.

Inductive BackendFailureCause : Type := DiskFull | CausePermissionDenied | IoErrorCause.

Global Instance BackendFailureCause_eq_dec : EqDecision BackendFailureCause.
Proof. solve_decision. Defined.

Definition classify (err : ErrorKind) : BackendFailureCause :=
  match err with
  | StorageFull => DiskFull
  | PermissionDenied => CausePermissionDenied
  | _ => IoErrorCause
  end.

Definition cause_as_str (c : BackendFailureCause) : string :=
  match c with
  | DiskFull => "disk_full"
  | CausePermissionDenied => "permission_denied"
  | IoErrorCause => "io_error"
  end.

Inductive StorageError : Type :=
  | SE_NotFound
  | SE_Backend (cause : BackendFailureCause) (source : ErrorKind).

Global Instance StorageError_eq_dec : EqDecision StorageError.
Proof. solve_decision. Defined.

(** [StorageError::Backend { cause: classify(&source), source }]. *)
Definition backend (source : ErrorKind) : StorageError := SE_Backend (classify source) source.

Inductive StorageInitError : Type :=
  | RootMissing (path : string)
  | RootNotDirectory (path : string)
  | RootNotWritable (path : string) (source : ErrorKind).

Definition init_step (e : StorageInitError) : string :=
  match e with
  | RootMissing _ => "metadata"
  | RootNotDirectory _ => "is_dir"
  | RootNotWritable _ _ => "probe_write"
  end.

Definition init_cause (e : StorageInitError) : string :=
  match e with
  | RootMissing _ => "io_error"
  | RootNotDirectory _ => "io_error"
  | RootNotWritable _ source => cause_as_str (classify source)
  end.

Definition init_root_path (e : StorageInitError) : string :=
  match e with
  | RootMissing path => path
  | RootNotDirectory path => path
  | RootNotWritable path _ => path
  end.

(** [trait StorageProvider]; [S] is everything an operation reads or changes,
    the environment's choices included. *)
Class StorageProvider (S : Type) := {
  put : BlockId -> bytes -> S -> result StorageError unit * S;
  get : BlockId -> S -> result StorageError bytes * S;
  delete_block : BlockId -> S -> result StorageError unit * S;
  exists_block : BlockId -> S -> result StorageError bool * S;
}.

(** The trait's documented contract, over the view [stored s id].  [foreign s id]
    says that something other than a block is in the block's place (for a file
    system, a directory): no operation puts it there, [exists] reports it as
    present, and where there is none [exists] tells exactly whether the block
    is stored, as [get] does (FR-005). *)
Class StorageLaws {S : Type} (P : StorageProvider S) (stored : S -> BlockId -> option bytes)
    (foreign : S -> BlockId -> Prop) : Prop := {
  put_law id p s r s' :
    block_id_wf id -> put id p s = (r, s') ->
    (r = Ok () /\
     forall id', block_id_wf id' ->
       stored s' id' = if decide (id' = id) then Some p else stored s id')
    \/ (exists c k, r = Err (SE_Backend c k)) /\
       forall id', block_id_wf id' -> stored s' id' = stored s id';
  get_law id s r s' :
    block_id_wf id -> get id s = (r, s') ->
    (forall id', block_id_wf id' -> stored s' id' = stored s id')
    /\ match r with
       | Ok b => stored s id = Some b
       | Err SE_NotFound => stored s id = None /\ ~ foreign s id
       | Err (SE_Backend _ _) => True
       end;
  delete_law id s r s' :
    block_id_wf id -> delete_block id s = (r, s') ->
    (r = Ok () /\
     forall id', block_id_wf id' ->
       stored s' id' = if decide (id' = id) then None else stored s id')
    \/ (exists c k, r = Err (SE_Backend c k)) /\
       forall id', block_id_wf id' -> stored s' id' = stored s id';
  exists_law id s r s' :
    block_id_wf id -> exists_block id s = (r, s') ->
    (forall id', block_id_wf id' -> stored s' id' = stored s id')
    /\ match r with
       | Ok true => is_Some (stored s id) \/ foreign s id
       | Ok false => stored s id = None /\ ~ foreign s id
       | Err e => exists c k, e = SE_Backend c k
       end;
  foreign_law id p s id' :
    block_id_wf id -> block_id_wf id' ->
    let adds_none s' := foreign s' id' -> foreign s id' in
    adds_none (snd (put id p s)) /\ adds_none (snd (get id s)) /\ adds_none (snd (delete_block id s))
    /\ adds_none (snd (exists_block id s));
}.
