(* ===== verification/Blocks.v ===== *)
(** * Blocks: the block handlers

    [routes/api/blocks.rs], over any storage that offers the trait's operations.  A storage call is a program of steps on the storage
    component of the server's state: one step for a [StorageProvider], the
    system calls of the operation for the local backend ([LocalFsCalls]). *)

From S2P Require Import Prelude RustStd Crates BlockId Jwks ServerConfig Replay Logging Context.
From S2P Require Import Async Server Http Failure Storage.

Definition RETRY_AFTER_SECONDS : string := "5".

Definition respond_block_200 (payload : bytes) : Response :=
  response 200 [("content-type", "application/octet-stream");
                ("content-length", show_N (bytes_len payload)); ("cache-control", "no-store")] payload.
Definition respond_block_204 : Response := response 204 [] [].
Definition respond_block_400 : Response := response 400 [("content-length", "0")] [].
Definition respond_block_404 : Response := response 404 [("content-length", "0")] [].
Definition respond_block_503 : Response :=
  response 503 [("content-length", "0"); ("retry-after", RETRY_AFTER_SECONDS)] [].

(** ** The storage as its callers see it

    The operations of the trait are async functions, programs of steps on the
    storage component. *)
Section interface.
Context `{UrlCrate} `{IpnetCrate} {X : Type}.

Class AsyncStorage := {
  put_call : BlockId -> bytes -> task X (result StorageError unit);
  get_call : BlockId -> task X (result StorageError bytes);
  delete_call : BlockId -> task X (result StorageError unit);
  exists_call : BlockId -> task X (result StorageError bool);
}.

(** A provider whose operations happen at once. *)
Definition storage_call {R} (op : X -> R * X) : task X R :=
  atomic (fun _ s => let '(r, x) := op (srv_storage s) in Value (r, set_storage x s)).

#[export] Instance atomically (P : StorageProvider X) : AsyncStorage := {
  put_call id payload := storage_call (put id payload);
  get_call id := storage_call (get id);
  delete_call id := storage_call (delete_block id);
  exists_call id := storage_call (exists_block id);
}.
End interface.
Arguments AsyncStorage {_} X.

Section blocks.
Context `{UrlCrate} `{IpnetCrate} `{HttpCrate} `{Target}.
Context {X : Type} `{!AsyncStorage X}.

Definition handle_get (id : BlockId) (subject : string) (address : IpAddr) : task X Response :=
  let* r := get_call id in
  match r with
  | Ok payload =>
      let* _u := emit (BlockGetHit (as_str id) subject address) in Done (respond_block_200 payload)
  | Err SE_NotFound =>
      let* _u := emit (BlockGetMiss (as_str id) subject address) in Done respond_block_404
  | Err (SE_Backend cause _) =>
      let* _u := emit (BlockGetBackendFailed (as_str id) subject address (cause_as_str cause)) in
      Done respond_block_503
  end.

Definition content_length (request : Request) : option N :=
  header_str "content-length" request ≫= parse_u64.

(** The read of the body ([to_bytes(..).await]) touches nothing that is shared
    and is not a step: [req_body] is what the client ends up sending, or [None]
    when the connection fails.  That the client does end is assumed. *)
Definition handle_put (id : BlockId) (subject : string) (address : IpAddr) (block_size_bytes : N)
    (request : Request) : task X Response :=
  if match content_length request with
     | Some declared => negb (declared =? block_size_bytes)
     | None => false
     end
  then Done respond_block_400 else
  match u64_checked_add block_size_bytes 1 with
  | None => Done respond_block_400
  | Some n =>
      let limit := as_usize n in
      match to_bytes (req_body request) limit with
      | None => Done respond_block_400
      | Some bytes =>
          if negb (bytes_len bytes =? block_size_bytes) then Done respond_block_400 else
          let* r := put_call id bytes in
          match r with
          | Ok _ =>
              let* _u := emit (BlockPutOk (as_str id) subject address block_size_bytes) in
              Done respond_block_204
          | Err (SE_Backend cause _) =>
              let* _u := emit (BlockPutBackendFailed (as_str id) subject address (cause_as_str cause)) in
              Done respond_block_503
          | Err SE_NotFound => Done respond_block_503
          end
      end
  end.

Definition handle_delete (id : BlockId) (subject : string) (address : IpAddr) : task X Response :=
  let* r := delete_call id in
  match r with
  | Ok _ =>
      let* _u := emit (BlockDeleteOk (as_str id) subject address) in Done respond_block_204
  | Err (SE_Backend cause _) =>
      let* _u := emit (BlockDeleteBackendFailed (as_str id) subject address (cause_as_str cause)) in
      Done respond_block_503
  | Err SE_NotFound =>
      let* _u := emit (BlockDeleteOk (as_str id) subject address) in Done respond_block_204
  end.

Definition subject_from_request (request : Request) : string :=
  unwrap_or (VaultSubject_into_string <$> ext_vault (extensions request)) "<unauthenticated>".

Definition handle_block (config : ServerConfig) (request : Request) : task X Response :=
  let subject := subject_from_request request in
  let address := client_addr request in
  let raw_path := uri_path request in
  let id_str := unwrap_or (strip_prefix "/api/blocks/" raw_path) "" in
  match parse id_str with
  | None =>
      let* _u := emit (BlockGetMiss BLOCK_ID_MALFORMED subject address) in
      Done respond_block_404
  | Some id =>
      if String.eqb (method request) "GET" then handle_get id subject address
      else if String.eqb (method request) "PUT" then
        handle_put id subject address (block_size_bytes config) request
      else if String.eqb (method request) "DELETE" then handle_delete id subject address
      else
        let* _u := emit (BlockGetMiss (as_str id) subject address) in
        Done respond_block_404
  end.
End blocks.
