(* ===== verification/StorageSpec.v ===== *)
(** * StorageSpec: what the server relies on of its storage

    The trait's contract for storages whose operations are programs of steps:
    the steps touch nothing but the storage and end ([StorageSteps]), and each
    operation takes effect at once, in one of its steps, although others run in
    between ([LinearStorage]).  A [StorageProvider] that obeys [StorageLaws]
    obeys both; [LocalFsCalls] shows that the system calls of the local backend
    do. *)

From S2P Require Import Prelude RustStd Crates BlockId Jwks ServerConfig Replay Logging Context.
From S2P Require Import Async Linearize Server Http Failure Storage Blocks.

Section steps.
Context `{UrlCrate} {X : Type}.
Implicit Types (s : server X).

Definition only_storage s s' : Prop := exists x, s' = set_storage x s.

Abbreviation storage_ends n p := (ends (fun _ : senv => True) only_storage n (fun _ => True) p).

(** Every operation takes at most [n] steps, none of which panics. *)
Class StorageSteps (calls : AsyncStorage X) (n : nat) : Prop := {
  put_ends id payload : storage_ends n (put_call id payload);
  get_ends id : storage_ends n (get_call id);
  delete_ends id : storage_ends n (delete_call id);
  exists_ends id : storage_ends n (exists_call id);
}.

Lemma storage_call_ends {R} (op : X -> R * X) : storage_ends 1 (storage_call op).
Proof.
  apply ends_atomic; [|done]. split; [intros e s _; by destruct (op _)|].
  intros e s r s' Ha. destruct (op _) as [r' x]. injection Ha as _ <-. by exists x.
Qed.

#[export] Instance atomically_steps (P : StorageProvider X) : StorageSteps (atomically P) 1.
Proof. split; intros; apply storage_call_ends. Qed.

(** The bound of a storage that may be absent. *)
Definition storage_steps (storage : option (AsyncStorage X)) (n : nat) : Prop :=
  match storage with Some calls => StorageSteps calls n | None => True end.
End steps.

(** ** The abstract vault *)

(** The blocks under well-formed identifiers. *)
Definition vault : Type := BlockId -> option bytes.

#[export] Instance vault_equiv : Equiv vault := fun b b' => forall id, block_id_wf id -> b id = b' id.

#[export] Instance vault_equivalence : Equivalence (≡@{vault}).
Proof.
  split; [done|by intros b b' Hb id Hid; rewrite Hb|].
  by intros b1 b2 b3 H1 H2 id Hid; rewrite H1, H2.
Qed.

Definition write (id : BlockId) (d : option bytes) (b : vault) : vault :=
  fun id' => if decide (id' = id) then d else b id'.

#[export] Instance write_proper id d : Proper ((≡) ==> (≡)) (write id d).
Proof. intros b b' Hb id' Hid. unfold write. case_decide; [done|]. by apply Hb. Qed.

(** The operations on it, with the results they report. *)
Definition put_spec (id : BlockId) (d : bytes) (b : vault) (r : result StorageError unit) (b' : vault) : Prop :=
  (r = Ok () /\ write id (Some d) b ≡ b') \/ (exists c k, r = Err (SE_Backend c k)) /\ b ≡ b'.

Definition get_spec (id : BlockId) (b : vault) (r : result StorageError bytes) (b' : vault) : Prop :=
  b ≡ b' /\ match r with
            | Ok d => b id = Some d
            | Err SE_NotFound => b id = None
            | Err (SE_Backend _ _) => True
            end.

Definition delete_spec (id : BlockId) (b : vault) (r : result StorageError unit) (b' : vault) : Prop :=
  (r = Ok () /\ write id None b ≡ b') \/ (exists c k, r = Err (SE_Backend c k)) /\ b ≡ b'.

(** ** Operations that take effect once *)

Section linear.
Context `{UrlCrate} {X : Type} (stored : X -> vault).
Implicit Types (s : server X).

(** The blocks of a state. *)
Definition view s : vault := stored (srv_storage s).

(** The client's side of the interface: what the route handlers rely on while
    other requests run.  No handler calls [exists]; its contract is in
    [StorageLaws] and, under interleaving, in [LocalFsAtomic]. *)
Class LinearStorage (calls : AsyncStorage X) (C : Claims (server X)) : Prop := {
  storage_inert s s' : srv_storage s' = srv_storage s -> inert view s s';
  put_once id d : block_id_wf id -> once view (put_spec id d) nothing (put_call id d);
  get_once id : block_id_wf id -> once view (get_spec id) nothing (get_call id);
  delete_once id : block_id_wf id -> once view (delete_spec id) nothing (delete_call id);
}.

(** A provider that obeys the contract takes effect in its one step. *)
Lemma storage_call_once {R} (f : vault -> R -> vault -> Prop) (op : X -> R * X) :
  (forall x r x', op x = (r, x') -> f (stored x) r (stored x')) ->
  once (Claims0 := no_claims (server X)) view f nothing (storage_call op).
Proof.
  intros Hop e s r s' _ Ha. destruct (op (srv_storage s)) as [r' x] eqn:Ho. injection Ha as <- <-.
  exists (). split; [done|]. split; [done|]. right. exists r'. split; [by apply Hop|done].
Qed.

#[export] Instance atomically_linear (P : StorageProvider X) (foreign : X -> BlockId -> Prop) `{!StorageLaws P stored foreign} :
  LinearStorage (atomically P) (no_claims (server X)).
Proof.
  split.
  - intros s s' Hs. split; [|done]. unfold untouched, view. by rewrite Hs.
  - intros id d Hid. apply storage_call_once. intros x r x' [[-> Hst]|[He Hst]]%put_law; [left|right|done].
    + split; [done|]. intros id' Hid'. symmetry. by apply Hst.
    + split; [done|]. intros id' Hid'. symmetry. by apply Hst.
  - intros id Hid. apply storage_call_once. intros x r x' [Hst Hr]%get_law; [|done].
    split; [intros id' Hid'; symmetry; by apply Hst|]. by destruct r as [|[]]; [|destruct Hr|].
  - intros id Hid. apply storage_call_once. intros x r x' [[-> Hst]|[He Hst]]%delete_law; [left|right|done].
    + split; [done|]. intros id' Hid'. symmetry. by apply Hst.
    + split; [done|]. intros id' Hid'. symmetry. by apply Hst.
Qed.
End linear.
