(* ===== verification/BlocksSpec.v ===== *)
(** * BlocksSpec: the block API against the storage interface

    Every theorem holds for any backend that keeps the contract
    [StorageLaws]; [LocalFsSpec] proves the contract for the local one. *)

From S2P Require Import Prelude RustStd Crates Fs Instances BlockId Crypto Jwks ServerConfig Replay.
From S2P Require Import Logging Context Async Server Http Failure Fixtures ContextSpec Storage.
From S2P Require Import Blocks.

Section spec.
Context `{UrlCrate} `{IpnetCrate} `{HttpCrate} `{Target}.
Context {X : Type} `{P : !StorageProvider X} {stored : X -> BlockId -> option bytes}.
Context {foreign : X -> BlockId -> Prop} `{!StorageLaws P stored foreign}.
Implicit Types (s : server X) (e : senv).

(** The block the backend holds under an identifier. *)
Definition held s (id : BlockId) : option bytes := stored (srv_storage s) id.

Definition same_blocks s s' : Prop := forall id, block_id_wf id -> held s' id = held s id.
Definition updated s s' (id : BlockId) (v : option bytes) : Prop :=
  forall id', block_id_wf id' -> held s' id' = if decide (id' = id) then v else held s id'.

(** A body that is readable, as long as a block, and not announced otherwise. *)
Definition exact_body (size : N) (request : Request) (d : bytes) : Prop :=
  body_data (req_body request) = Some d /\ bytes_len d = size
  /\ forall n, content_length request = Some n -> n = size.

Lemma length_mismatch_false size request :
  match content_length request with Some n => negb (n =? size) | None => false end = false <->
  forall n, content_length request = Some n -> n = size.
Proof.
  destruct (content_length request) as [n|]; [|naive_solver]. rewrite negb_false_iff, N.eqb_eq. naive_solver.
Qed.

Lemma read_body size request :
  size + 1 <= usize_max -> size + 1 <= u64_max ->
  u64_checked_add size 1 = Some (size + 1)
  /\ (forall d, to_bytes (req_body request) (as_usize (size + 1)) = Some d /\ bytes_len d = size <->
        body_data (req_body request) = Some d /\ bytes_len d = size).
Proof.
  intros Hu H64. split; [by apply u64_checked_add_Some|]. intros d.
  rewrite to_bytes_spec, as_usize_exact by done. destruct (body_data _) as [d'|]; [|naive_solver].
  destruct (N.leb_spec (bytes_len d') (size + 1)); [done|].
  split; [by intros [[=] _]|]. intros [[= <-] Hl]. lia.
Qed.

Lemma usize_max_bound : usize_max <= u64_max.
Proof. destruct usize_width as [-> | ->]; unfold u32_max, u64_max; lia. Qed.

Lemma exact_body_unique size request d d' :
  exact_body size request d -> exact_body size request d' -> d = d'.
Proof. intros (Hd & _) (Hd' & _). congruence. Qed.

Lemma handle_put_spec bid subject address size request e s resp s' :
  block_id_wf bid -> size + 1 <= usize_max ->
  returns (handle_put bid subject address size request) (alone e) s resp s' ->
  (exists d, exact_body size request d
     /\ ((resp = respond_block_204 /\ updated s s' bid (Some d))
         \/ (resp = respond_block_503 /\ same_blocks s s')))
  \/ ((forall d, ~ exact_body size request d) /\ resp = respond_block_400 /\ s' = s).
Proof.
  intros Hid Hsz [o' Hb]. pose proof usize_max_bound as Hmax.
  destruct (read_body size request Hsz ltac:(lia)) as [Hadd Hread].
  unfold handle_put in Hb. rewrite Hadd in Hb.
  destruct (match content_length request with Some n => negb (n =? size) | None => false end) eqn:Hcl.
  { injection Hb as <- <- _. right. split; [|done]. intros d (_ & _ & Hn).
    apply length_mismatch_false in Hn. by rewrite Hn in Hcl. }
  rewrite length_mismatch_false in Hcl.
  destruct (to_bytes _ _) as [d0|] eqn:Ht.
  2: { injection Hb as <- <- _. right. split; [|done]. intros d (Hd & Hl & _).
       by destruct (proj2 (Hread d) (conj Hd Hl)). }
  destruct (N.eqb_spec (bytes_len d0) size) as [Hlen|Hlen].
  2: { injection Hb as <- <- _. right. split; [|done]. intros d (Hd & Hl & _).
       destruct (proj2 (Hread d) (conj Hd Hl)) as [[= ->] _]. done. }
  destruct (proj1 (Hread d0) (conj eq_refl Hlen)) as [Hbody _]. left. exists d0. split; [done|].
  simpl in Hb. unfold Datatypes.id in Hb. destruct (put bid d0 (srv_storage s)) as [r x] eqn:Hput.
  destruct (put_law bid d0 (srv_storage s) r x Hid Hput) as [[-> Hst]|[(c & k & ->) Hst]];
    simpl in Hb; injection Hb as <- <- _; [left|right]; done.
Qed.

(** C21. A PUT stores exactly the blocks of the configured size.  With a
    readable body of exactly [block_size_bytes] bytes and no contrary
    [Content-Length], the block becomes those bytes and nothing else changes
    (204), or the backend fails and nothing changes (503); with any other body
    the answer is the fixed 400 and nothing at all happens. *)
Theorem put_exact_size bid subject address size request e s resp s' :
  block_id_wf bid -> size + 1 <= usize_max ->
  returns (handle_put bid subject address size request) (alone e) s resp s' ->
  (forall d, exact_body size request d ->
     (resp = respond_block_204 /\ updated s s' bid (Some d))
     \/ (resp = respond_block_503 /\ same_blocks s s'))
  /\ ((forall d, ~ exact_body size request d) -> resp = respond_block_400 /\ s' = s).
Proof.
  intros Hid Hsz Hb.
  destruct (handle_put_spec _ _ _ _ _ _ _ _ _ Hid Hsz Hb) as [(d & Hex & Hr)|(Hno & Hr)].
  - split; [|intros Hno; by destruct (Hno d)].
    intros d' Hex'. by rewrite (exact_body_unique _ _ _ _ Hex' Hex).
  - split; [|done]. intros d' Hex'. by destruct (Hno d').
Qed.

Lemma handle_get_delete_spec bid subject address e s resp s' :
  block_id_wf bid ->
  (returns (handle_get bid subject address) (alone e) s resp s' ->
     same_blocks s s'
     /\ ((exists d, held s bid = Some d /\ resp = respond_block_200 d)
         \/ (held s bid = None /\ resp = respond_block_404) \/ resp = respond_block_503))
  /\ (returns (handle_delete bid subject address) (alone e) s resp s' ->
     (resp = respond_block_204 /\ updated s s' bid None)
     \/ (resp = respond_block_503 /\ same_blocks s s')).
Proof.
  intros Hid. split; intros [o' Hb]; simpl in Hb; unfold Datatypes.id in Hb.
  - destruct (get bid (srv_storage s)) as [r x] eqn:Hg.
    destruct (get_law bid (srv_storage s) r x Hid Hg) as [Hsame Hr].
    destruct r as [d|[|c k]]; simpl in Hb; injection Hb as <- <- _; (split; [exact Hsame|]); [|destruct Hr|]; eauto 6.
  - destruct (delete_block bid (srv_storage s)) as [r x] eqn:Hdel.
    destruct (delete_law bid (srv_storage s) r x Hid Hdel) as [[-> Hst]|[(c & k & ->) Hst]];
      simpl in Hb; injection Hb as <- <- _; [left|right]; done.
Qed.

(** A GET answers with exactly the stored bytes, 404 only for an absent
    block, and 503 only when the backend fails; a DELETE leaves the block absent
    (204, also when it was absent before) or nothing changed (503).  A GET
    changes no block, and neither touches any other block. *)
Theorem get_delete_faithful bid subject address e s resp s' :
  block_id_wf bid ->
  (returns (handle_get bid subject address) (alone e) s resp s' ->
     same_blocks s s'
     /\ ((exists d, held s bid = Some d /\ resp = respond_block_200 d)
         \/ (held s bid = None /\ resp = respond_block_404) \/ resp = respond_block_503))
  /\ (returns (handle_delete bid subject address) (alone e) s resp s' ->
     (resp = respond_block_204 /\ updated s s' bid None)
     \/ (resp = respond_block_503 /\ same_blocks s s')).
Proof. apply handle_get_delete_spec. Qed.

(** What is written is what is read.  After a 204 for a PUT, a GET of the
    same identifier answers 200 with the body of that PUT, or 503; after a 204
    for a DELETE it answers 404 or 503; and a GET of any other identifier
    answers as it would have before. *)
Theorem block_roundtrip bid bid' subject address size request e e' s s1 s2 resp :
  block_id_wf bid -> block_id_wf bid' -> size + 1 <= usize_max ->
  returns (handle_get bid' subject address) (alone e') s1 resp s2 ->
  (returns (handle_put bid subject address size request) (alone e) s respond_block_204 s1 ->
     resp = respond_block_503
     \/ if decide (bid' = bid)
        then exists d, body_data (req_body request) = Some d /\ resp = respond_block_200 d
        else resp = match held s bid' with Some d => respond_block_200 d | None => respond_block_404 end)
  /\ (returns (handle_delete bid subject address) (alone e) s respond_block_204 s1 ->
     resp = respond_block_503
     \/ if decide (bid' = bid) then resp = respond_block_404
        else resp = match held s bid' with Some d => respond_block_200 d | None => respond_block_404 end).
Proof.
  intros Hid Hid' Hsz Hget.
  destruct (proj1 (handle_get_delete_spec bid' subject address e' s1 resp s2 Hid') Hget)
    as [_ [(d & Hd & ->)|[[Hn ->]| ->]]]; [| |by split; left].
  - split; intros Hw; right.
    + destruct (handle_put_spec _ _ _ _ _ _ _ _ _ Hid Hsz Hw) as [(d' & (Hb & _) & [[_ Hup]|[[=] _]])|(_ & [=] & _)].
      rewrite (Hup bid' Hid') in Hd. case_decide; [simplify_eq; eauto|by rewrite Hd].
    + destruct (proj2 (handle_get_delete_spec _ _ _ _ _ _ _ Hid) Hw) as [[_ Hup]|[[=] _]].
      rewrite (Hup bid' Hid') in Hd. case_decide; [done|by rewrite Hd].
  - split; intros Hw; right.
    + destruct (handle_put_spec _ _ _ _ _ _ _ _ _ Hid Hsz Hw) as [(d' & (Hb & _) & [[_ Hup]|[[=] _]])|(_ & [=] & _)].
      rewrite (Hup bid' Hid') in Hn. case_decide; [done|by rewrite Hn].
    + destruct (proj2 (handle_get_delete_spec _ _ _ _ _ _ _ Hid) Hw) as [[_ Hup]|[[=] _]].
      rewrite (Hup bid' Hid') in Hn. case_decide; [done|by rewrite Hn].
Qed.

(** ** Uniform answers *)

Definition block_id_of (request : Request) : option BlockId :=
  parse (unwrap_or (strip_prefix "/api/blocks/" (uri_path request)) "").

Definition served_method (m : string) : bool :=
  String.eqb m "GET" || String.eqb m "PUT" || String.eqb m "DELETE".

(** C31. An identifier that does not parse and a method that is not served get
    the very answer of an absent block, without any storage call, and the log
    shows the fixed sentinel instead of a malformed identifier; and no request
    whatever, under any interference, is answered with anything but a block's
    bytes or one of the four fixed responses. *)
Theorem block_answers_uniform config request (o : schedule senv (server X)) s e :
  (block_id_of request = None ->
     returns (handle_block config request) (alone e) s respond_block_404
       (log_events [BlockGetMiss BLOCK_ID_MALFORMED (subject_from_request request) (client_addr request)] s))
  /\ (forall bid, block_id_of request = Some bid -> served_method (method request) = false ->
     returns (handle_block config request) (alone e) s respond_block_404
       (log_events [BlockGetMiss (as_str bid) (subject_from_request request) (client_addr request)] s))
  /\ (forall resp s' o', block_on (handle_block config request) o s = Value (resp, s', o') ->
     (exists d, resp = respond_block_200 d)
     \/ resp ∈ [respond_block_204; respond_block_400; respond_block_404; respond_block_503]).
Proof.
  unfold block_id_of, handle_block. split; [|split].
  - intros ->. by eexists.
  - intros bid ->. unfold served_method. rewrite !orb_false_iff. intros [[-> ->] ->]. by eexists.
  - intros resp s' o'. destruct (parse _) as [bid|]; [|simpl; intros [= <- _ _]; set_solver].
    destruct (String.eqb _ _); [|destruct (String.eqb _ _); [|destruct (String.eqb _ _)]].
    + simpl. destruct (get bid _) as [[d|[|c k]] x]; simpl; intros [= <- _ _]; [eauto|set_solver..].
    + unfold handle_put. destruct (match content_length request with Some _ => _ | None => _ end);
        [intros [= <- _ _]; set_solver|].
      destruct (u64_checked_add _ 1); [|intros [= <- _ _]; set_solver].
      destruct (to_bytes _ _) as [d|]; [|intros [= <- _ _]; set_solver].
      destruct (negb _); [intros [= <- _ _]; set_solver|]. simpl.
      destruct (put bid d _) as [[u|[|c k]] x]; simpl; intros [= <- _ _]; set_solver.
    + simpl. destruct (delete_block bid _) as [[d|[|c k]] x]; simpl; intros [= <- _ _]; set_solver.
    + simpl. intros [= <- _ _]. set_solver.
Qed.
End spec.

(** On a 32-bit target the largest block size that fits [u32] makes the read
    limit wrap to zero: every PUT is refused. *)
Lemma put_refused_on_32bit `{UrlCrate} `{IpnetCrate} `{HttpCrate} {X} `{!StorageProvider X}
    bid subject address request e (s : server X) :
  returns (handle_put (H2 := target32) bid subject address u32_max request) (alone e) s respond_block_400 s.
Proof.
  unfold handle_put. destruct (match content_length request with Some _ => _ | None => _ end); [by eexists|].
  change (u64_checked_add u32_max 1) with (Some (u32_max + 1)). cbv beta iota.
  change (as_usize (H := target32) (u32_max + 1)) with 0. rewrite to_bytes_spec.
  destruct (body_data _) as [d|]; [|by eexists]. destruct (N.leb_spec (bytes_len d) 0) as [Hd|]; [|by eexists].
  destruct (N.eqb_spec (bytes_len d) u32_max) as [Heq|]; [|by eexists]. rewrite Heq in Hd. by vm_compute in Hd.
Qed.

(** ** Witnesses: a backend that is a map *)

#[export] Instance map_storage : StorageProvider (gmap BlockId bytes) := {|
  put bid d m := (Ok (), <[bid := d]> m);
  get bid m := (match m !! bid with Some d => Ok d | None => Err SE_NotFound end, m);
  delete_block bid m := (Ok (), base.delete bid m);
  exists_block bid m := (Ok (bool_decide (is_Some (m !! bid))), m);
|}.

#[export] Instance map_storage_laws : StorageLaws map_storage (fun m bid => m !! bid) (fun _ _ => False).
Proof.
  split.
  - intros bid d m r m' _ [= <- <-]. left. split; [done|]. intros bid' _.
    case_decide; subst; by simplify_map_eq.
  - intros bid m r m' _ [= <- <-]. split; [done|]. destruct (m !! bid) eqn:?; naive_solver.
  - intros bid m r m' _ [= <- <-]. left. split; [done|]. intros bid' _.
    case_decide; subst; by simplify_map_eq.
  - intros bid m r m' _ [= <- <-]. split; [done|]. case_bool_decide as Hs; [by left|].
    split; [by apply eq_None_not_Some|by intros []].
  - intros bid d m bid' _ _. by repeat split.
Qed.

Definition fx_id : BlockId := BlockId_mk "AAAAAAAAAAAAAAAAAAAAAAAAAAAAAAAAAAAAAAAAAAA".
Lemma fx_id_wf : block_id_wf fx_id.
Proof. split; reflexivity. Qed.

Definition fx_store : server (gmap BlockId bytes) :=
  {| srv_contexts := ∅; srv_replay := new AuthConfig_default; srv_storage := ∅; srv_log := [];
     srv_sent := [] |}.
Definition fx_put_request (body : bytes) : Request :=
  {| method := "PUT"; uri_authority := None;
     uri_path_and_query := Some ("/api/blocks/" +:+ as_str fx_id);
     headers _ := None; extensions := no_extensions; req_body := Some body |}.
Definition fx_body : bytes := [Byte.x61; Byte.x62].
Definition fx_stored : server (gmap BlockId bytes) :=
  log_events [BlockPutOk (as_str fx_id) "alice" LOCALHOST 2] (set_storage {[fx_id := fx_body]} fx_store).
Definition fx_got : server (gmap BlockId bytes) :=
  log_events [BlockGetHit (as_str fx_id) "alice" LOCALHOST] fx_stored.

Lemma fx_put_returns :
  returns (handle_put (H2 := target64) fx_id "alice" LOCALHOST 2 (fx_put_request fx_body))
    (alone (fx_env 1 "")) fx_store respond_block_204 fx_stored.
Proof. eexists. reflexivity. Qed.

Lemma fx_get_returns :
  returns (handle_get fx_id "alice" LOCALHOST) (alone (fx_env 1 "")) fx_stored
    (respond_block_200 fx_body) fx_got.
Proof. eexists. reflexivity. Qed.

Lemma put_exact_size_witness :
  updated (stored := fun (m : gmap BlockId bytes) bid => m !! bid) fx_store fx_stored fx_id (Some fx_body).
Proof.
  destruct (proj1 (put_exact_size (H2 := target64) fx_id "alice" LOCALHOST 2 (fx_put_request fx_body)
    (fx_env 1 "") fx_store respond_block_204 fx_stored fx_id_wf ltac:(vm_compute; discriminate)
    fx_put_returns) fx_body) as [[_ Hup]|[Heq _]].
  - split; [reflexivity|]. split; [reflexivity|]. intros n Hn. discriminate Hn.
  - exact Hup.
  - discriminate Heq.
Defined.

Lemma get_delete_faithful_witness :
  same_blocks (stored := fun (m : gmap BlockId bytes) bid => m !! bid) fx_stored fx_got.
Proof.
  exact (proj1 (proj1 (get_delete_faithful fx_id "alice" LOCALHOST (fx_env 1 "") fx_stored _ fx_got
    fx_id_wf) fx_get_returns)).
Defined.

Lemma block_roundtrip_witness :
  exists d, body_data (req_body (fx_put_request fx_body)) = Some d
    /\ respond_block_200 fx_body = respond_block_200 d.
Proof.
  destruct (proj1 (block_roundtrip (H2 := target64) fx_id fx_id "alice" LOCALHOST 2 (fx_put_request fx_body)
    (fx_env 1 "") (fx_env 1 "") fx_store fx_stored fx_got (respond_block_200 fx_body) fx_id_wf fx_id_wf
    ltac:(vm_compute; discriminate) fx_get_returns) fx_put_returns) as [Heq|Hd].
  - discriminate Heq.
  - rewrite decide_True in Hd by reflexivity. exact Hd.
Defined.

(** A percent-encoded identifier does not parse. *)
Definition fx_bad_request : Request :=
  {| method := "GET"; uri_authority := None;
     uri_path_and_query := Some "/api/blocks/%41AAAAAAAAAAAAAAAAAAAAAAAAAAAAAAAAAAAAAAAAAA";
     headers _ := None; extensions := no_extensions; req_body := None |}.

Lemma block_answers_uniform_witness :
  returns (handle_block (H2 := target64) fx_config fx_bad_request) (alone (fx_env 1 "")) fx_store
    respond_block_404
    (log_events [BlockGetMiss "<malformed>" "<unauthenticated>" LOCALHOST] fx_store).
Proof.
  exact (proj1 (block_answers_uniform (H2 := target64) fx_config fx_bad_request (alone (fx_env 1 ""))
    fx_store (fx_env 1 "")) eq_refl).
Defined.
