(* ===== verification/Routes.v ===== *)
(** * Routes: the router and the remaining handlers

    [routes/mod.rs], [routes/health.rs], [routes/api/], [routes/admin/].  A
    router is a list of routes, each a pattern with the handler that answers
    it; pattern matching is [axum]'s ([RouterCrate]). *)

From S2P Require Import Prelude RustStd Crates Crypto BlockId Jwks ServerConfig Replay Logging.
From S2P Require Import Context Async Server Http ProxyTrust Failure Refresh Token Dpop.
From S2P Require Import Middleware Storage Blocks.

(** [app::AppState]. *)
Record AppState `{UrlCrate} `{IpnetCrate} := { config : ServerConfig }.

(** The 404 without a body. *)
Definition respond_404 : Response := response 404 [] [].

Section routes.
Context `{Sha2Crate} `{Base64Crate} `{SubtleCrate} `{UrlCrate} `{IpnetCrate} `{SerdeCrate} `{HttpCrate}.
Context `{JwtCrate} `{!JwtDecode TokenClaims} `{!JwtDecode DpopClaims} `{InstantRange}.
Context `{JsonCrate} `{RouterCrate} `{Target}.
Context {X : Type}.

Abbreviation service := (Request -> task X Response).

Definition respond_json (document : bytes) : Response :=
  response 200 [("content-type", "application/json")] document.

(** [request.rejected] and the bare 404, four times. *)
Definition fallback_404 : service := fun request =>
  let effective_addr := client_addr request in
  let* _u := emit (RequestRejected (method request) (uri_path request) effective_addr) in
  Done respond_404.

Definition reject_404 : service := fun request =>
  let effective_addr := client_addr request in
  let* _u := emit (RequestRejected (method request) (uri_path request) effective_addr) in
  Done respond_404.

Definition method_mismatch_404_vault : service := fun request =>
  let effective_addr := client_addr request in
  let* _u := emit (RequestRejected (method request) (uri_path request) effective_addr) in
  Done respond_404.

Definition method_mismatch_404_admin : service := fun request =>
  let effective_addr := client_addr request in
  let* _u := emit (RequestRejected (method request) (uri_path request) effective_addr) in
  Done respond_404.

Definition handle_health : service := fun request =>
  if String.eqb (method request) "GET" then Done (respond_json (json_alive true))
  else reject_404 request.

Definition handle_whoami_vault : service := fun request =>
  if negb (String.eqb (method request) "GET") then method_mismatch_404_vault request else
  match ext_vault (extensions request) with
  | None => Done respond_401
  | Some subject => Done (respond_json (json_sub (VaultSubject_into_string subject)))
  end.

Definition handle_whoami_admin : service := fun request =>
  if negb (String.eqb (method request) "GET") then method_mismatch_404_admin request else
  match ext_admin (extensions request) with
  | None => Done respond_401
  | Some subject => Done (respond_json (json_sub (AdminSubject_into_string subject)))
  end.

(** ** Routers *)

Record route := { pattern : string; handler : service }.
Abbreviation router := (list route).

(** [Router::route], [Router::merge], [Router::layer]. *)
Definition layer (wrap : service -> service) (r : router) : router :=
  (fun x => {| pattern := pattern x; handler := wrap (handler x) |}) <$> r.

Definition whoami_vault_routes (vault_ctx : OidcContext) : router :=
  let guard := vault_guard vault_ctx in
  [{| pattern := "/api/whoami"; handler := VaultGuardService_call guard handle_whoami_vault |}].

Definition admin_routes (admin_ctx : OidcContext) : router :=
  let guard := admin_guard admin_ctx in
  [{| pattern := "/admin/whoami"; handler := AdminGuardService_call guard handle_whoami_admin |}].

(** [blocks::routes]; the storage handle is the provider itself. *)
Definition block_routes (state : AppState) (vault_ctx : OidcContext) (storage : AsyncStorage X) : router :=
  let guard := with_methods (vault_guard vault_ctx) ["GET"; "PUT"; "DELETE"] in
  layer (VaultGuardService_call guard)
    [{| pattern := "/api/blocks/{id}"; handler := handle_block (config state) |}].

Definition vault_routes (state : AppState) (vault_ctx : OidcContext)
    (storage : option (AsyncStorage X)) : router :=
  let router := whoami_vault_routes vault_ctx in
  match storage with
  | Some storage => router ++ block_routes state vault_ctx storage
  | None => router
  end.

(** The handler [build_router] gives the service: proxy trust around the
    routes and the fallback.  [replay_store] says whether the shared store was
    supplied. *)
Definition build_routes (state : AppState) (vault_ctx admin_ctx : option OidcContext)
    (replay_store : option unit) (storage : option (AsyncStorage X)) : router :=
  let router := [{| pattern := "/health"; handler := handle_health |}] in
  let router := match vault_ctx, replay_store with
    | Some ctx, Some _ => router ++ vault_routes state ctx storage
    | _, _ => router
    end in
  match admin_ctx, replay_store with
  | Some ctx, Some _ => router ++ admin_routes ctx
  | _, _ => router
  end.

Fixpoint dispatch (r : router) (fallback : service) : service := fun request =>
  match r with
  | [] => fallback request
  | x :: r => if route_matches (pattern x) (uri_path request) then handler x request
              else dispatch r fallback request
  end.

Definition build_router (state : AppState) (vault_ctx admin_ctx : option OidcContext)
    (replay_store : option unit) (storage : option (AsyncStorage X)) : service := fun request =>
  dispatch (build_routes state vault_ctx admin_ctx replay_store storage) fallback_404
    (proxy_middleware (config state) request).
End routes.
