(* ===== verification/RoutesSpec.v ===== *)
(** * RoutesSpec: the whole request path, from the connection to a handler *)

From S2P Require Import Prelude RustStd Crates Fs Instances Crypto BlockId Jwks ServerConfig.
From S2P Require Import Replay Logging Context Async Server Http ProxyTrust Failure Fixtures ContextSpec.
From S2P Require Import Refresh Token Dpop AuthFixtures TokenSpec DpopSpec Middleware MiddlewareSpec.
From S2P Require Import Storage Blocks Routes.

Section spec.
Context `{Sha2Crate} `{Base64Crate} `{SubtleCrate} `{UrlCrate} `{IpnetCrate} `{SerdeCrate} `{HttpCrate}.
Context `{JwtCrate} `{!JwtDecode TokenClaims} `{!JwtDecode DpopClaims} `{InstantRange}.
Context `{JsonCrate} `{RouterCrate} `{Target}.
Context {X : Type}.

Lemma dispatch_cases (r : list (route (X := X))) fallback request :
  (exists x, x ∈ r /\ route_matches (pattern x) (uri_path request) = true
     /\ dispatch r fallback request = handler x request)
  \/ (forall x, x ∈ r -> route_matches (pattern x) (uri_path request) = false)
     /\ dispatch r fallback request = fallback request.
Proof.
  induction r as [|x r IH]; [right; split; [|done]; by intros x ?%not_elem_of_nil|].
  cbn [dispatch]. destruct (route_matches (pattern x) _) eqn:Hm.
  - left. exists x. split; [by left|done].
  - destruct IH as [(y & Hy & Hr)|[Hn Hr]].
    + left. exists y. split; [by right|done].
    + right. split; [|done]. intros y [->|Hy]%elem_of_cons; auto.
Qed.

(** The routes of a full server, in order. *)
Lemma build_routes_full state v a storage :
  build_routes (X := X) state (Some v) (Some a) (Some ()) storage
  = [{| pattern := "/health"; handler := handle_health |};
     {| pattern := "/api/whoami"; handler := VaultGuardService_call (vault_guard v) handle_whoami_vault |}]
    ++ match storage with
       | Some p => [{| pattern := "/api/blocks/{id}";
           handler := VaultGuardService_call (with_methods (vault_guard v) ["GET"; "PUT"; "DELETE"])
                        (handle_block (config state)) |}]
       | None => []
       end
    ++ [{| pattern := "/admin/whoami"; handler := AdminGuardService_call (admin_guard a) handle_whoami_admin |}].
Proof. by destruct storage. Qed.

Definition success (r : Response) : Prop := 200 <= status r < 300.

Lemma no_success r : ~ success r <-> status r < 200 \/ 300 <= status r.
Proof. unfold success. lia. Qed.

Lemma failure_no_success f : ~ success (respond_failure f).
Proof. unfold success. destruct f; simpl; lia. Qed.

Lemma fallback_run request (o : schedule senv (server X)) s :
  block_on (fallback_404 request) o s
  = Value (respond_404,
      log_events [RequestRejected (method request) (uri_path request) (client_addr request)] (others (o 0%nat) s),
      later o).
Proof. reflexivity. Qed.

Lemma fallback_no_success request (o : schedule senv (server X)) s resp s' o' :
  block_on (fallback_404 request) o s = Value (resp, s', o') -> ~ success resp.
Proof. rewrite fallback_run. intros [= <- _ _]. unfold success. simpl. lia. Qed.

(** Who a successful answer was for. *)
Definition answered_for (state : AppState) (v a : OidcContext) (o : schedule senv (server X)) (s : server X)
    (request : Request) : Prop :=
  let request' := proxy_middleware (config state) request in
  let tr ctx := trace (authenticate_common (X := X) request' ctx) o s in
  (uri_path request = "/health" /\ method request = "GET")
  \/ ((uri_path request = "/api/whoami" /\ method request = "GET"
       \/ (exists segment, uri_path request = "/api/blocks/" +:+ segment)
          /\ method request ∈ ["GET"; "PUT"; "DELETE"])
      /\ exists subject, authenticated request' v (tr v) subject)
  \/ ((uri_path request = "/admin/whoami" /\ method request = "GET")
      /\ exists subject, authenticated request' a (tr a) subject).

Lemma whoami_vault_no_success g request (o : schedule senv (server X)) s resp s' o' :
  auth_methods g = ["GET"] ->
  block_on (VaultGuardService_call g handle_whoami_vault request) o s = Value (resp, s', o') ->
  success resp ->
  method request = "GET"
  /\ exists subject, authenticated request (vg_ctx g) (trace (authenticate_common request (vg_ctx g)) o s) subject.
Proof.
  intros Hg. unfold VaultGuardService_call. rewrite Hg. simpl existsb. rewrite orb_false_r.
  destruct (String.eqb_spec (method request) "GET") as [Hm|Hm]; simpl negb; cbv iota.
  - intros [(sub & s1 & o1 & Ha & _)|(f & s1 & o1 & -> & _)]%guarded_cases Hs; [eauto|].
    by apply failure_no_success in Hs.
  - unfold handle_whoami_vault. rewrite (proj2 (String.eqb_neq _ _) Hm). simpl negb. cbv iota.
    intros Hb Hs. by apply fallback_no_success in Hb.
Qed.

Lemma whoami_admin_no_success g request (o : schedule senv (server X)) s resp s' o' :
  block_on (AdminGuardService_call g handle_whoami_admin request) o s = Value (resp, s', o') ->
  success resp ->
  method request = "GET"
  /\ exists subject, authenticated request (ag_ctx g) (trace (authenticate_common request (ag_ctx g)) o s) subject.
Proof.
  unfold AdminGuardService_call.
  destruct (String.eqb_spec (method request) "GET") as [Hm|Hm]; simpl negb; cbv iota.
  - intros [(sub & s1 & o1 & Ha & _)|(f & s1 & o1 & -> & _)]%guarded_cases Hs; [eauto|].
    by apply failure_no_success in Hs.
  - unfold handle_whoami_admin. rewrite (proj2 (String.eqb_neq _ _) Hm). simpl negb. cbv iota.
    intros Hb Hs. by apply fallback_no_success in Hb.
Qed.

(** On a method that is not served the block handler answers 404. *)
Lemma handle_block_unserved `{!AsyncStorage X} c request (o : schedule senv (server X)) s resp s' o' :
  existsb (String.eqb (method request)) ["GET"; "PUT"; "DELETE"] = false ->
  block_on (handle_block c request) o s = Value (resp, s', o') -> resp = respond_block_404.
Proof.
  simpl. rewrite !orb_false_iff. intros (E1 & E2 & E3 & _). unfold handle_block. rewrite E1, E2, E3.
  destruct (parse _); simpl; by intros [= <- _ _].
Qed.

Lemma blocks_no_success `{!AsyncStorage X} g c request (o : schedule senv (server X)) s resp s' o' :
  auth_methods g = ["GET"; "PUT"; "DELETE"] ->
  block_on (VaultGuardService_call g (handle_block c) request) o s = Value (resp, s', o') ->
  success resp ->
  method request ∈ ["GET"; "PUT"; "DELETE"]
  /\ exists subject, authenticated request (vg_ctx g) (trace (authenticate_common request (vg_ctx g)) o s) subject.
Proof.
  intros Hg. unfold VaultGuardService_call. rewrite Hg. destruct (existsb _ _) eqn:Hm; simpl negb; cbv iota.
  - intros [(sub & s1 & o1 & Ha & _)|(f & s1 & o1 & -> & _)]%guarded_cases Hs; [|by apply failure_no_success in Hs].
    split; [|eauto]. apply existsb_exists in Hm as (m & Hin & Heq). apply String.eqb_eq in Heq as ->.
    by apply list_elem_of_In.
  - intros Hb Hs. apply handle_block_unserved in Hb as ->; [|done]. unfold success in Hs. simpl in Hs. lia.
Qed.

(** C1. End to end, nothing but the health check succeeds without
    authentication, and each part of the API only for its own audience.
    Whatever else the server is doing, if the router answers a request with a
    2xx status, then the request was GET [/health]; or a GET of [/api/whoami],
    or GET, PUT or DELETE below [/api/blocks/], authenticated against the vault
    context during this very run; or a GET of [/admin/whoami] authenticated
    against the admin context. *)
Theorem router_success_authenticated state v a storage request (o : schedule senv (server X)) s resp s' o' :
  block_on (build_router state (Some v) (Some a) (Some ()) storage request) o s = Value (resp, s', o') ->
  success resp -> answered_for state v a o s request.
Proof.
  unfold build_router, answered_for. cbv zeta. rewrite build_routes_full.
  set (r := proxy_middleware (config state) request).
  assert (uri_path r = uri_path request) as Hpath by done.
  assert (method r = method request) as Hmeth by done.
  match goal with |- context [dispatch ?rs _ _] =>
    destruct (dispatch_cases rs fallback_404 r) as [(x & Hx & Hm & ->)|[_ ->]] end.
  2: { intros Hb Hs. by apply fallback_no_success in Hb. }
  intros Hb Hs. rewrite !elem_of_app, !elem_of_cons in Hx.
  destruct Hx as [[->|[->|Hx]]|[Hx|[->|Hx]]]; try by apply not_elem_of_nil in Hx.
  - simpl in Hm, Hb. rewrite route_literal in Hm by done. apply String.eqb_eq in Hm.
    unfold handle_health in Hb. destruct (String.eqb_spec (method r) "GET"); [left; split; congruence|].
    by apply fallback_no_success in Hb.
  - simpl in Hm. rewrite route_literal in Hm by done. apply String.eqb_eq in Hm.
    apply whoami_vault_no_success in Hb as [Hg Ha]; [|done|done]. right. left.
    split; [left; split; congruence|done].
  - destruct storage as [p|]; [|by apply not_elem_of_nil in Hx]. apply list_elem_of_singleton in Hx as ->.
    simpl in Hm. apply route_block in Hm as (seg & Hseg & _).
    apply blocks_no_success in Hb as [Hg Ha]; [|done|done]. right. left.
    split; [right; split; [exists seg; congruence|by rewrite <- Hmeth]|done].
  - simpl in Hm. rewrite route_literal in Hm by done. apply String.eqb_eq in Hm.
    apply whoami_admin_no_success in Hb as [Hg Ha]; [|done]. right. right.
    split; [split; congruence|done].
Qed.

(** ** What is not served *)

Lemma elem_build_routes state v a r storage (x : route (X := X)) :
  x ∈ build_routes state v a r storage ->
  x = {| pattern := "/health"; handler := handle_health |}
  \/ (exists ctx, x ∈ whoami_vault_routes ctx)
  \/ (exists ctx p, storage = Some p /\ x ∈ block_routes state ctx p)
  \/ (exists ctx, x ∈ admin_routes ctx).
Proof.
  unfold build_routes. cbv zeta. intros Hx.
  assert (forall l, x ∈ match a, r with Some ctx, Some _ => l ++ admin_routes ctx | _, _ => l end ->
    x ∈ l \/ exists ctx, x ∈ admin_routes ctx) as Ha.
  { intros l. destruct a as [c|], r; rewrite ?elem_of_app; naive_solver. }
  apply Ha in Hx as [Hx|Hx]; [|auto]. clear Ha.
  destruct v as [c|], r; try (apply list_elem_of_singleton in Hx; auto).
  apply elem_of_app in Hx as [Hx|Hx]; [apply list_elem_of_singleton in Hx; auto|].
  unfold vault_routes in Hx. destruct storage; [rewrite elem_of_app in Hx|]; naive_solver.
Qed.

(** On another method than GET the literal routes answer like the fallback. *)
Lemma literal_route_unserved state v a r storage (x : route (X := X)) request :
  x ∈ build_routes state v a r storage ->
  route_matches (pattern x) (uri_path request) = true ->
  uri_path request ∈ ["/health"; "/api/whoami"; "/admin/whoami"] -> method request <> "GET" ->
  handler x request = fallback_404 request.
Proof.
  intros Hx Hm Hp Hg. apply String.eqb_neq in Hg.
  apply elem_build_routes in Hx as [->|[[c Hx]|[(c & p & -> & Hx)|[c Hx]]]];
    try apply list_elem_of_singleton in Hx as ->; simpl.
  - unfold handle_health. by rewrite Hg.
  - unfold VaultGuardService_call, handle_whoami_vault. simpl existsb. by rewrite Hg.
  - simpl in Hm. apply route_block in Hm as (seg & Hseg & _). rewrite Hseg in Hp. exfalso. clear -Hp.
    by repeat (apply elem_of_cons in Hp as [Hp|Hp]; [discriminate Hp|]); apply not_elem_of_nil in Hp.
  - unfold AdminGuardService_call, handle_whoami_admin. by rewrite Hg.
Qed.

(** C30. What the server does not serve looks the same everywhere.  A path no
    route matches (the block paths too, when no storage is configured, and the
    API of a context that was not supplied), and any method but GET on
    [/health], [/api/whoami] and [/admin/whoami], is answered by the bare 404
    without authentication; the only effect is one [request.rejected] event
    with the method, the path and the effective client address. *)
Theorem unserved_uniform state v a r storage request (o : schedule senv (server X)) s :
  (forall x : route (X := X), x ∈ build_routes state v a r storage ->
     route_matches (pattern x) (uri_path request) = false)
  \/ uri_path request ∈ ["/health"; "/api/whoami"; "/admin/whoami"] /\ method request <> "GET" ->
  block_on (build_router state v a r storage request) o s
  = Value (respond_404,
      log_events [RequestRejected (method request) (uri_path request)
                    (client_addr (proxy_middleware (config state) request))] (others (o 0%nat) s),
      later o).
Proof.
  intros Hun. unfold build_router. set (q := proxy_middleware (config state) request).
  change (method request) with (method q). change (uri_path request) with (uri_path q) in Hun |- *.
  rewrite <- fallback_run. f_equal.
  destruct (dispatch_cases (build_routes state v a r storage) fallback_404 q) as [(x & Hx & Hm & ->)|[_ ->]];
    [|done].
  destruct Hun as [Hun|[Hp Hg]]; [by rewrite Hun in Hm|]. by eapply literal_route_unserved.
Qed.
End spec.

(** ** Witnesses *)

#[local] Existing Instance target64.

Definition fx_state : AppState := {| config := fx_config |}.

(** The whole router on GET [/api/whoami] with the fixture's token and proof. *)
Definition fx_whoami :=
  block_on (build_router (X := unit) fx_state (Some fx_vault) (Some fx_admin) (Some ()) None
              (fx_request "tok" "prf")) (alone (fx_env 100 "n")) fx_server.

Lemma fx_whoami_ok : observed fx_whoami = Some (respond_json (json_sub "alice"), []).
Proof. vm_compute. reflexivity. Qed.

Lemma router_success_authenticated_witness :
  answered_for fx_state fx_vault fx_admin (alone (fx_env 100 "n")) fx_server (fx_request "tok" "prf").
Proof.
  pose proof fx_whoami_ok as Hc. destruct fx_whoami as [[[resp s'] o']|] eqn:Hr; [|discriminate Hc].
  injection Hc as Hresp Hlog.
  apply (router_success_authenticated fx_state fx_vault fx_admin None _ _ _ resp s' o' Hr).
  rewrite Hresp. split; vm_compute; [discriminate|reflexivity].
Defined.

(** A block path on a server without storage. *)
Definition fx_stray : Request := {|
  method := "PUT"; uri_authority := None; uri_path_and_query := Some "/api/blocks/x";
  headers _ := None; extensions := no_extensions; req_body := Some ([] : bytes) |}.

Lemma unserved_uniform_witness :
  block_on (build_router (X := unit) fx_state (Some fx_vault) (Some fx_admin) (Some ()) None fx_stray)
    (alone (fx_env 100 "n")) fx_server
  = Value (respond_404, log_events [RequestRejected "PUT" "/api/blocks/x" LOCALHOST] fx_server,
      later (alone (fx_env 100 "n"))).
Proof.
  apply (unserved_uniform fx_state (Some fx_vault) (Some fx_admin) (Some ()) None fx_stray).
  left. intros x Hx. rewrite build_routes_full in Hx. simpl in Hx.
  repeat (apply elem_of_cons in Hx as [->|Hx]; [reflexivity|]). by apply not_elem_of_nil in Hx.
Defined.
