(* ===== verification/RequestSpec.v ===== *)
(** * RequestSpec: every request is answered, and what the log may say

    One traversal of the request path with [Async.ends]: each program is
    bounded, cannot panic unless an issuer's document crashes the parser, and
    appends to the log only events that the request accounts for. *)

From S2P Require Import Prelude RustStd Crates Fs Instances Crypto BlockId Jwks ServerConfig Replay.
From S2P Require Import ReplaySpec.
From S2P Require Import Logging Context Async Server Http ProxyTrust Failure Fixtures ContextSpec Refresh.
From S2P Require Import Token Dpop AuthFixtures Middleware MiddlewareSpec Storage Blocks.
From S2P Require Import StorageSpec Routes RoutesSpec.

Section requests.
Context `{Sha2Crate} `{Base64Crate} `{SubtleCrate} `{UrlCrate} `{IpnetCrate} `{SerdeCrate} `{HttpCrate}.
Context `{JwtCrate} `{!JwtDecode TokenClaims} `{!JwtDecode DpopClaims} `{InstantRange}.
Context `{JsonCrate} `{RouterCrate} `{Target}.
Context {X : Type}.

(** An environment in which no issuer serves a key set that crashes the parser
    ([ContextSpec.parse_jwks_panics] says which do). *)
Definition documents_parse (e : senv) : Prop := forall u, fetch_jwks (http e u) <> Panic.

(** ** What a request accounts for *)

(** The identifier field: that of the request's own path, or the sentinel. *)
Definition block_field (request : Request) (i : string) : Prop :=
  i = BLOCK_ID_MALFORMED \/ (uri_path request = "/api/blocks/" +:+ i /\ is_Some (parse i)).

(** The subject field: the [sub] claim of the request's verified token, one
    the request already carried, or the sentinel. *)
Definition token_subject (request : Request) (s : string) : Prop :=
  exists raw key v (claims : TokenClaims), extract_token request = Ok raw
    /\ jwt_decode raw key v = Ok claims /\ tc_sub claims = Some s.
Definition subject_field (request : Request) (s : string) : Prop :=
  s = "<unauthenticated>" \/ token_subject request s
  \/ exists sub, ext_vault (extensions request) = Some sub /\ s = VaultSubject_into_string sub.

Definition caused_by (c : ServerConfig) (request : Request) (e : Event) : Prop :=
  let block i s a := block_field request i /\ subject_field request s /\ a = client_addr request in
  match e with
  | RequestRejected m p a => m = method request /\ p = uri_path request /\ a = client_addr request
  | BlockPutOk i s a n => block i s a /\ n = block_size_bytes c
  | BlockGetHit i s a | BlockGetMiss i s a | BlockDeleteOk i s a => block i s a
  | BlockPutBackendFailed i s a cause | BlockGetBackendFailed i s a cause
  | BlockDeleteBackendFailed i s a cause => block i s a /\ exists k, cause = cause_as_str k
  | AuthFailureEvent cat aud a =>
      (exists f, cat = category f) /\ (exists t, aud = tag_name t) /\ a = client_addr request
  | CrossReachFailed aud | OverlapRejected aud | JwksOnDemandRefreshFailed aud =>
      exists t, aud = tag_name t
  | ServerStarted _ | ServerShutdownInitiated _ _ | ServerShutdownCompleted _ | StorageStartupReady _
  | StorageStartupFailed _ _ _ | JwksScheduledRefreshFailed _ | DiscoveryRefreshFailed _ => False
  end.

(** The log grows by events of [fine]. *)
Definition logs (fine : Event -> Prop) (s s' : server X) : Prop :=
  exists es, srv_log s' = srv_log s ++ es /\ Forall fine es.

Lemma logs_refl fine s : logs fine s s.
Proof. exists []. by rewrite app_nil_r. Qed.

Lemma logs_trans fine s1 s2 s3 : logs fine s1 s2 -> logs fine s2 s3 -> logs fine s1 s3.
Proof.
  intros (a & Ha & Hfa) (b & Hb & Hfb). exists (a ++ b). rewrite Hb, Ha, <- app_assoc. split; [done|].
  by apply Forall_app.
Qed.

Lemma logs_events fine es s : Forall fine es -> logs fine s (log_events es s).
Proof. intros He. by exists es. Qed.

Lemma logs_same fine (s s' : server X) : srv_log s' = srv_log s -> logs fine s s'.
Proof. intros He. exists []. by rewrite app_nil_r. Qed.

(** What a step of a request may do: log, record proof identifiers, and, unless
    the storage is [frozen], change blocks. *)
Definition tame (frozen : Prop) (fine : Event -> Prop) (s s' : server X) : Prop :=
  logs fine s s' /\ entries (srv_replay s) ⊆ entries (srv_replay s')
  /\ (frozen -> srv_storage s' = srv_storage s).

Section one_request.
Context (frozen : Prop) (c : ServerConfig) (request : Request) (others : Event -> Prop).

Definition fine (e : Event) : Prop := others e \/ caused_by c request e.

Abbreviation ends_ n Q p := (ends documents_parse (tame frozen fine) n Q p).
Abbreviation halts n p := (ends documents_parse (tame frozen fine) n (fun _ => True) p).

(** A step that leaves all three alone. *)
Lemma quiet {R} (act : senv -> server X -> outcome (R * server X)) :
  (forall e s, documents_parse e -> act e s <> Panic) ->
  (forall e s r s', act e s = Value (r, s') -> srv_log s' = srv_log s /\ srv_replay s' = srv_replay s /\ srv_storage s' = srv_storage s) ->
  well_behaved documents_parse (tame frozen fine) act.
Proof.
  intros Hp Hl. split; [done|]. intros e s r s' Ha. destruct (Hl e s r s' Ha) as (Hlog & Hst & Hx).
  split; [by apply logs_same|by rewrite Hst].
Qed.

Lemma emit_ends e : fine e -> halts 1 (emit e).
Proof.
  intros He. apply ends_atomic; [|done]. split; [done|]. intros e' s r s' [= _ <-].
  split; [|done]. apply logs_events. by apply list.Forall_singleton.
Qed.

Lemma load_ends {T} ctx (f : OidcContext -> T) : halts 1 (load ctx f).
Proof. apply ends_atomic; [|done]. apply quiet; [done|]. by intros e s r s' [= _ <-]. Qed.

Lemma store_ends ctx f : halts 1 (store (X := X) ctx f).
Proof. apply ends_atomic; [|done]. apply quiet; [done|]. by intros e s r s' [= _ <-]. Qed.

Lemma system_now_ends : halts 1 system_now.
Proof. apply ends_atomic; [|done]. apply quiet; [done|]. by intros e s r s' [= _ <-]. Qed.

Lemma instant_now_ends : halts 1 instant_now.
Proof. apply ends_atomic; [|done]. apply quiet; [done|]. by intros e s r s' [= _ <-]. Qed.

Lemma pause_ends n : halts 1 (pause n).
Proof. apply ends_atomic; [|done]. apply quiet; [done|]. by intros e s r s' [= _ <-]. Qed.

Lemma compare_exchange_ends ctx p n : halts 1 (compare_exchange ctx p n).
Proof.
  apply ends_atomic; [|done]. apply quiet; [intros; by case_match|].
  intros e s r s' Ha. case_match; by injection Ha as _ <-.
Qed.

Lemma fetch_ends ctx u : halts 1 (fetch_jwks_step ctx u).
Proof.
  apply ends_atomic; [|done]. apply quiet.
  - intros e s He Hp. specialize (He u). by destruct (fetch_jwks _).
  - intros e s r s' Ha. destruct (fetch_jwks _); by simplify_eq/=.
Qed.

Lemma check_install_fine ctx j w : Forall fine (snd (check_install ctx j w)).
Proof.
  unfold check_install. repeat case_match; simpl; rewrite ?list.Forall_singleton; try (right; simpl; eauto).
  by apply Forall_nil.
Qed.

Lemma install_ends ctx j : halts 2 (install_step ctx j).
Proof.
  apply (halts_await _ _ 1 1).
  - apply ends_atomic; [|done]. split; [intros e s _; by destruct (check_install _ _ _)|].
    intros e s r s' Ha. pose proof (check_install_fine ctx j (srv_contexts s)) as Hf.
    destruct (check_install _ _ _) as [q es]. injection Ha as _ <-. split; [|done]. by apply logs_events.
  - intros [[]|e]; [|done]. by apply (halts_await _ _ 1 0); [apply store_ends|].
Qed.

(** ** Authentication *)

Lemma wait_ends ctx prev w : halts 3 (wait_for_completion ctx prev w).
Proof.
  unfold wait_for_completion. apply (halts_await _ _ 1 2); [apply load_ends|].
  intros n. destruct (prev <=? n); [done|].
  apply (halts_await _ _ 1 1); [apply pause_ends|]. intros _.
  by apply (halts_await _ _ 1 0); [apply load_ends|].
Qed.

Lemma on_demand_ends ctx : halts 8 (on_demand_refresh ctx).
Proof.
  unfold on_demand_refresh. apply (halts_await _ _ 1 7); [apply system_now_ends|]. intros now.
  apply (halts_await _ _ 1 6); [apply load_ends|]. intros prev.
  case_match; [eapply ends_le; [|apply wait_ends]; lia|].
  apply (halts_await _ _ 1 5); [apply compare_exchange_ends|].
  intros claimed. case_match; [eapply ends_le; [|apply wait_ends]; lia|].
  apply (halts_await _ _ 1 4); [apply load_ends|]. intros u.
  apply (halts_await _ _ 1 3); [apply fetch_ends|]. intros fetched. apply (halts_await _ _ 2 1).
  - destruct fetched as [j|e].
    + by apply (halts_await _ _ 2 0); [apply install_ends|].
    + apply (ends_le _ _ 1); [lia|]. apply (halts_await _ _ 1 0); [|done].
      apply emit_ends. right. by eexists.
  - intros r. by apply (halts_await _ _ 1 0); [apply store_ends|].
Qed.

(** Verified claims of a raw token. *)
Definition verified (raw : string) (claims : TokenClaims) : Prop :=
  exists key v, jwt_decode raw key v = Ok claims.

Lemma decode_candidates_verified raw v ks err claims :
  decode_candidates raw v ks err = Ok claims -> verified raw claims.
Proof.
  revert err. induction ks as [|k ks IH]; intros err; simpl; [done|].
  destruct (DecodingKey_from_jwk (jwk k)) as [key|]; [|apply IH].
  destruct (jwt_decode raw key v) as [cl|e] eqn:Hd; [|apply IH]. intros [= <-]. by exists key, v.
Qed.

Lemma try_decode_ends raw h v ctx :
  ends_ 1 (on_ok (verified raw)) (try_decode_with_current_jwks raw h v ctx).
Proof.
  apply (halts_await _ _ 1 0); [apply load_ends|]. intros j.
  assert (on_ok (verified raw) (decode_candidates raw v (lookup_candidates j (hdr_kid h)) None)) as Hv.
  { destruct (decode_candidates _ _ _ _) eqn:Hd; [|done]. by apply decode_candidates_verified in Hd. }
  by destruct (lookup_candidates _ _).
Qed.

Lemma decode_ends raw h alg ctx : ends_ 10 (on_ok (verified raw)) (decode_token raw h alg ctx).
Proof.
  unfold decode_token. apply (ends_await _ _ 1 9 _ _ _ _ (try_decode_ends _ _ _ _)). intros [cl|f] Hv; [done|].
  apply (halts_await _ _ 8 1); [apply on_demand_ends|]. intros []; [|done].
  apply (ends_await _ _ 1 0 _ _ _ _ (try_decode_ends _ _ _ _)). by intros [cl|f'].
Qed.

Lemma check_claims_ends ctx claims :
  ends_ 1 (on_ok (fun t => tc_sub claims = Some (sub t))) (check_claims ctx claims).
Proof.
  unfold check_claims. apply ends_try_done. intros sub Hsub.
  repeat (apply ends_try_done; intros ? _).
  apply (halts_await _ _ 1 0); [apply system_now_ends|]. intros now.
  repeat (apply ends_try_done; intros ? _). simpl. by destruct (tc_sub claims); simplify_eq/=.
Qed.

Lemma validate_token_ends raw ctx :
  ends_ 11 (on_ok (fun t => exists claims, verified raw claims /\ tc_sub claims = Some (sub t)))
    (validate_token raw ctx).
Proof.
  unfold validate_token. do 2 (apply ends_try_done; intros ? _).
  apply (ends_try _ _ 10 1 (verified raw)); [apply decode_ends|]. intros cl Hcl.
  eapply ends_weaken; [reflexivity| |apply check_claims_ends]. intros [t|f]; [|done]. simpl. eauto.
Qed.

Lemma try_insert_ends k d : halts 2 (try_insert_step k d).
Proof.
  apply (halts_await _ _ 1 1).
  - apply ends_atomic; [|done]. split; [intros e s _; by destruct (insert_entry _ _ _)|].
    intros e s r s' Ha. destruct (insert_entry _ _ _) as [q st] eqn:Hins. injection Ha as _ <-.
    split; [by apply logs_same|]. split; [by eapply insert_entry_grows|done].
  - intros [[]|e]; [|done]. apply (halts_await _ _ 1 0); [|done].
    apply ends_atomic; [|done]. split; [done|]. intros e s r s' [= _ <-]. split; [by apply logs_same|done].
Qed.

Lemma validate_proof_ends raw m u t rt ctx :
  ends_ 4 (on_ok (fun _ => True)) (validate_proof raw m u t rt ctx).
Proof.
  unfold validate_proof. repeat (apply ends_try_done; intros ? _).
  apply (halts_await _ _ 1 3); [apply system_now_ends|]. intros now.
  repeat (apply ends_try_done; intros ? _).
  apply (halts_await _ _ 1 2); [apply instant_now_ends|]. intros i. apply ends_try_done. intros d _.
  apply (halts_await _ _ 2 0); [apply try_insert_ends|]. intros r. by apply ends_try_done.
Qed.

Lemma authenticate_ends ctx : ends_ 15 (on_ok (token_subject request)) (authenticate_common request ctx).
Proof.
  unfold authenticate_common. apply ends_try_done. intros raw Hraw.
  do 2 (apply ends_try_done; intros ? _).
  eapply (ends_try _ _ 11 4); [apply validate_token_ends|]. intros t (cl & (key & v & Hd) & Hsub).
  eapply (ends_try _ _ 4 0); [apply validate_proof_ends|]. intros p _. by exists raw, key, v, cl.
Qed.

(** ** Handlers *)

Definition known_status (r : Response) : Prop := status r ∈ [200; 204; 400; 401; 404; 503].

Ltac known := unfold known_status; repeat first [apply list_elem_of_here | apply list_elem_of_further].

Lemma emit_answers e r : fine e -> known_status r -> ends_ 1 known_status (let* _u := emit e in Done r)%rust.
Proof. intros He Hr. by apply (halts_await _ _ 1 0); [apply emit_ends|]. Qed.

(** The request as a handler sees it. *)
Record seen (q : Request) : Prop := {
  seen_method : method q = method request;
  seen_path : uri_path q = uri_path request;
  seen_address : client_addr q = client_addr request;
  seen_subject : subject_field request (subject_from_request q);
}.

Lemma fallback_answers q : seen q -> ends_ 1 known_status (fallback_404 q).
Proof. intros [Hm Hp Ha _]. apply emit_answers; [|known]. by right. Qed.

Lemma answers_more m (p : task X Response) : ends_ 1 known_status p -> ends_ (S m) known_status p.
Proof. apply ends_le. lia. Qed.

Lemma whoami_vault_answers m q : seen q -> ends_ (S m) known_status (handle_whoami_vault q).
Proof.
  intros Hq. unfold handle_whoami_vault. destruct (negb _); [by apply answers_more, fallback_answers|].
  destruct (ext_vault _); known.
Qed.

Lemma whoami_admin_answers m q : seen q -> ends_ (S m) known_status (handle_whoami_admin q).
Proof.
  intros Hq. unfold handle_whoami_admin. destruct (negb _); [by apply answers_more, fallback_answers|].
  destruct (ext_admin _); known.
Qed.

Lemma storage_tame n {R} (Q : R -> Prop) (p : task X R) :
  ~ frozen -> ends (fun _ => True) only_storage n Q p -> ends_ n Q p.
Proof.
  intros Hf. apply ends_impl; [done|]. intros s s' [x ->]. split; [by apply logs_same|done].
Qed.

Lemma parse_as_str s bid : parse s = Some bid -> as_str bid = s.
Proof. unfold parse. repeat case_match; naive_solver. Qed.

Lemma block_field_parsed bid :
  parse (unwrap_or (strip_prefix "/api/blocks/" (uri_path request)) "") = Some bid ->
  block_field request (as_str bid).
Proof.
  intros Hp. right. apply parse_as_str in Hp as Hs.
  destruct (strip_prefix "/api/blocks/" (uri_path request)) as [seg|] eqn:Hpre; cbn [unwrap_or] in Hp, Hs;
    [|discriminate Hp].
  apply strip_prefix_Some in Hpre. rewrite Hs. eauto.
Qed.

Lemma handle_block_answers `{calls : !AsyncStorage X} n `{!StorageSteps calls n} q :
  ~ frozen -> seen q -> ends_ (S n) known_status (handle_block c q).
Proof.
  intros Hf [Hm Hp Ha Hs]. unfold handle_block. cbv zeta. rewrite Hp, Ha.
  destruct (parse _) as [bid|] eqn:Hid.
  2: { apply answers_more, emit_answers; [|known]. right. split_and!; [by left|done|done]. }
  apply block_field_parsed in Hid. set (sub := subject_from_request q) in *.
  assert (forall R (p : task X R) (k : R -> task X Response),
    ends (fun _ => True) only_storage n (fun _ => True) p -> (forall r, ends_ 1 known_status (k r)) ->
    ends_ (S n) known_status (await p k)) as Hcall.
  { intros R p k He Hk. rewrite <- (Nat.add_1_r n). by apply halts_await; [apply storage_tame|]. }
  unfold handle_get, handle_put, handle_delete.
  repeat match goal with
  | |- ends_ _ _ (match ?x with _ => _ end) => destruct x
  | |- ends_ _ _ (await (get_call _) _) => apply Hcall; [apply get_ends|]; intros ?
  | |- ends_ _ _ (await (put_call _ _) _) => apply Hcall; [apply put_ends|]; intros ?
  | |- ends_ _ _ (await (delete_call _) _) => apply Hcall; [apply delete_ends|]; intros ?
  | |- ends_ (S n) _ (await (emit _) _) => apply answers_more
  | |- ends_ 1 _ (await (emit _) _) => apply emit_answers; [right; simpl; eauto 6|known]
  | |- ends_ _ _ (Done _) => known
  end.
Qed.

(** ** Guards and router *)

Lemma failure_known f : known_status (respond_failure f).
Proof. destruct f; known. Qed.

Lemma insert_vault_seen sub : token_subject request sub -> seen (insert_vault (VaultSubject_new sub) request).
Proof. intros Hs. split; [done..|]. right. by left. Qed.

Lemma insert_admin_seen sub : seen request -> seen (insert_admin (AdminSubject_new sub) request).
Proof. intros [Hm Hp Ha Hs]. by split. Qed.

Lemma request_seen : seen request.
Proof.
  split; [done..|]. unfold subject_field, subject_from_request.
  destruct (ext_vault (extensions request)); simpl; eauto.
Qed.

Lemma guarded_answers m ctx insert inner :
  (forall sub, token_subject request sub -> ends_ (S m) known_status (inner (insert sub request))) ->
  ends_ (16 + m) known_status (guarded ctx insert inner request).
Proof.
  intros Hin. replace (16 + m)%nat with (15 + S m)%nat by lia. eapply (ends_await _ _ 15 (S m)); [apply authenticate_ends|]. intros [sub|f] Hr; [by apply Hin|].
  apply answers_more, emit_answers; [|apply failure_known]. right. simpl. eauto.
Qed.

Lemma vault_guard_answers m g inner :
  (forall q, seen q -> ends_ (S m) known_status (inner q)) ->
  ends_ (16 + m) known_status (VaultGuardService_call g inner request).
Proof.
  intros Hin. unfold VaultGuardService_call. case_match.
  - apply (ends_le _ _ (S m)); [lia|]. apply Hin, request_seen.
  - apply guarded_answers. intros sub Hs. by apply Hin, insert_vault_seen.
Qed.

Lemma admin_guard_answers m g inner :
  (forall q, seen q -> ends_ (S m) known_status (inner q)) ->
  ends_ (16 + m) known_status (AdminGuardService_call g inner request).
Proof.
  intros Hin. unfold AdminGuardService_call. case_match.
  - apply (ends_le _ _ (S m)); [lia|]. apply Hin, request_seen.
  - apply guarded_answers. intros sub _. apply Hin, insert_admin_seen, request_seen.
Qed.

Lemma route_answers state v a r storage n (x : route (X := X)) :
  ~ frozen -> config state = c -> storage_steps storage n -> x ∈ build_routes state v a r storage ->
  ends_ (16 + n) known_status (handler x request).
Proof.
  intros Hf Hc Hn [->|[[ctx Hx]|[(ctx & p & -> & Hx)|[ctx Hx]]]]%elem_build_routes;
    try apply list_elem_of_singleton in Hx as ->; simpl handler.
  - unfold handle_health. destruct (String.eqb _ _); [known|].
    apply (ends_le _ _ 1); [lia|]. apply fallback_answers, request_seen.
  - apply vault_guard_answers. intros q. apply whoami_vault_answers.
  - rewrite Hc. apply vault_guard_answers. intros q. by apply handle_block_answers.
  - apply admin_guard_answers. intros q. apply whoami_admin_answers.
Qed.
End one_request.

Lemma router_ends others state v a r storage n request :
  storage_steps storage n ->
  let q := proxy_middleware (config state) request in
  ends documents_parse (tame False (fine (config state) q others)) (16 + n) known_status
    (build_router state v a r storage request).
Proof.
  intros Hn. cbv zeta. unfold build_router.
  destruct (dispatch_cases (build_routes state v a r storage) fallback_404
    (proxy_middleware (config state) request)) as [(x & Hx & _ & ->)|[_ ->]].
  - eapply route_answers; [by intros []|done..].
  - apply (ends_le _ _ 1); [lia|]. apply fallback_answers, request_seen.
Qed.

(** C16. Every request is answered.  Whatever other tasks do, whatever the
    request, for any storage whose operations take at most [n] steps, and
    provided only that no issuer serves a
    key set that crashes the parser, the router neither panics nor loops: it
    takes at most [16 + n] atomic steps, one refresh of the key set included,
    and answers 200, 204, 400, 401, 404 or 503.  The client's own part is not
    counted: a PUT also waits for its body to arrive or to fail, which touches
    no shared state and is no step of the model. *)
Theorem request_answered state v a r storage n request (o : schedule senv (server X)) s :
  storage_steps storage n ->
  (forall i, documents_parse (at_env (o i))) ->
  exists resp s' o', block_on (build_router state v a r storage request) o s = Value (resp, s', o')
    /\ status resp ∈ [200; 204; 400; 401; 404; 503]
    /\ (length (trace (build_router state v a r storage request) o s) <= 16 + n)%nat.
Proof. intros Hn. by eapply ends_run, (router_ends (fun _ => True)). Qed.

(** C19. What a request can write to the log, over any storage whose operations
    keep to the storage and end.  If everything other tasks log meanwhile is of a class [others], then all that is logged while a request
    runs is of that class or accounted for by the request: the fields of its
    events are the method, path and effective address of the request, the
    block identifier of its own path (or the malformed sentinel), the [sub]
    claim of its verified token (or the unauthenticated sentinel), the
    configured block size, an audience, and labels from the fixed sets of
    failure categories and causes.  In particular no event carries payload
    bytes, token, proof or header contents, or on-disk paths. *)
Theorem request_log_fields others state v a r storage n request (o : schedule senv (server X)) s resp s' o' :
  storage_steps storage n ->
  (forall i s, logs others s (Async.others (o i) s)) ->
  block_on (build_router state v a r storage request) o s = Value (resp, s', o') ->
  exists es, srv_log s' = srv_log s ++ es
    /\ Forall (fun e => others e \/ caused_by (config state) (proxy_middleware (config state) request) e) es.
Proof.
  intros Hn Ho Hb.
  eapply (block_on_every_step (logs (fine (config state) (proxy_middleware (config state) request) others))).
  - apply logs_refl.
  - apply logs_trans.
  - eapply every_step_impl; [|by eapply ends_every_step, router_ends]. by intros s1 s2 [].
  - intros i s1. destruct (Ho i s1) as (es & He & Hf). exists es. split; [done|].
    eapply list.Forall_impl; [exact Hf|]. by left.
  - exact Hb.
Qed.
End requests.

(** ** Witnesses *)

#[local] Existing Instance target64.

Lemma fx_documents_parse i : documents_parse (at_env (alone (S := server unit) (fx_env 100 "n") i)).
Proof.
  intros u Hp. assert (accepts (fetch_jwks (Reply 200 (Some (as_bytes "n")))) = true) as Ha
    by (vm_compute; reflexivity).
  cbn [at_env alone fx_env http] in Hp. rewrite Hp in Ha. discriminate Ha.
Qed.

Lemma request_answered_witness :
  exists resp s' o', block_on (build_router (X := unit) fx_state (Some fx_vault) (Some fx_admin) (Some ()) None
      (fx_request "nonsense" "prf")) (alone (fx_env 100 "n")) fx_server = Value (resp, s', o')
    /\ status resp ∈ [200; 204; 400; 401; 404; 503].
Proof.
  destruct (request_answered fx_state (Some fx_vault) (Some fx_admin) (Some ()) None 0
    (fx_request "nonsense" "prf") (alone (fx_env 100 "n")) fx_server I fx_documents_parse)
    as (resp & s' & o' & Hb & Hs & _).
  exists resp, s', o'. exact (conj Hb Hs).
Defined.

(** The log of a rejected request, alone. *)
Definition fx_rejected :=
  block_on (build_router (X := unit) fx_state (Some fx_vault) (Some fx_admin) (Some ()) None
    (fx_request "tok" "nonsense")) (alone (fx_env 100 "n")) fx_server.

Lemma fx_rejected_log :
  observed fx_rejected = Some (respond_401, [AuthFailureEvent "auth.alg.disallowed" "vault" LOCALHOST]).
Proof. vm_compute. reflexivity. Qed.

Lemma request_log_fields_witness :
  exists (s' : server unit) es, srv_log s' = srv_log fx_server ++ es
    /\ Forall (caused_by fx_config (proxy_middleware fx_config (fx_request "tok" "nonsense"))) es.
Proof.
  pose proof fx_rejected_log as Hc. destruct fx_rejected as [[[resp s'] o']|] eqn:Hr; [|discriminate Hc].
  destruct (request_log_fields (fun _ => False) fx_state (Some fx_vault) (Some fx_admin) (Some ()) None 0
    (fx_request "tok" "nonsense") (alone (fx_env 100 "n")) fx_server resp s' o' I
    (fun _ s => logs_refl _ s) Hr) as (es & He & Hf).
  exists s', es. split; [exact He|]. eapply list.Forall_impl; [exact Hf|]. by intros e [[]|Hc'].
Defined.
