(* ===== verification/RaceSpec.v ===== *)
(** * RaceSpec: one proof, any number of concurrent requests

    The whole router raced against itself: however the steps of requests that
    share a proof identifier interleave, at most one of them succeeds. *)

From S2P Require Import Prelude RustStd Crates Fs Instances Crypto BlockId Jwks ServerConfig Replay.
From S2P Require Import ReplaySpec.
From S2P Require Import Logging Context Async Server Http ProxyTrust Failure Fixtures ContextSpec Refresh.
From S2P Require Import Token Dpop AuthFixtures TokenSpec DpopSpec Middleware MiddlewareSpec.
From S2P Require Import Storage Blocks StorageSpec.
From S2P Require Import Routes RoutesSpec RequestSpec.

Section race.
Context `{Sha2Crate} `{Base64Crate} `{SubtleCrate} `{UrlCrate} `{IpnetCrate} `{SerdeCrate} `{HttpCrate}.
Context `{JwtCrate} `{!JwtDecode TokenClaims} `{!JwtDecode DpopClaims} `{InstantRange}.
Context `{JsonCrate} `{RouterCrate} `{Target}.
Context {X : Type}.

(** ** The gate of one request *)

Lemma try_insert_gated k d : gated (recorded (X := X) k) succeeded (try_insert_step k d).
Proof.
  unfold try_insert_step. apply gated_try. intros e s r s' Ha. simpl in Ha.
  destruct (insert_entry k d (srv_replay s)) as [q st] eqn:Hins. injection Ha as <- <-.
  destruct q as [[]|err]; [left|by right].
  apply insert_entry_Ok in Hins as (Hn & _ & He & _). unfold recorded. simpl. split.
  - rewrite Hn. by intros [].
  - rewrite He, lookup_insert_eq. by eexists.
Qed.

Lemma validate_proof_gated raw m u t rt ctx k :
  proof_key ctx raw = Some k ->
  gated (recorded (X := X) k) succeeded (validate_proof raw m u t rt ctx).
Proof.
  unfold proof_key. intros Hk. unfold validate_proof.
  apply gated_try_done. intros h Hh. inv_res. rewrite Hh in Hk. simpl in Hk.
  apply gated_try_done. intros a Ha. inv_res. rewrite Ha in Hk. simpl in Hk.
  apply gated_try_done. intros _ _.
  apply gated_try_done. intros jk Hjk. inv_res. rewrite Hjk in Hk. simpl in Hk.
  apply gated_try_done. intros key Hkey. inv_res. rewrite Hkey in Hk. simpl in Hk.
  apply gated_try_done. intros cl Hcl. apply map_err_Ok in Hcl. rewrite Hcl in Hk. simpl in Hk.
  repeat (apply gated_try_done; intros ? _).
  apply gated_later. intros now.
  do 5 (apply gated_try_done; intros ? _).
  apply gated_try_done. intros jti Hjti. inv_res. rewrite Hjti in Hk. simpl in Hk. injection Hk as <-.
  apply gated_later. intros now'. apply gated_try_done. intros d _.
  eapply gated_await; [apply try_insert_gated|]. intros [[]|f] Hf; [by destruct Hf|].
  simpl. done.
Qed.

Lemma authenticate_gated request ctx raw k :
  extract_proof request = Ok raw -> proof_key ctx raw = Some k ->
  gated (recorded (X := X) k) succeeded (authenticate_common request ctx).
Proof.
  intros Hp Hk. unfold authenticate_common. apply gated_try_done. intros rt _.
  apply gated_try_done. intros rp Hrp. rewrite Hp in Hrp. injection Hrp as <-.
  apply gated_try_done. intros u _. apply gated_try_later. intros t.
  by apply gated_try, validate_proof_gated.
Qed.

Definition answered_ok (r : Response) : bool := (200 <=? status r) && (status r <? 300).

Lemma answered_ok_success r : answered_ok r = true <-> success r.
Proof. unfold answered_ok, success. rewrite andb_true_iff, N.leb_le, N.ltb_lt. done. Qed.

Abbreviation needs_proof k p := (gated (recorded (X := X) k) (fun a => answered_ok a = true) p).

Lemma emit_gated k e r : ~ success r -> needs_proof k (let* _u := emit e in Done r)%rust.
Proof. intros Hr. apply gated_later. intros _. simpl. by rewrite answered_ok_success. Qed.

Lemma guarded_gated ctx insert inner request raw k :
  extract_proof request = Ok raw -> proof_key ctx raw = Some k ->
  needs_proof k (guarded ctx insert inner request).
Proof.
  intros Hp Hk. eapply gated_await; [by eapply authenticate_gated|]. intros [sub|f] Hf; [by destruct Hf|].
  apply emit_gated, failure_no_success.
Qed.

(** ** The gate of the router *)

(** A request for the vault API that carries a proof with identifier [k]. *)
Record presents (ctx : OidcContext) (k : JtiKey) (request : Request) : Prop := {
  ps_path : uri_path request <> "/health" /\ uri_path request <> "/admin/whoami";
  ps_proof : exists raw, extract_proof request = Ok raw /\ proof_key ctx raw = Some k;
}.

Lemma fallback_gated k request : needs_proof k (fallback_404 request).
Proof. apply emit_gated. unfold success. simpl. lia. Qed.

Lemma block_unserved_gated `{!AsyncStorage X} k c request :
  existsb (String.eqb (method request)) ["GET"; "PUT"; "DELETE"] = false ->
  needs_proof k (handle_block c request).
Proof.
  simpl. rewrite !orb_false_iff. intros (E1 & E2 & E3 & _). unfold handle_block. rewrite E1, E2, E3.
  assert (~ success respond_block_404) as Hn by (unfold success; simpl; lia).
  destruct (parse _); [|by apply emit_gated]. by apply emit_gated.
Qed.

Lemma whoami_gated ctx raw k request :
  extract_proof request = Ok raw -> proof_key ctx raw = Some k ->
  needs_proof k (VaultGuardService_call (vault_guard ctx) handle_whoami_vault request).
Proof.
  intros Hp Hk. unfold VaultGuardService_call. simpl existsb. rewrite orb_false_r.
  destruct (String.eqb (method request) "GET") eqn:Hg; simpl negb; cbv iota; [by eapply guarded_gated|].
  unfold handle_whoami_vault. rewrite Hg. apply fallback_gated.
Qed.

Lemma blocks_gated `{!AsyncStorage X} c ctx raw k request :
  extract_proof request = Ok raw -> proof_key ctx raw = Some k ->
  needs_proof k (VaultGuardService_call (with_methods (vault_guard ctx) ["GET"; "PUT"; "DELETE"])
    (handle_block c) request).
Proof.
  intros Hp Hk. unfold VaultGuardService_call. simpl auth_methods.
  destruct (existsb _ _) eqn:Hmeth; simpl negb; cbv iota; [by eapply guarded_gated|by apply block_unserved_gated].
Qed.

Lemma router_gated state v a storage k request :
  presents v k request -> needs_proof k (build_router state (Some v) (Some a) (Some ()) storage request).
Proof.
  intros [[Hh Had] (raw & Hp & Hk)]. unfold build_router. rewrite build_routes_full.
  set (q := proxy_middleware (config state) request).
  change (uri_path request) with (uri_path q) in Hh, Had. change (extract_proof request) with (extract_proof q) in Hp.
  match goal with |- context [dispatch ?rs _ _] =>
    destruct (dispatch_cases rs fallback_404 q) as [(x & Hx & Hm & ->)|[_ ->]] end; [|apply fallback_gated].
  rewrite !elem_of_app, !elem_of_cons in Hx.
  destruct Hx as [[->|[->|Hx]]|[Hx|[->|Hx]]]; try by apply not_elem_of_nil in Hx.
  - simpl in Hm. rewrite route_literal in Hm by done. by apply String.eqb_eq in Hm.
  - by eapply whoami_gated.
  - destruct storage as [p|]; [|by apply not_elem_of_nil in Hx]. apply list_elem_of_singleton in Hx as ->.
    by eapply blocks_gated.
  - simpl in Hm. rewrite route_literal in Hm by done. by apply String.eqb_eq in Hm.
Qed.

Lemma tame_recorded frozen fine k (s s' : server X) : tame frozen fine s s' -> recorded k s -> recorded k s'.
Proof. intros (_ & Hsub & _) [d Hd]. exists d. by eapply lookup_weaken. Qed.

Lemma router_contender state v a storage n k request :
  storage_steps storage n ->
  presents v k request ->
  contender (recorded (X := X) k) answered_ok (build_router state (Some v) (Some a) (Some ()) storage request).
Proof.
  intros Hn Hp. split; [|by apply router_gated].
  eapply every_step_impl; [|by eapply ends_every_step, (router_ends (fun _ => True))].
  intros s s' Ht Hs. by eapply tame_recorded.
Qed.

(** C3. Concurrent replays: one proof, one success.  Let any number of requests
    to the vault API carry proofs with one identifier, be they the same request
    many times or different ones, and let their steps interleave in any order,
    at any times, over any storage whose operations keep to the storage and end,
    with anything else happening in between that does not evict that identifier.  Then at most one of them is ever answered with a 2xx
    status; and none is, if the identifier was on record before. *)
Theorem one_success_per_proof state v a storage n k requests s ts' s' :
  storage_steps storage n ->
  Forall (presents v k) requests ->
  rtc (pool_step (fun _ => True) (fun s s' : server X => recorded k s -> recorded k s'))
    (build_router state (Some v) (Some a) (Some ()) storage <$> requests, s) (ts', s') ->
  (winners answered_ok ts' <= 1)%nat /\ (recorded k s -> winners answered_ok ts' = 0%nat).
Proof.
  intros Hn Hr. apply (one_winner (recorded (X := X) k)); [auto|]. apply list.Forall_fmap.
  eapply list.Forall_impl; [exact Hr|]. intros q Hq. by eapply router_contender.
Qed.
End race.

(** ** Witnesses *)

#[local] Existing Instance target64.

(** Two copies of one request, step by step in turn. *)
Definition fx_race_order (n : nat) : list (nat * senv) :=
  flat_map (fun _ => [(0%nat, fx_env 100 "n"); (1%nat, fx_env 100 "n")]) (seq 0 n).

Definition fx_race (n : nat) : option (pool (E := senv) (S := server unit) Response) :=
  run_pool (fx_race_order n)
    (build_router fx_state (Some fx_vault) (Some fx_admin) (Some ()) None
       <$> [fx_request "tok" "prf"; fx_request "tok" "prf"], fx_server).

(** The answers so far. *)
Definition statuses {X} (c : pool (E := senv) (S := server X) Response) : list (option N) :=
  (fun p => match p with Done r => Some (status r) | Atomic _ _ => None end) <$> fst c.

Lemma fx_race_statuses : statuses <$> fx_race 6 = Some [Some 200; Some 401].
Proof. vm_compute. reflexivity. Qed.

Lemma fx_presents : presents fx_vault fx_proof_key (fx_request "tok" "prf").
Proof. split; [by split|]. by exists "prf". Qed.

Lemma one_success_per_proof_witness :
  exists ts' s', fx_race 6 = Some (ts', s') /\ statuses (ts', s') = [Some 200; Some 401]
    /\ (winners answered_ok ts' <= 1)%nat.
Proof.
  pose proof fx_race_statuses as Hc. destruct (fx_race 6) as [[ts' s']|] eqn:Hr; [|discriminate Hc].
  injection Hc as Hc. exists ts', s'. split; [reflexivity|]. split; [exact Hc|].
  refine (proj1 (one_success_per_proof fx_state fx_vault fx_admin None 0 fx_proof_key
    [fx_request "tok" "prf"; fx_request "tok" "prf"] fx_server ts' s' I _ _)).
  - apply Forall_cons; [exact fx_presents|]. apply list.Forall_singleton. exact fx_presents.
  - refine (run_pool_sound _ _ (fx_race_order 6) _ _ _ Hr). by apply list.Forall_true.
Defined.
