(* ===== verification/IntegritySpec.v ===== *)
(** * IntegritySpec: who can change a block

    The whole request path against the storage: a block changes only by an
    authenticated PUT or DELETE of that very block that is answered 204. *)

From S2P Require Import Prelude RustStd Crates Fs Instances Crypto BlockId Jwks ServerConfig Replay.
From S2P Require Import ReplaySpec.
From S2P Require Import Logging Context Async Server Http ProxyTrust Failure Fixtures ContextSpec Refresh.
From S2P Require Import Token Dpop AuthFixtures TokenSpec DpopSpec Middleware MiddlewareSpec.
From S2P Require Import Storage Blocks StorageSpec.
From S2P Require Import Linearize.
From S2P Require Import BlocksSpec Routes RoutesSpec RequestSpec.

Section integrity.
Context `{Sha2Crate} `{Base64Crate} `{SubtleCrate} `{UrlCrate} `{IpnetCrate} `{SerdeCrate} `{HttpCrate}.
Context `{JwtCrate} `{!JwtDecode TokenClaims} `{!JwtDecode DpopClaims} `{InstantRange}.
Context `{JsonCrate} `{RouterCrate} `{Target}.
Context {X : Type} (stored : X -> vault) (calls : AsyncStorage X) (C : Claims (server X)).
Context `{L : !LinearStorage stored calls C}.
Implicit Types (s : server X) (e : senv).

Abbreviation view := (view stored).

(** ** Programs that leave the storage alone *)

(** The other tasks leave the block [id] alone, and what an operation in
    progress has claimed. *)
Definition undisturbed (id : BlockId) (o : schedule senv (server X)) : Prop :=
  forall n s, view (others (o n) s) id = view s id /\ forall c, holds c s -> holds c (others (o n) s).

Definition keeps_block (id : BlockId) s s' : Prop := view s' id = view s id.

Lemma keeping_run id {A} (p : task X A) o s r s' o' :
  every_step (keeps_block id) p -> undisturbed id o -> block_on p o s = Value (r, s', o') ->
  view s' id = view s id /\ undisturbed id o'.
Proof.
  revert o s. induction p as [a|R act k IH]; intros o s Hp Ho Hb; [by simplify_eq/=|]. simpl in Hb.
  destruct Hp as [Ha Hk]. destruct (act _ _) as [[r1 s1]|] eqn:Hact; [|done]. apply Ha in Hact.
  apply IH in Hb as [H1' H2']; [|done|intros n; apply Ho]. split; [|done].
  rewrite H1', Hact. apply Ho.
Qed.

Lemma frozen_keeps id fine n {A} (Q : A -> Prop) (p : task X A) :
  ends documents_parse (tame True fine) n Q p -> every_step (keeps_block id) p.
Proof.
  intros Hp%ends_every_step. eapply every_step_impl; [|exact Hp]. intros s1 s2 (_ & _ & Hf).
  unfold keeps_block, StorageSpec.view. by rewrite Hf.
Qed.

(** ** Operations of the storage *)

Lemma unmoved_run id {A} (a r : A) c (p : task X A) o s s' o' :
  block_id_wf id -> unmoved view a c p -> holds c s -> undisturbed id o ->
  block_on p o s = Value (r, s', o') -> r = a /\ view s' id = view s id /\ undisturbed id o'.
Proof.
  intros Hid. revert c o s. induction p as [b|R act k IH]; intros c o s Hp Hc Ho Hb; [by simplify_eq/=|].
  simpl in Hb. destruct (act _ _) as [[r1 s1]|] eqn:Hact; [|done].
  destruct (Ho 0%nat s) as [Hs Hh]. destruct (Hp _ _ _ _ (Hh c Hc) Hact) as (c' & H1' & _ & Hu & Hk).
  apply (IH r1 c') in Hb as (-> & Hv & Ho'); [|done..|intros n; apply Ho].
  split; [done|]. split; [|done]. rewrite Hv, <- Hs. by apply Hu.
Qed.

(** An operation changes the block only as its specification says. *)
Lemma once_run id {A} (f : vault -> A -> vault -> Prop) c (p : task X A) r o s s' o' :
  block_id_wf id -> once view f c p -> holds c s -> undisturbed id o ->
  block_on p o s = Value (r, s', o') ->
  (exists b b', f b r b' /\ b id = view s id /\ b' id = view s' id) /\ undisturbed id o'.
Proof.
  intros Hid. revert c o s. induction p as [a|R act k IH]; intros c o s Hp Hc Ho Hb.
  { simplify_eq/=. split; [|done]. exists (view s'), (view s'). split; [apply Hp|done]. }
  simpl in Hb. destruct (act _ _) as [[r1 s1]|] eqn:Hact; [|done].
  destruct (Ho 0%nat s) as [Hs Hh]. destruct (Hp _ _ _ _ (Hh c Hc) Hact) as (c' & H1' & _ & [[Hu Hk]|(a & Hf & Hk)]).
  - apply (IH r1 c') in Hb as ((b & b' & Hf & Hb1 & Hb2) & Ho'); [|done..|intros n; apply Ho].
    split; [|done]. exists b, b'. split; [done|]. split; [|done]. rewrite Hb1, <- Hs. by apply Hu.
  - apply (unmoved_run id a r c') in Hb as (-> & Hv & Ho'); [|done..|intros n; apply Ho].
    split; [|done]. eexists _, _. split; [exact Hf|]. by rewrite Hs, Hv.
Qed.

(** ** The block handler *)

(** [id] is as it is in [s'] because [request], answered [resp], asked for it. *)
Definition changed_by (c : ServerConfig) (request : Request) (id : BlockId) (resp : Response) s' : Prop :=
  block_id_of request = Some id /\ resp = respond_block_204
  /\ ((method request = "PUT" /\ exists d, exact_body (block_size_bytes c) request d /\ view s' id = Some d)
      \/ (method request = "DELETE" /\ view s' id = None)).

Lemma emit_keeps id ev (r : Response) : every_step (keeps_block id) (let* _u := emit ev in Done r)%rust.
Proof. split; [|done]. by intros ? s1 ? s2 [= _ <-]. Qed.

(** One call of the storage, then steps that leave it alone. *)
Lemma storage_call_then {R} (f : vault -> R -> vault -> Prop) (p : task X R) (k : R -> task X Response) id o s resp s' o' :
  block_id_wf id -> once view f nothing p -> undisturbed id o -> (forall r, every_step (keeps_block id) (k r)) ->
  block_on (await p k) o s = Value (resp, s', o') ->
  exists b b' r s1 o1, f b r b' /\ b id = view s id /\ b' id = view s' id
    /\ block_on (k r) o1 s1 = Value (resp, s', o').
Proof.
  intros Hid Hp Ho Hk (r & s1 & o1 & H1' & H2')%block_on_await_inv.
  apply (once_run id f nothing) in H1' as ((b & b' & Hf & Hb & Hb') & Ho1); [|done..|apply holds_nothing|done].
  exists b, b', r, s1, o1. split; [done|]. split; [done|]. split; [|done]. rewrite Hb'.
  apply (keeping_run id) in H2' as [Hv _]; [done|apply Hk|done].
Qed.

Lemma handle_get_keeps id bid subject address o s resp s' o' :
  block_id_wf id -> block_id_wf bid -> undisturbed id o ->
  block_on (handle_get bid subject address) o s = Value (resp, s', o') -> view s' id = view s id.
Proof.
  intros Hid Hwf Ho Hb. apply (storage_call_then (get_spec bid) _ _ id) in Hb
    as (b & b' & r & s1 & o1 & [Heq _] & <- & <- & _); [|done|by apply get_once|done|].
  - symmetry. by apply Heq.
  - intros [d|[|c k]]; apply emit_keeps.
Qed.

Lemma handle_delete_changes id bid subject address o s resp s' o' :
  block_id_wf id -> block_id_wf bid -> undisturbed id o ->
  block_on (handle_delete bid subject address) o s = Value (resp, s', o') -> view s' id <> view s id ->
  id = bid /\ resp = respond_block_204 /\ view s' id = None.
Proof.
  intros Hid Hwf Ho Hb. apply (storage_call_then (delete_spec bid) _ _ id) in Hb
    as (b & b' & r & s1 & o1 & Hf & <- & <- & Hb); [|done|by apply delete_once|done|].
  - intros Hne. destruct Hf as [[-> Heq]|[_ Heq]]; [|by destruct Hne; symmetry; apply Heq].
    rewrite <- (Heq id Hid) in *. unfold write in *. case_decide; [|done]. simpl in Hb. by injection Hb as <- _ _.
  - intros [u|[|c k]]; apply emit_keeps.
Qed.

Lemma handle_put_changes id bid subject address size request o s resp s' o' :
  size + 1 <= usize_max -> block_id_wf id -> block_id_wf bid -> undisturbed id o ->
  block_on (handle_put bid subject address size request) o s = Value (resp, s', o') -> view s' id <> view s id ->
  id = bid /\ resp = respond_block_204 /\ exists d, exact_body size request d /\ view s' id = Some d.
Proof.
  intros Hsz Hid Hwf Ho Hb Hne. pose proof usize_max_bound as Hmax.
  destruct (read_body size request Hsz ltac:(lia)) as [Hadd Hread]. unfold handle_put in Hb. rewrite Hadd in Hb.
  destruct (match content_length request with Some n => negb (n =? size) | None => false end) eqn:Hcl;
    [by injection Hb as _ <- _|].
  destruct (to_bytes _ _) as [d|] eqn:Ht; [|by injection Hb as _ <- _].
  destruct (N.eqb_spec (bytes_len d) size) as [Hlen|Hlen]; simpl negb in Hb; cbv iota in Hb;
    [|by injection Hb as _ <- _].
  apply (storage_call_then (put_spec bid d) _ _ id) in Hb
    as (b & b' & r & s1 & o1 & Hf & Hb0 & Hb1 & Hb); [|done|by apply put_once|done|].
  2: { intros [u|[|c k]]; [apply emit_keeps|done|apply emit_keeps]. }
  rewrite <- Hb0, <- Hb1 in *. destruct Hf as [[-> Heq]|[_ Heq]]; [|by destruct Hne; symmetry; apply Heq].
  rewrite <- (Heq id Hid) in *. unfold write in *. case_decide as Hd; [|done].
  simpl in Hb. injection Hb as <- _ _. split; [done|]. split; [done|]. exists d. split; [|done].
  destruct (proj1 (Hread d) (conj eq_refl Hlen)) as [Hbody _]. by rewrite length_mismatch_false in Hcl.
Qed.

Lemma handle_block_changes c request o s resp s' o' id :
  block_size_bytes c + 1 <= usize_max -> block_id_wf id -> undisturbed id o ->
  block_on (handle_block c request) o s = Value (resp, s', o') ->
  view s' id <> view s id -> changed_by c request id resp s'.
Proof.
  unfold changed_by, block_id_of, handle_block. cbv zeta. intros Hsz Hid Ho Hb Hne.
  assert (forall ev r, block_on (let* _u := emit ev in Done r)%rust o s <> Value (resp, s', o')) as Hemit.
  { intros ev r Hb'. apply (keeping_run id) in Hb' as [Hs _]; [done|apply emit_keeps|done]. }
  destruct (parse _) as [bid|] eqn:Hp; [|by apply Hemit in Hb].
  apply parse_Some in Hp as Hp'. destruct Hp' as [_ Hwf].
  destruct (String.eqb_spec (method request) "GET") as [Hm|_].
  { destruct Hne. by eapply handle_get_keeps. }
  destruct (String.eqb_spec (method request) "PUT") as [Hm|_].
  { apply (handle_put_changes id) in Hb as (-> & -> & d & Hd); [|done..]. split_and!; [done..|]. left. eauto. }
  destruct (String.eqb_spec (method request) "DELETE") as [Hm|_]; [|by apply Hemit in Hb].
  apply (handle_delete_changes id) in Hb as (-> & -> & Hd); [|done..]. split_and!; [done..|]. by right.
Qed.

(** ** The router *)

Lemma guarded_changes ctx c request o s resp s' o' id :
  block_size_bytes c + 1 <= usize_max -> block_id_wf id -> undisturbed id o ->
  block_on (guarded ctx (fun sub => insert_vault (VaultSubject_new sub)) (handle_block c) request) o s
    = Value (resp, s', o') ->
  view s' id <> view s id ->
  changed_by c request id resp s'
  /\ exists subject, authenticated request ctx (trace (authenticate_common request ctx) o s) subject.
Proof.
  intros Hsz Hid Ho. unfold guarded. cbv zeta. intros (r & s1 & o1 & Ha & Hb)%block_on_await_inv Hne.
  destruct (keeping_run id _ _ _ _ _ _
    (frozen_keeps id _ _ _ _ (authenticate_ends True c request (fun _ => True) ctx)) Ho Ha) as [Hs1 Ho1].
  rewrite <- Hs1 in Hne. destruct r as [subject|f].
  - split; [|exists subject; by eapply authenticate_common_Ok].
    apply handle_block_changes with (id := id) in Hb as (Hi & Hr & Hm); [|done..].
    split; [exact Hi|]. split; [exact Hr|]. exact Hm.
  - apply (keeping_run id) in Hb as [Hs _]; [done|apply emit_keeps|done].
Qed.

(** C4. Only an authenticated client changes a block, and only the one it names.
    Over any storage whose operations take effect once, the local backend at the
    grain of its system calls included, and whatever other tasks do meanwhile: if
    a block that they leave alone differs after a request from before, then that
    request was a PUT or DELETE on
    exactly that block's path, authenticated against the vault context during
    the very run, and was answered 204; after a PUT the block holds the
    request's body, which is of the configured size, and after a DELETE it is
    absent.  Every other request, rejected ones and those for the health check
    or the administrator included, leaves the block as it was. *)
Theorem blocks_change_only_authenticated state v a request o s resp s' o' id :
  block_size_bytes (config state) + 1 <= usize_max -> block_id_wf id -> undisturbed id o ->
  block_on (build_router state (Some v) (Some a) (Some ()) (Some calls) request) o s = Value (resp, s', o') ->
  view s' id <> view s id ->
  let q := proxy_middleware (config state) request in
  changed_by (config state) q id resp s'
  /\ exists subject, authenticated q v (trace (authenticate_common q v) o s) subject.
Proof.
  unfold build_router. cbv zeta. rewrite build_routes_full. intros Hsz Hid Ho.
  set (q := proxy_middleware (config state) request).
  assert (forall n Q (p : task X Response), ends documents_parse (tame True (fine (config state) q (fun _ => True))) n Q p ->
    block_on p o s = Value (resp, s', o') -> view s' id = view s id) as Hfrozen.
  { intros n Q p Hp Hb. eapply (keeping_run id); [by eapply frozen_keeps|done|exact Hb]. }
  match goal with |- context [dispatch ?rs _ _] =>
    destruct (dispatch_cases rs fallback_404 q) as [(x & Hx & _ & ->)|[_ ->]] end; intros Hb Hne.
  2: { destruct Hne. eapply Hfrozen; [|exact Hb]. apply fallback_answers, request_seen. }
  rewrite !elem_of_app, !elem_of_cons in Hx.
  destruct Hx as [[->|[->|Hx]]|[[->|Hx]|[->|Hx]]]; try by apply not_elem_of_nil in Hx.
  - destruct Hne. simpl in Hb. unfold handle_health in Hb. destruct (String.eqb _ _); [by injection Hb as _ <- _|].
    eapply Hfrozen; [|exact Hb]. apply fallback_answers, request_seen.
  - destruct Hne. eapply Hfrozen; [|exact Hb]. eapply (vault_guard_answers _ _ _ _ 1), whoami_vault_answers.
  - simpl in Hb. unfold VaultGuardService_call in Hb. simpl auth_methods in Hb.
    destruct (existsb _ _) eqn:Hm; simpl negb in Hb; cbv iota in Hb; [by eapply guarded_changes|].
    exfalso. apply (handle_block_changes _ _ _ _ _ _ _ _ Hsz Hid Ho) in Hb as (_ & _ & [[Heq _]|[Heq _]]); [..|done];
      by rewrite Heq in Hm.
  - destruct Hne. eapply Hfrozen; [|exact Hb]. eapply (admin_guard_answers _ _ _ _ 1), whoami_admin_answers.
Qed.
End integrity.

(** ** Witnesses *)

#[local] Existing Instance target64.

Definition fx_small : AppState := {| config :=
  {| bind_address := bind_address fx_config; block_size_bytes := 2; storage_backend := NoBackend;
     trusted_proxies := []; vault_oidc := vault_oidc fx_config; admin_oidc := admin_oidc fx_config;
     drain_timeout := 30; auth := AuthConfig_default |} |}.

(** An empty map of blocks behind the fixture's contexts. *)
Definition fx_vault_store : server (gmap BlockId bytes) :=
  {| srv_contexts := srv_contexts fx_server; srv_replay := new AuthConfig_default; srv_storage := ∅;
     srv_log := []; srv_sent := [] |}.

Definition fx_put : Request := {|
  method := "PUT"; uri_authority := None; uri_path_and_query := Some ("/api/blocks/" +:+ as_str fx_id);
  headers := headers (fx_request "tok" "put"); extensions := no_extensions; req_body := Some fx_body |}.

(** The fixture's token, and a proof for that PUT. *)
Definition fx_put_headers : list (string * Header) := [("tok", fx_token_header); ("put", fx_proof_header)].
#[local] Instance fx_put_jwt : JwtCrate := table_jwt fx_put_headers.
#[local] Instance fx_put_token : JwtDecode TokenClaims :=
  table_decode fx_put_headers [("tok", (toy_key "v", fx_claims))].
#[local] Instance fx_put_proof : JwtDecode DpopClaims := table_decode fx_put_headers
  [("put", (toy_key "k", {| dc_htm := Some "PUT";
      dc_htu := Some ("http://vault.example/api/blocks/" +:+ as_str fx_id);
      dc_iat := Some 160; dc_jti := Some "id-2"; dc_ath := Some (compute_ath "tok") |}))].

Definition fx_putting :=
  block_on (build_router fx_small (Some fx_vault) (Some fx_admin) (Some ()) (Some (atomically map_storage)) fx_put)
    (alone (fx_env 100 "n")) fx_vault_store.

(** The block afterwards. *)
Definition fx_put_block : option (option bytes) :=
  match fx_putting with Value (_, s', _) => Some (srv_storage s' !! fx_id) | Panic => None end.

Lemma fx_put_block_ok : fx_put_block = Some (Some fx_body).
Proof. vm_compute. reflexivity. Qed.

Lemma blocks_change_only_authenticated_witness :
  exists subject, authenticated (proxy_middleware (config fx_small) fx_put) fx_vault
    (trace (authenticate_common (proxy_middleware (config fx_small) fx_put) fx_vault)
       (alone (fx_env 100 "n")) fx_vault_store) subject.
Proof.
  pose proof fx_put_block_ok as Hc. unfold fx_put_block in Hc.
  destruct fx_putting as [[[resp s'] o']|] eqn:Hb; [|discriminate Hc]. injection Hc as Hc.
  apply (blocks_change_only_authenticated (fun m id => m !! id) (atomically map_storage) (no_claims _) fx_small fx_vault fx_admin
    fx_put (alone (fx_env 100 "n")) fx_vault_store resp s' o' fx_id) in Hb as [_ Hs].
  - exact Hs.
  - vm_compute. discriminate.
  - exact fx_id_wf.
  - intros n s. split; [reflexivity|]. intros c Hh. exact Hh.
  - unfold StorageSpec.view. rewrite Hc. discriminate.
Defined.
