(* ===== verification/LinearSpec.v ===== *)
(** * LinearSpec: the block API is linearizable

    The whole server, any number of requests in progress at once, against an
    atomic map of blocks: every request takes effect at one instant between its
    call and its answer, as [vault_spec] says, or not at all. *)

From S2P Require Import Prelude RustStd Crates Fs Instances Crypto BlockId Jwks ServerConfig Replay.
From S2P Require Import ReplaySpec.
From S2P Require Import Logging Context Async Server Http ProxyTrust Failure Fixtures ContextSpec Refresh.
From S2P Require Import Token Dpop AuthFixtures TokenSpec DpopSpec Middleware MiddlewareSpec.
From S2P Require Import Storage Blocks StorageSpec.
From S2P Require Import BlocksSpec Routes RoutesSpec RequestSpec RaceSpec IntegritySpec Linearize.

Section spec.
Context `{Sha2Crate} `{Base64Crate} `{SubtleCrate} `{UrlCrate} `{IpnetCrate} `{SerdeCrate} `{HttpCrate}.
Context `{JwtCrate} `{!JwtDecode TokenClaims}.
Implicit Types (b : vault) (q : Request) (r : Response).

(** Answers that tell nothing about the block: not authenticated, no memory for
    the proof, a backend failure, a body that is not a block, a method that is
    not served. *)
Inductive refused (c : ServerConfig) q : Response -> Prop :=
  | refused_auth f : refused c q (respond_failure f)
  | refused_backend : refused c q respond_block_503
  | refused_body :
      method q = "PUT" -> (forall d, ~ exact_body (block_size_bytes c) q d) -> refused c q respond_block_400
  | refused_method : served_method (method q) = false -> refused c q respond_block_404.

(** What a request for the block [id] does when it is served. *)
Inductive serves (c : ServerConfig) (id : BlockId) q b : Response -> vault -> Prop :=
  | serves_get : method q = "GET" ->
      serves c id q b (match b id with Some d => respond_block_200 d | None => respond_block_404 end) b
  | serves_put d : method q = "PUT" -> exact_body (block_size_bytes c) q d ->
      serves c id q b respond_block_204 (write id (Some d) b)
  | serves_delete : method q = "DELETE" -> serves c id q b respond_block_204 (write id None b).

(** The sequential specification of the API. *)
Definition vault_spec (c : ServerConfig) q b r b' : Prop :=
  match block_id_of q with
  | None => b ≡ b'
  | Some id =>
      (refused c q r /\ b ≡ b')
      \/ (exists subject, token_subject q subject) /\ exists b1, serves c id q b r b1 /\ b1 ≡ b'
  end.

(** The specification is the same before and after the proxy middleware. *)
Lemma vault_spec_proxy c c' q b r b' : vault_spec c (proxy_middleware c' q) b r b' -> vault_spec c q b r b'.
Proof.
  unfold vault_spec. change (block_id_of (proxy_middleware c' q)) with (block_id_of q).
  destruct (block_id_of q) as [id|]; [|done]. intros [[Hr Hb]|[Ht (b1 & Hs & Hb)]]; [left|right].
  - split; [|done]. by destruct Hr; constructor.
  - split; [exact Ht|]. exists b1. split; [|done]. by destruct Hs; constructor.
Qed.

Lemma block_id_of_wf q id : block_id_of q = Some id -> block_id_wf id.
Proof. intros Hp. by apply parse_Some in Hp as []. Qed.

Lemma serves_equiv c id q b1 b2 r b1' :
  block_id_wf id -> b1 ≡ b2 -> serves c id q b1 r b1' -> exists b2', serves c id q b2 r b2' /\ b1' ≡ b2'.
Proof.
  intros Hid Hb [Hm|d Hm Hd|Hm].
  - exists b2. split; [|done]. rewrite (Hb id Hid). by constructor.
  - exists (write id (Some d) b2). split; [by constructor|by apply write_proper].
  - exists (write id None b2). split; [by constructor|by apply write_proper].
Qed.

#[export] Instance vault_spec_proper c q : Proper ((≡) ==> (=) ==> (≡) ==> iff) (vault_spec c q).
Proof.
  assert (forall b1 b2 r b1' b2', b1 ≡ b2 -> b1' ≡ b2' -> vault_spec c q b1 r b1' -> vault_spec c q b2 r b2') as Himp.
  { intros b1 b2 r b1' b2' Hb Hb'. unfold vault_spec.
    destruct (block_id_of q) as [id|] eqn:Hid; [|intros Hv; symmetry in Hb; by etrans; [etrans|]].
    intros [[Hr Hv]|[Ht (b & Hs & Hv)]].
    { left. split; [done|]. symmetry in Hb. by etrans; [etrans|]. }
    right. split; [done|].
    destruct (serves_equiv _ _ _ _ _ _ _ (block_id_of_wf _ _ Hid) Hb Hs) as (b' & Hs' & Hbb).
    exists b'. split; [done|]. symmetry in Hbb. by etrans; [etrans|]. }
  intros b1 b2 Hb r ? <- b1' b2' Hb'. split; by apply Himp.
Qed.
End spec.

(** ** Every request takes effect at once *)

Section linear.
Context `{Sha2Crate} `{Base64Crate} `{SubtleCrate} `{UrlCrate} `{IpnetCrate} `{SerdeCrate} `{HttpCrate}.
Context `{JwtCrate} `{!JwtDecode TokenClaims} `{!JwtDecode DpopClaims} `{InstantRange}.
Context `{JsonCrate} `{RouterCrate} `{Target}.
Context {X : Type} (stored : X -> vault) (calls : AsyncStorage X) (C : Claims (server X)).
Context `{L : !LinearStorage stored calls C}.
Implicit Types (s : server X) (b : vault) (q : Request) (r : Response).

Abbreviation view := (view stored).
Abbreviation once f c p := (once (E := senv) view f c p).

Lemma frozen_inert fine s s' : tame True fine s s' -> inert view s s'.
Proof. intros (_ & _ & Hf). apply (storage_inert stored (C := C)), Hf; done. Qed.

Lemma emit_inert ev : every_step (inert view) (emit ev : task X unit).
Proof. split; [|done]. intros e s [] s' [= <-]. by apply (storage_inert stored (C := C)). Qed.

Lemma emit_unmoved ev r c : unmoved view r c (let* _u := emit ev in Done r)%rust.
Proof. apply inert_unmoved, emit_inert. Qed.

(** A program that only logs, and is refused. *)
Lemma emit_once (f : vault -> Response -> vault -> Prop) c ev r :
  (forall b, f b r b) -> once f c (let* _u := emit ev in Done r)%rust.
Proof. intros Hf. eapply unmoved_once; [exact Hf|apply emit_unmoved]. Qed.

(** *** The block handler *)

Section handler.
Context (c : ServerConfig) (q : Request) (id : BlockId) (subject : string) (address : IpAddr).
Context (Hid : block_id_of q = Some id) (Htok : exists subject, token_subject q subject).

Let Hwf : block_id_wf id.
Proof. by eapply block_id_of_wf. Qed.

Abbreviation spec := (vault_spec c q).

Lemma spec_refused b r b' : refused c q r -> b ≡ b' -> spec b r b'.
Proof. intros Hr Hb. unfold vault_spec. rewrite Hid. by left. Qed.

Lemma spec_serves b r b1 b' : serves c id q b r b1 -> b1 ≡ b' -> spec b r b'.
Proof. intros Hs Hb. unfold vault_spec. rewrite Hid. right. eauto. Qed.

Lemma handle_get_once : method q = "GET" -> once spec nothing (handle_get id subject address).
Proof.
  intros Hm. apply (once_then view (get_spec id)) with
    (fun u => match u with Ok d => respond_block_200 d | Err SE_NotFound => respond_block_404 | Err _ => respond_block_503 end).
  - by apply get_once.
  - intros u b b' [Hb Hu]. pose proof (serves_get c id q b Hm) as Hs.
    destruct u as [d|[|cause k]]; rewrite ?Hu in Hs; [by eapply spec_serves..|]. by apply spec_refused; [constructor|].
  - intros [d|[|cause k]] c'; apply emit_unmoved.
Qed.

Lemma handle_delete_once : method q = "DELETE" -> once spec nothing (handle_delete id subject address).
Proof.
  intros Hm. apply (once_then view (delete_spec id)) with
    (fun u => match u with Err (SE_Backend _ _) => respond_block_503 | _ => respond_block_204 end).
  - by apply delete_once.
  - intros u b b' [[-> Hb]|[(cause & k & ->) Hb]]; [by eapply spec_serves; [constructor|]|].
    by apply spec_refused; [constructor|].
  - intros [d|[|cause k]] c'; apply emit_unmoved.
Qed.

Lemma handle_put_once (q' : Request) :
  block_size_bytes c + 1 <= usize_max -> req_body q' = req_body q -> content_length q' = content_length q ->
  method q = "PUT" -> once spec nothing (handle_put id subject address (block_size_bytes c) q').
Proof.
  intros Hsz Hbody Hlen Hm. pose proof usize_max_bound as Hmax.
  destruct (read_body (block_size_bytes c) q Hsz ltac:(lia)) as [Hadd Hread].
  unfold handle_put. rewrite Hadd, Hbody, Hlen.
  assert ((forall d, ~ exact_body (block_size_bytes c) q d) ->
    once spec nothing (Done respond_block_400 : task X Response)) as H400.
  { intros Hno b. apply spec_refused; [by constructor|done]. }
  destruct (match content_length q with Some n => negb (n =? _) | None => false end) eqn:Hcl.
  { apply H400. intros d (_ & _ & Hn). apply length_mismatch_false in Hn. by rewrite Hn in Hcl. }
  rewrite length_mismatch_false in Hcl.
  destruct (to_bytes _ _) as [d0|].
  2: { apply H400. intros d (Hd & Hl & _). by destruct (proj2 (Hread d) (conj Hd Hl)). }
  destruct (N.eqb_spec (bytes_len d0) (block_size_bytes c)) as [Hl0|Hl0].
  2: { apply H400. intros d (Hd & Hl & _). by destruct (proj2 (Hread d) (conj Hd Hl)) as [[= ->] _]. }
  destruct (proj1 (Hread d0) (conj eq_refl Hl0)) as [Hb0 _].
  apply (once_then view (put_spec id d0)) with
    (fun u => match u with Ok _ => respond_block_204 | Err _ => respond_block_503 end).
  - by apply put_once.
  - intros u b b' [[-> Hb]|[(cause & k & ->) Hb]]; [by eapply spec_serves; [by constructor|]|].
    by apply spec_refused; [constructor|].
  - intros [d|[|cause k]] c'; [apply emit_unmoved|done|apply emit_unmoved].
Qed.
End handler.

(** The block handler on a request that was authenticated. *)
Lemma handle_block_once c q sub :
  block_size_bytes c + 1 <= usize_max -> token_subject q sub ->
  once (vault_spec c q) nothing (handle_block c (insert_vault (VaultSubject_new sub) q)).
Proof.
  intros Hsz Htok. unfold handle_block. cbv zeta.
  change (parse _) with (block_id_of q). change (method _) with (method q).
  destruct (block_id_of q) as [id|] eqn:Hid; [|apply emit_once; intros b; unfold vault_spec; by rewrite Hid].
  destruct (String.eqb_spec (method q) "GET") as [Hm|Hg]; [apply handle_get_once; eauto|].
  destruct (String.eqb_spec (method q) "PUT") as [Hm|Hp]; [apply handle_put_once; eauto|].
  destruct (String.eqb_spec (method q) "DELETE") as [Hm|Hd]; [apply handle_delete_once; eauto|].
  apply emit_once. intros b. eapply spec_refused; [done| |done]. constructor. unfold served_method.
  by rewrite !orb_false_iff, !String.eqb_neq.
Qed.

(** A method the guard lets through. *)
Lemma handle_block_unserved_once c q :
  served_method (method q) = false -> once (vault_spec c q) nothing (handle_block c q).
Proof.
  intros Hm. unfold handle_block. cbv zeta. change (parse _) with (block_id_of q).
  destruct (block_id_of q) as [id|] eqn:Hid; [|apply emit_once; intros b; unfold vault_spec; by rewrite Hid].
  assert (forall b, vault_spec c q b respond_block_404 b) as H404.
  { intros b. eapply spec_refused; [done| |done]. by constructor. }
  unfold served_method in Hm. apply orb_false_iff in Hm as [[-> ->]%orb_false_iff ->]. by apply emit_once.
Qed.

(** *** The router *)

Lemma guarded_once ctx insert inner c q :
  (forall sub, token_subject q sub -> once (vault_spec c q) nothing (inner (insert sub q))) ->
  once (vault_spec c q) nothing (guarded ctx insert inner q).
Proof.
  intros Hin. unfold guarded. cbv zeta.
  eapply once_await; [|exact (authenticate_ends True c q (fun _ => True) ctx)|]; [apply frozen_inert|].
  intros [sub|f] Hr; [by apply Hin|]. apply emit_once. intros b.
  destruct (block_id_of q) as [id|] eqn:Hid; [|unfold vault_spec; by rewrite Hid].
  eapply spec_refused; [done|constructor|done].
Qed.

Lemma block_route_once ctx c q :
  block_size_bytes c + 1 <= usize_max ->
  once (vault_spec c q) nothing
    (VaultGuardService_call (with_methods (vault_guard ctx) ["GET"; "PUT"; "DELETE"]) (handle_block c) q).
Proof.
  intros Hsz. unfold VaultGuardService_call. simpl auth_methods. cbn [existsb]. rewrite orb_false_r, orb_assoc.
  destruct (String.eqb (method q) "GET" || String.eqb (method q) "PUT" || String.eqb (method q) "DELETE") eqn:Hm;
    simpl negb; cbv iota; [|by apply handle_block_unserved_once].
  apply guarded_once. intros sub Hs. by apply handle_block_once.
Qed.

(** Programs that do not concern a block. *)
Lemma other_once fine n (R : Response -> Prop) c q (p : task X Response) :
  block_id_of q = None -> ends documents_parse (tame True fine) n R p -> once (vault_spec c q) nothing p.
Proof.
  intros Hid Hp. eapply once_ends; [apply frozen_inert|exact Hp|]. intros a b _. unfold vault_spec. by rewrite Hid.
Qed.

Lemma block_path_matches q id :
  block_id_of q = Some id -> route_matches "/api/blocks/{id}" (uri_path q) = true.
Proof.
  intros Hid. apply route_block. unfold block_id_of in Hid.
  destruct (strip_prefix "/api/blocks/" (uri_path q)) as [seg|] eqn:Hseg; cbn [unwrap_or] in Hid; [|discriminate Hid].
  apply strip_prefix_Some in Hseg. apply parse_Some in Hid as Hp. destruct Hp as [Hs [Hlen Hall]].
  apply parse_as_str in Hid. rewrite Hid in *. exists seg. split; [done|]. split; [by intros ->|].
  eapply str_all_mono; [apply base64url_not_slash|done].
Qed.

Lemma literal_no_block q pat :
  str_all (fun x => negb (Ascii.eqb x "{")) pat = true -> strip_prefix "/api/blocks/" pat = None ->
  route_matches pat (uri_path q) = true -> block_id_of q = None.
Proof.
  intros Hlit Hpre Hm. rewrite route_literal in Hm by done. apply String.eqb_eq in Hm.
  unfold block_id_of. by rewrite <- Hm, Hpre.
Qed.

Lemma router_once state v a q :
  block_size_bytes (config state) + 1 <= usize_max ->
  once (vault_spec (config state) q) nothing (build_router state (Some v) (Some a) (Some ()) (Some calls) q).
Proof.
  intros Hsz. unfold build_router. rewrite build_routes_full. set (q' := proxy_middleware (config state) q).
  apply (once_impl (Claims0 := C) view (vault_spec (config state) q')); [intros b r b'; by apply vault_spec_proxy|].
  set (c := config state) in *. set (any := fun _ : Event => True).
  match goal with |- context [dispatch ?rs _ _] =>
    destruct (dispatch_cases rs fallback_404 q') as [(x & Hx & Hm & ->)|[Hno ->]] end.
  2: { eapply other_once; [|apply (fallback_answers True c q' any), request_seen].
       destruct (block_id_of q') as [id|] eqn:Hid; [|done]. apply block_path_matches in Hid.
       refine (_ (Hno {| pattern := "/api/blocks/{id}"; handler := _ |} _)); [simpl; congruence|].
       apply elem_of_app. right. by left. }
  rewrite !elem_of_app, !elem_of_cons in Hx.
  destruct Hx as [[->|[->|Hx]]|[[->|Hx]|[->|Hx]]]; try by apply not_elem_of_nil in Hx.
  - apply literal_no_block in Hm; [|done..]. simpl. unfold handle_health. destruct (String.eqb _ _).
    + intros b. unfold vault_spec. by rewrite Hm.
    + eapply other_once; [done|]. apply (fallback_answers True c q' any), request_seen.
  - apply literal_no_block in Hm; [|done..]. eapply other_once; [done|].
    apply (vault_guard_answers True c q' any 1), whoami_vault_answers.
  - by apply block_route_once.
  - apply literal_no_block in Hm; [|done..]. eapply other_once; [done|].
    apply (admin_guard_answers True c q' any 1), whoami_admin_answers.
Qed.

Lemma router_linearizable state v a s ts' s' h :
  block_size_bytes (config state) + 1 <= usize_max ->
  rtc (service_step (build_router state (Some v) (Some a) (Some ()) (Some calls)) (harmless view)) ([], s, []) (ts', s', h) ->
  linearizable (vault_spec (config state)) (view s) h (view s').
Proof. intros Hsz. apply (service_linearizable _ _ _ view); [apply _|intros q; by apply router_once|done]. Qed.

(** The same when the rest of the world leaves the storage alone. *)
Lemma quiet_router_linearizable state v a s ts' s' h :
  block_size_bytes (config state) + 1 <= usize_max ->
  rtc (service_step (build_router state (Some v) (Some a) (Some ()) (Some calls))
    (fun s1 s2 => srv_storage s2 = srv_storage s1)) ([], s, []) (ts', s', h) ->
  linearizable (vault_spec (config state)) (view s) h (view s').
Proof.
  intros Hsz. apply (service_linearizable _ _ _ view); [apply _|intros q; by apply router_once|].
  intros s1 s2 [Hu Hc]%(storage_inert stored (C := C)). split; [done|]. intros c Hh. by apply Hc.
Qed.

(** C2. The server is linearizable.  Over any storage whose operations take
    effect once ([LinearStorage]; the local backend's do, system call by system
    call, see [LocalFsCalls]), let any number of requests, to any part of the API
    and valid or not, be in progress at once; let their steps interleave in any way
    with each other and with tasks that leave the stored blocks and what an
    operation in progress has claimed alone, under any clocks and network.  Then
    the history of calls and answers that the clients see is one of an atomic map
    of blocks: each request takes effect at one instant between its call and its
    answer, where a GET answers exactly the block of that instant, a PUT stores
    exactly its body and a DELETE removes the block, all three only for the
    subject of a token that verifies, and every other request and every refused
    one changes nothing; and the map ends as the storage does.  No request is
    lost, torn or applied twice. *)
Theorem server_linearizable state v a s ts' s' h :
  block_size_bytes (config state) + 1 <= usize_max ->
  rtc (service_step (build_router state (Some v) (Some a) (Some ()) (Some calls)) (harmless view)) ([], s, []) (ts', s', h) ->
  linearizable (vault_spec (config state)) (view s) h (view s').
Proof. apply router_linearizable. Qed.

(** *** Reading what was acknowledged *)

Definition writes (q : Request) (id : BlockId) : Prop :=
  block_id_of q = Some id /\ (method q = "PUT" \/ method q = "DELETE").

(** What an acknowledged request leaves at the block. *)
Lemma acknowledged_write c q id b b' :
  writes q id -> vault_spec c q b respond_block_204 b' ->
  (method q = "PUT" /\ exists d, exact_body (block_size_bytes c) q d /\ b' id = Some d)
  \/ (method q = "DELETE" /\ b' id = None).
Proof.
  intros [Hid Hm] Hs. apply block_id_of_wf in Hid as Hwf. unfold vault_spec in Hs. rewrite Hid in Hs.
  destruct Hs as [[Hr _]|(_ & b1 & Hs & Hb)].
  - exfalso. remember respond_block_204 as r eqn:Heq. destruct Hr as [[]| | |]; discriminate Heq.
  - rewrite <- (Hb id Hwf). remember respond_block_204 as r eqn:Heq. destruct Hs as [Hg|d Hp Hd|Hd].
    + exfalso. by destruct (b id).
    + left. split; [done|]. exists d. split; [done|]. unfold write. by rewrite decide_True.
    + right. split; [done|]. unfold write. by rewrite decide_True.
Qed.

(** A request that does not write the block leaves it. *)
Lemma other_request_keeps c q id b r b' :
  block_id_wf id -> ~ writes q id -> vault_spec c q b r b' -> b' id = b id.
Proof.
  intros Hwf Hn. unfold vault_spec. destruct (block_id_of q) as [bid|] eqn:Hid; [|intros Hb; symmetry; by apply Hb].
  intros [[_ Hb]|(_ & b1 & Hs & Hb)]; [symmetry; by apply Hb|]. rewrite <- (Hb id Hwf).
  unfold writes in Hn. destruct Hs as [Hm|d Hm _|Hm]; [done|..]; unfold write;
    (rewrite decide_False; [done|]; intros ->; destruct Hn; auto).
Qed.

Lemma sequential_keeps c id b l b' :
  block_id_wf id -> (forall q r, (q, r) ∈ l -> ~ writes q id) -> sequential (vault_spec c) b l b' -> b' id = b id.
Proof.
  intros Hwf Hn Hs. induction Hs as [b' Hb|l b1 q r b2 _ IH Hs]; [symmetry; by apply Hb|].
  rewrite (other_request_keeps c q id b1 r b2 Hwf); [|apply (Hn q r); set_solver|done]. apply IH.
  intros q' r' Hin. apply (Hn q' r'). set_solver.
Qed.

Lemma read_answer c q id b r b' :
  block_id_of q = Some id -> method q = "GET" -> vault_spec c q b r b' ->
  refused c q r \/ r = match b id with Some d => respond_block_200 d | None => respond_block_404 end.
Proof.
  intros Hid Hm. unfold vault_spec. rewrite Hid. intros [[Hr _]|(_ & b1 & Hs & _)]; [by left|right].
  destruct Hs as [_|d Hp|Hd]; [done|congruence..].
Qed.

(** C7. What is acknowledged is what is read.  In any history of the server, if
    a PUT or DELETE of a block was answered 204 before a GET of the block was
    called, and every other PUT or DELETE of that block was either answered
    before the first was called or called after the GET was answered, then the
    GET is refused for a reason of its own or answers the body of that very PUT,
    respectively 404: no acknowledged write is lost, no older one comes back,
    and nobody sees a block that was not written. *)
Theorem acknowledged_write_read state v a s ts' s' h id h1 h2 h3 h4 h5 i qi j qj rj :
  block_size_bytes (config state) + 1 <= usize_max ->
  rtc (service_step (build_router state (Some v) (Some a) (Some ()) (Some calls)) (harmless view)) ([], s, []) (ts', s', h) ->
  h = h1 ++ Call i qi :: h2 ++ Answer i respond_block_204 :: h3 ++ Call j qj :: h4 ++ Answer j rj :: h5 ->
  writes qi id -> block_id_of qj = Some id -> method qj = "GET" ->
  (forall k q, Call k q ∈ h -> k <> i -> writes q id -> (exists r, Answer k r ∈ h1) \/ Call k q ∈ h5) ->
  refused (config state) qj rj
  \/ (method qi = "PUT" /\ exists d, exact_body (block_size_bytes (config state)) qi d /\ rj = respond_block_200 d)
  \/ (method qi = "DELETE" /\ rj = respond_block_404).
Proof.
  intros Hsz Hrun Hh Hw Hid Hm Hothers. apply block_id_of_wf in Hid as Hwf.
  apply router_linearizable in Hrun; [|done].
  destruct (effects_between _ _ _ _ _ _ _ _ _ _ _ _ _ _ _ Hrun Hh) as (b1 & b2 & es & b3 & b4 & H1' & Hs & H2' & Hes).
  apply (sequential_keeps _ id) in Hs; [|done|].
  2: { intros q r (k & Hk & Hc & Hn5 & Hn1)%Hes Hq. destruct (Hothers k q Hc Hk Hq) as [[r' Hr]|]; [by apply Hn1 in Hr|done]. }
  apply (read_answer _ _ id) in H2' as [Hr| ->]; [by left|right|done..]. rewrite Hs.
  destruct (acknowledged_write _ _ _ _ _ Hw H1') as [(Hp & d & Hd & ->)|[Hd ->]]; [left|right]; eauto.
Qed.
End linear.

(** ** Witnesses *)

#[local] Existing Instance target64.

Definition fx_get : Request := {|
  method := "GET"; uri_authority := None; uri_path_and_query := Some ("/api/blocks/" +:+ as_str fx_id);
  headers := headers (fx_request "tok" "get"); extensions := no_extensions; req_body := Some [] |}.

(** The fixture's token, and a proof for each request. *)
Definition fx_block_headers : list (string * Header) :=
  [("tok", fx_token_header); ("put", fx_proof_header); ("get", fx_proof_header)].
Definition fx_block_proof (m jti : string) : DpopClaims := {|
  dc_htm := Some m; dc_htu := Some ("http://vault.example/api/blocks/" +:+ as_str fx_id);
  dc_iat := Some 160; dc_jti := Some jti; dc_ath := Some (compute_ath "tok") |}.
#[local] Instance fx_block_jwt : JwtCrate := table_jwt fx_block_headers.
#[local] Instance fx_block_token : JwtDecode TokenClaims :=
  table_decode fx_block_headers [("tok", (toy_key "v", fx_claims))].
#[local] Instance fx_block_proofs : JwtDecode DpopClaims := table_decode fx_block_headers
  [("put", (toy_key "k", fx_block_proof "PUT" "id-2")); ("get", (toy_key "k", fx_block_proof "GET" "id-3"))].

Abbreviation fx_service := (build_router fx_small (Some fx_vault) (Some fx_admin) (Some ()) (Some (atomically map_storage))).

(** [n] steps of the [i]th request. *)
Definition advances (i n : nat) : list (instruction (E := senv) (Q := Request)) :=
  replicate n (Advance i (fx_env 100 "n")).

(** A GET that authenticates before a PUT does, and reads after it. *)
Definition fx_overlapping :=
  perform_all fx_service
    ([Start fx_get; Start fx_put] ++ advances 0 6 ++ advances 1 8 ++ advances 0 2 ++ [Finish 0; Finish 1])
    ([], fx_vault_store, []).

(** A PUT, then a GET. *)
Definition fx_in_turn :=
  perform_all fx_service
    (Start fx_put :: advances 0 8 ++ Finish 0 :: Start fx_get :: advances 1 8 ++ [Finish 1])
    ([], fx_vault_store, []).

Lemma fx_overlapping_history :
  snd <$> fx_overlapping = Some [Call 0 fx_get; Call 1 fx_put; Answer 0 (respond_block_200 fx_body); Answer 1 respond_block_204].
Proof. vm_compute. reflexivity. Qed.

Lemma fx_in_turn_history :
  snd <$> fx_in_turn = Some [Call 0 fx_put; Answer 0 respond_block_204; Call 1 fx_get; Answer 1 (respond_block_200 fx_body)].
Proof. vm_compute. reflexivity. Qed.

(** The stored blocks; the provider is a map, whose operations are single steps. *)
Definition fx_blocks (m : gmap BlockId bytes) : vault := fun id => m !! id.
Abbreviation fx_view := (StorageSpec.view fx_blocks).
#[local] Existing Instance no_claims.

(** The PUT takes effect first, although the GET is answered first. *)
Lemma server_linearizable_witness :
  exists b', linearizable (vault_spec (config fx_small)) (fx_view fx_vault_store)
    [Call 0 fx_get; Call 1 fx_put; Answer 0 (respond_block_200 fx_body); Answer 1 respond_block_204] b'.
Proof.
  pose proof fx_overlapping_history as Hc. destruct fx_overlapping as [[[ts' s'] h]|] eqn:Hr; [|discriminate Hc].
  injection Hc as ->. exists (fx_view s').
  apply (server_linearizable fx_blocks (atomically map_storage) (no_claims _) fx_small fx_vault fx_admin fx_vault_store ts').
  - vm_compute. discriminate.
  - exact (perform_all_sound _ _ _ _ _ Hr).
Defined.

(** The GET is the only other request. *)
Lemma fx_in_turn_calls :
  Forall (fun x => match x with Call k q => k = 0%nat \/ method q = "GET" | _ => True end)
    [Call 0 fx_put; Answer 0 respond_block_204; Call 1 fx_get; Answer 1 (respond_block_200 fx_body)].
Proof.
  apply Forall_cons; [left; reflexivity|]. apply Forall_cons; [exact I|].
  apply Forall_cons; [right; reflexivity|]. apply list.Forall_singleton. exact I.
Qed.

Lemma acknowledged_write_read_witness :
  refused (config fx_small) fx_get (respond_block_200 fx_body)
  \/ exists d, exact_body (block_size_bytes (config fx_small)) fx_put d /\ respond_block_200 fx_body = respond_block_200 d.
Proof.
  pose proof fx_in_turn_history as Hc. destruct fx_in_turn as [[[ts' s'] h]|] eqn:Hr; [|discriminate Hc].
  injection Hc as ->.
  destruct (acknowledged_write_read fx_blocks (atomically map_storage) (no_claims _) fx_small fx_vault fx_admin
    fx_vault_store ts' s'
    [Call 0 fx_put; Answer 0 respond_block_204; Call 1 fx_get; Answer 1 (respond_block_200 fx_body)]
    fx_id [] [] [] [] [] 0 fx_put 1 fx_get (respond_block_200 fx_body)) as [Ha|[(_ & Hd)|[Hm _]]].
  - vm_compute. discriminate.
  - exact (perform_all_sound _ _ _ _ _ Hr).
  - reflexivity.
  - split; [vm_compute; reflexivity|]. left. reflexivity.
  - vm_compute. reflexivity.
  - reflexivity.
  - intros k q Hk Hne [_ Hw]. exfalso.
    apply (proj1 (list.Forall_forall _ _) fx_in_turn_calls) in Hk as [Hk|Hk]; [exact (Hne Hk)|].
    rewrite Hk in Hw. destruct Hw as [Hw|Hw]; discriminate Hw.
  - left. exact Ha.
  - right. exact Hd.
  - discriminate Hm.
Defined.
