(* ===== verification/Testing.v ===== *)
(** * Testing: the client and the issuer of the integration tests

    [auth/testing.rs]: minting of access tokens and DPoP proofs, and the mock
    identity provider.  A JSON object built with [json!] is the value it
    denotes: a JWK, a record of claims with absent members [None].  What a
    conforming client sends is what these functions make, so [AcceptSpec]
    states with them which requests succeed. *)

From S2P Require Import Prelude RustStd Crates Crypto Jwks ServerConfig Replay Logging Context Async Server.
From S2P Require Import Http Failure Refresh Token Dpop.

(** [p256]: signing keys, their public keys, and the coordinates of the
    uncompressed encoding of a public key's point. *)
Class P256Crate := {
  SigningKey : Type;
  VerifyingKey : Type;
  verifying_key : SigningKey -> VerifyingKey;
  point_x : VerifyingKey -> bytes;
  point_y : VerifyingKey -> bytes;
  point_lengths vk : length (point_x vk) = 32%nat /\ length (point_y vk) = 32%nat;
}.

(** The public JWK of a signing key, whatever its other members. *)
Definition public_of `{P256Crate} `{Base64Crate} (k : SigningKey) (jwk : RawJwk) : Prop :=
  algorithm jwk = EllipticCurveKey P256 (b64_encode (point_x (verifying_key k)))
                    (b64_encode (point_y (verifying_key k))).

(** A validation that checks only the signature. *)
Definition signature_only (v : Validation) : Prop :=
  v_validate_aud v = false /\ v_validate_exp v = false /\ v_validate_nbf v = false
  /\ v_required_spec_claims v = [].

(** The characters of a compact JWS. *)
Definition jws_char (c : ascii) : bool := base64url_char c || Ascii.eqb c ".".

(** [jsonwebtoken::encode] with a P-256 key: what it makes decodes, and
    verifies under the matching public key. *)
Class JwtEncode `{P256Crate} `{Base64Crate} `{JwtCrate} (T : Type) `{!JwtDecode T} := {
  encode : Header -> T -> SigningKey -> string;
  encode_header h c k : hdr_alg h = ES256 -> decode_header (encode h c k) = Some h;
  encode_verifies h c k jwk v :
    hdr_alg h = ES256 -> public_of k jwk -> v_algorithm v = ES256 -> signature_only v ->
    exists key, DecodingKey_from_jwk jwk = Some key /\ jwt_decode (encode h c k) key v = Ok c;
  encode_compact h c k : encode h c k <> "" /\ str_all jws_char (encode h c k) = true;
}.

(** [Header::new]. *)
Definition Header_new (a : Algorithm) : Header :=
  {| hdr_alg := a; hdr_typ := Some "JWT"; hdr_kid := None; hdr_jwk := None |}.

Section mint.
Context `{Sha2Crate} `{P256Crate} `{Base64Crate} `{JwtCrate}.
Context `{!JwtDecode TokenClaims} `{!JwtDecode DpopClaims}.
Context `{!JwtEncode TokenClaims} `{!JwtEncode DpopClaims}.

Definition es256_public_jwk (verifying_key : VerifyingKey) (kid : option string) : RawJwk :=
  {| key_algorithm := Some KA_ES256; key_id := kid;
     algorithm := EllipticCurveKey P256 (b64_encode (point_x verifying_key))
                    (b64_encode (point_y verifying_key)) |}.

Record MintTokenClaims := {
  mt_sub : string;
  mt_aud : string;
  mt_iss : string;
  mt_iat : N;
  mt_exp : N;
  mt_nbf : option N;
  mt_cnf_jkt : string;
}.

Definition mint_es256_token (claims : MintTokenClaims) (signing_key : SigningKey) (kid : option string)
    (omit_cnf_jkt : bool) : string :=
  let header := Header_new ES256 in
  let header := match kid with
    | Some k => {| hdr_alg := hdr_alg header; hdr_typ := hdr_typ header; hdr_kid := Some k;
                   hdr_jwk := hdr_jwk header |}
    | None => header
    end in
  let claims_json := {|
    tc_sub := Some (mt_sub claims); tc_aud := Some (Single (mt_aud claims));
    tc_iss := Some (mt_iss claims); tc_exp := Some (mt_exp claims); tc_iat := Some (mt_iat claims);
    tc_nbf := mt_nbf claims;
    tc_cnf := if omit_cnf_jkt then None else Some {| cc_jkt := Some (mt_cnf_jkt claims) |} |} in
  encode header claims_json signing_key.

Definition compute_ath_for_test (raw_token : string) : string :=
  b64_encode (sha256 (as_bytes raw_token)).

Definition mint_es256_dpop_proof (signing_key : SigningKey) (htm htu : string) (iat : N) (jti : string)
    (ath_for : option string) : string :=
  let public_jwk_value := es256_public_jwk (verifying_key signing_key) None in
  let header := {| hdr_alg := hdr_alg (Header_new ES256); hdr_typ := Some "dpop+jwt";
                   hdr_kid := hdr_kid (Header_new ES256); hdr_jwk := Some public_jwk_value |} in
  let claims := {| dc_htm := Some htm; dc_htu := Some htu; dc_iat := Some iat; dc_jti := Some jti;
                   dc_ath := compute_ath_for_test <$> ath_for |} in
  encode header claims signing_key.

Definition es256_thumbprint_b64url (verifying_key : VerifyingKey) : string :=
  jwk_thumbprint_b64url (EcP256 (point_x verifying_key) (point_y verifying_key)).
End mint.

(** [duration_since(UNIX_EPOCH).expect(..)]. *)
Definition now_unix_secs (now : Z) : outcome N :=
  if (now <? 0)%Z then Panic else Value (unix_secs now).

(** ** The mock identity provider

    [jwks] documents are opaque; [join] is [Url::join]. *)
Section mock.
Context {Value : Type} `{UrlCrate} (join : Url -> string -> option Url).

Record MockState := {
  mock_jwks : Value;
  discovery_fetches : N;
  jwks_fetches : N;
  jwks_v2_fetches : N;
  base_url : Url;
  discovery_jwks_uri : string;
  jwks_status_override : N;
}.

(** The provider: its state, whether its server task still runs, its address. *)
Record MockOidcProvider := { mock_state : MockState; task_alive : bool; mock_addr : SocketAddr }.

Definition on_state (f : MockState -> MockState) (p : MockOidcProvider) : MockOidcProvider :=
  {| mock_state := f (mock_state p); task_alive := task_alive p; mock_addr := mock_addr p |}.

(** [MockOidcProvider::start], once the listener is bound to [addr], whose URL
    is [base_url]. *)
Definition start (jwks : Value) (base_url : Url) (addr : SocketAddr) : MockOidcProvider :=
  {| mock_state := {| mock_jwks := jwks; discovery_fetches := 0; jwks_fetches := 0; jwks_v2_fetches := 0;
                      base_url := base_url; discovery_jwks_uri := "/jwks.json"; jwks_status_override := 0 |};
     task_alive := true; mock_addr := addr |}.

Definition issuer_url (p : MockOidcProvider) : Url := base_url (mock_state p).
Definition discovery_fetch_count (p : MockOidcProvider) : N := discovery_fetches (mock_state p).
Definition jwks_fetch_count (p : MockOidcProvider) : N := jwks_fetches (mock_state p).
Definition jwks_v2_fetch_count (p : MockOidcProvider) : N := jwks_v2_fetches (mock_state p).
Definition local_addr (p : MockOidcProvider) : SocketAddr := mock_addr p.

(** [task.abort()]. *)
Definition shutdown (p : MockOidcProvider) : MockOidcProvider :=
  {| mock_state := mock_state p; task_alive := false; mock_addr := mock_addr p |}.
Definition drop_provider (p : MockOidcProvider) : MockOidcProvider := shutdown p.

Definition set_jwks (new_jwks : Value) : MockOidcProvider -> MockOidcProvider := on_state (fun m =>
  {| mock_jwks := new_jwks; discovery_fetches := discovery_fetches m; jwks_fetches := jwks_fetches m;
     jwks_v2_fetches := jwks_v2_fetches m; base_url := base_url m;
     discovery_jwks_uri := discovery_jwks_uri m; jwks_status_override := jwks_status_override m |}).

Definition set_jwks_status_override (status : N) : MockOidcProvider -> MockOidcProvider := on_state (fun m =>
  {| mock_jwks := mock_jwks m; discovery_fetches := discovery_fetches m; jwks_fetches := jwks_fetches m;
     jwks_v2_fetches := jwks_v2_fetches m; base_url := base_url m;
     discovery_jwks_uri := discovery_jwks_uri m; jwks_status_override := status |}).

Definition set_discovery_jwks_uri (path : string) : MockOidcProvider -> MockOidcProvider := on_state (fun m =>
  {| mock_jwks := mock_jwks m; discovery_fetches := discovery_fetches m; jwks_fetches := jwks_fetches m;
     jwks_v2_fetches := jwks_v2_fetches m; base_url := base_url m;
     discovery_jwks_uri := path; jwks_status_override := jwks_status_override m |}).

Record DiscoveryDocument := {
  dd_issuer : string;
  dd_jwks_uri : string;
  dd_response_types_supported : list string;
  dd_subject_types_supported : list string;
  dd_id_token_signing_alg_values_supported : list string;
}.

Definition serve_discovery (m : MockState) : outcome (DiscoveryDocument * MockState) :=
  let m' := {| mock_jwks := mock_jwks m; discovery_fetches := u64_wrapping_add (discovery_fetches m) 1;
     jwks_fetches := jwks_fetches m; jwks_v2_fetches := jwks_v2_fetches m; base_url := base_url m;
     discovery_jwks_uri := discovery_jwks_uri m; jwks_status_override := jwks_status_override m |} in
  match join (base_url m') (discovery_jwks_uri m') with
  | None => Panic
  | Some jwks_uri => Prelude.Value ({| dd_issuer := Url_as_str (base_url m'); dd_jwks_uri := Url_as_str jwks_uri;
      dd_response_types_supported := ["code"]; dd_subject_types_supported := ["public"];
      dd_id_token_signing_alg_values_supported := ["ES256"; "PS256"] |}, m')
  end.

(** [StatusCode::from_u16(s).unwrap_or(INTERNAL_SERVER_ERROR)]. *)
Definition status_or_500 (s : N) : N := if (100 <=? s) && (s <? 1000) then s else 500.

Definition serve_jwks (m : MockState) : result (N * string) Value * MockState :=
  let m' := {| mock_jwks := mock_jwks m; discovery_fetches := discovery_fetches m;
     jwks_fetches := u64_wrapping_add (jwks_fetches m) 1; jwks_v2_fetches := jwks_v2_fetches m;
     base_url := base_url m; discovery_jwks_uri := discovery_jwks_uri m;
     jwks_status_override := jwks_status_override m |} in
  if negb (jwks_status_override m' =? 0)
  then (Err (status_or_500 (jwks_status_override m'), "mock /jwks.json status override"), m')
  else (Ok (mock_jwks m'), m').

Definition serve_jwks_v2 (m : MockState) : Value * MockState :=
  let m' := {| mock_jwks := mock_jwks m; discovery_fetches := discovery_fetches m;
     jwks_fetches := jwks_fetches m; jwks_v2_fetches := u64_wrapping_add (jwks_v2_fetches m) 1;
     base_url := base_url m; discovery_jwks_uri := discovery_jwks_uri m;
     jwks_status_override := jwks_status_override m |} in
  (mock_jwks m', m').

(** What a [GET] of a path is answered, and the state it leaves.  [None]: nobody
    listens any more. *)
Inductive MockReply : Type :=
  | DiscoveryJson (d : DiscoveryDocument)
  | JwksJson (v : Value)
  | StatusText (code : N) (text : string)
  | NoRoute.

Definition mock_router (path : string) (m : MockState) : outcome (MockReply * MockState) :=
  if String.eqb path "/.well-known/openid-configuration" then
    let! served := serve_discovery m in Prelude.Value (DiscoveryJson (fst served), snd served)
  else if String.eqb path "/jwks.json" then
    let '(r, m') := serve_jwks m in
    Prelude.Value (match r with Ok v => JwksJson v | Err (code, text) => StatusText code text end, m')
  else if String.eqb path "/jwks-v2.json" then
    let '(v, m') := serve_jwks_v2 m in Prelude.Value (JwksJson v, m')
  else Prelude.Value (NoRoute, m).

Definition mock_get (path : string) (p : MockOidcProvider) : outcome (option MockReply * MockOidcProvider) :=
  if task_alive p then
    let! served := mock_router path (mock_state p) in
    Prelude.Value (Some (fst served), on_state (fun _ => snd served) p)
  else Prelude.Value (None, p).

(** A status override withholds the keys without losing them, and every request
    is counted. *)
Lemma override_keeps_jwks status p p1 r1 p2 r2 :
  status <> 0 -> task_alive p = true ->
  mock_get "/jwks.json" (set_jwks_status_override status p) = Prelude.Value (r1, p1) ->
  mock_get "/jwks.json" (set_jwks_status_override 0 p1) = Prelude.Value (r2, p2) ->
  r1 = Some (StatusText (status_or_500 status) "mock /jwks.json status override")
  /\ r2 = Some (JwksJson (mock_jwks (mock_state p)))
  /\ jwks_fetch_count p2 = u64_wrapping_add (u64_wrapping_add (jwks_fetch_count p) 1) 1.
Proof.
  intros Hs Ha. destruct status as [|n]; [done|]. unfold mock_get. simpl. rewrite Ha. simpl.
  intros [= <- <-]. simpl. rewrite Ha. simpl. by intros [= <- <-].
Qed.
End mock.
