(* ===== verification/MintFixtures.v ===== *)
(** * MintFixtures: an executable [jsonwebtoken] that mints, for the witnesses

    A toy JWS is the binary code of its header, its claims and its signer's
    public key; it verifies under exactly that key. *)

From S2P Require Import Prelude RustStd Crates Fs Instances Crypto Jwks ServerConfig Replay Logging.
From S2P Require Import Context Async Server.
From S2P Require Import Http Failure Refresh Token Dpop Testing.

(** ** Codes of the data of a token *)

Global Instance Algorithm_eq_dec : EqDecision Algorithm.
Proof. solve_decision. Defined.
Global Instance Header_eq_dec : EqDecision Header.
Proof. solve_decision. Defined.
Global Instance AudienceField_eq_dec : EqDecision AudienceField.
Proof. solve_decision. Defined.
Global Instance CnfClaim_eq_dec : EqDecision CnfClaim.
Proof. solve_decision. Defined.
Global Instance TokenClaims_eq_dec : EqDecision TokenClaims.
Proof. solve_decision. Defined.
Global Instance DpopClaims_eq_dec : EqDecision DpopClaims.
Proof. solve_decision. Defined.

Global Instance Algorithm_countable : Countable Algorithm.
Proof.
  apply (inj_countable' (fun a => match a with PS256 => inl () | ES256 => inr (inl ()) | AlgOther s => inr (inr s) end)
    (fun c => match c with inl _ => PS256 | inr (inl _) => ES256 | inr (inr s) => AlgOther s end)).
  by intros [].
Defined.
Global Instance KeyAlgorithm_countable : Countable KeyAlgorithm.
Proof.
  apply (inj_countable' (fun a => match a with KA_PS256 => inl () | KA_ES256 => inr (inl ()) | KA_Other s => inr (inr s) end)
    (fun c => match c with inl _ => KA_PS256 | inr (inl _) => KA_ES256 | inr (inr s) => KA_Other s end)).
  by intros [].
Defined.
Global Instance EllipticCurve_countable : Countable EllipticCurve.
Proof.
  apply (inj_countable' (fun c => match c with P256 => None | CurveOther s => Some s end)
    (fun o => match o with None => P256 | Some s => CurveOther s end)).
  by intros [].
Defined.
Global Instance AlgorithmParameters_countable : Countable AlgorithmParameters.
Proof.
  apply (inj_countable' (fun p => match p with
      | EllipticCurveKey c x y => inl (c, x, y)
      | RSAKey n e => inr (inl (n, e))
      | OctetKey v => inr (inr (inl v))
      | OctetKeyPair x => inr (inr (inr x))
      end)
    (fun c => match c with
      | inl (c, x, y) => EllipticCurveKey c x y
      | inr (inl (n, e)) => RSAKey n e
      | inr (inr (inl v)) => OctetKey v
      | inr (inr (inr x)) => OctetKeyPair x
      end)).
  by intros [].
Defined.
Global Instance RawJwk_countable : Countable RawJwk.
Proof.
  apply (inj_countable' (fun k => (key_algorithm k, key_id k, algorithm k))
    (fun '(a, i, p) => {| key_algorithm := a; key_id := i; algorithm := p |})).
  by intros [].
Defined.
Global Instance Header_countable : Countable Header.
Proof.
  apply (inj_countable' (fun h => (hdr_alg h, hdr_typ h, hdr_kid h, hdr_jwk h))
    (fun '(a, t, k, j) => {| hdr_alg := a; hdr_typ := t; hdr_kid := k; hdr_jwk := j |})).
  by intros [].
Defined.
Global Instance AudienceField_countable : Countable AudienceField.
Proof.
  apply (inj_countable' (fun a => match a with Single s => inl s | Multiple l => inr l end)
    (fun c => match c with inl s => Single s | inr l => Multiple l end)).
  by intros [].
Defined.
Global Instance CnfClaim_countable : Countable CnfClaim.
Proof. apply (inj_countable' cc_jkt (fun j => {| cc_jkt := j |})). by intros []. Defined.
Global Instance TokenClaims_countable : Countable TokenClaims.
Proof.
  apply (inj_countable'
    (fun c => (tc_sub c, tc_aud c, tc_iss c, tc_exp c, tc_iat c, tc_nbf c, tc_cnf c))
    (fun '(s, a, i, x, t, n, c) => {| tc_sub := s; tc_aud := a; tc_iss := i; tc_exp := x; tc_iat := t;
       tc_nbf := n; tc_cnf := c |})).
  by intros [].
Defined.
Global Instance DpopClaims_countable : Countable DpopClaims.
Proof.
  apply (inj_countable' (fun c => (dc_htm c, dc_htu c, dc_iat c, dc_jti c, dc_ath c))
    (fun '(m, u, i, j, a) => {| dc_htm := m; dc_htu := u; dc_iat := i; dc_jti := j; dc_ath := a |})).
  by intros [].
Defined.

(** ** The compact form *)

Fixpoint bits (p : positive) : string :=
  match p with xH => "J" | xO p => String "0" (bits p) | xI p => String "1" (bits p) end.

Fixpoint unbits (s : string) : option positive :=
  match s with
  | "J" => Some xH
  | String "0" s => xO <$> unbits s
  | String "1" s => xI <$> unbits s
  | _ => None
  end.

Lemma unbits_bits p : unbits (bits p) = Some p.
Proof. induction p as [p IH|p IH|]; [cbn; by rewrite IH..|done]. Qed.

Lemma bits_compact p : bits p <> "" /\ str_all jws_char (bits p) = true.
Proof. split; [by destruct p|]. induction p as [p IH|p IH|]; [cbn [bits str_all]; by rewrite IH..|done]. Qed.

(** A token's header, claims, and the signer's public key. *)
Definition toy_jws : Type := Header * (TokenClaims + DpopClaims) * AlgorithmParameters.

Definition toy_compact (t : toy_jws) : string := bits (countable.encode t).
Definition toy_read (s : string) : option toy_jws := unbits s ≫= countable.decode.

Lemma toy_read_compact t : toy_read (toy_compact t) = Some t.
Proof. unfold toy_read, toy_compact. rewrite unbits_bits. simpl. apply decode_encode. Qed.

(** ** The instances *)

(** A signing key is the name of a [toy_key]. *)
#[export] Program Instance toy_p256 : P256Crate :=
  {| SigningKey := string; VerifyingKey := string; verifying_key k := k;
     point_x k := pad32 (as_bytes k); point_y _ := pad32 (as_bytes "") |}.
Next Obligation.
  intros k. unfold pad32. rewrite !length_take, !length_app, !length_replicate. lia.
Qed.

Definition toy_public (k : string) : AlgorithmParameters :=
  EllipticCurveKey P256 (b64_encode (pad32 (as_bytes k))) (b64_encode (pad32 (as_bytes ""))).

#[export] Instance mint_jwt : JwtCrate := {|
  DecodingKey := RawJwk;
  decode_header jws := (fun t => fst (fst t)) <$> toy_read jws;
  DecodingKey_from_jwk k := Some k;
|}.

(** [pick] selects the kind of claims. *)
Definition toy_verify {T} (pick : TokenClaims + DpopClaims -> option T) (jws : string) (key : RawJwk) :
    result JwtErrorKind T :=
  match toy_read jws with
  | Some (_, c, public) =>
      if bool_decide (algorithm key = public) then
        match pick c with Some c => Ok c | None => Err OtherJwtError end
      else Err OtherJwtError
  | None => Err OtherJwtError
  end.

#[export] Instance mint_decode_token : JwtDecode TokenClaims :=
  {| jwt_decode jws key _ := toy_verify (fun c => match c with inl c => Some c | inr _ => None end) jws key |}.
#[export] Instance mint_decode_proof : JwtDecode DpopClaims :=
  {| jwt_decode jws key _ := toy_verify (fun c => match c with inr c => Some c | inl _ => None end) jws key |}.

Lemma toy_verify_compact {T} (pick : TokenClaims + DpopClaims -> option T) h c t k jwk :
  public_of k jwk -> pick c = Some t -> toy_verify pick (toy_compact (h, c, toy_public k)) jwk = Ok t.
Proof.
  intros Hk Hp. unfold toy_verify. rewrite toy_read_compact. rewrite bool_decide_true by exact Hk. by rewrite Hp.
Qed.

#[export] Instance mint_encode_token : JwtEncode TokenClaims.
Proof.
  refine (Build_JwtEncode _ _ _ TokenClaims _ (fun h c k => toy_compact (h, inl c, toy_public k)) _ _ _).
  - intros h c k _. simpl. by rewrite toy_read_compact.
  - intros h c k jwk v _ Hk _ _. exists jwk. split; [done|]. by apply toy_verify_compact.
  - intros h c k. apply bits_compact.
Defined.

#[export] Instance mint_encode_proof : JwtEncode DpopClaims.
Proof.
  refine (Build_JwtEncode _ _ _ DpopClaims _ (fun h c k => toy_compact (h, inr c, toy_public k)) _ _ _).
  - intros h c k _. simpl. by rewrite toy_read_compact.
  - intros h c k jwk v _ Hk _ _. exists jwk. split; [done|]. by apply toy_verify_compact.
  - intros h c k. apply bits_compact.
Defined.
