(* ===== verification/AcceptSpec.v ===== *)
(** * AcceptSpec: which requests succeed

    The converse of the soundness theorems: an honest client's request, made
    as [Testing] makes it, is authenticated; the same request again is not, as
    long as its proof is recorded; and a token signed with a key the issuer has just rotated in is accepted after
    one refresh. *)

From S2P Require Import Prelude RustStd Crates Fs Instances Crypto BlockId Jwks ServerConfig Replay.
From S2P Require Import ReplaySpec Logging Context Async Server Http ProxyTrust Failure Fixtures ContextSpec.
From S2P Require Import Refresh RefreshSpec Token Dpop AuthFixtures TokenSpec DpopSpec Middleware.
From S2P Require Import MiddlewareSpec.
From S2P Require Import Storage Blocks Routes RoutesSpec Testing MintFixtures.

(** ** Trimming *)

(** ASCII characters that are not white space. *)
Definition solid (c : ascii) : bool := negb (ws1 c) && (u8 c <? 128).

Lemma trim_start_solid c r : solid c = true -> trim_start (String c r) = String c r.
Proof.
  intros [Hw Hc]%andb_true_iff. apply negb_true_iff in Hw. apply N.ltb_lt in Hc.
  assert (forall n, 128 <= n -> (u8 c =? n) = false) as Hn by (intros n Hn; apply N.eqb_neq; lia).
  cbn [trim_start]. rewrite Hw. destruct r as [|b [|d r]]; [done|..].
  - unfold ws2. by rewrite Hn by lia.
  - unfold ws2, ws3. by rewrite !Hn by lia.
Qed.

Lemma trim_end_solid s : str_all solid s = true -> trim_end s = s.
Proof.
  induction s as [|c r IH]; [done|]. cbn [str_all]. intros [Hc Hr]%andb_true_iff.
  cbn [trim_end]. rewrite trim_start_solid by done. by rewrite IH.
Qed.

Lemma trim_solid s : str_all solid s = true -> trim s = s.
Proof.
  intros Hs. unfold trim. destruct s as [|c r]; [done|].
  pose proof Hs as Hs'. cbn [str_all] in Hs'. apply andb_true_iff in Hs' as [Hc _].
  rewrite trim_start_solid by done. by apply trim_end_solid.
Qed.

Lemma jws_char_solid c : jws_char c = true -> solid c = true.
Proof.
  unfold jws_char, base64url_char, solid, ws1, in_range. intros Hc.
  rewrite !orb_true_iff, !andb_true_iff, !N.leb_le, !N.eqb_eq in Hc.
  assert (33 <= u8 c < 128) as Hb.
  { destruct Hc as [Hc|Hc]; [lia|]. apply Ascii.eqb_eq in Hc as ->. vm_compute. split; congruence. }
  rewrite andb_true_iff, negb_true_iff, orb_false_iff, andb_false_iff, !N.leb_gt, N.ltb_lt, N.eqb_neq. lia.
Qed.

Lemma trim_jws s : str_all jws_char s = true -> trim s = s.
Proof. intros Hs. eapply trim_solid, str_all_mono, Hs. apply jws_char_solid. Qed.

Section accept.
Context `{Sha2Crate} `{Base64Crate} `{SubtleCrate} `{UrlCrate} `{IpnetCrate} `{SerdeCrate} `{HttpCrate}.
Context `{JwtCrate} `{!JwtDecode TokenClaims} `{!JwtDecode DpopClaims} `{InstantRange}.
Context {X : Type}.

(** ** Proofs *)

(** A proof that passes every check before the replay store, in environment
    [e]; [p] is what it says. *)
Record proof_valid (raw_proof request_method : string) (uri : Url) (token : AccessToken)
    (raw_token : string) (ctx : OidcContext) (e : senv) (p : DpopProof) : Prop := {
  pv_signed : exists header jwk key claims,
    decode_header raw_proof = Some header /\ header_jws_alg (hdr_alg header) = Some (p_alg p)
    /\ hdr_typ header = Some "dpop+jwt" /\ hdr_jwk header = Some jwk
    /\ DecodingKey_from_jwk jwk = Some key
    /\ jwt_decode raw_proof key (proof_validation (p_alg p)) = Ok claims
    /\ dc_htm claims = Some (p_htm p) /\ dc_htu claims = Some (p_htu p)
    /\ dc_iat claims = Some (p_iat p) /\ dc_jti claims = Some (p_jti p)
    /\ dc_ath claims = Some (p_ath p)
    /\ compute_jwk_thumbprint jwk = Ok (p_thumbprint p);
  pv_bound : p_thumbprint p = cnf_jkt token;
  pv_htm : p_htm p = request_method;
  pv_htu : exists u, Url_parse (p_htu p) = Some u /\ same_target u uri;
  pv_ath : p_ath p = compute_ath raw_token;
  pv_iat : iat_in_window (dpop_freshness_secs (auth_config ctx)) (clock_skew_secs (auth_config ctx))
             (unix_secs (now_system e)) (p_iat p) = true;
  pv_instant : now_instant e + duration_from_secs (jti_replay_window_secs (auth_config ctx)) <= instant_max;
}.

Lemma set_replay_id (s : server X) : set_replay (srv_replay s) s = s.
Proof. by destruct s. Qed.

(** The answer to a valid proof is the replay store's. *)
Lemma validate_proof_valid raw_proof m uri token raw_token ctx e (s : server X) p :
  proof_valid raw_proof m uri token raw_token ctx e p ->
  block_on (validate_proof raw_proof m uri token raw_token ctx) (alone e) s
  = match try_insert (proof_id ctx p) (proof_deadline ctx e) (srv_replay s) with
    | (Ok _, st) => Value (Ok p, set_replay st s, alone e)
    | (Err Replayed, _) => Value (Err ProofReplayed, s, alone e)
    | (Err MemoryPressureErr, _) => Value (Err MemoryPressure, s, alone e)
    end.
Proof.
  intros [(h & jwk & key & cl & Hh & Ha & Ht & Hj & Hk & Hcl & Hm & Hu & Hi & Hjti & Hath & Htp)
    Hb Hm' (u & Hu' & Hst) Hath' Hiat Hin].
  apply urls_equivalent_ct_spec in Hst.
  pose proof (compute_jwk_thumbprint_length _ _ Htp) as Hlen.
  assert (length (cnf_jkt token) = 32%nat) as Hlen' by (by rewrite <- Hb).
  unfold validate_proof, try_insert_step, await_try.
  rewrite Hh. simpl. rewrite Ha. simpl. rewrite bool_decide_true by done. simpl.
  rewrite Hj. simpl. rewrite Hk. simpl. rewrite Hcl. simpl. rewrite Hm. simpl.
  rewrite (proj2 (ct_eq_str_spec _ _) Hm'). simpl. rewrite Hu. simpl. rewrite Hu'. simpl. rewrite Hst. simpl.
  rewrite Hi. simpl. unfold id. rewrite Hiat. simpl. rewrite Htp. simpl.
  rewrite (proj2 (ct_eq_32_spec _ _ Hlen Hlen') Hb). simpl.
  rewrite Hath. simpl. rewrite (proj2 (ct_eq_str_spec _ _) Hath'). simpl. rewrite Hjti. simpl. unfold id.
  unfold instant_checked_add. rewrite (proj2 (N.leb_le _ _) Hin). simpl. unfold id, try_insert.
  fold (proof_id ctx p). fold (proof_deadline ctx e).
  destruct (insert_entry _ _ _) as [[[]|er] st] eqn:Hins; simpl.
  - unfold id. simpl. rewrite <- Hath'. by destruct p.
  - apply insert_entry_Err in Hins as [-> _]. rewrite set_replay_id. by destruct er.
Qed.

(** ** Requests *)

Lemma extract_token_dpop request token :
  header_str "authorization" request = Some ("DPoP " +:+ token) ->
  token <> "" -> str_all jws_char token = true -> extract_token request = Ok token.
Proof.
  unfold header_str, extract_token. intros Hh Hne Hs.
  destruct (headers request "authorization") as [hv|]; [|done].
  change (hv_to_str hv = Some ("DPoP " +:+ token)) in Hh.
  cbn [ok_or mbind result_bind]. rewrite Hh. cbn [ok_or mbind result_bind]. change (split_once " " ("DPoP " +:+ token)) with (Some ("DPoP", token)).
  cbn [ok_or mbind result_bind fst snd].
  rewrite trim_jws by done. by destruct token.
Qed.

Lemma extract_proof_dpop request proof :
  header_str "dpop" request = Some proof ->
  proof <> "" -> str_all jws_char proof = true -> extract_proof request = Ok proof.
Proof.
  unfold header_str, extract_proof. intros Hh Hne Hs.
  destruct (headers request "dpop") as [hv|]; [|done]. simpl in Hh.
  cbn [ok_or mbind result_bind]. rewrite Hh. cbn [ok_or mbind result_bind]. rewrite trim_jws by done. by destruct proof.
Qed.

(** The answer to a valid request is that of the replay store, in the state the
    token's validation leaves. *)
Lemma authenticate_common_valid request ctx e (s s1 : server X) rt rp u t p :
  extract_token request = Ok rt -> extract_proof request = Ok rp -> build_effective_uri request = Ok u ->
  block_on (validate_token rt ctx) (alone e) s = Value (Ok t, s1, alone e) ->
  proof_valid rp (method request) u t rt ctx e p ->
  block_on (authenticate_common request ctx) (alone e) s
  = match try_insert (proof_id ctx p) (proof_deadline ctx e) (srv_replay s1) with
    | (Ok _, st) => Value (Ok (sub t), set_replay st s1, alone e)
    | (Err Replayed, _) => Value (Err ProofReplayed, s1, alone e)
    | (Err MemoryPressureErr, _) => Value (Err MemoryPressure, s1, alone e)
    end.
Proof.
  intros Ht Hp Hu Hv Hpv. unfold authenticate_common, await_try.
  rewrite Ht, Hp, Hu. cbn [await]. rewrite block_on_await, Hv. cbv beta iota.
  rewrite block_on_await, (validate_proof_valid _ _ _ _ _ _ _ _ _ Hpv).
  by destruct (try_insert _ _ _) as [[|[]] st].
Qed.
End accept.

(** ** Minted requests *)

Section minted.
Context `{Sha2Crate} `{Base64Crate} `{SubtleCrate} `{UrlCrate} `{IpnetCrate} `{SerdeCrate} `{HttpCrate}.
Context `{JwtCrate} `{!JwtDecode TokenClaims} `{!JwtDecode DpopClaims} `{InstantRange}.
Context `{P256Crate} `{!JwtEncode TokenClaims} `{!JwtEncode DpopClaims}.
Context {X : Type}.

(** The parties and the messages of one request: the issuer signs the token,
    the client the proof. *)
Record Exchange := {
  issuer : SigningKey;
  client : SigningKey;
  ex_kid : option string;
  grant : MintTokenClaims;
  ex_htm : string;
  ex_htu : string;
  ex_iat : N;
  ex_jti : string;
}.
Context (x : Exchange).

Definition minted_token : string := mint_es256_token (grant x) (issuer x) (ex_kid x) false.
Definition minted_proof : string :=
  mint_es256_dpop_proof (client x) (ex_htm x) (ex_htu x) (ex_iat x) (ex_jti x) (Some minted_token).

(** [request] carries both, and they are meant for it and for [ctx]. *)
Record conforming (ctx : OidcContext) (request : Request) : Prop := {
  cf_token : header_str "authorization" request = Some ("DPoP " +:+ minted_token);
  cf_proof : header_str "dpop" request = Some minted_proof;
  cf_iss : mt_iss (grant x) = trim_end_matches "/" (Url_as_str (ctx_issuer_url ctx));
  cf_aud : mt_aud (grant x) = ctx_audience ctx;
  cf_bound : mt_cnf_jkt (grant x) = es256_thumbprint_b64url (verifying_key (client x));
  cf_htm : ex_htm x = method request;
  cf_htu : exists uri u, build_effective_uri request = Ok uri /\ Url_parse (ex_htu x) = Some u
    /\ same_target u uri;
}.

(** The token is in date and the proof fresh in environment [e]. *)
Record timely (ctx : OidcContext) (e : senv) : Prop := {
  tm_exp : unix_secs (now_system e)
    < u64_saturating_add (mt_exp (grant x)) (clock_skew_secs (auth_config ctx));
  tm_nbf : forall n, mt_nbf (grant x) = Some n ->
    n <= u64_saturating_add (unix_secs (now_system e)) (clock_skew_secs (auth_config ctx));
  tm_iat : iat_in_window (dpop_freshness_secs (auth_config ctx)) (clock_skew_secs (auth_config ctx))
    (unix_secs (now_system e)) (ex_iat x) = true;
  tm_instant : now_instant e + duration_from_secs (jti_replay_window_secs (auth_config ctx)) <= instant_max;
}.

(** The issuer's key is the first the context tries. *)
Definition issuer_known (ctx : OidcContext) (s : server X) : Prop :=
  exists k ks, lookup_candidates (jwks (live ctx s)) (ex_kid x) = k :: ks /\ public_of (issuer x) (jwk k).

Definition client_thumbprint : bytes :=
  jwk_thumbprint (EcP256 (point_x (verifying_key (client x))) (point_y (verifying_key (client x)))).

Definition minted_access : AccessToken :=
  {| sub := mt_sub (grant x); aud := mt_aud (grant x); iss := mt_iss (grant x); exp := mt_exp (grant x);
     iat := mt_iat (grant x); nbf := mt_nbf (grant x); cnf_jkt := client_thumbprint |}.

Definition minted_dpop : DpopProof :=
  {| p_alg := Es256; p_htm := ex_htm x; p_htu := ex_htu x; p_iat := ex_iat x; p_jti := ex_jti x;
     p_thumbprint := client_thumbprint; p_ath := compute_ath minted_token |}.

Definition minted_header : Header :=
  {| hdr_alg := ES256; hdr_typ := Some "JWT"; hdr_kid := ex_kid x; hdr_jwk := None |}.

Definition minted_claims : TokenClaims :=
  {| tc_sub := Some (mt_sub (grant x)); tc_aud := Some (Single (mt_aud (grant x)));
     tc_iss := Some (mt_iss (grant x)); tc_exp := Some (mt_exp (grant x));
     tc_iat := Some (mt_iat (grant x)); tc_nbf := mt_nbf (grant x);
     tc_cnf := Some {| cc_jkt := Some (mt_cnf_jkt (grant x)) |} |}.

Lemma minted_token_encode : minted_token = encode minted_header minted_claims (issuer x).
Proof. unfold minted_token, mint_es256_token, minted_header. by destruct (ex_kid x). Qed.

Lemma minted_candidates k ks ctx :
  public_of (issuer x) (jwk k) ->
  decode_candidates minted_token (token_validation Es256 ctx) (k :: ks) None = Ok minted_claims.
Proof.
  intros Hpub. rewrite minted_token_encode.
  destruct (encode_verifies minted_header minted_claims (issuer x) (jwk k) (token_validation Es256 ctx))
    as (key & Hk & Hj); try done.
  simpl. by rewrite Hk, Hj.
Qed.

(** A verified token of this exchange is accepted. *)
Lemma minted_token_accepted ctx e (s s1 : server X) request :
  conforming ctx request -> timely ctx e ->
  block_on (decode_token minted_token minted_header Es256 ctx) (alone e) s
    = Value (Ok minted_claims, s1, alone e) ->
  block_on (validate_token minted_token ctx) (alone e) s = Value (Ok minted_access, s1, alone e).
Proof.
  intros Hc Ht Hd. erewrite validate_token_split with (header := minted_header) (alg := Es256); [|..|exact Hd].
  - eapply check_claims_run with (b64 := mt_cnf_jkt (grant x)); try done; try apply Hc.
    + split; [eexists; split; [done|apply Ht]|apply Ht].
    + rewrite (cf_bound _ _ Hc). apply b64_decode_encode.
    + apply jwk_thumbprint_length.
  - rewrite minted_token_encode. by apply encode_header.
  - done.
Qed.


Lemma public_jwk_thumbprint vk kid :
  compute_jwk_thumbprint (es256_public_jwk vk kid) = Ok (jwk_thumbprint (EcP256 (point_x vk) (point_y vk))).
Proof.
  unfold compute_jwk_thumbprint. simpl. rewrite !b64_decode_encode. simpl.
  unfold bytes_len. by rewrite !(proj1 (point_lengths vk)), !(proj2 (point_lengths vk)).
Qed.

Lemma minted_proof_valid ctx e request uri :
  conforming ctx request -> timely ctx e -> build_effective_uri request = Ok uri ->
  proof_valid minted_proof (method request) uri minted_access minted_token ctx e minted_dpop.
Proof.
  intros Hc Ht Hu. unfold minted_proof, mint_es256_dpop_proof. cbv zeta.
  match goal with |- context [encode ?h ?c _] => set (hd := h); set (cl := c) end.
  destruct (encode_verifies hd cl (client x) (es256_public_jwk (verifying_key (client x)) None) (proof_validation Es256))
    as (key & Hk & Hj); try done.
  split; try done; try apply Ht.
  - exists hd, (es256_public_jwk (verifying_key (client x)) None), key, cl. repeat (split; [done || by apply encode_header|]).
    apply public_jwk_thumbprint.
  - apply Hc.
  - destruct (cf_htu _ _ Hc) as (uri' & u & Hu' & Hr). assert (uri' = uri) as -> by congruence. by exists u.
Qed.

(** The answer to a minted request whose token verifies is the replay store's. *)
Lemma minted_run ctx e (s s1 : server X) request :
  conforming ctx request -> timely ctx e ->
  block_on (decode_token minted_token minted_header Es256 ctx) (alone e) s
    = Value (Ok minted_claims, s1, alone e) ->
  block_on (authenticate_common request ctx) (alone e) s
  = match try_insert (proof_id ctx minted_dpop) (proof_deadline ctx e) (srv_replay s1) with
    | (Ok _, st) => Value (Ok (mt_sub (grant x)), set_replay st s1, alone e)
    | (Err Replayed, _) => Value (Err ProofReplayed, s1, alone e)
    | (Err MemoryPressureErr, _) => Value (Err MemoryPressure, s1, alone e)
    end.
Proof.
  intros Hc Ht Hd. destruct (cf_htu _ _ Hc) as (uri & u & Hu & _).
  eapply (authenticate_common_valid (X := X)) with (rt := minted_token) (rp := minted_proof) (t := minted_access).
  - apply extract_token_dpop; [apply Hc|rewrite minted_token_encode; apply encode_compact..].
  - apply extract_proof_dpop; [apply Hc|apply encode_compact..].
  - exact Hu.
  - by eapply minted_token_accepted.
  - by apply minted_proof_valid.
Qed.

(** ** The whole request path *)

Context `{JsonCrate} `{RouterCrate} `{Target}.

(** A vault request that is refused: the response and its log event. *)
Definition refused (f : AuthFailure) (ctx : OidcContext) (request : Request) (e : senv) (s : server X) :
    outcome (Response * server X * schedule senv (server X)) :=
  Value (respond_failure f,
    log_events [AuthFailureEvent (category f) (tag_name (tag ctx)) (client_addr request)] s, alone e).

Lemma whoami_dispatch state ctx admin storage request :
  uri_path request = "/api/whoami" ->
  build_router (X := X) state (Some ctx) admin (Some ()) storage request
  = VaultGuardService_call (vault_guard ctx) handle_whoami_vault (proxy_middleware (config state) request).
Proof.
  intros Hp. unfold build_router, build_routes, vault_routes. cbv zeta.
  set (q := proxy_middleware (config state) request). change (uri_path request) with (uri_path q) in Hp.
  destruct admin, storage; cbn [app whoami_vault_routes dispatch pattern handler];
    rewrite !Hp, !route_literal by done; done.
Qed.

Lemma minted_whoami state admin storage ctx e (s s1 : server X) request :
  uri_path request = "/api/whoami" -> method request = "GET" ->
  let q := proxy_middleware (config state) request in
  conforming ctx q -> timely ctx e ->
  block_on (decode_token minted_token minted_header Es256 ctx) (alone e) s
    = Value (Ok minted_claims, s1, alone e) ->
  block_on (build_router state (Some ctx) admin (Some ()) storage request) (alone e) s
  = match try_insert (proof_id ctx minted_dpop) (proof_deadline ctx e) (srv_replay s1) with
    | (Ok _, st) => Value (respond_json (json_sub (mt_sub (grant x))), set_replay st s1, alone e)
    | (Err Replayed, _) => refused ProofReplayed ctx q e s1
    | (Err MemoryPressureErr, _) => refused MemoryPressure ctx q e s1
    end.
Proof.
  intros Hp Hm q Hc Ht Hd. rewrite whoami_dispatch by done. fold q. change (method request) with (method q) in Hm.
  unfold VaultGuardService_call, guarded. rewrite Hm. simpl existsb. cbv zeta. simpl negb. cbv iota.
  rewrite block_on_await, (minted_run _ _ _ s1) by done.
  destruct (try_insert _ _ _) as [[|[]] st]; try done.
  unfold handle_whoami_vault. cbv beta iota. change (method (insert_vault _ q)) with (method q). by rewrite Hm.
Qed.

(** A proof identifier that is neither recorded nor refused for lack of room. *)
Definition unused (k : JtiKey) (s : server X) : Prop :=
  entries (srv_replay s) !! k = None
  /\ entries_len (entries (srv_replay s)) < max_replay_entries (Replay.config (srv_replay s)).

Lemma unused_inserted k d s :
  unused k s -> exists st, try_insert k d (srv_replay s) = (Ok (), st)
    /\ entries st = <[k := d]> (entries (srv_replay s)).
Proof.
  intros [Hn Hr]. unfold try_insert, insert_entry. rewrite Hn, (proj2 (N.leb_gt _ _) Hr). by eexists.
Qed.



(** ** Key rotation *)

(** The issuer signs with a key of the set [new] it now publishes, which the
    cached set cannot verify; the rate limit allows a refresh, and the other
    context has none of the new keys. *)
Record rotated (ctx : OidcContext) (e : senv) (s : server X) (c : OidcContext) (new : Jwks) : Prop := {
  ro_handle : handle ctx;
  ro_alive : srv_contexts s !! tag ctx = Some c;
  ro_stale : exists f, decode_candidates minted_token (token_validation Es256 ctx)
    (lookup_candidates (jwks c) (ex_kid x)) None = Err f;
  ro_due : u64_saturating_add (last_on_demand_refresh c) (on_demand_refresh_min_interval_secs (auth_config ctx))
    <= unix_secs (now_system e);
  ro_published : fetch_jwks (http e (jwks_uri (discovery c))) = Value (Ok new);
  ro_disjoint : exists o, upgrade_other ctx (srv_contexts s) = Some o /\ thumbs_disjoint (jwks o) new;
  ro_known : exists k ks, lookup_candidates new (ex_kid x) = k :: ks /\ public_of (issuer x) (jwk k);
}.

(** One refresh later. *)
Record refreshed_once (ctx : OidcContext) (c : OidcContext) (new : Jwks) (s s1 : server X) : Prop := {
  rf_sent : srv_sent s1 = srv_sent s ++ [(tag ctx, jwks_uri (discovery c))];
  rf_keys : jwks (live ctx s1) = new;
  rf_log : srv_log s1 = srv_log s;
  rf_replay : srv_replay s1 = srv_replay s;
}.

Lemma check_disjoint_Ok a b t : thumbs_disjoint a b -> check_disjoint_jwks a b t = Ok ().
Proof.
  intros Hd. pose proof (check_disjoint_spec a b t) as Hs.
  destruct (check_disjoint_jwks a b t) as [[]|]; [done|]. destruct Hs as (_ & tp & Ha & Hb). by destruct (Hd tp).
Qed.

Lemma rotated_refresh ctx e s c new :
  rotated ctx e s c new ->
  exists s1, block_on (on_demand_refresh ctx) (alone e) s = Value (true, s1, alone e)
    /\ refreshed_once ctx c new s s1.
Proof.
  intros [Hh Hc _ Hdue Hf (o & Ho & Hd) _]. pose proof (on_demand_refresh_spec ctx e s c Hc) as Hs.
  cbv zeta in Hs. rewrite (proj2 (N.ltb_ge _ _) Hdue), Hf in Hs. unfold install_refreshed_jwks, check_install in Hs.
  match type of Hs with context [upgrade_other ctx ?w] => assert (upgrade_other ctx w = Some o) as Hup end.
  { unfold upgrade_other in *. unfold handle in Hh. rewrite Hh in *. simpl in *. rewrite lookup_alter_ne; [done|].
    by destruct (tag ctx). }
  rewrite Hup, check_disjoint_Ok in Hs by done. destruct Hs as [o' Hs].
  pose proof (block_on_alone _ _ _ _ _ _ Hs) as ->. eexists. split; [exact Hs|].
  split; simpl; rewrite ?app_nil_r; try done.
  unfold live, store_jwks. simpl. by rewrite !lookup_alter_eq, Hc.
Qed.

Lemma rotated_token_decoded ctx e s c new :
  rotated ctx e s c new ->
  exists s1,
    block_on (decode_token minted_token minted_header Es256 ctx) (alone e) s = Value (Ok minted_claims, s1, alone e)
    /\ refreshed_once ctx c new s s1.
Proof.
  intros Hro. destruct (rotated_refresh _ _ _ _ _ Hro) as (s1 & Hr & Hs1). exists s1. split; [|done].
  destruct Hro as [_ Hc (f & Hf) _ _ _ (k & ks & Hk & Hpub)]. destruct Hs1 as [_ Hkeys _ _].
  assert (live ctx s = c) as Hl by (unfold live; by rewrite Hc).
  unfold decode_token. rewrite block_on_await, try_decode_run. cbn [hdr_kid minted_header]. rewrite Hl.
  assert (exists f', match lookup_candidates (jwks c) (ex_kid x) with
    | [] => Err TokenSignatureInvalid
    | cands => decode_candidates minted_token (token_validation Es256 ctx) cands None end = Err f') as [f' ->].
  { destruct (lookup_candidates _ _); eauto. }
  cbv iota. rewrite block_on_await, Hr. cbn [negb].
  rewrite block_on_await, try_decode_run. cbn [hdr_kid minted_header]. rewrite Hkeys, Hk.
  by rewrite minted_candidates.
Qed.

(** C20. A rotated key costs one refresh.  When the issuer has replaced its keys
    and mints a token that none of the cached keys verifies, a conforming request
    with it is answered with its subject all the same: the guard sends exactly
    one request for the key set (if the rate limit allows one), installs the new
    keys, which must share none with the other audience, and accepts the token
    under them.  The new keys are then cached: the first key tried for the next
    such token is the issuer's. *)
Theorem rotated_key_accepted state admin storage ctx e s request c new :
  uri_path request = "/api/whoami" -> method request = "GET" ->
  conforming ctx (proxy_middleware (config state) request) -> timely ctx e ->
  rotated ctx e s c new -> unused (proof_id ctx minted_dpop) s ->
  exists s1 st,
    block_on (build_router state (Some ctx) admin (Some ()) storage request) (alone e) s
      = Value (respond_json (json_sub (mt_sub (grant x))), set_replay st s1, alone e)
    /\ refreshed_once ctx c new s s1
    /\ issuer_known ctx (set_replay st s1).
Proof.
  intros Hp Hm Hq Ht Hro Hun. destruct (rotated_token_decoded _ _ _ _ _ Hro) as (s1 & Hd & Hs1).
  assert (unused (proof_id ctx minted_dpop) s1) as Hun1 by (unfold unused; by rewrite (rf_replay _ _ _ _ _ Hs1)).
  destruct (unused_inserted _ (proof_deadline ctx e) _ Hun1) as (st & Hins & _).
  exists s1, st. split; [|split; [done|]].
  - rewrite (minted_whoami _ _ _ ctx _ _ s1) by done. by rewrite Hins.
  - unfold issuer_known. change (live ctx (set_replay st s1)) with (live ctx s1).
    rewrite (rf_keys _ _ _ _ _ Hs1). apply (ro_known _ _ _ _ _ Hro).
Qed.
End minted.

(** ** Witnesses *)

#[local] Existing Instances target64 fx_instants mint_jwt mint_decode_token mint_decode_proof.

(** The issuer's key is the vault context's key [v], the client's key is [k]. *)
Definition fx_exchange : Exchange := {|
  issuer := "v"; client := "k"; ex_kid := Some "v";
  grant := {| mt_sub := "alice"; mt_aud := "vault"; mt_iss := "https://issuer.example"; mt_iat := 10;
              mt_exp := 1000; mt_nbf := None; mt_cnf_jkt := es256_thumbprint_b64url "k" |};
  ex_htm := "GET"; ex_htu := "http://vault.example/api/whoami"; ex_iat := 160; ex_jti := "id-1" |}.





(** The issuer now signs with key [n], which it publishes; the vault context
    still holds [v]. *)
Definition fx_rotated_exchange : Exchange := {|
  issuer := "n"; client := "k"; ex_kid := Some "n"; grant := grant fx_exchange;
  ex_htm := "GET"; ex_htu := "http://vault.example/api/whoami"; ex_iat := 160; ex_jti := "id-1" |}.

Definition fx_rotated_request : Request :=
  fx_request (minted_token fx_rotated_exchange) (minted_proof fx_rotated_exchange).

Definition fx_published : outcome (result JwksFetchError Jwks) := fetch_jwks (http (fx_env 100 "n") fx_url).
Definition fx_rotated_jwks : Jwks := match fx_published with Value (Ok j) => j | _ => fx_jwks "n" end.

Lemma fx_published_ok : fx_published = Value (Ok fx_rotated_jwks).
Proof.
  assert (accepts fx_published = true) as Ha by (vm_compute; reflexivity).
  unfold fx_rotated_jwks. by destruct fx_published as [[j|err]|].
Qed.

Lemma fx_rotated : rotated fx_rotated_exchange fx_vault (fx_env 100 "n") fx_server fx_vault fx_rotated_jwks.
Proof.
  split; [reflexivity..| | |exact fx_published_ok| |].
  - assert (is_ok (decode_candidates (minted_token fx_rotated_exchange) (token_validation Es256 fx_vault)
      (lookup_candidates (jwks fx_vault) (Some "n")) None) = false) as Hf by (vm_compute; reflexivity).
    cbn [ex_kid fx_rotated_exchange]. destruct (decode_candidates _ _ _ _) as [c|f]; [discriminate Hf|by exists f].
  - vm_compute. discriminate.
  - exists fx_admin. split; [reflexivity|].
    assert (is_ok (check_disjoint_jwks (jwks fx_admin) fx_rotated_jwks Vault) = true) as Hd by (vm_compute; reflexivity).
    pose proof (check_disjoint_spec (jwks fx_admin) fx_rotated_jwks Vault) as Hs.
    by destruct (check_disjoint_jwks _ _ _).
  - assert (match lookup_candidates fx_rotated_jwks (Some "n") with
      | k :: _ => bool_decide (algorithm (jwk k) = toy_public "n") | [] => false end = true) as Hk
      by (vm_compute; reflexivity).
    cbn [ex_kid fx_rotated_exchange]. destruct (lookup_candidates _ _) as [|k ks]; [discriminate Hk|].
    exists k, ks. split; [done|]. by apply bool_decide_eq_true in Hk.
Qed.

Lemma fx_timely x : grant x = grant fx_exchange -> ex_iat x = 160 -> timely x fx_vault (fx_env 100 "n").
Proof. intros Hg Hi. split; rewrite ?Hg, ?Hi; done. Qed.

Lemma rotated_key_accepted_witness :
  exists s1 st,
    block_on (build_router (X := unit) fx_state (Some fx_vault) (Some fx_admin) (Some ()) None fx_rotated_request)
      (alone (fx_env 100 "n")) fx_server
    = Value (respond_json (json_sub "alice"), set_replay st s1, alone (fx_env 100 "n"))
    /\ srv_sent s1 = [(Vault, fx_url)].
Proof.
  destruct (rotated_key_accepted fx_rotated_exchange fx_state (Some fx_admin) None fx_vault (fx_env 100 "n")
    fx_server fx_rotated_request fx_vault fx_rotated_jwks eq_refl eq_refl) as (s1 & st & H1 & H2 & _).
  - split; try reflexivity. exists fx_target, fx_target. by repeat split.
  - by apply fx_timely.
  - exact fx_rotated.
  - split; reflexivity.
  - exists s1, st. split; [exact H1|]. rewrite (rf_sent _ _ _ _ _ H2). reflexivity.
Defined.
