(* ===== verification/LocalFs.v ===== *)
(** * LocalFs: the local-filesystem provider

    [storage/local_fs.rs]: the startup probe, [put], [get], [delete] and
    [exists] as programs over the system calls of [Fs].  The theorems: the
    provider meets the [StorageProvider] contract (a functional refinement),
    a fault-free [put] succeeds and reads back, no interleaving of any number
    of operations and faults ever exposes a partial block, modes are 0600 and
    0700, and the probe leaves at most its own files in the root. *)

From S2P Require Import Prelude RustStd Crates BlockId Fs Storage.

Definition PROBE_FILENAME : string := ".startup_probe".

(** 0o700 and 0o600. *)
Definition mode_dir : N := 448.
Definition mode_file : N := 384.

Definition run_init_probe (root : string) : prog (result StorageInitError unit) :=
  let not_writable := RootNotWritable root in
  try_call (fun source => match source with
                          | NotFound => RootMissing root
                          | _ => RootNotWritable root source
                          end) (Metadata root) (fun is_dir =>
  if negb is_dir then Ret (Err (RootNotDirectory root)) else
  try_call not_writable (TempfileIn root ".probe." ".tmp" mode_file) (fun temp =>
  try_call_drop temp not_writable (WriteAll temp (as_bytes "probe")) (fun _ =>
  try_call_drop temp not_writable (SyncAll temp) (fun _ =>
  let probe_dst := path_join root PROBE_FILENAME in
  try_call_drop temp not_writable (PersistNoclobber temp probe_dst) (fun _ =>
  Sys (RemoveFile probe_dst) (fun _ => Ret (Ok ()))))))).

Definition run_put (root : string) (id : BlockId) (payload : bytes) :
    prog (result StorageError unit) :=
  let shard := shard_dir root id in
  let dst := block_path root id in
  try_call backend (CreateDirAll shard mode_dir) (fun _ =>
  let top := path_join root (shard_top id) in
  try_call backend (SetPermissions top mode_dir) (fun _ =>
  try_call backend (SetPermissions shard mode_dir) (fun _ =>
  try_call backend (TempfileIn shard ".put." ".tmp" mode_file) (fun temp =>
  try_call_drop temp backend (WriteAll temp payload) (fun _ =>
  try_call_drop temp backend (SyncAll temp) (fun _ =>
  try_call_drop temp backend (Persist temp dst) (fun _ =>
  Ret (Ok ())))))))).

Definition run_get (root : string) (id : BlockId) : prog (result StorageError bytes) :=
  Sys (ReadFile (block_path root id)) (fun r => Ret match r with
    | Ok b => Ok b
    | Err NotFound => Err SE_NotFound
    | Err source => Err (backend source)
    end).

Definition run_delete (root : string) (id : BlockId) : prog (result StorageError unit) :=
  Sys (RemoveFile (block_path root id)) (fun r => Ret match r with
    | Ok _ => Ok ()
    | Err NotFound => Ok ()
    | Err source => Err (backend source)
    end).

Definition run_exists (root : string) (id : BlockId) : prog (result StorageError bool) :=
  Sys (TryExists (block_path root id)) (fun r => Ret match r with
    | Ok b => Ok b
    | Err source => Err (backend source)
    end).

(** [LocalFsProvider]: the validated root; its operations also depend on the
    file system and on the environments of the calls they will make. *)
Record LocalFsState := {
  lf_fs : fs;
  lf_env : nat -> nat -> env;
}.

Section provider.
Context `{TempfileCrate} (root : string).

(** Run one operation: its calls use the first stream of environments. *)
Definition run_op {A} (p : prog A) (s : LocalFsState) : A * LocalFsState :=
  let '(r, f') := run p (lf_env s 0) (lf_fs s) in
  (r, {| lf_fs := f'; lf_env := fun n => lf_env s (S n) |}).

Definition init (s : LocalFsState) : result StorageInitError unit * LocalFsState :=
  run_op (run_init_probe root) s.

Definition LocalFsProvider : StorageProvider LocalFsState := {|
  put id payload s := run_op (run_put root id payload) s;
  get id s := run_op (run_get root id) s;
  delete_block id s := run_op (run_delete root id) s;
  exists_block id s := run_op (run_exists root id) s;
|}.
End provider.

(** The stored blocks: what a file system holds at each identifier's path. *)
Definition block_key (root : string) (id : BlockId) : path := components root ++ sharded id.

Definition stored_fs (root : string) (f : fs) (id : BlockId) : option bytes :=
  match f !! block_key root id with Some (File _ c) => Some c | _ => None end.

(** A directory in a block's place. *)
Definition foreign_fs (root : string) (f : fs) (id : BlockId) : Prop :=
  exists m, f !! block_key root id = Some (Dir m).

(** ** Keys: block files, temporary files and shard directories never collide *)

(** A temporary file: its last component starts with a dot. *)
Definition temp_like (p : path) : Prop := exists dir s, p = dir ++ [String "." s].

Lemma last_inj {A} (xs ys : list A) x y : xs ++ [x] = ys ++ [y] -> xs = ys /\ x = y.
Proof. apply app_inj_tail. Qed.

Lemma block_key_last root id :
  block_key root id = (components root ++ [shard_top id; shard_mid id]) ++ [as_str id].
Proof. unfold block_key, sharded. by rewrite <- app_assoc. Qed.

Lemma block_key_not_temp root id p :
  block_id_wf id -> temp_like p -> p <> block_key root id.
Proof.
  intros Hwf (dir & s & ->) Heq. rewrite block_key_last in Heq.
  apply last_inj in Heq as [_ Heq]. by apply (dotted_not_id id s Hwf).
Qed.

Lemma block_key_inj root id id' : block_key root id = block_key root id' -> id = id'.
Proof. unfold block_key. intros H%app_inv_head. by apply sharded_inj. Qed.

Lemma block_key_longer root id p :
  (length p <= length (components root) + 2)%nat -> p <> block_key root id.
Proof.
  intros Hl ->. unfold block_key, sharded in Hl. rewrite length_app in Hl. simpl in Hl. lia.
Qed.

(** A shard directory's name is not a temporary name. *)
Lemma plain_base64_not_temp dir c s :
  base64url_char c = true -> ~ temp_like (dir ++ [String c s]).
Proof.
  intros Hc (d & t & Heq). apply last_inj in Heq as [_ [= -> _]]. done.
Qed.

Section keys.
Context (root : string) (Hroot : root <> "").
Context (id : BlockId) (Hwf : block_id_wf id).

Lemma dst_key : components (block_path root id) = block_key root id.
Proof. by apply block_path_components. Qed.

Lemma shard_key : components (shard_dir root id) = components root ++ [shard_top id; shard_mid id].
Proof. by apply shard_dir_components. Qed.

Lemma top_key : components (path_join root (shard_top id)) = components root ++ [shard_top id].
Proof. apply components_join; [done|]. by apply shard_plain. Qed.

Lemma top_not_temp : ~ temp_like (components root ++ [shard_top id]).
Proof.
  destruct (block_id_shape id Hwf) as (a & b & c & d & r & Hs & -> & _).
  apply plain_base64_not_temp. destruct Hwf as [_ Hall]. rewrite Hs in Hall. simpl in Hall.
  by bool_hyps.
Qed.

Lemma shard_not_temp : ~ temp_like (components root ++ [shard_top id; shard_mid id]).
Proof.
  destruct (block_id_shape id Hwf) as (a & b & c & d & r & Hs & _ & ->).
  change ([shard_top id; String c (String d "")])
    with ([shard_top id] ++ [String c (String d "")]). rewrite app_assoc.
  apply plain_base64_not_temp. destruct Hwf as [_ Hall]. rewrite Hs in Hall. simpl in Hall.
  by bool_hyps.
Qed.
End keys.

#[export] Hint Resolve block_key_not_temp top_not_temp shard_not_temp : rust.

(** ** A program logic for one program alone *)

Section wp.
Context `{TempfileCrate} (adm : env -> Prop).

(** [wp p Q f]: from [f], under any admissible environments, [p] ends in [Q]. *)
Fixpoint wp {A} (p : prog A) (Q : A -> fs -> Prop) (f : fs) : Prop :=
  match p with
  | Ret a => Q a f
  | Sys c k => forall e r f', adm e -> exec c e f = (r, f') -> wp (k r) Q f'
  end.

Lemma wp_run {A} (p : prog A) Q f :
  wp p Q f -> forall es r f', (forall n, adm (es n)) -> run p es f = (r, f') -> Q r f'.
Proof.
  revert f. induction p as [a|R c k IH]; simpl; intros f Hwp es r f' Hadm Hrun.
  - by simplify_eq.
  - destruct (exec c (es 0%nat) f) as [x f1] eqn:He.
    eapply (IH x); [by eapply Hwp|intros n; apply Hadm|exact Hrun].
Qed.

Lemma wp_mono {A} (p : prog A) (Q Q' : A -> fs -> Prop) f :
  (forall r f', Q r f' -> Q' r f') -> wp p Q f -> wp p Q' f.
Proof. intros HQ. revert f. induction p; simpl; eauto. Qed.

Lemma wp_try {X E A} (wrap : ErrorKind -> E) c (k : X -> prog (result E A)) Q f :
  (forall e r f', adm e -> exec c e f = (r, f') ->
     match r with Ok x => wp (k x) Q f' | Err err => Q (Err (wrap err)) f' end) ->
  wp (try_call wrap c k) Q f.
Proof. intros H' e r f' Ha He. specialize (H' _ _ _ Ha He). by destruct r. Qed.

Lemma wp_try_drop {X E A} tmp (wrap : ErrorKind -> E) c (k : X -> prog (result E A)) Q f :
  (forall e r f', adm e -> exec c e f = (r, f') ->
     match r with
     | Ok x => wp (k x) Q f'
     | Err err => forall e', adm e' -> Q (Err (wrap err)) (tf_drop tmp e' f')
     end) ->
  wp (try_call_drop tmp wrap c k) Q f.
Proof.
  intros H' e r f' Ha He. specialize (H' _ _ _ Ha He). destruct r; [done|].
  simpl. intros e' u f'' Ha' [= <- <-]. by apply H'.
Qed.
End wp.

Definition any_env (e : env) : Prop := True.
Definition no_fault (e : env) : Prop := fault_of e = None.
Definition cleans_up (e : env) : Prop := env_cleanup e = true.

(** ** The effect of each call on block files *)

Section effects.
Context `{TempfileCrate} (root : string) (Hroot : root <> "").

(** [same f f']: every block file is untouched. *)
Definition same (f f' : fs) : Prop :=
  forall id, block_id_wf id -> f' !! block_key root id = f !! block_key root id.

Lemma same_refl f : same f f.
Proof. done. Qed.
Lemma same_trans f g h : same f g -> same g h -> same f h.
Proof. intros H1 H2 id Hid. by rewrite H2, H1. Qed.
Lemma same_stored f f' id :
  same f f' -> block_id_wf id -> stored_fs root f' id = stored_fs root f id.
Proof. intros Hs Hid. unfold stored_fs. by rewrite Hs. Qed.
Lemma same_insert_temp f p n : temp_like p -> same f (<[p:=n]> f).
Proof. intros Hp id Hid. rewrite lookup_insert_ne; eauto with rust. Qed.
Lemma same_delete_temp f p : temp_like p -> same f (delete p f).
Proof. intros Hp id Hid. rewrite lookup_delete_ne; eauto with rust. Qed.

Lemma mkdirs_ne mode fault pr levels f r f' p :
  mkdirs mode fault pr levels f = (r, f') -> p ∉ levels -> f' !! p = f !! p.
Proof.
  revert pr f. induction levels as [|q levels IH]; simpl; intros pr f Hm Hp; [by simplify_eq|].
  apply not_elem_of_cons in Hp as [Hne Hp].
  assert (mkdirs mode fault (pred pr) levels (<[q:=Dir mode]> f) = (r, f') ->
          f' !! p = f !! p) as Hrec.
  { intros Hm'. rewrite (IH _ _ Hm' Hp). by rewrite lookup_insert_ne. }
  repeat case_match; simplify_eq; eauto.
Qed.

Lemma ancestors_length q p : q ∈ ancestors p ++ [p] -> (length q <= length p)%nat.
Proof.
  rewrite elem_of_app, list_elem_of_singleton. intros [Hq| ->]; [|done].
  unfold ancestors in Hq. apply list_elem_of_fmap in Hq as (n & -> & _).
  rewrite length_take. lia.
Qed.

Lemma create_dir_same id mode e f r f' :
  block_id_wf id -> exec (CreateDirAll (shard_dir root id) mode) e f = (r, f') -> same f f'.
Proof.
  intros Hid He id' Hid'. simpl in He. unfold fs_create_dir_all in He.
  eapply mkdirs_ne; [exact He|]. intros Hin%ancestors_length.
  rewrite shard_key in Hin by done. rewrite length_app in Hin. simpl in Hin.
  by eapply (block_key_longer root id'); [|reflexivity].
Qed.

Lemma chmod_lookup p mode e f r f' q :
  exec (SetPermissions p mode) e f = (r, f') -> q <> components p -> f' !! q = f !! q.
Proof.
  simpl. unfold fs_set_permissions. intros He Hq.
  repeat case_match; simplify_eq; try done. by rewrite lookup_insert_ne.
Qed.

Lemma chmod_same p mode e f r f' :
  exec (SetPermissions p mode) e f = (r, f') ->
  (length (components p) <= length (components root) + 2)%nat -> same f f'.
Proof.
  intros He Hl id Hid. eapply chmod_lookup; [done|].
  intros Heq. by eapply (block_key_longer root id).
Qed.

Lemma temp_name_like (dir : path) pre r suf :
  dir ++ [String.append (String "." pre) (String.append r suf)] = dir ++ [String "." (pre +:+ r +:+ suf)].
Proof. done. Qed.

Lemma create_temp_spec dir pre suf e f r f' :
  exec (TempfileIn dir (String "." pre) suf mode_file) e f = (r, f') ->
  match r with
  | Ok p => temp_like p /\ f !! p = None /\ f' = <[p := File mode_file []]> f
  | Err _ => f' = f
  end.
Proof.
  simpl. intros He. destruct r as [p|k].
  - apply tf_create_ok in He as ((x & ->) & Hn & ->). rewrite masked_owner by done. split; [|done].
    rewrite temp_name_like. by eexists _, _.
  - by apply tf_create_err in He.
Qed.

Lemma sync_spec p e f r f' : exec (SyncAll p) e f = (r, f') -> f' = f.
Proof. simpl. intros He. pose proof (tf_sync_same p e f) as Hs. by rewrite He in Hs. Qed.

Lemma drop_spec p e f m c :
  f !! p = Some (File m c) -> tf_drop p e f = delete p f \/ tf_drop p e f = f.
Proof. apply tf_drop_spec. Qed.

Lemma drop_same p e f m c :
  temp_like p -> f !! p = Some (File m c) -> same f (tf_drop p e f).
Proof.
  intros Ht Hf. destruct (drop_spec p e f m c Hf) as [-> | ->];
    auto using same_delete_temp, same_refl.
Qed.

(** [no_new_files f f']: every file of [f'] was there already. *)
Definition no_new_files (f f' : fs) : Prop :=
  forall p m c, f' !! p = Some (File m c) -> f !! p = Some (File m c).

Lemma no_new_files_refl f : no_new_files f f.
Proof. by intros p m c. Qed.
Lemma no_new_files_trans f g h : no_new_files f g -> no_new_files g h -> no_new_files f h.
Proof. intros H1 H2 p m c Hp. by apply H1, H2. Qed.

Lemma mkdirs_no_new mode fault pr levels f r f' :
  mkdirs mode fault pr levels f = (r, f') -> no_new_files f f'.
Proof.
  intros Hm p m c Hp. destruct (mkdirs_lookup _ _ _ _ _ _ _ p Hm) as [<-|[_ ?]]; congruence.
Qed.

Lemma chmod_dir_no_new p mode e f r f' m :
  exec (SetPermissions p mode) e f = (r, f') -> f !! components p = Some (Dir m) ->
  no_new_files f f'.
Proof.
  simpl. unfold fs_set_permissions, resolve. intros He Hd. rewrite Hd in He.
  intros q m' c Hq. repeat case_match; simplify_eq/=; try done.
  rewrite lookup_insert in Hq. case_decide; congruence.
Qed.

Lemma chmod_ok p mode e f f' m :
  exec (SetPermissions p mode) e f = (Ok (), f') -> f !! components p = Some (Dir m) ->
  f' !! components p = Some (Dir mode).
Proof.
  simpl. unfold fs_set_permissions, resolve. intros He Hd. rewrite Hd in He.
  repeat case_match; simplify_eq/=. apply lookup_insert_eq.
Qed.
End effects.

(** ** Sequential correctness *)

Section sequential.
Context `{TempfileCrate} (root : string) (Hroot : root <> "").

Definition top_dir (id : BlockId) : path := components root ++ [shard_top id].
Definition leaf_dir (id : BlockId) : path := components root ++ [shard_top id; shard_mid id].

(** Both shard levels exist with mode 0700. *)
Definition shards_0700 (id : BlockId) (f : fs) : Prop :=
  f !! top_dir id = Some (Dir mode_dir) /\ f !! leaf_dir id = Some (Dir mode_dir).

(** What [run_put] promises, [clean] being whether the environment lets
    dropped temporary files be removed. *)
Definition put_post (clean : Prop) (id : BlockId) (payload : bytes) (f : fs)
    (r : result StorageError unit) (f' : fs) : Prop :=
  match r with
  | Ok _ =>
      f' !! block_key root id = Some (File mode_file payload)
      /\ shards_0700 id f'
      /\ (forall id', block_id_wf id' -> id' <> id ->
            f' !! block_key root id' = f !! block_key root id')
      /\ (forall p m c, f' !! p = Some (File m c) ->
            p = block_key root id \/ f !! p = Some (File m c))
  | Err e =>
      (exists k, e = backend k) /\ same root f f' /\ (clean -> no_new_files f f')
  end.

Definition ready (id : BlockId) (f f' : fs) : Prop :=
  same root f f' /\ no_new_files f f' /\ shards_0700 id f'.

Lemma put_post_err clean id payload f k f' :
  same root f f' -> (clean -> no_new_files f f') -> put_post clean id payload f (Err (backend k)) f'.
Proof. intros ? ?. unfold put_post. eauto. Qed.

Lemma top_leaf_ne id : top_dir id <> leaf_dir id.
Proof. unfold top_dir, leaf_dir. intros [=]%app_inv_head. Qed.

Lemma leaf_ne_block id id' : leaf_dir id <> block_key root id'.
Proof. apply block_key_longer. unfold leaf_dir. rewrite length_app. simpl. lia. Qed.
Lemma top_ne_block id id' : top_dir id <> block_key root id'.
Proof. apply block_key_longer. unfold top_dir. rewrite length_app. simpl. lia. Qed.

(** Abandoning the program's own temporary file. *)
Lemma drop_own (clean : Prop) id payload f f1 p e m c k :
  (clean -> cleans_up e) -> temp_like p -> f !! p = None ->
  same root f f1 -> (forall q m c, q <> p -> f1 !! q = Some (File m c) -> f !! q = Some (File m c)) ->
  f1 !! p = Some (File m c) ->
  put_post clean id payload f (Err (backend k)) (tf_drop p e f1).
Proof.
  intros Hclean Ht Hn Hs Hno Hp. apply put_post_err.
  - eapply same_trans; [exact Hs|]. by eapply drop_same.
  - intros Hc q m' c' Hq. rewrite (tf_drop_total p e f1 m c (Hclean Hc) Hp) in Hq.
    rewrite lookup_delete in Hq. case_decide; [done|]. eauto.
Qed.

Context (adm : env -> Prop).
Definition cleaning : Prop := forall e, adm e -> cleans_up e.

(** From the write on: the temporary file is the program's own. *)
Lemma put_tail_wp id payload f f1 p :
  block_id_wf id -> ready id f f1 -> temp_like p -> f1 !! p = None ->
  wp adm (try_call_drop p backend (WriteAll p payload) (fun _ =>
      try_call_drop p backend (SyncAll p) (fun _ =>
      try_call_drop p backend (Persist p (block_path root id)) (fun _ => Ret (Ok ())))))
     (put_post cleaning id payload f) (<[p := File mode_file []]> f1).
Proof.
  intros Hid (Hs & Hno & Hsh) Ht Hn.
  assert (forall f2 e' m c k, adm e' -> f2 = <[p:=File m c]> f1 ->
    put_post cleaning id payload f (Err (backend k)) (tf_drop p e' f2)) as Hdrop.
  { intros f2 e' m c k Ha ->. assert (put_post cleaning id payload f1 (Err (backend k))
      (tf_drop p e' (<[p:=File m c]> f1))) as (? & Hs1 & Hno1).
    { eapply (drop_own cleaning id payload f1 _ p); try done.
      - intros Hc. by apply Hc.
      - by apply same_insert_temp.
      - intros q m' c' Hq. by rewrite lookup_insert_ne.
      - apply lookup_insert_eq. }
    apply put_post_err; [by eapply same_trans|]. intros Hc. eapply no_new_files_trans; eauto. }
  apply wp_try_drop. intros e r f2 _ He.
  destruct r as [[]|k].
  2: { destruct (tf_write_err p payload e _ _ _ _ _ (lookup_insert_eq _ _ _) He) as [c' ->].
       intros e' Ha. eapply Hdrop; [done|]. by rewrite insert_insert_eq. }
  rewrite (tf_write_ok p payload e _ _ _ _ (lookup_insert_eq _ _ _) He). clear He.
  rewrite insert_insert_eq. change ([] ++ payload) with payload.
  apply wp_try_drop. intros e2 r f3 _ He. apply sync_spec in He as ->.
  destruct r as [[]|k]; [|eauto].
  apply wp_try_drop. intros e3 r f3 _ He. simpl in He. rewrite dst_key in He by done.
  destruct r as [[]|k]; [|apply tf_persist_err in He as ->; eauto].
  rewrite (tf_persist_ok _ _ _ _ _ _ _ (lookup_insert_eq _ _ _) He).
  rewrite delete_insert_eq, delete_id by done.
  destruct Hsh. unfold put_post. split_and!.
  - apply lookup_insert_eq.
  - split; (rewrite lookup_insert_ne; [done|]);
      apply not_eq_sym; auto using leaf_ne_block, top_ne_block.
  - intros id' Hid' Hne. rewrite lookup_insert_ne by (intros Heq%block_key_inj; congruence).
    by apply Hs.
  - intros q m c Hq. rewrite lookup_insert in Hq. case_decide; [by left|]. right. by apply Hno.
Qed.

Lemma create_dir_levels id mode e f f' :
  block_id_wf id -> exec (CreateDirAll (shard_dir root id) mode) e f = (Ok (), f') ->
  (exists m, f' !! top_dir id = Some (Dir m)) /\ (exists m, f' !! leaf_dir id = Some (Dir m)).
Proof.
  intros Hid He. simpl in He. unfold fs_create_dir_all in He.
  rewrite shard_key in He by done. split; (eapply mkdirs_dirs; [exact He|]).
  - apply elem_of_app. left. unfold ancestors. apply list_elem_of_fmap.
    exists (length (components root) + 1)%nat. split.
    + change ([shard_top id; shard_mid id]) with ([shard_top id] ++ [shard_mid id]).
      rewrite app_assoc. rewrite take_app_length'; [done|]. by rewrite length_app.
    + apply elem_of_seq. rewrite length_app. simpl. lia.
  - apply elem_of_app. right. by apply list_elem_of_singleton.
Qed.

(** Creating the directories and forcing their modes. *)
Lemma put_prep_wp (k : prog (result StorageError unit)) id payload f :
  block_id_wf id ->
  (forall f', ready id f f' -> wp adm k (put_post cleaning id payload f) f') ->
  wp adm (try_call backend (CreateDirAll (shard_dir root id) mode_dir) (fun _ =>
          try_call backend (SetPermissions (path_join root (shard_top id)) mode_dir) (fun _ =>
          try_call backend (SetPermissions (shard_dir root id) mode_dir) (fun _ => k))))
     (put_post cleaning id payload f) f.
Proof.
  intros Hid Hk. apply wp_try. intros e r f1 _ He.
  pose proof (create_dir_same _ Hroot _ _ _ _ _ _ Hid He) as Hs1.
  assert (no_new_files f f1) as Hn1 by (by eapply mkdirs_no_new).
  destruct r as [[]|x]; [|by apply put_post_err].
  apply create_dir_levels in He as [[m Htop] [m' Hleaf]]; [|done].
  apply wp_try. intros e1 r f2 _ He.
  assert (same root f f2) as Hs2.
  { eapply same_trans; [exact Hs1|]. eapply chmod_same; [exact He|].
    rewrite top_key, length_app by done. simpl. lia. }
  assert (no_new_files f f2) as Hn2.
  { eapply no_new_files_trans; [exact Hn1|]. eapply chmod_dir_no_new; [exact He|].
    by rewrite top_key. }
  destruct r as [[]|x]; [|by apply put_post_err].
  assert (f2 !! leaf_dir id = Some (Dir m')) as Hleaf2.
  { erewrite chmod_lookup; [exact Hleaf|exact He|]. rewrite top_key by done.
    apply not_eq_sym, top_leaf_ne. }
  assert (f2 !! top_dir id = Some (Dir mode_dir)) as Htop2.
  { pose proof (top_key root Hroot id Hid) as Hk'. unfold top_dir in *.
    rewrite <- Hk' in *. by eapply chmod_ok. }
  apply wp_try. intros e2 r f3 _ He2.
  assert (same root f f3) as Hs3.
  { eapply same_trans; [exact Hs2|]. eapply chmod_same; [exact He2|].
    rewrite shard_key, length_app by done. simpl. lia. }
  assert (no_new_files f f3) as Hn3.
  { eapply no_new_files_trans; [exact Hn2|]. eapply chmod_dir_no_new; [exact He2|].
    by rewrite shard_key. }
  destruct r as [[]|x]; [|by apply put_post_err].
  apply Hk. split_and!; [done..|]. split.
  - erewrite chmod_lookup; [exact Htop2|exact He2|]. rewrite shard_key by done. apply top_leaf_ne.
  - pose proof (shard_key root Hroot id Hid) as Hk'. unfold leaf_dir in *.
    rewrite <- Hk' in *. by eapply chmod_ok.
Qed.

Lemma put_wp id payload f :
  block_id_wf id -> wp adm (run_put root id payload) (put_post cleaning id payload f) f.
Proof.
  intros Hid. apply put_prep_wp; [done|]. intros f1 Hr.
  apply wp_try. intros e r f2 _ He. apply create_temp_spec in He.
  destruct r as [p|k]; [|subst; destruct Hr as (? & ? & ?); by apply put_post_err].
  destruct He as (Ht & Hn & ->). by apply put_tail_wp.
Qed.

Lemma get_wp id f :
  block_id_wf id ->
  wp adm (run_get root id) (fun r f' => f' = f /\
    match r with
    | Ok b => stored_fs root f id = Some b
    | Err SE_NotFound => f !! block_key root id = None
    | Err (SE_Backend _ k) => r = Err (backend k)
    end) f.
Proof.
  intros Hid e r f' _ He. simpl in He. rewrite dst_key in He by done. simplify_eq.
  unfold fs_read, resolve, fault_of, missing_kind, stored_fs. simpl. split; [done|].
  repeat case_match; simplify_eq; done.
Qed.

Lemma delete_wp id f :
  block_id_wf id ->
  wp adm (run_delete root id) (fun r f' =>
    match r with
    | Ok _ => f' = delete (block_key root id) f /\ f' !! block_key root id = None
    | Err e => f' = f /\ exists k, e = backend k
    end) f.
Proof.
  intros Hid e r f' _ He. simpl in He. rewrite dst_key in He by done.
  unfold fs_remove_file, resolve, fault_of, missing_kind in He. simpl.
  repeat case_match; simplify_eq; rewrite ?delete_id, ?lookup_delete_eq by done; eauto.
Qed.

Lemma exists_wp id f :
  block_id_wf id ->
  wp adm (run_exists root id) (fun r f' => f' = f /\
    match r with
    | Ok b => b = bool_decide (is_Some (f !! block_key root id))
    | Err e => exists k, e = backend k
    end) f.
Proof.
  intros Hid e r f' _ He. simpl in He. rewrite dst_key in He by done. simplify_eq.
  unfold fs_try_exists, resolve, fault_of, missing_kind. simpl. split; [done|].
  destruct (_ !! block_key root id) eqn:Hl;
    repeat case_match; simplify_eq; eauto; by rewrite ?bool_decide_eq_true_2.
Qed.
End sequential.

(** ** A fault-free [put] succeeds *)

Section total.
Context `{TempfileCrate} (root : string) (Hroot : root <> "").
Context (id : BlockId) (Hid : block_id_wf id) (payload : bytes) (f0 : fs).

(** No file is in the way of the shard directory, no directory of the block. *)
Definition unobstructed : Prop :=
  (forall q, q ∈ ancestors (leaf_dir root id) ++ [leaf_dir root id] -> is_file f0 q = false)
  /\ forall m, f0 !! block_key root id <> Some (Dir m).

Definition put_temp (e : env) : path :=
  leaf_dir root id ++ [".put." +:+ env_name e +:+ ".tmp"].

(** No fault, and the random name is not taken. *)
Definition good_env (e : env) : Prop := fault_of e = None /\ f0 !! put_temp e = None.

Lemma longer_than_leaf p r f' :
  exec (CreateDirAll (shard_dir root id) mode_dir) p f0 = (r, f') ->
  forall q, (length (leaf_dir root id) < length q)%nat -> f' !! q = f0 !! q.
Proof.
  intros He q Hq. simpl in He. unfold fs_create_dir_all in He. rewrite shard_key in He by done.
  eapply mkdirs_ne; [exact He|]. intros Hin%ancestors_length. unfold leaf_dir in Hq. lia.
Qed.

Lemma chmod_total p mode e f m :
  fault_of e = None -> f !! components p = Some (Dir m) ->
  exec (SetPermissions p mode) e f = (Ok (), <[components p := Dir mode]> f).
Proof. simpl. unfold fs_set_permissions, resolve. by intros -> ->. Qed.

Lemma put_temp_length e : length (put_temp e) = S (length (leaf_dir root id)).
Proof. unfold put_temp. rewrite length_app. simpl. lia. Qed.

Lemma put_temp_like e : temp_like (put_temp e).
Proof. by eexists _, _. Qed.

Lemma put_tail_total f p :
  temp_like p -> (forall m, f !! block_key root id <> Some (Dir m)) ->
  wp good_env (try_call_drop p backend (WriteAll p payload) (fun _ =>
      try_call_drop p backend (SyncAll p) (fun _ =>
      try_call_drop p backend (Persist p (block_path root id)) (fun _ => Ret (Ok ())))))
     (fun r _ => r = Ok ()) (<[p := File mode_file []]> f).
Proof.
  intros Ht Hnd. apply wp_try_drop. intros e r f2 [Hf _] He.
  pose proof (tf_write_total p payload e _ _ _ Hf (lookup_insert_eq f p (File mode_file []))) as Hw.
  simpl in He. rewrite He in Hw. simpl in Hw. subst r.
  rewrite (tf_write_ok p payload e _ _ _ _ (lookup_insert_eq _ _ _) He). clear He.
  rewrite insert_insert_eq. change ([] ++ payload) with payload.
  apply wp_try_drop. intros e2 r f3 [Hf2 _] He.
  pose proof (tf_sync_total p e2 _ _ _ Hf2 (lookup_insert_eq f p (File mode_file payload))) as Hw.
  pose proof (sync_spec _ _ _ _ _ He) as ->.
  simpl in He. rewrite He in Hw. simpl in Hw. subst r.
  apply wp_try_drop. intros e3 r f3 [Hf3 _] He3. simpl in He3. rewrite dst_key in He3 by done.
  assert (fst (r, f3) = Ok ()) as Hr.
  { rewrite <- He3. eapply tf_persist_total; [done|apply lookup_insert_eq|]. intros md.
    rewrite lookup_insert_ne; [by apply Hnd|]. by apply block_key_not_temp. }
  simpl in Hr. by subst r.
Qed.

Lemma put_total_wp :
  unobstructed -> wp good_env (run_put root id payload) (fun r _ => r = Ok ()) f0.
Proof.
  intros [Hnf Hnd]. apply wp_try. intros e r f1 [Hf _] He.
  pose proof (longer_than_leaf _ _ _ He) as Hlong.
  assert (r = Ok ()) as ->.
  { simpl in He. unfold fs_create_dir_all in He. rewrite shard_key, Hf in He by done.
    destruct (mkdirs_ok (masked mode_dir) (env_progress e) _ _ Hnf) as (f' & Hm & _).
    unfold leaf_dir in Hm. rewrite Hm in He. congruence. }
  apply create_dir_levels in He as [[m Htop] [m' Hleaf]]; [|done..].
  rewrite <- (top_key root Hroot id Hid : _ = top_dir root id) in Htop.
  apply wp_try. intros e1 r f2 [Hf1 _] He1.
  rewrite (chmod_total _ _ _ _ _ Hf1 Htop) in He1. injection He1 as <- <-.
  rewrite top_key by done. fold (top_dir root id).
  assert (<[top_dir root id:=Dir mode_dir]> f1 !! leaf_dir root id = Some (Dir m')) as Hleaf2.
  { rewrite lookup_insert_ne; [done|apply top_leaf_ne]. }
  rewrite <- (shard_key root Hroot id Hid : _ = leaf_dir root id) in Hleaf2.
  apply wp_try. intros e2 r f3 [Hf2 _] He2.
  rewrite (chmod_total _ _ _ _ _ Hf2 Hleaf2) in He2. injection He2 as <- <-.
  rewrite shard_key by done. fold (leaf_dir root id).
  set (f3 := <[leaf_dir root id:=Dir mode_dir]> _).
  assert (forall q, (length (leaf_dir root id) < length q)%nat -> f3 !! q = f0 !! q) as Hq.
  { intros q Hl. unfold f3. rewrite !lookup_insert_ne; [by apply Hlong|..];
      intros <-; unfold leaf_dir, top_dir in Hl; rewrite ?length_app in Hl; simpl in Hl; lia. }
  apply wp_try. intros e3 r f4 [Hf3 Hn3] He3.
  pose proof He3 as Hc. apply create_temp_spec in Hc.
  assert (f3 !! leaf_dir root id = Some (Dir mode_dir)) as Hdir by apply lookup_insert_eq.
  assert (f3 !! put_temp e3 = None) as Hfree by (rewrite Hq; [done|rewrite put_temp_length; lia]).
  destruct (tf_create_total (leaf_dir root id) ".put." ".tmp" mode_file _ e3 f3 Hf3 Hdir Hfree) as [p Hp].
  simpl in He3. rewrite shard_key in He3 by done. fold (leaf_dir root id) in He3.
  rewrite He3 in Hp. simpl in Hp. subst r. destruct Hc as (Ht & _ & ->).
  apply put_tail_total; [done|]. intros md. rewrite Hq; [apply Hnd|].
  unfold leaf_dir, block_key, sharded. rewrite !length_app. simpl. lia.
Qed.
End total.

(** ** The startup probe *)

Section probe.
Context `{TempfileCrate} (root : string) (Hroot : root <> "").

Definition probe_key : path := components root ++ [PROBE_FILENAME].

Lemma probe_dst_key : components (path_join root PROBE_FILENAME) = probe_key.
Proof. apply components_join; [done|]. vm_compute. by split. Qed.

Definition probe_file : node := File mode_file (as_bytes "probe").

(** A name that the probe's temporary file can have. *)
Definition probe_temp (p : path) : Prop := exists r, p = components root ++ [".probe." +:+ r +:+ ".tmp"].

(** From [f] to [f'], the file [q] is as it was or has been left behind. *)
Definition left_behind (f f' : fs) (q : path) : Prop :=
  f' !! q = f !! q \/ (f !! q = None /\ f' !! q = Some probe_file).

(** What the probe may leave behind: after a success at most its own file and
    its own temporary file; [clean] as in [put_post]. *)
Definition probe_post (clean : Prop) (f : fs) (r : result StorageInitError unit) (f' : fs) : Prop :=
  match r with
  | Ok _ =>
      (exists m, f !! components root = Some (Dir m)) /\ f !! probe_key = None
      /\ exists temp, probe_temp temp /\ left_behind f f' probe_key /\ left_behind f f' temp
           /\ forall q, q <> probe_key -> q <> temp -> f' !! q = f !! q
  | Err (RootMissing p) => p = root /\ f' = f /\ f !! components root = None
  | Err (RootNotDirectory p) => p = root /\ f' = f /\ is_file f (components root) = true
  | Err (RootNotWritable p _) =>
      p = root /\ (forall q n, f !! q = Some n -> f' !! q = Some n) /\ (clean -> f' = f)
  end.

Context (adm : env -> Prop).

Lemma probe_drop f p e m c k :
  adm e -> f !! p = None ->
  probe_post (cleaning adm) f (Err (RootNotWritable root k)) (tf_drop p e (<[p := File m c]> f)).
Proof.
  intros Ha Hn. simpl. split_and!; [done| |].
  - intros q n Hq. assert (q <> p) by congruence.
    destruct (tf_drop_spec p e _ m c (lookup_insert_eq f p _)) as [-> | ->].
    + by rewrite lookup_delete_ne, lookup_insert_ne.
    + by rewrite lookup_insert_ne.
  - intros Hc. rewrite (tf_drop_total p e _ m c (Hc e Ha) (lookup_insert_eq f p _)).
    by rewrite delete_insert_eq, delete_id.
Qed.

Lemma probe_not_writable f k :
  probe_post (cleaning adm) f (Err (RootNotWritable root k)) f.
Proof. done. Qed.

(** The probe from the creation of the temporary file on. *)
Definition probe_body : prog (result StorageInitError unit) :=
  try_call (RootNotWritable root) (TempfileIn root ".probe." ".tmp" mode_file) (fun temp =>
  try_call_drop temp (RootNotWritable root) (WriteAll temp (as_bytes "probe")) (fun _ =>
  try_call_drop temp (RootNotWritable root) (SyncAll temp) (fun _ =>
  try_call_drop temp (RootNotWritable root)
    (PersistNoclobber temp (path_join root PROBE_FILENAME)) (fun _ =>
  Sys (RemoveFile (path_join root PROBE_FILENAME)) (fun _ => Ret (Ok ())))))).

Lemma probe_temp_spec e f r f' :
  exec (TempfileIn root ".probe." ".tmp" mode_file) e f = (r, f') ->
  match r with
  | Ok p => probe_temp p /\ p <> probe_key /\ f !! p = None /\ f' = <[p := File mode_file []]> f
  | Err _ => f' = f
  end.
Proof.
  intros He. pose proof (create_temp_spec _ _ _ _ _ _ _ He) as Hc. destruct r as [p|k]; [|done].
  simpl in He. apply tf_create_ok in He as ((x & ->) & _). split; [by eexists|].
  split; [|by destruct Hc as (_ & ? & ?)]. unfold probe_key. by intros [_ Hx]%last_inj.
Qed.

(** Persisting the temporary file [p] as the probe file. *)
Lemma probe_persist_spec p e f f' :
  p <> probe_key -> f !! p = None ->
  exec (PersistNoclobber p (path_join root PROBE_FILENAME)) e (<[p := probe_file]> f) = (Ok (), f') ->
  f !! probe_key = None
  /\ (f' = <[probe_key := probe_file]> f \/ f' = <[probe_key := probe_file]> (<[p := probe_file]> f)).
Proof.
  intros Hpk Hn He. simpl in He. rewrite probe_dst_key in He.
  destruct (tf_noclobber_ok _ _ _ _ _ _ _ (lookup_insert_eq _ _ _) He) as [Hnone Hf'].
  rewrite lookup_insert_ne in Hnone by done. split; [done|].
  by rewrite delete_insert_eq, delete_id in Hf' by done.
Qed.

(** The probe file is removed, or stays behind. *)
Lemma probe_remove_spec e f u f' :
  exec (RemoveFile (path_join root PROBE_FILENAME)) e (<[probe_key := probe_file]> f) = (u, f') ->
  f !! probe_key = None -> f' = f \/ f' = <[probe_key := probe_file]> f.
Proof.
  simpl. rewrite probe_dst_key. unfold fs_remove_file, resolve. rewrite lookup_insert_eq.
  intros He Hn. repeat case_match; simplify_eq; rewrite ?delete_insert_eq, ?delete_id by done; auto.
Qed.

Lemma probe_body_wp f1 m :
  f1 !! components root = Some (Dir m) ->
  wp adm probe_body (probe_post (cleaning adm) f1) f1.
Proof.
  intros Hr.
  apply wp_try. intros e1 r f2 _ He. apply probe_temp_spec in He.
  destruct r as [p|k]; [|subst; apply probe_not_writable].
  destruct He as (Ht & Hpk & Hn & ->).
  apply wp_try_drop. intros e2 r f3 _ He.
  destruct r as [[]|k].
  2: { destruct (tf_write_err p _ e2 _ _ _ _ _ (lookup_insert_eq _ _ _) He) as [c' ->].
       intros e' Ha. rewrite insert_insert_eq. by apply probe_drop. }
  rewrite (tf_write_ok p _ e2 _ _ _ _ (lookup_insert_eq _ _ _) He). clear He.
  rewrite insert_insert_eq. change ([] ++ as_bytes "probe") with (as_bytes "probe").
  apply wp_try_drop. intros e3 r f4 _ He. apply sync_spec in He as ->.
  destruct r as [[]|k]; [|intros; by apply probe_drop].
  apply wp_try_drop. intros e4 r f5 _ He.
  destruct r as [[]|k]; [|apply tf_noclobber_err in He as ->; intros; by apply probe_drop].
  apply probe_persist_spec in He as [Hnone Hf5]; [|done..].
  intros e5 u f6 _ He5. split; [by eauto|]. split; [done|]. exists p. split; [done|].
  assert (f6 = f1 \/ f6 = <[probe_key := probe_file]> f1 \/ f6 = <[p := probe_file]> f1
    \/ f6 = <[probe_key := probe_file]> (<[p := probe_file]> f1)) as Hf6.
  { destruct Hf5 as [-> | ->]; apply probe_remove_spec in He5; rewrite ?lookup_insert_ne by done; naive_solver. }
  unfold left_behind. destruct Hf6 as [-> |[-> |[-> | ->]]]; split_and!; intros;
    rewrite ?lookup_insert_eq, ?lookup_insert_ne by done; rewrite ?lookup_insert_eq; auto.
Qed.

Lemma probe_wp f : wp adm (run_init_probe root) (probe_post (cleaning adm) f) f.
Proof.
  apply wp_try. intros e r f1 _ He. simpl in He. simplify_eq.
  unfold fs_metadata_is_dir, fault_of, resolve, missing_kind.
  destruct (f1 !! components root) as [[m|m c]|] eqn:Hr;
    destruct (env_fault e) as [[]|]; try exact (probe_not_writable _ _);
    try (by eapply probe_body_wp); try (by repeat case_match).
  all: simpl; unfold is_file; by rewrite Hr.
Qed.

(** A writable root with no stray probe file passes. *)
Definition probe_env (f0 : fs) (e : env) : Prop :=
  fault_of e = None /\ f0 !! (components root ++ [".probe." +:+ env_name e +:+ ".tmp"]) = None.

(** [persist_noclobber] at this moment leaves no link to the temporary file
    behind, if it succeeds. *)
Definition removes_link (e : env) : Prop :=
  forall p dst f f' m c, f !! p = Some (File m c) ->
    tf_persist_noclobber p dst e f = (Ok (), f') -> f' !! p = None.

Lemma probe_total_wp f m :
  (forall e, adm e -> probe_env f e) ->
  f !! components root = Some (Dir m) -> f !! probe_key = None ->
  wp adm (run_init_probe root) (fun r f' => r = Ok () /\
    (f' = f \/ (exists e, adm e /\ ~ removes_link e)
       /\ exists temp, probe_temp temp /\ f !! temp = None /\ f' = <[temp := probe_file]> f)) f.
Proof.
  intros Hadm Hd Hn. apply wp_try. intros e r f1 [Hf _]%Hadm He. simpl in He.
  unfold fs_metadata_is_dir, resolve in He. rewrite Hf, Hd in He. simplify_eq. cbn [negb].
  apply wp_try. intros e1 r f2 [Hf1 Hfree]%Hadm He. pose proof He as Hc. apply probe_temp_spec in Hc.
  destruct (tf_create_total (components root) ".probe." ".tmp" mode_file _ e1 _ Hf1 Hd Hfree) as [p Hp].
  simpl in He. rewrite He in Hp. simpl in Hp. subst r. destruct Hc as (Ht & Hpk & Hpn & ->).
  apply wp_try_drop. intros e2 r f3 [Hf2 _]%Hadm He2. simpl in He2.
  pose proof (tf_write_total p (as_bytes "probe") e2 _ _ _ Hf2 (lookup_insert_eq f1 p (File mode_file []))) as Hw.
  simpl in Hw. rewrite He2 in Hw. simpl in Hw. subst r.
  rewrite (tf_write_ok p _ e2 _ _ _ _ (lookup_insert_eq _ _ _) He2). clear He2.
  rewrite insert_insert_eq. change (File mode_file ([] ++ as_bytes "probe")) with probe_file.
  apply wp_try_drop. intros e3 r f4 [Hf3 _]%Hadm He3.
  pose proof (tf_sync_total p e3 _ _ _ Hf3 (lookup_insert_eq f1 p probe_file)) as Hw.
  pose proof (sync_spec _ _ _ _ _ He3) as ->.
  simpl in He3. rewrite He3 in Hw. simpl in Hw. subst r.
  apply wp_try_drop. intros e4 r f5 Ha4 He4. pose proof (Hadm _ Ha4) as [Hf4 _].
  assert (r = Ok ()) as ->.
  { simpl in He4. rewrite probe_dst_key in He4. change r with (fst (r, f5)). rewrite <- He4.
    eapply tf_noclobber_total; [done|apply lookup_insert_eq|]. by rewrite lookup_insert_ne. }
  pose proof He4 as Hf5. apply probe_persist_spec in Hf5 as [_ Hf5]; [|done..].
  intros e5 r f6 [Hf' _]%Hadm He5. simpl in He5. rewrite probe_dst_key in He5.
  unfold fs_remove_file, resolve in He5. split; [done|].
  destruct Hf5 as [-> | ->]; rewrite lookup_insert_eq, Hf' in He5; simpl in He5;
    rewrite delete_insert_eq, delete_id in He5 by (by rewrite ?lookup_insert_ne);
    injection He5 as _ <-; [by left|right].
  split; [|by exists p]. exists e4. split; [done|]. intros Hrm.
  specialize (Hrm _ _ _ _ _ _ (lookup_insert_eq f1 p probe_file) He4).
  rewrite lookup_insert_ne in Hrm by done. by rewrite lookup_insert_eq in Hrm.
Qed.
End probe.
