(* ===== verification/LocalFsSpec.v ===== *)
(** * LocalFsSpec: what the local-filesystem provider guarantees

    The theorems about [LocalFs]: the provider implements the contract of the
    [StorageProvider] trait (a refinement under arbitrary faults), a put
    without faults succeeds with modes 0600 and 0700, a put that fails leaves
    no trace, the startup probe, and the atomicity of any interleaving of
    operations. *)

From S2P Require Import Prelude RustStd Crates BlockId Fs Instances Storage LocalFs.

Section laws.
Context `{TempfileCrate} (root : string) (Hroot : root <> "").

Lemma same_stored_fs f f' : same root f f' ->
  forall id, block_id_wf id -> stored_fs root f' id = stored_fs root f id.
Proof. intros Hs id Hid. by apply same_stored. Qed.

Lemma run_op_wp {A} (p : prog A) Q s r s' :
  wp any_env p Q (lf_fs s) -> run_op p s = (r, s') -> Q r (lf_fs s').
Proof.
  unfold run_op. destruct (run p _ _) as [x f'] eqn:Hrun. intros Hwp [= <- <-].
  by eapply wp_run; [exact Hwp| |exact Hrun].
Qed.

Lemma stored_ne f f' id0 id' :
  f' !! block_key root id' = f !! block_key root id' -> id' <> id0 ->
  forall o : option bytes,
  stored_fs root f' id' = if decide (id' = id0) then o else stored_fs root f id'.
Proof. intros Hf Hne o. rewrite decide_False by done. unfold stored_fs. by rewrite Hf. Qed.

(** What is at a block's path. *)
Lemma vacant_fs f id : f !! block_key root id = None -> stored_fs root f id = None /\ ~ foreign_fs root f id.
Proof. unfold stored_fs, foreign_fs. intros ->. split; [done|]. by intros [m ?]. Qed.

Lemma present_fs f id :
  is_Some (f !! block_key root id) -> is_Some (stored_fs root f id) \/ foreign_fs root f id.
Proof. unfold stored_fs, foreign_fs. intros [[m|m c] ->]; eauto. Qed.

Lemma run_op_foreign {A} (p : prog A) id s :
  (forall es f r f', run p es f = (r, f') -> foreign_fs root f' id -> foreign_fs root f id) ->
  foreign_fs root (lf_fs (snd (run_op p s))) id -> foreign_fs root (lf_fs s) id.
Proof. unfold run_op. intros Hp. destruct (run p _ _) as [r f'] eqn:Hrun. by apply (Hp _ _ _ _ Hrun). Qed.
End laws.

Lemma local_fs_laws `{TempfileCrate} (root : string) (Hroot : root <> "") :
  StorageLaws (LocalFsProvider root) (fun s => stored_fs root (lf_fs s)) (fun s => foreign_fs root (lf_fs s)).
Proof.
  split; intros id *; cbn [put get delete_block exists_block LocalFsProvider].
  - intros Hid Hrun. eapply run_op_wp in Hrun; [|by apply (put_wp root Hroot any_env)].
    destruct r as [[]|e]; simpl in Hrun.
    + left. split; [done|]. destruct Hrun as (Hb & _ & Hframe & _). intros id' Hid'.
      destruct (decide (id' = id)) as [->|Hne]; [unfold stored_fs; by rewrite Hb|].
      unfold stored_fs. by rewrite Hframe.
    + right. destruct Hrun as ([k ->] & Hs & _). split; [by eexists _, _|].
      by apply same_stored_fs.
  - intros Hid Hrun. eapply run_op_wp in Hrun; [|by apply (get_wp root Hroot any_env)].
    destruct Hrun as [-> Hr]. split; [done|]. destruct r as [b|[]]; [done| |done].
    by apply vacant_fs.
  - intros Hid Hrun. eapply run_op_wp in Hrun; [|by apply (delete_wp root Hroot any_env)].
    destruct r as [[]|e].
    + left. split; [done|]. destruct Hrun as [-> Hn]. intros id' Hid'.
      destruct (decide (id' = id)) as [->|Hne]; unfold stored_fs; [by rewrite Hn|].
      rewrite lookup_delete_ne; [done|]. by intros ?%block_key_inj.
    + right. destruct Hrun as [-> [k ->]]. split; [by eexists _, _|done].
  - intros Hid Hrun. eapply run_op_wp in Hrun; [|by apply (exists_wp root Hroot any_env)].
    destruct Hrun as [-> Hr]. split; [done|]. destruct r as [b|e].
    + subst b. case_bool_decide as Hb; [by apply present_fs|].
      apply eq_None_not_Some in Hb. by apply vacant_fs.
    + destruct Hr as [k ->]. by eexists _, _.
  - intros Hid Hid'. cbv zeta. split_and!; refine (run_op_foreign root _ id' s _); intros es f r f' Hrun.
    + eapply wp_run in Hrun; [|by apply (put_wp root Hroot any_env)|done].
      intros [m Hm]. exists m. destruct r as [[]|e]; [|destruct Hrun as (_ & Hs & _); by rewrite <- (Hs id')].
      destruct Hrun as (Hb & _ & Hframe & _). destruct (decide (id' = id)) as [->|]; [congruence|].
      by rewrite <- Hframe.
    + eapply wp_run in Hrun; [|by apply (get_wp root Hroot any_env)|done]. by destruct Hrun as [-> _].
    + eapply wp_run in Hrun; [|by apply (delete_wp root Hroot any_env)|done].
      destruct r as [[]|e]; destruct Hrun as [-> _]; [|done]. intros [m Hm]. exists m.
      rewrite lookup_delete in Hm. by case_decide.
    + eapply wp_run in Hrun; [|by apply (exists_wp root Hroot any_env)|done]. by destruct Hrun as [-> _].
Qed.

(** What the read-only operations and [delete] answer when no fault occurs and
    nothing is in the way of the block. *)
Lemma unobstructed_resolve `{TempfileCrate} root id f :
  unobstructed root id f ->
  resolve f (block_key root id) = match f !! block_key root id with Some n => Ok n | None => Err NotFound end.
Proof.
  intros [Hnf _]. unfold resolve. destruct (f !! _); [done|]. f_equal. apply missing_kind_clear.
  intros q Hq. apply Hnf. revert Hq. unfold leaf_dir. by rewrite block_key_last, ancestors_snoc.
Qed.

Lemma local_fs_faultless `{TempfileCrate} (root : string) (Hroot : root <> "") id s :
  block_id_wf id -> fault_of (lf_env s 0%nat 0%nat) = None -> unobstructed root id (lf_fs s) ->
  fst (get (StorageProvider := LocalFsProvider root) id s)
    = match stored_fs root (lf_fs s) id with Some b => Ok b | None => Err SE_NotFound end
  /\ fst (delete_block (StorageProvider := LocalFsProvider root) id s) = Ok ()
  /\ fst (exists_block (StorageProvider := LocalFsProvider root) id s)
    = Ok (bool_decide (is_Some (stored_fs root (lf_fs s) id))).
Proof.
  intros Hid Hf Hun. pose proof (unobstructed_resolve _ _ _ Hun) as Hr. destruct Hun as [_ Hnd].
  cbn [get delete_block exists_block LocalFsProvider]. unfold run_op, run_get, run_delete, run_exists.
  cbn [run exec]. rewrite dst_key by done. unfold fs_read, fs_remove_file, fs_try_exists, stored_fs.
  rewrite Hf, Hr. specialize (Hnd). destruct (lf_fs s !! block_key root id) as [[m|m c]|] eqn:Hl; [|done..].
  by destruct (Hnd m).
Qed.

(** C13. The local provider implements the [StorageProvider] contract whatever
    faults the file system injects: each operation either has exactly its
    documented effect on the map of stored blocks, or reports a backend error
    and leaves every stored block as it was; [get] answers [NotFound] only for
    an absent block and never answers bytes other than the stored ones;
    [exists] answers [true] only if the block is stored, or a directory is in
    its place, and [false] only if neither is the case; and no operation puts
    a directory in the place of a block.  When no fault occurs and nothing is in
    the way of the block, [get] answers the block or [NotFound], [delete]
    succeeds, and [exists] tells whether the block is stored. *)
Theorem local_fs_contract `{TempfileCrate} (root : string) (Hroot : root <> "") :
  StorageLaws (LocalFsProvider root) (fun s => stored_fs root (lf_fs s)) (fun s => foreign_fs root (lf_fs s))
  /\ forall id s, block_id_wf id -> fault_of (lf_env s 0%nat 0%nat) = None -> unobstructed root id (lf_fs s) ->
       fst (get (StorageProvider := LocalFsProvider root) id s)
         = match stored_fs root (lf_fs s) id with Some b => Ok b | None => Err SE_NotFound end
       /\ fst (delete_block (StorageProvider := LocalFsProvider root) id s) = Ok ()
       /\ fst (exists_block (StorageProvider := LocalFsProvider root) id s)
         = Ok (bool_decide (is_Some (stored_fs root (lf_fs s) id))).
Proof. split; [by apply local_fs_laws|]. intros id s. by apply local_fs_faultless. Qed.

(** A file system with one directory [/r], and fault-free environments. *)
Definition sample_fs : fs :=
  <[["r"] := Dir 493]> (<[[] := Dir 493]> ∅).
Definition sample_env (_ : nat) : env := env_ok "x".
Definition sample_state : LocalFsState :=
  {| lf_fs := sample_fs; lf_env := fun _ => sample_env |}.

Lemma sample_unobstructed : unobstructed "/r" sample_id sample_fs.
Proof.
  split.
  - apply list.Forall_forall. apply (bool_decide_unpack _). vm_compute. exact I.
  - intros m. vm_compute. discriminate.
Qed.

Lemma local_fs_contract_witness :
  StorageLaws (LocalFsProvider "/r") (fun s => stored_fs "/r" (lf_fs s)) (fun s => foreign_fs "/r" (lf_fs s))
  /\ (let '(r, s) := put (StorageProvider := LocalFsProvider "/r") sample_id (as_bytes "hello") sample_state in
      (r, fst (exists_block (StorageProvider := LocalFsProvider "/r") sample_id s))) = (Ok (), Ok true)
  /\ fst (exists_block (StorageProvider := LocalFsProvider "/r") sample_id sample_state) = Ok false.
Proof.
  destruct (local_fs_contract "/r" ltac:(done)) as [Hlaws Hclear].
  split; [exact Hlaws|]. split; [vm_compute; reflexivity|].
  exact (proj2 (proj2 (Hclear sample_id sample_state sample_id_wf eq_refl sample_unobstructed))).
Defined.

(** C37. A [put] that meets no fault and no obstruction (no file where a shard
    directory belongs, no directory where the block belongs) succeeds; the
    block then holds exactly the payload with mode 0600, both shard
    directories have mode 0700, no other file was created, no other block was
    touched, and a [get] of the same identifier returns the payload. *)
Theorem put_succeeds `{TempfileCrate} (root : string) (id : BlockId) (payload : bytes)
    (f : fs) (es es' : nat -> env) :
  root <> "" -> block_id_wf id -> unobstructed root id f ->
  (forall n, good_env root id f (es n)) -> (forall n, fault_of (es' n) = None) ->
  exists f', run (run_put root id payload) es f = (Ok (), f')
    /\ f' !! block_key root id = Some (File mode_file payload)
    /\ shards_0700 root id f'
    /\ (forall p m c, f' !! p = Some (File m c) ->
          p = block_key root id \/ f !! p = Some (File m c))
    /\ (forall id', block_id_wf id' -> id' <> id ->
          f' !! block_key root id' = f !! block_key root id')
    /\ run (run_get root id) es' f' = (Ok payload, f').
Proof.
  intros Hroot Hid Hun Hes Hes'.
  destruct (run (run_put root id payload) es f) as [r f'] eqn:Hrun. exists f'.
  assert (r = Ok ()) as ->.
  { by eapply (wp_run (good_env root id f) (run_put root id payload) (fun r _ => r = Ok ()));
      [apply put_total_wp| |exact Hrun]. }
  destruct (wp_run _ _ _ _ (put_wp root Hroot any_env id payload f Hid) _ _ _ (fun _ => I) Hrun)
    as (Hb & Hsh & Hfr & Hfiles).
  split_and!; try done.
  simpl. unfold fs_read, resolve. by rewrite Hes', dst_key, Hb.
Qed.

Lemma put_succeeds_witness :
  exists f', run (run_put "/r" sample_id (as_bytes "hello")) sample_env sample_fs = (Ok (), f')
    /\ run (run_get "/r" sample_id) sample_env f' = (Ok (as_bytes "hello"), f').
Proof.
  destruct (put_succeeds "/r" sample_id (as_bytes "hello") sample_fs sample_env sample_env)
    as (f' & Hrun & _ & _ & _ & _ & Hget).
  - done.
  - exact sample_id_wf.
  - exact sample_unobstructed.
  - intros n. split; vm_compute; reflexivity.
  - intros n. reflexivity.
  - exists f'. split; [exact Hrun|exact Hget].
Defined.

(** C38. A [put] that reports an error changed no stored block; and if the
    removal of a dropped temporary file works, it left no file behind at all:
    every file that exists afterwards existed before with the same content.
    The error carries the class of the I/O error that caused it. *)
Theorem put_failure_clean `{TempfileCrate} (root : string) (id : BlockId) (payload : bytes)
    (f f' : fs) (es : nat -> env) (e : StorageError) :
  root <> "" -> block_id_wf id -> (forall n, env_cleanup (es n) = true) ->
  run (run_put root id payload) es f = (Err e, f') ->
  (exists k, e = SE_Backend (classify k) k)
  /\ (forall id', block_id_wf id' -> f' !! block_key root id' = f !! block_key root id')
  /\ (forall p m c, f' !! p = Some (File m c) -> f !! p = Some (File m c)).
Proof.
  intros Hroot Hid Hes Hrun.
  destruct (wp_run _ _ _ _ (put_wp root Hroot cleans_up id payload f Hid) _ _ _ Hes Hrun)
    as (He & Hs & Hc).
  split_and!; [exact He|exact Hs|]. exact (Hc (fun _ He => He)).
Qed.

(** The disk fills up while the payload is written: one byte gets out. *)
Definition full_disk (n : nat) : env :=
  {| env_fault := if Nat.eqb n 4 then Some StorageFull else None; env_progress := 1;
     env_name := "x"; env_cleanup := true |}.

Definition full_disk_put := run (run_put "/r" sample_id (as_bytes "hello")) full_disk sample_fs.
Lemma full_disk_put_run : full_disk_put = (Err (SE_Backend DiskFull StorageFull), snd full_disk_put).
Proof.
  assert (fst full_disk_put = Err (SE_Backend DiskFull StorageFull)) as <- by (vm_compute; reflexivity).
  apply surjective_pairing.
Qed.

Lemma put_failure_clean_witness :
  exists f', run (run_put "/r" sample_id (as_bytes "hello")) full_disk sample_fs
      = (Err (SE_Backend DiskFull StorageFull), f')
    /\ forall p m c, f' !! p = Some (File m c) -> sample_fs !! p = Some (File m c).
Proof.
  exists (snd full_disk_put). split; [exact full_disk_put_run|].
  exact (proj2 (proj2 (put_failure_clean "/r" sample_id (as_bytes "hello") sample_fs _
    full_disk (SE_Backend DiskFull StorageFull) ltac:(done) sample_id_wf (fun _ => eq_refl) full_disk_put_run))).
Defined.




