(* ===== verification/LocalFsAtomic.v ===== *)
(** * LocalFsAtomic: any interleaving of storage operations is atomic

    The server runs every storage operation on its own task, so their system
    calls interleave freely.  [abs_step] is the abstract machine in which a
    pending operation happens all at once; the main theorem shows that the
    programs of [LocalFs], interleaved call by call with arbitrary faults,
    refine it.  The proof is a rely-guarantee argument: [safe] describes what
    one thread's calls do to the block files and to the temporary files the
    thread does not own. *)

From S2P Require Import Prelude RustStd Crates BlockId Fs Instances Storage LocalFs LocalFsSpec.

(** ** Operations, their results, and the abstract machine *)

Inductive op : Type :=
  | OpPut (id : BlockId) (payload : bytes)
  | OpGet (id : BlockId)
  | OpDelete (id : BlockId)
  | OpExists (id : BlockId).

Inductive obs : Type :=
  | ObsUnit (r : result StorageError unit)
  | ObsBytes (r : result StorageError bytes)
  | ObsBool (r : result StorageError bool).

Definition op_id (o : op) : BlockId :=
  match o with OpPut id _ | OpGet id | OpDelete id | OpExists id => id end.

Definition op_prog (root : string) (o : op) : prog obs :=
  match o with
  | OpPut id payload => prog_map ObsUnit (run_put root id payload)
  | OpGet id => prog_map ObsBytes (run_get root id)
  | OpDelete id => prog_map ObsUnit (run_delete root id)
  | OpExists id => prog_map ObsBool (run_exists root id)
  end.

Abbreviation view := (BlockId -> option node).

Definition agree (m m' : view) : Prop := forall id, block_id_wf id -> m' id = m id.

(** [updated m id v m']: [m'] is [m] with [id] set to [v]. *)
Definition updated (m : view) (id : BlockId) (v : option node) (m' : view) : Prop :=
  m' id = v /\ forall id', block_id_wf id' -> id' <> id -> m' id' = m id'.

(** One operation, all at once, with the result it reports. *)
Definition atomic (o : op) (x : obs) (m m' : view) : Prop :=
  match o, x with
  | OpPut id payload, ObsUnit (Ok _) => updated m id (Some (File mode_file payload)) m'
  | OpDelete id, ObsUnit (Ok _) => updated m id None m'
  | OpPut _ _, ObsUnit (Err (SE_Backend _ _)) => agree m m'
  | OpDelete _, ObsUnit (Err (SE_Backend _ _)) => agree m m'
  | OpGet id, ObsBytes (Ok b) => agree m m' /\ exists md, m id = Some (File md b)
  | OpGet id, ObsBytes (Err SE_NotFound) => agree m m' /\ m id = None
  | OpGet _, ObsBytes (Err (SE_Backend _ _)) => agree m m'
  | OpExists id, ObsBool (Ok b) => agree m m' /\ b = bool_decide (is_Some (m id))
  | OpExists _, ObsBool (Err (SE_Backend _ _)) => agree m m'
  | _, _ => False
  end.

Inductive thread : Type := Pending (o : op) | Done (x : obs).

Inductive abs_step : view * list thread -> view * list thread -> Prop :=
  | abs_commit m m' ths i o x :
      ths !! i = Some (Pending o) -> atomic o x m m' ->
      abs_step (m, ths) (m', <[i := Done x]> ths).

Definition status (o : op) (p : prog obs) : thread :=
  match p with Ret x => Done x | Sys _ _ => Pending o end.

Definition view_of (root : string) (f : fs) : view := fun id => f !! block_key root id.

Lemma agree_refl m : agree m m.
Proof. done. Qed.

Lemma atomic_agree o x m1 m m' : block_id_wf (op_id o) -> agree m1 m -> atomic o x m m' -> atomic o x m1 m'.
Proof.
  intros Hid Ha. unfold atomic, updated, agree in *.
  destruct o, x as [[|[]]|[|[]]|[|[]]]; simpl in *; try done; intros Hat.
  all: try (destruct Hat as [Hat1 Hat2]; rewrite ?Ha in Hat2 by done).
  all: repeat split; try done; intros; rewrite <- ?Ha by done; auto.
Qed.

(** ** Thread-local reasoning *)

Section safe.
Context `{TempfileCrate} (root : string) (Hroot : root <> "").

(** The temporary file a thread holds, with its content. *)
Definition owns (own : option (path * bytes)) (f : fs) : Prop :=
  match own with
  | Some (p, c) => temp_like p /\ f !! p = Some (File mode_file c)
  | None => True
  end.

Definition owned (own : option (path * bytes)) (p : path) : Prop := fst <$> own = Some p.

(** What a call may do to everybody else's temporary files: nothing. *)
Definition others_kept (own : option (path * bytes)) (f f' : fs) : Prop :=
  forall q n, temp_like q -> ~ owned own q -> f !! q = Some n -> f' !! q = Some n.

(** A temporary file held after the call was held before, or is new. *)
Definition own_step (own own' : option (path * bytes)) (f : fs) : Prop :=
  forall p, owned own' p -> owned own p \/ f !! p = None.

Fixpoint safe {A} (g : A -> obs) (o : op) (own : option (path * bytes)) (p : prog A) : Prop :=
  match p with
  | Ret _ => True
  | Sys c k => forall e f r f', owns own f -> exec c e f = (r, f') ->
      exists own', owns own' f' /\ own_step own own' f /\ others_kept own f f' /\
      match k r with
      | Ret x => atomic o (g x) (view_of root f) (view_of root f')
      | Sys _ _ => same root f f'
      end /\ safe g o own' (k r)
  end.

Lemma safe_map {A} (g : A -> obs) o own p : safe g o own p -> safe id o own (prog_map g p).
Proof.
  revert own. induction p as [a|R c k IH]; simpl; [done|].
  intros own Hs e f r f' Ho He. destruct (Hs e f r f' Ho He) as (own' & H1 & H2 & H3 & H4 & H5).
  exists own'. split_and!; try done; [by destruct (k r)|auto].
Qed.

Definition is_call {A} (p : prog A) : Prop := match p with Ret _ => False | Sys _ _ => True end.

(** A call that leaves the block files alone, in the middle of a program. *)
Definition quiet (own own' : option (path * bytes)) (f f' : fs) : Prop :=
  owns own' f' /\ own_step own own' f /\ others_kept own f f' /\ same root f f'.

Lemma safe_try {X E A} (g : result E A -> obs) o own (wrap : ErrorKind -> E)
    (c : call (result ErrorKind X)) k :
  (forall x, is_call (k x)) ->
  (forall err m m', agree m m' -> atomic o (g (Err (wrap err))) m m') ->
  (forall e f r f', owns own f -> exec c e f = (r, f') ->
     exists own', quiet own own' f f' /\ match r with Ok x => safe g o own' (k x) | Err _ => True end) ->
  safe g o own (try_call wrap c k).
Proof.
  intros Hk Herr Hc e f r f' Ho He.
  destruct (Hc e f r f' Ho He) as (own' & (H1 & H2 & H3 & H4) & H5).
  exists own'. split_and!; try done; [|by destruct r].
  destruct r as [x|err]; [|by apply Herr]. specialize (Hk x). by destruct (k x).
Qed.

Lemma drop_quiet p c e f :
  owns (Some (p, c)) f -> quiet (Some (p, c)) None f (tf_drop p e f).
Proof.
  intros [Ht Hp]. split_and!; [done|by intros q [=]| |by eapply drop_same].
  intros q n Hq Hne Hf. assert (q <> p) by (intros ->; by apply Hne).
  destruct (tf_drop_spec p e f _ _ Hp) as [-> | ->]; [by rewrite lookup_delete_ne|done].
Qed.

Lemma safe_try_drop {X E A} (g : result E A -> obs) o p c0 (wrap : ErrorKind -> E)
    (c : call (result ErrorKind X)) k :
  (forall err m m', agree m m' -> atomic o (g (Err (wrap err))) m m') ->
  (forall e f r f', owns (Some (p, c0)) f -> exec c e f = (r, f') ->
     match r with
     | Err _ => exists c1, quiet (Some (p, c0)) (Some (p, c1)) f f'
     | Ok x => exists own', owns own' f' /\ own_step (Some (p, c0)) own' f
         /\ others_kept (Some (p, c0)) f f'
         /\ match k x with
            | Ret y => atomic o (g y) (view_of root f) (view_of root f')
            | Sys _ _ => same root f f'
            end /\ safe g o own' (k x)
     end) ->
  safe g o (Some (p, c0)) (try_call_drop p wrap c k).
Proof.
  intros Herr Hc e f r f' Ho He. specialize (Hc e f r f' Ho He).
  destruct r as [x|err]; [exact Hc|]. destruct Hc as [c1 (H1 & H2 & H3 & H4)].
  exists (Some (p, c1)). split_and!; try done.
  intros e1 f1 u f2 Ho1 He1. simpl in He1. simplify_eq.
  destruct (drop_quiet p c1 e1 f1 Ho1) as (D1 & D2 & D3 & D4).
  exists None. split_and!; try done. by apply Herr.
Qed.

Lemma kept_refl own f : others_kept own f f.
Proof. by intros q n. Qed.

Lemma own_step_refl own f : own_step own own f.
Proof. by left. Qed.

Lemma quiet_refl own f : owns own f -> quiet own own f f.
Proof. split; [done|]. split; [by left|]. split; [by intros q n|done]. Qed.

Lemma create_dir_quiet id e f r f' :
  block_id_wf id -> exec (CreateDirAll (shard_dir root id) mode_dir) e f = (r, f') ->
  quiet None None f f'.
Proof.
  intros Hid He. split_and!; [done|by left| |by eapply create_dir_same].
  intros q n _ _ Hq. simpl in He. unfold fs_create_dir_all in He.
  destruct (mkdirs_lookup _ _ _ _ _ _ _ q He) as [->|[? _]]; congruence.
Qed.

Lemma chmod_quiet p e f r f' :
  exec (SetPermissions p mode_dir) e f = (r, f') ->
  (length (components p) <= length (components root) + 2)%nat -> ~ temp_like (components p) ->
  quiet None None f f'.
Proof.
  intros He Hl Hnt. split_and!; [done|by left| |by eapply chmod_same].
  intros q n Hq _ Hf. erewrite chmod_lookup; [exact Hf|exact He|]. by intros ->.
Qed.

Lemma create_temp_quiet dir suf pre e f r f' :
  exec (TempfileIn dir (String "." pre) suf mode_file) e f = (r, f') ->
  quiet None (match r with Ok p => Some (p, []) | Err _ => None end) f f'.
Proof.
  intros He. apply create_temp_spec in He. destruct r as [p|k]; [|subst; by apply quiet_refl].
  destruct He as (Ht & Hn & ->). split; [|split; [|split]].
  - split; [done|apply lookup_insert_eq].
  - intros q [= <-]. by right.
  - intros q n _ _ Hq. rewrite lookup_insert_ne; [done|congruence].
  - by apply same_insert_temp.
Qed.

Lemma rewrite_quiet p c c' f :
  owns (Some (p, c)) f -> quiet (Some (p, c)) (Some (p, c')) f (<[p := File mode_file c']> f).
Proof.
  intros [Ht Hp]. split; [|split; [|split]];
    [by split; [|apply lookup_insert_eq]|by left| |by apply same_insert_temp].
  intros q n _ Hne Hq. rewrite lookup_insert_ne; [done|]. intros ->. by apply Hne.
Qed.

Lemma put_safe id payload : block_id_wf id ->
  safe ObsUnit (OpPut id payload) None (run_put root id payload).
Proof.
  intros Hid. apply safe_try; [done|by intros []|]. intros e f r f' _ He.
  exists None. split; [by eapply create_dir_quiet|]. destruct r; [|done]. clear e f f' He.
  apply safe_try; [done|by intros []|]. intros e f r f' _ He.
  exists None. split.
  { eapply chmod_quiet; [exact He|..]; rewrite top_key by done; [|by apply top_not_temp].
    rewrite length_app. simpl. lia. }
  destruct r; [|done]. clear e f f' He.
  apply safe_try; [done|by intros []|]. intros e f r f' _ He.
  exists None. split.
  { eapply chmod_quiet; [exact He|..]; rewrite shard_key by done; [|by apply shard_not_temp].
    rewrite length_app. simpl. lia. }
  destruct r; [|done]. clear e f f' He.
  apply safe_try; [done|by intros []|]. intros e f r f' _ He.
  eexists. split; [by eapply create_temp_quiet|]. destruct r as [p|]; [|done]. clear e f f' He.
  apply safe_try_drop; [by intros []|]. intros e f r f' Ho He. simpl in He.
  pose proof (proj2 Ho) as Hp.
  destruct r as [[]|].
  2: { destruct (tf_write_err _ _ _ _ _ _ _ _ Hp He) as [c' ->]. exists c'. by apply rewrite_quiet. }
  rewrite (tf_write_ok _ _ _ _ _ _ _ Hp He).
  exists (Some (p, payload)). destruct (rewrite_quiet p [] payload f Ho) as (Q1 & Q2 & Q3 & Q4).
  split; [done|]. split; [done|]. split; [done|]. split; [done|].
  clear - Hroot Hid.
  apply safe_try_drop; [by intros []|]. intros e f r f' Ho He. apply sync_spec in He as ->.
  destruct r as [[]|]; [|exists payload; by apply quiet_refl].
  exists (Some (p, payload)). destruct (quiet_refl _ _ Ho) as (Q1 & Q2 & Q3 & Q4).
  split; [done|]. split; [done|]. split; [done|]. split; [done|].
  clear - Hroot Hid.
  apply safe_try_drop; [by intros []|]. intros e f r f' Ho He. simpl in He.
  rewrite dst_key in He by done. pose proof (proj2 Ho) as Hp.
  destruct r as [[]|].
  2: { apply tf_persist_err in He as ->. exists payload. by apply quiet_refl. }
  rewrite (tf_persist_ok _ _ _ _ _ _ _ Hp He). exists None. split; [done|]. split; [by intros q [=]|].
  split; [|split; [|done]].
  - intros q n Hq Hne Hf. assert (q <> p) by (intros ->; by apply Hne).
    rewrite lookup_insert_ne by (apply not_eq_sym; by apply block_key_not_temp).
    by rewrite lookup_delete_ne.
  - split; unfold view_of; [apply lookup_insert_eq|]. intros id' Hid' Hne.
    rewrite lookup_insert_ne by (intros Heq%block_key_inj; congruence).
    rewrite lookup_delete_ne; [done|]. apply block_key_not_temp; [done|apply Ho].
Qed.

Lemma get_safe id : block_id_wf id -> safe ObsBytes (OpGet id) None (run_get root id).
Proof.
  intros Hid e f r f' _ He. exists None.
  pose proof (get_wp root Hroot any_env id f Hid e r f' I He) as Hw. simpl in He. simplify_eq.
  split; [done|]. split; [by left|]. split; [by apply kept_refl|]. split; [|done].
  simpl in Hw |- *. destruct Hw as [_ Hw]. unfold stored_fs in Hw. unfold view_of.
  destruct (fs_read _ _ _) as [b|[]]; repeat case_match; simplify_eq/=;
    eauto using agree_refl.
Qed.

Lemma delete_safe id : block_id_wf id -> safe ObsUnit (OpDelete id) None (run_delete root id).
Proof.
  intros Hid e f r f' _ He. exists None.
  pose proof (delete_wp root Hroot any_env id f Hid e r f' I He) as Hw. simpl in Hw |- *.
  split; [done|]. split; [by left|].
  assert (forall id', block_id_wf id' -> id' <> id ->
    delete (block_key root id) f !! block_key root id' = f !! block_key root id') as Hne.
  { intros. rewrite lookup_delete_ne; [done|]. intros Heq%block_key_inj; congruence. }
  split.
  - intros q n Hq _ Hf. assert (block_key root id <> q) by (apply not_eq_sym; by apply block_key_not_temp).
    repeat case_match; simplify_eq; destruct Hw as [-> _]; by rewrite ?lookup_delete_ne.
  - split; [|done]. repeat case_match; simplify_eq; destruct Hw as [-> Hw]; try done;
      try (by destruct Hw); split; unfold view_of; auto using lookup_delete_eq.
Qed.

Lemma exists_safe id : block_id_wf id -> safe ObsBool (OpExists id) None (run_exists root id).
Proof.
  intros Hid e f r f' _ He. exists None.
  pose proof (exists_wp root Hroot any_env id f Hid e r f' I He) as Hw. simpl in He. simplify_eq.
  split; [done|]. split; [by left|]. split; [by apply kept_refl|]. split; [|done].
  simpl in Hw |- *. destruct Hw as [_ Hw]. unfold view_of.
  repeat case_match; simplify_eq/=;
    eauto using agree_refl; by destruct Hw.
Qed.
End safe.

(** ** The simulation *)

Section simulation.
Context `{TempfileCrate} (root : string) (Hroot : root <> "").
Context (ops : list op) (Hops : Forall (fun o => block_id_wf (op_id o)) ops).

Definition ownership : Type := nat -> option (path * bytes).

Definition inv (own : ownership) (f : fs) (ts : list (prog obs)) : Prop :=
  length ts = length ops
  /\ (forall i, owns (own i) f)
  /\ (forall i j p, owned (own i) p -> owned (own j) p -> i = j)
  /\ (forall i o p, ops !! i = Some o -> ts !! i = Some p -> safe root id o (own i) p).

Lemma op_safe o : block_id_wf (op_id o) -> safe root id o None (op_prog root o).
Proof.
  destruct o; simpl op_id; intros Hid; apply safe_map; auto using put_safe, get_safe,
    delete_safe, exists_safe.
Qed.

Lemma inv_init f : inv (fun _ => None) f (op_prog root <$> ops).
Proof.
  split; [by rewrite length_fmap|]. split; [done|]. split; [done|].
  intros i o p Ho Hp. rewrite list_lookup_fmap, Ho in Hp. simplify_eq/=.
  apply op_safe. by eapply (list.Forall_lookup_1 _ _ _ _ Hops).
Qed.

Definition upd_own (own : ownership) (i : nat) (x : option (path * bytes)) : ownership :=
  fun j => if decide (j = i) then x else own j.

Lemma kept_owns own i f f' own' :
  (forall j, owns (own j) f) -> (forall i j p, owned (own i) p -> owned (own j) p -> i = j) ->
  owns own' f' -> others_kept (own i) f f' -> forall j, owns (upd_own own i own' j) f'.
Proof.
  intros Ho Hd Hown' Hk j. unfold upd_own. case_decide as Hji; [done|].
  specialize (Ho j). destruct (own j) as [[p c]|] eqn:Hj; [|done]. destruct Ho as [Ht Hp].
  split; [done|]. apply Hk; [done| |done]. intros Hi. apply Hji, (Hd j i p); [|done].
  by rewrite Hj.
Qed.

Lemma upd_disjoint own i f own' :
  (forall j, owns (own j) f) -> (forall i j p, owned (own i) p -> owned (own j) p -> i = j) ->
  own_step (own i) own' f ->
  forall j k p, owned (upd_own own i own' j) p -> owned (upd_own own i own' k) p -> j = k.
Proof.
  intros Ho Hd Hs.
  assert (forall j p, j <> i -> owned own' p -> ~ owned (own j) p) as Hne.
  { intros j p Hj Hp Hoj. destruct (Hs p Hp) as [Hoi|Hn]; [by eauto|].
    specialize (Ho j). unfold owned in Hoj. destruct (own j) as [[q c]|]; [|done].
    simplify_eq/=. destruct Ho; congruence. }
  intros j k p. unfold upd_own. repeat case_decide; subst; try done; intros Hpj Hpk.
  - by destruct (Hne k p).
  - by destruct (Hne j p).
  - by eapply Hd.
Qed.

Lemma inv_step own f ts f' ts' :
  inv own f ts -> step (f, ts) (f', ts') ->
  exists own', inv own' f' ts' /\ exists i o p p', ops !! i = Some o /\ ts !! i = Some p
    /\ is_call p /\ ts' = <[i := p']> ts
    /\ match p' with
       | Ret x => atomic o x (view_of root f) (view_of root f')
       | Sys _ _ => same root f f'
       end.
Proof.
  intros (Hl & Ho & Hd & Hs) Hst. inversion Hst as [f1 ts1 i R c k e r f2 Hi He]; subst.
  destruct (lookup_lt_is_Some_2 ops i) as [o Hoi].
  { rewrite <- Hl. by eapply lookup_lt_Some. }
  destruct (Hs i o _ Hoi Hi e f r f' (Ho i) He) as (own' & H1 & H2 & H3 & H4 & H5).
  exists (upd_own own i own'). split; [|by exists i, o, (Sys c k), (k r)].
  split; [by rewrite length_insert|]. split; [by eapply kept_owns|].
  split; [by eapply upd_disjoint|].
  intros j oj pj Hoj Hpj. unfold upd_own. case_decide as Hji; subst.
  - rewrite list_lookup_insert_eq in Hpj by (by eapply lookup_lt_Some). by simplify_eq.
  - rewrite list_lookup_insert_ne in Hpj by done. by eapply Hs.
Qed.

Lemma status_insert i o p ts :
  ops !! i = Some o ->
  zip_with status ops (<[i := p]> ts) = <[i := status o p]> (zip_with status ops ts).
Proof.
  intros Ho. rewrite insert_zip_with. f_equal. by rewrite list_insert_id.
Qed.

(** The concrete state [s] is matched by a reachable abstract state. *)
Definition simulated (f0 : fs) (s : fs * list (prog obs)) : Prop :=
  (exists own, inv own (fst s) (snd s))
  /\ exists m, rtc abs_step (view_of root f0, Pending <$> ops) (m, zip_with status ops (snd s))
     /\ agree m (view_of root (fst s)).

Lemma simulated_init f0 : simulated f0 (f0, op_prog root <$> ops).
Proof.
  split; [by eexists; apply inv_init|]. exists (view_of root f0). split; [|done]. simpl.
  replace (zip_with status ops (op_prog root <$> ops)) with (Pending <$> ops); [constructor|].
  clear. induction ops as [|o l IH]; [done|].
  rewrite !fmap_cons. simpl zip_with. rewrite IH. by destruct o.
Qed.

Lemma simulated_step f0 s s' : simulated f0 s -> step s s' -> simulated f0 s'.
Proof.
  destruct s as [f1 ts1], s' as [f ts]. intros ([own Hinv] & m & Hm & Ha) Hstep. simpl in *.
  destruct (inv_step _ _ _ _ _ Hinv Hstep)
    as (own' & Hinv' & i & o & p & p' & Hoi & Hpi & Hcall & -> & Hp').
  split; [by eauto|]. simpl.
  assert (zip_with status ops ts1 !! i = Some (Pending o)) as Hpend.
  { rewrite lookup_zip_with, Hoi. simpl. rewrite Hpi. simpl. by destruct p. }
  rewrite (status_insert i o) by done. destruct p' as [x|R c k].
  - exists (view_of root f). split; [|done]. eapply rtc_r; [exact Hm|]. apply (abs_commit _ _ _ _ o); [done|].
    eapply atomic_agree; [|exact Ha|exact Hp']. by eapply (list.Forall_lookup_1 _ _ _ _ Hops).
  - exists m. simpl. rewrite list_insert_id by done. split; [done|].
    intros id' Hid'. rewrite <- (Ha id' Hid'). by apply Hp'.
Qed.

Lemma simulation f0 s : rtc step (f0, op_prog root <$> ops) s -> simulated f0 s.
Proof.
  refine (rtc_ind_r (simulated f0) _ (simulated_init f0) _ s).
  intros y z _ Hst Hy. by eapply simulated_step.
Qed.
End simulation.

(** C14. Storage operations are atomic: for any list of operations started on
    any file system, with their system calls interleaved in any order and any
    faults injected, the results handed out so far and the stored blocks are
    those of a run of the abstract machine in which each completed operation
    happened all at once, at some point between its start and its end. *)
Theorem operations_atomic `{TempfileCrate} (root : string) (ops : list op) (f0 f : fs)
    (ts : list (prog obs)) :
  root <> "" -> Forall (fun o => block_id_wf (op_id o)) ops ->
  rtc step (f0, op_prog root <$> ops) (f, ts) ->
  exists m, rtc abs_step (view_of root f0, Pending <$> ops) (m, zip_with status ops ts)
    /\ (forall id, block_id_wf id -> f !! block_key root id = m id).
Proof. intros Hroot Hops Hrtc. apply (simulation root Hroot ops Hops f0 _ Hrtc). Qed.

(** ** No torn reads *)

(** What a block may hold during a run: the initial node, or the payload of
    one of the puts. *)
Definition origin (m0 : view) (ops : list op) (id : BlockId) (n : node) : Prop :=
  m0 id = Some n \/ exists payload, OpPut id payload ∈ ops /\ n = File mode_file payload.

Lemma abs_origin m0 ops s :
  Forall (fun o => block_id_wf (op_id o)) ops ->
  rtc abs_step (m0, Pending <$> ops) s ->
  (forall id n, block_id_wf id -> fst s id = Some n -> origin m0 ops id n)
  /\ length (snd s) = length ops
  /\ forall i o, ops !! i = Some o ->
       (snd s !! i = Some (Pending o)
        \/ exists x, snd s !! i = Some (Done x) /\
           match o, x with
           | OpGet id, ObsBytes (Ok b) => exists md, origin m0 ops id (File md b)
           | _, _ => True
           end).
Proof.
  intros Hops Hrtc. revert s Hrtc.
  refine (rtc_ind_r _ _ _ _).
  { simpl. split; [intros id n _ Hn; by left|]. split; [by rewrite length_fmap|].
    intros i o Ho. left. by rewrite list_lookup_fmap, Ho. }
  intros s s' _ Hst (Hm & Hl & Hths). destruct Hst as [m m' ths i o x Hi Hat]. simpl in *.
  assert (ops !! i = Some o) as Hoi.
  { destruct (lookup_lt_is_Some_2 ops i) as [o' Ho'].
    { rewrite <- Hl. by eapply lookup_lt_Some. }
    destruct (Hths i o' Ho') as [Hp|(y & Hp & _)]; congruence. }
  assert (block_id_wf (op_id o)) as Hid by (by eapply (list.Forall_lookup_1 _ _ _ _ Hops)).
  split; [|split; [by rewrite length_insert|]].
  - intros id n Hwf Hn. destruct o as [i0 p| | |], x as [[|[]]|[|[]]|[|[]]]; simpl in Hat; try done;
      try (apply (Hm id n Hwf); rewrite <- Hn; symmetry; by apply Hat).
    + destruct Hat as [Hnew Hold]. destruct (decide (id = i0)) as [->|Hne].
      * right. exists p. split; [by eapply list_elem_of_lookup_2|congruence].
      * apply Hm; [done|]. by rewrite <- Hold.
    + destruct Hat as [Hnew Hold]. destruct (decide (id = id0)) as [->|Hne]; [congruence|].
      apply Hm; [done|]. by rewrite <- Hold.
  - intros j oj Hoj. destruct (decide (j = i)) as [->|Hji].
    + right. exists x. rewrite list_lookup_insert_eq by (by eapply lookup_lt_Some).
      split; [done|]. assert (oj = o) as -> by congruence.
      destruct o, x as [|[]|]; try done. simpl in Hat. destruct Hat as [_ [md Hmd]]. eauto.
    + rewrite list_lookup_insert_ne by done. auto.
Qed.

(** An executable scheduler: whose turn it is, and under which environment. *)
Fixpoint schedule `{TempfileCrate} {A} (turns : list (nat * env)) (s : fs * list (prog A)) :
    fs * list (prog A) :=
  match turns with
  | [] => s
  | (i, e) :: rest =>
      match snd s !! i with
      | Some (Sys c k) =>
          let '(r, f') := exec c e (fst s) in schedule rest (f', <[i := k r]> (snd s))
      | _ => schedule rest s
      end
  end.

Lemma schedule_steps `{TempfileCrate} {A} (turns : list (nat * env)) (s : fs * list (prog A)) :
  rtc step s (schedule turns s).
Proof.
  revert s. induction turns as [|[i e] rest IH]; intros [f ts]; simpl; [constructor|].
  destruct (ts !! i) as [[a|R c k]|] eqn:Hi; [apply IH| |apply IH].
  destruct (exec c e f) as [r f'] eqn:He. eapply rtc_l; [by econstructor|apply IH].
Qed.

(** A put and a get of one block; the get is scheduled between the write of
    the temporary file and the rename. *)
Definition sample_ops : list op := [OpPut sample_id (as_bytes "hello"); OpGet sample_id].
Definition sample_turns : list (nat * env) :=
  (fun i => (i, env_ok "x")) <$> [0; 0; 0; 0; 0; 1; 0; 0]%nat.
Definition sample_run : fs * list (prog obs) :=
  schedule sample_turns (sample_fs, op_prog "/r" <$> sample_ops).

Lemma sample_ops_wf : Forall (fun o => block_id_wf (op_id o)) sample_ops.
Proof. repeat constructor; exact sample_id_wf. Qed.

Lemma sample_run_steps : rtc step (sample_fs, op_prog "/r" <$> sample_ops) (fst sample_run, snd sample_run).
Proof. pose proof (schedule_steps sample_turns (sample_fs, op_prog "/r" <$> sample_ops)) as Hs.
  unfold sample_run. by destruct (schedule _ _). Qed.

Lemma operations_atomic_witness :
  zip_with status sample_ops (snd sample_run) = [Done (ObsUnit (Ok ())); Done (ObsBytes (Err SE_NotFound))]
  /\ exists m, rtc abs_step (view_of "/r" sample_fs, Pending <$> sample_ops)
       (m, zip_with status sample_ops (snd sample_run)).
Proof.
  split; [vm_compute; reflexivity|].
  destruct (operations_atomic "/r" sample_ops sample_fs (fst sample_run) (snd sample_run))
    as (m & Hm & _); [done|exact sample_ops_wf|exact sample_run_steps|].
  exists m. exact Hm.
Defined.

(** C15. No torn reads: in any interleaving of storage operations with any
    faults, whatever a completed [get] returns is the complete content the
    block had at the start or the complete payload of one of the puts; and
    the same holds of what is on disk under the block's path at any moment,
    in the middle of a put included. *)
Theorem no_torn_reads `{TempfileCrate} (root : string) (ops : list op) (f0 f : fs)
    (ts : list (prog obs)) (id : BlockId) :
  root <> "" -> Forall (fun o => block_id_wf (op_id o)) ops -> block_id_wf id ->
  rtc step (f0, op_prog root <$> ops) (f, ts) ->
  (forall n, f !! block_key root id = Some n -> origin (view_of root f0) ops id n)
  /\ (forall i b, ops !! i = Some (OpGet id) -> ts !! i = Some (Ret (ObsBytes (Ok b))) ->
        exists md, origin (view_of root f0) ops id (File md b)).
Proof.
  intros Hroot Hops Hid Hrtc.
  destruct (simulation root Hroot ops Hops f0 _ Hrtc) as (_ & m & Hm & Ha). simpl in *.
  destruct (abs_origin _ _ _ Hops Hm) as (Hdisk & _ & Hths). simpl in *. split.
  - intros n Hn. apply Hdisk; [done|]. by rewrite <- (Ha id Hid).
  - intros i b Hoi Hti. destruct (Hths i _ Hoi) as [Hp|(x & Hx & Hg)];
      rewrite lookup_zip_with, Hoi in *; simpl in *; rewrite Hti in *; simplify_eq/=; done.
Qed.

Lemma no_torn_reads_witness :
  (forall n, fst sample_run !! block_key "/r" sample_id = Some n ->
     origin (view_of "/r" sample_fs) sample_ops sample_id n)
  /\ fst sample_run !! block_key "/r" sample_id = Some (File mode_file (as_bytes "hello")).
Proof.
  split; [|vm_compute; reflexivity].
  exact (proj1 (no_torn_reads "/r" sample_ops sample_fs (fst sample_run) (snd sample_run) sample_id
    ltac:(done) sample_ops_wf sample_id_wf sample_run_steps)).
Defined.
