(* ===== verification/LocalFsCalls.v ===== *)
(** * LocalFsCalls: the local provider's operations as the server runs them

    Each operation is a program whose steps are its system calls
    ([storage/local_fs.rs]), so that the operations of concurrent requests
    interleave call by call, with any faults.  The claims of [Linearize] are the
    temporary files: no operation touches those of another.  The provider then
    is a [LinearStorage]: every operation takes effect in one of its calls. *)

From S2P Require Import Prelude RustStd Crates BlockId Fs Instances Jwks ServerConfig Replay Logging.
From S2P Require Import Context Async Linearize Server Http Failure Storage Blocks StorageSpec.
From S2P Require Import LocalFs LocalFsSpec LocalFsAtomic.

Section calls.
Context `{UrlCrate} `{TempfileCrate}.

(** One system call, under the environment of the moment; then the rest. *)
Fixpoint syscalls {A} (p : prog A) : task fs A :=
  match p with
  | Ret a => Async.Done a
  | Sys c k =>
      Atomic (fun e s => let '(r, f) := exec c (at_disk e) (srv_storage s) in Value (r, set_storage f s))
        (fun r => syscalls (k r))
  end.

(** [LocalFsProvider] with its validated root. *)
Definition local_fs_calls (root : string) : AsyncStorage fs := {|
  put_call id payload := syscalls (run_put root id payload);
  get_call id := syscalls (run_get root id);
  delete_call id := syscalls (run_delete root id);
  exists_call id := syscalls (run_exists root id);
|}.
End calls.

Section spec.
Context `{UrlCrate} `{TempfileCrate} (root : string) (Hroot : root <> "").
Implicit Types (s : server fs) (f : fs).

(** ** The claims: temporary files *)

#[export] Instance temp_claims : Claims (server fs).
Proof.
  refine {|
    claim := option (path * bytes);
    nothing := None;
    holds own s := owns own (srv_storage s);
    apart own own' := forall p, owned own p -> ~ owned own' p;
    moves own own' s s' := own_step own own' (srv_storage s) /\ others_kept own (srv_storage s) (srv_storage s');
  |}.
  - done.
  - intros c p _. done.
  - intros c d Hcd p Hd Hc. by apply (Hcd p).
  - intros c c' d s s' [Hstep Hkept] Hcd Hd. split.
    + destruct d as [[p content]|]; [|done]. destruct Hd as [Ht Hp]. split; [done|].
      apply Hkept; [done| |done]. intros Hc. by apply (Hcd p Hc).
    + intros p Hc' Hdp. destruct (Hstep p Hc') as [Hc|Hn]; [by apply (Hcd p)|].
      destruct d as [[q content]|]; [|done]. injection Hdp as ->. destruct Hd as [_ Hp]. congruence.
Defined.

(** ** Operations *)

Definition blocks_of f : vault := stored_fs root f.

Abbreviation seen := (StorageSpec.view blocks_of).

Lemma same_untouched s f : same root (srv_storage s) f -> untouched seen s (set_storage f s).
Proof. intros Hs id Hid. unfold StorageSpec.view, blocks_of. by apply (same_stored_fs root). Qed.

(** A program that is safe call by call takes effect once. *)
Lemma safe_once {A} (g : A -> obs) o own (p : prog A) (spec : vault -> A -> vault -> Prop) :
  (forall x f f', atomic o (g x) (view_of root f) (view_of root f') -> spec (blocks_of f) x (blocks_of f')) ->
  is_call p -> safe root g o own p -> once seen spec own (syscalls p).
Proof.
  intros Hspec. revert own. induction p as [a|R c k IH]; intros own Hc Hs; [done|].
  intros e s r s' Hown Ha. destruct (exec c (at_disk e) (srv_storage s)) as [r' f'] eqn:He.
  injection Ha as <- <-. destruct (Hs _ _ _ _ Hown He) as (own' & H1 & H2 & H3 & H4 & H5).
  exists own'. split; [done|]. split; [done|]. destruct (k r') as [x|R' c' k'] eqn:Hk.
  - right. exists x. split; [by apply Hspec|done].
  - left. split; [by apply same_untouched|]. specialize (IH r'). rewrite Hk in IH. by apply IH.
Qed.

(** The abstract operations of [LocalFsAtomic] on the stored bytes. *)
Lemma agree_blocks f f' : agree (view_of root f) (view_of root f') -> blocks_of f ≡ blocks_of f'.
Proof.
  intros Ha id Hid. unfold blocks_of, stored_fs. specialize (Ha id Hid). unfold view_of in Ha. by rewrite Ha.
Qed.

Lemma updated_blocks f f' id v :
  updated (view_of root f) id v (view_of root f') ->
  write id (v ≫= fun n => match n with File _ c => Some c | Dir _ => None end) (blocks_of f) ≡ blocks_of f'.
Proof.
  intros [Hv Hne] id' Hid'. unfold write, blocks_of, stored_fs, view_of in *. case_decide as Hd.
  - rewrite Hd, Hv. by destruct v as [[]|].
  - by rewrite (Hne id').
Qed.

Lemma syscalls_inert s s' : srv_storage s' = srv_storage s -> inert seen s s'.
Proof.
  intros Hs. split; [unfold untouched, StorageSpec.view; by rewrite Hs|].
  intros c Hc. simpl. rewrite Hs. split; [done|]. split; [by left|by intros q n].
Qed.

#[export] Instance local_fs_linear : LinearStorage blocks_of (local_fs_calls root) temp_claims.
Proof.
  split.
  - apply syscalls_inert.
  - intros id d Hid. eapply safe_once; [|done|by apply put_safe]. intros [[]|[|c k]] f f'; simpl; try done.
    + intros Hu. left. split; [done|]. by apply updated_blocks in Hu.
    + intros Ha. right. split; [eauto|by apply agree_blocks].
  - intros id Hid. eapply safe_once; [|done|by apply get_safe]. intros [b|[|c k]] f f'; simpl; try done.
    + intros [Ha [m Hm]]. split; [by apply agree_blocks|]. unfold blocks_of, stored_fs. unfold view_of in Hm. by rewrite Hm.
    + intros [Ha Hn]. split; [by apply agree_blocks|]. unfold blocks_of, stored_fs. unfold view_of in Hn. by rewrite Hn.
    + intros Ha. split; [by apply agree_blocks|done].
  - intros id Hid. eapply safe_once; [|done|by apply delete_safe]. intros [[]|[|c k]] f f'; simpl; try done.
    + intros Hu. left. split; [done|]. by apply updated_blocks in Hu.
    + intros Ha. right. split; [eauto|by apply agree_blocks].
Qed.

(** ** Length *)

Fixpoint at_most {A} (n : nat) (p : prog A) : Prop :=
  match p with
  | Ret _ => True
  | Sys c k => match n with O => False | S n => forall r, at_most n (k r) end
  end.

Lemma syscalls_end {A} n (p : prog A) :
  at_most n p -> ends (fun _ : senv => True) only_storage n (fun _ => True) (syscalls p).
Proof.
  revert n. induction p as [a|R c k IH]; intros [|n]; simpl; [done..|]. intros Hk.
  split; [|by intros r; apply IH]. split; [intros e s _; by destruct (exec _ _ _)|].
  intros e s r s' Ha. destruct (exec _ _ _) as [r' f]. injection Ha as _ <-. by exists f.
Qed.

(** A put takes seven calls, and one more to drop the temporary file. *)
#[export] Instance local_fs_steps : StorageSteps (local_fs_calls root) 8.
Proof.
  split; intros; apply syscalls_end; cbn [at_most run_put run_get run_delete run_exists try_call try_call_drop];
    repeat (intros []; cbn [at_most try_call try_call_drop]); auto.
Qed.
End spec.
