(* ===== verification/Shutdown.v ===== *)
(** * Shutdown: signal handlers and the shutdown broadcast

    [shutdown/mod.rs].  The two channels the shutdown future feeds are values
    of the serving state in [App]: the watch the background tasks subscribe
    to, and the notification that arms the drain timer. *)

From S2P Require Import Prelude RustStd Logging.

(** The kinds [tokio::signal] is asked for. *)
Inductive SignalKind : Type := Interrupt | Terminate | Hangup.

Global Instance SignalKind_eq_dec : EqDecision SignalKind.
Proof. solve_decision. Defined.

(** [Duration::as_secs]. *)
Definition as_secs (d : N) : N := d / nanos_per_sec.

Section shutdown.
(** [tokio::signal::unix::Signal], and the call that installs a handler. *)
Context {Signal : Type} (signal : SignalKind -> result ErrorKind Signal).

Record InstalledSignals := { sigint : Signal; sigterm : Signal; sighup : Signal }.

Definition install_signals : result ErrorKind InstalledSignals :=
  let? sigint := signal Interrupt in
  let? sigterm := signal Terminate in
  let? sighup := signal Hangup in
  Ok {| sigint := sigint; sigterm := sigterm; sighup := sighup |}.
End shutdown.
Arguments InstalledSignals Signal : clear implicits.

(** [wait_for_signal], once the stream of [fired] delivers. *)
Definition wait_for_signal (fired : SignalKind) (drain_timeout : N) : list Event :=
  let signal_name := match fired with
    | Interrupt => "SIGINT"
    | Terminate => "SIGTERM"
    | Hangup => "SIGHUP"
    end in
  [ServerShutdownInitiated signal_name (as_secs drain_timeout)].

Definition signal_listener_from_channel (drain_timeout : N) : list Event :=
  [ServerShutdownInitiated "test_trigger" (as_secs drain_timeout)].

(** The future of [shutdown_coordinator]: the event, then the watch flips. *)
Definition shutdown_coordinator (fired : SignalKind) (drain_timeout : N) (watch : bool) :
    list Event * bool :=
  (wait_for_signal fired drain_timeout, true).

(** The watch's value before. *)
Definition watch_initial : bool := false.
