(* ===== verification/App.v ===== *)
(** * App: the bootstrap and the serve loop

    [app.rs], [storage::init_from_config] and [main.rs].  [bootstrap] is
    [app::run] up to its last line as a program over the process: its steps
    read the operating system and append to the list of effects an observer
    sees.  [serve_with_shutdown_inner] is the last line, a state machine driven
    by the wake-ups of its [select!] and [timeout]. *)

From S2P Require Import Prelude RustStd Tasks Crates Crypto Fs BlockId Jwks ServerConfig Config.
From S2P Require Import Replay Logging.
From S2P Require Import Context Async Server Http ProxyTrust Refresh Token Dpop Middleware Storage.
From S2P Require Import Blocks Routes LocalFs LocalFsCalls Shutdown.

(** [reqwest]: certificates, clients and the builder's settings. *)
Inductive RedirectPolicy : Type := PolicyNone | PolicyLimited (n : N).

Record ClientBuilder (Certificate : Type) := {
  cb_timeout_secs : N;
  cb_redirect : RedirectPolicy;
  cb_root_certificates : list Certificate;
}.
Arguments cb_timeout_secs {Certificate} c.
Arguments cb_redirect {Certificate} c.
Arguments cb_root_certificates {Certificate} c.

Class ReqwestCrate := {
  Certificate : Type;
  Certificate_from_pem : bytes -> result string Certificate;
  Client : Type;
  ClientBuilder_build : ClientBuilder Certificate -> result string Client;
}.

Definition add_root_certificate {C} (cert : C) (b : ClientBuilder C) : ClientBuilder C :=
  {| cb_timeout_secs := cb_timeout_secs b; cb_redirect := cb_redirect b;
     cb_root_certificates := cb_root_certificates b ++ [cert] |}.

(** [tokio::time]: the moment [timeout(d, _)] armed at [now] elapses, which is
    documented to be [now + d] at millisecond granularity. *)
Class TokioTimeCrate `{InstantRange} := {
  deadline_after : N -> N -> N;
  deadline_after_law now d : now + d <= instant_max ->
    now + d <= deadline_after now d <= now + d + 1000000;
}.

(** What [AppError::Auth] reports; the code keeps only the message, which
    displays these. *)
Inductive AuthStartup : Type :=
  | ExtraCa (e : ExtraCaError)
  | ExtraCaPem (path message : string)
  | ClientBuild (message : string)
  | ContextInit (e : ContextInitError).

Inductive AppError : Type :=
  | Config (e : ConfigError)
  | Bind (at_addr : SocketAddr) (source : ErrorKind)
  | SignalSetup (source : ErrorKind)
  | Serve (source : ErrorKind)
  | Auth (cause : AuthStartup)
  | Storage (e : StorageInitError).

(** ** The serve loop *)

Section serve.
Context `{TokioTimeCrate}.

Inductive Phase : Type :=
  | Serving
  | Draining (deadline : N)
  | Finished (r : result AppError unit).

(** [drain_started]: the [oneshot]; [watch]: the background tasks' channel. *)
Record Loop := {
  phase : Phase;
  drain_started : bool;
  watch : bool;
  loop_log : list Event;
}.

(** A wake-up of the process: the shutdown future resolves with a signal; or
    the serving task is polled at some time, finding [axum]'s future complete
    or not.  [serve_first] is the branch [select!] tries first. *)
Inductive Wakeup : Type :=
  | ShutdownFired (fired : SignalKind)
  | Poll (now : N) (serve_fut : option (result ErrorKind unit)) (serve_first : bool).

Definition finish (clean : bool) (r : result AppError unit) (l : Loop) : Loop :=
  {| phase := Finished r; drain_started := drain_started l; watch := watch l;
     loop_log := loop_log l ++ [ServerShutdownCompleted clean] |}.

Definition in_phase (p : Phase) (l : Loop) : Loop :=
  {| phase := p; drain_started := drain_started l; watch := watch l; loop_log := loop_log l |}.

(** The serve future's result, in either phase. *)
Definition serve_result (r : result ErrorKind unit) (l : Loop) : Loop :=
  match r with
  | Ok _ => finish true (Ok ()) l
  | Err e => finish false (Err (Serve e)) l
  end.

(** [timeout(drain_timeout, &mut serve_fut)] polls the future before the timer. *)
Definition drain (deadline now : N) (serve_fut : option (result ErrorKind unit)) (l : Loop) : Loop :=
  match serve_fut with
  | Some r => serve_result r l
  | None => if deadline <=? now then finish false (Ok ()) l else in_phase (Draining deadline) l
  end.

Definition serve_step (drain_timeout : N) (w : Wakeup) (l : Loop) : Loop :=
  match phase l, w with
  | Finished _, _ => l
  | _, ShutdownFired fired =>
      if drain_started l then l else
      let '(events, watch') := shutdown_coordinator fired drain_timeout (watch l) in
      {| phase := phase l; drain_started := true; watch := watch'; loop_log := loop_log l ++ events |}
  | Serving, Poll now serve_fut serve_first =>
      match serve_fut with
      | Some r => if serve_first || negb (drain_started l) then serve_result r l
                  else drain (deadline_after now drain_timeout) now serve_fut l
      | None => if drain_started l then drain (deadline_after now drain_timeout) now serve_fut l else l
      end
  | Draining deadline, Poll now serve_fut _ => drain deadline now serve_fut l
  end.

Definition loop_start : Loop :=
  {| phase := Serving; drain_started := false; watch := watch_initial; loop_log := [] |}.

Definition serve_with_shutdown_inner (drain_timeout : N) (wakeups : list Wakeup) : Loop :=
  fold_left (fun l w => serve_step drain_timeout w l) wakeups loop_start.

(** [main]: the exit code. *)
Definition exit_code (r : result AppError unit) : N := match r with Ok _ => 0 | Err _ => 1 end.

Definition main_exit (runtime : result ErrorKind unit) (run : result AppError unit) : N :=
  match runtime with Ok _ => exit_code run | Err _ => 1 end.
End serve.

(** ** The bootstrap *)

Section bootstrap.
Context `{Sha2Crate} `{Base64Crate} `{SubtleCrate} `{UrlCrate} `{IpnetCrate} `{SerdeCrate} `{HttpCrate}.
Context `{JwtCrate} `{!JwtDecode TokenClaims} `{!JwtDecode DpopClaims} `{InstantRange}.
Context `{JsonCrate} `{RouterCrate} `{Target} `{TempfileCrate} `{ReqwestCrate}.
Context {Listener Signal : Type}.

(** What the bootstrap asks of its surroundings. *)
Record Os := {
  env_vars_os : list os_var;
  env_var_os : string -> option string;
  os_read_to_string : string -> result ErrorKind string;
  os_toml_from_str : string -> option PartialConfig;
  os_read : string -> result ErrorKind bytes;
  os_exchange : Client -> Url -> HttpReply;
  os_bind : SocketAddr -> result ErrorKind Listener;
  os_local_addr : Listener -> result ErrorKind SocketAddr;
  os_signal : SignalKind -> result ErrorKind Signal;
}.

Inductive TaskName : Type :=
  | JwksRefresh (t : AudienceTag)
  | DiscoveryRefresh (t : AudienceTag)
  | ReplayCleanup.

#[global] Instance TaskName_eq_dec : EqDecision TaskName.
Proof. solve_decision. Defined.

(** What an observer sees, in order. *)
Inductive Effect : Type :=
  | Logged (e : Event)
  | AddedRootCa (path : string)
  | BoundListener (at_addr : SocketAddr)
  | HandlersInstalled
  | Spawned (t : TaskName).

Record Process := { effects : list Effect; disk : LocalFsState }.

Abbreviation startup A := (async Os Process A).

Definition effect (x : Effect) : startup unit :=
  atomic (fun _ p => Value ((), {| effects := effects p ++ [x]; disk := disk p |})).

Definition ask {A} (f : Os -> outcome A) : startup A :=
  atomic (fun os p => let! a := f os in Value (a, p)).

(** [storage::init_from_config]. *)
Definition init_from_config (cfg : ServerConfig) :
    startup (result StorageInitError (option (AsyncStorage fs))) :=
  match storage_backend cfg with
  | NoBackend => Done (Ok None)
  | LocalFsBackend root =>
      let*? _u := atomic (fun _ p =>
        let '(r, d) := init root (disk p) in
        Value (r, {| effects := effects p; disk := d |})) in
      Done (Ok (Some (local_fs_calls root)))
  end.

(** What [run] hands to the serve loop. *)
Record Running := {
  state : AppState;
  run_contexts : contexts;
  replay_store : JtiReplayStore;
  storage_provider : option (AsyncStorage fs);
  listener : Listener;
  local_addr : SocketAddr;
  signals : InstalledSignals Signal;
  run_drain_timeout : N;
}.

Definition http_client_builder : ClientBuilder Certificate :=
  {| cb_timeout_secs := 30; cb_redirect := PolicyNone; cb_root_certificates := [] |}.

(** The optional extra root certificate. *)
Definition trust_extra_ca (builder : ClientBuilder Certificate) :
    startup (result AppError (ClientBuilder Certificate)) :=
  let*? extra := ask (fun os => Value (map_err (fun e => Auth (ExtraCa e))
    (load_optional_pem (env_var_os os "APOK_EXTRA_CA_CERT_FILE") (os_read os)))) in
  match extra with
  | None => Done (Ok builder)
  | Some (path, pem) =>
      let*? cert := Done (map_err (fun e => Auth (ExtraCaPem path e)) (Certificate_from_pem pem)) in
      let* _u := effect (AddedRootCa path) in
      Done (Ok (add_root_certificate cert builder))
  end.

(** Storage, with its two startup events. *)
Definition init_storage (cfg : ServerConfig) :
    startup (result AppError (option (AsyncStorage fs))) :=
  let* r := init_from_config cfg in
  match r with
  | Ok opt =>
      let* _u := match storage_backend cfg with
                 | LocalFsBackend root => effect (Logged (StorageStartupReady root))
                 | NoBackend => Done ()
                 end in
      Done (Ok opt)
  | Err e =>
      let* _u := effect (Logged (StorageStartupFailed (init_root_path e) (init_step e) (init_cause e))) in
      Done (Err (Storage e))
  end.

Definition bind_listener (bind_addr : SocketAddr) : startup (result AppError (Listener * SocketAddr)) :=
  let*? listener := ask (fun os => Value (map_err (Bind bind_addr) (os_bind os bind_addr))) in
  let* _u := effect (BoundListener bind_addr) in
  let*? local_addr := ask (fun os => Value (map_err (Bind bind_addr) (os_local_addr os listener))) in
  Done (Ok (listener, local_addr)).

Definition install_handlers : startup (result AppError (InstalledSignals Signal)) :=
  let*? signals := ask (fun os => Value (map_err SignalSetup (install_signals (os_signal os)))) in
  let* _u := effect HandlersInstalled in
  Done (Ok signals).

Fixpoint spawn_all (tasks : list TaskName) : startup unit :=
  match tasks with
  | [] => Done ()
  | t :: tasks => let* _u := effect (Spawned t) in spawn_all tasks
  end.

Definition background_tasks : list TaskName :=
  [JwksRefresh Vault; JwksRefresh Admin; DiscoveryRefresh Vault; DiscoveryRefresh Admin; ReplayCleanup].

(** [app::run], up to [serve_with_shutdown]. *)
Definition bootstrap : startup (result AppError Running) :=
  let*? cfg := ask (fun os => let! r := Config.load (os_read_to_string os) (os_toml_from_str os) (env_vars_os os) in
                              Value (map_err Config r)) in
  let bind_addr := bind_address cfg in
  let drain_timeout := drain_timeout cfg in
  let auth_cfg := auth cfg in
  let*? builder := trust_extra_ca http_client_builder in
  let*? http_client := Done (map_err (fun e => Auth (ClientBuild e)) (ClientBuilder_build builder)) in
  let*? ctxs := ask (fun os => let! r := init_contexts cfg (os_exchange os http_client) in
                               Value (map_err (fun e => Auth (ContextInit e)) r)) in
  let*? storage_provider := init_storage cfg in
  let replay_store := new auth_cfg in
  let state := {| Routes.config := cfg |} in
  let*? bound := bind_listener bind_addr in
  let '(listener, local_addr) := bound in
  let*? signals := install_handlers in
  let* _u := spawn_all background_tasks in
  let* _u := effect (Logged (ServerStarted local_addr)) in
  Done (Ok {| state := state; run_contexts := ctxs; replay_store := replay_store;
              storage_provider := storage_provider; listener := listener; local_addr := local_addr;
              signals := signals; run_drain_timeout := drain_timeout |}).

(** The service [run] serves, and the shared state it starts from. *)
Definition run_router (r : Running) : Request -> task fs Response :=
  build_router (state r) (run_contexts r !! Vault) (run_contexts r !! Admin) (Some ()) (storage_provider r).

Definition initial_server (r : Running) (p : Process) : server fs :=
  {| srv_contexts := run_contexts r; srv_replay := replay_store r; srv_storage := lf_fs (disk p);
     srv_log := omap (fun x => match x with Logged e => Some e | _ => None end) (effects p);
     srv_sent := [] |}.
End bootstrap.

Section run.
Context `{Sha2Crate} `{Base64Crate} `{SubtleCrate} `{UrlCrate} `{IpnetCrate} `{SerdeCrate} `{HttpCrate}.
Context `{JwtCrate} `{!JwtDecode TokenClaims} `{!JwtDecode DpopClaims} `{TokioTimeCrate}.
Context `{JsonCrate} `{RouterCrate} `{Target} `{TempfileCrate} `{ReqwestCrate}.
Context {Listener Signal : Type}.

(** [app::run]: its result, if it has one yet, and the lifecycle events. *)
Definition run_app (o : schedule (Os (Listener := Listener) (Signal := Signal)) Process) (p : Process)
    (wakeups : list Wakeup) : outcome (option (result AppError unit) * list Effect) :=
  match block_on bootstrap o p with
  | Panic => Panic
  | Value (Err e, p', _) => Value (Some (Err e), effects p')
  | Value (Ok running, p', _) =>
      let l := serve_with_shutdown_inner (run_drain_timeout running) wakeups in
      Value (match phase l with Finished r => Some r | _ => None end,
             effects p' ++ (Logged <$> loop_log l))
  end.

(** ** The process and its background tasks

    One timeline of the process: wake-ups of the serve loop and interval ticks
    of the tasks. *)
Inductive Moment : Type :=
  | Wake (w : Wakeup)
  | Tick (t : TaskName) (now : N).

Definition wakeups_of (timeline : list Moment) : list Wakeup :=
  omap (fun m => match m with Wake w => Some w | Tick _ _ => None end) timeline.

(** What the task [t], holding a clone of the watch, gets to see. *)
Fixpoint task_events (drain_timeout : N) (t : TaskName) (timeline : list Moment) (l : Loop) :
    list TaskEvent :=
  match timeline with
  | [] => []
  | Tick t' now :: timeline =>
      if bool_decide (t = t') then TickAt now :: task_events drain_timeout t timeline l
      else task_events drain_timeout t timeline l
  | Wake w :: timeline =>
      let l' := serve_step drain_timeout w l in
      if bool_decide (watch l = watch l') then task_events drain_timeout t timeline l'
      else ShutdownChanged (watch l') :: task_events drain_timeout t timeline l'
  end.

(** A spawned task: the watch's value when it starts is the initial one, and
    its interval ticks at once. *)
Definition spawned_task {S} (body : N -> S -> outcome S) (drain_timeout : N) (t : TaskName)
    (first_tick : N) (timeline : list Moment) (s : S) : task_status * S :=
  run_task body watch_initial (TickAt first_tick :: task_events drain_timeout t timeline loop_start) s.
End run.
