(* ===== verification/AppSpec.v ===== *)
(** * AppSpec: startup establishes every invariant, shutdown always ends *)

From S2P Require Import Prelude RustStd Tasks Crates Crypto Fs Instances BlockId Jwks ServerConfig Config.
From S2P Require Import ConfigSpec.
From S2P Require Import Replay ReplaySpec Logging Context Async Server Http ProxyTrust Fixtures ContextSpec.
From S2P Require Import Refresh Token Dpop AuthFixtures Middleware Storage Blocks Routes LocalFs.
From S2P Require Import LocalFsCalls Shutdown App.

(** ** The serve loop *)

Section serve.
Context `{TokioTimeCrate} (drain_timeout : N).

Abbreviation step := (serve_step drain_timeout).
Abbreviation serve_loop := (serve_with_shutdown_inner drain_timeout).

(** A drain deadline armed by a poll that came after a signal. *)
Definition armed (ws : list Wakeup) (deadline : N) : Prop :=
  exists w1 fired w2 t serve_fut first w3,
    ws = w1 ++ ShutdownFired fired :: w2 ++ Poll t serve_fut first :: w3
    /\ deadline = deadline_after t drain_timeout.

(** The three ways the loop can end, with the [drained_cleanly] it reports. *)
Inductive ended (ws : list Wakeup) : result AppError unit -> bool -> Prop :=
  | ended_drained t first :
      Poll t (Some (Ok ())) first ∈ ws -> ended ws (Ok ()) true
  | ended_broken t first e :
      Poll t (Some (Err e)) first ∈ ws -> ended ws (Err (Serve e)) false
  | ended_forced ws1 t first ws2 deadline :
      ws = ws1 ++ Poll t None first :: ws2 ->
      armed (ws1 ++ [Poll t None first]) deadline -> deadline <= t -> ended ws (Ok ()) false.

(** The watch and the [server.shutdown.initiated] event tell whether the
    signal has come. *)
Definition signalled (ws : list Wakeup) (l : Loop) (initiated : list Event) : Prop :=
  watch l = drain_started l
  /\ if drain_started l
     then exists fired, ShutdownFired fired ∈ ws /\ initiated = wait_for_signal fired drain_timeout
     else initiated = [].

Definition loop_ok (ws : list Wakeup) (l : Loop) : Prop :=
  exists initiated, signalled ws l initiated
    /\ match phase l with
       | Serving => loop_log l = initiated
       | Draining deadline => loop_log l = initiated /\ drain_started l = true /\ armed ws deadline
       | Finished r => exists clean,
           loop_log l = initiated ++ [ServerShutdownCompleted clean] /\ ended ws r clean
       end.

Lemma serve_loop_snoc ws w : serve_loop (ws ++ [w]) = step w (serve_loop ws).
Proof. unfold serve_with_shutdown_inner. by rewrite fold_left_app. Qed.

Lemma armed_snoc ws w d : armed ws d -> armed (ws ++ [w]) d.
Proof.
  intros (w1 & k & w2 & t & sf & b & w3 & -> & ->). exists w1, k, w2, t, sf, b, (w3 ++ [w]). split; [|done].
  by rewrite <- app_assoc, app_comm_cons, <- app_assoc.
Qed.

Lemma ended_snoc ws w r c : ended ws r c -> ended (ws ++ [w]) r c.
Proof.
  intros [t b Hin|t b e Hin|ws1 t b ws2 d -> Ha Hd].
  - apply (ended_drained _ t b), elem_of_app. by left.
  - apply (ended_broken _ t b), elem_of_app. by left.
  - apply (ended_forced _ ws1 t b (ws2 ++ [w]) d); [by rewrite <- app_assoc|done|done].
Qed.

(** A poll after the signal arms the deadline. *)
Lemma armed_now ws fired t serve_fut first :
  ShutdownFired fired ∈ ws -> armed (ws ++ [Poll t serve_fut first]) (deadline_after t drain_timeout).
Proof.
  intros (w1 & w2 & ->)%list_elem_of_split. exists w1, fired, w2, t, serve_fut, first, [].
  split; [|done]. by rewrite <- app_assoc.
Qed.

Lemma elem_snoc (w : Wakeup) ws : w ∈ ws ++ [w].
Proof. apply elem_of_app. right. by left. Qed.

Lemma signalled_snoc ws w l ini : signalled ws l ini -> signalled (ws ++ [w]) l ini.
Proof.
  intros [Hw Hd]. split; [done|]. destruct (drain_started l); [|done].
  destruct Hd as (k & Hk & ->). exists k. split; [|done]. apply elem_of_app. by left.
Qed.

Lemma serve_result_ok ws ini l t r b :
  signalled ws l ini -> loop_log l = ini -> loop_ok (ws ++ [Poll t (Some r) b]) (serve_result r l).
Proof.
  intros Hs Hl. exists ini. apply (signalled_snoc _ (Poll t (Some r) b)) in Hs. pose proof (elem_snoc (Poll t (Some r) b) ws).
  destruct r as [[]|e]; (split; [exact Hs|]); simpl; rewrite Hl; eexists; (split; [done|]);
    econstructor; eassumption.
Qed.

Lemma drain_ok ws ini l t sf b d :
  signalled ws l ini -> loop_log l = ini -> drain_started l = true -> armed (ws ++ [Poll t sf b]) d ->
  loop_ok (ws ++ [Poll t sf b]) (drain d t sf l).
Proof.
  intros Hs Hl Hd Ha. destruct sf as [r|]; [by eapply serve_result_ok|]. simpl.
  exists ini. split; [by destruct (d <=? t); apply signalled_snoc|].
  destruct (N.leb_spec d t); simpl; [|done]. rewrite Hl. exists false. split; [done|].
  by apply (ended_forced _ ws t b [] d).
Qed.

Lemma serve_step_ok ws w l : loop_ok ws l -> loop_ok (ws ++ [w]) (step w l).
Proof.
  intros (ini & Hs & Hph). destruct w as [fired|t sf b]; unfold serve_step.
  - destruct (phase l) eqn:Hp.
    3: { exists ini. split; [by apply signalled_snoc|]. rewrite Hp. destruct Hph as (c & ? & ?).
         eauto using ended_snoc. }
    all: destruct (drain_started l) eqn:Hd.
    all: try (exists ini; split; [by apply signalled_snoc|]; rewrite Hp; naive_solver eauto using armed_snoc).
    all: try (destruct Hph as (_ & ? & _); congruence).
    simpl. destruct Hs as [Hw Hi]. rewrite Hd in Hi. subst ini.
    exists (wait_for_signal fired drain_timeout). split; [|by rewrite Hph].
    split; [done|]. exists fired. by split; [apply elem_snoc|].
  - destruct (phase l) as [|d|r] eqn:Hp.
    3: { exists ini. split; [by apply signalled_snoc|]. rewrite Hp. destruct Hph as (c & ? & ?).
         eauto using ended_snoc. }
    + destruct (drain_started l) eqn:Hd.
      * assert (armed (ws ++ [Poll t sf b]) (deadline_after t drain_timeout)) as Ha.
        { destruct Hs as [_ Hi]. rewrite Hd in Hi. destruct Hi as (k & Hk & _). by eapply armed_now. }
        destruct sf as [r|]; [destruct b|]; simpl;
          [by eapply serve_result_ok|by eapply (drain_ok _ _ _ _ (Some r))|by eapply (drain_ok _ _ _ _ None)].
      * destruct sf as [r|]; [rewrite orb_true_r; by eapply serve_result_ok|].
        exists ini. split; [by apply signalled_snoc|]. by rewrite Hp.
    + destruct Hph as (Hl & Hd & Ha). eapply drain_ok; eauto using armed_snoc.
Qed.

Lemma serve_loop_ok ws : loop_ok ws (serve_loop ws).
Proof.
  induction ws as [|w ws IH] using rev_ind.
  - exists []. by split.
  - rewrite serve_loop_snoc. by apply serve_step_ok.
Qed.

Lemma finished_ended ws r : phase (serve_loop ws) = Finished r -> exists clean, ended ws r clean.
Proof.
  intros Hr. destruct (serve_loop_ok ws) as (ini & _ & Hp). rewrite Hr in Hp. destruct Hp as (c & _ & He). eauto.
Qed.

(** C22. [server.shutdown.completed] is emitted exactly once, when the server
    ends.  For every sequence of wake-ups, in any order and with either choice
    of [select!]: before the end the log holds nothing but, once a signal has
    come, its [server.shutdown.initiated] event (at which point the background
    tasks' watch is true); at the end exactly one [server.shutdown.completed]
    follows, clean if and only if [axum] finished without error; an error of
    [axum] is the server's result; and a forced end happens only at a drain
    deadline that was armed by a poll after the signal. *)
Theorem shutdown_completed_once (ws : list Wakeup) : loop_ok ws (serve_loop ws).
Proof. apply serve_loop_ok. Qed.

(** ** The loop ends *)

Definition finished (l : Loop) : Prop := exists r, phase l = Finished r.

Lemma finished_fixed ws l : finished l -> fold_left (fun l w => step w l) ws l = l.
Proof.
  intros [r Hr]. induction ws as [|w ws IH]; [done|]. simpl. unfold serve_step at 2. by rewrite Hr.
Qed.

Lemma finished_stays ws l : finished l -> finished (fold_left (fun l w => step w l) ws l).
Proof. intros Hf. by rewrite finished_fixed. Qed.

(** Deadlines armed no later than [t]. *)
Definition armed_by (t : N) (l : Loop) : Prop :=
  match phase l with
  | Serving => True
  | Draining d => exists t0, t0 <= t /\ d = deadline_after t0 drain_timeout
  | Finished _ => True
  end.

Definition no_later (t : N) (w : Wakeup) : Prop :=
  match w with Poll now _ _ => now <= t | ShutdownFired _ => True end.

Lemma drain_armed_by t now sf l t0 :
  t0 <= t -> armed_by t (drain (deadline_after t0 drain_timeout) now sf l).
Proof.
  intros Ht. destruct sf as [[[]|e]|]; simpl; [done..|]. destruct (_ <=? _); [done|]. by exists t0.
Qed.

Lemma step_armed_by t w l : no_later t w -> armed_by t l -> armed_by t (step w l).
Proof.
  unfold serve_step. destruct (phase l) as [|d|r] eqn:Hp, w as [k|now sf b]; cbn iota beta;
    intros Hw Ha; try done.
  - by destruct (drain_started l).
  - destruct sf as [[[]|e]|], b, (drain_started l); try done; exact (drain_armed_by _ _ _ _ _ Hw).
  - destruct (drain_started l); [done|]. unfold armed_by in *. by rewrite Hp in Ha.
  - unfold armed_by in Ha. rewrite Hp in Ha. destruct Ha as (t0 & Ht & ->). by apply drain_armed_by.
Qed.

Lemma steps_armed_by t ws l :
  Forall (no_later t) ws -> armed_by t l -> armed_by t (fold_left (fun l w => step w l) ws l).
Proof. intros Hws. revert l. induction Hws; simpl; eauto using step_armed_by. Qed.

(** Once the signal has come. *)
Definition begun (l : Loop) : Prop := finished l \/ drain_started l = true.

Lemma result_finished r l : finished (serve_result r l).
Proof. destruct r as [[]|e]; eexists; reflexivity. Qed.

Lemma drain_started_stays d now sf l : drain_started (drain d now sf l) = drain_started l.
Proof. destruct sf as [[[]|e]|]; simpl; [done..|]. by destruct (_ <=? _). Qed.

Lemma fired_begun k l : begun (step (ShutdownFired k) l).
Proof.
  unfold serve_step, begun, finished. destruct (phase l) eqn:Hp, (drain_started l) eqn:Hd; eauto.
Qed.

Lemma step_started w l : drain_started l = true -> drain_started (step w l) = true.
Proof.
  intros Hd. unfold serve_step. destruct (phase l), w as [k|now [q|] b]; simpl; rewrite ?Hd; try done.
  all: try destruct (b || negb true); try destruct q; try destruct (_ <=? _); done.
Qed.

Lemma steps_started ws l : drain_started l = true -> drain_started (fold_left (fun l w => step w l) ws l) = true.
Proof. revert l. induction ws; simpl; eauto using step_started. Qed.

(** A signal is missed only by a loop that has ended before it. *)
Lemma signal_missed before fired rest :
  drain_started (serve_loop (before ++ ShutdownFired fired :: rest)) = false ->
  finished (serve_loop before) /\ serve_loop (before ++ ShutdownFired fired :: rest) = serve_loop before.
Proof.
  unfold serve_with_shutdown_inner. rewrite fold_left_app. cbn [fold_left].
  set (l := fold_left _ before loop_start). intros Hd.
  assert (finished l) as Hf.
  { destruct (phase l) eqn:Hp; [..|by eexists]; exfalso; revert Hd; apply not_false_iff_true, steps_started;
      unfold serve_step; rewrite Hp; by destruct (drain_started l) eqn:?. }
  split; [done|]. by rewrite (finished_fixed [ShutdownFired fired] l Hf : step _ l = l), finished_fixed.
Qed.

(** When the watch flips, every task is told. *)
Lemma task_events_flip t timeline l :
  watch l = false -> watch (fold_left (fun l w => step w l) (wakeups_of timeline) l) = true ->
  exists e1 e2, task_events drain_timeout t timeline l = e1 ++ ShutdownChanged true :: e2.
Proof.
  revert l. induction timeline as [|[w|t' now] timeline IH]; intros l Hl; simpl; [congruence|..].
  - intros Hw. destruct (watch (step w l)) eqn:Hs.
    + rewrite Hl. exists [], (task_events drain_timeout t timeline (step w l)). done.
    + rewrite Hl. simpl. by apply IH.
  - intros Hw. destruct (IH l Hl Hw) as (e1 & e2 & ->). case_bool_decide; [|eauto].
    by exists (TickAt now :: e1), e2.
Qed.

Lemma step_begun w l : begun l -> begun (step w l).
Proof. intros [Hf|Hd]; [left; by apply (finished_stays [w])|]. right. by apply step_started. Qed.

Lemma steps_begun ws l : begun l -> begun (fold_left (fun l w => step w l) ws l).
Proof. revert l. induction ws; simpl; eauto using step_begun. Qed.

Definition draining (l : Loop) : Prop := finished l \/ exists d, phase l = Draining d.

Lemma drain_draining d now sf l : draining (drain d now sf l).
Proof.
  destruct sf as [r|]; [left; apply result_finished|]. simpl. destruct (d <=? now).
  - left. by eexists.
  - right. by eexists.
Qed.

Lemma poll_draining now sf b l : begun l -> draining (step (Poll now sf b) l).
Proof.
  intros [Hf|Hd]; [left; by apply (finished_stays [_])|]. unfold serve_step. rewrite Hd.
  destruct (phase l) eqn:Hp; [|apply drain_draining|left; by eexists].
  destruct sf as [r|]; [|apply drain_draining].
  destruct (b || _); [left; apply result_finished|apply drain_draining].
Qed.

Lemma step_draining d w l :
  finished l \/ phase l = Draining d -> finished (step w l) \/ phase (step w l) = Draining d.
Proof.
  intros [Hf|Hp]; [left; by apply (finished_stays [w])|]. unfold serve_step. rewrite Hp.
  destruct w as [k|now sf b].
  - right. by destruct (drain_started l).
  - destruct sf as [q|]; [left; apply result_finished|]. simpl. destruct (d <=? now); [left; by eexists|by right].
Qed.

Lemma steps_draining d ws l :
  finished l \/ phase l = Draining d ->
  let l' := fold_left (fun l w => step w l) ws l in finished l' \/ phase l' = Draining d.
Proof. revert l. induction ws; simpl; eauto using step_draining. Qed.

Lemma deadline_poll d now sf b l :
  finished l \/ phase l = Draining d -> d <= now -> finished (step (Poll now sf b) l).
Proof.
  intros [Hf|Hp] Hd; [by apply (finished_stays [_])|]. unfold serve_step. rewrite Hp.
  destruct sf as [q|]; [apply result_finished|]. simpl. rewrite (proj2 (N.leb_le _ _) Hd). by eexists.
Qed.

Lemma serve_loop_ends (before between waiting after : list Wakeup) fired t1 fut1 first1 t2 fut2 first2 :
  Forall (no_later t1) (before ++ between) -> t1 + drain_timeout <= instant_max ->
  t1 + drain_timeout + 1000000 <= t2 ->
  exists r, phase (serve_loop (before ++ ShutdownFired fired :: between ++ Poll t1 fut1 first1
                                :: waiting ++ Poll t2 fut2 first2 :: after)) = Finished r
    /\ (exit_code r = 0 \/ exists e, r = Err (Serve e) /\ exit_code r = 1).
Proof.
  intros Hb Hmax Ht. apply Forall_app in Hb as [Hb1 Hb2].
  assert (finished (serve_loop (before ++ ShutdownFired fired :: between ++ Poll t1 fut1 first1
            :: waiting ++ Poll t2 fut2 first2 :: after))) as [r Hr].
  { unfold serve_with_shutdown_inner. repeat (rewrite fold_left_app; simpl).
    apply finished_stays. set (l1 := fold_left _ before loop_start).
    assert (armed_by t1 l1) as H1 by (by apply steps_armed_by).
    set (l2 := fold_left _ between _).
    assert (begun l2) as Hbeg by (apply steps_begun, fired_begun).
    assert (armed_by t1 l2) as H2 by (by apply steps_armed_by, step_armed_by).
    pose proof (step_armed_by t1 (Poll t1 fut1 first1) l2 (N.le_refl t1) H2) as H3.
    destruct (poll_draining t1 fut1 first1 l2 Hbeg) as [Hf|[d Hd]].
    { apply (finished_stays [_]), finished_stays, Hf. }
    unfold armed_by in H3. rewrite Hd in H3. destruct H3 as (t0 & Ht0 & ->).
    apply (deadline_poll (deadline_after t0 drain_timeout)).
    - apply steps_draining. by right.
    - pose proof (deadline_after_law t0 drain_timeout ltac:(lia)). lia. }
  exists r. split; [done|].
  destruct (finished_ended _ _ Hr) as [clean He].
  destruct He; simpl; eauto.
Qed.
(** A signal ends the server within the drain timeout.  Whatever happened
    before, if a signal arrives, the serving task is polled at some time [t1]
    after it, and polled again once the drain timeout (and the timer's
    millisecond) has passed, then the loop has ended and stays ended, whether
    or not [axum] ever completes.  The exit code is 0, a forced close included,
    unless [axum] failed. *)
Theorem shutdown_terminates (before between waiting after : list Wakeup) fired t1 fut1 first1 t2 fut2 first2 :
  Forall (no_later t1) (before ++ between) -> t1 + drain_timeout <= instant_max ->
  t1 + drain_timeout + 1000000 <= t2 ->
  exists r, phase (serve_loop (before ++ ShutdownFired fired :: between ++ Poll t1 fut1 first1
                                :: waiting ++ Poll t2 fut2 first2 :: after)) = Finished r
    /\ (exit_code r = 0 \/ exists e, r = Err (Serve e) /\ exit_code r = 1).
Proof. apply serve_loop_ends. Qed.
End serve.

(** ** The bootstrap *)

Lemma await_try_cases {E S F A B} (p : async E S (result F A)) (k : A -> async E S (result F B)) o s r s' o' :
  block_on (await_try p k) o s = Value (r, s', o') ->
  (exists e, block_on p o s = Value (Err e, s', o') /\ r = Err e)
  \/ exists a s1 o1, block_on p o s = Value (Ok a, s1, o1) /\ block_on (k a) o1 s1 = Value (r, s', o').
Proof.
  unfold await_try. rewrite block_on_await_inv. intros ([a|e] & s1 & o1 & H1 & H2); [by eauto 8|].
  injection H2 as <- <- <-. eauto.
Qed.

Section bootstrap.
Context `{Sha2Crate} `{Base64Crate} `{SubtleCrate} `{UrlCrate} `{IpnetCrate} `{SerdeCrate} `{HttpCrate}.
Context `{JwtCrate} `{!JwtDecode TokenClaims} `{!JwtDecode DpopClaims} `{InstantRange}.
Context `{JsonCrate} `{RouterCrate} `{Target} `{TempfileCrate} `{ReqwestCrate}.
Context {Listener Signal : Type} (os : Os (Listener := Listener) (Signal := Signal)).

Abbreviation running A r p p' := (block_on A (alone os) p = Value (r, p', alone os)).

(** The effects of the two optional steps. *)
Definition ca_trace (l : list Effect) : Prop := l = [] \/ exists path, l = [AddedRootCa path].
Definition ready_trace (b : StorageBackend) (l : list Effect) : Prop :=
  match b with
  | NoBackend => l = []
  | LocalFsBackend root => l = [Logged (StorageStartupReady root)]
  end.

(** The disk after a storage startup that succeeded: the root is a directory
    and no stored block has changed. *)
Definition storage_ready (b : StorageBackend) (provider : option (AsyncStorage fs))
    (d d' : LocalFsState) : Prop :=
  match b with
  | NoBackend => provider = None /\ d' = d
  | LocalFsBackend root => provider = Some (local_fs_calls root)
      /\ (exists m, lf_fs d !! components root = Some (Dir m))
      /\ forall id, block_id_wf id -> stored_fs root (lf_fs d') id = stored_fs root (lf_fs d) id
  end.

Lemma effect_run x p : running (effect x) () p {| effects := effects p ++ [x]; disk := disk p |}.
Proof. done. Qed.

Lemma ask_run {A} (f : Os -> outcome A) p a p' o' :
  block_on (ask f) (alone os) p = Value (a, p', o') -> f os = Value a /\ p' = p /\ o' = alone os.
Proof. simpl. unfold id. destruct (f os); [|done]. by intros [= -> -> <-]. Qed.

Lemma spawn_all_run ts p :
  running (spawn_all ts) () p {| effects := effects p ++ (Spawned <$> ts); disk := disk p |}.
Proof.
  revert p. induction ts as [|t ts IH]; intros p.
  - simpl. rewrite app_nil_r. by destruct p.
  - cbn [spawn_all]. rewrite block_on_await, effect_run, IH. simpl. by rewrite <- app_assoc.
Qed.

Lemma trust_extra_ca_run b p r p' o' :
  block_on (trust_extra_ca b) (alone os) p = Value (r, p', o') ->
  o' = alone os /\ disk p' = disk p /\ (exists ca, ca_trace ca /\ effects p' = effects p ++ ca)
  /\ forall e, r = Err e -> exists cause, e = Auth cause.
Proof.
  unfold trust_extra_ca. intros [(e & Ha & ->)|(x & p1 & o1 & Ha & Hk)]%await_try_cases;
    apply ask_run in Ha as (Ha & -> & ->).
  - split_and!; [done..| |].
    + exists []. rewrite app_nil_r. split; [by left|done].
    + intros e' [= <-]. injection Ha as Ha. destruct (load_optional_pem _ _); simplify_eq/=; eauto.
  - destruct x as [[path pem]|].
    + apply await_try_cases in Hk as [(e & Hc & ->)|(c & p1 & o1 & Hc & Hk)]; injection Hc as Hc <- <-.
      * split_and!; [done..| |].
        -- exists []. rewrite app_nil_r. split; [by left|done].
        -- intros e' [= <-]. destruct (Certificate_from_pem pem); simplify_eq/=; eauto.
      * rewrite block_on_await, effect_run in Hk. injection Hk as <- <- <-.
        split_and!; [done..| |done]. exists [AddedRootCa path]. split; [right; eauto|done].
    + injection Hk as <- <- <-. split_and!; [done..| |done].
      exists []. rewrite app_nil_r. split; [by left|done].
Qed.

Lemma init_run root d r d' :
  root <> "" -> init root d = (r, d') ->
  match r with
  | Ok _ => storage_ready (LocalFsBackend root) (Some (local_fs_calls root)) d d'
  | Err e => True
  end.
Proof.
  intros Hroot Hi. unfold init, run_op in Hi. destruct (run _ _ _) as [q f'] eqn:Hr. injection Hi as -> <-.
  pose proof (wp_run (fun e => exists n, lf_env d 0 n = e) _ _ _
    (probe_wp root Hroot (fun e => exists n, lf_env d 0 n = e) (lf_fs d)) _ _ _ (fun n => ex_intro _ n eq_refl) Hr) as Hp.
  destruct r as [u|e]; [|done]. destruct Hp as (Hd & Hn & temp & [x Ht] & _ & _ & Hf). split_and!; [done..|].
  intros bid Hid. simpl. unfold stored_fs. rewrite Hf; [done|..].
  - intros Heq. unfold probe_key, block_key, sharded in Heq. by apply app_inv_head in Heq.
  - rewrite Ht. intros Heq. unfold block_key, sharded in Heq. by apply app_inv_head in Heq.
Qed.

Lemma init_storage_run cfg p r p' o' :
  match storage_backend cfg with LocalFsBackend root => root <> "" | NoBackend => True end ->
  block_on (init_storage cfg) (alone os) p = Value (r, p', o') ->
  o' = alone os
  /\ match r with
     | Ok provider => storage_ready (storage_backend cfg) provider (disk p) (disk p')
         /\ exists ready, ready_trace (storage_backend cfg) ready /\ effects p' = effects p ++ ready
     | Err e => exists se, e = Storage se /\ effects p' = effects p ++
         [Logged (StorageStartupFailed (init_root_path se) (init_step se) (init_cause se))]
     end.
Proof.
  unfold init_storage, init_from_config. destruct (storage_backend cfg) as [|root] eqn:Hb; intros Hroot Hr.
  - injection Hr as <- <- <-. split; [done|]. split; [done|]. exists []. by rewrite app_nil_r.
  - rewrite block_on_await in Hr. cbn [await_try await atomic block_on alone at_env others id] in Hr.
    destruct (init root (disk p)) as [[u|e] d] eqn:Hi; pose proof (init_run root _ _ _ Hroot Hi) as Hrun.
    + injection Hr as <- <- <-. split; [done|]. split; [exact Hrun|]. eexists. split; [reflexivity|done].
    + injection Hr as <- <- <-. split; [done|]. by exists e.
Qed.

Lemma bind_listener_run a p r p' o' :
  block_on (bind_listener a) (alone os) p = Value (r, p', o') ->
  o' = alone os /\ disk p' = disk p
  /\ match r with
     | Ok _ => effects p' = effects p ++ [BoundListener a]
     | Err e => exists k, e = Bind a k
         /\ (effects p' = effects p \/ effects p' = effects p ++ [BoundListener a])
     end.
Proof.
  unfold bind_listener. intros [(e & Ha & ->)|(x & p1 & o1 & Ha & Hk)]%await_try_cases;
    apply ask_run in Ha as (Ha & -> & ->).
  - split_and!; [done..|]. destruct (os_bind os a); simplify_eq/=; eauto.
  - rewrite block_on_await, effect_run in Hk.
    apply await_try_cases in Hk as [(e & Ha' & ->)|(y & p1 & o1 & Ha' & Hk)];
      apply ask_run in Ha' as (Ha' & -> & ->).
    + split_and!; [done..|]. destruct (os_local_addr os x); simplify_eq/=; eauto.
    + injection Hk as <- <- <-. by split_and!.
Qed.

Lemma install_handlers_run p r p' o' :
  block_on install_handlers (alone os) p = Value (r, p', o') ->
  o' = alone os /\ disk p' = disk p
  /\ match r with
     | Ok _ => effects p' = effects p ++ [HandlersInstalled]
     | Err e => (exists k, e = SignalSetup k) /\ effects p' = effects p
     end.
Proof.
  unfold install_handlers. intros [(e & Ha & ->)|(x & p1 & o1 & Ha & Hk)]%await_try_cases;
    apply ask_run in Ha as (Ha & -> & ->).
  - do 2 (split; [done|]). destruct (install_signals _); simplify_eq/=; eauto.
  - rewrite block_on_await, effect_run in Hk. injection Hk as <- <- <-. by split_and!.
Qed.

(** What a failed startup has done, by its error. *)
Definition failed_after (e : AppError) (new : list Effect) : Prop :=
  match e with
  | Config _ => new = []
  | Auth _ => ca_trace new
  | Storage se => exists ca, ca_trace ca /\ new = ca ++
      [Logged (StorageStartupFailed (init_root_path se) (init_step se) (init_cause se))]
  | Bind a _ => exists ca b ready, ca_trace ca /\ ready_trace b ready
      /\ (new = ca ++ ready \/ new = ca ++ ready ++ [BoundListener a])
  | SignalSetup _ => exists ca b ready a, ca_trace ca /\ ready_trace b ready
      /\ new = ca ++ ready ++ [BoundListener a]
  | Serve _ => False
  end.

(** What a completed startup has done. *)
Definition started_after (cfg : ServerConfig) (local : SocketAddr) (new : list Effect) : Prop :=
  exists ca ready, ca_trace ca /\ ready_trace (storage_backend cfg) ready
    /\ new = ca ++ ready ++ [BoundListener (bind_address cfg); HandlersInstalled]
         ++ (Spawned <$> background_tasks) ++ [Logged (ServerStarted local)].

Record running_ok (run : Running (Listener := Listener) (Signal := Signal)) (d d' : LocalFsState) : Prop := {
  up_config : config_wf (Routes.config (state run));
  up_drain : run_drain_timeout run = drain_timeout (Routes.config (state run));
  up_contexts : exists v a, contexts_ok (run_contexts run) v a
    /\ ctx_audience v = audience (vault_oidc (Routes.config (state run)))
    /\ ctx_audience a = audience (admin_oidc (Routes.config (state run)))
    /\ ctx_audience v <> ctx_audience a;
  up_replay : store_ok (replay_store run) /\ entries (replay_store run) = ∅
    /\ max_replay_entries (Replay.config (replay_store run)) <= usize_max;
  up_storage : storage_ready (storage_backend (Routes.config (state run))) (storage_provider run) d d';
}.

Lemma bootstrap_run (p : Process) r p' o' :
  (forall s c, os_toml_from_str os s = Some c -> config_i64 c) ->
  block_on bootstrap (alone os) p = Value (r, p', o') ->
  exists new, effects p' = effects p ++ new
    /\ match r with
       | Ok run => running_ok run (disk p) (disk p')
           /\ started_after (Routes.config (state run)) (local_addr run) new
       | Err e => failed_after e new
       end.
Proof.
  intros Ht [(e & Ha & ->)|(cfg & p1 & o1 & Ha & Hb)]%await_try_cases;
    apply ask_run in Ha as (Ha & -> & ->);
    (destruct (Config.load _ _ _) as [rc|] eqn:Hload; [|done]); injection Ha as Ha.
  { exists []. rewrite app_nil_r. split; [done|]. by destruct rc; simplify_eq/=. }
  destruct rc as [c|]; [|done]. injection Ha as ->. apply load_wf in Hload; [|done].
  apply await_try_cases in Hb as [(e & Hc & ->)|(builder & p1 & o1 & Hc & Hb)];
    apply trust_extra_ca_run in Hc as (-> & Hd1 & (ca & Hca & He1) & Herr).
  { exists ca. split; [done|]. by destruct (Herr e eq_refl) as [cause ->]. }
  apply await_try_cases in Hb as [(e & Hc & ->)|(client & p2 & o2 & Hc & Hb)]; injection Hc as Hc <- <-.
  { exists ca. split; [done|]. by destruct (ClientBuilder_build builder); simplify_eq/=. }
  apply await_try_cases in Hb as [(e & Ha & ->)|(w & p2 & o2 & Ha & Hb)];
    apply ask_run in Ha as (Ha & -> & ->);
    (destruct (init_contexts _ _) as [rw|] eqn:Hw; [|done]); injection Ha as Ha.
  { exists ca. split; [done|]. by destruct rw; simplify_eq/=. }
  destruct rw as [w'|]; [|done]. injection Ha as ->. clear Hc. apply init_contexts_ok in Hw as (v & a & Hok & Hv & Ha & _).
  apply await_try_cases in Hb as [(e & Hc & ->)|(provider & p2 & o2 & Hc & Hb)];
    (apply init_storage_run in Hc as (-> & Hc);
      [|pose proof (wf_root _ Hload) as Hr; by destruct (storage_backend cfg); [|destruct Hr]]).
  { destruct Hc as (se & -> & He2). exists (ca ++ [Logged (StorageStartupFailed (init_root_path se) (init_step se) (init_cause se))]).
    split; [by rewrite He2, He1, <- app_assoc|]. by exists ca. }
  destruct Hc as (Hst & ready & Hrd & He2).
  apply await_try_cases in Hb as [(e & Hc & ->)|([l local] & p3 & o3 & Hc & Hb)];
    apply bind_listener_run in Hc as (-> & Hd3 & Hc).
  { destruct Hc as (k & -> & [He3|He3]); eexists; (split; [by rewrite He3, He2, He1, <- !app_assoc|]);
      exists ca, (storage_backend cfg), ready; auto. }
  apply await_try_cases in Hb as [(e & Hc' & ->)|(sg & p4 & o4 & Hc' & Hb)];
    apply install_handlers_run in Hc' as (-> & Hd4 & Hc').
  { destruct Hc' as [(k & ->) He4]. eexists. split; [by rewrite He4, Hc, He2, He1, <- !app_assoc|].
    by exists ca, (storage_backend cfg), ready, (bind_address cfg). }
  rewrite block_on_await, spawn_all_run, block_on_await, effect_run in Hb. injection Hb as <- <- <-.
  simpl disk. simpl effects. eexists. split; [by rewrite Hc', Hc, He2, He1, <- !app_assoc|].
  split; [|by exists ca, ready]. split; simpl.
  - done.
  - done.
  - exists v, a. split_and!; [done..|]. rewrite Hv, Ha. apply (wf_distinct _ Hload).
  - split_and!; [apply new_ok|done|apply (wf_entries _ Hload)].
  - rewrite Hd4, Hd3, <- Hd1. exact Hst.
Qed.

(** C18. Startup is all-or-nothing and in the documented order.  When the
    bootstrap succeeds, the configuration is well-formed, the two contexts
    are linked, hold disjoint well-formed key sets and distinct audiences, the
    replay store is empty and consistent, and the storage, if one is
    configured, passed its probe and lost no block: everything the other
    theorems assume of the running server.  The listener was bound only after
    all that; the handlers were installed and the five background tasks
    spawned before [server.started].  When it fails, nothing was announced or
    spawned, and each error leaves exactly the effects of the steps before it:
    no failure of configuration, authentication or storage binds the port. *)
Theorem bootstrap_correct (p : Process) r p' o' :
  (forall s c, os_toml_from_str os s = Some c -> config_i64 c) ->
  block_on bootstrap (alone os) p = Value (r, p', o') ->
  exists new, effects p' = effects p ++ new
    /\ match r with
       | Ok run => running_ok run (disk p) (disk p')
           /\ started_after (Routes.config (state run)) (local_addr run) new
       | Err e => failed_after e new
       end.
Proof. apply bootstrap_run. Qed.
End bootstrap.

(** ** The life of a process *)

Section life.
Context `{Sha2Crate} `{Base64Crate} `{SubtleCrate} `{UrlCrate} `{IpnetCrate} `{SerdeCrate} `{HttpCrate}.
Context `{JwtCrate} `{!JwtDecode TokenClaims} `{!JwtDecode DpopClaims} `{TokioTimeCrate}.
Context `{JsonCrate} `{RouterCrate} `{Target} `{TempfileCrate} `{ReqwestCrate}.
Context {Listener Signal : Type} (os : Os (Listener := Listener) (Signal := Signal)).

(** How the serving phase of a process ended: without ever taking a signal, or
    by a signal that every background task was told of. *)
Definition served_until (drain : N) (timeline : list Moment) (before : list Wakeup)
    (r : result AppError unit) (clean : bool) (initiated : list Event) : Prop :=
  (initiated = [] /\ ended drain before r clean)
  \/ ((exists fired, ShutdownFired fired ∈ wakeups_of timeline /\ initiated = wait_for_signal fired drain)
      /\ ended drain (wakeups_of timeline) r clean
      /\ forall (t : TaskName) (T : Type) (body : N -> T -> outcome T) first_tick (x : T),
           fst (spawned_task body drain t first_tick timeline x) <> TaskRunning).

Lemma serving_life drain timeline before between waiting after fired t1 fut1 first1 t2 fut2 first2 :
  wakeups_of timeline = before ++ ShutdownFired fired :: between ++ Poll t1 fut1 first1
                          :: waiting ++ Poll t2 fut2 first2 :: after ->
  Forall (no_later t1) (before ++ between) -> t1 + drain <= instant_max -> t1 + drain + 1000000 <= t2 ->
  exists r initiated clean,
    phase (serve_with_shutdown_inner drain (wakeups_of timeline)) = Finished r
    /\ (exit_code r = 0 \/ exists e, r = Err (Serve e) /\ exit_code r = 1)
    /\ loop_log (serve_with_shutdown_inner drain (wakeups_of timeline))
       = initiated ++ [ServerShutdownCompleted clean]
    /\ served_until drain timeline before r clean initiated.
Proof.
  intros Hw Hb Hmax Ht.
  destruct (serve_loop_ends drain before between waiting after fired t1 fut1 first1 t2 fut2 first2 Hb Hmax Ht)
    as (r & Hr & Hx). rewrite <- Hw in Hr.
  destruct (serve_loop_ok drain (wakeups_of timeline)) as (ini & [Hwd Hs] & Hp). rewrite Hr in Hp.
  destruct Hp as (clean & Hlog & He). exists r, ini, clean. split_and!; [done..|].
  destruct (drain_started _) eqn:Hd in Hs.
  - right. split_and!; [done..|]. intros t T body first_tick x. unfold spawned_task, run_task. simpl.
    destruct (task_events_flip drain t timeline loop_start eq_refl) as (e1 & e2 & ->); [|apply task_loop_ended].
    by rewrite <- Hd, <- Hwd.
  - left. split; [done|]. rewrite Hw in Hd, Hr, Hlog. apply signal_missed in Hd as [_ Heq].
    rewrite Heq in Hr, Hlog. destruct (serve_loop_ok drain before) as (ini' & _ & Hp'). rewrite Hr in Hp'.
    destruct Hp' as (clean' & Hlog' & He'). rewrite Hlog in Hlog'.
    apply app_inj_tail in Hlog' as [_ [= <-]]. done.
Qed.

(** C17. The whole life of a process, from its first step to its exit code.  Once
    the bootstrap has succeeded, let any signal arrive at any moment of the
    timeline, the serving task be polled after it and again when the drain
    timeout has passed; then [run] returns, with exit code 0 unless [axum]
    failed, and what an observer has seen is exactly: the startup effects in
    their order up to [server.started], at most one [server.shutdown.initiated],
    and one [server.shutdown.completed].  Unless the server had already ended
    before the signal, every background task has ended too, whatever its ticks
    do. *)
Theorem process_lifecycle p run p' o' timeline before between waiting after fired t1 fut1 first1 t2 fut2 first2 :
  (forall s c, os_toml_from_str os s = Some c -> config_i64 c) ->
  block_on bootstrap (alone os) p = Value (Ok run, p', o') ->
  wakeups_of timeline = before ++ ShutdownFired fired :: between ++ Poll t1 fut1 first1
                          :: waiting ++ Poll t2 fut2 first2 :: after ->
  let drain := drain_timeout (Routes.config (state run)) in
  Forall (no_later t1) (before ++ between) -> t1 + drain <= instant_max -> t1 + drain + 1000000 <= t2 ->
  exists r started initiated clean,
    run_app (alone os) p (wakeups_of timeline)
      = Value (Some r, effects p ++ started ++ (Logged <$> initiated ++ [ServerShutdownCompleted clean]))
    /\ started_after (Routes.config (state run)) (local_addr run) started
    /\ (exit_code r = 0 \/ exists e, r = Err (Serve e) /\ exit_code r = 1)
    /\ served_until drain timeline before r clean initiated.
Proof.
  intros Htoml Hboot Hw drain Hb Hmax Ht.
  destruct (bootstrap_run os p _ _ _ Htoml Hboot) as (started & Hst & Hok & Hsa).
  destruct (serving_life drain timeline before between waiting after fired t1 fut1 first1 t2 fut2 first2
    Hw Hb Hmax Ht) as (r & ini & clean & Hr & Hx & Hlog & Hend).
  exists r, started, ini, clean. split_and!; [|done..].
  unfold run_app. rewrite Hboot. cbv zeta iota beta.
  rewrite (up_drain _ _ _ Hok). fold drain. by rewrite Hr, Hlog, Hst, <- app_assoc.
Qed.
End life.

(** ** Witnesses *)

#[export] Instance toy_time : TokioTimeCrate.
Proof. refine {| deadline_after now d := now + d |}. intros now d _. lia. Defined.

(** SIGTERM after two polls, a drain of 30 s, and requests that never finish. *)
Definition fx_drain : N := duration_from_secs 30.
Definition fx_wakeups : list Wakeup :=
  [Poll 10 None true] ++ ShutdownFired Terminate :: [] ++ Poll 20 None false
    :: [Poll 1000 None true] ++ Poll (20 + fx_drain + 1000000) None true :: [ShutdownFired Hangup].

Lemma shutdown_terminates_witness :
  exists r, phase (serve_with_shutdown_inner fx_drain fx_wakeups) = Finished r
    /\ (exit_code r = 0 \/ exists e, r = Err (Serve e) /\ exit_code r = 1).
Proof.
  apply (shutdown_terminates fx_drain [Poll 10 None true] [] [Poll 1000 None true] [ShutdownFired Hangup]
    Terminate 20 None false (20 + fx_drain + 1000000) None true).
  - repeat constructor. vm_compute. discriminate.
  - vm_compute. discriminate.
  - vm_compute. discriminate.
Defined.

(** The log of that run. *)
Lemma fx_wakeups_log : loop_log (serve_with_shutdown_inner fx_drain fx_wakeups)
  = [ServerShutdownInitiated "SIGTERM" 30; ServerShutdownCompleted false].
Proof. vm_compute. reflexivity. Qed.

#[local] Existing Instance target64.

(** A client is the list of certificates it trusts besides the defaults. *)
#[export] Instance toy_reqwest : ReqwestCrate := {|
  Certificate := bytes;
  Certificate_from_pem pem := match pem with [] => Err "empty" | _ => Ok pem end;
  Client := list bytes;
  ClientBuilder_build b := Ok (cb_root_certificates b);
|}.

Definition fx_vars : list os_var :=
  (fun '(k, v) => (Some k, Some v)) <$>
  [("APOK_BIND_ADDRESS", "127.0.0.1:8443"); ("APOK_BLOCK_SIZE_BYTES", "4096");
   ("APOK_STORAGE_BACKEND", "local_fs"); ("APOK_STORAGE_LOCAL_FS_ROOT", "/r");
   ("APOK_TRUSTED_PROXIES", ""); ("APOK_EXTRA_CA_CERT_FILE", "/ca.pem");
   ("APOK_VAULT_OIDC_ISSUER_URL", "https://vault.idp/"); ("APOK_VAULT_OIDC_AUDIENCE", "vault");
   ("APOK_ADMIN_OIDC_ISSUER_URL", "https://admin.idp/"); ("APOK_ADMIN_OIDC_AUDIENCE", "admin")].

Definition fx_os : Os (Listener := SocketAddr) (Signal := SignalKind) := {|
  env_vars_os := fx_vars;
  env_var_os k := if String.eqb k "APOK_EXTRA_CA_CERT_FILE" then Some "/ca.pem" else None;
  os_read_to_string _ := Err NotFound;
  os_toml_from_str _ := None;
  os_read p := if String.eqb p "/ca.pem" then Ok (as_bytes "pem") else Err NotFound;
  os_exchange _ := fx_http;
  os_bind a := Ok a;
  os_local_addr l := Ok l;
  os_signal k := Ok k;
|}.

Definition fx_process : Process := {|
  effects := [];
  disk := {| lf_fs := <[["r"] := Dir 493]> ∅; lf_env := fun _ n => env_ok (show_N (N.of_nat n)) |} |}.

Definition fx_started : outcome (list Effect * bool) :=
  match block_on bootstrap (alone fx_os) fx_process with
  | Value (r, p, _) => Value (effects p, is_ok r)
  | Panic => Panic
  end.

Lemma fx_started_ok : fx_started = Value (
  [AddedRootCa "/ca.pem"; Logged (StorageStartupReady "/r");
   BoundListener {| sa_ip := LOCALHOST; sa_port := 8443; sa_scope_id := 0 |}; HandlersInstalled;
   Spawned (JwksRefresh Vault); Spawned (JwksRefresh Admin); Spawned (DiscoveryRefresh Vault);
   Spawned (DiscoveryRefresh Admin); Spawned ReplayCleanup;
   Logged (ServerStarted {| sa_ip := LOCALHOST; sa_port := 8443; sa_scope_id := 0 |})], true).
Proof. vm_compute. reflexivity. Qed.

Lemma bootstrap_correct_witness :
  exists (run : Running (Listener := SocketAddr) (Signal := SignalKind)) p',
    running_ok run (disk fx_process) (disk p').
Proof.
  pose proof fx_started_ok as Hc. unfold fx_started in Hc.
  destruct (block_on bootstrap (alone fx_os) fx_process) as [[[r p'] o']|] eqn:Hb; [|discriminate Hc].
  destruct (bootstrap_correct fx_os fx_process r p' o' ltac:(discriminate) Hb) as (new & _ & Hr).
  destruct r as [run|e]; [|discriminate Hc]. exists run, p'. exact (proj1 Hr).
Defined.

(** The same process through SIGTERM, with ticks of two tasks in between. *)
Definition fx_timeline : list Moment :=
  [Tick ReplayCleanup 5; Wake (Poll 10 None true); Wake (ShutdownFired Terminate);
   Tick (JwksRefresh Vault) 15; Wake (Poll 20 None false);
   Wake (Poll (20 + fx_drain + 1000000) None true)].

Lemma process_lifecycle_witness :
  exists r started initiated clean,
    run_app (alone fx_os) fx_process (wakeups_of fx_timeline)
      = Value (Some r, [] ++ started ++ (Logged <$> initiated ++ [ServerShutdownCompleted clean]))
    /\ served_until fx_drain fx_timeline [Poll 10 None true] r clean initiated.
Proof.
  pose proof fx_started_ok as Hc. unfold fx_started in Hc.
  destruct (block_on bootstrap (alone fx_os) fx_process) as [[[r p'] o']|] eqn:Hb; [|discriminate Hc].
  destruct r as [run|e]; [|discriminate Hc].
  assert (match block_on bootstrap (alone fx_os) fx_process with
    | Value (Ok run, _, _) => drain_timeout (Routes.config (state run)) =? fx_drain | _ => false end = true) as Hd
    by (vm_compute; reflexivity).
  rewrite Hb in Hd. apply N.eqb_eq in Hd.
  destruct (process_lifecycle fx_os fx_process run p' o' fx_timeline [Poll 10 None true] [] [] []
    Terminate 20 None false (20 + fx_drain + 1000000) None true ltac:(discriminate) Hb eq_refl)
    as (r & started & ini & clean & H1 & _ & _ & H2).
  - repeat constructor. vm_compute. discriminate.
  - rewrite Hd. vm_compute. discriminate.
  - rewrite Hd. vm_compute. discriminate.
  - exists r, started, ini, clean. split; [exact H1|]. rewrite <- Hd. exact H2.
Defined.
