(* ===== verification/DeploySpec.v ===== *)
(** * DeploySpec: a deployed vault, across the lives of its processes

    The pieces put together: bootstrap, router, guards, block handlers and the
    local file-system backend.  What a process serves is the map of blocks on
    its disk; and what one process leaves, the next one serves. *)

From S2P Require Import Prelude RustStd Tasks Crates Crypto Fs Instances BlockId Jwks ServerConfig Config.
From S2P Require Import ConfigSpec.
From S2P Require Import Replay ReplaySpec Logging Context Async Server Http ProxyTrust Failure Fixtures.
From S2P Require Import ContextSpec Refresh.
From S2P Require Import Token Dpop AuthFixtures TokenSpec DpopSpec Middleware MiddlewareSpec.
From S2P Require Import Storage Blocks StorageSpec.
From S2P Require Import BlocksSpec Routes RoutesSpec RequestSpec RaceSpec IntegritySpec Linearize LinearSpec.
From S2P Require Import LocalFs LocalFsSpec LocalFsCalls Shutdown App AppSpec.

Section deploy.
Context `{Sha2Crate} `{Base64Crate} `{SubtleCrate} `{UrlCrate} `{IpnetCrate} `{SerdeCrate} `{HttpCrate}.
Context `{JwtCrate} `{!JwtDecode TokenClaims} `{!JwtDecode DpopClaims} `{InstantRange}.
Context `{JsonCrate} `{RouterCrate} `{Target} `{TempfileCrate} `{ReqwestCrate}.
Context {Listener Signal : Type} (root : string).

Abbreviation os := (Os (Listener := Listener) (Signal := Signal)).

(** What may happen besides the requests: anything that leaves the disk alone,
    such as the background tasks. *)
Definition disk_kept (s1 s2 : server fs) : Prop := srv_storage s2 = srv_storage s1.

Lemma step_keeps_disk {R} (act : senv -> server fs -> outcome (R * server fs)) :
  (forall e s, match act e s with Value (_, s') => disk_kept s s' | Panic => True end) -> every_step disk_kept (atomic act).
Proof. intros Ha. apply every_step_atomic. intros e s r s' Hr. specialize (Ha e s). by rewrite Hr in Ha. Qed.

Lemma background_keeps_disk ctx :
  every_step disk_kept (do_scheduled_refresh ctx) /\ every_step disk_kept (do_discovery_refresh ctx)
  /\ forall store s, disk_kept s (set_replay store s).
Proof.
  assert (forall ev, every_step disk_kept (emit ev)) as Hemit by (intros ev; by apply step_keeps_disk).
  assert (forall c f, every_step disk_kept (store c f)) as Hstore by (intros c f; by apply step_keeps_disk).
  split_and!; [..|done].
  - apply every_step_await; [by apply step_keeps_disk|]. intros u. apply every_step_await.
    { apply step_keeps_disk. intros e s. by destruct (fetch_jwks _). }
    intros [j|e]; [|apply Hemit]. apply every_step_await; [|done]. apply every_step_try.
    + apply step_keeps_disk. intros e s. by destruct (check_install _ _ _).
    + intros []. apply every_step_await; [apply Hstore|done].
  - apply every_step_await; [by apply step_keeps_disk|]. intros [d|e]; [apply Hstore|apply Hemit].
Qed.

(** A process with the root as its storage: its bootstrap on a disk with the
    blocks of [f], and a history [h] of its service that leaves the blocks of
    [f'].  The history may be cut off anywhere, between any two system calls:
    that is a process that is killed.  Nothing else of the disk matters, such as
    the temporary files that a killed process leaves. *)
Inductive life (f : fs) (c : ServerConfig) (h : list (event Request Response)) (f' : fs) : Prop :=
  | life_of (o : os) p run p' o' ts s' :
      (forall s x, os_toml_from_str o s = Some x -> config_i64 x) ->
      blocks_of root f ≡ blocks_of root (lf_fs (disk p)) ->
      block_on bootstrap (alone o) p = Value (Ok run, p', o') ->
      c = Routes.config (state run) -> storage_backend c = LocalFsBackend root ->
      block_size_bytes c + 1 <= usize_max ->
      rtc (service_step (run_router run) disk_kept)
        ([], initial_server run p', []) (ts, s', h) ->
      blocks_of root (srv_storage s') ≡ blocks_of root f' -> life f c h f'.

(** The router of a process that came up. *)
Lemma running_router (run : Running (Listener := Listener) (Signal := Signal)) d d' :
  running_ok run d d' -> storage_backend (Routes.config (state run)) = LocalFsBackend root ->
  exists v a, run_router run = build_router (state run) (Some v) (Some a) (Some ()) (Some (local_fs_calls root)).
Proof.
  intros Hok Hb. destruct (up_contexts _ _ _ Hok) as (v & a & Hc & _).
  pose proof (up_storage _ _ _ Hok) as Hs. rewrite Hb in Hs. destruct Hs as [Hp _].
  exists v, a. unfold run_router. rewrite Hp. by destruct Hc as [-> -> _ _].
Qed.

Lemma life_linearizable f c h f' :
  life f c h f' -> linearizable (vault_spec c) (blocks_of root f) h (blocks_of root f').
Proof.
  intros [o p run p' o' ts s' Htoml Hfs Hboot -> Hb Hsz Hrun Hend].
  destruct (bootstrap_run o p _ _ _ Htoml Hboot) as (new & _ & Hok & _).
  pose proof (wf_root _ (up_config _ _ _ Hok)) as Hroot. rewrite Hb in Hroot. destruct Hroot as [_ Hroot].
  destruct (running_router run _ _ Hok Hb) as (v & a & Hr). rewrite Hr in Hrun.
  pose proof (local_fs_linear root Hroot) as Hlin.
  apply (quiet_router_linearizable (blocks_of root) (local_fs_calls root) temp_claims) in Hrun; [|done].
  apply (linearizable_to (V := vault)) with (blocks_of root (srv_storage s')); [apply _| |exact Hend].
  apply (linearizable_from (V := vault)) with (blocks_of root (lf_fs (disk p'))); [exact Hrun|].
  pose proof (up_storage _ _ _ Hok) as Hs. rewrite Hb in Hs. destruct Hs as (_ & _ & Hs).
  symmetry. etrans; [exact Hfs|]. intros id Hid. symmetry. by apply Hs.
Qed.

(** Processes one after the other on the same disk, each with its own
    configuration. *)
Inductive lives : fs -> list (ServerConfig * list (event Request Response)) -> fs -> Prop :=
  | lives_nil f f' : blocks_of root f ≡ blocks_of root f' -> lives f [] f'
  | lives_cons f c h f1 hs f' : life f c h f1 -> lives f1 hs f' -> lives f ((c, h) :: hs) f'.

(** The same of one atomic map of blocks. *)
Inductive served_in_turn (b : vault) : list (ServerConfig * list (event Request Response)) -> vault -> Prop :=
  | in_turn_nil b' : b ≡ b' -> served_in_turn b [] b'
  | in_turn_cons c h b1 hs b' :
      linearizable (vault_spec c) b h b1 -> served_in_turn b1 hs b' -> served_in_turn b ((c, h) :: hs) b'.

(** C5. A deployed vault is one atomic map of blocks, across restarts, crashes
    and faults.  Let processes run one after the other on the same root directory, each
    with a configuration of its own, each bootstrapped by [run] from the blocks
    as the one before left them, and then serving any number of concurrent
    requests, whose system calls interleave in any order and may fail, until it
    ends or is killed between any two of them.  Then the histories that the
    clients see are those of one map of blocks that persists: the first process
    serves the blocks it finds on the disk, every later one the blocks that the
    requests before it left, bootstrap and probe change none, and the disk holds
    the map at the end. *)
Theorem deployed_vault_linearizable f hs f' :
  lives f hs f' -> served_in_turn (blocks_of root f) hs (blocks_of root f').
Proof.
  induction 1 as [f f' Hf|f c h f1 hs f' Hl _ IH]; [by constructor|].
  econstructor; [by apply life_linearizable|done].
Qed.
End deploy.

(** ** Witnesses *)

#[local] Existing Instance target64.

Definition fx_deploy_headers : list (string * Header) :=
  [("tok", {| hdr_alg := ES256; hdr_typ := None; hdr_kid := Some "issuer.example"; hdr_jwk := None |});
   ("put", fx_proof_header); ("again", fx_proof_header); ("get", fx_proof_header)].
#[local] Instance fx_deploy_jwt : JwtCrate := table_jwt fx_deploy_headers.
#[local] Instance fx_deploy_token : JwtDecode TokenClaims :=
  table_decode fx_deploy_headers [("tok", (toy_key "issuer.example", fx_claims))].
#[local] Instance fx_deploy_proofs : JwtDecode DpopClaims := table_decode fx_deploy_headers
  [("put", (toy_key "k", fx_block_proof "PUT" "id-2")); ("again", (toy_key "k", fx_block_proof "PUT" "id-4"));
   ("get", (toy_key "k", fx_block_proof "GET" "id-3"))].

(** Another PUT of the fixture's block, with another body. *)
Definition fx_put_again : Request := {|
  method := "PUT"; uri_authority := None; uri_path_and_query := Some ("/api/blocks/" +:+ as_str fx_id);
  headers := headers (fx_request "tok" "again"); extensions := no_extensions;
  req_body := Some [Byte.x63; Byte.x64] |}.

(** Blocks of two bytes below [/r], and an issuer whose key is named after its host. *)
Definition fx_deploy_vars : list os_var :=
  (fun '(k, v) => (Some k, Some v)) <$>
  [("APOK_BIND_ADDRESS", "127.0.0.1:8443"); ("APOK_BLOCK_SIZE_BYTES", "2");
   ("APOK_STORAGE_BACKEND", "local_fs"); ("APOK_STORAGE_LOCAL_FS_ROOT", "/r"); ("APOK_TRUSTED_PROXIES", "");
   ("APOK_VAULT_OIDC_ISSUER_URL", "https://issuer.example/"); ("APOK_VAULT_OIDC_AUDIENCE", "vault");
   ("APOK_ADMIN_OIDC_ISSUER_URL", "https://admin.idp/"); ("APOK_ADMIN_OIDC_AUDIENCE", "admin")].

Definition fx_deploy_os : Os (Listener := SocketAddr) (Signal := SignalKind) := {|
  env_vars_os := fx_deploy_vars;
  env_var_os _ := None;
  os_read_to_string _ := Err NotFound;
  os_toml_from_str _ := None;
  os_read _ := Err NotFound;
  os_exchange _ := fx_http;
  os_bind a := Ok a;
  os_local_addr l := Ok l;
  os_signal k := Ok k;
|}.

(** A process on the file system [f] that performs [xs]. *)
Definition fx_boot (f : fs) : Process :=
  {| effects := []; disk := {| lf_fs := f; lf_env := lf_env (disk fx_process) |} |}.

Definition fx_life (f : fs) (xs : list instruction) :=
  match block_on bootstrap (alone fx_deploy_os) (fx_boot f) with
  | Value (Ok run, p', _) =>
      match perform_all (run_router run) xs ([], initial_server run p', []) with
      | Some (_, s', h) => Some (Routes.config (state run), h, srv_storage s')
      | None => None
      end
  | _ => None
  end.

(** One that stores a block and is killed while it overwrites it, before the
    rename; and the next one, which reads it. *)
Definition fx_first := fx_life (lf_fs (disk fx_process))
  (Start fx_put :: advances 0 14 ++ Finish 0 :: Start fx_put_again :: advances 1 12).
Definition fx_second (f : fs) := fx_life f (Start fx_get :: advances 0 8 ++ [Finish 0]).


Definition fx_stored_history : list (event Request Response) := 
  [Call 0 fx_put; Answer 0 respond_block_204; Call 1 fx_put_again].
Definition fx_read_history : list (event Request Response) := [Call 0 fx_get; Answer 0 (respond_block_200 fx_body)].

(** Each life's history, with the storage it is configured for. *)
Definition fx_seen (x : ServerConfig * list (event Request Response) * fs) :=
  (snd (fst x), storage_backend (fst (fst x)), block_size_bytes (fst (fst x))).

Lemma fx_two_lives : (x ← fx_first; y ← fx_second (snd x); Some (fx_seen x, fx_seen y))
  = Some ((fx_stored_history, LocalFsBackend "/r", 2), (fx_read_history, LocalFsBackend "/r", 2)).
Proof. vm_compute. reflexivity. Qed.

Lemma fx_life_sound f xs x :
  fx_life f xs = Some x -> storage_backend (fst (fst x)) = LocalFsBackend "/r" -> block_size_bytes (fst (fst x)) = 2 ->
  life (Listener := SocketAddr) (Signal := SignalKind) "/r" f (fst (fst x)) (snd (fst x)) (snd x).
Proof.
  unfold fx_life. destruct (block_on bootstrap _ _) as [[[[run|] p'] o']|] eqn:Hb; [|done..].
  destruct (perform_all _ _ _) as [[[ts s'] h]|] eqn:Hr; [|done]. intros [= <-] Hs Hsz. simpl in *.
  refine (life_of "/r" f _ h _ fx_deploy_os _ run p' o' ts s' _ _ Hb eq_refl Hs _ (perform_all_sound _ _ _ _ _ Hr) _).
  - intros s1 c1 Hc1. discriminate Hc1.
  - intros id Hid. reflexivity.
  - rewrite Hsz. vm_compute. discriminate.
  - intros id Hid. reflexivity.
Qed.

Lemma deployed_vault_linearizable_witness :
  exists c1 c2 f', served_in_turn (blocks_of "/r" (lf_fs (disk fx_process)))
    [(c1, fx_stored_history); (c2, fx_read_history)] (blocks_of "/r" f').
Proof.
  pose proof fx_two_lives as Hc. destruct fx_first as [[[c1 h1] d1]|] eqn:H1; [|discriminate Hc].
  cbn [snd mbind option_bind] in Hc. destruct (fx_second d1) as [[[c2 h2] d2]|] eqn:H2; [|discriminate Hc].
  apply (inj Some) in Hc. unfold fx_seen in Hc. cbn [fst snd] in Hc.
  apply pair_equal_spec in Hc as [[[Hh1 Hb1]%pair_equal_spec Hs1]%pair_equal_spec [[Hh2 Hb2]%pair_equal_spec Hs2]%pair_equal_spec].
  pose proof (fx_life_sound _ _ _ H1 Hb1 Hs1) as L1. pose proof (fx_life_sound _ _ _ H2 Hb2 Hs2) as L2.
  cbn [fst snd] in L1, L2. rewrite Hh1 in L1. rewrite Hh2 in L2. exists c1, c2, d2.
  apply (deployed_vault_linearizable (Listener := SocketAddr) (Signal := SignalKind) "/r").
  eapply lives_cons; [exact L1|]. eapply lives_cons; [exact L2|].
  apply lives_nil. intros id Hid. reflexivity.
Defined.
